(* ===== verification/_CoqProject ===== *)
-Q . S2P
Prelude.v
GoJson.v
IdUtil.v
Fsm.v
Saga.v
SagaEvent.v
SagaJournal.v
Backoff.v
SagaExecutor.v
SagaCoordinator.v
SagaDrive.v
Command.v
CommandQueue.v
CommandSweeper.v
CircuitBreaker.v
Idempotency.v
ConsumerBase.v
OutboxStore.v
OutboxRelay.v
Base64.v
RefreshStore.v
Query.v
PgQuery.v
Tenant.v
JsonText.v
AuditLedger.v
AuditQuery.v
ProjectionStore.v
GoFlow.v
Projection.v
SagaProjection.v
SagaTailer.v
HttpWriter.v
HttpIdemStore.v
HttpFingerprint.v
HttpIdempotency.v
WebhookSign.v
WebhookReceiver.v
WebhookEgress.v
WebhookDispatch.v
WebhookDelivery.v
Reconcile.v
ReconcileQueue.v
ReconcileLoop.v
ReconcileStall.v
ReconcileLease.v
ReconcileFence.v
