(* ===== verification/Prelude.v ===== *)
(** * GoCell: a verification library for the framework's kernel and runtime

    GoCell (src/framework) is a Go framework for services made of cells that talk
    through commands, events and sagas.  This library models, as Rocq functions,
    the parts of it that decide what happens to a message, a saga, a token or an
    audit record, and proves what they promise.

    ** The program's parts and how they interact

    A service writes events and commands to its outbox in the transaction of the
    business change; the relay claims outbox rows under a lease and publishes them,
    or dispatches commands to a handler guarded by an idempotency claim; consumers
    wrap their handler in a claim, retries and a disposition for the broker; device
    commands wait in a queue until a device takes them or a sweeper expires them.
    Long-running work is a saga: a coordinator claims instances from a journal,
    runs the next step through an executor that renews the lease, appends the
    outcome, and compensates backwards when a step fails.  Read models are
    projections: a coordinator applies delivered events and rebuilds from the
    journal, a tailer follows the saga journal under a leader lock.  Requests authenticate
    with refresh tokens, see rows according to their principal, list them page by
    page through signed cursors, and leave hash-chained audit records.  A request
    with an Idempotency-Key runs its handler behind a tee that records the
    response, which later requests with the key are answered with.  Webhooks leave
    through a dispatcher that consumes outbox entries, signs them and posts them to
    vetted addresses behind a circuit breaker, and enter through a receiver that
    verifies, claims and handles them.  Reconcilers drive entities to a wanted state:
    a loop feeds triggers to workers, requeues each entity after its interval or
    backoff through a delaying queue, and on several replicas runs only on the holder
    of a lease, whose epoch fences its writes.

    ** Files

    - [Prelude]: errors, outcomes, 64-bit integers, time, [sort.Slice], slices, the
      tactics [branches] and [bools] and the hint database [gocell].
    - [GoJson], [JsonText], [Base64]: what the code uses of encoding/json and
      encoding/base64 (the scanner of [json.Valid], the encoder, reading it back).
    - [IdUtil]: pkg/idutil/{id,safeid}.go, kernel/metautil/limits.go.
    - [Fsm]: kernel/fsm/fsm.go, with the interface [TransitionSystem] that the
      status machines of sagas, commands and outbox rows implement.
    - [Saga]: kernel/saga/{status,instance,advance,definition}.go.
    - [SagaEvent], [SagaJournal]: kernel/saga/journal/{event,errors,memjournal}.go;
      the journal is a [MemJournal] record of instance rows and logs.
    - [Backoff]: the delay computations of kernel/outbox/consumer_base.go,
      runtime/saga/executor and runtime/outbox/relay.go.
    - [SagaExecutor]: runtime/saga/executor/executor.go.
    - [SagaCoordinator], [SagaDrive]: runtime/saga/coordinator.go over the
      interfaces [Journal] and [LeaseJournal], then over [MemJournal].
    - [Command], [CommandQueue], [CommandSweeper]: kernel/command and its in-memory
      queue, whose metadata maps are a shared store with aliasing; the sweeper is
      proved against the interface [CommandStore].
    - [CircuitBreaker]: kernel/circuitbreaker/breaker.go as interleaved steps.
    - [Idempotency], [ConsumerBase]: kernel/idempotency/inmem.go and
      kernel/outbox/consumer_base.go.
    - [OutboxStore], [OutboxRelay]: kernel/outbox/state.go, the store of
      runtime/outbox/outboxtest and runtime/outbox/relay.go, over the interfaces
      [Store] and [Claimer].
    - [RefreshStore]: runtime/auth/refresh and its memstore.
    - [Query]: pkg/query.
    - [PgQuery]: the builder of pkg/pgquery/builder.go, with a reader of the WHERE
      clause it builds.
    - [Tenant]: pkg/tenant and the row visibility of runtime/auth.
    - [AuditLedger], [AuditQuery]: runtime/audit/ledger, and its listings through
      [Query].
    - [ProjectionStore]: the stores, sources, carriers and phases of
      kernel/projection and the probe names of kernel/healthz, with the interface
      [JournalSource] and its laws, which both in-memory sources implement.
    - [GoFlow]: the monad of the projection drivers (errors, panics, private
      sentinels, transactions that roll back).
    - [Projection]: the Coordinator of kernel/projection (delivery, rebuild,
      probes), over any [JournalSource].
    - [SagaProjection]: kernel/saga/sagaprojection, the saga journal as a source.
    - [SagaTailer]: runtime/saga/tailer, and leaders that overlap.
    - [HttpWriter], [HttpIdemStore], [HttpFingerprint], [HttpIdempotency]:
      runtime/http/idempotency: the tee writer over a model of the net/http writer,
      keys and [MemStore] behind the interface [IdemStore], body fingerprints, and
      the middleware with its histories of interleaved requests.
    - [WebhookSign]: kernel/webhook/{webhook,source,signer,verifier}.go.
    - [WebhookReceiver]: kernel/webhook/spec.go and runtime/webhook/receiver.go, over
      the interface [Claimer].
    - [WebhookEgress]: kernel/webhook/ssrf.go, with the parsers of package net it uses.
    - [WebhookDispatch]: kernel/webhook/{retry,circuit,dispatcher}.go, over
      [CircuitBreaker].
    - [WebhookDelivery]: the dispatcher and the receiver composed, requests at the
      receiver as interleaved steps, with the dispatcher's wiring in
      runtime/webhook/dispatch/dispatch.go.
    - [Reconcile]: kernel/reconcile/{result,recovery,backoff,builder}.go and the start
      checks of its loop.go; the tracker's map and list share their elements.
    - [ReconcileQueue]: container/heap and the delaying queue of loop.go, whose heap
      and index share their items.
    - [ReconcileLoop], [ReconcileStall]: one run of loop.go's Loop as interleaved
      steps of feeder, workers and delaying queue over bounded channels; when it
      cannot move any more.
    - [ReconcileLease]: the interface [LeaderElector] with its laws [ElectorLaws], and
      its instances adapters/{postgres,redis}/reconcile_leader.go, over a model of the
      table and of the key space.
    - [ReconcileFence]: the lease terms of loop.go on several replicas and the fenced
      writes of fenced.go, over any elector with the laws.

    State is passed explicitly: an operation takes the state and returns the
    outcome with the new state.  Fallible code returns [outcome]; a Go panic is
    [None].  The clock, entropy, jitter, UUIDs, the order in which a map is ranged
    over, and what other processes do between two accesses are arguments, so the
    theorems hold for all of them.  Cryptographic primitives and third-party
    parsers are arguments with their documented properties as hypotheses.

    ** What the theorems show

    - Sagas ([SagaJournal], [SagaExecutor], [SagaDrive]): a superseded lease can
      never write; the projected status is the state of the event protocol; a drive
      keeps the log disciplined under any interference that respects leases; a saga
      whose steps succeed completes under ticks of any spacing, if enough of them come
      after its lease ran out; compensation runs backwards and never twice; an
      instance whose definition is gone is stuck in compensation.
    - Commands: a queued command is never lost and moves only along its table; at
      most one active command per key; a sweep expires exactly what is due.
    - Outbox: a row moves only along its table and a stale lease cannot write it;
      every event is published or dead-lettered, within its attempts if the pending
      rows fit the batch and within all attempts left otherwise; a dispatched
      command is not dispatched again while its done marker lives.  Consumers: a
      delivery ends within its budgets and the last run decides.
    - Idempotency and circuit breaker: exclusivity of claims, harmlessness of stale
      receipts, the number of probes admitted in any interleaving.
    - Tokens, tenants and audit: a refresh token is exchanged a bounded number of
      times and an ended session stays ended; row visibility is sound down to
      the SQL text; cursors
      cannot be forged and paging neither loses nor repeats a row; the audit chain
      keeps what it accepts, reads are isolated by tenant, and a chain that verifies
      but differs from what was appended exhibits a forged or colliding MAC.
    - Projections ([Projection], [SagaTailer]): the read model is the fold of the
      journal up to the checkpoint, no event twice, through any failures, panics,
      lost commits, rebuilds and overlapping leaders; exactly once for the tailer,
      and for the Coordinator but for the events that delivery overtook; a rebuild and
      a tick always end; a tick without failures reaches the head, poison events included.  Where
      this breaks is shown too: a handler past the gate when a rebuild starts, and
      a poison event under rebuild.
    - HTTP idempotency: in any interleaving of requests a key has one execution per
      time to live; a replay is the first response, unless its handler flushed before it
      sent a status; when exactly a retry runs the
      handler again; keys never mix tenants, subjects or endpoints; the fields
      named as changed are exactly those that differ.
    - Webhooks: an accepted request carries what the source signed, within the time
      window; a delivery is handled once, end to end, however often it is sent and
      however the attempts overlap, while no handler outlives its lease; only
      public addresses are dialled; what becomes of an entry on every branch; tenants
      do not share a breaker.  Where this breaks is shown too: identifiers with dots,
      timestamps so far ahead that the skew overflows.
    - Reconcilers: one reconcile per entity at a time and no accepted trigger lost, in
      any interleaving; the delaying queue refines a map of due times; a tracker of
      bounded size answers like exponential backoff; a deposed leader never writes
      behind its successor, with the PostgreSQL and the Redis elector.  Where this
      breaks is shown too: a loop that blocks itself when more entities are due than
      its channels hold, cancels that overtake requeues, a backoff base that is a
      power of two, epochs that start again once Redis has evicted the key.
    - Bounds: the exact ranges in which retry delays and interval checks are free of
      overflow.

    ** Bounds and fuel

    Recursion is structural wherever the loop runs over data.  Loops that are not
    bounded by data carry a number of iterations: [SagaExecutor.executeInner] and
    [ConsumerBase.retryLoop] the retry budget, which the theorems prove sufficient;
    [OutboxRelay.reclaimStale] the 16 iterations of the source; the draining loop of
    [OutboxRelay.cleanup] a number chosen by the caller, with [OutOfFuel] as a
    separate result; [AuditLedger.verifyMemChain] one more than the chain has
    entries, after which the source has returned; [Query.walk] the number of
    requests the client makes, proved sufficient; [SagaTailer.drain] one page per
    event up to the head and one more, proved sufficient although the journal grows
    while it is read; [HttpFingerprint.object_fields] the length of the text, of
    which every field takes more than one byte; [ReconcileQueue.drain] the length of
    the heap, which every round shortens, and its [up] and [down] the positions left.

    The [weather] of a projection says which call into the surroundings fails and
    how, its [interfere] what other goroutines do before a transaction or a context
    check; the theorems state what they assume of it ([rely], [trely]).

    ** What is not modelled

    Hijacked connections and pushed responses of HTTP handlers; starting and stopping
    of workers and probes, metrics, logging and tracing; of
    kernel/reconcile the triggers' goroutines and the redaction of panic values; the
    PostgreSQL, Redis, broker and Vault adapters, the lease electors apart; routers,
    gRPC and WebSocket servers; code
    generation, metadata parsing and governance tooling; the cells built on the
    framework.  Formatted values inside error texts are left out where they carry
    no control flow. *)

From stdpp Require Export base tactics list gmap strings sorting numbers pretty.
From Stdlib Require Export ZArith Lia.

(** ** Scope and small notations *)

Declare Scope gocell_scope.
Delimit Scope gocell_scope with gocell.
#[global] Open Scope Z_scope.
#[global] Open Scope gocell_scope.

(** Go's [==] on strings, as a boolean. *)
Definition str_eqb (a b : string) : bool := bool_decide (a = b).
Infix "==s" := str_eqb (at level 70, no associativity) : gocell_scope.

(** Go byte slices are modelled by byte strings.  A nil slice and an empty
    slice are the same value here: the code modelled only asks for [len]. *)
Abbreviation bytes := string (only parsing).
Definition byte_len (b : bytes) : Z := Z.of_nat (String.length b).

(** ** Errors: pkg/errcode and the [error] interface

    [Errcode] is an [errcode.Error] with its kind, code and constant message
    (public details and internal attributes are diagnostics and carry no
    control flow); [Errorf] is [fmt.Errorf("prefix: %w", cause)];
    [ErrorsNew] is a plain sentinel; [Permanent] is the [outbox.PermanentError]
    wrapper, whose [Unwrap] gives the cause. *)

Inductive Kind : Type :=
  | KindInternal | KindInvalid | KindUnauthenticated | KindPermissionDenied
  | KindNotFound | KindConflict | KindUnprocessable | KindGone
  | KindPayloadTooLarge | KindRateLimited | KindClientClosed
  | KindDeadlineExceeded | KindUnavailable | KindNotImplemented.

#[global] Instance Kind_eq_dec : EqDecision Kind.
Proof. solve_decision. Defined.

Inductive goerror : Type :=
  | Errcode (kind : Kind) (code : string) (msg : string)
  | Errorf (prefix : string) (cause : goerror)
  | ErrorsNew (msg : string)
  | Permanent (cause : goerror).

#[global] Instance goerror_eq_dec : EqDecision goerror.
Proof. solve_decision. Defined.

Definition ErrValidationFailed : string := "ERR_VALIDATION_FAILED".
Definition ErrConflict : string := "ERR_CONFLICT".
Definition ErrInternal : string := "ERR_INTERNAL".
Definition ErrRateLimited : string := "ERR_RATE_LIMITED".

(** The combination used by nearly every validator of the kernel. *)
Definition invalid (msg : string) : goerror :=
  Errcode KindInvalid ErrValidationFailed msg.

(** [errors.As(err, &ec)] for [*errcode.Error]: the first one of the chain. *)
Fixpoint errors_As_errcode (e : goerror) : option (Kind * string * string) :=
  match e with
  | Errcode k c m => Some (k, c, m)
  | Errorf _ cause | Permanent cause => errors_As_errcode cause
  | ErrorsNew _ => None
  end.

(** [errors.Is(err, target)]. *)
Fixpoint errors_Is (e target : goerror) : bool :=
  bool_decide (e = target) ||
  match e with Errorf _ cause | Permanent cause => errors_Is cause target | _ => false end.

(** The sentinels of package context. *)
Definition context_Canceled : goerror := ErrorsNew "context canceled".
Definition context_DeadlineExceeded : goerror := ErrorsNew "context deadline exceeded".

(** [err.Error()]. *)
Fixpoint error_text (e : goerror) : string :=
  match e with
  | Errcode _ code msg => ("[" ++ code ++ "] " ++ msg)%string
  | Errorf p cause => (p ++ ": " ++ error_text cause)%string
  | ErrorsNew msg => msg
  | Permanent cause => ("permanent: " ++ error_text cause)%string
  end.

Definition error_code (e : goerror) : option string :=
  (λ '(_, c, _), c) <$> errors_As_errcode e.

(** ** Outcomes: a Go [(value, error)] pair where exactly one is meaningful *)

Inductive outcome (A : Type) : Type :=
  | Ok (a : A)
  | Err (e : goerror).
Arguments Ok {A} a.
Arguments Err {A} e.

#[global] Instance outcome_eq_dec {A} `{!EqDecision A} : EqDecision (outcome A).
Proof. solve_decision. Defined.

#[global] Instance outcome_ret : MRet outcome := λ A a, Ok a.
#[global] Instance outcome_bind : MBind outcome := λ A B f r,
  match r with Ok a => f a | Err e => Err e end.
#[global] Instance outcome_fmap : FMap outcome := λ A B f r,
  match r with Ok a => Ok (f a) | Err e => Err e end.

Definition is_ok {A} (r : outcome A) : bool :=
  match r with Ok _ => true | Err _ => false end.

(** [fmt.Errorf("p: %w", err)] on the error branch. *)
Definition wrap_err {A} (p : string) (r : outcome A) : outcome A :=
  match r with Ok a => Ok a | Err e => Err (Errorf p e) end.

Lemma bind_Ok {A B} (r : outcome A) (f : A → outcome B) b :
  r ≫= f = Ok b ↔ ∃ a, r = Ok a ∧ f a = Ok b.
Proof. destruct r as [a|e]; split; [by eauto|naive_solver|done|naive_solver]. Qed.

Lemma bind_Err {A B} (r : outcome A) (f : A → outcome B) e :
  r ≫= f = Err e ↔ r = Err e ∨ ∃ a, r = Ok a ∧ f a = Err e.
Proof. destruct r as [a|e']; split; naive_solver. Qed.

(** ** Machine integers

    Go's [int] and [int64] (and [time.Duration]) are 64-bit two's complement;
    [wrap64] is the value an arithmetic operation leaves in such a variable. *)

Definition MaxInt64 : Z := 2 ^ 63 - 1.
Definition MinInt64 : Z := - 2 ^ 63.
Definition int64_range (x : Z) : Prop := MinInt64 ≤ x ≤ MaxInt64.
Definition wrap64 (x : Z) : Z := (x + 2 ^ 63) mod 2 ^ 64 - 2 ^ 63.

#[global] Instance int64_range_dec x : Decision (int64_range x).
Proof. unfold int64_range. apply _. Defined.

Lemma wrap64_id x : int64_range x → wrap64 x = x.
Proof.
  unfold int64_range, wrap64, MinInt64, MaxInt64. intros ?.
  rewrite Z.mod_small; lia.
Qed.

Lemma wrap64_range x : int64_range (wrap64 x).
Proof.
  unfold int64_range, wrap64, MinInt64, MaxInt64.
  pose proof (Z.mod_pos_bound (x + 2 ^ 63) (2 ^ 64) ltac:(lia)). lia.
Qed.

(** uint32, as used by the circuit breaker's counters. *)
Definition wrap_u32 (x : Z) : Z := x mod 2 ^ 32.
(** uint64, as used by the circuit breaker's generation. *)
Definition wrap_u64 (x : Z) : Z := x mod 2 ^ 64.

(** ** time.Time and time.Duration

    An instant is the number of nanoseconds since Go's zero time, so [0] is
    [time.Time{}].  A duration is an [int64] number of nanoseconds.  [Add] is
    exact (Go's [Time] ranges over billions of years); [Sub] saturates at the
    ends of [Duration] as [time.Time.Sub] documents. *)

Abbreviation Time := Z (only parsing).
Abbreviation Duration := Z (only parsing).

Definition IsZero (t : Time) : bool := t =? 0.
Definition Before (t u : Time) : bool := t <? u.
Definition After (t u : Time) : bool := u <? t.
Definition Sub (t u : Time) : Duration := Z.max MinInt64 (Z.min MaxInt64 (t - u)).

Definition Millisecond : Duration := 1000000.
Definition Second : Duration := 1000 * Millisecond.
Definition Minute : Duration := 60 * Second.
Definition Hour : Duration := 60 * Minute.

(** [Time.UnixNano]: an int64 count from 1970, which wraps outside 1678-2262. *)
Definition unix_epoch : Time := 62135596800 * Second.
Definition UnixNano (t : Time) : Z := wrap64 (t - unix_epoch).

(** ** sort.Slice

    [sort.Slice] is not stable: it returns some permutation in which no element
    is [less] than an earlier one.  [sort_Slice] picks one; where the order is
    total on the elements sorted it is the only one ([sort_Slice_unique]). *)

Section sort.
Context {A : Type} (less : A → A → bool).

Definition not_after (x y : A) : Prop := less y x = false.

#[global] Instance not_after_dec x y : Decision (not_after x y).
Proof. unfold not_after. apply _. Defined.

Definition sort_Slice (l : list A) : list A := merge_sort not_after l.

Lemma sort_Slice_perm l : sort_Slice l ≡ₚ l.
Proof. apply merge_sort_Permutation. Qed.

Lemma sort_Slice_elem x l : x ∈ sort_Slice l ↔ x ∈ l.
Proof. by rewrite sort_Slice_perm. Qed.

Lemma sort_Slice_length l : length (sort_Slice l) = length l.
Proof. by rewrite sort_Slice_perm. Qed.

Lemma sort_Slice_sorted `{!Transitive not_after, !Total not_after} l :
  StronglySorted not_after (sort_Slice l).
Proof. by apply StronglySorted_merge_sort. Qed.

(** Any sorted permutation of [l] is [sort_Slice l] when ties are impossible
    among the elements of [l]. *)
Lemma sort_Slice_unique `{!Transitive not_after, !Total not_after} l l' :
  (∀ x y, x ∈ l → y ∈ l → not_after x y → not_after y x → x = y) →
  l' ≡ₚ l → StronglySorted not_after l' → l' = sort_Slice l.
Proof.
  intros Hanti Hperm Hs.
  apply (StronglySorted_unique_strong not_after).
  - intros x y Hx Hy. rewrite Hperm in Hx. rewrite sort_Slice_elem in Hy. by apply Hanti.
  - done.
  - by apply sort_Slice_sorted.
  - by rewrite sort_Slice_perm.
Qed.
End sort.

Lemma take_sorted {A} (R : relation A) n (l : list A) :
  StronglySorted R l → StronglySorted R (take n l).
Proof. intros Hs. rewrite <- (take_drop n l) in Hs. by eapply StronglySorted_app_1_l. Qed.

Lemma take_sorted_before {A} (R : relation A) n (l : list A) x y :
  StronglySorted R l → x ∈ take n l → y ∈ drop n l → R x y.
Proof.
  intros Hs Hx Hy. rewrite <- (take_drop n l) in Hs.
  by eapply StronglySorted_app_1_elem_of.
Qed.

(** Go's [<] on strings is bytewise lexicographic, as [String.ltb]. *)
Lemma string_ltb_false a b : String.ltb b a = false ↔ String.le a b.
Proof.
  unfold String.le, String.ltb, String.leb.
  rewrite (String.compare_antisym b a). by destruct (String.compare a b).
Qed.

(** The shape of nearly every [less] closure of the kernel: a timestamp, with
    the identifier as tie-break. *)
Section time_id.
Context {A : Type} (time : A → Time) (id : A → string).

Definition time_id_less (x y : A) : bool :=
  if time x =? time y then String.ltb (id x) (id y) else Before (time x) (time y).

Lemma not_after_time_id x y :
  not_after time_id_less x y ↔
  time x < time y ∨ (time x = time y ∧ String.le (id x) (id y)).
Proof.
  unfold not_after, time_id_less, Before. rewrite <- string_ltb_false.
  destruct (time y =? time x) eqn:He.
  - apply Z.eqb_eq in He. split; [intros ?; right; done|intros [?|[_ ?]]; [lia|done]].
  - apply Z.eqb_neq in He. rewrite Z.ltb_ge. lia.
Qed.

#[global] Instance time_id_total : Total (not_after time_id_less).
Proof.
  intros x y. rewrite !not_after_time_id.
  destruct (Z.lt_trichotomy (time x) (time y)) as [?|[->|?]]; [tauto| |tauto].
  destruct (total String.le (id x) (id y)); tauto.
Qed.

#[global] Instance time_id_trans : Transitive (not_after time_id_less).
Proof.
  intros x y z. rewrite !not_after_time_id.
  intros [?|[? H1]] [?|[? H2]]; [left; lia..|].
  right. split; [lia|]. by transitivity (id y).
Qed.

Lemma time_id_antisym x y :
  not_after time_id_less x y → not_after time_id_less y x → id x = id y.
Proof.
  rewrite !not_after_time_id. intros [?|[? H1]] [?|[? H2]]; [lia..|].
  by apply (anti_symm String.le).
Qed.

(** Ranging over a map in any order and sorting by (time, id) gives one list. *)
Lemma sort_time_id_unique l l' :
  NoDup (id <$> l) → l' ≡ₚ l → sort_Slice time_id_less l' = sort_Slice time_id_less l.
Proof.
  intros Hnd Hp. apply (@sort_Slice_unique A time_id_less _ _).
  - intros x y Hx Hy Hxy Hyx. pose proof (time_id_antisym _ _ Hxy Hyx) as Heq.
    apply list_elem_of_lookup in Hx as [i Hi]. apply list_elem_of_lookup in Hy as [j Hj].
    assert (i = j); [|congruence].
    eapply NoDup_lookup; [done|rewrite list_lookup_fmap, Hi; done|].
    by rewrite list_lookup_fmap, Hj, Heq.
  - by rewrite sort_Slice_perm.
  - apply sort_Slice_sorted; apply _.
Qed.
End time_id.

(** ** Option timestamps ([*time.Time]) *)

Definition opt_le (o : option Time) (t : Time) : Prop :=
  match o with None => True | Some u => u ≤ t end.

(** ** List facts shared by the components *)

Lemma list_lookup_snoc {A} (l : list A) x i y :
  (l ++ [x]) !! i = Some y ↔ l !! i = Some y ∨ (i = length l ∧ y = x).
Proof.
  rewrite lookup_app_Some, list_lookup_singleton_Some. split.
  - intros [?|(?&?&<-)]; [by left|right; split; [lia|done]].
  - intros [?|[-> ->]]; [by left|right; split; [lia|split; [lia|done]]].
Qed.

Lemma Forall_snoc {A} (P : A → Prop) l x : Forall P (l ++ [x]) ↔ Forall P l ∧ P x.
Proof. rewrite Forall_app, Forall_singleton. done. Qed.

Lemma NoDup_snoc {A} (l : list A) x : NoDup (l ++ [x]) ↔ NoDup l ∧ x ∉ l.
Proof.
  rewrite NoDup_app. split.
  - intros (?&H&_). split; [done|]. intros Hx. by eapply H; [|apply list_elem_of_singleton].
  - intros [? H]. split; [done|]. split; [|apply NoDup_singleton].
    by intros y Hy ->%list_elem_of_singleton.
Qed.

Lemma filter_all {A} (P : A → Prop) `{!∀ x, Decision (P x)} l : Forall P l → filter P l = l.
Proof. induction 1 as [|x l Hx Hl IH]; [done|]. rewrite filter_cons, decide_True, IH; done. Qed.

Lemma filter_none {A} (P : A → Prop) `{!∀ x, Decision (P x)} l : Forall (λ x, ¬ P x) l → filter P l = [].
Proof. induction 1 as [|x l Hx Hl IH]; [done|]. rewrite filter_cons, decide_False, IH; done. Qed.

Lemma filter_ext_in {A} (P Q : A → Prop) `{!∀ x, Decision (P x), !∀ x, Decision (Q x)} l :
  Forall (λ x, P x ↔ Q x) l → filter P l = filter Q l.
Proof.
  induction 1 as [|x l Hx _ IH]; [done|]. rewrite !filter_cons, IH.
  repeat case_decide; done || tauto.
Qed.

Lemma filter_snoc {A} (P : A → Prop) `{!∀ x, Decision (P x)} (l : list A) x :
  filter P (l ++ [x]) = filter P l ++ (if decide (P x) then [x] else []).
Proof. by rewrite filter_app. Qed.

Lemma sublist_reverse {A} (l k : list A) : l `sublist_of` k → reverse l `sublist_of` reverse k.
Proof.
  induction 1 as [|x l k _ IH|x l k _ IH]; [done|..]; rewrite ?reverse_cons.
  - by apply sublist_app.
  - by apply sublist_inserts_r.
Qed.

Lemma triple_eta {A B C} (c : A * B * C) : c = (c.1.1, c.1.2, c.2).
Proof. by destruct c as [[??]?]. Qed.

(** ** Slice expressions

    [l[start:stop]]; [None] is Go's run-time panic for bounds out of range. *)

Definition go_slice {A} (l : list A) (start stop : Z) : option (list A) :=
  if (0 <=? start) && (start <=? stop) && (stop <=? Z.of_nat (length l))
  then Some (take (Z.to_nat (stop - start)) (drop (Z.to_nat start) l))
  else None.

Lemma go_slice_Some {A} (l : list A) start stop :
  0 ≤ start → start ≤ stop → stop ≤ Z.of_nat (length l) →
  go_slice l start stop = Some (take (Z.to_nat (stop - start)) (drop (Z.to_nat start) l)).
Proof.
  intros ???. unfold go_slice.
  destruct (0 <=? start) eqn:?, (start <=? stop) eqn:?, (stop <=? _) eqn:?; done || lia.
Qed.

(** ** Tactics *)

(** Case analysis on every boolean test, [match] and [decide] of a hypothesis
    or goal, discarding the branches whose outcome contradicts it. *)
Ltac branches :=
  repeat (simplify_eq/=; try (case_match; try done; simplify_eq/=)).

(** Turns boolean tests on integers and times into inequalities. *)
Ltac bools :=
  repeat match goal with
  | H : Before _ _ = _ |- _ => unfold Before in H
  | H : After _ _ = _ |- _ => unfold After in H
  | H : IsZero _ = _ |- _ => unfold IsZero in H
  | H : str_eqb _ _ = _ |- _ => unfold str_eqb in H
  | H : _ && _ = true |- _ => apply andb_prop in H; destruct H
  | H : _ || _ = false |- _ => apply orb_false_elim in H; destruct H
  | H : negb _ = true |- _ => apply negb_true_iff in H
  | H : negb _ = false |- _ => apply negb_false_iff in H
  | H : (_ <? _) = true |- _ => apply Z.ltb_lt in H
  | H : (_ <? _) = false |- _ => apply Z.ltb_ge in H
  | H : (_ <=? _) = true |- _ => apply Z.leb_le in H
  | H : (_ <=? _) = false |- _ => apply Z.leb_gt in H
  | H : (_ =? _) = true |- _ => apply Z.eqb_eq in H
  | H : (_ =? _) = false |- _ => apply Z.eqb_neq in H
  | H : bool_decide _ = true |- _ => apply bool_decide_eq_true in H
  | H : bool_decide _ = false |- _ => apply bool_decide_eq_false in H
  end.

Create HintDb gocell.
Create Rewrite HintDb gocell.
#[export] Hint Resolve wrap64_range sort_Slice_perm : gocell.
#[export] Hint Rewrite @sort_Slice_elem @sort_Slice_length : gocell.
