(* ===== verification/GoJson.v ===== *)
(** * encoding/json.Valid

    The byte scanner behind [json.Valid], used by the saga journal to refuse
    event payloads that are not JSON.  Its states are the step functions of
    Go's [scanner] and [parse_stack] is its [parseState] slice; each byte is one
    transition, so the definition is structural on the input and executable. *)

From Stdlib Require Import Ascii String.
From S2P Require Import Prelude.

Inductive parse_state : Type := parseObjectKey | parseObjectValue | parseArrayValue.

Inductive scan_state : Type :=
  | stateBeginValue | stateBeginValueOrEmpty
  | stateBeginString | stateBeginStringOrEmpty
  | stateEndValue | stateEndTop
  | stateInString | stateInStringEsc | stateInStringEscU (hex_left : nat)
  | stateNeg | state1 | state0 | stateDot | stateDot0 | stateE | stateESign | stateE0
  | stateLiteral (rest : list ascii).

(** The scanner between two bytes: the next step function, the open containers
    (innermost first) and whether a complete top-level value was read. *)
Record scanner := Scanner {
  sc_step : scan_state;
  parse_stack : list parse_state;
  endTop : bool;
}.

Definition maxNestingDepth : Z := 10000.

Definition is_json_space (c : ascii) : bool :=
  (c =? " ")%char || (c =? "009")%char || (c =? "010")%char || (c =? "013")%char.

Definition in_range (lo hi c : ascii) : bool :=
  (N_of_ascii lo <=? N_of_ascii c)%N && (N_of_ascii c <=? N_of_ascii hi)%N.

Definition is_digit (c : ascii) : bool := in_range "0" "9" c.
Definition is_digit19 (c : ascii) : bool := in_range "1" "9" c.
Definition is_hex (c : ascii) : bool :=
  is_digit c || in_range "a" "f" c || in_range "A" "F" c.
Definition is_escape (c : ascii) : bool :=
  bool_decide (c ∈ ["b"; "f"; "n"; "r"; "t"; "\"; "/"; "034"]%char).

Definition goto (st : scan_state) (s : scanner) : option scanner :=
  Some (Scanner st (parse_stack s) (endTop s)).

Definition pushParseState (p : parse_state) (st : scan_state) (s : scanner) : option scanner :=
  if Z.of_nat (length (p :: parse_stack s)) <=? maxNestingDepth
  then Some (Scanner st (p :: parse_stack s) (endTop s)) else None.

Definition popParseState (s : scanner) : option scanner :=
  match tail (parse_stack s) with
  | [] => Some (Scanner stateEndTop [] true)
  | ps => Some (Scanner stateEndValue ps (endTop s))
  end.

Definition replaceTop (p : parse_state) (st : scan_state) (s : scanner) : option scanner :=
  Some (Scanner st (p :: tail (parse_stack s)) (endTop s)).

Definition step_EndTop (c : ascii) (s : scanner) : option scanner :=
  if is_json_space c then Some s else None.

Definition step_EndValue (c : ascii) (s : scanner) : option scanner :=
  match parse_stack s with
  | [] => step_EndTop c (Scanner stateEndTop [] true)
  | p :: _ =>
    if is_json_space c then goto stateEndValue s else
    match p with
    | parseObjectKey =>
        if (c =? ":")%char then replaceTop parseObjectValue stateBeginValue s else None
    | parseObjectValue =>
        if (c =? ",")%char then replaceTop parseObjectKey stateBeginString s
        else if (c =? "}")%char then popParseState s else None
    | parseArrayValue =>
        if (c =? ",")%char then goto stateBeginValue s
        else if (c =? "]")%char then popParseState s else None
    end
  end.

Definition step_BeginString (c : ascii) (s : scanner) : option scanner :=
  if is_json_space c then Some s
  else if (c =? "034")%char then goto stateInString s else None.

Definition step_BeginValue (c : ascii) (s : scanner) : option scanner :=
  if is_json_space c then Some s
  else if (c =? "{")%char then pushParseState parseObjectKey stateBeginStringOrEmpty s
  else if (c =? "[")%char then pushParseState parseArrayValue stateBeginValueOrEmpty s
  else if (c =? "034")%char then goto stateInString s
  else if (c =? "-")%char then goto stateNeg s
  else if (c =? "0")%char then goto state0 s
  else if (c =? "t")%char then goto (stateLiteral ["r"; "u"; "e"]%char) s
  else if (c =? "f")%char then goto (stateLiteral ["a"; "l"; "s"; "e"]%char) s
  else if (c =? "n")%char then goto (stateLiteral ["u"; "l"; "l"]%char) s
  else if is_digit19 c then goto state1 s else None.

Definition step_0 (c : ascii) (s : scanner) : option scanner :=
  if (c =? ".")%char then goto stateDot s
  else if (c =? "e")%char || (c =? "E")%char then goto stateE s
  else step_EndValue c s.

Definition step_ESign (c : ascii) (s : scanner) : option scanner :=
  if is_digit c then goto stateE0 s else None.

(** One call of [scan.step(c)]; [None] is [scanError]. *)
Definition scan_byte (c : ascii) (s : scanner) : option scanner :=
  match sc_step s with
  | stateBeginValue => step_BeginValue c s
  | stateBeginValueOrEmpty =>
      if is_json_space c then Some s
      else if (c =? "]")%char then step_EndValue c s else step_BeginValue c s
  | stateBeginStringOrEmpty =>
      if is_json_space c then Some s
      else if (c =? "}")%char
      then s' ← replaceTop parseObjectValue stateEndValue s; step_EndValue c s'
      else step_BeginString c s
  | stateBeginString => step_BeginString c s
  | stateEndValue => step_EndValue c s
  | stateEndTop => step_EndTop c s
  | stateInString =>
      if (c =? "034")%char then goto stateEndValue s
      else if (c =? "\")%char then goto stateInStringEsc s
      else if (N_of_ascii c <? 32)%N then None else Some s
  | stateInStringEsc =>
      if is_escape c then goto stateInString s
      else if (c =? "u")%char then goto (stateInStringEscU 4) s else None
  | stateInStringEscU n =>
      if is_hex c
      then match n with
           | S (S k) => goto (stateInStringEscU (S k)) s
           | _ => goto stateInString s
           end
      else None
  | stateNeg =>
      if (c =? "0")%char then goto state0 s
      else if is_digit19 c then goto state1 s else None
  | state1 => if is_digit c then goto state1 s else step_0 c s
  | state0 => step_0 c s
  | stateDot => if is_digit c then goto stateDot0 s else None
  | stateDot0 =>
      if is_digit c then Some s
      else if (c =? "e")%char || (c =? "E")%char then goto stateE s
      else step_EndValue c s
  | stateE =>
      if (c =? "+")%char || (c =? "-")%char then goto stateESign s else step_ESign c s
  | stateESign => step_ESign c s
  | stateE0 => if is_digit c then Some s else step_EndValue c s
  | stateLiteral [] => step_EndValue c s
  | stateLiteral (x :: rest) =>
      if (c =? x)%char
      then goto (match rest with [] => stateEndValue | _ => stateLiteral rest end) s
      else None
  end.

Fixpoint scan_bytes (b : bytes) (s : scanner) : option scanner :=
  match b with
  | EmptyString => Some s
  | String c b' => s' ← scan_byte c s; scan_bytes b' s'
  end.

(** [checkValid]: feed every byte, then [scan.eof()], which feeds a space. *)
Definition json_Valid (b : bytes) : bool :=
  match scan_bytes b (Scanner stateBeginValue [] false) with
  | None => false
  | Some s =>
      endTop s ||
      match scan_byte " " s with Some s' => endTop s' | None => false end
  end.

(** [bytes.TrimSpace] on ASCII white space.  It is applied to text that
    [json_Valid] accepted, which starts and ends with ASCII bytes. *)
Definition is_ascii_space (c : ascii) : bool := (c =? " ")%char || in_range "009" "013" c.

Fixpoint trim_left (b : bytes) : bytes :=
  match b with
  | EmptyString => EmptyString
  | String c b' => if is_ascii_space c then trim_left b' else b
  end.

Fixpoint trim_right (b : bytes) : bytes :=
  match b with
  | EmptyString => EmptyString
  | String c b' =>
      match trim_right b' with
      | EmptyString => if is_ascii_space c then EmptyString else String c EmptyString
      | t => String c t
      end
  end.

Definition bytes_TrimSpace (b : bytes) : bytes := trim_right (trim_left b).

(** ** json.Marshal of strings

    The encoder of a Go string with HTML escaping on: ASCII bytes outside
    [htmlSafeSet] are escaped, U+2028 and U+2029 are escaped, and a byte that does
    not start a well-formed UTF-8 sequence becomes the replacement character. *)

Definition quote : ascii := "034".
Definition byte_val (c : ascii) : Z := Z.of_N (N_of_ascii c).
Definition byte_between (lo hi : Z) (c : ascii) : bool := (lo <=? byte_val c) && (byte_val c <=? hi).
Definition cont_byte (c : ascii) : bool := byte_between 128 191 c.

(** Size of the UTF-8 sequence that starts with the byte [c] (not ASCII) and goes
    on with [s]; 1 for an encoding error. *)
Definition rune_size (c : ascii) (s : string) : nat :=
  match s with
  | String c1 s1 =>
      if byte_between 194 223 c then (if cont_byte c1 then 2%nat else 1%nat)
      else
        let ok1 :=
          if byte_val c =? 224 then byte_between 160 191 c1
          else if byte_val c =? 237 then byte_between 128 159 c1
          else if byte_val c =? 240 then byte_between 144 191 c1
          else if byte_val c =? 244 then byte_between 128 143 c1
          else cont_byte c1 in
        match s1 with
        | String c2 s2 =>
            if byte_between 224 239 c then (if ok1 && cont_byte c2 then 3%nat else 1%nat)
            else match s2 with
                 | String c3 _ =>
                     if byte_between 240 244 c && ok1 && cont_byte c2 && cont_byte c3 then 4%nat else 1%nat
                 | EmptyString => 1%nat
                 end
        | EmptyString => 1%nat
        end
  | EmptyString => 1%nat
  end.

Definition lower_hex (n : Z) : ascii :=
  if n <? 10 then ascii_of_nat (48 + Z.to_nat n) else ascii_of_nat (87 + Z.to_nat n).

Definition html_safe (c : ascii) : bool :=
  byte_between 32 127 c &&
  negb (bool_decide (c ∈ [quote; "\"; "&"; "<"; ">"]%char)).

Definition escape_ascii (c : ascii) : string :=
  if html_safe c then String c EmptyString
  else if (c =? "\")%char || (c =? quote)%char then String "\" (String c EmptyString)
  else if (c =? "008")%char then "\b"
  else if (c =? "012")%char then "\f"
  else if (c =? "010")%char then "\n"
  else if (c =? "013")%char then "\r"
  else if (c =? "009")%char then "\t"
  else ("\u00" ++ String (lower_hex (byte_val c / 16))
          (String (lower_hex (byte_val c mod 16)) EmptyString))%string.

(** U+2028 and U+2029 are E2 80 A8 and E2 80 A9. *)
Definition line_separator (c c1 c2 : ascii) : bool :=
  (byte_val c =? 226) && (byte_val c1 =? 128) && byte_between 168 169 c2.

Fixpoint json_escape (s : string) : string :=
  match s with
  | EmptyString => EmptyString
  | String c s1 =>
      if byte_val c <? 128 then (escape_ascii c ++ json_escape s1)%string
      else
        match rune_size c s1, s1 with
        | 2%nat, String c1 s2 => String c (String c1 (json_escape s2))
        | 3%nat, String c1 (String c2 s3) =>
            if line_separator c c1 c2
            then ("\u202" ++ String (lower_hex (byte_val c2 mod 16)) (json_escape s3))%string
            else String c (String c1 (String c2 (json_escape s3)))
        | 4%nat, String c1 (String c2 (String c3 s4)) =>
            String c (String c1 (String c2 (String c3 (json_escape s4))))
        | _, _ => ("\ufffd" ++ json_escape s1)%string
        end
  end.

Definition json_string (s : string) : string :=
  String quote (json_escape s ++ String quote EmptyString)%string.

(** [json.Marshal] of a struct with one string field tagged [name]. *)
Definition json_object1 (name value : string) : bytes :=
  ("{" ++ json_string name ++ ":" ++ json_string value ++ "}")%string.

(** A byte string with its double quotes written as single ones. *)
Fixpoint requote (b : bytes) : bytes :=
  match b with
  | EmptyString => EmptyString
  | String c b' => String (if (c =? "'")%char then "034"%char else c) (requote b')
  end.

Example json_accepts :
  forallb (json_Valid ∘ requote)
    ["{'a': [1, -2.5e+3, true, null, 'x\n\u00e9'], 'b': {}}"; " null "; "0"; "[[],{}]"] = true.
Proof. vm_compute. reflexivity. Qed.

Example json_rejects :
  existsb (json_Valid ∘ requote)
    [EmptyString; "{"; "01"; "[1,]"; "{'a'}"; "nul"; "1 2"; "{'a':1,}"; "'a"; "-"; "1."; "'\x'"] = false.
Proof. vm_compute. reflexivity. Qed.

(** ** What the encoder emits is a JSON string *)

Lemma append_String c (a b : string) :
  (String c a ++ b)%string = String c (a ++ b)%string.
Proof. reflexivity. Qed.

Lemma append_Empty (b : string) : (EmptyString ++ b)%string = b.
Proof. reflexivity. Qed.

Lemma append_assoc (a b c : string) : ((a ++ b) ++ c)%string = (a ++ (b ++ c))%string.
Proof. induction a as [|x a IH]; [done|]. by rewrite !append_String, IH. Qed.

Lemma append_nil (b : string) : (b ++ EmptyString)%string = b.
Proof. induction b as [|c b IH]; [done|]. by rewrite append_String, IH. Qed.

Lemma scan_bytes_app a b s :
  scan_bytes (a ++ b)%string s = (s' ← scan_bytes a s; scan_bytes b s').
Proof.
  revert s. induction a as [|c a IH]; intros s; [done|]. rewrite append_String. cbn.
  destruct (scan_byte c s); [apply IH|done].
Qed.

(** Bytes of multi-byte sequences are copied and never end a JSON string. *)
Lemma scan_high_byte c st e :
  (byte_val c <? 128) = false →
  scan_byte c (Scanner stateInString st e) = Some (Scanner stateInString st e).
Proof. destruct c as [[] [] [] [] [] [] [] []]; try done. Qed.

Lemma scan_escape_ascii c st e :
  (byte_val c <? 128) = true →
  scan_bytes (escape_ascii c) (Scanner stateInString st e) = Some (Scanner stateInString st e).
Proof. destruct c as [[] [] [] [] [] [] [] []]; try done. Qed.

Lemma cont_high c : cont_byte c = true → (byte_val c <? 128) = false.
Proof. unfold cont_byte, byte_between. intros [? _]%andb_prop. lia. Qed.

Lemma between_high lo hi c : 128 <= lo → byte_between lo hi c = true → (byte_val c <? 128) = false.
Proof. unfold byte_between. intros ? [? _]%andb_prop. lia. Qed.

Definition high (c : ascii) : Prop := (byte_val c <? 128) = false.

(** The bytes of a sequence [rune_size] accepts are all above ASCII. *)
Lemma rune_size_high c s :
  match rune_size c s, s with
  | 2%nat, String c1 _ => high c1
  | 3%nat, String c1 (String c2 _) => high c1 ∧ high c2
  | 4%nat, String c1 (String c2 (String c3 _)) => high c1 ∧ high c2 ∧ high c3
  | _, _ => True
  end.
Proof.
  unfold high. destruct s as [|c1 s1]; [done|]. cbn [rune_size].
  destruct (byte_between 194 223 c).
  { destruct (cont_byte c1) eqn:?; [by apply cont_high|done]. }
  set (ok1 := if byte_val c =? 224 then _ else _).
  assert (Hok1 : ok1 = true → (byte_val c1 <? 128) = false).
  { unfold ok1, cont_byte. repeat case_match; apply between_high; lia. }
  destruct s1 as [|c2 s2]; [done|].
  destruct (byte_between 224 239 c).
  { destruct ok1; [|done]. destruct (cont_byte c2) eqn:?; cbn; [|done].
    split; [by apply Hok1|by apply cont_high]. }
  destruct s2 as [|c3 s3]; [done|].
  destruct (byte_between 240 244 c); [|done]. destruct ok1; [|done].
  destruct (cont_byte c2) eqn:?; [|done]. destruct (cont_byte c3) eqn:?; [|done]. cbn.
  split_and!; [by apply Hok1|by apply cont_high..].
Qed.

Lemma scan_bytes_high c b st e :
  high c →
  scan_bytes (String c b) (Scanner stateInString st e) = scan_bytes b (Scanner stateInString st e).
Proof. intros Hc. cbn [scan_bytes]. by rewrite scan_high_byte. Qed.

(** The four ways [json_escape] makes progress: it consumes a non-empty chunk of
    the input and emits at most six bytes per byte consumed, which leave the
    scanner inside the string. *)
Lemma json_escape_chunk s :
  s = EmptyString ∨
  ∃ out rest, json_escape s = (out ++ json_escape rest)%string ∧
    (String.length rest < String.length s)%nat ∧
    (String.length out ≤ 6 * (String.length s - String.length rest))%nat ∧
    ∀ st e, scan_bytes out (Scanner stateInString st e) = Some (Scanner stateInString st e).
Proof.
  destruct s as [|c s1]; [by left|]. right. cbn [json_escape].
  destruct (byte_val c <? 128) eqn:Hc.
  { exists (escape_ascii c), s1. cbn [String.length].
    split_and!; [done|lia| |intros; by apply scan_escape_ascii].
    assert (String.length (escape_ascii c) ≤ 6)%nat; [|lia].
    destruct c as [[] [] [] [] [] [] [] []]; vm_compute; lia. }
  assert (Hrep : ∃ out rest, ("\ufffd" ++ json_escape s1)%string = (out ++ json_escape rest)%string ∧
    (String.length rest < String.length (String c s1))%nat ∧
    (String.length out ≤ 6 * (String.length (String c s1) - String.length rest))%nat ∧
    ∀ st e, scan_bytes out (Scanner stateInString st e) = Some (Scanner stateInString st e)).
  { exists "\ufffd"%string, s1. cbn [String.length]. split_and!; [done|lia|lia|done]. }
  pose proof (rune_size_high c s1) as Hh.
  destruct (rune_size c s1) as [|[|[|[|[|n]]]]] eqn:Hr; try apply Hrep.
  - destruct s1 as [|c1 s2]; [apply Hrep|].
    exists (String c (String c1 EmptyString)), s2. cbn [String.length].
    split_and!; [done|lia|lia|]. intros. by rewrite !scan_bytes_high.
  - destruct s1 as [|c1 [|c2 s3]]; [apply Hrep..|]. destruct Hh as [Hh1 Hh2].
    destruct (line_separator c c1 c2) eqn:Hl.
    + exists ("\u202" ++ String (lower_hex (byte_val c2 mod 16)) EmptyString)%string, s3.
      cbn [String.length]. split_and!; [done|lia| |].
      * change (6 ≤ 6 * (S (S (S (String.length s3))) - String.length s3))%nat. lia.
      * intros. apply andb_prop in Hl as [_ Hl].
        destruct c2 as [[] [] [] [] [] [] [] []]; vm_compute in Hl; try discriminate; done.
    + exists (String c (String c1 (String c2 EmptyString))), s3. cbn [String.length].
      split_and!; [done|lia|lia|]. intros. by rewrite !scan_bytes_high.
  - destruct s1 as [|c1 [|c2 [|c3 s4]]]; [apply Hrep..|]. destruct Hh as (?&?&?).
    exists (String c (String c1 (String c2 (String c3 EmptyString)))), s4. cbn [String.length].
    split_and!; [done|lia|lia|]. intros. by rewrite !scan_bytes_high.
Qed.

Lemma length_append (a b : string) :
  String.length (a ++ b)%string = (String.length a + String.length b)%nat.
Proof. induction a as [|c a IH]; [done|]. rewrite append_String. cbn. lia. Qed.

Lemma json_escape_spec s :
  (String.length (json_escape s) ≤ 6 * String.length s)%nat ∧
  ∀ st e, scan_bytes (json_escape s) (Scanner stateInString st e) = Some (Scanner stateInString st e).
Proof.
  remember (String.length s) as n eqn:Hn. revert s Hn.
  induction (lt_wf n) as [n _ IH]. intros s ->.
  destruct (json_escape_chunk s) as [->|(out&rest&->&Hlt&Hlen&Hscan)]; [done|].
  destruct (IH _ Hlt rest eq_refl) as [IHl IHs]. split.
  - rewrite length_append. lia.
  - intros. rewrite scan_bytes_app, Hscan. cbn. apply IHs.
Qed.

(** An object with one string field is valid JSON, starts with a brace, and is
    at most six bytes per byte of the value longer than its skeleton. *)
Lemma json_object1_valid name value :
  scan_bytes ("{" ++ json_string name ++ ":")%string (Scanner stateBeginValue [] false)
    = Some (Scanner stateBeginValue [parseObjectValue] false) →
  json_Valid (json_object1 name value) = true.
Proof.
  intros Hname. unfold json_Valid, json_object1.
  assert (Happ : ("{" ++ json_string name ++ ":" ++ json_string value ++ "}")%string
    = (("{" ++ json_string name ++ ":") ++ json_string value ++ "}")%string).
  { rewrite !append_assoc. done. }
  rewrite Happ, scan_bytes_app, Hname. cbn [mbind option_bind].
  unfold json_string. rewrite append_String. cbn [scan_bytes].
  change (scan_byte quote (Scanner stateBeginValue [parseObjectValue] false))
    with (Some (Scanner stateInString [parseObjectValue] false)). cbn [mbind option_bind].
  rewrite append_assoc, scan_bytes_app. rewrite (proj2 (json_escape_spec value)). done.
Qed.

(** ** Strings joined by a separator *)

Fixpoint all_chars (f : ascii → bool) (s : string) : bool :=
  match s with EmptyString => true | String c s' => f c && all_chars f s' end.

(** [s] does not contain [sep]. *)
Definition lacks (sep : ascii) (s : string) : bool := all_chars (λ c, negb (c =? sep)%char) s.

Lemma lacks_app sep a b : lacks sep (a ++ b)%string = lacks sep a && lacks sep b.
Proof. unfold lacks. induction a as [|c a IH]; [done|]. rewrite append_String. cbn. by rewrite IH, andb_assoc. Qed.

Lemma lacks_sep sep a b : lacks sep (a ++ String sep b)%string = false.
Proof. rewrite lacks_app. unfold lacks at 2. cbn. rewrite Ascii.eqb_refl. cbn. by rewrite andb_false_r. Qed.

(** The first separator. *)
Lemma split_first sep a b x y :
  lacks sep a = true → lacks sep b = true → (a ++ String sep x)%string = (b ++ String sep y)%string → a = b ∧ x = y.
Proof.
  revert b. induction a as [|c a IH]; intros [|d b] Ha Hb; rewrite ?append_String, ?append_Empty; intros Heq; injection Heq.
  - by intros ->.
  - intros _ <-. unfold lacks in Hb. cbn in Hb. by rewrite Ascii.eqb_refl in Hb.
  - intros _ ->. unfold lacks in Ha. cbn in Ha. by rewrite Ascii.eqb_refl in Ha.
  - intros H1 ->. apply andb_prop in Ha as [_ Ha], Hb as [_ Hb]. by destruct (IH b Ha Hb H1) as [-> ->].
Qed.

(** The last separator. *)
Lemma split_last sep a b x y :
  lacks sep x = true → lacks sep y = true → (a ++ String sep x)%string = (b ++ String sep y)%string → a = b ∧ x = y.
Proof.
  intros Hx Hy. revert b. induction a as [|c a IH]; intros [|d b]; rewrite ?append_String, ?append_Empty; intros Heq; injection Heq.
  - by intros ->.
  - intros -> _. by rewrite lacks_sep in Hx.
  - intros <- _. by rewrite lacks_sep in Hy.
  - intros H1 ->. by destruct (IH b H1) as [-> ->].
Qed.
