(* ===== verification/IdUtil.v ===== *)
(** * pkg/idutil and kernel/metautil

    Identifier validation ([IsSafeID], [SafeID]), UUID v4 formatting over the 16
    bytes read from the entropy source, and the metadata size limits shared by
    the command queue and the outbox.  A Go map is ranged over in an unspecified
    order, so [ValidateLimits] takes the order of the iteration as its argument
    and the theorems hold for every order. *)

From Stdlib Require Import Ascii String.
From S2P Require Import Prelude GoJson.

Definition MaxMetadataIDLen : Z := 256.

(** The [switch] of [IsSafeID]'s loop body. *)
Definition safe_byte (c : ascii) : bool :=
  in_range "a" "z" c || in_range "A" "Z" c || in_range "0" "9" c ||
  ((c =? ".")%char || (c =? "_")%char || (c =? ":")%char || (c =? "/")%char || (c =? "-")%char).

Fixpoint all_safe (s : string) : bool :=
  match s with
  | EmptyString => true
  | String c s' => if safe_byte c then all_safe s' else false
  end.

Definition IsSafeID (s : string) : bool :=
  if byte_len s =? 0 then false else all_safe s.

Definition validateSafeIDString (s : string) : outcome unit :=
  if s ==s EmptyString then Ok tt
  else if byte_len s >? MaxMetadataIDLen then Err (ErrorsNew "idutil: SafeID too long")
  else if negb (IsSafeID s)
  then Err (ErrorsNew "idutil: SafeID contains unsafe characters")
  else Ok tt.

Definition ParseSafeID (s : string) : outcome string :=
  _ ← validateSafeIDString s; Ok s.

(** ** newUUID *)

Definition hex_digit (n : Z) : ascii :=
  if n <? 10 then ascii_of_nat (48 + Z.to_nat n) else ascii_of_nat (87 + Z.to_nat n).

(** [%x] of one byte, two digits. *)
Definition hex_byte (b : Z) : string :=
  String (hex_digit (Z.shiftr b 4)) (String (hex_digit (Z.land b 15)) EmptyString).

Definition hex_bytes (l : list Z) : string := foldr (λ b s, (hex_byte b ++ s)%string) EmptyString l.

(** [entropy] is what [io.ReadFull(rand.Reader, buf)] delivered: 16 bytes, or
    fewer together with the reader's error. *)
Definition newUUID (entropy : list Z) : outcome string :=
  if bool_decide (length entropy = 16%nat)
  then
    let buf := alter (λ b, Z.lor (Z.land b 15) 64) 6%nat
              (alter (λ b, Z.lor (Z.land b 63) 128) 8%nat entropy) in
    let part i n := hex_bytes (take n (drop i buf)) in
    Ok (part 0%nat 4%nat ++ "-" ++ part 4%nat 2%nat ++ "-" ++ part 6%nat 2%nat ++ "-"
        ++ part 8%nat 2%nat ++ "-" ++ part 10%nat 6%nat)%string
  else Err (Errorf "idutil: read entropy" (ErrorsNew "unexpected EOF")).

(** ** kernel/metautil *)

Definition MaxMetadataKeys : Z := 64.
Definition MaxMetadataKeyLen : Z := 256.
Definition MaxMetadataValueLen : Z := 4096.
Definition MaxMetadataTotalSize : Z := 65536.
Definition DomainOutbox : string := "outbox".
Definition DomainCommand : string := "command".

Definition Assertion (msg : string) : goerror := Errcode KindInternal ErrInternal msg.

(** The two-way [switch prefix] of the four error constructors. *)
Definition by_domain (prefix what fn : string) : goerror :=
  if prefix ==s DomainOutbox then invalid ("outbox: metadata " ++ what)
  else if prefix ==s DomainCommand then invalid ("command: metadata " ++ what)
  else Assertion ("metautil: " ++ fn ++ " unknown prefix").

Definition newKeyCountErr (prefix : string) : goerror :=
  by_domain prefix "key count exceeds max" "newKeyCountErr".
Definition newKeyLenErr (prefix : string) : goerror :=
  by_domain prefix "key length exceeds max" "newKeyLenErr".
Definition newValueLenErr (prefix : string) : goerror :=
  by_domain prefix "value length exceeds max" "newValueLenErr".
Definition newTotalSizeErr (prefix : string) : goerror :=
  by_domain prefix "total size exceeds max" "newTotalSizeErr".

(** The [for k, v := range m] loop; [total] is its accumulator.  At most 64
    entries of at most 4352 bytes are added, so it stays far below 2^63. *)
Fixpoint range_limits (prefix : string) (kvs : list (string * string)) (total : Z) : outcome Z :=
  match kvs with
  | [] => Ok total
  | (k, v) :: rest =>
      if byte_len k >? MaxMetadataKeyLen then Err (newKeyLenErr prefix)
      else if byte_len v >? MaxMetadataValueLen then Err (newValueLenErr prefix)
      else range_limits prefix rest (total + byte_len k + byte_len v)
  end.

Definition ValidateLimits (m : list (string * string)) (domainPrefix : string) : outcome unit :=
  if negb (domainPrefix ==s DomainOutbox) && negb (domainPrefix ==s DomainCommand)
  then Err (Assertion "metautil: unknown domain prefix (use DomainOutbox or DomainCommand)")
  else if Z.of_nat (length m) =? 0 then Ok tt
  else if Z.of_nat (length m) >? MaxMetadataKeys then Err (newKeyCountErr domainPrefix)
  else
    total ← range_limits domainPrefix m 0;
    if total >? MaxMetadataTotalSize then Err (newTotalSizeErr domainPrefix) else Ok tt.

Definition Truncate (s : string) (n : nat) : string :=
  if byte_len s <=? Z.of_nat n then s else (substring 0 n s ++ "...")%string.

(** ** Lemmas *)

Definition total_size (m : list (string * string)) : Z :=
  foldr (λ kv acc, byte_len kv.1 + byte_len kv.2 + acc) 0 m.

Lemma byte_len_app (a b : string) : byte_len (a ++ b)%string = byte_len a + byte_len b.
Proof.
  unfold byte_len. induction a as [|c a IH]; [done|].
  change (append (String c a) b) with (String c (append a b)). cbn. lia.
Qed.

Lemma all_safe_app (a b : string) : all_safe (a ++ b)%string = all_safe a && all_safe b.
Proof.
  induction a as [|c a IH]; [done|].
  change (append (String c a) b) with (String c (append a b)). cbn.
  rewrite IH. by destruct (safe_byte c).
Qed.

Lemma range_limits_Ok prefix m acc total :
  range_limits prefix m acc = Ok total ↔
  Forall (λ kv, byte_len kv.1 ≤ MaxMetadataKeyLen ∧ byte_len kv.2 ≤ MaxMetadataValueLen) m ∧
  total = acc + total_size m.
Proof.
  revert acc. induction m as [|[k v] m IH]; intros acc; cbn.
  - rewrite Forall_nil. split; [intros [= ->]|intros [_ ->]]; [split; [done|lia]|f_equal; lia].
  - fold (total_size m). rewrite Forall_cons; cbn. rewrite !Z.gtb_ltb.
    destruct (MaxMetadataKeyLen <? byte_len k) eqn:?; bools; [by split; [|intros [[[??] _] _]; lia]|].
    destruct (MaxMetadataValueLen <? byte_len v) eqn:?; bools; [by split; [|intros [[[??] _] _]; lia]|].
    rewrite IH. split; intros [H1 H2]; [split; [by split|lia]|split; [by apply H1|lia]].
Qed.

#[global] Instance total_size_proper : Proper ((≡ₚ) ==> (=)) total_size.
Proof. unfold total_size. induction 1; cbn; lia. Qed.

Lemma hex_digit_safe n : 0 ≤ n < 16 → safe_byte (hex_digit n) = true.
Proof.
  intros ?. assert (Hn : n ∈ seqZ 0 16) by (apply elem_of_seqZ; lia).
  vm_compute in Hn. set_unfold in Hn. naive_solver.
Qed.

Lemma hex_bytes_spec l :
  Forall (λ b, 0 ≤ b < 256) l →
  all_safe (hex_bytes l) = true ∧ byte_len (hex_bytes l) = 2 * Z.of_nat (length l).
Proof.
  induction 1 as [|b l Hb Hl [IH1 IH2]]; [done|].
  cbn [hex_bytes foldr]. fold (hex_bytes l).
  rewrite all_safe_app, byte_len_app, IH1, IH2. cbn [length all_safe hex_byte].
  rewrite !hex_digit_safe.
  - split; [done|]. unfold hex_byte, byte_len. cbn. lia.
  - change 15 with (Z.ones 4). rewrite Z.land_ones by lia. apply Z.mod_pos_bound. lia.
  - rewrite Z.shiftr_div_pow2 by lia. split; [apply Z.div_pos; lia|].
    apply Z.div_lt_upper_bound; lia.
Qed.

Lemma validateSafeIDString_Ok s u :
  validateSafeIDString s = Ok u ↔
  s = EmptyString ∨ (byte_len s ≤ MaxMetadataIDLen ∧ IsSafeID s = true).
Proof.
  unfold validateSafeIDString, str_eqb. destruct u. rewrite Z.gtb_ltb.
  case_bool_decide; [tauto|].
  destruct (MaxMetadataIDLen <? byte_len s) eqn:?; bools.
  - split; [done|]. intros [?|[??]]; [done|lia].
  - destruct (IsSafeID s); cbn; [tauto|]. split; [done|]. by intros [?|[??]].
Qed.

Lemma masked_byte b m k :
  0 ≤ b < 256 → 0 ≤ m < 256 → 0 ≤ k < 256 → 0 ≤ Z.lor (Z.land b m) k < 256.
Proof.
  intros Hb Hm Hk.
  assert (Hn : 0 ≤ Z.lor (Z.land b m) k).
  { apply Z.lor_nonneg. split; [apply Z.land_nonneg; lia|lia]. }
  split; [done|]. apply (Z.log2_lt_cancel _ (2 ^ 8)). rewrite Z.log2_pow2 by lia.
  rewrite Z.log2_lor by (try apply Z.land_nonneg; lia).
  assert (Z.log2 k < 8) by (destruct (decide (k = 0)) as [->|]; [done|apply Z.log2_lt_pow2; lia]).
  assert (Z.log2 m < 8) by (destruct (decide (m = 0)) as [->|]; [done|apply Z.log2_lt_pow2; lia]).
  pose proof (Z.log2_land b m ltac:(lia) ltac:(lia)). lia.
Qed.

Lemma Forall_alter_byte f i (l : list Z) :
  (∀ b, 0 ≤ b < 256 → 0 ≤ f b < 256) →
  Forall (λ b, 0 ≤ b < 256) l → Forall (λ b, 0 ≤ b < 256) (alter f i l).
Proof. intros Hf Hl. apply Forall_alter; [done|]. eauto. Qed.

(** ** Properties *)

(** for any 16 bytes of entropy [newUUID] succeeds and its result is a
    36-byte identifier that [ParseSafeID] accepts unchanged; with fewer bytes it
    reports an error. *)
Theorem newUUID_safe entropy :
  Forall (λ b, 0 ≤ b < 256) entropy →
  match newUUID entropy with
  | Ok id => length entropy = 16%nat ∧ byte_len id = 36 ∧ ParseSafeID id = Ok id
  | Err _ => length entropy ≠ 16%nat
  end.
Proof.
  intros Hb. unfold newUUID. case_bool_decide as Hlen; [|done]. split; [done|].
  set (buf := alter _ 6%nat _).
  assert (Hbuf : Forall (λ b, 0 ≤ b < 256) buf).
  { repeat apply Forall_alter_byte; try done; intros; by apply masked_byte. }
  assert (Hl : length buf = 16%nat) by (unfold buf; by rewrite !length_alter).
  set (id := (_ ++ _)%string).
  assert (Hid : byte_len id = 36 ∧ all_safe id = true).
  { subst id. rewrite !byte_len_app, !all_safe_app.
    repeat match goal with
    | |- context [hex_bytes (take ?n (drop ?i buf))] =>
        destruct (hex_bytes_spec (take n (drop i buf))) as [Hs ->];
        [by apply Forall_take, Forall_drop|]; rewrite Hs, length_take, length_drop, Hl; clear Hs
    end. done. }
  destruct Hid as [Hl36 Hs]. split; [done|]. unfold ParseSafeID.
  replace (validateSafeIDString id) with (Ok tt); [done|]. symmetry.
  apply validateSafeIDString_Ok. right. unfold IsSafeID. by rewrite Hl36.
Qed.

Lemma newUUID_safe_witness :
  newUUID [18; 52; 86; 120; 154; 188; 222; 240; 255; 0; 1; 2; 3; 4; 5; 6]
  = Ok "12345678-9abc-4ef0-bf00-010203040506" ∧
  ParseSafeID "12345678-9abc-4ef0-bf00-010203040506" = Ok "12345678-9abc-4ef0-bf00-010203040506".
Proof.
  split; [vm_compute; reflexivity|].
  refine (proj2 (proj2 (newUUID_safe
    [18; 52; 86; 120; 154; 188; 222; 240; 255; 0; 1; 2; 3; 4; 5; 6] _))).
  repeat constructor; cbn; lia.
Defined.

(** [ValidateLimits] accepts a metadata map exactly when it has at most 64
    entries, every key has at most 256 bytes, every value at most 4096 and all
    together at most 65536; the verdict does not depend on the order in which
    Go ranges over the map. *)
Theorem ValidateLimits_iff domain m :
  (domain = DomainOutbox ∨ domain = DomainCommand) →
  (is_ok (ValidateLimits m domain) = true ↔
   Z.of_nat (length m) ≤ MaxMetadataKeys ∧
   Forall (λ kv, byte_len kv.1 ≤ MaxMetadataKeyLen ∧ byte_len kv.2 ≤ MaxMetadataValueLen) m ∧
   total_size m ≤ MaxMetadataTotalSize) ∧
  (∀ m', m ≡ₚ m' → is_ok (ValidateLimits m domain) = is_ok (ValidateLimits m' domain)).
Proof.
  intros Hd.
  assert (Hiff : ∀ m, is_ok (ValidateLimits m domain) = true ↔
    Z.of_nat (length m) ≤ MaxMetadataKeys ∧
    Forall (λ kv, byte_len kv.1 ≤ MaxMetadataKeyLen ∧ byte_len kv.2 ≤ MaxMetadataValueLen) m ∧
    total_size m ≤ MaxMetadataTotalSize).
  { clear m. intros m. unfold ValidateLimits.
    replace (negb _ && negb _) with false by (by destruct Hd as [-> | ->]).
    destruct m as [|kv m]; [by split|]. set (l := kv :: m).
    replace (Z.of_nat (length l) =? 0) with false by done. rewrite Z.gtb_ltb.
    destruct (MaxMetadataKeys <? _) eqn:?; bools; [split; [done|lia]|].
    destruct (range_limits domain l 0) as [t|e] eqn:Hr; cbn [mbind outcome_bind].
    - apply range_limits_Ok in Hr as [? ->]. rewrite Z.gtb_ltb.
      destruct (MaxMetadataTotalSize <? _) eqn:?; bools; cbn [is_ok]; split; (done || lia || by split_and!; [..|lia]).
    - split; [done|]. intros (_&Hf&_).
      assert (range_limits domain l 0 = Ok (0 + total_size l)) by (by apply range_limits_Ok).
      congruence. }
  split; [apply Hiff|]. intros m' Hp. apply Bool.eq_iff_eq_true. rewrite !Hiff.
  by rewrite Hp.
Qed.

Lemma ValidateLimits_iff_witness :
  is_ok (ValidateLimits [("trace_id", "abc"); ("k", "v")] DomainOutbox) = true.
Proof.
  apply (ValidateLimits_iff DomainOutbox); [by left|].
  split; [vm_compute; congruence|]. split; [|vm_compute; congruence].
  repeat constructor; vm_compute; congruence.
Defined.
