(* ===== verification/Fsm.v ===== *)
(** * kernel/fsm: transition tables

    [CanTransition] and [AllowedTargets], and the interface the owning packages
    implement with them.  A table is a Go map literal, so an association list
    with distinct keys; a missing key reads as the nil slice.

    [TransitionSystem] is what kernel/saga, kernel/command and kernel/outbox
    promise about their tables (edges only between valid states, terminal states
    are exactly the ones without edges); [RankedSystem] adds that every edge
    climbs a bounded rank.  The generic facts about runs are proved once here
    from the interface and instantiated by each package. *)

From S2P Require Import Prelude.

Abbreviation table S := (list (S * list S)).

Section helpers.
Context {S : Type} `{EqDecision S}.

(** [table[from]] *)
Fixpoint table_get (t : table S) (from : S) : list S :=
  match t with
  | [] => []
  | (k, targets) :: rest => if bool_decide (k = from) then targets else table_get rest from
  end.

Definition CanTransition (t : table S) (from to : S) : bool :=
  bool_decide (to ∈ table_get t from).

Definition AllowedTargets (t : table S) (from : S) : option (list S) :=
  match table_get t from with
  | [] => None
  | targets => Some targets
  end.

Lemma AllowedTargets_None t from :
  AllowedTargets t from = None ↔ ∀ to, CanTransition t from to = false.
Proof.
  unfold AllowedTargets, CanTransition. destruct (table_get t from) as [|x l]; split.
  - intros _ to. by apply bool_decide_eq_false, not_elem_of_nil.
  - done.
  - done.
  - intros H. specialize (H x). rewrite bool_decide_eq_false in H. set_solver.
Qed.

Lemma AllowedTargets_Some t from l :
  AllowedTargets t from = Some l → ∀ to, CanTransition t from to = true ↔ to ∈ l.
Proof.
  unfold AllowedTargets, CanTransition. intros Hl to.
  destruct (table_get t from) eqn:Heq; simplify_eq. by rewrite bool_decide_eq_true.
Qed.
End helpers.

(** ** Interface *)

Class TransitionSystem (S : Type) `{EqDecision S} := {
  ts_table : table S;
  ts_valid : S → bool;
  ts_terminal : S → bool;
  ts_edges_valid s t :
    CanTransition ts_table s t = true → ts_valid s = true ∧ ts_valid t = true;
  ts_terminal_spec s :
    ts_valid s = true → ts_terminal s = true ↔ AllowedTargets ts_table s = None;
}.

Class RankedSystem (S : Type) `{TransitionSystem S} := {
  ts_rank : S → nat;
  ts_max_rank : nat;
  ts_rank_bound s : (ts_rank s ≤ ts_max_rank)%nat;
  ts_rank_climbs s t : CanTransition ts_table s t = true → (ts_rank s < ts_rank t)%nat;
}.

Section runs.
Context {S : Type} `{TransitionSystem S}.

(** One legal transition. *)
Definition edge (s t : S) : Prop := CanTransition ts_table s t = true.

Lemma terminal_no_edge s t : ts_valid s = true → ts_terminal s = true → ¬ edge s t.
Proof.
  intros Hv Ht. apply ts_terminal_spec in Ht; [|done].
  rewrite AllowedTargets_None in Ht. unfold edge. by rewrite Ht.
Qed.

Lemma run_from_terminal s t :
  ts_valid s = true → ts_terminal s = true → rtc edge s t → t = s.
Proof. intros Hv Ht [->|(u&He&_)]%rtc_inv; [done|]. by apply terminal_no_edge in He. Qed.

Lemma run_valid s t : rtc edge s t → ts_valid s = true → ts_valid t = true.
Proof. induction 1 as [|? ? ? He _ IH]; [done|]. intros _. apply IH. by destruct (ts_edges_valid _ _ He). Qed.

Lemma nonterminal_has_edge s :
  ts_valid s = true → ts_terminal s = false → ∃ t, edge s t.
Proof.
  intros Hv Ht. destruct (AllowedTargets ts_table s) as [[|t l]|] eqn:Heq.
  - exfalso. revert Heq. unfold AllowedTargets. by case_match.
  - exists t. unfold edge. rewrite (AllowedTargets_Some _ _ _ Heq). set_solver.
  - apply ts_terminal_spec in Heq; [|done]. congruence.
Qed.

Lemma ranked_run `{!RankedSystem S} n s t :
  nsteps edge n s t → (n + ts_rank s ≤ ts_rank t)%nat.
Proof.
  induction 1 as [|n s u t He _ IH]; [done|]. apply ts_rank_climbs in He. lia.
Qed.

Lemma ranked_run_bounded `{!RankedSystem S} n s t :
  nsteps edge n s t → (n ≤ ts_max_rank - ts_rank s)%nat.
Proof. intros Hn%ranked_run. pose proof (ts_rank_bound t). lia. Qed.
End runs.
