(* ===== verification/Saga.v ===== *)
(** * kernel/saga: status machine, instances, definitions, registry

    [Status] keeps the source's eight constants; [StatusOther] stands for the
    uint8 values that are not constants, so that [Valid], [String] and [==] act
    as they do on the raw byte.  [AdvanceSaga] and [AdvanceStep] take the
    [*Instance] as an option (nil) and return the instance they leave behind.
    [StepFunc] and [CompensateFunc] are application code: what they return may
    differ at every call, so they take the number of the call. *)

From S2P Require Import Prelude IdUtil Fsm.

(** ** status.go *)

Inductive Status : Type :=
  | StatusPending | StatusRunning | StatusCompensating | StatusSucceeded
  | StatusFailed | StatusCompensated | StatusExpired | StatusCompensationFailed
  | StatusOther (n : N).

#[global] Instance Status_eq_dec : EqDecision Status.
Proof. solve_decision. Defined.

(** The uint8 behind a status; [StatusOther 0] is the zero value. *)
Definition Status_code (s : Status) : Z :=
  match s with
  | StatusPending => 1 | StatusRunning => 2 | StatusCompensating => 3
  | StatusSucceeded => 4 | StatusFailed => 5 | StatusCompensated => 6
  | StatusExpired => 7 | StatusCompensationFailed => 8
  | StatusOther n => if (n =? 0)%N then 0 else 8 + Z.of_N n
  end.

Definition Status_Valid (s : Status) : bool :=
  (Status_code StatusPending <=? Status_code s) &&
  (Status_code s <=? Status_code StatusCompensationFailed).

Definition Status_String (s : Status) : string :=
  match s with
  | StatusPending => "pending" | StatusRunning => "running"
  | StatusCompensating => "compensating" | StatusSucceeded => "succeeded"
  | StatusFailed => "failed" | StatusCompensated => "compensated"
  | StatusExpired => "expired" | StatusCompensationFailed => "compensation_failed"
  | StatusOther n =>
      if (n =? 0)%N then "invalid" else ("status(" ++ pretty (Status_code s) ++ ")")%string
  end.

Definition Status_IsTerminal (s : Status) : bool :=
  match s with
  | StatusSucceeded | StatusFailed | StatusCompensated | StatusExpired
  | StatusCompensationFailed => true
  | _ => false
  end.

Definition statusTransitions : table Status :=
  [ (StatusPending, [StatusRunning; StatusFailed; StatusExpired]);
    (StatusRunning, [StatusSucceeded; StatusCompensating; StatusFailed; StatusExpired]);
    (StatusCompensating, [StatusCompensated; StatusCompensationFailed; StatusExpired]) ].

Definition CanTransitionTo (s target : Status) : bool := CanTransition statusTransitions s target.

Definition ValidTransitions (s : Status) : option (list Status) :=
  AllowedTargets statusTransitions s.

Definition Transition (from to : Status) : outcome unit :=
  if CanTransitionTo from to then Ok tt
  else Err (invalid "saga: invalid status transition").

(** ** instance.go *)

Record Instance := MkInstance {
  ID : string;
  DefinitionID : string;
  inst_Status : Status;
  CurrentStep : Z;
  StartedAt : Time;
  UpdatedAt : option Time;
  CompletedAt : option Time;
}.

#[global] Instance Instance_eq_dec : EqDecision Instance.
Proof. solve_decision. Defined.

Definition NewInstance (id definitionID : string) (now : Time) : Instance :=
  MkInstance id definitionID StatusPending 0 now None None.

Definition validateIdentity (i : Instance) : outcome unit :=
  if ID i ==s "" then Err (invalid "saga: instance missing ID")
  else if negb (is_ok (validateSafeIDString (ID i)))
  then Err (invalid "saga: instance has invalid ID")
  else if DefinitionID i ==s "" then Err (invalid "saga: instance missing DefinitionID")
  else if negb (is_ok (validateSafeIDString (DefinitionID i)))
  then Err (invalid "saga: instance has invalid DefinitionID")
  else Ok tt.

Definition validateInitialState (i : Instance) : outcome unit :=
  if negb (Status_Valid (inst_Status i)) then Err (invalid "saga: instance has invalid Status")
  else if negb (bool_decide (inst_Status i = StatusPending))
  then Err (invalid "saga: new instance must have Pending status")
  else if negb (CurrentStep i =? 0)
  then Err (invalid "saga: new instance must have CurrentStep=0")
  else if IsZero (StartedAt i) then Err (invalid "saga: instance missing StartedAt")
  else if negb (bool_decide (UpdatedAt i = None)) || negb (bool_decide (CompletedAt i = None))
  then Err (invalid "saga: new instance must not have UpdatedAt/CompletedAt timestamps")
  else Ok tt.

Definition ValidateNew (i : Instance) : outcome unit :=
  _ ← validateIdentity i; validateInitialState i.

(** ** advance.go *)

Definition guardMonotonic (inst : Instance) (now : Time) : outcome unit :=
  if Before now (StartedAt inst)
  then Err (invalid "saga: advance now precedes StartedAt (clock skew?)")
  else match UpdatedAt inst with
       | Some u => if Before now u
                   then Err (invalid "saga: advance now precedes previous UpdatedAt (clock skew?)")
                   else Ok tt
       | None => Ok tt
       end.

Definition AdvanceSaga (inst : option Instance) (to : Status) (now : Time) : outcome Instance :=
  match inst with
  | None => Err (invalid "saga: nil Instance")
  | Some i =>
      _ ← Transition (inst_Status i) to;
      _ ← guardMonotonic i now;
      Ok (MkInstance (ID i) (DefinitionID i) to (CurrentStep i) (StartedAt i) (Some now)
            (if Status_IsTerminal to then Some now else CompletedAt i))
  end.

Definition AdvanceStep (inst : option Instance) (stepCount : Z) (now : Time) : outcome Instance :=
  match inst with
  | None => Err (invalid "saga: nil Instance")
  | Some i =>
      if negb (bool_decide (inst_Status i = StatusRunning))
      then Err (invalid "saga: AdvanceStep requires Running status")
      else if stepCount <=? 0
      then Err (invalid "saga: AdvanceStep requires positive stepCount")
      else if CurrentStep i <? 0
      then Err (invalid "saga: AdvanceStep on instance with negative CurrentStep")
      else if CurrentStep i >=? wrap64 (stepCount - 1)
      then Err (invalid "saga: AdvanceStep would exceed step count")
      else
        _ ← guardMonotonic i now;
        Ok (MkInstance (ID i) (DefinitionID i) (inst_Status i) (wrap64 (CurrentStep i + 1))
              (StartedAt i) (Some now) (CompletedAt i))
  end.

(** ** definition.go *)

(** What one invocation of application code does: return (state, error), or panic. *)
Inductive run_result : Type :=
  | RunReturned (newState : bytes) (err : option goerror)
  | RunPanicked.

Definition StepFunc : Type := nat → Instance → bytes → run_result.

Inductive compensate_result : Type :=
  | CompensateReturned (err : option goerror)
  | CompensatePanicked.

Definition CompensateFunc : Type := nat → Instance → bytes → compensate_result.

Record RetryPolicy := MkRetryPolicy {
  MaxAttempts : Z;
  BaseInterval : Duration;
  MaxInterval : Duration;
}.

Definition RetryPolicy_Validate (p : RetryPolicy) : outcome unit :=
  if MaxAttempts p <? 0 then Err (invalid "saga retry policy: MaxAttempts must be >= 0")
  else if BaseInterval p <? 0 then Err (invalid "saga retry policy: BaseInterval must be >= 0")
  else if MaxInterval p <? 0 then Err (invalid "saga retry policy: MaxInterval must be >= 0")
  else if (BaseInterval p >? 0) && (MaxInterval p >? 0) && (MaxInterval p <? BaseInterval p)
  then Err (invalid "saga retry policy: MaxInterval must be >= BaseInterval")
  else Ok tt.

Record Step := MkStep {
  Name : string;
  Run : option StepFunc;
  Compensate : option CompensateFunc;
  step_Timeout : Duration;
  step_RetryPolicy : RetryPolicy;
}.

Record Definition_ := MkDefinition {
  def_ID : string;
  Steps : list Step;
  def_Timeout : Duration;
  def_RetryPolicy : RetryPolicy;
}.

Definition validateStep (step : Step) : outcome unit :=
  if Name step ==s "" then Err (invalid "saga definition: step missing Name")
  else if negb (is_ok (validateSafeIDString (Name step)))
  then Err (invalid "saga definition: invalid step Name")
  else if bool_decide (is_Some (Run step)) then
    if step_Timeout step <? 0 then Err (invalid "saga definition: step Timeout must be >= 0")
    else if negb (is_ok (RetryPolicy_Validate (step_RetryPolicy step)))
    then Err (invalid "saga definition: invalid step RetryPolicy")
    else Ok tt
  else Err (invalid "saga definition: step Run must not be nil").

(** The [for i, step := range d.Steps] loop; [seen] is the map's key set (the
    indices it stores are only diagnostics). *)
Fixpoint validate_steps (steps : list Step) (seen : gset string) : outcome unit :=
  match steps with
  | [] => Ok tt
  | step :: rest =>
      _ ← validateStep step;
      if bool_decide (Name step ∈ seen)
      then Err (Errcode KindConflict ErrConflict "saga definition: duplicate step Name")
      else validate_steps rest ({[ Name step ]} ∪ seen)
  end.

Definition Definition_Validate (d : Definition_) : outcome unit :=
  if def_ID d ==s "" then Err (invalid "saga definition: missing ID")
  else if negb (is_ok (validateSafeIDString (def_ID d)))
  then Err (invalid "saga definition: invalid ID")
  else if Z.of_nat (length (Steps d)) =? 0
  then Err (invalid "saga definition: must have at least one step")
  else if def_Timeout d <? 0 then Err (invalid "saga definition: Timeout must be >= 0")
  else if negb (is_ok (RetryPolicy_Validate (def_RetryPolicy d)))
  then Err (invalid "saga definition: invalid RetryPolicy")
  else validate_steps (Steps d) ∅.

Abbreviation InMemoryRegistry := (gmap string Definition_).

Fixpoint register_all (defs : list (option Definition_)) (r : InMemoryRegistry)
    : outcome InMemoryRegistry :=
  match defs with
  | [] => Ok r
  | None :: _ => Err (invalid "saga registry: nil definition")
  | Some d :: rest =>
      _ ← Definition_Validate d;
      if bool_decide (is_Some (r !! def_ID d))
      then Err (Errcode KindConflict ErrConflict "saga registry: duplicate definition ID")
      else register_all rest (<[def_ID d := d]> r)
  end.

Definition NewInMemoryRegistry (defs : list (option Definition_)) : outcome InMemoryRegistry :=
  register_all defs ∅.

Definition Lookup (r : InMemoryRegistry) (id : string) : option Definition_ := r !! id.

(** ** Status machine: instances of the kernel/fsm interface *)

Lemma StatusOther_invalid n : Status_Valid (StatusOther n) = false.
Proof.
  unfold Status_Valid; cbn. destruct (n =? 0)%N eqn:Hn; [done|].
  apply N.eqb_neq in Hn. apply andb_false_iff. right. apply Z.leb_gt. lia.
Qed.

#[global] Program Instance saga_transition_system : TransitionSystem Status := {
  ts_table := statusTransitions;
  ts_valid := Status_Valid;
  ts_terminal := Status_IsTerminal;
}.
Next Obligation. intros [] []; vm_compute; first [discriminate|by split]. Qed.
Next Obligation. intros [| | | | | | | |n]; [done..|]. intros Hv. by rewrite StatusOther_invalid in Hv. Qed.

(** Pending < Running < Compensating < every terminal status. *)
Definition Status_rank (s : Status) : nat :=
  match s with
  | StatusPending => 0 | StatusRunning => 1 | StatusCompensating => 2 | _ => 3
  end%nat.

#[global] Program Instance saga_ranked_system : RankedSystem Status := {
  ts_rank := Status_rank;
  ts_max_rank := 3%nat;
}.
Next Obligation. intros []; vm_compute; lia. Qed.
Next Obligation. intros [] []; vm_compute; first [discriminate|lia]. Qed.

Lemma Transition_Ok from to u : Transition from to = Ok u ↔ edge from to.
Proof.
  unfold Transition, edge, CanTransitionTo; cbn.
  destruct u. destruct (CanTransition _ _ _); naive_solver.
Qed.

Lemma guardMonotonic_Ok i now u :
  guardMonotonic i now = Ok u ↔ StartedAt i ≤ now ∧ opt_le (UpdatedAt i) now.
Proof.
  unfold guardMonotonic, opt_le. destruct u.
  destruct (Before now (StartedAt i)) eqn:?; bools; [split; [done|lia]|].
  destruct (UpdatedAt i) as [u|]; [|by split].
  destruct (Before now u) eqn:?; bools; split; intros; (done || lia).
Qed.

(** ** The instance invariant *)

(** Timestamps are ordered, and [CompletedAt] is set exactly on terminal
    statuses, to the instant of the last update. *)
Record instance_wf (i : Instance) : Prop := {
  iw_valid : Status_Valid (inst_Status i) = true;
  iw_updated : opt_le (Some (StartedAt i)) (default (StartedAt i) (UpdatedAt i));
  iw_completed :
    CompletedAt i = if Status_IsTerminal (inst_Status i) then UpdatedAt i else None;
  iw_terminal_updated : Status_IsTerminal (inst_Status i) = true → is_Some (UpdatedAt i);
  iw_fresh : inst_Status i ≠ StatusPending → is_Some (UpdatedAt i);
}.

Lemma AdvanceSaga_Ok i to now i' :
  AdvanceSaga (Some i) to now = Ok i' ↔
  edge (inst_Status i) to ∧ StartedAt i ≤ now ∧ opt_le (UpdatedAt i) now ∧
  i' = MkInstance (ID i) (DefinitionID i) to (CurrentStep i) (StartedAt i) (Some now)
         (if Status_IsTerminal to then Some now else CompletedAt i).
Proof.
  cbn. setoid_rewrite bind_Ok. setoid_rewrite Transition_Ok.
  setoid_rewrite bind_Ok. setoid_rewrite guardMonotonic_Ok.
  split; [naive_solver|]. intros (?&?&?&->). exists tt. split; [done|]. by exists tt.
Qed.

Lemma AdvanceStep_Ok i n now i' :
  int64_range n → int64_range (CurrentStep i) →
  AdvanceStep (Some i) n now = Ok i' ↔
  inst_Status i = StatusRunning ∧ 0 ≤ CurrentStep i ∧ CurrentStep i + 1 < n ∧
  StartedAt i ≤ now ∧ opt_le (UpdatedAt i) now ∧
  i' = MkInstance (ID i) (DefinitionID i) StatusRunning (CurrentStep i + 1) (StartedAt i)
         (Some now) (CompletedAt i).
Proof.
  intros Hn Hc. cbn. rewrite Z.geb_leb.
  case_bool_decide as Hs; cbn; [|naive_solver].
  destruct (n <=? 0) eqn:?; bools; [split; [done|intros; lia]|].
  destruct (CurrentStep i <? 0) eqn:?; bools; [split; [done|intros; lia]|].
  rewrite (wrap64_id (n - 1)) by (unfold int64_range, MinInt64, MaxInt64 in *; lia).
  destruct (n - 1 <=? CurrentStep i) eqn:?; bools; [split; [done|intros; lia]|].
  rewrite (wrap64_id (CurrentStep i + 1)) by (unfold int64_range, MinInt64, MaxInt64 in *; lia).
  rewrite bind_Ok. setoid_rewrite guardMonotonic_Ok. rewrite Hs. split.
  - intros ([]&[??]&[= <-]). repeat split; (done || lia).
  - intros (?&?&?&?&?&->). by exists tt.
Qed.

Lemma AdvanceSaga_wf i to now i' :
  instance_wf i → AdvanceSaga (Some i) to now = Ok i' → instance_wf i'.
Proof.
  intros Hwf (He&Hs&Hu&->)%AdvanceSaga_Ok. split; cbn.
  - by destruct (ts_edges_valid _ _ He).
  - done.
  - destruct (Status_IsTerminal to); [done|]. rewrite (iw_completed _ Hwf).
    destruct (Status_IsTerminal (inst_Status i)) eqn:Ht; [|done].
    exfalso. eapply terminal_no_edge, He; [apply Hwf|done].
  - by eauto.
  - by eauto.
Qed.

Lemma NewInstance_wf id def now : instance_wf (NewInstance id def now).
Proof. by split; cbn; [|lia|..]. Qed.

(** ** Definitions *)

Definition valid_name (s : string) : Prop :=
  s ≠ "" ∧ byte_len s ≤ MaxMetadataIDLen ∧ IsSafeID s = true.

Lemma valid_name_iff s :
  valid_name s ↔ s ≠ "" ∧ is_ok (validateSafeIDString s) = true.
Proof.
  unfold valid_name, validateSafeIDString, str_eqb. rewrite Z.gtb_ltb.
  case_bool_decide; [naive_solver|].
  destruct (MaxMetadataIDLen <? byte_len s) eqn:?; bools.
  - split; [intros; lia|by intros []].
  - destruct (IsSafeID s); cbn; split; intros []; try done. by intuition.
Qed.

Definition valid_policy (p : RetryPolicy) : Prop :=
  0 ≤ MaxAttempts p ∧ 0 ≤ BaseInterval p ∧ 0 ≤ MaxInterval p ∧
  (0 < BaseInterval p → 0 < MaxInterval p → BaseInterval p ≤ MaxInterval p).

Lemma RetryPolicy_Validate_Ok p :
  is_ok (RetryPolicy_Validate p) = true ↔ valid_policy p.
Proof.
  unfold RetryPolicy_Validate, valid_policy. rewrite !Z.gtb_ltb.
  repeat match goal with
  | |- context [if ?b then _ else _] => destruct b eqn:?; cbn [is_ok]
  end; bools; try (split; [done|lia]); split; try done; intros _.
  lia.
Qed.

Record valid_step (s : Step) : Prop := {
  vs_name : valid_name (Name s);
  vs_run : is_Some (Run s);
  vs_timeout : 0 ≤ step_Timeout s;
  vs_policy : valid_policy (step_RetryPolicy s);
}.

Lemma validateStep_Ok s u : validateStep s = Ok u ↔ valid_step s.
Proof.
  unfold validateStep. destruct u.
  destruct (Name s ==s "") eqn:E1; bools.
  { split; [done|]. by intros [[]]. }
  destruct (is_ok (validateSafeIDString (Name s))) eqn:E2; cbn.
  2:{ split; [done|]. intros [[_ ?]%valid_name_iff _ _ _]. congruence. }
  case_bool_decide as Hr; [|split; [done|by intros []]].
  destruct (step_Timeout s <? 0) eqn:E3; bools; [split; [done|intros []; lia]|].
  destruct (is_ok (RetryPolicy_Validate _)) eqn:E4; cbn.
  - split; [|done]. intros _. split; [by apply valid_name_iff; split|done|done|by apply RetryPolicy_Validate_Ok].
  - split; [done|]. intros [_ _ _ Hp]. apply RetryPolicy_Validate_Ok in Hp. congruence.
Qed.

Lemma validate_steps_Ok steps seen u :
  validate_steps steps seen = Ok u ↔
  Forall valid_step steps ∧ NoDup (Name <$> steps) ∧ ∀ s, s ∈ steps → Name s ∉ seen.
Proof.
  destruct u. revert seen. induction steps as [|s steps IH]; intros seen.
  { cbn. split; [|done]. intros _. split; [done|]. split; [apply NoDup_nil_2|set_solver]. }
  cbn [validate_steps]. rewrite bind_Ok, Forall_cons, fmap_cons, NoDup_cons.
  setoid_rewrite validateStep_Ok. case_bool_decide as Hs.
  { split; [naive_solver|]. intros (_&_&H). destruct (H s); [set_solver|done]. }
  setoid_rewrite IH. split.
  - intros ([]&?&?&?&Hd). split; [done|]. split.
    + split; [|done]. rewrite list_elem_of_fmap. intros (y&Hy&Hin). apply (Hd y Hin). set_solver.
    + intros y [->|Hin]%elem_of_cons; [done|]. specialize (Hd y Hin). set_solver.
  - intros ([??]&[Hnin ?]&Hd). exists tt. do 3 (split; [done|]).
    intros y Hin. rewrite not_elem_of_union, not_elem_of_singleton. split; [|by apply Hd, elem_of_cons; right].
    intros Heq. apply Hnin. rewrite <- Heq. by apply list_elem_of_fmap_2.
Qed.

Record valid_definition (d : Definition_) : Prop := {
  vd_id : valid_name (def_ID d);
  vd_steps : Steps d ≠ [];
  vd_timeout : 0 ≤ def_Timeout d;
  vd_policy : valid_policy (def_RetryPolicy d);
  vd_each : Forall valid_step (Steps d);
  vd_names : NoDup (Name <$> Steps d);
}.

Lemma Definition_Validate_Ok d u : Definition_Validate d = Ok u ↔ valid_definition d.
Proof.
  unfold Definition_Validate. destruct u.
  destruct (def_ID d ==s "") eqn:E1; bools; [split; [done|by intros [[]]]|].
  destruct (is_ok (validateSafeIDString (def_ID d))) eqn:E2; cbn [negb].
  2:{ split; [done|]. intros [[_ ?]%valid_name_iff]. congruence. }
  destruct (Steps d) as [|s l] eqn:Es; [split; [done|by intros []]|]. rewrite <- Es.
  replace (Z.of_nat (length (Steps d)) =? 0) with false by (by rewrite Es).
  destruct (def_Timeout d <? 0) eqn:E3; bools; [split; [done|intros []; lia]|].
  destruct (is_ok (RetryPolicy_Validate _)) eqn:E4; cbn [negb].
  2:{ split; [done|]. intros [_ _ _ Hp%RetryPolicy_Validate_Ok]. congruence. }
  rewrite validate_steps_Ok. split.
  - intros (?&?&_). split; [by apply valid_name_iff|by rewrite Es|done|by apply RetryPolicy_Validate_Ok|done..].
  - intros []. split; [done|]. split; [done|]. set_solver.
Qed.

(** ** Registry *)

Lemma register_all_Ok defs r r' :
  register_all defs r = Ok r' ↔
  ∃ ds, defs = Some <$> ds ∧ Forall valid_definition ds ∧ NoDup (def_ID <$> ds) ∧
        (∀ d, d ∈ ds → r !! def_ID d = None) ∧
        r' = foldl (λ m d, <[def_ID d := d]> m) r ds.
Proof.
  revert r. induction defs as [|[d|] defs IH]; intros r; cbn [register_all].
  - split.
    + intros [= ->]. exists []. split_and!; [done|done|apply NoDup_nil_2|set_solver|done].
    + by intros ([|??]&?&_&_&_&->).
  - rewrite bind_Ok. setoid_rewrite Definition_Validate_Ok. split.
    + intros ([]&Hd&Hr). case_bool_decide as Hs; [done|].
      apply eq_None_not_Some in Hs. apply IH in Hr as (ds&->&?&?&Hf&->).
      exists (d :: ds). rewrite !fmap_cons, NoDup_cons.
      split_and!; [done|by constructor| |done| |done].
      * rewrite list_elem_of_fmap. intros (y&Hy&Hin). specialize (Hf y Hin).
        rewrite lookup_insert_None in Hf. naive_solver.
      * intros y [->|Hin]%elem_of_cons; [done|]. specialize (Hf y Hin).
        by apply lookup_insert_None in Hf as [? _].
    + intros (ds&Hds&Hv&Hn&Hf&->). destruct ds as [|d' ds]; simplify_eq/=.
      apply Forall_cons in Hv as [? ?]. apply NoDup_cons in Hn as [Hni ?].
      exists tt. split; [done|].
      rewrite bool_decide_eq_false_2 by (apply eq_None_not_Some, Hf; set_solver).
      apply IH. exists ds. split_and!; [done..| |done].
      intros y Hin. rewrite lookup_insert_None. split; [apply Hf; set_solver|].
      intros Heq. apply Hni. rewrite Heq. by apply list_elem_of_fmap_2.
  - split; [done|]. by intros ([|??]&?&_).
Qed.

Lemma foldl_register_lookup ds (r : InMemoryRegistry) id d :
  NoDup (def_ID <$> ds) → (∀ d, d ∈ ds → r !! def_ID d = None) →
  foldl (λ m d, <[def_ID d := d]> m) r ds !! id = Some d ↔
  (d ∈ ds ∧ def_ID d = id) ∨ r !! id = Some d.
Proof.
  revert r. induction ds as [|e ds IH]; intros r Hn Hf; cbn; [set_solver|].
  apply NoDup_cons in Hn as [Hni ?]. rewrite IH; [|done|].
  - rewrite elem_of_cons, lookup_insert_Some.
    assert (He : r !! def_ID e = None) by (apply Hf; set_solver).
    split; [naive_solver|]. intros [[[->|?] ?]|?]; [naive_solver..|].
    right; right. split; [|done]. intros <-. congruence.
  - intros y Hin. rewrite lookup_insert_None. split; [apply Hf; set_solver|].
    intros Heq. apply Hni. rewrite Heq. by apply list_elem_of_fmap_2.
Qed.

(** ** Runs of AdvanceSaga *)

(** A caller that applies a list of requested transitions in order and stops at
    the first error. *)
Fixpoint advance_all (i : Instance) (reqs : list (Status * Time)) : outcome Instance :=
  match reqs with
  | [] => Ok i
  | (to, now) :: rest => i' ← AdvanceSaga (Some i) to now; advance_all i' rest
  end.

Lemma advance_all_run i reqs i' :
  advance_all i reqs = Ok i' → nsteps edge (length reqs) (inst_Status i) (inst_Status i').
Proof.
  revert i. induction reqs as [|[to now] reqs IH]; intros i; cbn [advance_all].
  - intros [= ->]. constructor.
  - intros (j&Hj&Hr)%bind_Ok. pose proof Hj as (He&_&_&->)%AdvanceSaga_Ok.
    econstructor; [apply He|]. by apply IH in Hr.
Qed.

Lemma advance_all_wf i reqs i' : instance_wf i → advance_all i reqs = Ok i' → instance_wf i'.
Proof.
  revert i. induction reqs as [|[to now] reqs IH]; intros i Hwf; cbn [advance_all].
  - by intros [= ->].
  - intros (j&Hj&Hr)%bind_Ok. eapply IH, Hr. by eapply AdvanceSaga_wf.
Qed.

(** ** Properties *)

(** a saga instance makes at most three status transitions in its life: any
    list of [AdvanceSaga] requests that all succeed on a new instance has length
    at most 3, leaves a well-formed instance (timestamps ordered, [CompletedAt]
    set exactly when the status is terminal), and once the status is terminal no
    further request of any kind succeeds. *)
Theorem AdvanceSaga_lifecycle id def t0 reqs i :
  advance_all (NewInstance id def t0) reqs = Ok i →
  (length reqs ≤ 3)%nat ∧ instance_wf i ∧
  (Status_IsTerminal (inst_Status i) = true →
   ∀ to now, is_ok (AdvanceSaga (Some i) to now) = false).
Proof.
  intros Hr. pose proof (advance_all_wf _ _ _ (NewInstance_wf id def t0) Hr) as Hwf.
  split_and!; [|done|].
  - apply advance_all_run, ranked_run_bounded in Hr. cbn in Hr. lia.
  - intros Ht to now. destruct (AdvanceSaga (Some i) to now) eqn:Ha; [|done].
    apply AdvanceSaga_Ok in Ha as [He _]. exfalso.
    eapply terminal_no_edge, He; [apply Hwf|done].
Qed.

Lemma AdvanceSaga_lifecycle_witness :
  ∃ i, advance_all (NewInstance "s-1" "order" 10)
         [(StatusRunning, 11); (StatusCompensating, 15); (StatusCompensated, 15)] = Ok i ∧
       CompletedAt i = Some 15 ∧ instance_wf i.
Proof.
  eexists. split; [vm_compute; reflexivity|]. split; [reflexivity|].
  refine (proj1 (proj2 (AdvanceSaga_lifecycle "s-1" "order" 10
    [(StatusRunning, 11); (StatusCompensating, 15); (StatusCompensated, 15)] _ _))).
  vm_compute. reflexivity.
Defined.

(** [AdvanceStep] on 64-bit integers: it succeeds exactly on a Running
    instance whose next step index stays inside the definition and whose clock
    did not go back; it then increments [CurrentStep] by one with no wrap-around
    and touches nothing but [CurrentStep] and [UpdatedAt]. *)
Theorem AdvanceStep_spec i n now :
  int64_range n → int64_range (CurrentStep i) →
  (∀ i', AdvanceStep (Some i) n now = Ok i' ↔
     inst_Status i = StatusRunning ∧ 0 ≤ CurrentStep i ∧ CurrentStep i + 1 < n ∧
     StartedAt i ≤ now ∧ opt_le (UpdatedAt i) now ∧
     i' = MkInstance (ID i) (DefinitionID i) StatusRunning (CurrentStep i + 1) (StartedAt i)
            (Some now) (CompletedAt i)) ∧
  (∀ e, AdvanceStep (Some i) n now = Err e → error_code e = Some ErrValidationFailed).
Proof.
  intros Hn Hc. split; [intros i'; by apply AdvanceStep_Ok|].
  intros e. cbn. unfold guardMonotonic. repeat case_match; intros; by simplify_eq/=.
Qed.

Lemma AdvanceStep_spec_witness :
  AdvanceStep (Some (MkInstance "s" "d" StatusRunning 2 5 (Some 6) None)) 4 7 =
    Ok (MkInstance "s" "d" StatusRunning 3 5 (Some 7) None) ∧
  is_ok (AdvanceStep (Some (MkInstance "s" "d" StatusRunning 3 5 (Some 7) None)) 4 8) = false.
Proof.
  split; [|reflexivity].
  apply (AdvanceStep_spec (MkInstance "s" "d" StatusRunning 2 5 (Some 6) None) 4 7);
    [unfold int64_range, MinInt64, MaxInt64; cbn; lia..|].
  cbn. repeat split; lia.
Defined.

(** [NewInMemoryRegistry] accepts a list of definitions exactly when none is
    nil, all pass [Validate] (named steps with a Run function and distinct
    names, non-negative timeouts, coherent retry policies) and no two share an
    ID; the registry it returns then finds exactly the definitions of the list,
    each under its own ID. *)
Theorem registry_correct defs :
  ((∃ r, NewInMemoryRegistry defs = Ok r) ↔
   ∃ ds, defs = Some <$> ds ∧ Forall valid_definition ds ∧ NoDup (def_ID <$> ds)) ∧
  (∀ r id d, NewInMemoryRegistry defs = Ok r →
     Lookup r id = Some d ↔ Some d ∈ defs ∧ def_ID d = id).
Proof.
  unfold NewInMemoryRegistry, Lookup. setoid_rewrite register_all_Ok. split; [split|].
  - naive_solver.
  - intros (ds&?&?&?). eexists _, ds. split_and!; [done..|by intros|done].
  - intros r id d (ds&->&_&Hn&Hf&->). rewrite foldl_register_lookup, lookup_empty by done.
    rewrite list_elem_of_fmap. naive_solver.
Qed.

Lemma registry_correct_witness :
  let st := MkStep "charge" (Some (λ _ _ s, RunReturned s None)) None 0 (MkRetryPolicy 3 1 8) in
  let d := MkDefinition "order" [st] 0 (MkRetryPolicy 0 0 0) in
  ∃ r, NewInMemoryRegistry [Some d] = Ok r ∧ Lookup r "order" = Some d.
Proof.
  intros st d. eexists. split; [vm_compute; reflexivity|].
  apply (registry_correct [Some d]); [vm_compute; reflexivity|].
  split; [by apply list_elem_of_singleton|reflexivity].
Defined.
