(* ===== verification/SagaEvent.v ===== *)
(** * kernel/saga/journal/event.go: saga journal events

    Event kinds, their wire names, and the validation an event passes before it
    is appended.  [KindOther] stands for the uint8 values that are not
    constants. *)

From Stdlib Require Import Ascii.
From S2P Require Import Prelude GoJson IdUtil Saga.

Inductive EventKind : Type :=
  | KindStepStarted | KindStepCompleted | KindStepFailed | KindStepCompensated
  | KindCompensationStarted
  | KindSagaSucceeded | KindSagaFailed | KindSagaCompensated | KindSagaExpired
  | KindStepCompensationFailed | KindSagaCompensationFailed
  | KindOther (n : N).

#[global] Instance EventKind_eq_dec : EqDecision EventKind.
Proof. solve_decision. Defined.

Definition EventKind_code (k : EventKind) : Z :=
  match k with
  | KindStepStarted => 1 | KindStepCompleted => 2 | KindStepFailed => 3
  | KindStepCompensated => 4 | KindCompensationStarted => 5
  | KindSagaSucceeded => 6 | KindSagaFailed => 7 | KindSagaCompensated => 8
  | KindSagaExpired => 9 | KindStepCompensationFailed => 10
  | KindSagaCompensationFailed => 11
  | KindOther n => if (n =? 0)%N then 0 else 11 + Z.of_N n
  end.

Definition EventKind_Valid (k : EventKind) : bool :=
  (EventKind_code KindStepStarted <=? EventKind_code k) &&
  (EventKind_code k <=? EventKind_code KindSagaCompensationFailed).

Definition EventKind_String (k : EventKind) : string :=
  match k with
  | KindStepStarted => "step_started"
  | KindStepCompleted => "step_completed"
  | KindStepFailed => "step_failed"
  | KindStepCompensated => "step_compensated"
  | KindCompensationStarted => "compensation_started"
  | KindSagaSucceeded => "saga_succeeded"
  | KindSagaFailed => "saga_failed"
  | KindSagaCompensated => "saga_compensated"
  | KindSagaExpired => "saga_expired"
  | KindStepCompensationFailed => "step_compensation_failed"
  | KindSagaCompensationFailed => "saga_compensation_failed"
  | KindOther _ => ("eventkind(" ++ pretty (EventKind_code k) ++ ")")%string
  end.

Definition ParseEventKind (s : string) : EventKind * bool :=
  if s ==s "step_started" then (KindStepStarted, true)
  else if s ==s "step_completed" then (KindStepCompleted, true)
  else if s ==s "step_failed" then (KindStepFailed, true)
  else if s ==s "step_compensated" then (KindStepCompensated, true)
  else if s ==s "compensation_started" then (KindCompensationStarted, true)
  else if s ==s "saga_succeeded" then (KindSagaSucceeded, true)
  else if s ==s "saga_failed" then (KindSagaFailed, true)
  else if s ==s "saga_compensated" then (KindSagaCompensated, true)
  else if s ==s "saga_expired" then (KindSagaExpired, true)
  else if s ==s "step_compensation_failed" then (KindStepCompensationFailed, true)
  else if s ==s "saga_compensation_failed" then (KindSagaCompensationFailed, true)
  else (KindOther 0, false).

Definition isStepKind (k : EventKind) : bool :=
  match k with
  | KindStepStarted | KindStepCompleted | KindStepFailed | KindStepCompensated
  | KindStepCompensationFailed => true
  | _ => false
  end.

Definition EventKind_IsTerminal (k : EventKind) : bool :=
  match k with
  | KindSagaSucceeded | KindSagaFailed | KindSagaCompensated | KindSagaExpired
  | KindSagaCompensationFailed => true
  | _ => false
  end.

Definition TerminalEventKind (s : Status) : option EventKind :=
  match s with
  | StatusSucceeded => Some KindSagaSucceeded
  | StatusFailed => Some KindSagaFailed
  | StatusCompensated => Some KindSagaCompensated
  | StatusExpired => Some KindSagaExpired
  | StatusCompensationFailed => Some KindSagaCompensationFailed
  | _ => None
  end.

Record Event := MkEvent {
  Version : Z;
  ev_GlobalSeq : Z;
  ev_Kind : EventKind;
  StepName : string;
  Payload : bytes;
  CreatedAt : Time;
}.

#[global] Instance Event_eq_dec : EqDecision Event.
Proof. solve_decision. Defined.

Definition MaxPayloadBytes : Z := 64 * 1024.

Definition validateStepName (e : Event) : outcome unit :=
  if isStepKind (ev_Kind e) then
    if StepName e ==s "" then Err (invalid "saga journal: step event missing StepName")
    else if negb (is_ok (validateSafeIDString (StepName e)))
    then Err (invalid "saga journal: step event has invalid StepName")
    else Ok tt
  else Ok tt.

Definition validateObjectOrNull (payload : bytes) : outcome unit :=
  if byte_len payload =? 0 then Ok tt
  else if negb (json_Valid payload)
  then Err (invalid "saga journal: event payload is not valid JSON")
  else
    match bytes_TrimSpace payload with
    | EmptyString => Ok tt
    | String c _ as trimmed =>
        if (c =? "{")%char || (trimmed ==s "null") then Ok tt
        else Err (invalid "saga journal: event payload must be a JSON object or null")
    end.

Definition ValidateForAppend (e : Event) : outcome unit :=
  if negb (EventKind_Valid (ev_Kind e)) then Err (invalid "saga journal: event has invalid Kind")
  else if EventKind_IsTerminal (ev_Kind e)
  then Err (invalid "saga journal: terminal event must be written via MarkTerminal, not Append")
  else if byte_len (Payload e) >? MaxPayloadBytes
  then Err (invalid "saga journal: event payload exceeds MaxPayloadBytes")
  else
    _ ← validateStepName e;
    validateObjectOrNull (Payload e).

(** ** Lemmas *)

Lemma KindOther_invalid n : EventKind_Valid (KindOther n) = false.
Proof.
  unfold EventKind_Valid; cbn. destruct (n =? 0)%N eqn:Hn; [done|].
  apply N.eqb_neq in Hn. apply andb_false_iff. right. apply Z.leb_gt. lia.
Qed.

Lemma ValidateForAppend_Ok e u :
  ValidateForAppend e = Ok u →
  EventKind_Valid (ev_Kind e) = true ∧ EventKind_IsTerminal (ev_Kind e) = false ∧
  byte_len (Payload e) ≤ MaxPayloadBytes ∧
  (isStepKind (ev_Kind e) = true → valid_name (StepName e)).
Proof.
  unfold ValidateForAppend, validateStepName. rewrite Z.gtb_ltb.
  destruct (EventKind_Valid _) eqn:?; [|done]. cbn [negb].
  destruct (EventKind_IsTerminal _) eqn:?; [done|].
  destruct (MaxPayloadBytes <? _) eqn:?; [done|]. bools.
  intros ([]&Hn&_)%bind_Ok. split_and!; try done. intros Hk. rewrite Hk in Hn.
  apply valid_name_iff. destruct (StepName e ==s "") eqn:?; bools; [done|].
  by destruct (is_ok _) eqn:?.
Qed.

(** The terminal kinds and the terminal statuses correspond one to one. *)
Lemma TerminalEventKind_Some s k :
  TerminalEventKind s = Some k → Status_IsTerminal s = true ∧ EventKind_IsTerminal k = true.
Proof. by destruct s; intros; simplify_eq/=. Qed.

Lemma TerminalEventKind_is_Some s :
  Status_IsTerminal s = true → is_Some (TerminalEventKind s).
Proof. destruct s; try done; by eexists. Qed.

(** ** Properties *)

(** [ParseEventKind] and [String] round-trip: the wire name of every valid
    kind parses back to it, and a string parses exactly when it is the wire name
    of the kind returned (so no two kinds share a wire name and no other string
    is accepted). *)
Theorem ParseEventKind_String :
  (∀ k, EventKind_Valid k = true → ParseEventKind (EventKind_String k) = (k, true)) ∧
  (∀ s k, ParseEventKind s = (k, true) ↔ EventKind_Valid k = true ∧ s = EventKind_String k).
Proof.
  assert (Hp : ∀ k, EventKind_Valid k = true → ParseEventKind (EventKind_String k) = (k, true)).
  { intros k. destruct k; try done. by rewrite KindOther_invalid. }
  split; [done|]. intros s k. split; [|by intros [? ->]; apply Hp].
  unfold ParseEventKind, str_eqb. intros Hs.
  repeat (case_bool_decide; [by simplify_eq|]). done.
Qed.
