(* ===== verification/SagaJournal.v ===== *)
(** * kernel/saga/journal/memjournal.go: the saga journal

    [MemJournal] is the whole state the Go struct keeps under its mutex: the
    projection rows, the per-instance logs, the cross-instance counter and log.
    Each method is a function of the state and of what it reads from outside:
    [now] is the clock reading made under the lock and [entropy] the bytes
    [idutil.NewUUID] draws.  A method returns its Go results and the state it
    leaves; methods run one at a time because each holds [mu] throughout.

    Counters ([currentVersion], [globalSeq]) always equal the length of a slice
    held in memory, so they are kept as unbounded integers. *)

From S2P Require Import Prelude IdUtil Fsm Saga SagaEvent.

(** ** errors.go *)

Definition ErrSagaNotFound : string := "ERR_SAGA_NOT_FOUND".
Definition ErrSagaStaleLease : string := "ERR_SAGA_STALE_LEASE".
Definition ErrSagaDuplicateInstance : string := "ERR_SAGA_DUPLICATE_INSTANCE".

Definition NewInstanceNotFoundError : goerror :=
  Errcode KindNotFound ErrSagaNotFound "saga journal: instance not found".
Definition NewDuplicateInstanceError : goerror :=
  Errcode KindConflict ErrSagaDuplicateInstance "saga journal: instance already enqueued".
Definition NewStaleLeaseError : goerror :=
  Errcode KindConflict ErrSagaStaleLease "saga journal: stale lease on append".
Definition NewInvalidTerminalStatusError : goerror :=
  invalid "saga journal: invalid terminal status".
Definition NewNonPositiveBatchSizeError : goerror :=
  invalid "saga journal: ClaimPending batchSize must be positive".
Definition NewNonPositiveLeaseDurationError : goerror :=
  invalid "saga journal: leaseDuration must be positive".
Definition NewNonPositiveLimitError : goerror :=
  invalid "saga journal: LoadSince limit must be positive".
Definition NewNegativeGlobalSeqError : goerror :=
  invalid "saga journal: LoadSince afterGlobalSeq must not be negative".
Definition NewEventPhaseError : goerror :=
  invalid "saga journal: event kind not allowed in current phase".

(** ** State *)

Record GlobalEvent := MkGlobalEvent {
  GlobalSeq : Z;
  InstanceID : string;
  ge_Event : Event;
}.

Record instanceRow := MkRow {
  inst : Instance;
  currentVersion : Z;
  leaseID : string;
  leaseExpiresAt : Time;
}.

Record MemJournal := MkJournal {
  instances : gmap string instanceRow;
  events : gmap string (list Event);
  globalSeq : Z;
  globalLog : list GlobalEvent;
}.

Record ClaimedInstance := MkClaimed {
  ci_Instance : Instance;
  ci_LeaseID : string;
}.

Definition set_row (m : MemJournal) (id : string) (row : instanceRow) : MemJournal :=
  MkJournal (<[id := row]> (instances m)) (events m) (globalSeq m) (globalLog m).

Definition row_with_inst (row : instanceRow) (i : Instance) : instanceRow :=
  MkRow i (currentVersion row) (leaseID row) (leaseExpiresAt row).

Definition row_with_lease (row : instanceRow) (l : string) (exp : Time) : instanceRow :=
  MkRow (inst row) (currentVersion row) l exp.

Definition NewMemJournal : MemJournal := MkJournal ∅ ∅ 0 [].

(** ** Private helpers *)

Definition fenced (row : instanceRow) (lease : string) (now : Time) : bool :=
  if leaseID row ==s "" then false
  else if negb (leaseID row ==s lease) then false
  else negb (Before (leaseExpiresAt row) now).

(** [row] is the row about to be stored for [id]; the new version is returned. *)
Definition appendLocked (m : MemJournal) (row : instanceRow) (id : string) (e : Event)
    : Z * MemJournal :=
  let version := currentVersion row + 1 in
  let seq := globalSeq m + 1 in
  let e' := MkEvent version seq (ev_Kind e) (StepName e) (Payload e) (CreatedAt e) in
  (version,
   MkJournal
     (<[id := MkRow (inst row) version (leaseID row) (leaseExpiresAt row)]> (instances m))
     (<[id := default [] (events m !! id) ++ [e']]> (events m))
     seq
     (globalLog m ++ [MkGlobalEvent seq id e'])).

(** Advances [row.inst] in place; the new instance is returned. *)
Definition applyProjection (i : Instance) (kind : EventKind) (now : Time) : outcome Instance :=
  match kind with
  | KindStepStarted | KindStepCompleted | KindStepFailed =>
      match inst_Status i with
      | StatusPending => AdvanceSaga (Some i) StatusRunning now
      | StatusRunning => Ok i
      | _ => Err NewEventPhaseError
      end
  | KindCompensationStarted => AdvanceSaga (Some i) StatusCompensating now
  | KindStepCompensated | KindStepCompensationFailed =>
      if negb (bool_decide (inst_Status i = StatusCompensating))
      then Err NewEventPhaseError else Ok i
  | _ => Ok i
  end.

(** ** Methods *)

Definition Enqueue (m : MemJournal) (instance : Instance) : outcome unit * MemJournal :=
  match instances m !! ID instance with
  | Some _ => (Err NewDuplicateInstanceError, m)
  | None =>
      match ValidateNew instance with
      | Err e => (Err e, m)
      | Ok _ =>
          (Ok tt,
           MkJournal (<[ID instance := MkRow instance 0 "" 0]> (instances m))
                     (<[ID instance := []]> (events m)) (globalSeq m) (globalLog m))
      end
  end.

Definition Append (m : MemJournal) (now : Time) (instanceID lease : string) (event : Event)
    : outcome Z * MemJournal :=
  match instances m !! instanceID with
  | None => (Err NewInstanceNotFoundError, m)
  | Some row =>
      if negb (fenced row lease now) then (Err NewStaleLeaseError, m)
      else
        match ValidateForAppend event with
        | Err e => (Err e, m)
        | Ok _ =>
            match applyProjection (inst row) (ev_Kind event) now with
            | Err e => (Err e, m)
            | Ok i =>
                let '(v, m') := appendLocked m (row_with_inst row i) instanceID
                  (MkEvent 0 0 (ev_Kind event) (StepName event) (Payload event) now) in
                (Ok v, m')
            end
        end
  end.

Definition Load (m : MemJournal) (instanceID : string) : outcome (list Event) :=
  match instances m !! instanceID with
  | None => Err NewInstanceNotFoundError
  | Some _ => Ok (default [] (events m !! instanceID))
  end.

(** The candidate filter of [ClaimPending]. *)
Definition claimable (row : instanceRow) (now : Time) : bool :=
  if Status_IsTerminal (inst_Status (inst row)) then false
  else if negb (leaseID row ==s "") && negb (Before (leaseExpiresAt row) now) then false
  else true.

(** The [less] closure: (StartedAt, ID) ascending. *)
Definition claim_less : string * instanceRow → string * instanceRow → bool :=
  time_id_less (λ c, StartedAt (inst c.2)) fst.

(** Collect, sort and truncate; [order] is the order in which Go ranges over
    [m.instances]. *)
Definition select_candidates (order : list (string * instanceRow)) (now : Time) (batchSize : Z)
    : list (string * instanceRow) :=
  let candidates := filter (λ c, claimable c.2 now = true) order in
  take (Z.to_nat batchSize) (sort_Slice claim_less candidates).

Definition lease_all (l : string) (exp : Time) (cs : list (string * instanceRow))
    (rows : gmap string instanceRow) : gmap string instanceRow :=
  foldl (λ acc c, <[c.1 := row_with_lease c.2 l exp]> acc) rows cs.

Definition ClaimPending (m : MemJournal) (now : Time) (entropy : list Z)
    (batchSize : Z) (leaseDuration : Duration)
    : outcome (list ClaimedInstance * string) * MemJournal :=
  if batchSize <=? 0 then (Err NewNonPositiveBatchSizeError, m)
  else if leaseDuration <=? 0 then (Err NewNonPositiveLeaseDurationError, m)
  else
    match select_candidates (map_to_list (instances m)) now batchSize with
    | [] => (Ok ([], ""), m)
    | cs =>
        match newUUID entropy with
        | Err e => (Err e, m)
        | Ok lease =>
            (Ok ((λ c, MkClaimed (inst c.2) lease) <$> cs, lease),
             MkJournal (lease_all lease (now + leaseDuration) cs (instances m))
                       (events m) (globalSeq m) (globalLog m))
        end
    end.

Definition Heartbeat (m : MemJournal) (now : Time) (instanceID lease : string)
    (leaseDuration : Duration) : outcome bool * MemJournal :=
  if leaseDuration <=? 0 then (Err NewNonPositiveLeaseDurationError, m)
  else
    match instances m !! instanceID with
    | None => (Ok false, m)
    | Some row =>
        if negb (fenced row lease now) then (Ok false, m)
        else (Ok true, set_row m instanceID (row_with_lease row (leaseID row) (now + leaseDuration)))
    end.

Definition MarkTerminal (m : MemJournal) (now : Time) (instanceID lease : string)
    (finalStatus : Status) : outcome bool * MemJournal :=
  match instances m !! instanceID with
  | None => (Ok false, m)
  | Some row =>
      if negb (fenced row lease now) then (Ok false, m)
      else if negb (Status_IsTerminal finalStatus) then (Err NewInvalidTerminalStatusError, m)
      else
        match TerminalEventKind finalStatus with
        | None => (Err NewInvalidTerminalStatusError, m)
        | Some termKind =>
            match AdvanceSaga (Some (inst row)) finalStatus now with
            | Err e => (Err e, m)
            | Ok i =>
                let '(v, m') := appendLocked m (row_with_inst row i) instanceID
                  (MkEvent 0 0 termKind "" "" now) in
                (Ok true,
                 set_row m' instanceID (MkRow i v "" (leaseExpiresAt row)))
            end
        end
  end.

(** [None] is the run-time panic of an out-of-range slice expression. *)
Definition LoadSince (m : MemJournal) (afterGlobalSeq limit : Z)
    : option (outcome (list GlobalEvent)) :=
  if limit <=? 0 then Some (Err NewNonPositiveLimitError)
  else if afterGlobalSeq <? 0 then Some (Err NewNegativeGlobalSeqError)
  else
    let n := Z.of_nat (length (globalLog m)) in
    let start := if afterGlobalSeq >? n then n else afterGlobalSeq in
    let stop := if limit <? wrap64 (n - start) then wrap64 (start + limit) else n in
    out ← go_slice (globalLog m) start stop; Some (Ok out).

Definition HeadSeq (m : MemJournal) : Z := globalSeq m.

(** ** Reachable states *)

(** One call of a state-changing method, with the clock reading it makes.  No
    order is assumed between the readings: the clock may jump back. *)
Inductive journal_op : Type :=
  | OpEnqueue (i : Instance)
  | OpAppend (now : Time) (id lease : string) (e : Event)
  | OpClaimPending (now : Time) (entropy : list Z) (batchSize : Z) (d : Duration)
  | OpHeartbeat (now : Time) (id lease : string) (d : Duration)
  | OpMarkTerminal (now : Time) (id lease : string) (s : Status).

Definition exec (m : MemJournal) (op : journal_op) : MemJournal :=
  match op with
  | OpEnqueue i => (Enqueue m i).2
  | OpAppend now id l e => (Append m now id l e).2
  | OpClaimPending now en b d => (ClaimPending m now en b d).2
  | OpHeartbeat now id l d => (Heartbeat m now id l d).2
  | OpMarkTerminal now id l s => (MarkTerminal m now id l s).2
  end.

Definition exec_all (m : MemJournal) (ops : list journal_op) : MemJournal := foldl exec m ops.

Inductive reachable : MemJournal → Prop :=
  | reachable_new : reachable NewMemJournal
  | reachable_exec m op : reachable m → reachable (exec m op).

(** ** The event protocol, as an automaton

    The abstract contract of the log: [replay] says which kinds may follow in
    which status and what status they lead to. *)

Definition replay (s : Status) (k : EventKind) : option Status :=
  match k with
  | KindStepStarted | KindStepCompleted | KindStepFailed =>
      match s with StatusPending | StatusRunning => Some StatusRunning | _ => None end
  | KindCompensationStarted =>
      match s with StatusRunning => Some StatusCompensating | _ => None end
  | KindStepCompensated | KindStepCompensationFailed =>
      match s with StatusCompensating => Some StatusCompensating | _ => None end
  | KindSagaSucceeded =>
      match s with StatusRunning => Some StatusSucceeded | _ => None end
  | KindSagaFailed =>
      match s with StatusPending | StatusRunning => Some StatusFailed | _ => None end
  | KindSagaCompensated =>
      match s with StatusCompensating => Some StatusCompensated | _ => None end
  | KindSagaCompensationFailed =>
      match s with StatusCompensating => Some StatusCompensationFailed | _ => None end
  | KindSagaExpired =>
      match s with
      | StatusPending | StatusRunning | StatusCompensating => Some StatusExpired
      | _ => None
      end
  | KindOther _ => None
  end.

Fixpoint replay_all (s : Status) (ks : list EventKind) : option Status :=
  match ks with
  | [] => Some s
  | k :: ks => s' ← replay s k; replay_all s' ks
  end.

Definition kinds (l : list Event) : list EventKind := ev_Kind <$> l.

Lemma replay_all_snoc s ks k :
  replay_all s (ks ++ [k]) = (s' ← replay_all s ks; replay s' k).
Proof.
  revert s. induction ks as [|k' ks IH]; intros s; cbn; [by destruct (replay s k)|].
  destruct (replay s k'); [apply IH|done].
Qed.

(** Terminal statuses accept nothing more, and are only entered by their own
    terminal event. *)
Lemma replay_terminal s k : Status_IsTerminal s = true → replay s k = None.
Proof. by destruct s, k. Qed.

Lemma replay_to_terminal s k s' :
  replay s k = Some s' → Status_IsTerminal s' = EventKind_IsTerminal k.
Proof. by destruct k, s; intros; simplify_eq/=. Qed.

(** ** The state invariant *)

Definition instance_events (m : MemJournal) (id : string) : list Event :=
  ge_Event <$> filter (λ g, InstanceID g = id) (globalLog m).

Record row_ok (id : string) (row : instanceRow) (log : list Event) : Prop := {
  ro_id : ID (inst row) = id;
  ro_wf : instance_wf (inst row);
  ro_version : currentVersion row = Z.of_nat (length log);
  ro_versions i e : log !! i = Some e → Version e = Z.of_nat i + 1;
  ro_status : replay_all StatusPending (kinds log) = Some (inst_Status (inst row));
  ro_lease : Status_IsTerminal (inst_Status (inst row)) = true → leaseID row = "";
}.

Record journal_inv (m : MemJournal) : Prop := {
  ji_rows id row : instances m !! id = Some row →
    ∃ log, events m !! id = Some log ∧ row_ok id row log;
  ji_dom id : instances m !! id = None → events m !! id = None;
  ji_seq : globalSeq m = Z.of_nat (length (globalLog m));
  ji_dense i g : globalLog m !! i = Some g →
    GlobalSeq g = Z.of_nat i + 1 ∧ ev_GlobalSeq (ge_Event g) = Z.of_nat i + 1;
  ji_local id : default [] (events m !! id) = instance_events m id;
}.

(** ** Preservation *)

Lemma applyProjection_replay i k now i' :
  instance_wf i → EventKind_Valid k = true → EventKind_IsTerminal k = false →
  applyProjection i k now = Ok i' →
  replay (inst_Status i) k = Some (inst_Status i') ∧ instance_wf i' ∧ ID i' = ID i.
Proof.
  intros Hwf Hv Ht.
  assert (Hadv : ∀ to, AdvanceSaga (Some i) to now = Ok i' →
    edge (inst_Status i) to ∧ inst_Status i' = to ∧ instance_wf i' ∧ ID i' = ID i).
  { intros to Ha. pose proof (AdvanceSaga_wf _ _ _ _ Hwf Ha).
    by apply AdvanceSaga_Ok in Ha as (?&_&_&->). }
  destruct k; try done; cbn [applyProjection];
    try (destruct (inst_Status i) eqn:Hs; try done; intros Ha;
         first [by simplify_eq; rewrite Hs
               |destruct (Hadv _ Ha) as (_&->&?&?); done]);
    try (intros Ha; destruct (Hadv _ Ha) as (He&->&?&?);
         split; [|done]; by destruct (inst_Status i));
    try (case_bool_decide as Hs; [|done]; intros [= <-]; by rewrite Hs).
  by rewrite KindOther_invalid in Hv.
Qed.

Lemma MarkTerminal_replay i fin k now i' :
  AdvanceSaga (Some i) fin now = Ok i' → TerminalEventKind fin = Some k →
  replay (inst_Status i) k = Some (inst_Status i') ∧ inst_Status i' = fin ∧ ID i' = ID i.
Proof.
  intros (He&_&_&->)%AdvanceSaga_Ok Hk. cbn. split; [|done].
  by destruct (inst_Status i), fin; simplify_eq/=.
Qed.

Lemma instance_events_snoc gl seq id e id' :
  ge_Event <$> filter (λ g, InstanceID g = id') (gl ++ [MkGlobalEvent seq id e]) =
  (ge_Event <$> filter (λ g, InstanceID g = id') gl) ++ (if decide (id = id') then [e] else []).
Proof. rewrite filter_snoc, fmap_app. f_equal. cbn. by case_decide. Qed.

Lemma append_event_inv m id row log i k step payload now l exp :
  journal_inv m → instances m !! id = Some row → events m !! id = Some log →
  replay (inst_Status (inst row)) k = Some (inst_Status i) → instance_wf i → ID i = id →
  (Status_IsTerminal (inst_Status i) = true → l = "") →
  let v := currentVersion row + 1 in
  let seq := globalSeq m + 1 in
  let e := MkEvent v seq k step payload now in
  journal_inv (MkJournal (<[id := MkRow i v l exp]> (instances m)) (<[id := log ++ [e]]> (events m))
                 seq (globalLog m ++ [MkGlobalEvent seq id e])).
Proof.
  intros Hinv Hrow Hlog Hk Hwf Hid Hl v seq e.
  destruct (ji_rows _ Hinv _ _ Hrow) as (log'&Hlog'&Hok). simplify_eq.
  split; cbn.
  - intros id' row'. rewrite lookup_insert_Some. intros [[<- <-]|[Hne Hr]].
    + exists (log ++ [e]). rewrite lookup_insert_eq. split; [done|]. split; cbn; try done.
      * rewrite length_app. cbn. unfold v. rewrite (ro_version _ _ _ Hok). lia.
      * intros j e' [?|[-> ->]]%list_lookup_snoc; [by eapply ro_versions|].
        cbn. unfold v. by rewrite (ro_version _ _ _ Hok).
      * pose proof (ro_status _ _ _ Hok) as Hst. unfold kinds in *.
        rewrite fmap_app. cbn. by rewrite replay_all_snoc, Hst.
    + destruct (ji_rows _ Hinv _ _ Hr) as (log''&?&?). exists log''.
      by rewrite lookup_insert_ne.
  - intros id' [? ?]%lookup_insert_None. rewrite lookup_insert_ne by done. by apply (ji_dom _ Hinv).
  - unfold seq. rewrite length_app, (ji_seq _ Hinv). cbn. lia.
  - intros j g [?|[-> ->]]%list_lookup_snoc; [by apply (ji_dense _ Hinv)|].
    cbn. unfold seq. by rewrite (ji_seq _ Hinv).
  - intros id'. unfold instance_events. cbn. rewrite instance_events_snoc.
    pose proof (ji_local _ Hinv id') as Hloc. unfold instance_events in Hloc.
    destruct (decide (ID i = id')) as [<-|Hne].
    + rewrite lookup_insert_eq. cbn. rewrite <- Hloc, Hlog. done.
    + by rewrite lookup_insert_ne, app_nil_r.
Qed.

(** A change of leases only: every row keeps its instance and version. *)
Lemma relabel_inv m rows :
  journal_inv m → dom rows = dom (instances m) →
  (∀ id row', rows !! id = Some row' → ∃ row, instances m !! id = Some row ∧
     inst row' = inst row ∧ currentVersion row' = currentVersion row ∧
     (leaseID row' = leaseID row ∨ Status_IsTerminal (inst_Status (inst row)) = false)) →
  journal_inv (MkJournal rows (events m) (globalSeq m) (globalLog m)).
Proof.
  intros Hinv Hdom Hrows. split; cbn; try apply Hinv.
  - intros id row' Hr. destruct (Hrows _ _ Hr) as (row&Hrow&Hi&Hv&Hl).
    destruct (ji_rows _ Hinv _ _ Hrow) as (log&Hlog&[]).
    exists log. split; [done|]. split; rewrite ?Hi, ?Hv; try done.
    intros Ht. destruct Hl as [->|Hl]; [by auto|congruence].
  - intros id Hn. apply (ji_dom _ Hinv). apply not_elem_of_dom. rewrite <- Hdom.
    by apply not_elem_of_dom.
Qed.

Lemma lease_all_lookup l exp cs rows id row' :
  (∀ c, c ∈ cs → rows !! c.1 = Some c.2) → NoDup cs.*1 →
  lease_all l exp cs rows !! id = Some row' ↔
  (∃ row, (id, row) ∈ cs ∧ row' = row_with_lease row l exp) ∨
  ((id ∉ cs.*1) ∧ rows !! id = Some row').
Proof.
  unfold lease_all. revert rows. induction cs as [|[id0 r0] cs IH]; intros rows Hin Hnd; cbn.
  { set_solver. }
  rewrite fmap_cons, NoDup_cons in Hnd. destruct Hnd as [Hni Hnd]. cbn in Hni.
  rewrite IH; [|intros c Hc; rewrite lookup_insert_ne; [by apply Hin, elem_of_cons; right|]|done].
  2:{ intros ->. apply Hni. by apply list_elem_of_fmap_2. }
  rewrite lookup_insert_Some. setoid_rewrite elem_of_cons. split.
  - intros [(row&?&?)|[Hn [[<- <-]|[??]]]].
    + left. exists row. auto.
    + left. exists r0. auto.
    + right. split; [|done]. intros [->|?]; done.
  - intros [(row&[[= -> ->]|?]&?)|[Hn Hr]].
    + right. split; [done|]. left. auto.
    + left. eauto.
    + right. split; [naive_solver|]. right. split; [|done]. naive_solver.
Qed.

Lemma select_candidates_elem order now b c :
  c ∈ select_candidates order now b → c ∈ order ∧ claimable c.2 now = true.
Proof.
  unfold select_candidates. intros Hc%elem_of_take. destruct Hc as (i&Hi&_).
  apply list_elem_of_lookup_2 in Hi. rewrite sort_Slice_elem, list_elem_of_filter in Hi. tauto.
Qed.

Lemma select_candidates_NoDup order now b :
  NoDup order.*1 → NoDup (select_candidates order now b).*1.
Proof.
  intros Hnd. unfold select_candidates. rewrite fmap_take.
  eapply sublist_NoDup; [|apply sublist_take]. rewrite sort_Slice_perm.
  eapply sublist_NoDup; [apply Hnd|]. apply fmap_sublist, sublist_filter.
Qed.

Lemma claimable_nonterminal row now :
  claimable row now = true → Status_IsTerminal (inst_Status (inst row)) = false.
Proof. unfold claimable. by destruct (Status_IsTerminal _). Qed.

(** What a successful [ClaimPending] leaves in the rows. *)
Lemma claim_rows m now b l exp id row' :
  lease_all l exp (select_candidates (map_to_list (instances m)) now b) (instances m) !! id
    = Some row' ↔
  (∃ row, (id, row) ∈ select_candidates (map_to_list (instances m)) now b ∧
          row' = row_with_lease row l exp) ∨
  ((id ∉ (select_candidates (map_to_list (instances m)) now b).*1) ∧ instances m !! id = Some row').
Proof.
  apply lease_all_lookup.
  - intros [id' r] [Hc _]%select_candidates_elem. by apply elem_of_map_to_list in Hc.
  - apply select_candidates_NoDup, NoDup_fst_map_to_list.
Qed.

Lemma claimed_in_instances m now b id row :
  (id, row) ∈ select_candidates (map_to_list (instances m)) now b → instances m !! id = Some row.
Proof. intros [Hc _]%select_candidates_elem. by apply elem_of_map_to_list in Hc. Qed.

Lemma claim_dom m now b l exp :
  dom (lease_all l exp (select_candidates (map_to_list (instances m)) now b) (instances m))
  = dom (instances m).
Proof.
  apply set_eq. intros id. rewrite !elem_of_dom. split.
  - intros [row' Hr]. apply claim_rows in Hr as [(row&Hc&_)|[_ ?]]; [|by eexists].
    apply claimed_in_instances in Hc. by eexists.
  - intros [row Hr]. destruct (decide (id ∈ (select_candidates (map_to_list (instances m)) now b).*1))
      as [Hin|Hni].
    + apply list_elem_of_fmap in Hin as ([id' r]&->&Hc). eexists. apply claim_rows. left. eauto.
    + eexists. apply claim_rows. right. eauto.
Qed.

(** An early return: the state is untouched. *)
Ltac unchanged := intros; simplify_eq/=; left; solve [eauto | naive_solver].

(** The state change of each method, as one case analysis. *)
Lemma Enqueue_cases m i r m' :
  Enqueue m i = (r, m') →
  (m' = m ∧ ∃ e, r = Err e) ∨
  (r = Ok tt ∧ instances m !! ID i = None ∧ ValidateNew i = Ok tt ∧
   m' = MkJournal (<[ID i := MkRow i 0 "" 0]> (instances m)) (<[ID i := []]> (events m))
          (globalSeq m) (globalLog m)).
Proof.
  unfold Enqueue. destruct (instances m !! ID i) eqn:?; [unchanged|].
  destruct (ValidateNew i) as [[]|] eqn:?; [|unchanged]. intros; simplify_eq; right; eauto.
Qed.

Lemma Append_cases m now id l e r m' :
  Append m now id l e = (r, m') →
  (m' = m ∧ ∃ err, r = Err err) ∨
  (∃ row i, instances m !! id = Some row ∧ fenced row l now = true ∧
     ValidateForAppend e = Ok tt ∧ applyProjection (inst row) (ev_Kind e) now = Ok i ∧
     (r, m') = (let '(v, m1) := appendLocked m (row_with_inst row i) id
                 (MkEvent 0 0 (ev_Kind e) (StepName e) (Payload e) now) in (Ok v, m1))).
Proof.
  unfold Append. destruct (instances m !! id) as [row|] eqn:?; [|unchanged].
  destruct (fenced row l now) eqn:?; [|unchanged].
  destruct (ValidateForAppend e) as [[]|] eqn:?; [|unchanged].
  destruct (applyProjection _ _ _) as [i|] eqn:?; [|unchanged].
  intros <-. right. by exists row, i.
Qed.

Lemma MarkTerminal_cases m now id l fin r m' :
  MarkTerminal m now id l fin = (r, m') →
  (m' = m ∧ r ≠ Ok true) ∨
  (∃ row i k, instances m !! id = Some row ∧ fenced row l now = true ∧
     TerminalEventKind fin = Some k ∧ AdvanceSaga (Some (inst row)) fin now = Ok i ∧
     r = Ok true ∧
     m' = (let '(v, m1) := appendLocked m (row_with_inst row i) id (MkEvent 0 0 k "" "" now) in
           set_row m1 id (MkRow i v "" (leaseExpiresAt row)))).
Proof.
  unfold MarkTerminal. destruct (instances m !! id) as [row|] eqn:?; [|unchanged].
  destruct (fenced row l now) eqn:?; [|unchanged].
  destruct (Status_IsTerminal fin) eqn:?; [|unchanged].
  destruct (TerminalEventKind fin) as [k|] eqn:?; [|unchanged].
  destruct (AdvanceSaga _ _ _) as [i|] eqn:?; [|unchanged].
  intros [= <- <-]. right. by exists row, i, k.
Qed.

Lemma Heartbeat_cases m now id l d r m' :
  Heartbeat m now id l d = (r, m') →
  (m' = m ∧ r ≠ Ok true) ∨
  (∃ row, instances m !! id = Some row ∧ fenced row l now = true ∧ 0 < d ∧ r = Ok true ∧
     m' = set_row m id (row_with_lease row (leaseID row) (now + d))).
Proof.
  unfold Heartbeat. destruct (d <=? 0) eqn:?; [unchanged|]. bools.
  destruct (instances m !! id) as [row|] eqn:?; [|unchanged].
  destruct (fenced row l now) eqn:?; [|unchanged].
  intros [= <- <-]. right. by exists row.
Qed.

Lemma ClaimPending_cases m now en b d r m' :
  ClaimPending m now en b d = (r, m') →
  let cs := select_candidates (map_to_list (instances m)) now b in
  (m' = m ∧ (cs = [] → 0 < b → 0 < d → r = Ok ([], "")) ∧
     (∀ x, r = Ok x → x = ([], "") ∧ cs = [])) ∨
  (∃ l, cs ≠ [] ∧ newUUID en = Ok l ∧ 0 < b ∧ 0 < d ∧
     r = Ok ((λ c, MkClaimed (inst c.2) l) <$> cs, l) ∧
     m' = MkJournal (lease_all l (now + d) cs (instances m)) (events m) (globalSeq m) (globalLog m)).
Proof.
  unfold ClaimPending. cbn zeta.
  destruct (b <=? 0) eqn:?; bools; [intros; simplify_eq; left; split_and!; (done || lia)|].
  destruct (d <=? 0) eqn:?; bools; [intros; simplify_eq; left; split_and!; (done || lia)|].
  destruct (select_candidates _ _ _) as [|c cs] eqn:Hcs.
  { intros; simplify_eq. left. naive_solver. }
  destruct (newUUID en) as [l|] eqn:?; intros; simplify_eq; [|left; naive_solver].
  right. by exists l.
Qed.

Lemma ValidateNew_Ok i u :
  ValidateNew i = Ok u →
  inst_Status i = StatusPending ∧ CurrentStep i = 0 ∧ StartedAt i ≠ 0 ∧
  UpdatedAt i = None ∧ CompletedAt i = None ∧
  valid_name (ID i) ∧ valid_name (DefinitionID i).
Proof.
  unfold ValidateNew, validateIdentity, validateInitialState.
  intros ([]&Hid&Hst)%bind_Ok.
  repeat (let H := fresh in case_match eqn:H; try done; bools).
  destruct (is_ok (validateSafeIDString (ID i))) eqn:?; [|done].
  destruct (is_ok (validateSafeIDString (DefinitionID i))) eqn:?; [|done].
  rewrite !valid_name_iff. tauto.
Qed.

Lemma ValidateNew_wf i u : ValidateNew i = Ok u → instance_wf i.
Proof.
  intros (Hs&_&_&Hu&Hc&_)%ValidateNew_Ok. split; rewrite ?Hs, ?Hu, ?Hc; cbn; try done; lia.
Qed.

Lemma Enqueue_inv m i : journal_inv m → journal_inv (Enqueue m i).2.
Proof.
  intros Hinv. destruct (Enqueue m i) as [r m'] eqn:HE. cbn.
  apply Enqueue_cases in HE as [[-> _]|(_&Hn&Hv&->)]; [done|].
  pose proof (ji_dom _ Hinv _ Hn) as Hen.
  split; cbn; try apply Hinv.
  - intros id row [[<- <-]|[? Hr]]%lookup_insert_Some.
    + exists []. rewrite lookup_insert_eq. split; [done|].
      split; cbn; try done; [by eapply ValidateNew_wf|].
      by destruct (ValidateNew_Ok _ _ Hv) as [-> _].
    + rewrite lookup_insert_ne by done. by apply Hinv.
  - intros id [? ?]%lookup_insert_None. rewrite lookup_insert_ne by done. by apply Hinv.
  - intros id. pose proof (ji_local _ Hinv id) as Hl. unfold instance_events in *; cbn.
    destruct (decide (ID i = id)) as [<-|]; [|by rewrite lookup_insert_ne].
    rewrite lookup_insert_eq. by rewrite Hen in Hl.
Qed.

Lemma Append_inv m now id l e : journal_inv m → journal_inv (Append m now id l e).2.
Proof.
  intros Hinv. destruct (Append m now id l e) as [r m'] eqn:HA. cbn.
  apply Append_cases in HA as [[-> _]|(row&i&Hrow&Hf&Hv&Hp&[= _ ->])]; [done|].
  destruct (ji_rows _ Hinv _ _ Hrow) as (log&Hlog&Hok).
  apply ValidateForAppend_Ok in Hv as (Hvk&Hnt&_).
  apply applyProjection_replay in Hp as (Hre&Hwf&Hid); [|apply Hok|done|done].
  rewrite Hlog. cbn. eapply (append_event_inv m id row); try done.
  - by rewrite Hid, (ro_id _ _ _ Hok).
  - rewrite (replay_to_terminal _ _ _ Hre). congruence.
Qed.

Lemma MarkTerminal_inv m now id l s : journal_inv m → journal_inv (MarkTerminal m now id l s).2.
Proof.
  intros Hinv. destruct (MarkTerminal m now id l s) as [r m'] eqn:HM. cbn.
  apply MarkTerminal_cases in HM as [[-> _]|(row&i&k&Hrow&Hf&Hk&Ha&_&->)]; [done|].
  destruct (ji_rows _ Hinv _ _ Hrow) as (log&Hlog&Hok).
  pose proof (AdvanceSaga_wf _ _ _ _ (ro_wf _ _ _ Hok) Ha) as Hwf.
  destruct (MarkTerminal_replay _ _ _ _ _ Ha Hk) as (Hre&_&Hid).
  unfold set_row; cbn. rewrite insert_insert_eq, Hlog. cbn.
  eapply (append_event_inv m id row); try done. by rewrite Hid, (ro_id _ _ _ Hok).
Qed.

Lemma Heartbeat_inv m now id l d : journal_inv m → journal_inv (Heartbeat m now id l d).2.
Proof.
  intros Hinv. destruct (Heartbeat m now id l d) as [r m'] eqn:HH. cbn.
  apply Heartbeat_cases in HH as [[-> _]|(row&Hrow&_&_&_&->)]; [done|].
  apply relabel_inv; [done| |].
  - rewrite dom_insert_lookup_L; [done|by eexists].
  - intros id' row' [[<- <-]|[_ ?]]%lookup_insert_Some; eauto 10.
Qed.

Lemma ClaimPending_inv m now en b d : journal_inv m → journal_inv (ClaimPending m now en b d).2.
Proof.
  intros Hinv. destruct (ClaimPending m now en b d) as [r m'] eqn:HC. cbn.
  apply ClaimPending_cases in HC as [[-> _]|(l&_&_&_&_&_&->)]; [done|].
  apply relabel_inv; [done|apply claim_dom|].
  intros id row' [(row&Hc&->)|[_ Hr]]%claim_rows; [|by eauto 10].
  exists row. split; [by eapply claimed_in_instances|]. split_and!; try done.
  right. apply select_candidates_elem in Hc as [_ Hc]. by eapply claimable_nonterminal.
Qed.

Lemma exec_inv m op : journal_inv m → journal_inv (exec m op).
Proof.
  destruct op; cbn [exec].
  - apply Enqueue_inv. - apply Append_inv. - apply ClaimPending_inv.
  - apply Heartbeat_inv. - apply MarkTerminal_inv.
Qed.

Lemma NewMemJournal_inv : journal_inv NewMemJournal.
Proof. split; cbn; intros; done. Qed.

Lemma reachable_inv m : reachable m → journal_inv m.
Proof. induction 1; [apply NewMemJournal_inv|by apply exec_inv]. Qed.

#[export] Hint Resolve reachable_inv exec_inv NewMemJournal_inv : gocell.

(** ** Frame: what a method cannot change *)

Lemma fenced_lease row l now : fenced row l now = true → leaseID row = l ∧ l ≠ "".
Proof.
  unfold fenced. destruct (leaseID row ==s "") eqn:?; bools; [done|].
  destruct (leaseID row ==s l) eqn:?; bools; [|done]. naive_solver.
Qed.

Lemma newUUID_nonempty en l : newUUID en = Ok l → l ≠ "".
Proof.
  unfold newUUID. case_bool_decide; [|done]. intros [= <-] Heq.
  apply (f_equal byte_len) in Heq. rewrite !byte_len_app in Heq.
  change (byte_len "") with 0 in Heq. change (byte_len "-") with 1 in Heq.
  unfold byte_len in Heq. lia.
Qed.

(** The row of an instance after any method: its log grew by at most the event
    just appended, and its lease is the old one, none, or the one just minted. *)
Lemma exec_row m op id row :
  instances m !! id = Some row →
  ∃ row', instances (exec m op) !! id = Some row' ∧
    (leaseID row' = leaseID row ∨ leaseID row' = "" ∨
     ∃ now en b d, op = OpClaimPending now en b d ∧ newUUID en = Ok (leaseID row')).
Proof.
  intros Hrow. destruct op as [i|now id' l e|now en b d|now id' l d|now id' l s]; cbn [exec].
  - destruct (Enqueue m i) as [r m'] eqn:HE. cbn.
    apply Enqueue_cases in HE as [[-> _]|(_&Hn&_&->)]; [by eauto|]. cbn.
    rewrite lookup_insert_ne by congruence. eauto.
  - destruct (Append m now id' l e) as [r m'] eqn:HA. cbn.
    apply Append_cases in HA as [[-> _]|(row'&i&Hrow'&_&_&_&[= _ ->])]; [by eauto|]. cbn.
    destruct (decide (id' = id)) as [->|]; [|rewrite lookup_insert_ne by done; eauto].
    simplify_eq. rewrite lookup_insert_eq. eauto.
  - destruct (ClaimPending m now en b d) as [r m'] eqn:HC. cbn.
    apply ClaimPending_cases in HC as [[-> _]|(l&_&Hl&_&_&_&->)]; [by eauto|]. cbn.
    destruct (lease_all _ _ _ _ !! id) as [row'|] eqn:Hr.
    + exists row'. split; [done|]. apply claim_rows in Hr as [(row0&_&->)|[_ ?]]; cbn.
      * right; right. by exists now, en, b, d.
      * left. congruence.
    + exfalso. apply not_elem_of_dom in Hr. rewrite claim_dom in Hr.
      apply Hr, elem_of_dom. by eexists.
  - destruct (Heartbeat m now id' l d) as [r m'] eqn:HH. cbn.
    apply Heartbeat_cases in HH as [[-> _]|(row'&Hrow'&_&_&_&->)]; [by eauto|]. cbn.
    destruct (decide (id' = id)) as [->|]; [|rewrite lookup_insert_ne by done; eauto].
    simplify_eq. rewrite lookup_insert_eq. eauto.
  - destruct (MarkTerminal m now id' l s) as [r m'] eqn:HM. cbn.
    apply MarkTerminal_cases in HM as [[-> _]|(row'&i&k&_&_&_&_&_&->)]; [by eauto|]. cbn.
    destruct (decide (id' = id)) as [->|].
    + rewrite lookup_insert_eq. eauto.
    + rewrite !lookup_insert_ne by done. eauto.
Qed.

(** A method called on a row that is not fenced in by its lease leaves the row
    and the log alone. *)
Lemma exec_frozen m op id row :
  instances m !! id = Some row → leaseID row = "" →
  Status_IsTerminal (inst_Status (inst row)) = true →
  instances (exec m op) !! id = Some row ∧ events (exec m op) !! id = events m !! id.
Proof.
  intros Hrow Hl Ht.
  assert (Hnf : ∀ row' l now, instances m !! id = Some row' → fenced row' l now = true → False).
  { intros row' l now ? [? ?]%fenced_lease. by simplify_eq. }
  destruct op as [i|now id' l e|now en b d|now id' l d|now id' l s]; cbn [exec].
  - destruct (Enqueue m i) as [r m'] eqn:HE. cbn.
    apply Enqueue_cases in HE as [[-> _]|(_&Hn&_&->)]; [done|]. cbn.
    by rewrite !lookup_insert_ne by congruence.
  - destruct (Append m now id' l e) as [r m'] eqn:HA. cbn.
    apply Append_cases in HA as [[-> _]|(row'&i&Hrow'&Hf&_&_&[= _ ->])]; [done|]. cbn.
    destruct (decide (id' = id)) as [->|]; [by destruct (Hnf _ _ _ Hrow' Hf)|].
    by rewrite !lookup_insert_ne.
  - destruct (ClaimPending m now en b d) as [r m'] eqn:HC. cbn.
    apply ClaimPending_cases in HC as [[-> _]|(l&_&_&_&_&_&->)]; [done|]. cbn.
    split; [|done]. apply claim_rows. right. split; [|done].
    intros ([id' row']&->&Hc)%list_elem_of_fmap. cbn in *.
    pose proof (claimed_in_instances _ _ _ _ _ Hc). simplify_eq.
    apply select_candidates_elem in Hc as [_ Hc%claimable_nonterminal]. cbn in Hc. congruence.
  - destruct (Heartbeat m now id' l d) as [r m'] eqn:HH. cbn.
    apply Heartbeat_cases in HH as [[-> _]|(row'&Hrow'&Hf&_&_&->)]; [done|]. cbn.
    destruct (decide (id' = id)) as [->|]; [by destruct (Hnf _ _ _ Hrow' Hf)|].
    by rewrite !lookup_insert_ne.
  - destruct (MarkTerminal m now id' l s) as [r m'] eqn:HM. cbn.
    apply MarkTerminal_cases in HM as [[-> _]|(row'&i&k&Hrow'&Hf&_&_&_&->)]; [done|]. cbn.
    destruct (decide (id' = id)) as [->|]; [by destruct (Hnf _ _ _ Hrow' Hf)|].
    by rewrite !lookup_insert_ne.
Qed.

(** A superseded lease stays superseded while no claim mints it again. *)
Lemma exec_all_superseded m ops id row l :
  instances m !! id = Some row → l = "" ∨ leaseID row ≠ l →
  (∀ now en b d, OpClaimPending now en b d ∈ ops → newUUID en ≠ Ok l) →
  ∃ row', instances (exec_all m ops) !! id = Some row' ∧ (l = "" ∨ leaseID row' ≠ l).
Proof.
  revert m row. induction ops as [|op ops IH]; intros m row Hrow Hne Hfresh; [by eauto|].
  destruct (exec_row m op id row Hrow) as (row'&Hrow'&Hc). cbn. apply (IH _ row'); [done| |].
  - destruct Hne as [?|Hne]; [by left|].
    destruct Hc as [->|[->|(now&en&b&d&->&Hu)]]; [by right|by destruct (decide (l = "")); auto|].
    right. intros Heq. rewrite Heq in Hu. eapply Hfresh, Hu. apply elem_of_cons. by left.
  - intros now en b d Hin. eapply Hfresh. apply elem_of_cons. by right.
Qed.

(** ** Ordered claims *)

Lemma select_candidates_order order order' now b :
  NoDup order.*1 → order' ≡ₚ order →
  select_candidates order' now b = select_candidates order now b.
Proof.
  intros Hnd Hp. unfold select_candidates, claim_less. f_equal.
  apply sort_time_id_unique.
  - eapply sublist_NoDup; [apply Hnd|]. apply fmap_sublist, sublist_filter.
  - by rewrite Hp.
Qed.

Lemma select_candidates_oldest order now b c d :
  c ∈ select_candidates order now b → d ∈ order → claimable d.2 now = true →
  d ∉ select_candidates order now b → not_after claim_less c d.
Proof.
  unfold select_candidates. set (sorted := sort_Slice _ _). intros Hc Hd Hdc Hnd.
  assert (Hs : d ∈ sorted).
  { unfold sorted. by rewrite sort_Slice_elem, list_elem_of_filter. }
  rewrite <- (take_drop (Z.to_nat b) sorted), elem_of_app in Hs.
  destruct Hs as [?|Hs]; [done|].
  eapply take_sorted_before; [|apply Hc|apply Hs].
  apply sort_Slice_sorted; unfold claim_less; apply _.
Qed.

Lemma select_candidates_length order now b :
  (length (select_candidates order now b) ≤ Z.to_nat b)%nat.
Proof. unfold select_candidates. rewrite length_take. lia. Qed.

Lemma select_candidates_full order now b c :
  (length (select_candidates order now b) < Z.to_nat b)%nat →
  c ∈ order → claimable c.2 now = true → c ∈ select_candidates order now b.
Proof.
  unfold select_candidates. rewrite length_take. intros Hlt Hc Hcl.
  rewrite take_ge by lia. by rewrite sort_Slice_elem, list_elem_of_filter.
Qed.

(** ** Reading the global log *)

Lemma LoadSince_total m after limit :
  0 < limit → 0 ≤ after → int64_range after → int64_range limit →
  Z.of_nat (length (globalLog m)) ≤ MaxInt64 →
  LoadSince m after limit = Some (Ok (take (Z.to_nat limit) (drop (Z.to_nat after) (globalLog m)))).
Proof.
  unfold int64_range, MinInt64. intros Hl Ha Har Hlr Hn. unfold LoadSince.
  destruct (limit <=? 0) eqn:?; bools; [lia|].
  destruct (after <? 0) eqn:?; bools; [lia|].
  set (n := Z.of_nat (length (globalLog m))) in *. rewrite Z.gtb_ltb. cbn zeta.
  destruct (n <? after) eqn:?; bools.
  - replace (n - n) with 0 by lia. change (wrap64 0) with 0.
    replace (limit <? 0) with false by lia.
    rewrite go_slice_Some by lia. cbn. do 2 f_equal.
    rewrite !drop_ge by lia. by rewrite !take_nil.
  - rewrite (wrap64_id (n - after)) by (unfold int64_range, MinInt64; lia).
    destruct (limit <? n - after) eqn:?; bools.
    + rewrite wrap64_id by (unfold int64_range, MinInt64; lia).
      rewrite go_slice_Some by lia. cbn. do 3 f_equal. lia.
    + rewrite go_slice_Some by lia. cbn. do 2 f_equal.
      rewrite !take_ge; rewrite ?length_drop; (done || lia).
Qed.

(** A reader that pages through the log: read a page after the cursor, move the
    cursor to the last [GlobalSeq] of the page, stop at an empty page. *)
Fixpoint drain (fuel : nat) (m : MemJournal) (cursor limit : Z) : option (list GlobalEvent) :=
  match fuel with
  | O => None
  | S fuel' =>
      match LoadSince m cursor limit with
      | Some (Ok []) => Some []
      | Some (Ok page) =>
          rest ← drain fuel' m (default cursor (GlobalSeq <$> last page)) limit;
          Some (page ++ rest)
      | _ => None
      end
  end.

Lemma last_page m cursor limit g :
  journal_inv m → 0 ≤ cursor →
  last (take (Z.to_nat limit) (drop (Z.to_nat cursor) (globalLog m))) = Some g →
  GlobalSeq g = cursor +
    Z.of_nat (length (take (Z.to_nat limit) (drop (Z.to_nat cursor) (globalLog m)))).
Proof.
  intros Hinv Hc. set (page := take _ _). rewrite last_lookup. intros Hg.
  assert (Hlen : (0 < length page)%nat) by (apply lookup_lt_Some in Hg; lia).
  apply lookup_take_Some in Hg as [Hg _].
  rewrite lookup_drop in Hg. apply (ji_dense _ Hinv) in Hg as [-> _]. lia.
Qed.

Lemma drain_spec fuel m cursor limit :
  journal_inv m → 0 < limit → 0 ≤ cursor → int64_range cursor → int64_range limit →
  Z.of_nat (length (globalLog m)) ≤ MaxInt64 →
  (length (drop (Z.to_nat cursor) (globalLog m)) < fuel)%nat →
  drain fuel m cursor limit = Some (drop (Z.to_nat cursor) (globalLog m)).
Proof.
  intros Hinv Hl. revert cursor. induction fuel as [|fuel IH]; intros cursor Hc Hcr Hlr Hn Hf; [lia|].
  cbn [drain]. rewrite LoadSince_total by done.
  set (rest := drop (Z.to_nat cursor) (globalLog m)) in *.
  destruct (take (Z.to_nat limit) rest) as [|x page] eqn:Hp.
  { destruct rest; [done|]. destruct (Z.to_nat limit) eqn:?; [lia|done]. }
  rewrite <- Hp. destruct (last (take (Z.to_nat limit) rest)) as [g|] eqn:Hlast.
  2:{ by rewrite last_None, Hp in Hlast. }
  apply (last_page _ _ _ _ Hinv Hc) in Hlast. fold rest in Hlast. cbn. rewrite Hlast.
  set (k := length (take (Z.to_nat limit) rest)) in *.
  assert (Hk : (0 < k ≤ length rest)%nat).
  { unfold k. rewrite length_take. destruct rest; [by rewrite take_nil in Hp|cbn; lia]. }
  assert (Hdrop : drop (Z.to_nat (cursor + Z.of_nat k)) (globalLog m) = drop k rest).
  { unfold rest. rewrite drop_drop. f_equal. lia. }
  assert (Hrl : length rest = (length (globalLog m) - Z.to_nat cursor)%nat)
    by (unfold rest; by rewrite length_drop).
  rewrite IH; try done; [|lia|unfold int64_range, MinInt64 in *; lia|rewrite Hdrop, length_drop; lia].
  cbn. rewrite Hdrop. f_equal. unfold k. rewrite length_take.
  destruct (Nat.le_gt_cases (Z.to_nat limit) (length rest)).
  - rewrite Nat.min_l by lia. apply take_drop.
  - rewrite Nat.min_r by lia. rewrite take_ge, drop_all by lia. apply app_nil_r.
Qed.

(** ** Demonstration run, used by the witnesses *)

Definition demo_entropy : list Z := [18; 52; 86; 120; 154; 188; 222; 240; 255; 0; 1; 2; 3; 4; 5; 6].
Definition demo_lease : string := "12345678-9abc-4ef0-bf00-010203040506".
Definition demo_event (k : EventKind) (step : string) : Event := MkEvent 0 0 k step "" 0.

Definition demo_ops : list journal_op :=
  [ OpEnqueue (NewInstance "s1" "order" 5);
    OpEnqueue (NewInstance "s2" "order" 3);
    OpClaimPending 10 demo_entropy 1 100;
    OpAppend 11 "s2" demo_lease (demo_event KindStepStarted "charge");
    OpAppend 12 "s2" demo_lease (demo_event KindStepCompleted "charge") ].

Definition demo : MemJournal := exec_all NewMemJournal demo_ops.
Definition demo_done : MemJournal := exec demo (OpMarkTerminal 13 "s2" demo_lease StatusSucceeded).

Lemma reachable_exec_all m ops : reachable m → reachable (exec_all m ops).
Proof.
  revert m. induction ops as [|op ops IH]; intros m Hm; [done|]. cbn. by apply IH, reachable_exec.
Qed.

Lemma reachable_demo : reachable demo.
Proof. apply reachable_exec_all, reachable_new. Qed.

(** ** Properties *)

(** in every reachable journal the two logs agree and are gapless: the
    global log carries positions 1..N in order with [HeadSeq] = N; each instance's
    [Load] is exactly the sub-sequence of the global log that belongs to it,
    numbered 1..n with n the row's version; and each projected instance is
    well-formed and filed under its own ID. *)
Theorem journal_logs_consistent m :
  reachable m →
  HeadSeq m = Z.of_nat (length (globalLog m)) ∧
  (∀ i g, globalLog m !! i = Some g → GlobalSeq g = Z.of_nat i + 1) ∧
  ∀ id row, instances m !! id = Some row →
    ID (inst row) = id ∧ instance_wf (inst row) ∧
    Load m id = Ok (instance_events m id) ∧
    currentVersion row = Z.of_nat (length (instance_events m id)) ∧
    (∀ i e, instance_events m id !! i = Some e → Version e = Z.of_nat i + 1).
Proof.
  intros Hinv%reachable_inv. split; [apply Hinv|].
  split; [intros i g Hg; by apply (ji_dense _ Hinv) in Hg as [? _]|].
  intros id row Hrow. destruct (ji_rows _ Hinv _ _ Hrow) as (log&Hlog&[]).
  assert (log = instance_events m id) as <- by (by rewrite <- (ji_local _ Hinv), Hlog).
  unfold Load. rewrite Hrow, Hlog. done.
Qed.

Lemma journal_logs_consistent_witness :
  HeadSeq demo = 2 ∧ ∃ row, instances demo !! "s2" = Some row ∧ currentVersion row = 2.
Proof.
  pose proof (journal_logs_consistent demo reachable_demo) as (H1&_&H2).
  split; [rewrite H1; vm_compute; reflexivity|].
  eexists. split; [vm_compute; reflexivity|].
  edestruct (H2 "s2") as (_&_&_&H3&_); [vm_compute; reflexivity|].
  rewrite H3. vm_compute. reflexivity.
Defined.

(** C22: the status projection refines the event protocol: in every reachable
    journal, the log of each instance is a word the protocol automaton [replay]
    accepts from Pending and the projected status is the state it ends in; the
    status is terminal exactly when the last event is a terminal event, and then
    the lease is released. *)
Theorem status_refines_protocol m id row :
  reachable m → instances m !! id = Some row →
  ∃ log, Load m id = Ok log ∧
    replay_all StatusPending (kinds log) = Some (inst_Status (inst row)) ∧
    (Status_IsTerminal (inst_Status (inst row)) = true ↔
     ∃ e, last log = Some e ∧ EventKind_IsTerminal (ev_Kind e) = true) ∧
    (Status_IsTerminal (inst_Status (inst row)) = true → leaseID row = "").
Proof.
  intros Hinv%reachable_inv Hrow. destruct (ji_rows _ Hinv _ _ Hrow) as (log&Hlog&Hok).
  exists log. split; [unfold Load; by rewrite Hrow, Hlog|].
  pose proof (ro_status _ _ _ Hok) as Hs. split; [done|]. split; [|apply Hok].
  destruct log as [|e log _] using rev_ind.
  - cbn in Hs. simplify_eq. rewrite <- Hs. split; [done|]. by intros (?&?&_).
  - unfold kinds in Hs. rewrite fmap_app in Hs. cbn in Hs. rewrite replay_all_snoc in Hs.
    destruct (replay_all _ _) as [s'|]; [|done]. cbn in Hs.
    apply replay_to_terminal in Hs. rewrite Hs, last_snoc. naive_solver.
Qed.

Lemma status_refines_protocol_witness :
  ∃ row log, instances demo_done !! "s2" = Some row ∧ Load demo_done "s2" = Ok log ∧
    replay_all StatusPending (kinds log) = Some StatusSucceeded ∧ leaseID row = "".
Proof.
  edestruct (status_refines_protocol demo_done "s2") as (log&H1&H2&_&H4);
    [apply reachable_exec, reachable_demo|vm_compute; reflexivity|].
  eexists _, log. split; [vm_compute; reflexivity|]. split; [done|].
  split; [done|]. reflexivity.
Defined.

(** a terminal instance is frozen: whatever methods are called afterwards,
    in whatever order and at whatever clock readings, its row and its event log
    never change again. *)
Theorem terminal_is_frozen m ops id row :
  reachable m → instances m !! id = Some row →
  Status_IsTerminal (inst_Status (inst row)) = true →
  instances (exec_all m ops) !! id = Some row ∧ Load (exec_all m ops) id = Load m id.
Proof.
  intros Hinv%reachable_inv Hrow Ht.
  destruct (ji_rows _ Hinv _ _ Hrow) as (log&Hlog&Hok).
  pose proof (ro_lease _ _ _ Hok Ht) as Hl. unfold Load. rewrite Hrow, Hlog.
  clear Hinv Hok. revert m Hrow Hlog. induction ops as [|op ops IH]; intros m Hrow Hlog; cbn.
  { by rewrite Hrow, Hlog. }
  destruct (exec_frozen m op id row Hrow Hl Ht) as [? Hev]. apply IH; [done|by rewrite Hev].
Qed.

Lemma terminal_is_frozen_witness :
  let ops := [OpClaimPending 500 demo_entropy 5 10;
              OpAppend 14 "s2" demo_lease (demo_event KindStepFailed "charge");
              OpMarkTerminal 15 "s2" demo_lease StatusFailed] in
  Load (exec_all demo_done ops) "s2" = Load demo_done "s2".
Proof.
  intros ops. eapply (terminal_is_frozen demo_done ops "s2");
    [apply reachable_exec, reachable_demo|vm_compute; reflexivity|reflexivity].
Defined.

Lemma not_fenced_other row l now : leaseID row ≠ l → fenced row l now = false.
Proof.
  intros Hne. destruct (fenced row l now) eqn:Hf; [|done].
  by apply fenced_lease in Hf as [? _].
Qed.

Lemma not_fenced_empty row now : fenced row "" now = false.
Proof.
  destruct (fenced row "" now) eqn:Hf; [|done]. by apply fenced_lease in Hf as [_ ?].
Qed.

(** C4: a superseded lease is dead for good.  Once an instance's row no longer
    carries the fencing token [l] (another coordinator claimed it, or it was
    released), then after any sequence of methods in which no claim draws the
    same UUID again, every [Append], [MarkTerminal] and [Heartbeat] under [l]
    is refused and changes nothing. *)
Theorem superseded_lease_is_fenced m ops id row l :
  instances m !! id = Some row → leaseID row ≠ l →
  (∀ now en b d, OpClaimPending now en b d ∈ ops → newUUID en ≠ Ok l) →
  let m' := exec_all m ops in
  ∀ now, (∀ e, Append m' now id l e = (Err NewStaleLeaseError, m')) ∧
         (∀ s, MarkTerminal m' now id l s = (Ok false, m')) ∧
         (∀ d, 0 < d → Heartbeat m' now id l d = (Ok false, m')).
Proof.
  intros Hrow Hne Hfresh m' now.
  destruct (exec_all_superseded m ops id row l) as (row'&Hr&Hl); [by auto..|]. fold m' in Hr.
  assert (Hf : fenced row' l now = false).
  { destruct Hl as [->|?]; [apply not_fenced_empty|by apply not_fenced_other]. }
  unfold Append, MarkTerminal, Heartbeat. rewrite Hr, Hf. split_and!; [done..|].
  intros d Hd. by replace (d <=? 0) with false by lia.
Qed.

Lemma superseded_lease_is_fenced_witness :
  let m := exec demo (OpClaimPending 150 (reverse demo_entropy) 5 20) in
  let ops := [OpHeartbeat 160 "s2" "06050403-0201-40ff-b0de-bc9a78563412" 20;
              OpClaimPending 400 (reverse demo_entropy) 5 20] in
  Append (exec_all m ops) 410 "s2" demo_lease (demo_event KindStepStarted "ship")
  = (Err NewStaleLeaseError, exec_all m ops).
Proof.
  intros m ops.
  destruct (instances m !! "s2") as [row|] eqn:Hr; [|vm_compute in Hr; discriminate].
  apply (superseded_lease_is_fenced m ops "s2" row demo_lease);
    [exact Hr|vm_compute in Hr; injection Hr as <-; vm_compute; congruence|].
  intros now en b d Hin. unfold ops in Hin.
  rewrite !elem_of_cons, elem_of_nil in Hin.
  destruct Hin as [Hin|[Hin|[]]]; [discriminate|]. injection Hin as _ -> _ _.
  vm_compute. congruence.
Defined.

(** The clock guard applies only to events that move the status. *)
Definition clock_ok (i : Instance) (s' : Status) (now : Time) : Prop :=
  inst_Status i = s' ∨ (StartedAt i ≤ now ∧ opt_le (UpdatedAt i) now).

Lemma applyProjection_complete i k now s' :
  EventKind_Valid k = true → EventKind_IsTerminal k = false →
  replay (inst_Status i) k = Some s' → clock_ok i s' now →
  is_Some (match applyProjection i k now with Ok i' => Some i' | Err _ => None end).
Proof.
  intros Hv Ht Hr Hc.
  assert (Hadv : ∀ to, edge (inst_Status i) to → inst_Status i ≠ to → s' = to →
    ∃ i', AdvanceSaga (Some i) to now = Ok i').
  { intros to He Hne ->. destruct Hc as [?|[??]]; [done|].
    eexists. by apply AdvanceSaga_Ok. }
  destruct k; try done; cbn [applyProjection replay] in *;
    try (destruct (inst_Status i) eqn:Hs; try done; simplify_eq;
         first [by eexists | destruct (Hadv StatusRunning) as [? ->]; by try eexists
               | destruct (Hadv StatusCompensating) as [? ->]; by try eexists
               | rewrite bool_decide_eq_true_2 by done; by eexists]).
Qed.

(** [Append], exactly.  In a reachable journal it succeeds if and only if
    the instance exists, the caller's lease is the current unexpired one, the
    event validates, the protocol allows its kind in the current status, and
    (when the status moves) the clock has not gone back; it then returns the
    next version, the instance's log has grown by exactly that event, stamped
    with version, global position and time, and no other instance's log or row
    moved.  In every other case it reports an error and changes nothing. *)
Theorem Append_spec m now id l e :
  reachable m →
  let '(r, m') := Append m now id l e in
  match r with
  | Ok v =>
      ∃ row log, instances m !! id = Some row ∧ fenced row l now = true ∧
        ValidateForAppend e = Ok tt ∧ is_Some (replay (inst_Status (inst row)) (ev_Kind e)) ∧
        Load m id = Ok log ∧ v = Z.of_nat (length log) + 1 ∧
        Load m' id = Ok (log ++ [MkEvent v (HeadSeq m + 1) (ev_Kind e) (StepName e) (Payload e) now]) ∧
        ∀ id', id' ≠ id → Load m' id' = Load m id' ∧ instances m' !! id' = instances m !! id'
  | Err _ =>
      m' = m ∧
      ∀ row s', instances m !! id = Some row → fenced row l now = true →
        ValidateForAppend e = Ok tt → replay (inst_Status (inst row)) (ev_Kind e) = Some s' →
        ¬ clock_ok (inst row) s' now
  end.
Proof.
  intros Hinv%reachable_inv. destruct (Append m now id l e) as [r m'] eqn:HA.
  pose proof (Append_cases _ _ _ _ _ _ _ HA) as [[-> [err ->]]|(row&i&Hrow&Hf&Hv&Hp&[= -> ->])].
  - split; [done|]. intros row s' Hrow Hf Hv Hr Hc. unfold Append in HA.
    rewrite Hrow, Hf, Hv in HA. cbn in HA.
    apply ValidateForAppend_Ok in Hv as (Hvk&Hnt&_).
    destruct (applyProjection_complete _ _ _ _ Hvk Hnt Hr Hc) as [i Hi].
    by destruct (applyProjection _ _ _).
  - destruct (ji_rows _ Hinv _ _ Hrow) as (log&Hlog&Hok). exists row, log. cbn.
    pose proof Hv as (Hvk&Hnt&_)%ValidateForAppend_Ok.
    apply applyProjection_replay in Hp as (Hre&_&_); [|apply Hok|done|done].
    unfold Load; cbn. rewrite Hrow, Hlog, !lookup_insert_eq, (ro_version _ _ _ Hok). cbn.
    rewrite Hre. split_and!; try done.
    intros id' Hne. by rewrite !lookup_insert_ne.
Qed.

Lemma Append_spec_witness :
  ∃ m', Append demo 12 "s2" demo_lease (demo_event KindCompensationStarted "") = (Ok 3, m') ∧
    Load m' "s1" = Load demo "s1".
Proof.
  pose proof (Append_spec demo 12 "s2" demo_lease (demo_event KindCompensationStarted "")
    reachable_demo) as H.
  destruct (Append demo 12 "s2" demo_lease _) as [r m'] eqn:HA.
  assert (Hr : r = Ok 3) by (apply (f_equal fst) in HA; vm_compute in HA; by rewrite <- HA).
  subst r. exists m'. split; [done|]. destruct H as (?&?&_&_&_&_&_&_&_&H). by apply H.
Defined.

(** [ClaimPending] leases the oldest claimable instances.  A successful call
    leases at most [batchSize] instances, all claimable (non-terminal, with no
    unexpired lease), in (StartedAt, ID) order and none younger than a claimable
    one left behind; if fewer than [batchSize] were leased nothing claimable was
    left behind.  Exactly those rows now carry the new lease until
    [now + leaseDuration], every other row is untouched, no log changes, and the
    choice does not depend on the order in which Go ranges over the map. *)
Theorem ClaimPending_spec m now en b d cs l m' :
  ClaimPending m now en b d = (Ok (cs, l), m') → cs ≠ [] →
  ∃ sel, cs = (λ c, MkClaimed (inst c.2) l) <$> sel ∧ newUUID en = Ok l ∧
    Z.of_nat (length sel) ≤ b ∧ StronglySorted (not_after claim_less) sel ∧
    (∀ id row, (id, row) ∈ sel → instances m !! id = Some row ∧ claimable row now = true ∧
       instances m' !! id = Some (row_with_lease row l (now + d)) ∧
       fenced (row_with_lease row l (now + d)) l now = true) ∧
    (∀ id row, instances m !! id = Some row → id ∉ sel.*1 →
       instances m' !! id = Some row ∧
       (claimable row now = true → Z.of_nat (length sel) = b ∧
          ∀ c, c ∈ sel → not_after claim_less c (id, row))) ∧
    events m' = events m ∧ globalLog m' = globalLog m ∧
    (∀ order, order ≡ₚ map_to_list (instances m) → select_candidates order now b = sel).
Proof.
  intros HC Hne.
  apply ClaimPending_cases in HC as [(_&_&H)|(l'&Hcs&Hu&Hb&Hd&[= -> ->]&->)].
  { by destruct (H _ eq_refl) as [[= -> ->] _]. }
  set (sel := select_candidates _ _ _) in *. exists sel.
  pose proof (select_candidates_length (map_to_list (instances m)) now b) as Hlen.
  fold sel in Hlen. split_and!; try done; [lia| | | |].
  - apply take_sorted. apply sort_Slice_sorted; unfold claim_less; apply _.
  - intros id row Hin. pose proof Hin as [_ Hcl]%select_candidates_elem.
    split_and!; [by eapply claimed_in_instances|done|apply claim_rows; eauto|].
    unfold fenced; cbn. pose proof (newUUID_nonempty _ _ Hu).
    unfold str_eqb. rewrite bool_decide_eq_false_2, bool_decide_eq_true_2 by done. cbn.
    unfold Before. by replace (now + d <? now) with false by lia.
  - intros id row Hrow Hni. split; [apply claim_rows; eauto|]. intros Hcl.
    assert (Hin : (id, row) ∈ map_to_list (instances m)) by (by apply elem_of_map_to_list).
    assert (Hns : (id, row) ∉ sel).
    { intros Hs. apply Hni. by apply (list_elem_of_fmap_2 fst) in Hs. }
    split; [|intros c Hc; by eapply select_candidates_oldest].
    destruct (decide (length sel < Z.to_nat b)%nat) as [Hlt|?]; [|lia].
    destruct Hns. by apply select_candidates_full.
  - intros order Hp. apply select_candidates_order; [apply NoDup_fst_map_to_list|done].
Qed.

Lemma ClaimPending_spec_witness :
  ∃ cs l m', ClaimPending demo 20 (reverse demo_entropy) 5 30 = (Ok (cs, l), m') ∧
    ci_Instance <$> cs = [NewInstance "s1" "order" 5] ∧ events m' = events demo.
Proof.
  destruct (ClaimPending demo 20 (reverse demo_entropy) 5 30) as [[[cs l]|e] m'] eqn:HC.
  2:{ apply (f_equal fst) in HC. vm_compute in HC. discriminate. }
  exists cs, l, m'. split; [done|].
  assert (Hcs : ci_Instance <$> cs = [NewInstance "s1" "order" 5]).
  { pose proof (f_equal fst HC) as Hf. vm_compute in Hf. injection Hf as <- _. reflexivity. }
  split; [done|].
  assert (Hne : cs ≠ []) by (intros Hnil; rewrite Hnil in Hcs; discriminate).
  clear Hcs. destruct (ClaimPending_spec _ _ _ _ _ _ _ _ HC Hne) as (sel&_&_&_&_&_&_&H&_).
  exact H.
Defined.

(** [LoadSince] never slices out of range and its 64-bit arithmetic never
    overflows, whatever the cursor and however large the limit: it returns the
    first [limit] events after the cursor.  A reader that pages through the log
    from position 0, resuming from the last position of each page, terminates
    and sees every event exactly once, in order. *)
Theorem LoadSince_spec m after limit :
  reachable m → Z.of_nat (length (globalLog m)) ≤ MaxInt64 →
  int64_range after → int64_range limit → 0 < limit → 0 ≤ after →
  LoadSince m after limit
    = Some (Ok (take (Z.to_nat limit) (drop (Z.to_nat after) (globalLog m)))) ∧
  drain (S (length (globalLog m))) m 0 limit = Some (globalLog m).
Proof.
  intros Hr Hn Ha Hlr Hl H0. split; [by apply LoadSince_total|].
  rewrite (drain_spec _ _ 0); try done; eauto with gocell; rewrite ?length_drop; cbn; lia.
Qed.

Lemma LoadSince_spec_witness :
  LoadSince demo 1 MaxInt64 = Some (Ok (drop 1 (globalLog demo))) ∧
  drain 3 demo 0 1 = Some (globalLog demo).
Proof.
  split; [|vm_compute; reflexivity].
  assert (Hlen : length (globalLog demo) = 2%nat) by (vm_compute; reflexivity).
  destruct (LoadSince_spec demo 1 MaxInt64 reachable_demo) as [-> _];
    [rewrite Hlen|..]; try (unfold int64_range, MinInt64, MaxInt64; lia).
  rewrite take_ge; [reflexivity|]. rewrite length_drop, Hlen. unfold MaxInt64. lia.
Defined.
