(* ===== verification/Backoff.v ===== *)
(** * Retry delays

    The three backoff computations of the code base on 64-bit durations:
    [koutbox.ExponentialDelay] (kernel/outbox/consumer_base.go), the saga
    executor's jittered [Backoff] (runtime/saga/executor/retry_policy.go) and the
    outbox relay's [retryDelay] (runtime/outbox/relay.go).  Random numbers are an
    argument: [int64N n] is what the generator's [Int64N(n)] returned, and its
    documented contract is [0 <= int64N n < n]. *)

From S2P Require Import Prelude Saga.

(** [bits.Len64]: the number of bits needed for a positive integer. *)
Definition bits_Len64 (x : Z) : Z := if x <=? 0 then 0 else Z.log2 x + 1.

Definition ExponentialDelay (base maxDelay : Duration) (attempt : Z) : Duration :=
  if base <=? 0 then 0
  else if attempt <? 0 then 0
  else
    let maxSafeShift := 63 - bits_Len64 base in
    if attempt >? maxSafeShift then maxDelay
    else
      let delay := wrap64 (base * wrap64 (Z.shiftl 1 attempt)) in
      if (delay <=? 0) || (delay >? maxDelay) then maxDelay else delay.

(** ** The saga executor's policy *)

Definition DefaultMaxAttempts : Z := 1.
Definition DefaultBaseInterval : Duration := 100 * Millisecond.
Definition DefaultMaxInterval : Duration := 30 * Second.
Definition jitterDivisor : Z := 5.

Record resolvedPolicy := MkResolved {
  maxAttempts : Z;
  base : Duration;
  max : Duration;
}.

Definition resolve_field (step def dflt : Z) : Z :=
  if negb (step =? 0) then step else if negb (def =? 0) then def else dflt.

Definition resolvePolicy (step def : RetryPolicy) : resolvedPolicy :=
  MkResolved
    (resolve_field (MaxAttempts step) (MaxAttempts def) DefaultMaxAttempts)
    (resolve_field (BaseInterval step) (BaseInterval def) DefaultBaseInterval)
    (resolve_field (MaxInterval step) (MaxInterval def) DefaultMaxInterval).

Definition ShouldRetry (p : resolvedPolicy) (attempt : Z) : bool := attempt <? maxAttempts p.

Definition Backoff (p : resolvedPolicy) (attempt : Z) (int64N : Z → Z) : Duration :=
  let d := ExponentialDelay (base p) (max p) attempt in
  if d <=? 0 then 0
  else
    let lower := d - Z.quot d jitterDivisor in
    lower + int64N (Z.quot d jitterDivisor + 1).

(** ** The outbox relay *)

Definition retryDelayBase : Z := 1.
Definition retryJitterDivisor : Z := 4.

Definition cappedDelay (d maxDelay : Duration) : Duration :=
  if d <=? 0 then 0 else if d >? maxDelay then maxDelay else d.

(** [None] is the run-time panic of a negative shift count. *)
Definition retryDelay (BaseRetryDelay MaxRetryDelay : Duration) (attempts : Z) (int64N : Z → Z)
    : option Duration :=
  let shift := Z.min attempts 30 in
  if shift <? 0 then None
  else
    let delay := cappedDelay (wrap64 (BaseRetryDelay * Z.shiftl retryDelayBase shift)) MaxRetryDelay in
    Some (if delay >? 0
          then wrap64 (delay + int64N (Z.quot delay retryJitterDivisor + 1))
          else delay).

(** ** Lemmas *)

Lemma shiftl_1 n : 0 ≤ n → Z.shiftl 1 n = 2 ^ n.
Proof. intros. rewrite Z.shiftl_mul_pow2 by done. lia. Qed.

Lemma bits_Len64_spec x : 0 < x → 2 ^ (bits_Len64 x - 1) ≤ x < 2 ^ bits_Len64 x.
Proof.
  intros Hx. unfold bits_Len64. replace (x <=? 0) with false by lia.
  pose proof (Z.log2_spec x Hx). replace (Z.log2 x + 1 - 1) with (Z.log2 x) by lia.
  replace (Z.log2 x + 1) with (Z.succ (Z.log2 x)) by lia. done.
Qed.

Lemma bits_Len64_int64 x : 0 < x → int64_range x → 1 ≤ bits_Len64 x ≤ 63.
Proof.
  unfold int64_range, MinInt64, MaxInt64. intros Hx Hr. unfold bits_Len64.
  replace (x <=? 0) with false by lia. pose proof (Z.log2_nonneg x).
  assert (Z.log2 x < 63) by (apply Z.log2_lt_pow2; lia). lia.
Qed.

Lemma safe_shift base attempt :
  0 < base → int64_range base → 0 ≤ attempt ≤ 63 - bits_Len64 base →
  0 < base * 2 ^ attempt ≤ MaxInt64.
Proof.
  intros Hb Hr Ha. pose proof (bits_Len64_spec base Hb) as [_ Hlt].
  pose proof (bits_Len64_int64 base Hb Hr).
  assert (0 < 2 ^ attempt) by (apply Z.pow_pos_nonneg; lia).
  split; [nia|]. unfold MaxInt64.
  assert (base * 2 ^ attempt < 2 ^ bits_Len64 base * 2 ^ attempt) by nia.
  rewrite <- Z.pow_add_r in * by lia.
  assert (2 ^ (bits_Len64 base + attempt) ≤ 2 ^ 63) by (apply Z.pow_le_mono_r; lia). lia.
Qed.

Lemma unsafe_shift base attempt :
  0 < base → int64_range base → 63 - bits_Len64 base < attempt → MaxInt64 < base * 2 ^ attempt.
Proof.
  intros Hb Hr Ha. pose proof (bits_Len64_spec base Hb) as [Hge _].
  pose proof (bits_Len64_int64 base Hb Hr). unfold MaxInt64.
  assert (0 < 2 ^ attempt) by (apply Z.pow_pos_nonneg; lia).
  assert (2 ^ (bits_Len64 base - 1) * 2 ^ attempt ≤ base * 2 ^ attempt) by nia.
  rewrite <- Z.pow_add_r in * by lia.
  assert (2 ^ 63 ≤ 2 ^ (bits_Len64 base - 1 + attempt)) by (apply Z.pow_le_mono_r; lia). lia.
Qed.

Lemma ExponentialDelay_min base maxDelay attempt :
  0 < base → int64_range base → int64_range maxDelay → 0 ≤ attempt →
  ExponentialDelay base maxDelay attempt = Z.min maxDelay (base * 2 ^ attempt).
Proof.
  intros Hb Hbr Hmr Ha. unfold ExponentialDelay.
  replace (base <=? 0) with false by lia. replace (attempt <? 0) with false by lia.
  rewrite !Z.gtb_ltb. cbn zeta.
  destruct (63 - bits_Len64 base <? attempt) eqn:Hs; bools.
  - pose proof (unsafe_shift base attempt Hb Hbr Hs). unfold int64_range in Hmr. lia.
  - pose proof (safe_shift base attempt Hb Hbr ltac:(lia)) as Hsafe.
    assert (1 ≤ 2 ^ attempt ≤ base * 2 ^ attempt).
    { pose proof (Z.pow_pos_nonneg 2 attempt ltac:(lia) Ha). nia. }
    rewrite shiftl_1 by done.
    rewrite (wrap64_id (2 ^ attempt)) by (unfold int64_range, MinInt64; lia).
    rewrite wrap64_id by (unfold int64_range, MinInt64; lia).
    destruct (_ || _) eqn:Hc; [apply orb_true_iff in Hc as [?|?]|]; bools; lia.
Qed.

Lemma ExponentialDelay_nonneg base maxDelay attempt :
  0 ≤ maxDelay → 0 ≤ ExponentialDelay base maxDelay attempt.
Proof. unfold ExponentialDelay. intros. repeat case_match; bools; lia. Qed.

Lemma cappedDelay_min d maxDelay :
  0 ≤ maxDelay → cappedDelay d maxDelay = Z.max 0 (Z.min d maxDelay).
Proof. intros. unfold cappedDelay. rewrite Z.gtb_ltb. repeat case_match; bools; lia. Qed.

(** ** Properties *)

(** [ExponentialDelay] is [min(maxDelay, base * 2^attempt)], computed
    without overflow: for every 64-bit base, cap and attempt number (however
    large) the 64-bit code returns exactly the mathematical value, and 0 for a
    non-positive base or a negative attempt; in particular the delay never
    decreases from one attempt to the next. *)
Theorem ExponentialDelay_exact base maxDelay attempt :
  int64_range base → int64_range maxDelay →
  ExponentialDelay base maxDelay attempt
    = (if decide (0 < base ∧ 0 ≤ attempt) then Z.min maxDelay (base * 2 ^ attempt) else 0) ∧
  (0 ≤ maxDelay → 0 ≤ attempt →
   ExponentialDelay base maxDelay attempt ≤ ExponentialDelay base maxDelay (attempt + 1)).
Proof.
  intros Hb Hm.
  assert (Hx : ∀ a, ExponentialDelay base maxDelay a
    = if decide (0 < base ∧ 0 ≤ a) then Z.min maxDelay (base * 2 ^ a) else 0).
  { intros a. case_decide as Hc; [apply ExponentialDelay_min; tauto|].
    unfold ExponentialDelay. repeat case_match; bools; (done || lia). }
  split; [apply Hx|]. intros H0 Ha. rewrite !Hx.
  repeat case_decide; try lia. rewrite Z.pow_add_r by lia.
  pose proof (Z.pow_pos_nonneg 2 attempt ltac:(lia) Ha). nia.
Qed.

Lemma ExponentialDelay_exact_witness :
  ExponentialDelay (100 * Millisecond) (30 * Second) 200 = 30 * Second.
Proof.
  destruct (ExponentialDelay_exact (100 * Millisecond) (30 * Second) 200) as [-> _];
    [vm_compute; split; congruence..|]. vm_compute. reflexivity.
Defined.

(** the saga executor's wait before retry [attempt] lies in [0.8 d, d] where
    [d] is the exponential delay of the resolved policy (rounded to whole
    nanoseconds), is never negative and never exceeds the policy's cap, for every
    generator that respects the contract of [Int64N]; a resolved policy of valid
    step and definition policies always allows at least one attempt and has a
    positive base interval. *)
Theorem Backoff_window step def attempt int64N :
  valid_policy step → valid_policy def → 0 ≤ attempt →
  int64_range (BaseInterval step) → int64_range (BaseInterval def) →
  int64_range (MaxInterval step) → int64_range (MaxInterval def) →
  (∀ n, 0 < n → 0 ≤ int64N n < n) →
  let p := resolvePolicy step def in
  let d := Z.min (max p) (base p * 2 ^ attempt) in
  1 ≤ maxAttempts p ∧ 0 < base p ∧ 0 < max p ∧
  4 * d ≤ 5 * Backoff p attempt int64N ∧ Backoff p attempt int64N ≤ d ≤ max p.
Proof.
  intros (Hs1&Hs2&Hs3&_) (Hd1&Hd2&Hd3&_) Ha Hr1 Hr2 Hr3 Hr4 Hj p d.
  assert (Hres : ∀ a b c, 0 ≤ a → 0 ≤ b → 0 < c → int64_range a → int64_range b → int64_range c →
    0 < resolve_field a b c ∧ int64_range (resolve_field a b c)).
  { intros a b c. unfold resolve_field. repeat case_match; bools; split; (done || lia). }
  assert (Hmax : 1 ≤ maxAttempts p).
  { cbn. unfold resolve_field, DefaultMaxAttempts. repeat case_match; bools; lia. }
  destruct (Hres (BaseInterval step) (BaseInterval def) DefaultBaseInterval) as [Hb Hbr];
    [done|done|done|done|done|vm_compute; split; congruence|].
  destruct (Hres (MaxInterval step) (MaxInterval def) DefaultMaxInterval) as [Hm Hmr];
    [done|done|done|done|done|vm_compute; split; congruence|].
  split_and!; [done..| | |unfold d; lia];
    unfold Backoff; fold (base p) (max p); rewrite ExponentialDelay_min by done; fold d;
    pose proof (Z.pow_pos_nonneg 2 attempt ltac:(lia) Ha);
    (assert (0 < d) by (unfold d, p; cbn; nia));
    replace (d <=? 0) with false by lia; unfold jitterDivisor;
    pose proof (Z.quot_pos d 5 ltac:(lia) ltac:(lia));
    pose proof (Hj (Z.quot d 5 + 1) ltac:(lia));
    pose proof (Z.mul_quot_le d 5 ltac:(lia) ltac:(lia)); lia.
Qed.

Lemma Backoff_window_witness :
  let p := resolvePolicy (MkRetryPolicy 3 0 0) (MkRetryPolicy 0 Second 0) in
  Backoff p 2 (λ n, n / 2) ≤ 4 * Second ∧ 4 * (4 * Second) ≤ 5 * Backoff p 2 (λ n, n / 2).
Proof.
  destruct (Backoff_window (MkRetryPolicy 3 0 0) (MkRetryPolicy 0 Second 0) 2 (λ n, n / 2))
    as (_&_&_&H1&H2&_);
    [unfold valid_policy; cbn; unfold Second, Millisecond; lia
    |unfold valid_policy; cbn; unfold Second, Millisecond; lia|lia
    |vm_compute; split; congruence..
    |intros n Hn; split; [apply Z.div_pos; lia|apply Z.div_lt; lia]|].
  split; [exact H2|exact H1].
Defined.

(** The relay's retry delay.  For a base of at most 2^33 ns (8.58 s) the
    64-bit code is exact for every attempt count: the delay lies between
    [c = min(base * 2^min(attempts,30), max)] and [c + c/4].  Beyond that base the
    clamp at 30 does not prevent the overflow it was written against: with a
    10-second base and 30 attempts the product wraps below zero and the relay
    retries with no delay at all. *)
Theorem retryDelay_range baseDelay maxDelay attempts int64N :
  0 < baseDelay ≤ 2 ^ 33 - 1 → 0 < maxDelay ≤ 2 ^ 62 → 0 ≤ attempts →
  (∀ n, 0 < n → 0 ≤ int64N n < n) →
  (∃ d, retryDelay baseDelay maxDelay attempts int64N = Some d ∧
     let c := Z.min (baseDelay * 2 ^ Z.min attempts 30) maxDelay in
     c ≤ d ∧ 4 * d ≤ 5 * c) ∧
  retryDelay (10 * Second) (5 * Minute) 30 int64N = Some 0.
Proof.
  intros Hb Hm Ha Hj. split; [|vm_compute; reflexivity]. unfold retryDelay.
  replace (Z.min attempts 30 <? 0) with false by lia. eexists; split; [reflexivity|].
  unfold retryDelayBase. rewrite shiftl_1 by lia. set (k := Z.min attempts 30).
  assert (0 ≤ k ≤ 30) by (unfold k; lia).
  assert (1 ≤ 2 ^ k ≤ 2 ^ 30).
  { split; [pose proof (Z.pow_pos_nonneg 2 k ltac:(lia) ltac:(lia)); lia|apply Z.pow_le_mono_r; lia]. }
  rewrite wrap64_id by (unfold int64_range, MinInt64, MaxInt64; nia).
  rewrite cappedDelay_min by lia. set (c := Z.min (baseDelay * 2 ^ k) maxDelay).
  assert (0 < c ≤ 2 ^ 62) by (unfold c; nia).
  rewrite Z.max_r, Z.gtb_ltb by lia. replace (0 <? c) with true by lia.
  unfold retryJitterDivisor. pose proof (Z.quot_pos c 4 ltac:(lia) ltac:(lia)).
  pose proof (Z.mul_quot_le c 4 ltac:(lia) ltac:(lia)).
  pose proof (Hj (Z.quot c 4 + 1) ltac:(lia)).
  rewrite wrap64_id by (unfold int64_range, MinInt64, MaxInt64; lia). lia.
Qed.

Lemma retryDelay_range_witness :
  ∃ d, retryDelay (5 * Second) (5 * Minute) 3 (λ _, 0) = Some d ∧ 40 * Second ≤ d.
Proof.
  destruct (retryDelay_range (5 * Second) (5 * Minute) 3 (λ _, 0)) as [(d&H1&H2&_) _];
    [vm_compute; split; congruence..|lia|intros; lia|].
  exists d. split; [exact H1|exact H2].
Defined.
