(* ===== verification/SagaExecutor.v ===== *)
(** * runtime/saga/executor: running one step

    [Execute] runs a step with retries under a heartbeat.  What the executor
    cannot control is its environment: the preflight heartbeat's answer, and per
    attempt whether the run context was cancelled (and by which cause), whether
    the step timer fired, what the jitter generator returned and whether the
    back-off sleep was interrupted.  The environment is a value ([exec_env]), so
    every theorem holds for every timing of the heartbeat goroutine, the parent
    context and the clock.  Logs, traces and observer calls carry no control
    flow and are left out. *)

From S2P Require Import Prelude IdUtil Saga Backoff.

(** ** Outcomes and results *)

Inductive Outcome : Type :=
  | OutcomeSucceeded | OutcomeFailed | OutcomeExpired | OutcomeCanceled | OutcomeLeaseLost.

#[global] Instance Outcome_eq_dec : EqDecision Outcome.
Proof. solve_decision. Defined.

(** The causes a context can be cancelled with ([context.Cause]). *)
Inductive cancel_cause : Type :=
  | CauseLeaseLost            (* errLeaseLost *)
  | CauseDeadlineExceeded     (* context.DeadlineExceeded *)
  | CauseCanceled.            (* context.Canceled, or any other cause *)

#[global] Instance cancel_cause_eq_dec : EqDecision cancel_cause.
Proof. solve_decision. Defined.

Definition errLeaseLost : goerror := ErrorsNew "saga executor: lease lost".
Definition errStepTimeout : goerror := ErrorsNew "saga executor: step timeout elapsed".

Definition cause_error (c : cancel_cause) : goerror :=
  match c with
  | CauseLeaseLost => errLeaseLost
  | CauseDeadlineExceeded => context_DeadlineExceeded
  | CauseCanceled => context_Canceled
  end.

(** [ctx.Err()] of a context cancelled with cause [c]. *)
Definition ctx_Err (c : cancel_cause) : goerror :=
  match c with
  | CauseDeadlineExceeded => context_DeadlineExceeded
  | _ => context_Canceled
  end.

Definition IsLeaseLost (r : outcome unit) : bool :=
  match r with Err e => errors_Is e errLeaseLost | Ok _ => false end.

Record Result := MkResult {
  res_Outcome : Outcome;
  NewState : bytes;
  res_Err : option goerror;
  Attempts : Z;
}.

(** ** Configuration *)

Definition DefaultHeartbeatInterval : Duration := 10 * Second.
Definition DefaultLeaseDuration : Duration := 30 * Second.
Definition HeartbeatLeaseSafetyFactor : Z := 2.

Definition validateIntervals (heartbeatInterval leaseDuration : Duration) : outcome unit :=
  if heartbeatInterval <=? 0
  then Err (invalid "runtime/saga/executor: heartbeatInterval must be > 0")
  else if leaseDuration <=? 0
  then Err (invalid "runtime/saga/executor: leaseDuration must be > 0")
  else if wrap64 (heartbeatInterval * HeartbeatLeaseSafetyFactor) >=? leaseDuration
  then Err (invalid "runtime/saga/executor: heartbeatInterval*2 must be < leaseDuration")
  else Ok tt.

(** ** Environment *)

Record attempt_env := MkAttemptEnv {
  ae_cause : option cancel_cause;     (* context.Cause(runCtx) once Run returned *)
  ae_timer : bool;                    (* the step timer had fired by then *)
  ae_jitter : Z → Z;                  (* the generator's Int64N *)
  ae_sleep : option cancel_cause;     (* the back-off sleep was cut by this cause *)
}.

Record exec_env := MkExecEnv {
  ee_preflight : outcome bool;        (* answer of the preflight Heartbeat *)
  ee_call : nat;                      (* number of the first call of Run *)
  ee_attempt : nat → attempt_env;
}.

(** ** One attempt *)

Definition safeRun (fn : StepFunc) (call : nat) (inst : Instance) (prev : bytes)
    : outcome bytes :=
  match fn call inst prev with
  | RunReturned newState None => Ok newState
  | RunReturned _ (Some e) => Err e
  | RunPanicked =>
      Err (Errcode KindInternal ErrInternal "runtime/saga/executor: step Run panicked")
  end.

Definition safeRunCompensate (fn : CompensateFunc) (call : nat) (inst : Instance) (st : bytes)
    : outcome unit :=
  match fn call inst st with
  | CompensateReturned None => Ok tt
  | CompensateReturned (Some e) => Err e
  | CompensatePanicked =>
      Err (Errcode KindInternal ErrInternal "runtime/saga/executor: step Compensate panicked")
  end.

Definition classifyCanceled (cause : cancel_cause) (observedErr : goerror) (attempt : Z) : Result :=
  match cause with
  | CauseLeaseLost => MkResult OutcomeLeaseLost "" (Some errLeaseLost) attempt
  | CauseDeadlineExceeded => MkResult OutcomeExpired "" (Some observedErr) attempt
  | CauseCanceled => MkResult OutcomeCanceled "" (Some observedErr) attempt
  end.

(** [None] is [(Result{}, false)]: retry.  [run] is what [safeRun] returned; the
    step timer exists only for a positive [step.Timeout] ([buildStepCtx]). *)
Definition runAttempt (step : Step) (policy : resolvedPolicy) (run : outcome bytes)
    (ae : attempt_env) (attempt : Z) : option Result :=
  match ae_cause ae with
  | Some cause => Some (classifyCanceled cause (cause_error cause) attempt)
  | None =>
      if (step_Timeout step >? 0) && ae_timer ae
      then Some (MkResult OutcomeExpired "" (Some errStepTimeout) attempt)
      else
        match run with
        | Ok newState => Some (MkResult OutcomeSucceeded newState None attempt)
        | Err runErr =>
            if negb (ShouldRetry policy attempt)
            then Some (MkResult OutcomeFailed "" (Some runErr) attempt)
            else None
        end
  end.

(** ** The retry loop

    [for attempt := 1; ; attempt++]: [fuel] bounds the iterations, [None] means
    it ran out; [i] is the attempt's index (attempt - 1). *)
Fixpoint attempt_loop (fuel : nat) (run : StepFunc) (step : Step) (policy : resolvedPolicy)
    (inst : Instance) (prevState : bytes) (ee : exec_env) (i : nat) : option Result :=
  match fuel with
  | O => None
  | S fuel' =>
      let attempt := Z.of_nat i + 1 in
      let ae := ee_attempt ee i in
      match runAttempt step policy (safeRun run (ee_call ee + i)%nat inst prevState) ae attempt with
      | Some result => Some result
      | None =>
          match ae_sleep ae with
          | Some cause => Some (classifyCanceled cause (ctx_Err cause) attempt)
          | None => attempt_loop fuel' run step policy inst prevState ee (S i)
          end
      end
  end.

(** The delays the loop sleeps between attempts. *)
Definition retry_delay (policy : resolvedPolicy) (ee : exec_env) (i : nat) : Duration :=
  Backoff policy (Z.of_nat i) (ae_jitter (ee_attempt ee i)).

(** [executeInner]; the loop runs at most [maxAttempts] times
    ([attempt_loop_total]), so that many iterations of fuel are enough.
    A nil [Run] would panic inside [safeRun]; [Validate] refuses it. *)
Definition executeInner (inst : Instance) (step : Step) (defPolicy : RetryPolicy)
    (prevState : bytes) (ee : exec_env) : option Result :=
  match ee_preflight ee with
  | Ok false => Some (MkResult OutcomeLeaseLost "" (Some errLeaseLost) 0)
  | _ =>
      let policy := resolvePolicy (step_RetryPolicy step) defPolicy in
      let run := default (λ _ _ _, RunPanicked) (Run step) in
      attempt_loop (S (Z.to_nat (maxAttempts policy))) run step policy inst prevState ee 0
  end.

Definition Compensate_step (inst : Instance) (step : Step) (committedState : bytes) (call : nat)
    : outcome unit :=
  match Compensate step with
  | None => Ok tt
  | Some fn => safeRunCompensate fn call inst committedState
  end.

(** [RunWithHeartbeat] around a body that changes a state [S]; [preflight] is the
    first heartbeat's answer and [cause] the cause of [runCtx] once the body
    returned. *)
Definition RunWithHeartbeat {S} (preflight : outcome bool) (fn : S → outcome unit * S)
    (cause : S → option cancel_cause) (s : S) : outcome unit * S :=
  match preflight with
  | Ok false => (Err errLeaseLost, s)
  | _ =>
      let '(fnErr, s') := fn s in
      let ctx_derived :=
        match fnErr with
        | Ok _ => true
        | Err e => errors_Is e context_Canceled || errors_Is e context_DeadlineExceeded
        end in
      if ctx_derived && bool_decide (cause s' = Some CauseLeaseLost)
      then (Err errLeaseLost, s') else (fnErr, s')
  end.

(** ** What the loop does *)

Section loop.
Context (run : StepFunc) (step : Step) (policy : resolvedPolicy) (inst : Instance)
        (prevState : bytes) (ee : exec_env).

(** The result of call number [j] of the step function. *)
Definition run_at (j : nat) : outcome bytes := safeRun run (ee_call ee + j)%nat inst prevState.

Definition timer_fired (j : nat) : bool := (step_Timeout step >? 0) && ae_timer (ee_attempt ee j).

(** Attempt [j] failed, was not cancelled, and the sleep after it completed. *)
Definition retried (j : nat) : Prop :=
  is_ok (run_at j) = false ∧ ae_cause (ee_attempt ee j) = None ∧ timer_fired j = false ∧
  ae_sleep (ee_attempt ee j) = None ∧ Z.of_nat j + 1 < maxAttempts policy.

(** What ended the loop at attempt index [k]. *)
Definition ended (k : nat) (res : Result) : Prop :=
  match res_Outcome res with
  | OutcomeSucceeded =>
      run_at k = Ok (NewState res) ∧ ae_cause (ee_attempt ee k) = None ∧ timer_fired k = false
  | OutcomeFailed =>
      (∃ e, run_at k = Err e ∧ res_Err res = Some e) ∧ ae_cause (ee_attempt ee k) = None ∧
      timer_fired k = false ∧ Z.max 1 (maxAttempts policy) = Z.of_nat k + 1
  | OutcomeExpired =>
      ae_cause (ee_attempt ee k) = Some CauseDeadlineExceeded ∨
      (ae_cause (ee_attempt ee k) = None ∧
       (timer_fired k = true ∨ ae_sleep (ee_attempt ee k) = Some CauseDeadlineExceeded))
  | OutcomeCanceled =>
      ae_cause (ee_attempt ee k) = Some CauseCanceled ∨
      ae_sleep (ee_attempt ee k) = Some CauseCanceled
  | OutcomeLeaseLost =>
      ae_cause (ee_attempt ee k) = Some CauseLeaseLost ∨
      ae_sleep (ee_attempt ee k) = Some CauseLeaseLost
  end.

Lemma runAttempt_Some k res :
  (k = 0%nat ∨ Z.of_nat k + 1 ≤ maxAttempts policy) →
  runAttempt step policy (run_at k) (ee_attempt ee k) (Z.of_nat k + 1) = Some res →
  ended k res ∧ Attempts res = Z.of_nat k + 1.
Proof.
  unfold runAttempt, ended, ShouldRetry. fold (timer_fired k). intros Hk.
  destruct (ae_cause _) as [c|]; [destruct c; intros [= <-]; cbn; auto|].
  destruct (timer_fired k) eqn:?; [intros [= <-]; cbn; auto|].
  destruct (run_at k) as [s|e]; [intros [= <-]; cbn; auto|].
  destruct (_ <? _) eqn:?; [done|]. bools. intros [= <-]. cbn.
  split_and!; [by eexists|done|done|lia|done].
Qed.

Lemma runAttempt_None k :
  runAttempt step policy (run_at k) (ee_attempt ee k) (Z.of_nat k + 1) = None →
  is_ok (run_at k) = false ∧ ae_cause (ee_attempt ee k) = None ∧ timer_fired k = false ∧
  Z.of_nat k + 1 < maxAttempts policy.
Proof.
  unfold runAttempt, ShouldRetry. fold (timer_fired k).
  destruct (ae_cause _); [done|]. destruct (timer_fired k); [done|].
  destruct (run_at k); [done|]. destruct (_ <? _) eqn:?; [|done]. by bools.
Qed.

Lemma attempt_loop_spec fuel i :
  (i = 0%nat ∨ Z.of_nat i + 1 ≤ maxAttempts policy) →
  Z.max 1 (maxAttempts policy) ≤ Z.of_nat fuel + Z.of_nat i →
  (0 < fuel)%nat →
  ∃ res k, attempt_loop fuel run step policy inst prevState ee i = Some res ∧
    (i ≤ k)%nat ∧ Attempts res = Z.of_nat k + 1 ∧ Attempts res ≤ Z.max 1 (maxAttempts policy) ∧
    ended k res ∧ ∀ j, (i ≤ j < k)%nat → retried j.
Proof.
  revert i. induction fuel as [|fuel IH]; intros i Hi Hf H0; [lia|].
  cbn [attempt_loop]. cbn zeta. fold (run_at i).
  destruct (runAttempt _ _ _ _ _) as [res|] eqn:Hr.
  { apply runAttempt_Some in Hr as [He Ha]; [|done]. exists res, i.
    split_and!; [done|lia|done|lia|done|intros; lia]. }
  apply runAttempt_None in Hr as (Hok&Hc&Ht&Hlt).
  destruct (ae_sleep _) as [c|] eqn:Hs.
  { eexists _, i. split; [reflexivity|].
    split_and!; [lia|by destruct c|destruct c; cbn; lia| |intros; lia].
    unfold ended. destruct c; cbn; rewrite ?Hs, ?Hc; auto. }
  destruct (IH (S i)) as (res&k&Hl&Hk&Ha&Hb&He&Hj); [right; lia|lia|lia|].
  exists res, k. split_and!; [done|lia|done|done|done|].
  intros j Hj'. destruct (decide (j = i)) as [->|]; [by repeat split|apply Hj; lia].
Qed.
End loop.

(** ** Properties *)

(** [Execute] always returns, after at most [max(1, maxAttempts)] calls of
    the step function ([Attempts] counts them), and its outcome tells what
    happened.  Succeeded: the last call returned the reported state, uncancelled,
    and every earlier call had failed.  Failed: the whole retry budget was spent
    on failing calls and the reported error is the last one.  Expired, Canceled
    and LeaseLost: a deadline, a cancellation or the loss of the lease ended it.
    When the preflight heartbeat finds the lease stale the step is never run. *)
Theorem executeInner_spec inst step defPolicy prevState ee run :
  Run step = Some run →
  let policy := resolvePolicy (step_RetryPolicy step) defPolicy in
  ∃ res, executeInner inst step defPolicy prevState ee = Some res ∧
    0 ≤ Attempts res ≤ Z.max 1 (maxAttempts policy) ∧
    (ee_preflight ee = Ok false → res_Outcome res = OutcomeLeaseLost ∧ Attempts res = 0) ∧
    (ee_preflight ee ≠ Ok false → ∃ k, Attempts res = Z.of_nat k + 1 ∧
       ended run step policy inst prevState ee k res ∧
       ∀ j, (j < k)%nat → retried run step policy inst prevState ee j).
Proof.
  intros Hrun policy. unfold executeInner. rewrite Hrun. cbn [default].
  destruct (attempt_loop_spec run step policy inst prevState ee
    (S (Z.to_nat (maxAttempts policy))) 0) as (res&k&Hl&Hk&Ha&Hb&He&Hj); [by left|lia|lia|].
  destruct (ee_preflight ee) as [[|]|e].
  - exists res. split_and!; [done|lia|lia|done|].
    intros _. exists k. split_and!; [done|done|]. intros j ?. apply Hj. lia.
  - eexists. split; [reflexivity|]. cbn. split_and!; (lia || done).
  - exists res. split_and!; [done|lia|lia|done|].
    intros _. exists k. split_and!; [done|done|]. intros j ?. apply Hj. lia.
Qed.

(** A step that fails twice and then succeeds. *)
Definition flaky : StepFunc := λ call _ s,
  if (call <? 2)%nat then RunReturned "" (Some (ErrorsNew "try again")) else RunReturned s None.

Definition calm : exec_env :=
  MkExecEnv (Ok true) 0 (λ _, MkAttemptEnv None false (λ _, 0) None).

Lemma executeInner_spec_witness :
  let step := MkStep "charge" (Some flaky) None 0 (MkRetryPolicy 3 0 0) in
  ∃ res, executeInner (NewInstance "s" "d" 1) step (MkRetryPolicy 0 0 0) "null" calm = Some res ∧
    res_Outcome res = OutcomeSucceeded ∧ Attempts res = 3.
Proof.
  intros step.
  destruct (executeInner_spec (NewInstance "s" "d" 1) step (MkRetryPolicy 0 0 0) "null" calm
    flaky eq_refl) as (res&H&_).
  exists res. split; [exact H|]. vm_compute in H. injection H as <-. split; reflexivity.
Defined.

(** the interval check of the executor (and of the coordinator's [Config],
    the same expression) does what it says for every heartbeat interval below
    2^62 ns (146 years), but its 64-bit product wraps above that: an interval of
    exactly 2^62 ns passes although twice the interval exceeds any lease. *)
Theorem validateIntervals_range hb lease :
  0 < hb < 2 ^ 62 → int64_range lease →
  (is_ok (validateIntervals hb lease) = true ↔ 2 * hb < lease) ∧
  is_ok (validateIntervals (2 ^ 62) DefaultLeaseDuration) = true.
Proof.
  intros Hh Hl. split; [|vm_compute; reflexivity]. unfold validateIntervals.
  replace (hb <=? 0) with false by lia. unfold HeartbeatLeaseSafetyFactor.
  rewrite wrap64_id by (unfold int64_range, MinInt64, MaxInt64; lia). rewrite Z.geb_leb.
  destruct (lease <=? 0) eqn:?, (lease <=? hb * 2) eqn:?; bools; cbn; split; (done || lia).
Qed.

Lemma validateIntervals_range_witness :
  is_ok (validateIntervals DefaultHeartbeatInterval DefaultLeaseDuration) = true.
Proof.
  destruct (validateIntervals_range DefaultHeartbeatInterval DefaultLeaseDuration) as [H _];
    [split; vm_compute; reflexivity|vm_compute; split; congruence|].
  apply H. vm_compute. reflexivity.
Defined.
