(* ===== verification/SagaCoordinator.v ===== *)
(** * runtime/saga/coordinator.go: driving a claimed saga instance

    The coordinator is written against the [Journal] interface of
    kernel/saga/journal: the operations it calls and, as laws, what the journal
    promises to the holder of a lease.  [SagaJournalLease] discharges the laws for
    [MemJournal].

    One drive runs beside other coordinators, heartbeats and other instances'
    drives.  All of that is the drive's [world]: before every access to the
    journal the world may change it ([w_env]), and it also supplies clock
    readings, the causes of cancelled contexts, the step executor's environment
    and the results of the outbox emitter and of the transaction's commit.  The
    theorems quantify over the world. *)

From Stdlib Require Import Ascii.
From S2P Require Import Prelude GoJson IdUtil Fsm Saga SagaEvent SagaJournal Backoff SagaExecutor.

(** ** The Journal interface *)

Class Journal (J : Type) := {
  J_Append : J → Time → string → string → Event → outcome Z * J;
  J_Load : J → string → outcome (list Event);
  J_MarkTerminal : J → Time → string → string → Status → outcome bool * J;
  J_Heartbeat : J → Time → string → string → Duration → outcome bool * J;
}.

(** What a lease promises.  [holds m id l log i]: the row of [id] carries lease
    [l], its log is [log] and its projection [i].  [lost m id l]: it carries
    another lease or none.  [foreign id l m m']: a step of anyone but the holder
    of [l] on [id]. *)
Class LeaseJournal (J : Type) `{Journal J} := {
  holds : J → string → string → list Event → Instance → Prop;
  lost : J → string → string → Prop;
  foreign : string → string → J → J → Prop;
  holds_Load m id l log i : holds m id l log i → J_Load m id = Ok log;
  foreign_holds id l m m' log i :
    foreign id l m m' → holds m id l log i → holds m' id l log i ∨ lost m' id l;
  foreign_lost id l m m' : foreign id l m m' → lost m id l → lost m' id l;
  holds_Append m id l log i now e r m' :
    holds m id l log i → J_Append m now id l e = (r, m') →
    (m' = m ∧ is_ok r = false) ∨
    (∃ seq i', r = Ok (Z.of_nat (length log) + 1) ∧
       holds m' id l (log ++ [MkEvent (Z.of_nat (length log) + 1) seq (ev_Kind e) (StepName e)
                                (Payload e) now]) i' ∧
       replay (inst_Status i) (ev_Kind e) = Some (inst_Status i'));
  lost_Append m id l now e :
    lost m id l → (J_Append m now id l e).2 = m ∧ is_ok (J_Append m now id l e).1 = false;
  holds_MarkTerminal m id l log i now s r m' :
    holds m id l log i → J_MarkTerminal m now id l s = (r, m') →
    (m' = m ∧ r ≠ Ok true) ∨
    (∃ seq k, r = Ok true ∧ TerminalEventKind s = Some k ∧
       replay (inst_Status i) k = Some s ∧ lost m' id l ∧
       J_Load m' id = Ok (log ++ [MkEvent (Z.of_nat (length log) + 1) seq k "" "" now]));
  lost_MarkTerminal m id l now s :
    lost m id l → J_MarkTerminal m now id l s = (Ok false, m);
  holds_Heartbeat m id l log i now d r m' :
    holds m id l log i → J_Heartbeat m now id l d = (r, m') → holds m' id l log i;
  lost_Heartbeat m id l now d :
    lost m id l → (J_Heartbeat m now id l d).2 = m ∧ (J_Heartbeat m now id l d).1 ≠ Ok true;
}.

(** ** Payloads *)

Definition maxReason : nat := 256.

(** [redact] is [redaction.RedactString]. *)
Definition failurePayload (redact : string → string) (err : goerror) : bytes :=
  let reason :=
    match errors_As_errcode err with
    | Some (_, _, msg) => msg
    | None => redact (error_text err)
    end in
  let reason := if byte_len reason >? Z.of_nat maxReason then String.substring 0 maxReason reason else reason in
  json_object1 "reason" reason.

Definition stepCompletedTopic (defID : string) : string :=
  ("saga." ++ defID ++ ".step_completed")%string.

(** ** Replaying the log *)

Definition errFoldEventMismatch : goerror :=
  Errcode KindInternal ErrInternal
    "saga coordinator: replayed events inconsistent with state machine".

Definition ErrSagaFoldUnknownKind : string := "ERR_SAGA_FOLD_UNKNOWN_KIND".

Definition errFoldUnknownKind : goerror :=
  Errcode KindInternal ErrSagaFoldUnknownKind
    "saga coordinator: foldEvents saw an unhandled journal event kind".

Fixpoint fold_loop (evs : list Event) (cursor : Z) (prevState : bytes) : outcome (Z * bytes) :=
  match evs with
  | [] => Ok (cursor, prevState)
  | ev :: rest =>
      match ev_Kind ev with
      | KindStepCompleted => fold_loop rest (cursor + 1) (Payload ev)
      | KindStepFailed => Err errFoldEventMismatch
      | KindStepStarted
      | KindCompensationStarted | KindStepCompensated | KindStepCompensationFailed
      | KindSagaSucceeded | KindSagaFailed | KindSagaCompensated | KindSagaExpired
      | KindSagaCompensationFailed => fold_loop rest cursor prevState
      | KindOther _ => Err errFoldUnknownKind
      end
  end.

Definition foldEvents (evs : list Event) : outcome (Z * bytes) := fold_loop evs 0 "".

Definition shouldCompensate (evs : list Event) (def : Definition_) : bool :=
  existsb (λ s, bool_decide (is_Some (Compensate s))) (Steps def) &&
  existsb (λ e, bool_decide (ev_Kind e = KindStepCompleted)) evs.

Record committedStepEntry := MkCommitted {
  cs_name : string;
  cs_payload : bytes;
}.

(** Names with a recorded compensation outcome, and the number of failures. *)
Fixpoint compensated_pass (evs : list Event) (compensated : gset string) (failures : nat)
    : gset string * nat :=
  match evs with
  | [] => (compensated, failures)
  | ev :: rest =>
      match ev_Kind ev with
      | KindStepCompensationFailed => compensated_pass rest ({[ StepName ev ]} ∪ compensated) (S failures)
      | KindStepCompensated => compensated_pass rest ({[ StepName ev ]} ∪ compensated) failures
      | _ => compensated_pass rest compensated failures
      end
  end.

Fixpoint committed_pass (evs : list Event) (compensated : gset string) : list committedStepEntry :=
  match evs with
  | [] => []
  | ev :: rest =>
      if negb (bool_decide (ev_Kind ev = KindStepCompleted)) then committed_pass rest compensated
      else if bool_decide (StepName ev ∈ compensated) then committed_pass rest compensated
      else MkCommitted (StepName ev) (Payload ev) :: committed_pass rest compensated
  end.

(** The Go map built by ranging over [def.Steps]: a later step of the same name
    would replace an earlier one. *)
Definition step_index (def : Definition_) : gmap string Step :=
  foldl (λ acc s, <[Name s := s]> acc) ∅ (Steps def).

Definition collectCommittedSteps (evs : list Event) (def : Definition_)
    : list committedStepEntry * gmap string Step * nat :=
  let '(compensated, failures) := compensated_pass evs ∅ 0 in
  (committed_pass evs compensated, step_index def, failures).

(** ** One drive *)

Section drive.
Context {J : Type} `{Journal J}.
(** [tx_rollback]: the transaction runner undoes the body's writes on error and
    isolates it (adapters/postgres); [false] is the pass-through [DemoTxRunner]. *)
Context (reg : InMemoryRegistry) (redact : string → string)
        (leaseDuration : Duration) (tx_rollback : bool).

Record world := MkWorld {
  w_env : nat → nat → J → J;               (* what others did before this access *)
  w_now : nat → nat → Time;                (* clock readings *)
  w_cause : nat → option cancel_cause;     (* the context's cause at this check *)
  w_emit : nat → outcome unit;             (* koutbox.Emit *)
  w_commit : nat → outcome unit;           (* begin/commit of the transaction *)
  w_exec : exec_env;                       (* environment of executor.Execute *)
}.

Context (w : world).

(** The drive's state: the journal and the number of accesses made so far. *)
Abbreviation dstate := (J * nat)%type (only parsing).

(** One access outside any transaction. *)
Definition access {A} (f : J → Time → A * J) (s : dstate) : A * dstate :=
  let '(m, n) := s in
  let '(a, m') := f (w_env w n 0 m) (w_now w n 0) in
  (a, (m', S n)).

(** [RunInTx]: the body gets, for its k-th access, the interference and clock
    reading before it. *)
Definition RunInTx (body : (nat → J → J) → (nat → Time) → nat → J → outcome unit * J)
    (s : dstate) : outcome unit * dstate :=
  let '(m, n) := s in
  let m0 := w_env w n 0 m in
  let interfere k m := if tx_rollback then m else match k with O => m | _ => w_env w n k m end in
  let '(r, m1) := body interfere (w_now w n) n m0 in
  match r, w_commit w n with
  | Ok _, Ok _ => (Ok tt, (m1, S n))
  | Ok _, Err e | Err e, _ => (Err e, (if tx_rollback then m0 else m1, S n))
  end.

Definition new_event (k : EventKind) (step : string) (payload : bytes) : Event :=
  MkEvent 0 0 k step payload 0.

Definition append_body (id lease : string) (e : Event)
    (interfere : nat → J → J) (now : nat → Time) (n : nat) (m : J) : outcome unit * J :=
  let '(r, m') := J_Append (interfere 0%nat m) (now 0%nat) id lease e in
  ((λ _, tt) <$> r, m').

Definition markTerminal (id lease : string) (finalStatus : Status) (s : dstate)
    : outcome unit * dstate :=
  let '(r, s') := access (λ m now, J_MarkTerminal m now id lease finalStatus) s in
  match r with
  | Err e => (Err (Errorf ("MarkTerminal(" ++ Status_String finalStatus ++ ")") e), s')
  | Ok _ => (Ok tt, s')
  end.

(** *** Committing a step *)

Record commitStepArgs := MkCommitArgs {
  a_instanceID : string;
  a_leaseID : string;
  a_defID : string;
  a_step : Step;
  a_newState : bytes;
  a_runErr : option goerror;
  a_isLastStep : bool;
}.

Definition commitStepFailed (a : commitStepArgs) (runErr : goerror)
    (interfere : nat → J → J) (now : nat → Time) (n : nat) (m : J) : outcome unit * J :=
  let '(r, m1) := J_Append (interfere 0%nat m) (now 0%nat) (a_instanceID a) (a_leaseID a)
                    (new_event KindStepFailed (Name (a_step a)) (failurePayload redact runErr)) in
  match r with
  | Err e => (Err e, m1)
  | Ok _ =>
      let '(r2, m2) := J_MarkTerminal (interfere 1%nat m1) (now 1%nat) (a_instanceID a) (a_leaseID a)
                         StatusFailed in
      ((λ _, tt) <$> r2, m2)
  end.

Definition commitStepCompleted (a : commitStepArgs)
    (interfere : nat → J → J) (now : nat → Time) (n : nat) (m : J) : outcome unit * J :=
  let '(r, m1) := J_Append (interfere 0%nat m) (now 0%nat) (a_instanceID a) (a_leaseID a)
                    (new_event KindStepCompleted (Name (a_step a)) (a_newState a)) in
  match r with
  | Err e => (Err e, m1)
  | Ok _ =>
      match w_emit w n with
      | Err e => (Err e, m1)
      | Ok _ =>
          if a_isLastStep a then
            let '(r2, m2) := J_MarkTerminal (interfere 1%nat m1) (now 1%nat) (a_instanceID a)
                               (a_leaseID a) StatusSucceeded in
            ((λ _, tt) <$> r2, m2)
          else (Ok tt, m1)
      end
  end.

Definition commitStep (a : commitStepArgs) :=
  match a_runErr a with
  | Some e => commitStepFailed a e
  | None => commitStepCompleted a
  end.

Definition commitStepInTx (a : commitStepArgs) (s : dstate) : outcome unit * dstate :=
  RunInTx (commitStep a) s.

(** *** Compensation *)

Inductive compensationTrigger : Type :=
  | recoveryTrigger
  | failureTrigger (cause : goerror).

Definition appendCompensationStarted (ci : ClaimedInstance) (runErr : goerror) (s : dstate)
    : outcome unit * dstate :=
  let '(r, s') := RunInTx (append_body (ID (ci_Instance ci)) (ci_LeaseID ci)
                    (new_event KindCompensationStarted "" (failurePayload redact runErr))) s in
  (wrap_err "runCompensation: append KindCompensationStarted" r, s').

(** The new [compensateErrors] length; journal errors are only logged. *)
Definition compensateOneStep (ci : ClaimedInstance) (step : Step) (committedPayload : bytes)
    (s : dstate) : outcome unit * dstate :=
  match Compensate step with
  | None => (Ok tt, s)
  | Some _ =>
      match Compensate_step (ci_Instance ci) step committedPayload s.2 with
      | Err compensateErr =>
          let '(_, s') := RunInTx (append_body (ID (ci_Instance ci)) (ci_LeaseID ci)
            (new_event KindStepCompensationFailed (Name step) (failurePayload redact compensateErr))) s in
          (Err compensateErr, s')
      | Ok _ =>
          let '(_, s') := RunInTx (append_body (ID (ci_Instance ci)) (ci_LeaseID ci)
            (new_event KindStepCompensated (Name step) (json_object1 "step" (Name step)))) s in
          (Ok tt, s')
      end
  end.

(** [hbCtx.Err()]: one look at the context. *)
Definition ctx_done (s : dstate) : option cancel_cause * dstate := (w_cause w s.2, (s.1, S s.2)).

(** [rev_committed] is [committed] walked from its end; [errs] counts
    [compensateErrors]. *)
Fixpoint reverseWalkCompensate (ci : ClaimedInstance) (stepByName : gmap string Step)
    (rev_committed : list committedStepEntry) (errs : nat) (s : dstate) : nat * dstate :=
  match rev_committed with
  | [] => (errs, s)
  | cs :: rest =>
      let '(c, s0) := ctx_done s in
      match c with
      | Some _ => (errs, s0)
      | None =>
          match stepByName !! cs_name cs with
          | None => reverseWalkCompensate ci stepByName rest errs s0
          | Some step =>
              let '(r, s1) := compensateOneStep ci step (cs_payload cs) s0 in
              reverseWalkCompensate ci stepByName rest (if is_ok r then errs else S errs) s1
          end
      end
  end.

Definition runCompensation (ci : ClaimedInstance) (def : Definition_) (evs : list Event)
    (trig : compensationTrigger) (s : dstate) : outcome unit * dstate :=
  let '(started, s0) :=
    match trig with
    | recoveryTrigger => (Ok tt, s)
    | failureTrigger cause => appendCompensationStarted ci cause s
    end in
  match started with
  | Err e => (Err e, s0)
  | Ok _ =>
      let '(committed, stepByName, priorFailureCount) := collectCommittedSteps evs def in
      let '(pre, s1) := access (λ m now,
        J_Heartbeat m now (ID (ci_Instance ci)) (ci_LeaseID ci) leaseDuration) s0 in
      let fn := λ es : nat * dstate,
        let '(errs, s2) := reverseWalkCompensate ci stepByName (reverse committed) es.1 es.2 in
        let '(c, s3) := ctx_done s2 in
        (match c with Some cause => Err (ctx_Err cause) | None => Ok tt end, (errs, s3)) in
      let '(walkErr, (errs, s4)) :=
        RunWithHeartbeat pre fn (λ es, w_cause w es.2.2) (priorFailureCount, s1) in
      if IsLeaseLost walkErr then (Ok tt, s4)
      else
        match walkErr with
        | Err e => (Err (Errorf "runCompensation: RunWithHeartbeat" e), s4)
        | Ok _ =>
            if (0 <? errs)%nat
            then markTerminal (ID (ci_Instance ci)) (ci_LeaseID ci) StatusCompensationFailed s4
            else markTerminal (ID (ci_Instance ci)) (ci_LeaseID ci) StatusCompensated s4
        end
  end.

(** *** driveOne

    The two [None] branches cannot be taken: the cursor is below the number of
    steps, and [executeInner] always returns (executeInner_spec). *)

Definition routeOutcome (ci : ClaimedInstance) (def : Definition_) (evs : list Event)
    (cursor : Z) (nextStep : Step) (res : Result) (s : dstate) : outcome unit * dstate :=
  let id := ID (ci_Instance ci) in
  let lease := ci_LeaseID ci in
  match res_Outcome res with
  | OutcomeSucceeded =>
      commitStepInTx (MkCommitArgs id lease (def_ID def) nextStep (NewState res) None
        (cursor =? Z.of_nat (length (Steps def)) - 1)) s
  | OutcomeFailed =>
      let cause := default (ErrorsNew "") (res_Err res) in
      if shouldCompensate evs def
      then runCompensation ci def evs (failureTrigger cause) s
      else commitStepInTx (MkCommitArgs id lease (def_ID def) nextStep "" (res_Err res) false) s
  | OutcomeExpired => markTerminal id lease StatusExpired s
  | OutcomeCanceled => (Ok tt, s)
  | OutcomeLeaseLost => (Ok tt, s)
  end.

Definition driveOne (ci : ClaimedInstance) (s : dstate) : outcome unit * dstate :=
  let i := ci_Instance ci in
  let id := ID i in
  let lease := ci_LeaseID ci in
  match Lookup reg (DefinitionID i) with
  | None => markTerminal id lease StatusFailed s
  | Some def =>
      let '(now, s) := access (λ m now, (now, m)) s in
      if (def_Timeout def >? 0) && (Sub now (StartedAt i) >? def_Timeout def)
      then markTerminal id lease StatusExpired s
      else
        let '(loaded, s) := access (λ m _, (J_Load m id, m)) s in
        match loaded with
        | Err e => (Err (Errorf "load events" e), s)
        | Ok evs =>
            if bool_decide (inst_Status i = StatusCompensating)
            then runCompensation ci def evs recoveryTrigger s
            else
              match foldEvents evs with
              | Err _ => markTerminal id lease StatusFailed s
              | Ok (cursor, prevState) =>
                  if cursor >=? Z.of_nat (length (Steps def))
                  then markTerminal id lease StatusSucceeded s
                  else
                    match Steps def !! Z.to_nat cursor with
                    | None => (Ok tt, s)
                    | Some nextStep =>
                        let '(pre, s) := access (λ m now, J_Heartbeat m now id lease leaseDuration) s in
                        let ee := MkExecEnv pre (ee_call (w_exec w)) (ee_attempt (w_exec w)) in
                        match executeInner i nextStep (def_RetryPolicy def) prevState ee with
                        | None => (Ok tt, s)
                        | Some res => routeOutcome ci def evs cursor nextStep res s
                        end
                    end
              end
        end
  end.
End drive.

(** ** The discipline the coordinator keeps in every log *)

Definition completed_names (log : list Event) : list string :=
  StepName <$> filter (λ e, ev_Kind e = KindStepCompleted) log.

Definition is_compensation (k : EventKind) : Prop :=
  k = KindStepCompensated ∨ k = KindStepCompensationFailed.

#[global] Instance is_compensation_dec k : Decision (is_compensation k).
Proof. unfold is_compensation. apply _. Defined.

Definition compensated_names (log : list Event) : list string :=
  StepName <$> filter (λ e, is_compensation (ev_Kind e)) log.

(** Steps complete in the order of the definition; a step is compensated at most
    once and only if it completed; the saga succeeds only when every step
    completed, and ends Compensated only if no compensation failed. *)
Record disciplined (d : Definition_) (log : list Event) : Prop := {
  di_prefix : completed_names log `prefix_of` (Name <$> Steps d);
  di_once : NoDup (compensated_names log);
  di_undo : ∀ x, x ∈ compensated_names log → x ∈ completed_names log;
  di_succeeded e : last log = Some e → ev_Kind e = KindSagaSucceeded →
    completed_names log = (Name <$> Steps d);
  di_compensated e : last log = Some e → ev_Kind e = KindSagaCompensated →
    KindStepCompensationFailed ∉ kinds log;
}.

Lemma completed_names_app a b : completed_names (a ++ b) = completed_names a ++ completed_names b.
Proof. unfold completed_names. by rewrite filter_app, fmap_app. Qed.

Lemma compensated_names_app a b :
  compensated_names (a ++ b) = compensated_names a ++ compensated_names b.
Proof. unfold compensated_names. by rewrite filter_app, fmap_app. Qed.

Lemma completed_names_snoc log e :
  completed_names (log ++ [e]) =
  completed_names log ++ (if decide (ev_Kind e = KindStepCompleted) then [StepName e] else []).
Proof. unfold completed_names. rewrite filter_snoc, fmap_app. by case_decide. Qed.

Lemma compensated_names_snoc log e :
  compensated_names (log ++ [e]) =
  compensated_names log ++ (if decide (is_compensation (ev_Kind e)) then [StepName e] else []).
Proof. unfold compensated_names. rewrite filter_snoc, fmap_app. by case_decide. Qed.

(** An event that is neither a completion nor a compensation. *)
Lemma disciplined_other d log e :
  ev_Kind e ≠ KindStepCompleted → ¬ is_compensation (ev_Kind e) →
  (ev_Kind e = KindSagaSucceeded → completed_names log = (Name <$> Steps d)) →
  (ev_Kind e = KindSagaCompensated → KindStepCompensationFailed ∉ kinds log) →
  disciplined d log → disciplined d (log ++ [e]).
Proof.
  intros H1 H2 H3 H4 [].
  split; rewrite ?completed_names_snoc, ?compensated_names_snoc, ?decide_False, ?app_nil_r by done;
    try done; intros e'; rewrite last_snoc; intros [= <-] Hk; [by apply H3|].
  unfold kinds. rewrite fmap_app, not_elem_of_app. split; [by apply H4|].
  cbn. rewrite list_elem_of_singleton. intros Heq. apply H2. by right.
Qed.

(** The kinds that do not touch the discipline. *)
Definition neutral (k : EventKind) : Prop :=
  k ≠ KindStepCompleted ∧ ¬ is_compensation k ∧ k ≠ KindSagaSucceeded ∧ k ≠ KindSagaCompensated.

Lemma disciplined_neutral d log e :
  neutral (ev_Kind e) → disciplined d log → disciplined d (log ++ [e]).
Proof. intros (?&?&?&?). by apply disciplined_other. Qed.

Lemma disciplined_completed d log e step :
  ev_Kind e = KindStepCompleted → StepName e = Name step →
  Steps d !! length (completed_names log) = Some step →
  disciplined d log → disciplined d (log ++ [e]).
Proof.
  intros Hk Hn Hs [Hp ? Hu ? ?].
  assert (¬ is_compensation (ev_Kind e)) by (rewrite Hk; by intros []).
  split; rewrite ?completed_names_snoc, ?compensated_names_snoc;
    rewrite ?(decide_True (P := ev_Kind e = KindStepCompleted)) by done;
    rewrite ?(decide_False (P := is_compensation _)), ?app_nil_r by done; try done.
  - rewrite Hn. destruct Hp as [rest Hrest].
    assert (Hl : (Name <$> Steps d) !! length (completed_names log) = Some (Name step))
      by (by rewrite list_lookup_fmap, Hs).
    rewrite Hrest, lookup_app_r, Nat.sub_diag in Hl by lia.
    destruct rest as [|x rest]; [done|]. cbn in Hl. simplify_eq.
    exists rest. by rewrite Hrest, <- app_assoc.
  - intros x Hx. apply elem_of_app. left. by apply Hu.
  - intros e'. rewrite last_snoc. intros [= <-] ?. congruence.
  - intros e'. rewrite last_snoc. intros [= <-] ?. congruence.
Qed.

Lemma disciplined_compensated d log e :
  is_compensation (ev_Kind e) → StepName e ∈ completed_names log →
  StepName e ∉ compensated_names log → disciplined d log → disciplined d (log ++ [e]).
Proof.
  intros Hk Hin Hni [? ? Hu ? ?].
  assert (ev_Kind e ≠ KindStepCompleted) by (by destruct Hk as [-> | ->]).
  split; rewrite ?completed_names_snoc, ?compensated_names_snoc;
    rewrite ?(decide_False (P := ev_Kind e = KindStepCompleted)) by done;
    rewrite ?(decide_True (P := is_compensation _)), ?app_nil_r by done; try done.
  - by rewrite NoDup_snoc.
  - intros x [?| ->%list_elem_of_singleton]%elem_of_app; auto.
  - intros e'. rewrite last_snoc. intros [= <-] ?. destruct Hk; congruence.
  - intros e'. rewrite last_snoc. intros [= <-] ?. destruct Hk; congruence.
Qed.

(** ** What the replay passes compute *)

Lemma fold_loop_cursor evs c p cursor prev :
  fold_loop evs c p = Ok (cursor, prev) → cursor = c + Z.of_nat (length (completed_names evs)).
Proof.
  revert c p. induction evs as [|e evs IH]; intros c p; cbn [fold_loop].
  { intros [= <- _]. cbn. lia. }
  assert (Hlen : length (completed_names (e :: evs)) =
    (length (completed_names evs) + if decide (ev_Kind e = KindStepCompleted) then 1 else 0)%nat).
  { unfold completed_names. rewrite filter_cons. case_decide; cbn; lia. }
  rewrite Hlen. destruct (ev_Kind e); try done; intros ->%IH; case_decide; try congruence; lia.
Qed.

Lemma foldEvents_cursor evs cursor prev :
  foldEvents evs = Ok (cursor, prev) → cursor = Z.of_nat (length (completed_names evs)).
Proof. apply fold_loop_cursor. Qed.

Lemma compensated_pass_spec evs comp n :
  compensated_pass evs comp n =
  (list_to_set (compensated_names evs) ∪ comp,
   (n + length (filter (λ e, ev_Kind e = KindStepCompensationFailed) evs))%nat).
Proof.
  revert comp n. induction evs as [|e evs IH]; intros comp n; cbn [compensated_pass].
  { cbn. f_equal; [set_solver|lia]. }
  unfold compensated_names, is_compensation in *. rewrite !filter_cons.
  destruct (ev_Kind e) eqn:Hk; rewrite IH;
    repeat case_decide; try congruence; try (exfalso; naive_solver); cbn [length];
    rewrite ?fmap_cons, ?list_to_set_cons; f_equal; try lia; set_solver.
Qed.

Lemma committed_pass_names evs comp :
  cs_name <$> committed_pass evs comp = filter (λ x, x ∉ comp) (completed_names evs).
Proof.
  induction evs as [|e evs IH]; [done|]. cbn [committed_pass].
  unfold completed_names in *. rewrite filter_cons.
  case_bool_decide as Hk; cbn [negb]; [|by rewrite decide_False].
  rewrite decide_True by done. rewrite fmap_cons, filter_cons.
  case_bool_decide as Hin; [by rewrite decide_False by auto|].
  rewrite decide_True by done. by rewrite fmap_cons, IH.
Qed.

Lemma foldl_step_index (steps : list Step) (m : gmap string Step) n s :
  foldl (λ acc s, <[Name s := s]> acc) m steps !! n = Some s →
  (s ∈ steps ∧ Name s = n) ∨ m !! n = Some s.
Proof.
  revert m. induction steps as [|x steps IH]; intros m; cbn; [by right|].
  intros [[??]|Hm]%IH; [left; split; [by apply elem_of_cons; right|done]|].
  apply lookup_insert_Some in Hm as [[<- <-]|[_ ?]]; [|by right].
  left. split; [by apply elem_of_cons; left|done].
Qed.

Lemma step_index_name d n s : step_index d !! n = Some s → s ∈ Steps d ∧ Name s = n.
Proof. intros [?|Hm]%foldl_step_index; [done|]. by rewrite lookup_empty in Hm. Qed.

(** What is left to compensate: completed, not yet compensated, each once. *)
Lemma collect_committed d evs committed idx n :
  disciplined d evs → NoDup (Name <$> Steps d) →
  collectCommittedSteps evs d = (committed, idx, n) →
  NoDup (cs_name <$> committed) ∧
  (∀ x, x ∈ cs_name <$> committed → x ∈ completed_names evs ∧ x ∉ compensated_names evs) ∧
  idx = step_index d ∧
  (n = 0%nat → KindStepCompensationFailed ∉ kinds evs).
Proof.
  intros [Hp _ _ _ _] Hnd. unfold collectCommittedSteps. rewrite compensated_pass_spec.
  intros [= <- <- <-]. rewrite committed_pass_names. split_and!.
  - apply NoDup_filter. destruct Hp as [rest Hrest]. rewrite Hrest in Hnd.
    by apply NoDup_app in Hnd as [? _].
  - intros x [Hx ?]%list_elem_of_filter. split; [done|]. set_solver.
  - done.
  - intros Hz%length_zero_iff_nil. unfold kinds.
    intros (e&Hk&He)%list_elem_of_fmap.
    assert (e ∈ filter (λ e, ev_Kind e = KindStepCompensationFailed) evs)
      by (by apply list_elem_of_filter).
    rewrite Hz in *. set_solver.
Qed.

(** ** A drive keeps the discipline

    Rely and guarantee: the world's interference never acts under this drive's
    lease ([foreign]) and keeps the discipline; then so does the drive. *)

Section guarantee.
Context {J : Type} `{LeaseJournal J}.
Context (reg : InMemoryRegistry) (redact : string → string)
        (leaseDuration : Duration) (tx_rollback : bool) (w : world (J := J)).
Context (id l : string) (d : Definition_).

Definition log_disciplined (m : J) : Prop := ∀ log, J_Load m id = Ok log → disciplined d log.

Definition rely : Prop :=
  ∀ n k m, foreign id l m (w_env w n k m) ∧ (log_disciplined m → log_disciplined (w_env w n k m)).

Context (Hnd : NoDup (Name <$> Steps d)) (Henv : rely).

(** The journal as the holder of [l] knows it, or the lease is lost. *)
Definition good (m : J) (log : list Event) (i : Instance) : Prop :=
  (holds m id l log i ∨ lost m id l) ∧ log_disciplined m.

Lemma env_good n k m log i : good m log i → good (w_env w n k m) log i.
Proof.
  destruct (Henv n k m) as [Hf Hd]. intros [[Hh|Hl] Hm]; (split; [|by apply Hd]).
  - by eapply foreign_holds.
  - right. by eapply foreign_lost.
Qed.

Lemma good_disciplined m log i : good m log i → lost m id l ∨ disciplined d log.
Proof. intros [[Hh|Hl] Hm]; [right; eapply Hm, holds_Load, Hh|by left]. Qed.

Lemma append_good m log i now e r m' :
  good m log i →
  (∀ v g, disciplined d log →
     disciplined d (log ++ [MkEvent v g (ev_Kind e) (StepName e) (Payload e) now])) →
  J_Append m now id l e = (r, m') →
  (is_ok r = false ∧ m' = m) ∨
  (is_ok r = true ∧ ∃ v g i',
     good m' (log ++ [MkEvent v g (ev_Kind e) (StepName e) (Payload e) now]) i').
Proof.
  intros [[Hh|Hl] Hm] Hd HA.
  - destruct (holds_Append _ _ _ _ _ _ _ _ _ Hh HA) as [[-> Hr]|(seq&i'&Hr&Hh'&_)]; [by left|].
    right. split; [by rewrite Hr|]. eexists _, _, i'. split; [by left|].
    intros log' Hlog'. rewrite (holds_Load _ _ _ _ _ Hh') in Hlog'. simplify_eq.
    apply Hd. eapply Hm, holds_Load, Hh.
  - left. destruct (lost_Append m id l now e Hl) as [H1 H2]. by rewrite HA in H1, H2.
Qed.

Lemma terminal_good m log i now s r m' :
  good m log i →
  (∀ k v g, TerminalEventKind s = Some k → disciplined d log →
     disciplined d (log ++ [MkEvent v g k "" "" now])) →
  J_MarkTerminal m now id l s = (r, m') → good m' log i.
Proof.
  intros Hg Hd HM. pose proof Hg as [[Hh|Hl] Hm].
  - destruct (holds_MarkTerminal _ _ _ _ _ _ _ _ _ Hh HM) as [[-> _]|(seq&k&_&Hk&_&Hl&HL)]; [done|].
    split; [by right|]. intros log' Hlog'. rewrite HL in Hlog'. simplify_eq.
    apply Hd; [done|]. eapply Hm, holds_Load, Hh.
  - rewrite lost_MarkTerminal in HM by done. by simplify_eq.
Qed.

Lemma heartbeat_good m log i now t r m' :
  good m log i → J_Heartbeat m now id l t = (r, m') → good m' log i.
Proof.
  intros Hg HH. pose proof Hg as [[Hh|Hl] Hm].
  - pose proof (holds_Heartbeat _ _ _ _ _ _ _ _ _ Hh HH) as Hh'. split; [by left|].
    intros log' Hlog'. rewrite (holds_Load _ _ _ _ _ Hh') in Hlog'. simplify_eq.
    eapply Hm, holds_Load, Hh.
  - destruct (lost_Heartbeat m id l now t Hl) as [H1 _]. rewrite HH in H1. cbn in H1. by subst.
Qed.

(** A transaction body that leads from the log [log] to a log in [A]. *)
Definition body_ok (log : list Event) (A : list Event → Prop)
    (body : (nat → J → J) → (nat → Time) → nat → J → outcome unit * J) : Prop :=
  ∀ interfere now n m i,
    (∀ k m log i, good m log i → good (interfere k m) log i) → good m log i →
    ∃ log' i', good (body interfere now n m).2 log' i' ∧ A log'.

Lemma RunInTx_good A body s log i :
  body_ok log A body → A log → good s.1 log i →
  ∃ log' i', good (RunInTx tx_rollback w body s).2.1 log' i' ∧ A log'.
Proof.
  destruct s as [m n]. intros Hb HA Hg. unfold RunInTx.
  set (interfere := λ k m, _).
  assert (Hint : ∀ k m log i, good m log i → good (interfere k m) log i).
  { intros k m' log' i' Hg'. unfold interfere.
    destruct tx_rollback; [done|]. destruct k; [done|]. by apply env_good. }
  pose proof (env_good n 0 m log i Hg) as Hg0.
  destruct (Hb interfere (w_now w n) n _ _ Hint Hg0) as (log'&i'&Hg'&HA').
  destruct (body interfere _ _ _) as [r m1]. cbn in Hg'.
  destruct r, (w_commit w n); cbn; destruct tx_rollback; eauto.
Qed.

Lemma markTerminal_good s st log i :
  good s.1 log i →
  (∀ k v g t, TerminalEventKind st = Some k → disciplined d log →
     disciplined d (log ++ [MkEvent v g k "" "" t])) →
  good (markTerminal w id l st s).2.1 log i.
Proof.
  destruct s as [m n]. intros Hg Hd. unfold markTerminal, access.
  destruct (J_MarkTerminal _ _ _ _ _) as [r m'] eqn:HM.
  apply terminal_good with (log := log) (i := i) in HM; [|by apply env_good|by auto].
  by destruct r.
Qed.

Lemma access_heartbeat_good s t log i :
  good s.1 log i →
  good (access w (λ m now, J_Heartbeat m now id l t) s).2.1 log i.
Proof.
  destruct s as [m n]. intros Hg. unfold access.
  destruct (J_Heartbeat _ _ _ _ _) as [r m'] eqn:HH. cbn.
  eapply heartbeat_good, HH. by apply env_good.
Qed.

Lemma append_body_ok log (A : list Event → Prop) e :
  A log →
  (∀ v g t, A (log ++ [MkEvent v g (ev_Kind e) (StepName e) (Payload e) t])) →
  (∀ v g t, disciplined d log →
     disciplined d (log ++ [MkEvent v g (ev_Kind e) (StepName e) (Payload e) t])) →
  body_ok log A (append_body id l e).
Proof.
  intros HA HA' Hd interfere now n m i Hint Hg. unfold append_body.
  destruct (J_Append _ _ _ _ _) as [r m'] eqn:HAp. cbn.
  destruct (append_good _ _ _ _ _ _ _ (Hint 0%nat _ _ _ Hg) ltac:(by auto) HAp)
    as [[_ ->]|(_&v&g&i'&Hg')]; eauto.
Qed.

(** *** Committing a step *)

Lemma commitStepCompleted_ok log step st last :
  Steps d !! length (completed_names log) = Some step →
  (last = true → length (completed_names log) = (length (Steps d) - 1)%nat) →
  body_ok log (λ _, True) (commitStepCompleted w (MkCommitArgs id l (def_ID d) step st None last)).
Proof.
  intros Hs Hlast interfere now n m i Hint Hg. unfold commitStepCompleted. cbn.
  destruct (J_Append _ _ _ _ _) as [r m1] eqn:HAp.
  apply append_good with (log := log) (i := i) in HAp as [[Hr ->]|(Hr&v&g&i'&Hg')].
  - destruct r; [done|]. cbn. eauto.
  - destruct r; [|done]. destruct (w_emit w n); [|cbn; by eauto].
    destruct last eqn:Hl; [|cbn; by eauto].
    destruct (J_MarkTerminal _ _ _ _ _) as [r2 m2] eqn:HM. cbn.
    eexists _, _. split; [|done]. eapply terminal_good, HM; [by apply Hint|].
    intros k v' g' [= <-] Hd. apply disciplined_other; try done.
    { by intros []. }
    intros _. rewrite completed_names_snoc. cbn. rewrite (decide_True (P := _ = _)) by done.
    pose proof (di_prefix _ _ Hd) as [rest Hrest].
    rewrite completed_names_snoc in Hrest. cbn in Hrest.
    rewrite (decide_True (P := _ = _)) in Hrest by done.
    assert (rest = []) as ->; [|by rewrite app_nil_r in Hrest].
    apply (f_equal length) in Hrest. rewrite length_fmap, !length_app in Hrest. cbn in Hrest.
    apply lookup_lt_Some in Hs. specialize (Hlast eq_refl). apply length_zero_iff_nil. lia.
  - by apply Hint.
  - intros v g Hd. by eapply disciplined_completed.
Qed.

Lemma commitStepFailed_ok log step e last :
  body_ok log (λ _, True) (commitStepFailed redact (MkCommitArgs id l (def_ID d) step "" (Some e) last) e).
Proof.
  intros interfere now n m i Hint Hg. unfold commitStepFailed. cbn.
  destruct (J_Append _ _ _ _ _) as [r m1] eqn:HAp.
  apply append_good with (log := log) (i := i) in HAp as [[Hr ->]|(Hr&v&g&i'&Hg')].
  - destruct r; [done|]. cbn. eauto.
  - destruct r; [|done]. destruct (J_MarkTerminal _ _ _ _ _) as [r2 m2] eqn:HM. cbn.
    eexists _, _. split; [|done]. eapply terminal_good, HM; [by apply Hint|].
    intros k v' g' [= <-] Hd. apply disciplined_neutral; [|done].
    unfold neutral, is_compensation; cbn. naive_solver.
  - by apply Hint.
  - intros v g Hd. apply disciplined_neutral; [|done].
    unfold neutral, is_compensation; cbn. naive_solver.
Qed.

(** *** The reverse walk *)

Lemma kinds_snoc log e : kinds (log ++ [e]) = kinds log ++ [ev_Kind e].
Proof. unfold kinds. by rewrite fmap_app. Qed.

(** One compensation: the log stays, or grows by one compensation event of the
    step, which is a failure event only if an error was counted. *)
Lemma compensateOneStep_good ci step payload s log i :
  ID (ci_Instance ci) = id → ci_LeaseID ci = l →
  Name step ∈ completed_names log → Name step ∉ compensated_names log →
  good s.1 log i →
  let '(r, s') := compensateOneStep redact tx_rollback w ci step payload s in
  ∃ log' i', good s'.1 log' i' ∧
    (log' = log ∨ ∃ e, log' = log ++ [e] ∧ StepName e = Name step ∧
       is_compensation (ev_Kind e) ∧ (is_ok r = true → ev_Kind e = KindStepCompensated)).
Proof.
  intros Hid Hl Hin Hni Hg. unfold compensateOneStep. rewrite Hid, Hl.
  destruct (Compensate step); [|eauto].
  assert (Happ : ∀ k p ok, is_compensation k → (ok = true → k = KindStepCompensated) →
    ∃ log' i', good (RunInTx tx_rollback w (append_body id l (new_event k (Name step) p)) s).2.1 log' i' ∧
      (log' = log ∨ ∃ e, log' = log ++ [e] ∧ StepName e = Name step ∧
         is_compensation (ev_Kind e) ∧ (ok = true → ev_Kind e = KindStepCompensated))).
  { intros k p ok Hk Hok. eapply RunInTx_good; [|by left|done]. apply append_body_ok.
    - by left.
    - intros v g t. right. by eexists.
    - intros v g t Hd. by apply disciplined_compensated. }
  destruct (Compensate_step _ _ _ _) as [[]|err].
  - specialize (Happ KindStepCompensated (json_object1 "step" (Name step)) true).
    destruct (RunInTx _ _ _ _) as [r s']. apply Happ; [by left|done].
  - specialize (Happ KindStepCompensationFailed (failurePayload redact err) false).
    destruct (RunInTx _ _ _ _) as [r s']. apply Happ; [by right|done].
Qed.

Lemma reverseWalk_good ci rev_committed errs s log i :
  ID (ci_Instance ci) = id → ci_LeaseID ci = l →
  NoDup (cs_name <$> rev_committed) →
  (∀ x, x ∈ cs_name <$> rev_committed → x ∈ completed_names log ∧ x ∉ compensated_names log) →
  (errs = 0%nat → KindStepCompensationFailed ∉ kinds log) →
  good s.1 log i →
  let '(errs', s') := reverseWalkCompensate redact tx_rollback w ci (step_index d) rev_committed errs s in
  ∃ new i', good s'.1 (log ++ new) i' ∧
    (errs' = 0%nat → KindStepCompensationFailed ∉ kinds (log ++ new)) ∧
    compensated_names new `sublist_of` (cs_name <$> rev_committed).
Proof.
  intros Hid Hl. revert errs s log i.
  induction rev_committed as [|cs rest IH]; intros errs s log i Hrd Hin Herr Hg;
    cbn [reverseWalkCompensate].
  { exists [], i. rewrite app_nil_r. split_and!; [done|done|constructor]. }
  rewrite fmap_cons, NoDup_cons in Hrd. destruct Hrd as [Hcs Hrd].
  unfold ctx_done. destruct (w_cause w s.2).
  { exists [], i. rewrite app_nil_r. split_and!; [done|done|apply sublist_nil_l]. }
  assert (Hrest : ∀ x, x ∈ cs_name <$> rest → x ∈ completed_names log ∧ x ∉ compensated_names log).
  { intros x Hx. apply Hin. rewrite fmap_cons. by apply elem_of_cons; right. }
  destruct (step_index d !! cs_name cs) as [step|] eqn:Hidx.
  2:{ specialize (IH errs (s.1, S s.2) log i Hrd Hrest Herr Hg).
      destruct (reverseWalkCompensate _ _ _ _ _ _ _ _) as [errs' s'].
      destruct IH as (new&i'&?&?&?). exists new, i'. split_and!; [done..|by apply sublist_cons]. }
  apply step_index_name in Hidx as [_ Hname].
  destruct (Hin (cs_name cs)) as [Hc Hnc]; [rewrite fmap_cons; by apply elem_of_cons; left|].
  pose proof (compensateOneStep_good ci step (cs_payload cs) (s.1, S s.2) log i Hid Hl) as Hstep.
  rewrite Hname in Hstep. specialize (Hstep Hc Hnc Hg).
  destruct (compensateOneStep _ _ _ _ _ _ _) as [r s1].
  destruct Hstep as (log1&i1&Hg1&[->|(e&->&He&Hk&Hok)]).
  - specialize (IH (if is_ok r then errs else S errs) s1 log i1 Hrd Hrest).
    destruct (reverseWalkCompensate _ _ _ _ _ _ _ _) as [errs' s'].
    destruct IH as (new&i'&?&?&?); [by destruct (is_ok r)|done|].
    exists new, i'. split_and!; [done..|by apply sublist_cons].
  - specialize (IH (if is_ok r then errs else S errs) s1 (log ++ [e]) i1 Hrd).
    destruct (reverseWalkCompensate _ _ _ _ _ _ _ _) as [errs' s'].
    destruct IH as (new&i'&Hg'&Herr'&Hsub).
    + intros x Hx. destruct (Hrest x Hx). rewrite completed_names_snoc, compensated_names_snoc.
      rewrite (decide_True (P := is_compensation _)) by done.
      split; [by apply elem_of_app; left|]. rewrite not_elem_of_app, list_elem_of_singleton, He.
      split; [done|]. congruence.
    + destruct (is_ok r) eqn:Hr; [|done]. intros Hz. rewrite kinds_snoc, not_elem_of_app.
      split; [by apply Herr|]. rewrite list_elem_of_singleton, Hok by done. done.
    + done.
    + exists (e :: new), i'. rewrite <- app_assoc in Hg', Herr'. split_and!; [done|done|].
      change (e :: new) with ([e] ++ new). rewrite compensated_names_app.
      unfold compensated_names at 1. rewrite filter_cons_True by done. cbn. rewrite He.
      by apply sublist_skip.
Qed.

(** *** Whole drives *)

Lemma neutral_CompensationStarted : neutral KindCompensationStarted.
Proof. unfold neutral, is_compensation. naive_solver. Qed.

Lemma runCompensation_good ci evs trig s i :
  ID (ci_Instance ci) = id → ci_LeaseID ci = l →
  disciplined d evs → good s.1 evs i →
  log_disciplined (runCompensation redact leaseDuration tx_rollback w ci d evs trig s).2.1.
Proof.
  intros Hid Hl Hdisc Hg. unfold runCompensation.
  (* the log after the optional CompensationStarted *)
  set (A := λ log, completed_names log = completed_names evs ∧
                   compensated_names log = compensated_names evs ∧
                   (KindStepCompensationFailed ∈ kinds log → KindStepCompensationFailed ∈ kinds evs)).
  assert (HA : A evs) by (by repeat split).
  destruct (match trig with
            | recoveryTrigger => (Ok tt, s)
            | failureTrigger cause => appendCompensationStarted redact tx_rollback w ci cause s
            end) as [started s0] eqn:Hst.
  assert (∃ log0 i0, good s0.1 log0 i0 ∧ A log0) as (log0&i0&Hg0&(HA1&HA2&HA3)).
  { destruct trig as [|cause]; simplify_eq; [by eauto|].
    unfold appendCompensationStarted in Hst. rewrite Hid, Hl in Hst.
    destruct (RunInTx_good A (append_body id l
      (new_event KindCompensationStarted "" (failurePayload redact cause))) s evs i)
      as (log0&i0&Hg0&HA0); [|done|done|].
    - apply append_body_ok; [done| |].
      + intros v g t. unfold A. rewrite completed_names_snoc, compensated_names_snoc, kinds_snoc.
        rewrite !decide_False by (cbn; first [discriminate|by intros []]). rewrite !app_nil_r.
        split_and!; [done..|]. intros [?|?%list_elem_of_singleton]%elem_of_app; done.
      + intros v g t. by apply disciplined_neutral, neutral_CompensationStarted.
    - destruct (RunInTx _ _ _ _) as [r s0']. simplify_eq. eauto. }
  destruct started as [[]|err]; [|apply Hg0].
  destruct (collectCommittedSteps evs d) as [[committed idx] prior] eqn:Hcol.
  destruct (collect_committed _ _ _ _ _ Hdisc Hnd Hcol) as (Hcnd&Hcin&->&Hprior).
  pose proof (access_heartbeat_good s0 leaseDuration log0 i0 Hg0) as Hg1. rewrite Hid, Hl.
  destruct (access w _ s0) as [pre s1]. cbn in Hg1.
  pose proof (reverseWalk_good ci (reverse committed) prior s1 log0 i0 Hid Hl) as Hwalk.
  rewrite fmap_reverse, reverse_Permutation in Hwalk. setoid_rewrite elem_of_reverse in Hwalk.
  assert (Hwalk' := Hwalk Hcnd ltac:(intros x Hx; rewrite HA1, HA2; by apply Hcin)
    ltac:(intros Hz Hf; by apply (Hprior Hz), HA3) Hg1). clear Hwalk.
  unfold RunWithHeartbeat. cbn [fst snd].
  destruct (reverseWalkCompensate _ _ _ _ _ _ _ _) as [errs s2].
  destruct Hwalk' as (new&i2&Hg2&Herr&_).
  assert (Hfin : ∀ n, log_disciplined
    (if (0 <? errs)%nat then markTerminal w id l StatusCompensationFailed (s2.1, n)
     else markTerminal w id l StatusCompensated (s2.1, n)).2.1).
  { intros n. destruct (0 <? errs)%nat eqn:Hz.
    - eapply markTerminal_good; [exact Hg2|]. intros k v g t [= <-] Hd.
      apply disciplined_neutral; [|done]. unfold neutral, is_compensation; cbn. naive_solver.
    - eapply markTerminal_good; [exact Hg2|]. intros k v g t [= <-] Hd.
      apply disciplined_other; try done; [by intros []|].
      intros _. apply Herr. apply Nat.ltb_ge in Hz. lia. }
  unfold ctx_done; cbn [fst snd].
  destruct pre as [[|]|e]; cbn [fst snd]; [|apply Hg1|];
    (destruct (w_cause w s2.2) as [c|]; [destruct c|]);
    destruct (_ && _); cbn -[markTerminal Nat.ltb]; (apply Hg2 || apply Hfin).
Qed.

Lemma load_good s log i :
  good s.1 log i →
  let '(r, s') := access w (λ m _, (J_Load m id, m)) s in
  good s'.1 log i ∧
  (∀ evs, r = Ok evs → disciplined d evs ∧ (lost s'.1 id l ∨ evs = log)).
Proof.
  destruct s as [m n]. cbn [fst]. intros Hg. unfold access. apply (env_good n 0) in Hg.
  split; [done|]. intros evs HL. destruct Hg as [[Hh|Hl] Hm].
  - rewrite (holds_Load _ _ _ _ _ Hh) in HL. simplify_eq.
    split; [eapply Hm, holds_Load, Hh|by right].
  - split; [by apply Hm|by left].
Qed.

(** With the lease lost the holder's view of the log is irrelevant. *)
Lemma good_lost m log i log' i' : good m log i → lost m id l → good m log' i'.
Proof. intros [_ ?] ?. split; [by right|done]. Qed.

Lemma routeOutcome_good ci evs cursor step res s i :
  ID (ci_Instance ci) = id → ci_LeaseID ci = l →
  disciplined d evs → good s.1 evs i →
  cursor = Z.of_nat (length (completed_names evs)) →
  Steps d !! length (completed_names evs) = Some step →
  log_disciplined (routeOutcome redact leaseDuration tx_rollback w ci d evs cursor step res s).2.1.
Proof.
  intros Hid Hl Hdisc Hg Hcur Hs. unfold routeOutcome. rewrite Hid, Hl.
  destruct (res_Outcome res).
  - destruct (RunInTx_good (λ _, True) (commitStep redact w (MkCommitArgs id l (def_ID d) step
      (NewState res) None (cursor =? Z.of_nat (length (Steps d)) - 1))) s evs i)
      as (?&?&[_ ?]&_); [|done|done|done].
    apply commitStepCompleted_ok; [done|]. intros Hlast. bools. lia.
  - destruct (shouldCompensate evs d); [by eapply runCompensation_good|].
    destruct (RunInTx_good (λ _, True) (commitStep redact w (MkCommitArgs id l (def_ID d) step
      "" (res_Err res) false)) s evs i) as (?&?&[_ ?]&_); [|done|done|done].
    unfold commitStep; cbn. destruct (res_Err res); [apply commitStepFailed_ok|].
    by apply commitStepCompleted_ok.
  - eapply markTerminal_good; [exact Hg|]. intros k v g t [= <-] Hd.
    apply disciplined_neutral; [|done]. unfold neutral, is_compensation; cbn. naive_solver.
  - apply Hg.
  - apply Hg.
Qed.

Lemma neutral_terminal st k :
  TerminalEventKind st = Some k → st ≠ StatusSucceeded → st ≠ StatusCompensated → neutral k.
Proof. unfold neutral, is_compensation. destruct st; intros; simplify_eq/=; naive_solver. Qed.

Lemma driveOne_good ci s log i :
  ID (ci_Instance ci) = id → ci_LeaseID ci = l →
  Lookup reg (DefinitionID (ci_Instance ci)) = Some d ∨
    Lookup reg (DefinitionID (ci_Instance ci)) = None →
  good s.1 log i →
  log_disciplined (driveOne reg redact leaseDuration tx_rollback w ci s).2.1.
Proof.
  intros Hid Hl Hreg Hg. unfold driveOne. rewrite Hid, Hl.
  assert (Hterm : ∀ s log i st, good s.1 log i → st ≠ StatusSucceeded → st ≠ StatusCompensated →
    log_disciplined (markTerminal w id l st s).2.1).
  { intros s' log' i' st Hg' ??. eapply markTerminal_good; [exact Hg'|].
    intros k v g t Hk Hd. apply disciplined_neutral; [|done]. cbn. by eapply neutral_terminal. }
  destruct Hreg as [-> | ->]; [|by eapply Hterm].
  assert (Hclk : ∀ s, good s.1 log i → good (access w (λ m now, (now, m)) s).2.1 log i).
  { intros [m n] ?. unfold access. by apply env_good. }
  specialize (Hclk s Hg). destruct (access w (λ m now, (now, m)) s) as [now s1]. cbn in Hclk.
  destruct (_ && _); [by eapply Hterm|].
  pose proof (load_good s1 log i Hclk) as Hload.
  destruct (access w (λ m _, (J_Load m id, m)) s1) as [r s2]. destruct Hload as [Hg2 Hevs].
  destruct r as [evs|err]; [|apply Hg2].
  destruct (Hevs evs eq_refl) as [Hdisc Hsame].
  assert (Hge : good s2.1 evs i) by (destruct Hsame as [?| ->]; [by eapply good_lost|done]).
  case_bool_decide; [by eapply runCompensation_good|].
  destruct (foldEvents evs) as [[cursor prev]|] eqn:Hf; [|by eapply Hterm].
  apply foldEvents_cursor in Hf. rewrite Z.geb_leb.
  destruct (_ <=? cursor) eqn:Hc; bools.
  { eapply markTerminal_good; [exact Hge|]. intros k v g t [= <-] Hd.
    apply disciplined_other; try done; [by intros []|]. intros _.
    destruct (di_prefix _ _ Hd) as [rest Hrest].
    assert (rest = []) as ->; [|by rewrite app_nil_r in Hrest].
    apply (f_equal length) in Hrest. rewrite length_app, length_fmap in Hrest.
    apply length_zero_iff_nil. lia. }
  destruct (Steps d !! Z.to_nat cursor) as [step|] eqn:Hs; [|apply Hge].
  pose proof (access_heartbeat_good s2 leaseDuration evs i Hge) as Hg3.
  destruct (access w (λ m now, J_Heartbeat m now id l leaseDuration) s2) as [pre s3]. cbn in Hg3.
  destruct (executeInner _ _ _ _ _) as [res|]; [|apply Hg3].
  eapply routeOutcome_good; try done. rewrite <- Hs. f_equal. lia.
Qed.
End guarantee.

(** ** Payloads pass the journal's validation *)

Lemma substring_length n s : (String.length (String.substring 0 n s) ≤ n)%nat.
Proof.
  revert n. induction s as [|c s IH]; intros [|n]; cbn; [lia..|]. specialize (IH n). lia.
Qed.

Lemma object_payload_ok name value :
  scan_bytes ("{" ++ json_string name ++ ":")%string (Scanner stateBeginValue [] false)
    = Some (Scanner stateBeginValue [parseObjectValue] false) →
  validateObjectOrNull (json_object1 name value) = Ok tt.
Proof.
  intros Hn. unfold validateObjectOrNull. rewrite json_object1_valid by done. cbn [negb].
  unfold json_object1.
  change ("{" ++ json_string name ++ ":" ++ json_string value ++ "}")%string
    with (String "{"%char (json_string name ++ ":" ++ json_string value ++ "}")%string).
  set (rest := (json_string name ++ _)%string).
  change (byte_len (String "{"%char rest) =? 0) with false. cbn iota.
  unfold bytes_TrimSpace. change (trim_left (String "{"%char rest)) with (String "{"%char rest).
  cbn [trim_right]. destruct (trim_right rest); reflexivity.
Qed.

Lemma json_object1_length name value :
  (String.length (json_object1 name value)
   ≤ 7 + 6 * String.length name + 6 * String.length value)%nat.
Proof.
  unfold json_object1, json_string.
  destruct (json_escape_spec name) as [H1 _], (json_escape_spec value) as [H2 _].
  rewrite !length_append. cbn [String.length]. rewrite !length_append. cbn [String.length]. lia.
Qed.

Lemma reason_length redact err :
  (String.length (failurePayload redact err) ≤ 7 + 36 + 6 * 256)%nat.
Proof.
  unfold failurePayload. etrans; [apply json_object1_length|].
  set (r := match errors_As_errcode err with Some (_, _, msg) => msg | None => _ end).
  cbn [String.length]. rewrite Z.gtb_ltb. destruct (_ <? byte_len r) eqn:Hlen; bools.
  - pose proof (substring_length maxReason r). unfold maxReason in *. lia.
  - unfold byte_len, maxReason in Hlen. lia.
Qed.

(** the payload the coordinator journals for a failure always passes the
    journal's own validation: whatever the error, whatever bytes its text
    contains (quotes, control characters, invalid UTF-8, truncated sequences)
    and whatever the redactor returns, [failurePayload] is a JSON object within
    the size limit, so recording a failed step or opening a rollback is never
    refused because of the payload. *)
Theorem failurePayload_accepted redact err k step :
  EventKind_Valid k = true → EventKind_IsTerminal k = false →
  (isStepKind k = true → valid_name step) →
  ValidateForAppend (new_event k step (failurePayload redact err)) = Ok tt.
Proof.
  intros Hv Ht Hs. unfold ValidateForAppend, new_event; cbn [ev_Kind Payload StepName].
  rewrite Hv, Ht, Z.gtb_ltb. cbn [negb].
  pose proof (reason_length redact err) as Hlen.
  replace (MaxPayloadBytes <? byte_len (failurePayload redact err)) with false
    by (unfold MaxPayloadBytes, byte_len; lia).
  unfold validateStepName; cbn [ev_Kind StepName].
  assert (Hname : (if isStepKind k then
      if step ==s "" then Err (invalid "saga journal: step event missing StepName")
      else if negb (is_ok (validateSafeIDString step))
      then Err (invalid "saga journal: step event has invalid StepName") else Ok tt
    else Ok tt) = Ok tt).
  { destruct (isStepKind k); [|done]. destruct (proj1 (valid_name_iff step) (Hs eq_refl)) as [Hne Hok].
    rewrite Hok. unfold str_eqb. by rewrite bool_decide_eq_false_2. }
  rewrite Hname. cbn [mbind outcome_bind]. unfold failurePayload. apply object_payload_ok.
  vm_compute. reflexivity.
Qed.

Lemma failurePayload_accepted_witness :
  ValidateForAppend (new_event KindStepFailed "charge"
    (failurePayload (λ x, x) (ErrorsNew (String "034"%char (String "255"%char (String "010"%char "boom")))))) = Ok tt.
Proof.
  apply failurePayload_accepted; [reflexivity|reflexivity|].
  intros _. apply valid_name_iff. split; [discriminate|vm_compute; reflexivity].
Defined.
