(* ===== verification/SagaDrive.v ===== *)
(** * The coordinator over the in-memory journal

    [MemJournal] implements the [Journal] interface and keeps the promises the
    coordinator relies on: under a fencing token nobody else can move the
    holder's log.  The interference of other coordinators is any sequence of
    journal methods that does not use the holder's token. *)

From S2P Require Import Prelude GoJson IdUtil Fsm Saga SagaEvent SagaJournal Backoff.
From S2P Require Import SagaExecutor SagaCoordinator.

#[global] Instance MemJournal_Journal : Journal MemJournal := {
  J_Append := Append;
  J_Load := Load;
  J_MarkTerminal := MarkTerminal;
  J_Heartbeat := Heartbeat;
}.

(** A method call by anyone but the holder of lease [l] on [id]. *)
Definition foreign_op (id l : string) (op : journal_op) : Prop :=
  match op with
  | OpAppend _ id' l' _ | OpMarkTerminal _ id' l' _ => ¬ (id' = id ∧ l' = l)
  | OpClaimPending _ en _ _ => newUUID en ≠ Ok l
  | OpEnqueue _ | OpHeartbeat _ _ _ _ => True
  end.

Definition mem_holds (m : MemJournal) (id l : string) (log : list Event) (i : Instance) : Prop :=
  journal_inv m ∧ l ≠ "" ∧
  ∃ row, instances m !! id = Some row ∧ leaseID row = l ∧ inst row = i ∧ events m !! id = Some log.

Definition mem_lost (m : MemJournal) (id l : string) : Prop :=
  journal_inv m ∧ l ≠ "" ∧ ∃ row, instances m !! id = Some row ∧ leaseID row ≠ l.

Definition mem_foreign (id l : string) (m m' : MemJournal) : Prop :=
  ∃ ops, m' = exec_all m ops ∧ Forall (foreign_op id l) ops.

Lemma mem_lost_exec m op id l :
  foreign_op id l op → mem_lost m id l → mem_lost (exec m op) id l.
Proof.
  intros Hf (Hinv&Hl&row&Hrow&Hne). split_and!; [by apply exec_inv|done|].
  destruct (exec_row m op id row Hrow) as (row'&Hrow'&[Heq|[Heq|(now&en&b&dd&->&Hu)]]);
    exists row'; (split; [done|]); [congruence..|].
  cbn in Hf. congruence.
Qed.

Lemma mem_holds_exec m op id l log i :
  foreign_op id l op → mem_holds m id l log i →
  mem_holds (exec m op) id l log i ∨ mem_lost (exec m op) id l.
Proof.
  intros Hf (Hinv&Hl&row&Hrow&Hlease&Hi&Hlog).
  pose proof (exec_inv m op Hinv) as Hinv'.
  assert (Hkeep : ∀ row', instances (exec m op) !! id = Some row' → leaseID row' = l → inst row' = i →
    events (exec m op) !! id = Some log → mem_holds (exec m op) id l log i).
  { intros row' ????. split; [done|]. split; [done|]. by exists row'. }
  destruct op as [i'|now id' l' e|now en b dd|now id' l' dd|now id' l' st]; cbn [exec] in *.
  - left. destruct (Enqueue m i') as [r m'] eqn:HE. cbn in *.
    apply Enqueue_cases in HE as [[-> _]|(_&Hn&_&->)]; [by eapply Hkeep|]. cbn in *.
    apply (Hkeep row); rewrite ?lookup_insert_ne by congruence; done.
  - left. destruct (Append m now id' l' e) as [r m'] eqn:HA. cbn in *.
    apply Append_cases in HA as [[-> _]|(row'&i'&Hrow'&Hfe&_&_&[= _ ->])]; [by eapply Hkeep|].
    apply fenced_lease in Hfe as [? _]. cbn in *.
    destruct (decide (id' = id)) as [->|Hne]; [destruct Hf; split; congruence|].
    apply (Hkeep row); rewrite ?lookup_insert_ne by done; done.
  - destruct (ClaimPending m now en b dd) as [r m'] eqn:HC. cbn in *.
    apply ClaimPending_cases in HC as [[-> _]|(l'&_&Hu&_&_&_&->)]; [left; by eapply Hkeep|]. cbn in *.
    destruct (lease_all _ _ _ _ !! id) as [row'|] eqn:Hr.
    + pose proof Hr as [(row0&Hc&->)|[_ ?]]%claim_rows.
      * right. split_and!; [done..|]. eexists. split; [exact Hr|]. cbn. congruence.
      * left. apply (Hkeep row'); congruence.
    + exfalso. apply not_elem_of_dom in Hr. rewrite claim_dom in Hr.
      apply Hr, elem_of_dom. by eexists.
  - left. destruct (Heartbeat m now id' l' dd) as [r m'] eqn:HH. cbn in *.
    apply Heartbeat_cases in HH as [[-> _]|(row'&Hrow'&_&_&_&->)]; [by eapply Hkeep|]. cbn in *.
    destruct (decide (id' = id)) as [->|Hne].
    + simplify_eq. eapply Hkeep; [apply lookup_insert_eq|done..].
    + apply (Hkeep row); rewrite ?lookup_insert_ne by done; done.
  - left. destruct (MarkTerminal m now id' l' st) as [r m'] eqn:HM. cbn in *.
    apply MarkTerminal_cases in HM as [[-> _]|(row'&i'&k&Hrow'&Hfe&_&_&_&->)]; [by eapply Hkeep|].
    apply fenced_lease in Hfe as [? _]. cbn in *.
    destruct (decide (id' = id)) as [->|Hne]; [destruct Hf; split; congruence|].
    apply (Hkeep row); rewrite ?lookup_insert_ne by done; done.
Qed.

Lemma mem_lost_exec_all m ops id l :
  Forall (foreign_op id l) ops → mem_lost m id l → mem_lost (exec_all m ops) id l.
Proof.
  intros Hf. revert m. induction Hf as [|op ops Hop _ IH]; intros m Hl; [done|].
  cbn. by apply IH, mem_lost_exec.
Qed.

Lemma mem_holds_exec_all m ops id l log i :
  Forall (foreign_op id l) ops → mem_holds m id l log i →
  mem_holds (exec_all m ops) id l log i ∨ mem_lost (exec_all m ops) id l.
Proof.
  intros Hf. revert m. induction Hf as [|op ops Hop Hops IH]; intros m Hh; [by left|].
  cbn. destruct (mem_holds_exec m op id l log i Hop Hh) as [?|?]; [by apply IH|].
  right. by apply mem_lost_exec_all.
Qed.

Lemma mem_holds_Append m id l log i now e r m' :
  mem_holds m id l log i → Append m now id l e = (r, m') →
  (m' = m ∧ is_ok r = false) ∨
  (∃ seq i', r = Ok (Z.of_nat (length log) + 1) ∧
     mem_holds m' id l (log ++ [MkEvent (Z.of_nat (length log) + 1) seq (ev_Kind e) (StepName e)
                                  (Payload e) now]) i' ∧
     replay (inst_Status i) (ev_Kind e) = Some (inst_Status i')).
Proof.
  intros (Hinv&Hl&row&Hrow&Hlease&Hi&Hlog) HA.
  pose proof (Append_inv m now id l e Hinv) as Hinv'. rewrite HA in Hinv'. cbn in Hinv'.
  apply Append_cases in HA as [[-> [err ->]]|(row'&i'&Hrow'&_&Hv&Hp&[= -> ->])]; [by left|].
  destruct (ji_rows _ Hinv _ _ Hrow) as (log'&Hlog'&Hok). simplify_eq.
  apply ValidateForAppend_Ok in Hv as (Hvk&Hnt&_).
  apply applyProjection_replay in Hp as (Hre&_&_); [|apply Hok|done|done].
  right. exists (globalSeq m + 1), i'. rewrite <- (ro_version _ _ _ Hok).
  split_and!; [done| |done]. split; [exact Hinv'|]. split; [done|].
  eexists. cbn. rewrite lookup_insert_eq. split_and!; [reflexivity|done|done|].
  by rewrite lookup_insert_eq, Hlog.
Qed.

Lemma mem_holds_MarkTerminal m id l log i now s r m' :
  mem_holds m id l log i → MarkTerminal m now id l s = (r, m') →
  (m' = m ∧ r ≠ Ok true) ∨
  (∃ seq k, r = Ok true ∧ TerminalEventKind s = Some k ∧
     replay (inst_Status i) k = Some s ∧ mem_lost m' id l ∧
     Load m' id = Ok (log ++ [MkEvent (Z.of_nat (length log) + 1) seq k "" "" now])).
Proof.
  intros (Hinv&Hl&row&Hrow&Hlease&Hi&Hlog) HM.
  pose proof (MarkTerminal_inv m now id l s Hinv) as Hinv'. rewrite HM in Hinv'. cbn in Hinv'.
  apply MarkTerminal_cases in HM as [?|(row'&i'&k&Hrow'&_&Hk&Ha&->&->)]; [by left|].
  destruct (ji_rows _ Hinv _ _ Hrow) as (log'&Hlog'&Hok). simplify_eq.
  destruct (MarkTerminal_replay _ _ _ _ _ Ha Hk) as (Hre&Hst&_). rewrite Hst in Hre.
  right. exists (globalSeq m + 1), k. split_and!; try done.
  - split; [exact Hinv'|]. split; [done|]. eexists. cbn. rewrite lookup_insert_eq.
    split; [reflexivity|]. cbn. congruence.
  - unfold Load; cbn. rewrite !lookup_insert_eq. cbn. by rewrite Hlog, (ro_version _ _ _ Hok).
Qed.

Lemma mem_holds_Heartbeat m id l log i now d r m' :
  mem_holds m id l log i → Heartbeat m now id l d = (r, m') → mem_holds m' id l log i.
Proof.
  intros (Hinv&Hl&row&Hrow&Hlease&Hi&Hlog) HH.
  pose proof (Heartbeat_inv m now id l d Hinv) as Hinv'. rewrite HH in Hinv'. cbn in Hinv'.
  apply Heartbeat_cases in HH as [[-> _]|(row'&Hrow'&_&_&_&->)].
  - split_and!; [done|done|]. by exists row.
  - simplify_eq. split_and!; [exact Hinv'|done|]. eexists. cbn.
    rewrite lookup_insert_eq. split_and!; [reflexivity|done..].
Qed.

#[global] Program Instance MemJournal_LeaseJournal : LeaseJournal MemJournal := {
  holds := mem_holds;
  lost := mem_lost;
  foreign := mem_foreign;
}.
Next Obligation.
  intros m id l log i (_&_&row&Hrow&_&_&Hlog). cbn. unfold Load. by rewrite Hrow, Hlog.
Qed.
Next Obligation. intros id l m m' log i (ops&->&Hf). by apply mem_holds_exec_all. Qed.
Next Obligation. intros id l m m' (ops&->&Hf). by apply mem_lost_exec_all. Qed.
Next Obligation. intros. by eapply mem_holds_Append. Qed.
Next Obligation.
  intros m id l now e (_&_&row&Hrow&Hne). cbn. unfold Append. rewrite Hrow.
  by rewrite not_fenced_other.
Qed.
Next Obligation. intros. by eapply mem_holds_MarkTerminal. Qed.
Next Obligation.
  intros m id l now s (_&_&row&Hrow&Hne). cbn. unfold MarkTerminal. rewrite Hrow.
  by rewrite not_fenced_other.
Qed.
Next Obligation. intros. by eapply mem_holds_Heartbeat. Qed.
Next Obligation.
  intros m id l now d (_&_&row&Hrow&Hne). cbn. unfold Heartbeat. rewrite Hrow.
  destruct (d <=? 0); [done|]. by rewrite not_fenced_other.
Qed.

(** ** Demonstration data, used by the witnesses *)

Definition demo_step (n : string) : Step :=
  MkStep n (Some (λ _ _ _, RunReturned "null" None))
    (Some (λ _ _ _, CompensateReturned None)) 0 (MkRetryPolicy 0 0 0).

Definition demo_failing (n : string) : Step :=
  MkStep n (Some (λ _ _ _, RunReturned "" (Some (ErrorsNew "card declined")))) None 0
    (MkRetryPolicy 0 0 0).

(** Three steps; the last one always fails. *)
Definition demo_def : Definition_ :=
  MkDefinition "order" [demo_step "charge"; demo_step "ship"; demo_failing "notify"] 0
    (MkRetryPolicy 0 0 0).

Definition demo_reg : InMemoryRegistry := {[ "order" := demo_def ]}.

(** Nobody interferes; the clock stands at [t]. *)
Definition quiet_world (t : Time) : world (J := MemJournal) :=
  MkWorld (λ _ _ m, m) (λ _ _, t) (λ _, None) (λ _, Ok tt) (λ _, Ok tt) calm.

Definition demo_ci (i : Instance) : ClaimedInstance := MkClaimed i demo_lease.

(** [demo] with "charge" completed: the next drive runs "ship". *)
Definition demo_inst : Instance :=
  match instances demo !! "s2" with Some row => inst row | None => NewInstance "" "" 0 end.

Lemma quiet_rely t id l d : rely (quiet_world t) id l d.
Proof. intros n k m. split; [|done]. exists []. by split; [|constructor]. Qed.

Lemma mem_holds_intro m id l row log :
  reachable m → instances m !! id = Some row → leaseID row = l → l ≠ "" → Load m id = Ok log →
  mem_holds m id l log (inst row).
Proof.
  intros Hm Hrow Hl Hne HL. apply reachable_inv in Hm. split_and!; [done..|].
  exists row. split_and!; try done. unfold Load in HL. rewrite Hrow in HL.
  destruct (ji_rows _ Hm _ _ Hrow) as (log'&Hlog'&_). rewrite Hlog' in HL. by simplify_eq.
Qed.

(** ** Properties *)

(** C1: a drive keeps the saga discipline, whatever other coordinators do
    meanwhile.  If the claimed instance's log is disciplined (steps completed in
    the order of the definition, each compensated at most once and only after
    completing, success only when all steps completed, Compensated only when no
    compensation failed), and interference neither uses this drive's lease nor
    breaks the discipline itself, then the log is disciplined after the drive:
    through lease loss, retries, failed transactions, crashes in mid-rollback and
    any result of the step functions. *)
Theorem drive_keeps_discipline reg redact leaseDuration tx_rollback w ci m n row log d :
  reachable m → valid_definition d →
  Lookup reg (DefinitionID (ci_Instance ci)) = Some d →
  instances m !! ID (ci_Instance ci) = Some row → leaseID row = ci_LeaseID ci → ci_LeaseID ci ≠ "" →
  Load m (ID (ci_Instance ci)) = Ok log → disciplined d log →
  rely w (ID (ci_Instance ci)) (ci_LeaseID ci) d →
  ∀ log', Load (driveOne reg redact leaseDuration tx_rollback w ci (m, n)).2.1 (ID (ci_Instance ci))
            = Ok log' → disciplined d log'.
Proof.
  intros Hm Hd Hreg Hrow Hl Hne HL Hdisc Hrely.
  pose proof (mem_holds_intro _ _ _ _ _ Hm Hrow Hl Hne HL) as Hh.
  eapply (driveOne_good reg redact leaseDuration tx_rollback w _ _ d (vd_names _ Hd) Hrely
            ci (m, n) log (inst row)); [done|done|by left|].
  split; [by left|]. intros log' Hlog'. cbn in Hlog'. rewrite HL in Hlog'. by simplify_eq.
Qed.

Lemma drive_keeps_discipline_witness :
  let s := driveOne demo_reg (λ x, x) 100 true (quiet_world 20) (demo_ci demo_inst) (demo, 0%nat) in
  ∃ log, Load s.2.1 "s2" = Ok log ∧ completed_names log = ["charge"; "ship"] ∧ disciplined demo_def log.
Proof.
  intros s. destruct (Load s.2.1 "s2") as [log|e] eqn:HL; [|vm_compute in HL; discriminate].
  exists log. split; [reflexivity|]. split.
  { pose proof HL as HL'. vm_compute in HL'. injection HL' as <-. reflexivity. }
  revert HL. apply (drive_keeps_discipline demo_reg (λ x, x) 100 true (quiet_world 20)
    (demo_ci demo_inst) demo 0 (MkRow demo_inst 2 demo_lease 110)
    (default [] (events demo !! "s2"))).
  - apply reachable_demo.
  - apply (Definition_Validate_Ok _ tt). vm_compute. reflexivity.
  - reflexivity.
  - vm_compute. reflexivity.
  - reflexivity.
  - discriminate.
  - vm_compute. reflexivity.
  - split.
    + exists ["ship"; "notify"]. vm_compute. reflexivity.
    + vm_compute. constructor.
    + intros x Hx. vm_compute in Hx. apply elem_of_nil in Hx. destruct Hx.
    + intros e He Hk. vm_compute in He. injection He as <-. discriminate.
    + intros e He Hk. vm_compute in He. injection He as <-. discriminate.
  - apply quiet_rely.
Defined.

(** C3: rollback runs backwards and never twice.  As long as the drive keeps its
    lease, the reverse walk appends compensation outcomes in the reverse of the
    order in which the steps completed, only for completed steps that have no
    recorded outcome yet, so after a crash the recovering drive resumes where the
    log stops; nothing else is written. *)
Theorem compensation_runs_backwards redact tx_rollback w ci m n row log d committed idx prior :
  reachable m → valid_definition d →
  instances m !! ID (ci_Instance ci) = Some row → leaseID row = ci_LeaseID ci → ci_LeaseID ci ≠ "" →
  Load m (ID (ci_Instance ci)) = Ok log → disciplined d log →
  rely w (ID (ci_Instance ci)) (ci_LeaseID ci) d →
  collectCommittedSteps log d = (committed, idx, prior) →
  let '(errs, s') := reverseWalkCompensate redact tx_rollback w ci idx (reverse committed) prior (m, n) in
  mem_lost s'.1 (ID (ci_Instance ci)) (ci_LeaseID ci) ∨
  ∃ new, Load s'.1 (ID (ci_Instance ci)) = Ok (log ++ new) ∧
    compensated_names new `sublist_of` reverse (completed_names log) ∧
    NoDup (compensated_names (log ++ new)) ∧
    (errs = 0%nat → KindStepCompensationFailed ∉ kinds (log ++ new)).
Proof.
  intros Hm Hd Hrow Hl Hne HL Hdisc Hrely Hcol.
  pose proof (mem_holds_intro _ _ _ _ _ Hm Hrow Hl Hne HL) as Hh.
  pose proof Hcol as Hcol'. unfold collectCommittedSteps in Hcol'.
  rewrite compensated_pass_spec in Hcol'. injection Hcol' as Hcommitted _ _.
  destruct (collect_committed _ _ _ _ _ Hdisc (vd_names _ Hd) Hcol) as (Hcnd&Hcin&->&Hprior).
  pose proof (reverseWalk_good redact tx_rollback w _ _ d Hrely ci
    (reverse committed) prior (m, n) log (inst row) eq_refl eq_refl) as Hwalk.
  rewrite fmap_reverse, reverse_Permutation in Hwalk. setoid_rewrite elem_of_reverse in Hwalk.
  specialize (Hwalk Hcnd Hcin Hprior).
  destruct (reverseWalkCompensate _ _ _ _ _ _ _ _) as [errs s'].
  destruct Hwalk as (new&i'&[[Hh'|Hlost] Hdm]&Herr&Hsub); [|right|by left].
  { split; [by left|]. intros log' Hlog'. cbn in Hlog'. rewrite HL in Hlog'. by simplify_eq. }
  apply holds_Load in Hh'. exists new. split; [done|]. split_and!; [|apply (di_once d), Hdm, Hh'|done].
  etrans; [exact Hsub|]. rewrite <- Hcommitted, committed_pass_names.
  apply sublist_reverse, sublist_filter.
Qed.

(** [demo] after "ship" also completed and a rollback was opened. *)
Definition demo_rollback : MemJournal :=
  exec_all demo [OpAppend 13 "s2" demo_lease (demo_event KindStepCompleted "ship");
                 OpAppend 14 "s2" demo_lease (demo_event KindCompensationStarted "")].

Definition demo_rollback_log : list Event := default [] (events demo_rollback !! "s2").

Definition demo_walk : nat * (MemJournal * nat) :=
  let c := collectCommittedSteps demo_rollback_log demo_def in
  reverseWalkCompensate (λ x, x) true (quiet_world 20) (demo_ci demo_inst) c.1.2 (reverse c.1.1) c.2
    (demo_rollback, 0%nat).

Lemma compensation_runs_backwards_witness :
  (compensated_names <$> Load demo_walk.2.1 "s2") = Ok ["ship"; "charge"] ∧
  (mem_lost demo_walk.2.1 "s2" demo_lease ∨
   ∃ new, Load demo_walk.2.1 "s2" = Ok (demo_rollback_log ++ new) ∧
     compensated_names new `sublist_of` ["ship"; "charge"]).
Proof.
  split; [vm_compute; reflexivity|].
  assert (Hrow : ∃ row, instances demo_rollback !! "s2" = Some row ∧ leaseID row = demo_lease)
    by (eexists; split; [vm_compute; reflexivity|reflexivity]).
  destruct Hrow as (row&Hrow&Hl).
  set (c := collectCommittedSteps demo_rollback_log demo_def).
  pose proof (compensation_runs_backwards (λ x, x) true (quiet_world 20) (demo_ci demo_inst)
    demo_rollback 0 row demo_rollback_log demo_def c.1.1 c.1.2 c.2) as H.
  unfold demo_walk. fold c. cbn zeta.
  destruct (reverseWalkCompensate _ _ _ _ _ _ _ _) as [errs s'].
  destruct H as [?|(new&HL&Hsub&_)]; [..|by left|].
  - apply reachable_exec_all, reachable_demo.
  - apply (Definition_Validate_Ok _ tt). vm_compute. reflexivity.
  - exact Hrow.
  - exact Hl.
  - discriminate.
  - vm_compute. reflexivity.
  - split.
    + exists ["notify"]. vm_compute. reflexivity.
    + vm_compute. constructor.
    + intros x Hx. vm_compute in Hx. apply elem_of_nil in Hx. destruct Hx.
    + intros e He Hk. vm_compute in He. injection He as <-. discriminate.
    + intros e He Hk. vm_compute in He. injection He as <-. discriminate.
  - apply quiet_rely.
  - apply triple_eta.
  - right. exists new. split; [exact HL|exact Hsub].
Defined.

(** a recovering drive never runs a forward step: when the claimed instance
    is Compensating, neither the outcome of the drive nor the state it leaves
    depends on anything the step executor would have done or answered. *)
Theorem recovery_runs_no_step reg redact leaseDuration tx_rollback (w : world (J := MemJournal))
    ci s ee :
  inst_Status (ci_Instance ci) = StatusCompensating →
  driveOne reg redact leaseDuration tx_rollback
    (MkWorld (w_env w) (w_now w) (w_cause w) (w_emit w) (w_commit w) ee) ci s
  = driveOne reg redact leaseDuration tx_rollback w ci s.
Proof.
  intros Hst. unfold driveOne. destruct w as [env now cause emit commit ee0]; cbn.
  destruct (Lookup reg _) as [d|]; [|reflexivity].
  rewrite !bool_decide_eq_true_2 by done. destruct s as [m n]. cbn.
  destruct (_ && _); [reflexivity|]. destruct (Load _ _); reflexivity.
Qed.

Lemma recovery_runs_no_step_witness :
  let ci := demo_ci (MkInstance "s2" "order" StatusCompensating 0 3 (Some 14) None) in
  let w := quiet_world 20 in
  let broken := MkExecEnv (Ok false) 7 (λ _, MkAttemptEnv (Some CauseLeaseLost) true (λ _, 0) None) in
  driveOne demo_reg (λ x, x) 100 true
    (MkWorld (w_env w) (w_now w) (w_cause w) (w_emit w) (w_commit w) broken) ci (demo_rollback, 0%nat)
  = driveOne demo_reg (λ x, x) 100 true w ci (demo_rollback, 0%nat).
Proof. intros ci w broken. apply (recovery_runs_no_step demo_reg (λ x, x) 100 true w ci). reflexivity. Defined.

(** an instance that is Compensating when its definition disappears from the
    registry can never finish: every drive of it, in every world, tries to mark
    it Failed, a transition the state machine forbids, so the drive changes
    nothing at all (the journal is exactly as the interference left it) and,
    while the lease is valid, reports an error. *)
Theorem unregistered_rollback_is_stuck reg redact leaseDuration tx_rollback w ci m n row :
  Lookup reg (DefinitionID (ci_Instance ci)) = None →
  instances (w_env w n 0%nat m) !! ID (ci_Instance ci) = Some row →
  inst_Status (inst row) = StatusCompensating →
  (driveOne reg redact leaseDuration tx_rollback w ci (m, n)).2.1 = w_env w n 0%nat m ∧
  (fenced row (ci_LeaseID ci) (w_now w n 0%nat) = true →
   is_ok (driveOne reg redact leaseDuration tx_rollback w ci (m, n)).1 = false).
Proof.
  intros Hreg Hrow Hst. unfold driveOne, markTerminal, access. rewrite Hreg. cbn -[AdvanceSaga].
  unfold MarkTerminal. rewrite Hrow. destruct (fenced _ _ _); [|done]. cbn -[AdvanceSaga].
  assert (Ha : is_ok (AdvanceSaga (Some (inst row)) StatusFailed (w_now w n 0%nat)) = false).
  { cbn. unfold Transition. by rewrite Hst. }
  destruct (AdvanceSaga _ _ _); [discriminate|]. by split.
Qed.

Lemma unregistered_rollback_is_stuck_witness :
  let s := driveOne ∅ (λ x, x) 100 true (quiet_world 20)
             (demo_ci (MkInstance "s2" "order" StatusCompensating 0 3 (Some 14) None))
             (demo_rollback, 0%nat) in
  s.2.1 = demo_rollback ∧ is_ok s.1 = false.
Proof.
  intros s. assert (Hrow : ∃ row, instances demo_rollback !! "s2" = Some row ∧
    inst_Status (inst row) = StatusCompensating ∧ fenced row demo_lease 20 = true)
    by (eexists; split; [vm_compute; reflexivity|split; reflexivity]).
  destruct Hrow as (row&Hrow&Hst&Hf).
  destruct (unregistered_rollback_is_stuck ∅ (λ x, x) 100 true (quiet_world 20)
    (demo_ci (MkInstance "s2" "order" StatusCompensating 0 3 (Some 14) None))
    demo_rollback 0 row) as [H1 H2]; [reflexivity|exact Hrow|exact Hst|].
  split; [exact H1|by apply H2].
Defined.

(** ** tickOnce

    The drives of one batch run concurrently; [drive_all] is the schedule that
    runs them one after the other, and the interference in each drive's world
    stands for the others.  [lead] is the leader-election gate. *)

Fixpoint drive_all (reg : InMemoryRegistry) (redact : string → string) (leaseDuration : Duration)
    (tx_rollback : bool) (lead : ClaimedInstance → bool) (worlds : nat → world (J := MemJournal))
    (k : nat) (claimed : list ClaimedInstance) (m : MemJournal) : MemJournal :=
  match claimed with
  | [] => m
  | ci :: rest =>
      let m' := if lead ci
                then (driveOne reg redact leaseDuration tx_rollback (worlds k) ci (m, 0%nat)).2.1
                else m in
      drive_all reg redact leaseDuration tx_rollback lead worlds (S k) rest m'
  end.

Definition tickOnce (reg : InMemoryRegistry) (redact : string → string) (batch : Z)
    (leaseDuration : Duration) (tx_rollback : bool) (stopping : bool)
    (lead : ClaimedInstance → bool) (worlds : nat → world (J := MemJournal))
    (now : Time) (entropy : list Z) (m : MemJournal) : outcome unit * MemJournal :=
  if stopping then (Ok tt, m)
  else
    match ClaimPending m now entropy batch leaseDuration with
    | (Err e, m') => (Err (Errorf "ClaimPending" e), m')
    | (Ok ([], _), m') => (Ok tt, m')
    | (Ok (claimed, _), m') =>
        (Ok tt, drive_all reg redact leaseDuration tx_rollback lead worlds 0 claimed m')
    end.

(** ** What a drive leaves alone

    A property that survives interference and the calls the drive makes on its own
    instance survives the drive. *)

Section keeps.
Context {J : Type} `{Journal J}.
Context (reg : InMemoryRegistry) (redact : string → string) (leaseDuration : Duration)
        (tx_rollback : bool) (w : world (J := J)) (P : J → Prop) (ci : ClaimedInstance).
Abbreviation id := (ID (ci_Instance ci)).
Abbreviation l := (ci_LeaseID ci).
Context (Henv : ∀ n k m, P m → P (w_env w n k m)).
Context (HAppend : ∀ m now e, P m → P (J_Append m now id l e).2).
Context (HMark : ∀ m now s, P m → P (J_MarkTerminal m now id l s).2).
Context (HBeat : ∀ m now, P m → P (J_Heartbeat m now id l leaseDuration).2).

Lemma access_keeps {A} (f : J → Time → A * J) s :
  (∀ m now, P m → P (f m now).2) → P s.1 → P (access w f s).2.1.
Proof.
  destruct s as [m n]. intros Hf HP. unfold access. cbn in HP.
  specialize (Hf _ (w_now w n 0%nat) (Henv n 0%nat _ HP)). by destruct (f _ _).
Qed.

Lemma RunInTx_keeps body s :
  (∀ interfere now n m, (∀ k m, P m → P (interfere k m)) → P m → P (body interfere now n m).2) →
  P s.1 → P (RunInTx tx_rollback w body s).2.1.
Proof.
  destruct s as [m n]. intros Hbody HP. unfold RunInTx. cbn in HP. pose proof (Henv n 0%nat _ HP) as HP0.
  set (f := λ (k : nat) m, _). assert (Hf : ∀ k m, P m → P (f k m)).
  { intros k m' Hm'. unfold f. destruct tx_rollback, k; auto. }
  specialize (Hbody f (w_now w n) n _ Hf HP0). destruct (body _ _ _ _) as [[]m1]; cbn in Hbody;
    destruct (w_commit w n), tx_rollback; done.
Qed.

Lemma append_keeps e s : P s.1 → P (RunInTx tx_rollback w (append_body id l e) s).2.1.
Proof.
  apply RunInTx_keeps. intros interfere now n m Hi Hm. unfold append_body.
  specialize (HAppend _ (now 0%nat) e (Hi 0%nat _ Hm)). by destruct (J_Append _ _ _ _ _).
Qed.

Lemma markTerminal_keeps st s : P s.1 → P (markTerminal w id l st s).2.1.
Proof.
  intros HP. unfold markTerminal.
  pose proof (access_keeps (λ m now, J_MarkTerminal m now id l st) s (λ m now, HMark m now st) HP) as Ha.
  destruct (access _ _ _) as [[] s']; done.
Qed.

Lemma commit_keeps a s : a_instanceID a = id → a_leaseID a = l → P s.1 → P (commitStepInTx redact tx_rollback w a s).2.1.
Proof.
  intros Hid Hl. apply RunInTx_keeps. intros interfere now n m Hi Hm.
  unfold commitStep, commitStepFailed, commitStepCompleted. rewrite Hid, Hl.
  destruct (a_runErr a) as [err|].
  - match goal with |- context [J_Append ?m ?t _ _ ?e] => pose proof (HAppend m t e (Hi 0%nat _ Hm)) as H1;
      destruct (J_Append m t _ _ e) as [[] m1]; [|done] end.
    specialize (HMark _ (now 1%nat) StatusFailed (Hi 1%nat _ H1)). by destruct (J_MarkTerminal _ _ _ _ _).
  - match goal with |- context [J_Append ?m ?t _ _ ?e] => pose proof (HAppend m t e (Hi 0%nat _ Hm)) as H1;
      destruct (J_Append m t _ _ e) as [[] m1]; [|done] end.
    destruct (w_emit w n), (a_isLastStep a); try done.
    specialize (HMark _ (now 1%nat) StatusSucceeded (Hi 1%nat _ H1)). by destruct (J_MarkTerminal _ _ _ _ _).
Qed.

Lemma compensateOneStep_keeps step payload s :
  P s.1 → P (compensateOneStep redact tx_rollback w ci step payload s).2.1.
Proof.
  intros HP. unfold compensateOneStep. destruct (Compensate step); [|done].
  destruct (Compensate_step _ _ _ _);
    match goal with |- context [RunInTx _ _ (append_body _ _ ?e) _] => pose proof (append_keeps e s HP) as Ha end;
    by destruct (RunInTx _ _ _ _) as [? ?].
Qed.

Lemma reverseWalk_keeps idx committed : ∀ errs s,
  P s.1 → P (reverseWalkCompensate redact tx_rollback w ci idx committed errs s).2.1.
Proof.
  induction committed as [|cs rest IH]; intros errs s HP; [done|]. cbn.
  destruct (w_cause w s.2); [done|]. destruct (idx !! cs_name cs) as [step|]; [|by apply IH].
  pose proof (compensateOneStep_keeps step (cs_payload cs) (s.1, S s.2) HP) as Hc.
  destruct (compensateOneStep _ _ _ _ _ _ _) as [res s1]. by apply IH.
Qed.

Lemma runCompensation_keeps def evs trig s :
  P s.1 → P (runCompensation redact leaseDuration tx_rollback w ci def evs trig s).2.1.
Proof.
  intros HP. unfold runCompensation.
  assert (Hstart : P (match trig with recoveryTrigger => (Ok tt, s)
    | failureTrigger cause => appendCompensationStarted redact tx_rollback w ci cause s end).2.1).
  { destruct trig; [done|]. unfold appendCompensationStarted.
    match goal with |- context [RunInTx _ _ (append_body _ _ ?e) _] => pose proof (append_keeps e s HP) as Ha end.
    by destruct (RunInTx _ _ _ _) as [? ?]. }
  destruct (match trig with recoveryTrigger => _ | _ => _ end) as [[] s0]; [|done].
  destruct (collectCommittedSteps evs def) as [[committed idx] prior].
  pose proof (access_keeps (λ m now, J_Heartbeat m now id l leaseDuration) s0 HBeat Hstart) as Hb.
  destruct (access _ _ _) as [pre s1]. cbn in Hb. unfold RunWithHeartbeat. cbn [fst snd].
  pose proof (reverseWalk_keeps idx (reverse committed) prior s1 Hb) as Hw.
  destruct (reverseWalkCompensate _ _ _ _ _ _ _ _) as [errs s2]. unfold ctx_done. cbn in Hw.
  destruct pre as [[]|]; cbn -[IsLeaseLost markTerminal]; repeat case_match; simplify_eq; try done; by apply markTerminal_keeps.
Qed.

Lemma driveOne_keeps s : P s.1 → P (driveOne reg redact leaseDuration tx_rollback w ci s).2.1.
Proof.
  intros HP. unfold driveOne. destruct (Lookup reg _) as [def|]; [|by apply markTerminal_keeps].
  pose proof (access_keeps (λ m now, (now, m)) s (λ m now Hm, Hm) HP) as H1.
  destruct (access _ _ s) as [now s1]. cbn in H1. destruct (_ && _); [by apply markTerminal_keeps|].
  pose proof (access_keeps (λ m _, (J_Load m id, m)) s1 (λ m now Hm, Hm) H1) as H2.
  destruct (access _ _ s1) as [[evs|] s2]; [|done]. cbn in H2.
  case_bool_decide; [by apply runCompensation_keeps|].
  destruct (foldEvents evs) as [[cursor prev]|]; [|by apply markTerminal_keeps].
  destruct (_ >=? _); [by apply markTerminal_keeps|]. destruct (Steps def !! _) as [step|]; [|done].
  pose proof (access_keeps (λ m now, J_Heartbeat m now id l leaseDuration) s2 HBeat H2) as H3.
  destruct (access _ _ s2) as [pre s3]. cbn in H3.
  destruct (executeInner _ _ _ _ _) as [res|]; [|done]. unfold routeOutcome.
  destruct (res_Outcome res); try done; [by apply commit_keeps| |by apply markTerminal_keeps].
  destruct (shouldCompensate evs def); [by apply runCompensation_keeps|by apply commit_keeps].
Qed.
End keeps.

(** What every call but [Enqueue] leaves of the rows: the sagas are the same ones,
    started when they were, and a finished one is left alone. *)
Record ages (m m' : MemJournal) : Prop := {
  ag_inv : journal_inv m';
  ag_dom : dom (instances m') = dom (instances m);
  ag_started k row row' : instances m !! k = Some row → instances m' !! k = Some row' →
    StartedAt (inst row') = StartedAt (inst row);
  ag_done k row : instances m !! k = Some row → Status_IsTerminal (inst_Status (inst row)) = true →
    instances m' !! k = Some row;
}.

Lemma ages_refl m : journal_inv m → ages m m.
Proof. intros Hm. split; [done..| |done]. intros; by simplify_eq. Qed.

Lemma ages_trans m1 m2 m3 : ages m1 m2 → ages m2 m3 → ages m1 m3.
Proof.
  intros [? D1 S1 F1] [? D2 S2 F2]. split; [done|congruence| |].
  - intros k row row3 Hrow Hrow3.
    assert (k ∈ dom (instances m2)) as [row2 Hrow2]%elem_of_dom by (rewrite D1; apply elem_of_dom; eauto).
    rewrite (S2 k row2 row3) by done. by eapply S1.
  - intros k row Hrow Ht. apply F2; [|done]. by apply F1.
Qed.

Lemma applyProjection_started i k now i' : applyProjection i k now = Ok i' → StartedAt i' = StartedAt i.
Proof.
  unfold applyProjection. intros Hp. repeat case_match; simplify_eq; try done;
    by apply AdvanceSaga_Ok in Hp as (_&_&_&->).
Qed.

Lemma exec_started m op k row row' :
  instances m !! k = Some row → instances (exec m op) !! k = Some row' → StartedAt (inst row') = StartedAt (inst row).
Proof.
  intros Hrow. destruct op as [i|now id l e|now en b d|now id l d|now id l st]; cbn [exec].
  - destruct (Enqueue m i) as [x m'] eqn:HE. cbn. apply Enqueue_cases in HE as [[-> _]|(_&Hn&_&->)];
      [by intros; simplify_eq|]. cbn. rewrite lookup_insert_ne by congruence. by intros; simplify_eq.
  - destruct (Append m now id l e) as [x m'] eqn:HA. cbn.
    apply Append_cases in HA as [[-> _]|(row0&i&Hrow0&_&_&Hp&[= _ ->])]; [by intros; simplify_eq|]. cbn.
    intros [[-> <-]|[_ Hr]]%lookup_insert_Some; simplify_eq; [|done]. by eapply applyProjection_started.
  - destruct (ClaimPending m now en b d) as [x m'] eqn:HC. cbn.
    apply ClaimPending_cases in HC as [[-> _]|(l&_&_&_&_&_&->)]; [by intros; simplify_eq|]. cbn.
    intros [(row0&Hc&->)|[_ Hr]]%claim_rows; [|by simplify_eq]. apply claimed_in_instances in Hc. by simplify_eq.
  - destruct (Heartbeat m now id l d) as [x m'] eqn:HH. cbn.
    apply Heartbeat_cases in HH as [[-> _]|(row0&Hrow0&_&_&_&->)]; [by intros; simplify_eq|]. cbn.
    by intros [[-> <-]|[_ Hr]]%lookup_insert_Some; simplify_eq.
  - destruct (MarkTerminal m now id l st) as [x m'] eqn:HM. cbn.
    apply MarkTerminal_cases in HM as [[-> _]|(row0&i&kk&Hrow0&_&_&Ha&_&->)]; [by intros; simplify_eq|]. cbn.
    apply AdvanceSaga_Ok in Ha as (_&_&_&->).
    rewrite insert_insert_eq. by intros [[-> <-]|[_ Hr]]%lookup_insert_Some; simplify_eq.
Qed.

Lemma exec_ages m op : journal_inv m → (∀ i, op ≠ OpEnqueue i) → ages m (exec m op).
Proof.
  intros Hm Hop. split; [by apply exec_inv| |by apply exec_started|].
  - destruct op as [i|now id l e|now en b d|now id l d|now id l st]; cbn [exec]; [by destruct (Hop i)|..].
    + destruct (Append m now id l e) as [x m'] eqn:HA. cbn.
      apply Append_cases in HA as [[-> _]|(row0&i&Hrow0&_&_&Hp&[= _ ->])]; [done|]. cbn.
      rewrite dom_insert_lookup_L; [done|eauto].
    + destruct (ClaimPending m now en b d) as [x m'] eqn:HC. cbn.
      apply ClaimPending_cases in HC as [[-> _]|(l&_&_&_&_&_&->)]; [done|]. apply claim_dom.
    + destruct (Heartbeat m now id l d) as [x m'] eqn:HH. cbn.
      apply Heartbeat_cases in HH as [[-> _]|(row0&Hrow0&_&_&_&->)]; [done|]. cbn.
      rewrite dom_insert_lookup_L; [done|eauto].
    + destruct (MarkTerminal m now id l st) as [x m'] eqn:HM. cbn.
      apply MarkTerminal_cases in HM as [[-> _]|(row0&i&kk&Hrow0&_&_&Ha&_&->)]; [done|]. cbn.
      rewrite insert_insert_eq, dom_insert_lookup_L; [done|eauto].
  - intros k row Hrow Ht. destruct (ji_rows _ Hm _ _ Hrow) as (log&_&Hok).
    apply (exec_frozen m op k row Hrow); [|done]. by apply (ro_lease _ _ _ Hok).
Qed.

(** A drive of one saga ages the journal and leaves the others' rows and logs alone. *)
Lemma driveOne_ages reg redact d tx w ci m n :
  (∀ n k m', w_env w n k m' = m') → journal_inv m → ages m (driveOne reg redact d tx w ci (m, n)).2.1.
Proof.
  intros Henv Hm. assert (Hexec : ∀ op m', (∀ i, op ≠ OpEnqueue i) → ages m m' → ages m (exec m' op)).
  { intros op m' Hop Ha. eapply ages_trans; [done|]. apply exec_ages; [apply Ha|done]. }
  apply (driveOne_keeps reg redact d tx w (ages m)); [..|by apply ages_refl].
  - intros. by rewrite Henv.
  - intros m' now e. by apply (Hexec (OpAppend now _ _ e)).
  - intros m' now st. by apply (Hexec (OpMarkTerminal now _ _ st)).
  - intros m' now. by apply (Hexec (OpHeartbeat now _ _ d)).
Qed.

Lemma driveOne_elsewhere reg redact d tx w ci m n id :
  (∀ n k m', w_env w n k m' = m') → ID (ci_Instance ci) ≠ id →
  let m' := (driveOne reg redact d tx w ci (m, n)).2.1 in
  instances m' !! id = instances m !! id ∧ events m' !! id = events m !! id.
Proof.
  intros Henv Hne. apply (driveOne_keeps reg redact d tx w
    (λ m', instances m' !! id = instances m !! id ∧ events m' !! id = events m !! id)); [..|done].
  - intros. by rewrite Henv.
  - intros m1 now e Hm1. cbn. destruct (Append m1 now _ _ e) as [x m2] eqn:HA.
    apply Append_cases in HA as [[-> _]|(row0&i&_&_&_&_&[= _ ->])]; [done|]. cbn. by rewrite !lookup_insert_ne.
  - intros m1 now st Hm1. cbn. destruct (MarkTerminal m1 now _ _ st) as [x m2] eqn:HA.
    apply MarkTerminal_cases in HA as [[-> _]|(row0&i&kk&_&_&_&_&_&->)]; [done|]. cbn. by rewrite !lookup_insert_ne.
  - intros m1 now Hm1. cbn. destruct (Heartbeat m1 now _ _ d) as [x m2] eqn:HA.
    apply Heartbeat_cases in HA as [[-> _]|(row0&_&_&_&_&->)]; [done|]. cbn. by rewrite !lookup_insert_ne.
Qed.

(** The unfinished sagas that started at [t] or before. *)
Definition rivals (m : MemJournal) (t : Time) : gmap string instanceRow :=
  filter (λ kr, Status_IsTerminal (inst_Status (inst kr.2)) = false ∧ StartedAt (inst kr.2) ≤ t) (instances m).

Lemma rivals_ages m m' t : ages m m' → (size (rivals m' t) ≤ size (rivals m t))%nat.
Proof.
  intros [_ Hdom Hstart Hdone]. rewrite <- !size_dom. apply subseteq_size.
  intros k (row'&[Hrow' [Ht Hs]]%map_lookup_filter_Some)%elem_of_dom. cbn in *.
  assert (k ∈ dom (instances m)) as [row Hrow]%elem_of_dom by (rewrite <- Hdom; apply elem_of_dom; eauto).
  apply elem_of_dom. exists row. apply map_lookup_filter_Some. cbn. split; [done|].
  rewrite (Hstart k row row') in Hs by done. split; [|done].
  destruct (Status_IsTerminal (inst_Status (inst row))) eqn:Hterm; [|done].
  rewrite (Hdone k row) in Hrow' by done. congruence.
Qed.

(** The oldest come first: a claimable saga is claimed if the batch has room for it
    and its rivals. *)
Lemma select_candidates_rivals m now b id row :
  instances m !! id = Some row → claimable row now = true →
  Z.of_nat (size (rivals m (StartedAt (inst row)))) ≤ b →
  (id, row) ∈ select_candidates (map_to_list (instances m)) now b.
Proof.
  intros Hrow Hcl Hb.
  destruct (decide (id ∈ (select_candidates (map_to_list (instances m)) now b).*1)) as [Hi|Hn].
  { apply list_elem_of_fmap in Hi as ([id' row']&->&Hc). pose proof (claimed_in_instances _ _ _ _ _ Hc).
    cbn in *. by simplify_eq. }
  assert (Hin : (id, row) ∈ map_to_list (instances m)) by (by apply elem_of_map_to_list).
  destruct (decide (length (select_candidates (map_to_list (instances m)) now b) < Z.to_nat b)%nat) as [Hlt|Hge].
  { by apply select_candidates_full. }
  exfalso. set (sel := select_candidates _ _ _) in *.
  assert (Hnd : NoDup (id :: sel.*1)).
  { apply NoDup_cons. split; [|apply select_candidates_NoDup, NoDup_fst_map_to_list].
    done. }
  assert (Hsub : id :: sel.*1 ⊆ elements (dom (rivals m (StartedAt (inst row))))).
  { intros k [->|([k' row']&->&Hc)%list_elem_of_fmap]%elem_of_cons; apply elem_of_elements, elem_of_dom.
    - exists row. apply map_lookup_filter_Some. split; [done|]. split; [by eapply claimable_nonterminal|done].
    - exists row'. apply map_lookup_filter_Some. split; [by eapply claimed_in_instances|].
      pose proof (select_candidates_elem _ _ _ _ Hc) as [_ Hc'%claimable_nonterminal]. split; [done|].
      apply (select_candidates_oldest _ _ _ _ (id, row)) in Hc; [|done|done|].
      2: { intros Hx. by apply Hn, (list_elem_of_fmap_2 fst _ (id, row)). }
      apply not_after_time_id in Hc. cbn in *. lia. }
  apply NoDup_submseteq, submseteq_length in Hsub; [|done].
  change (length (elements (dom (rivals m (StartedAt (inst row)))))) with (size (dom (rivals m (StartedAt (inst row))))) in Hsub.
  rewrite size_dom in Hsub. cbn in Hsub. rewrite length_fmap in Hsub. lia.
Qed.

(** ** Progress *)

Section progress.
Context (reg : InMemoryRegistry) (redact : string → string) (leaseDuration : Duration)
        (tx_rollback : bool).
Context (Hdur : 0 < leaseDuration).

(** The lease is held and unexpired at [t], and the clock guards will pass. *)
Record live (m : MemJournal) (id l : string) (log : list Event) (i : Instance) (t : Time) : Prop := {
  lv_holds : mem_holds m id l log i;
  lv_fenced row : instances m !! id = Some row → fenced row l t = true;
  lv_started : StartedAt i ≤ t;
  lv_updated : opt_le (UpdatedAt i) t;
}.

Lemma live_row m id l log i t :
  live m id l log i t →
  ∃ row, instances m !! id = Some row ∧ inst row = i ∧ events m !! id = Some log ∧
         fenced row l t = true ∧ currentVersion row = Z.of_nat (length log) ∧ instance_wf i ∧ ID i = id.
Proof.
  intros [(Hinv&_&row&Hrow&_&Hi&Hlog) Hf _ _]. exists row.
  destruct (ji_rows _ Hinv _ _ Hrow) as (log'&Hlog'&[]). simplify_eq.
  split_and!; try done. by apply Hf.
Qed.

Lemma fenced_expiry row l t t' :
  fenced row l t = true → t' ≤ t → fenced row l t' = true.
Proof.
  unfold fenced. intros Hf Ht. destruct (leaseID row ==s ""); [done|].
  destruct (leaseID row ==s l); [|done]. cbn in *. unfold Before in *. lia.
Qed.

Lemma live_Heartbeat m id l log i t :
  live m id l log i t →
  ∃ m', Heartbeat m t id l leaseDuration = (Ok true, m') ∧ live m' id l log i t ∧
        ∀ row', instances m' !! id = Some row' → leaseExpiresAt row' = t + leaseDuration.
Proof.
  intros Hl. pose proof (live_row _ _ _ _ _ _ Hl) as (row&Hrow&Hi&_&Hf&_).
  destruct (Heartbeat m t id l leaseDuration) as [r m'] eqn:HH.
  pose proof (mem_holds_Heartbeat _ _ _ _ _ _ _ _ _ (lv_holds _ _ _ _ _ _ Hl) HH) as Hh'.
  unfold Heartbeat in HH. rewrite Hrow, Hf in HH.
  replace (leaseDuration <=? 0) with false in HH by lia. cbn in HH. simplify_eq.
  eexists. split; [reflexivity|]. split.
  - split; [done| |apply Hl|apply Hl]. intros row'. cbn. rewrite lookup_insert_eq. intros [= <-].
    pose proof (fenced_lease _ _ _ Hf) as [He Hne]. unfold fenced; cbn. rewrite He.
    unfold str_eqb. rewrite bool_decide_eq_false_2, bool_decide_eq_true_2 by done. cbn.
    unfold Before. lia.
  - intros row'. cbn. rewrite lookup_insert_eq. by intros [= <-].
Qed.

Lemma applyProjection_frame i k now i' :
  applyProjection i k now = Ok i' → opt_le (UpdatedAt i) now →
  StartedAt i' = StartedAt i ∧ opt_le (UpdatedAt i') now ∧ DefinitionID i' = DefinitionID i.
Proof.
  intros Hp Hu.
  assert (Hadv : ∀ to, AdvanceSaga (Some i) to now = Ok i' →
    StartedAt i' = StartedAt i ∧ opt_le (UpdatedAt i') now ∧ DefinitionID i' = DefinitionID i).
  { intros to (_&_&_&->)%AdvanceSaga_Ok. cbn. split_and!; (done || lia). }
  unfold applyProjection in Hp. repeat case_match; simplify_eq; eauto.
Qed.

Lemma live_Append m id l log i t e s' :
  live m id l log i t → ValidateForAppend e = Ok tt →
  replay (inst_Status i) (ev_Kind e) = Some s' →
  ∃ v seq m' i', Append m t id l e = (Ok v, m') ∧
    live m' id l (log ++ [MkEvent v seq (ev_Kind e) (StepName e) (Payload e) t]) i' t ∧
    inst_Status i' = s' ∧ DefinitionID i' = DefinitionID i ∧ StartedAt i' = StartedAt i ∧
    (∀ row row', instances m !! id = Some row → instances m' !! id = Some row' →
       leaseExpiresAt row' = leaseExpiresAt row).
Proof.
  intros Hl Hv Hre. pose proof (live_row _ _ _ _ _ _ Hl) as (row&Hrow&Hi&Hlog&Hf&Hver&Hwf&Hid).
  pose proof Hv as (Hvk&Hnt&_)%ValidateForAppend_Ok.
  destruct (applyProjection i (ev_Kind e) t) as [i'|err] eqn:Hp.
  2:{ destruct (applyProjection_complete i (ev_Kind e) t s' Hvk Hnt Hre) as [x Hx].
      { right. split; apply Hl. }
      rewrite Hp in Hx. done. }
  destruct (applyProjection_frame _ _ _ _ Hp (lv_updated _ _ _ _ _ _ Hl)) as (Hst&Hup&Hdef).
  destruct (Append m t id l e) as [r m'] eqn:HA.
  pose proof HA as HA'. unfold Append in HA'. rewrite Hrow, Hf, Hv, Hi, Hp in HA'. cbn in HA'.
  destruct (mem_holds_Append _ _ _ _ _ _ _ _ _ (lv_holds _ _ _ _ _ _ Hl) HA)
    as [[_ Hr]|(seq&i''&Hr&Hh'&Hre')]; [by simplify_eq|].
  assert (i'' = i') as ->.
  { destruct Hh' as (_&_&row'&Hrow'&_&<-&_). simplify_eq. cbn in Hrow'.
    rewrite lookup_insert_eq in Hrow'. by simplify_eq. }
  exists (Z.of_nat (length log) + 1), seq, m', i'. simplify_eq.
  split_and!; [done| |congruence|done|done|].
  - split; [done| |by rewrite Hst; apply Hl|done].
    intros row'. cbn. rewrite lookup_insert_eq. by intros [= <-].
  - intros row1 row2 ?. cbn. rewrite lookup_insert_eq. intros [= <-]. by simplify_eq.
Qed.

Lemma live_MarkTerminal m id l log i t s :
  live m id l log i t → Status_IsTerminal s = true → edge (inst_Status i) s →
  ∃ m' row', MarkTerminal m t id l s = (Ok true, m') ∧
    instances m' !! id = Some row' ∧ inst_Status (inst row') = s.
Proof.
  intros Hl Hs He. pose proof (live_row _ _ _ _ _ _ Hl) as (row&Hrow&Hi&_&Hf&_).
  destruct (TerminalEventKind_is_Some s Hs) as [k Hk].
  destruct (AdvanceSaga (Some i) s t) as [i'|err] eqn:Ha.
  2:{ assert (AdvanceSaga (Some i) s t = Ok (MkInstance (ID i) (DefinitionID i) s (CurrentStep i)
        (StartedAt i) (Some t) (if Status_IsTerminal s then Some t else CompletedAt i)))
        by (apply AdvanceSaga_Ok; split_and!; [done|apply Hl|apply Hl|done]). congruence. }
  unfold MarkTerminal. rewrite Hrow, Hf, Hs, Hk, Hi, Ha. cbn.
  eexists _, _. split; [reflexivity|]. cbn. rewrite lookup_insert_eq. split; [reflexivity|].
  by apply AdvanceSaga_Ok in Ha as (_&_&_&->).
Qed.

(** A step that always succeeds at once, with a state the journal accepts. *)
Definition steady_step (st : Step) : Prop :=
  ∃ fn, Run st = Some fn ∧ ∀ call i prev, ∃ s, fn call i prev = RunReturned s None ∧
    byte_len s ≤ MaxPayloadBytes ∧ validateObjectOrNull s = Ok tt.

Lemma execute_steady st i policy prev :
  steady_step st →
  ∃ s, executeInner i st policy prev (MkExecEnv (Ok true) 0 (ee_attempt calm))
         = Some (MkResult OutcomeSucceeded s None 1) ∧
       byte_len s ≤ MaxPayloadBytes ∧ validateObjectOrNull s = Ok tt.
Proof.
  intros (fn&Hrun&Hfn). destruct (Hfn 0%nat i prev) as (s&Hs&Hlen&Hok). exists s.
  split; [|done]. unfold executeInner. cbn -[maxAttempts resolvePolicy]. rewrite Hrun. cbn -[maxAttempts resolvePolicy].
  unfold safeRun. rewrite Hs. unfold runAttempt. cbn. rewrite andb_false_r. reflexivity.
Qed.

Lemma completed_event_valid st s :
  valid_name (Name st) → byte_len s ≤ MaxPayloadBytes → validateObjectOrNull s = Ok tt →
  ValidateForAppend (new_event KindStepCompleted (Name st) s) = Ok tt.
Proof.
  intros [Hne Hok]%valid_name_iff Hlen Hp. unfold ValidateForAppend, new_event. cbn -[Z.gtb MaxPayloadBytes].
  rewrite Z.gtb_ltb. replace (MaxPayloadBytes <? byte_len s) with false by lia.
  unfold validateStepName. cbn. unfold str_eqb. rewrite bool_decide_eq_false_2, Hok by done. done.
Qed.

Lemma replay_completed s :
  s = StatusPending ∨ s = StatusRunning → replay s KindStepCompleted = Some StatusRunning.
Proof. by intros [-> | ->]. Qed.

(** The definition's timeout has not passed at [t]. *)
Definition in_time (d : Definition_) (i : Instance) (t : Time) : Prop :=
  def_Timeout d ≤ 0 ∨ Sub t (StartedAt i) ≤ def_Timeout d.

Lemma drive_forward m n id l log i t d step c prev :
  live m id l log i t → Lookup reg (DefinitionID i) = Some d → in_time d i t →
  inst_Status i = StatusPending ∨ inst_Status i = StatusRunning →
  foldEvents log = Ok (c, prev) → Steps d !! Z.to_nat c = Some step → 0 ≤ c →
  valid_name (Name step) → steady_step step →
  ∃ m' n', driveOne reg redact leaseDuration tx_rollback (quiet_world t) (MkClaimed i l) (m, n)
             = (Ok tt, (m', n')) ∧
    (c + 1 < Z.of_nat (length (Steps d)) →
       ∃ e i', live m' id l (log ++ [e]) i' t ∧ ev_Kind e = KindStepCompleted ∧
         inst_Status i' = StatusRunning ∧ DefinitionID i' = DefinitionID i ∧ StartedAt i' = StartedAt i ∧
         ∀ row, instances m' !! id = Some row → leaseExpiresAt row = t + leaseDuration) ∧
    (c + 1 = Z.of_nat (length (Steps d)) →
       ∃ row', instances m' !! id = Some row' ∧ inst_Status (inst row') = StatusSucceeded).
Proof.
  intros Hl Hreg Hto Hst Hfold Hstep Hc Hname Hsteady.
  pose proof (live_row _ _ _ _ _ _ Hl) as (row&Hrow&Hi&Hlog&_&_&_&Hid).
  destruct (live_Heartbeat _ _ _ _ _ _ Hl) as (m1&HH&Hl1&Hexp1).
  destruct (execute_steady step i (def_RetryPolicy d) prev Hsteady) as (s&Hex&Hlen&Hok).
  pose proof (completed_event_valid step s Hname Hlen Hok) as Hval.
  destruct (live_Append _ _ _ _ _ _ _ _ Hl1 Hval (replay_completed _ Hst))
    as (v&seq&m2&i2&HA&Hl2&Hst2&Hdef2&Hsta2&Hexp2).
  assert (Hlt : c < Z.of_nat (length (Steps d))) by (apply lookup_lt_Some in Hstep; lia).
  unfold driveOne. cbn [ci_Instance ci_LeaseID]. rewrite Hreg, Hid.
  unfold access at 1 2. cbn [quiet_world w_env w_now fst snd]. 
  replace ((def_Timeout d >? 0) && (Sub t (StartedAt i) >? def_Timeout d)) with false
    by (symmetry; apply andb_false_iff; rewrite !Z.gtb_ltb, !Z.ltb_ge; destruct Hto; auto).
  change (J_Load m id) with (Load m id). unfold Load. rewrite Hrow, Hlog. change (default [] (Some log)) with log.
  rewrite bool_decide_eq_false_2 by (destruct Hst as [-> | ->]; done).
  rewrite Hfold, Z.geb_leb. replace (Z.of_nat (length (Steps d)) <=? c) with false by lia.
  rewrite Hstep. unfold access. cbn [quiet_world w_env w_now w_exec fst snd].
  change (J_Heartbeat m t id l leaseDuration) with (Heartbeat m t id l leaseDuration). rewrite HH.
  change (ee_call calm) with 0%nat. rewrite Hex. unfold routeOutcome. cbn [res_Outcome NewState ci_Instance ci_LeaseID].
  unfold commitStepInTx, RunInTx. cbn [quiet_world w_env w_now w_commit commitStep a_runErr].
  rewrite Hid. unfold commitStepCompleted. cbn [a_instanceID a_leaseID a_step a_newState a_isLastStep].
  change (J_Append ?m0 ?t0 ?a ?b ?e) with (Append m0 t0 a b e).
  replace (if tx_rollback then m1 else m1) with m1 by (by destruct tx_rollback). rewrite HA.
  cbn [quiet_world w_emit]. destruct (c =? Z.of_nat (length (Steps d)) - 1) eqn:Hlast; bools.
  - destruct (live_MarkTerminal _ _ _ _ _ _ StatusSucceeded Hl2 eq_refl) as (m3&row3&HM&Hrow3&Hst3).
    { rewrite Hst2. vm_compute. reflexivity. }
    change (J_MarkTerminal ?m0 ?t0 ?a ?b ?e) with (MarkTerminal m0 t0 a b e).
    replace (if tx_rollback then m2 else m2) with m2 by (by destruct tx_rollback). rewrite HM.
    eexists m3, _. split; [reflexivity|]. split; [lia|]. intros _. by exists row3.
  - eexists m2, _. split; [reflexivity|]. split; [|lia]. intros _.
    eexists _, i2. split_and!; [exact Hl2|done|done|done|done|].
    intros row2 Hrow2. pose proof (live_row _ _ _ _ _ _ Hl1) as (row1&Hrow1&_).
    rewrite (Hexp2 row1 row2 Hrow1 Hrow2). by apply Hexp1.
Qed.

(** *** From claim to drive *)

Lemma claim_live m id row log t en b l :
  journal_inv m → instances m !! id = Some row → events m !! id = Some log →
  claimable row t = true → Z.of_nat (size (rivals m (StartedAt (inst row)))) ≤ b → newUUID en = Ok l →
  StartedAt (inst row) ≤ t → opt_le (UpdatedAt (inst row)) t →
  ∃ cs m', ClaimPending m t en b leaseDuration = (Ok (cs, l), m') ∧ cs ≠ [] ∧
    live m' id l log (inst row) t ∧ ages m m' ∧
    ∃ pre post, cs = pre ++ MkClaimed (inst row) l :: post ∧
      ∀ c, c ∈ pre ++ post → ID (ci_Instance c) ≠ id.
Proof.
  intros Hinv Hrow Hlog Hcl Hsz Hu Hst Hup.
  assert (Hin := select_candidates_rivals m t b id row Hrow Hcl Hsz).
  assert (Hb : 0 < b).
  { assert (rivals m (StartedAt (inst row)) !! id = Some row) as Hr.
    { apply map_lookup_filter_Some. split; [done|]. split; [by eapply claimable_nonterminal|done]. }
    assert (size (rivals m (StartedAt (inst row))) ≠ 0%nat); [|lia]. apply map_size_ne_0_lookup. eauto. }
  pose proof (ClaimPending_inv m t en b leaseDuration Hinv) as Hinv'.
  set (sel := select_candidates (map_to_list (instances m)) t b) in *.
  assert (HC : ClaimPending m t en b leaseDuration =
    (Ok ((λ c, MkClaimed (inst c.2) l) <$> sel, l),
     MkJournal (lease_all l (t + leaseDuration) sel (instances m)) (events m) (globalSeq m) (globalLog m))).
  { unfold ClaimPending. replace (b <=? 0) with false by lia.
    replace (leaseDuration <=? 0) with false by lia. fold sel.
    destruct sel; [by apply elem_of_nil in Hin|]. by rewrite Hu. }
  pose proof (exec_ages m (OpClaimPending t en b leaseDuration) Hinv ltac:(done)) as Hages. cbn [exec] in Hages.
  rewrite HC in Hinv', Hages. cbn in Hinv', Hages.
  eexists _, _. split; [exact HC|]. apply list_elem_of_split in Hin as (l1&l2&Hsel).
  split_and!.
  - rewrite Hsel, fmap_app. by destruct (_ <$> l1).
  - pose proof (newUUID_nonempty _ _ Hu) as Hne.
    assert (Hrow' : lease_all l (t + leaseDuration) sel (instances m) !! id
      = Some (row_with_lease row l (t + leaseDuration))).
    { apply claim_rows. left. exists row. split; [|done]. fold sel. rewrite Hsel. set_solver. }
    split; [|..|done|done].
    + split; [exact Hinv'|]. split; [done|]. eexists. cbn. by split_and!.
    + intros row'. cbn. rewrite Hrow'. intros [= <-]. unfold fenced; cbn. unfold str_eqb.
      rewrite bool_decide_eq_false_2, bool_decide_eq_true_2 by done. cbn. unfold Before. lia.
  - exact Hages.
  - exists ((λ c, MkClaimed (inst c.2) l) <$> l1), ((λ c, MkClaimed (inst c.2) l) <$> l2).
    split; [by rewrite Hsel, fmap_app|]. intros c. rewrite <- fmap_app.
    intros ([id' row']&->&Hc)%list_elem_of_fmap. cbn.
    assert (Hnd : NoDup sel.*1) by (apply select_candidates_NoDup, NoDup_fst_map_to_list).
    assert (Hin' : (id', row') ∈ sel) by (rewrite Hsel; set_solver).
    destruct (ji_rows _ Hinv id' row') as (?&_&Hok); [by eapply claimed_in_instances|].
    rewrite (ro_id _ _ _ Hok). intros ->.
    rewrite Hsel, fmap_app, fmap_cons in Hnd. cbn in Hnd.
    apply NoDup_app in Hnd as (_&Hn1&Hnd). apply NoDup_cons in Hnd as [Hn2 _].
    apply elem_of_app in Hc as [Hc|Hc]; apply (list_elem_of_fmap_2 fst) in Hc; cbn in Hc; [|done].
    apply (Hn1 id Hc). by apply elem_of_cons; left.
Qed.

(** The drives of a batch, one after the other and undisturbed. *)
Abbreviation drives t := (drive_all reg redact leaseDuration tx_rollback (λ _, true) (λ _, quiet_world t)).

Lemma drives_app t pre post : ∀ k k' m, drives t k (pre ++ post) m = drives t k' post (drives t k pre m).
Proof.
  assert (Hk : ∀ cs k k' m, drives t k cs m = drives t k' cs m).
  { induction cs as [|c cs IH]; intros k k' m; [done|]. cbn. apply IH. }
  induction pre as [|c pre IH]; intros k k' m; cbn; [apply Hk|apply IH].
Qed.

Lemma drives_others t id cs : ∀ k m, journal_inv m → (∀ c, c ∈ cs → ID (ci_Instance c) ≠ id) →
  ages m (drives t k cs m) ∧
  instances (drives t k cs m) !! id = instances m !! id ∧ events (drives t k cs m) !! id = events m !! id.
Proof.
  induction cs as [|c cs IH]; intros k m Hm Hcs; cbn; [split; [by apply ages_refl|done]|].
  pose proof (driveOne_ages reg redact leaseDuration tx_rollback (quiet_world t) c m 0 (λ _ _ _, eq_refl) Hm) as Ha.
  destruct (driveOne_elsewhere reg redact leaseDuration tx_rollback (quiet_world t) c m 0 id (λ _ _ _, eq_refl)) as [Hr Hl].
  { apply Hcs. by left. }
  destruct (IH (S k) _ (ag_inv _ _ Ha)) as (Ha'&Hr'&Hl'); [intros c' ?; apply Hcs; by right|].
  split; [by eapply ages_trans|]. split; congruence.
Qed.

Lemma live_elsewhere m m' id l log i t :
  live m id l log i t → journal_inv m' → instances m' !! id = instances m !! id →
  events m' !! id = events m !! id → live m' id l log i t.
Proof.
  intros [(_&?&row&Hrow&Hrest) Hf ??] Hinv Hi He. split; [|by rewrite Hi|done..].
  split_and!; [done..|]. exists row. by rewrite Hi, He.
Qed.

Lemma foldEvents_completed log c p :
  Forall (λ e, ev_Kind e = KindStepCompleted) log →
  ∃ prev, fold_loop log c p = Ok (c + Z.of_nat (length log), prev).
Proof.
  intros Hf. revert c p. induction Hf as [|e log He _ IH]; intros c p; cbn [fold_loop].
  - exists p. do 2 f_equal. cbn. lia.
  - rewrite He. destruct (IH (c + 1) (Payload e)) as [prev ->]. exists prev. do 2 f_equal.
    cbn [length]. lia.
Qed.

(** The state between two ticks: [k] steps are done, the last clock reading was [u]
    and the saga is free to be claimed after [free]. *)
Record waiting (m : MemJournal) (i : Instance) (d : Definition_) (k : nat) (free u : Time) : Prop := {
  wt_inv : journal_inv m;
  wt_row : ∃ row log, instances m !! ID i = Some row ∧ events m !! ID i = Some log ∧
    (∀ t, free < t → claimable row t = true) ∧ StartedAt (inst row) ≤ u ∧ opt_le (UpdatedAt (inst row)) u ∧
    (inst_Status (inst row) = StatusPending ∨ inst_Status (inst row) = StatusRunning) ∧
    StartedAt (inst row) = StartedAt i ∧ DefinitionID (inst row) = DefinitionID i ∧
    length log = k ∧ Forall (λ e, ev_Kind e = KindStepCompleted) log;
}.

(** One tick at which the coordinator leads every claimed instance, nobody else uses
    the journal and no call fails. *)
Definition quiet_tick (b : Z) (tick : Time * list Z) (m : MemJournal) : MemJournal :=
  (tickOnce reg redact b leaseDuration tx_rollback false (λ _, true) (λ _, quiet_world tick.1)
     tick.1 tick.2 m).2.

Lemma tick_skip m id row t en b :
  journal_inv m → instances m !! id = Some row → claimable row t = false →
  let m' := quiet_tick b (t, en) m in
  ages m m' ∧ instances m' !! id = instances m !! id ∧ events m' !! id = events m !! id.
Proof.
  intros Hm Hrow Hcl. unfold quiet_tick, tickOnce. cbn [fst snd].
  pose proof (exec_ages m (OpClaimPending t en b leaseDuration) Hm ltac:(done)) as Ha. cbn [exec] in Ha.
  destruct (ClaimPending m t en b leaseDuration) as [r m1] eqn:HC. cbn in Ha.
  apply ClaimPending_cases in HC as [(->&_&Hr)|(l&Hne&Hu&_&_&->&->)].
  { destruct r as [[cs l]|e]; [|done]. destruct (Hr _ eq_refl) as [[= -> ->] _]. done. }
  set (sel := select_candidates _ _ _) in *. set (m1 := MkJournal _ _ _ _) in *.
  assert (Hsel : id ∉ sel.*1).
  { intros ([id' row']&->&Hc)%list_elem_of_fmap. cbn in *. pose proof (claimed_in_instances _ _ _ _ _ Hc).
    apply select_candidates_elem in Hc as [_ Hc]. cbn in Hc. congruence. }
  assert (Hrow1 : instances m1 !! id = instances m !! id).
  { rewrite Hrow. apply claim_rows. by right. }
  destruct (drives_others t id ((λ c, MkClaimed (inst c.2) l) <$> sel) 0 m1 (ag_inv _ _ Ha)) as (Hag&Hi&He).
  { intros c ([id' row']&->&Hc)%list_elem_of_fmap. cbn.
    destruct (ji_rows _ Hm id' row') as (?&_&Hok); [by eapply claimed_in_instances|].
    rewrite (ro_id _ _ _ Hok). intros ->. by apply Hsel, (list_elem_of_fmap_2 fst _ (id, row')). }
  destruct sel as [|c sel]; [done|]. cbn [fmap list_fmap snd]. split; [by eapply ages_trans|].
  split; [by etrans|exact He].
Qed.

Lemma tick_progress m i d k free u t en b :
  waiting m i d k free u → u ≤ t → (∃ row, instances m !! ID i = Some row ∧ claimable row t = true) →
  Lookup reg (DefinitionID i) = Some d → valid_definition d → Forall steady_step (Steps d) → in_time d i t →
  Z.of_nat (size (rivals m (StartedAt i))) ≤ b → is_ok (newUUID en) = true → (k < length (Steps d))%nat →
  let m' := quiet_tick b (t, en) m in
  ages m m' ∧
  ((S k < length (Steps d))%nat → waiting m' i d (S k) (t + leaseDuration) t) ∧
  (S k = length (Steps d) →
     ∃ row, instances m' !! ID i = Some row ∧ inst_Status (inst row) = StatusSucceeded).
Proof.
  intros [Hinv (row&log&Hrow&Hlog&_&Hst&Hup&Hstat&Hsta&Hdef&Hk&Hall)] Hut (row0&Hrow0&Hcl) Hreg Hd Hsteady Hto Hsz Hu Hlt.
  assert (row0 = row) as -> by congruence. destruct (newUUID en) as [l|] eqn:Hl; [|done].
  rewrite <- Hsta in Hsz.
  destruct (claim_live m (ID i) row log t en b l Hinv Hrow Hlog Hcl Hsz Hl) as (cs&m1&HC&Hne&Hlive&Hag1&pre&post&Hcs&Hother).
  { lia. } { destruct (UpdatedAt (inst row)); cbn in *; [lia|done]. }
  destruct (drives_others t (ID i) pre 0 m1 (ag_inv _ _ Hag1)) as (Hag2&Hi2&He2).
  { intros c Hc. apply Hother, elem_of_app. by left. }
  set (m2 := drives t 0 pre m1) in *.
  pose proof (live_elsewhere _ m2 _ _ _ _ _ Hlive (ag_inv _ _ Hag2) Hi2 He2) as Hlive2.
  destruct (foldEvents_completed log 0 "" Hall) as [prev Hfold].
  destruct (lookup_lt_is_Some_2 (Steps d) k Hlt) as [step Hstep].
  pose proof (list_elem_of_lookup_2 _ _ _ Hstep) as Hin.
  pose proof (proj1 (Forall_forall _ _) (vd_each _ Hd) _ Hin) as Hvs.
  destruct (drive_forward m2 0 (ID i) l log (inst row) t d step (Z.of_nat k) prev Hlive2)
    as (m3&n3&Hdrive&Hmore&Hdone); try done.
  { by rewrite Hdef. } { unfold in_time in *. by rewrite Hsta. }
  { unfold foldEvents. rewrite Hfold. do 2 f_equal. lia. }
  { by rewrite Nat2Z.id. } { lia. } { apply Hvs. }
  { by apply (proj1 (Forall_forall _ _) Hsteady). }
  assert (Hag3 : ages m2 m3).
  { pose proof (driveOne_ages reg redact leaseDuration tx_rollback (quiet_world t) (MkClaimed (inst row) l) m2 0
      (λ _ _ _, eq_refl) (ag_inv _ _ Hag2)) as Ha. by rewrite Hdrive in Ha. }
  destruct (drives_others t (ID i) post 0 m3 (ag_inv _ _ Hag3)) as (Hag4&Hi4&He4).
  { intros c Hc. apply Hother, elem_of_app. by right. }
  assert (Hm' : quiet_tick b (t, en) m = drives t 0 post m3).
  { unfold quiet_tick, tickOnce. cbn [fst snd]. rewrite HC. destruct cs as [|c cs]; [done|].
    cbn [snd]. rewrite Hcs, (drives_app t pre _ 0 0). fold m2. cbn [drive_all].
    rewrite Hdrive. apply (drives_app t [] post 1 0). }
  cbn zeta. rewrite Hm'. split; [eapply ages_trans; [done|]; eapply ages_trans; [done|]; by eapply ages_trans|].
  split; [|intros ?; rewrite Hi4; apply Hdone; lia].
  intros Hmk. destruct (Hmore ltac:(lia)) as (e&i'&Hl2&He&Hst2&Hdef2&Hsta2&Hexp).
  pose proof (live_row _ _ _ _ _ _ Hl2) as (row2&Hrow2&Hrowi&Hlog2&Hf2&_).
  split; [apply (ag_inv _ _ Hag4)|]. exists row2, (log ++ [e]). rewrite Hi4, He4, Hrowi.
  specialize (Hexp _ Hrow2). split_and!; try done.
  - intros t' Ht'. unfold claimable. rewrite Hrowi, Hst2, Hexp. cbn. unfold Before.
    replace (t + leaseDuration <? t') with true by lia. by destruct (_ ==s _).
  - apply (lv_started _ _ _ _ _ _ Hl2).
  - apply (lv_updated _ _ _ _ _ _ Hl2).
  - by right.
  - congruence.
  - congruence.
  - rewrite length_app. cbn. lia.
  - by rewrite Forall_snoc.
Qed.

Lemma ticks_settled b ticks : ∀ m id row,
  journal_inv m → instances m !! id = Some row → Status_IsTerminal (inst_Status (inst row)) = true →
  instances (foldl (λ m tk, quiet_tick b tk m) m ticks) !! id = Some row.
Proof.
  induction ticks as [|[t en] ticks IH]; intros m id row Hm Hrow Ht; [done|]. cbn [foldl].
  destruct (tick_skip m id row t en b Hm Hrow) as (Ha&Hi&_); [unfold claimable; by rewrite Ht|].
  apply IH; [apply Ha|congruence|done].
Qed.
End progress.

(** Successive turns come after the previous lease ran out. *)
Definition spaced (leaseDuration : Duration) (a b : Time * list Z) : Prop :=
  a.1 + leaseDuration < b.1.

(** Among the ticks there are as many turns as steps are left: a claimable saga
    moves at every tick, so it is at least as far as the turns would bring it. *)
Lemma ticks_progress reg redact leaseDuration tx_rollback b i d ticks :
  0 < leaseDuration → Lookup reg (DefinitionID i) = Some d → valid_definition d → Forall steady_step (Steps d) →
  Forall (λ tk, is_ok (newUUID tk.2) = true) ticks → Forall (λ tk, in_time d i tk.1) ticks →
  ∀ m k free u turns, waiting m i d k free u → Z.of_nat (size (rivals m (StartedAt i))) ≤ b →
  StronglySorted (λ a b, a.1 ≤ b.1) ticks → Forall (λ tk, u ≤ tk.1) ticks →
  turns `sublist_of` ticks → Sorted (spaced leaseDuration) turns →
  (∀ tk, head turns = Some tk → free < tk.1) → (length turns + k = length (Steps d))%nat → turns ≠ [] →
  ∃ row, instances (foldl (λ m tk, quiet_tick reg redact leaseDuration tx_rollback b tk m) m ticks)
           !! ID i = Some row ∧ inst_Status (inst row) = StatusSucceeded.
Proof.
  intros Hdur Hreg Hd Hst. induction ticks as [|[t en] ticks IH];
    intros Hen Hto m k free u turns Hw Hsz Hsorted Hu Hsub Hsp Hfree Hlen Hne.
  { by apply sublist_nil_r in Hsub. }
  apply Forall_cons in Hen as [Hen0 Hen], Hto as [Hto0 Hto], Hu as [Hu0 _]. cbn in Hen0, Hto0, Hu0.
  apply StronglySorted_inv in Hsorted as [Hsorted Hlater]. cbn [foldl].
  pose proof Hw as [Hinv (row&log&Hrow&Hlog&Hcl&Hsta)]. destruct (claimable row t) eqn:Ht.
  - assert (Hk : (k < length (Steps d))%nat) by (destruct turns; [done|cbn in Hlen; lia]).
    destruct (tick_progress reg redact leaseDuration tx_rollback Hdur m i d k free u t en b Hw Hu0) as (Ha&Hmore&Hdone);
      [by eauto|done..|].
    set (m' := quiet_tick _ _ _ _ _ _ _) in *. destruct turns as [|tk turns]; [done|]. cbn in Hlen.
    apply Sorted_inv in Hsp as [Hsp Hhd]. destruct turns as [|tk' turns].
    + destruct Hdone as (row'&Hrow'&Hs); [cbn in Hlen; lia|]. exists row'. split; [|done].
      apply ticks_settled; [apply Ha|done|by rewrite Hs].
    + assert (tk' :: turns `sublist_of` ticks ∧ t ≤ tk.1) as [Htail Htk].
      { apply sublist_cons_r in Hsub as [Hsub|(l&[= -> ->]&Hsub)]; [|by split]. split; [etrans; [by apply sublist_cons|done]|].
        rewrite Forall_forall in Hlater. apply (Hlater tk). eapply sublist_subseteq; [done|by left]. }
      apply (IH Hen Hto m' (S k) (t + leaseDuration) t (tk' :: turns)); try done.
      * apply Hmore. cbn in Hlen. lia.
      * pose proof (rivals_ages _ _ (StartedAt i) Ha). lia.
      * intros x [= <-]. apply HdRel_inv in Hhd. unfold spaced in Hhd. lia.
      * cbn in *. lia.
  - assert (Htail : turns `sublist_of` ticks).
    { apply sublist_cons_r in Hsub as [|(l&->&_)]; [done|]. specialize (Hfree _ eq_refl).
      rewrite (Hcl t Hfree) in Ht. done. }
    destruct (tick_skip reg redact leaseDuration tx_rollback m (ID i) row t en b Hinv Hrow Ht) as (Ha&Hi&He).
    apply (IH Hen Hto _ k free t turns); try done.
    + destruct Hsta as (?&Hup&?&?&?&?&?). split; [apply Ha|]. exists row, log. rewrite Hi, He. split_and!; try done; [lia|].
      destruct (UpdatedAt (inst row)); cbn in *; [lia|done].
    + pose proof (rivals_ages _ _ (StartedAt i) Ha). lia.
Qed.


(** Two steps that always succeed, within 700 of the start. *)
Definition happy_def : Definition_ :=
  MkDefinition "pay" [demo_step "reserve"; demo_step "capture"] 700 (MkRetryPolicy 0 0 0).

