(* ===== verification/Command.v ===== *)
(** * kernel/command: command status, entries, transitions, expiry

    The state machine of device commands, the entry it moves, the deadlines of
    its three phases and the pure half of the expiry sweeper.  [*time.Time]
    fields are options; a metadata map is a reference into a store of maps,
    because entries handed to a queue share their map with the caller. *)

From S2P Require Import Prelude IdUtil Fsm.

(** ** status.go *)

Inductive Status : Type :=
  | StatusPending | StatusSent | StatusDelivered | StatusSucceeded
  | StatusFailed | StatusExpired | StatusCanceled
  | StatusOther (n : N).

#[global] Instance Status_eq_dec : EqDecision Status.
Proof. solve_decision. Defined.

(** The uint8 behind a status; [StatusOther 0] is the zero value. *)
Definition Status_code (s : Status) : Z :=
  match s with
  | StatusPending => 1 | StatusSent => 2 | StatusDelivered => 3 | StatusSucceeded => 4
  | StatusFailed => 5 | StatusExpired => 6 | StatusCanceled => 7
  | StatusOther n => if (n =? 0)%N then 0 else 7 + Z.of_N n
  end.

Definition Status_Valid (s : Status) : bool :=
  (Status_code StatusPending <=? Status_code s) &&
  (Status_code s <=? Status_code StatusCanceled).

Definition Status_String (s : Status) : string :=
  match s with
  | StatusPending => "pending" | StatusSent => "sent" | StatusDelivered => "delivered"
  | StatusSucceeded => "succeeded" | StatusFailed => "failed" | StatusExpired => "expired"
  | StatusCanceled => "canceled"
  | StatusOther n =>
      if (n =? 0)%N then "invalid" else ("status(" ++ pretty (Status_code s) ++ ")")%string
  end.

Definition Status_IsTerminal (s : Status) : bool :=
  match s with
  | StatusSucceeded | StatusFailed | StatusExpired | StatusCanceled => true
  | _ => false
  end.

Definition statusTransitions : table Status :=
  [ (StatusPending, [StatusSent; StatusFailed; StatusExpired; StatusCanceled]);
    (StatusSent, [StatusDelivered; StatusSucceeded; StatusFailed; StatusExpired; StatusCanceled]);
    (StatusDelivered, [StatusSucceeded; StatusFailed; StatusExpired; StatusCanceled]) ].

Definition CanTransitionTo (s target : Status) : bool :=
  bool_decide (target ∈ table_get statusTransitions s).

Definition ValidTransitions (s : Status) : option (list Status) :=
  match table_get statusTransitions s with [] => None | targets => Some targets end.

Definition Transition (from to : Status) : outcome unit :=
  if CanTransitionTo from to then Ok tt
  else Err (invalid "command: invalid status transition").

(** ** entry.go *)

(** A Go map is a reference: entries hold the location of their metadata. *)
Abbreviation loc := positive (only parsing).
Abbreviation heap := (gmap positive (gmap string string)) (only parsing).

(** The contents of a possibly nil map. *)
Definition meta (h : heap) (m : option loc) : gmap string string :=
  match m with Some l => default ∅ (h !! l) | None => ∅ end.

Inductive TimeoutPhase : Type :=
  | PhaseScheduleToSend | PhaseSendToComplete | PhaseOverall | PhaseOther (n : N).

Record Timeouts := MkTimeouts {
  ScheduleToSend : Duration;
  SendToComplete : Duration;
  OverallDeadline : Duration;
}.

Record Entry := MkEntry {
  ID : string;
  DeviceID : string;
  CommandType : string;
  Payload : bytes;
  ent_Status : Status;
  Metadata : option loc;
  ent_Timeouts : Timeouts;
  Attempt : Z;
  CreatedAt : Time;
  SentAt : option Time;
  DeliveredAt : option Time;
  CompletedAt : option Time;
}.

#[global] Instance Timeouts_eq_dec : EqDecision Timeouts.
Proof. solve_decision. Defined.
#[global] Instance Entry_eq_dec : EqDecision Entry.
Proof. solve_decision. Defined.

Definition DeadlineFor (e : Entry) (phase : TimeoutPhase) : Time :=
  match phase with
  | PhaseScheduleToSend =>
      if ScheduleToSend (ent_Timeouts e) <=? 0 then 0
      else CreatedAt e + ScheduleToSend (ent_Timeouts e)
  | PhaseSendToComplete =>
      match SentAt e with
      | Some sent => if SendToComplete (ent_Timeouts e) <=? 0 then 0
                     else sent + SendToComplete (ent_Timeouts e)
      | None => 0
      end
  | PhaseOverall =>
      if OverallDeadline (ent_Timeouts e) <=? 0 then 0
      else CreatedAt e + OverallDeadline (ent_Timeouts e)
  | PhaseOther _ => 0
  end.

Definition validateBaseFields (e : Entry) : outcome unit :=
  if ID e ==s "" then Err (invalid "command: entry missing ID")
  else if DeviceID e ==s "" then Err (invalid "command: entry missing DeviceID")
  else if CommandType e ==s "" then Err (invalid "command: entry missing CommandType")
  else if byte_len (Payload e) =? 0 then Err (invalid "command: entry missing Payload")
  else Ok tt.

Definition validateStatus (e : Entry) : outcome unit :=
  if negb (Status_Valid (ent_Status e)) then Err (invalid "command: entry has invalid Status")
  else if negb (bool_decide (ent_Status e = StatusPending))
  then Err (invalid "command: new entry must have Pending status")
  else Ok tt.

Definition validateTimestamps (e : Entry) : outcome unit :=
  if IsZero (CreatedAt e) then Err (invalid "command: entry missing CreatedAt")
  else if negb (bool_decide (SentAt e = None)) || negb (bool_decide (DeliveredAt e = None))
          || negb (bool_decide (CompletedAt e = None))
  then Err (invalid "command: new entry must not have phase timestamps (SentAt/DeliveredAt/CompletedAt)")
  else if negb (Attempt e =? 0) then Err (invalid "command: new entry must have Attempt=0")
  else Ok tt.

Definition validateTimeouts (e : Entry) : outcome unit :=
  if ScheduleToSend (ent_Timeouts e) <? 0
  then Err (invalid "command: ScheduleToSend timeout must be non-negative")
  else if SendToComplete (ent_Timeouts e) <? 0
  then Err (invalid "command: SendToComplete timeout must be non-negative")
  else if OverallDeadline (ent_Timeouts e) <? 0
  then Err (invalid "command: OverallDeadline timeout must be non-negative")
  else Ok tt.

(** The limits are checked in some iteration order of the map; acceptance does
    not depend on it. *)
Definition validateMetadata (m : gmap string string) : outcome unit :=
  ValidateLimits (map_to_list m) DomainCommand.

Definition ValidateNew (h : heap) (e : Entry) : outcome unit :=
  _ ← validateBaseFields e;
  _ ← validateStatus e;
  _ ← validateTimestamps e;
  _ ← validateTimeouts e;
  validateMetadata (meta h (Metadata e)).

Definition NewEntry (id deviceID commandType : string) (payload : bytes) (timeouts : Timeouts)
    (now : Time) : Entry :=
  MkEntry id deviceID commandType payload StatusPending None timeouts 0 now None None None.

(** ** advance.go *)

(** The fields a transition may write. *)
Definition moved (e : Entry) (s : Status) (attempt : Z) (sent delivered completed : option Time)
  : Entry :=
  MkEntry (ID e) (DeviceID e) (CommandType e) (Payload e) s (Metadata e) (ent_Timeouts e)
    attempt (CreatedAt e) sent delivered completed.

Definition AdvanceCommand (entry : option Entry) (to : Status) (now : Time) : outcome Entry :=
  match entry with
  | None => Err (invalid "command: nil Entry")
  | Some e =>
      if bool_decide (to = StatusPending)
      then Err (invalid "command: AdvanceCommand does not support transitions to Pending; use ResetForRetry")
      else
        _ ← Transition (ent_Status e) to;
        match to with
        | StatusSent =>
            if match SentAt e with Some t => Before now t | None => false end
            then Err (invalid "command: advance now precedes previous SentAt (clock skew?)")
            else Ok (moved e to (wrap64 (Attempt e + 1)) (Some now) (DeliveredAt e) (CompletedAt e))
        | StatusDelivered =>
            if bool_decide (SentAt e = None)
            then Err (invalid "command: cannot transition to Delivered without SentAt")
            else Ok (moved e to (Attempt e) (SentAt e) (Some now) (CompletedAt e))
        | StatusSucceeded | StatusFailed | StatusExpired | StatusCanceled =>
            Ok (moved e to (Attempt e) (SentAt e) (DeliveredAt e) (Some now))
        | _ => Ok (moved e to (Attempt e) (SentAt e) (DeliveredAt e) (CompletedAt e))
        end
  end.

Definition ResetForRetry (entry : option Entry) : outcome Entry :=
  match entry with
  | None => Err (invalid "command: nil Entry")
  | Some e =>
      match ent_Status e with
      | StatusSent | StatusFailed => Ok (moved e StatusPending (Attempt e) None None None)
      | _ => Err (invalid "command: cannot reset for retry from current status (allowed: sent, failed)")
      end
  end.

(** ** queue.go: acknowledgements *)

Inductive AckReason : Type :=
  | AckSuccess | AckFailed | AckTimeout | AckRejected | AckOther (n : N).

Definition AckReason_Valid (r : AckReason) : bool :=
  match r with AckOther _ => false | _ => true end.

Definition TargetStatus (r : AckReason) : Status :=
  match r with
  | AckSuccess => StatusSucceeded | AckFailed => StatusFailed
  | AckTimeout => StatusExpired | AckRejected => StatusCanceled
  | AckOther _ => StatusOther 0
  end.

(** ** sweeper.go: the pure half *)

Record ExpiryTransition := MkExpiry {
  CommandID : string;
  From : Status;
  To : Status;
  Reason : string;
}.

Definition elapsed (e : Entry) (phase : TimeoutPhase) (now : Time) : bool :=
  negb (IsZero (DeadlineFor e phase)) && After now (DeadlineFor e phase).

Definition checkExpiry (e : Entry) (now : Time) : option ExpiryTransition :=
  if elapsed e PhaseOverall now
  then Some (MkExpiry (ID e) (ent_Status e) StatusExpired "phase_overall_deadline")
  else if elapsed e PhaseSendToComplete now
  then Some (MkExpiry (ID e) (ent_Status e) StatusExpired "phase_send_to_complete")
  else if elapsed e PhaseScheduleToSend now
  then Some (MkExpiry (ID e) (ent_Status e) StatusExpired "phase_schedule_to_send")
  else None.

Fixpoint SweepOnce (entries : list Entry) (now : Time) : list ExpiryTransition :=
  match entries with
  | [] => []
  | e :: rest =>
      if Status_IsTerminal (ent_Status e) then SweepOnce rest now
      else match checkExpiry e now with
           | Some t => t :: SweepOnce rest now
           | None => SweepOnce rest now
           end
  end.

(** ** The status machine *)

Lemma CmdStatusOther_invalid n : Status_Valid (StatusOther n) = false.
Proof.
  unfold Status_Valid; cbn. destruct (n =? 0)%N eqn:Hn; [done|].
  apply N.eqb_neq in Hn. apply andb_false_iff. right. apply Z.leb_gt. lia.
Qed.

#[global] Program Instance command_TransitionSystem : TransitionSystem Status := {
  ts_table := statusTransitions;
  ts_valid := Status_Valid;
  ts_terminal := Status_IsTerminal;
}.
Next Obligation. intros [] []; vm_compute; done. Qed.
Next Obligation.
  intros [| | | | | | |n] Hv; try (vm_compute; naive_solver).
  by rewrite CmdStatusOther_invalid in Hv.
Qed.

Definition Status_rank (s : Status) : nat :=
  match s with
  | StatusPending | StatusOther _ => 0 | StatusSent => 1 | StatusDelivered => 2 | _ => 3
  end%nat.

#[global] Program Instance command_RankedSystem : RankedSystem Status := {
  ts_rank := Status_rank;
  ts_max_rank := 3%nat;
}.
Next Obligation. intros []; vm_compute; lia. Qed.
Next Obligation. intros [] []; vm_compute; first [discriminate|lia]. Qed.

Lemma terminal_no_transition s to : Status_IsTerminal s = true → CanTransitionTo s to = false.
Proof. by destruct s, to. Qed.

Lemma expiry_always_legal s :
  Status_Valid s = true → Status_IsTerminal s = false → CanTransitionTo s StatusExpired = true.
Proof.
  destruct s as [| | | | | | |n]; try done. by rewrite CmdStatusOther_invalid.
Qed.

(** ** Well-formed entries *)

(** Which timestamps an entry carries in each status. *)
Definition stamps_ok (e : Entry) : Prop :=
  match ent_Status e with
  | StatusPending => SentAt e = None ∧ DeliveredAt e = None ∧ CompletedAt e = None
  | StatusSent => is_Some (SentAt e) ∧ DeliveredAt e = None ∧ CompletedAt e = None
  | StatusDelivered => is_Some (SentAt e) ∧ is_Some (DeliveredAt e) ∧ CompletedAt e = None
  | StatusSucceeded => is_Some (SentAt e) ∧ is_Some (CompletedAt e)
  | StatusFailed | StatusExpired | StatusCanceled =>
      is_Some (CompletedAt e) ∧ (is_Some (DeliveredAt e) → is_Some (SentAt e))
  | StatusOther _ => False
  end.

Lemma stamps_ok_valid e : stamps_ok e → Status_Valid (ent_Status e) = true.
Proof. unfold stamps_ok. by destruct (ent_Status e). Qed.

(** On a well-formed entry the table alone decides: the guards on [SentAt]
    never fire. *)
Lemma AdvanceCommand_Ok e to now :
  stamps_ok e →
  is_ok (AdvanceCommand (Some e) to now) = CanTransitionTo (ent_Status e) to.
Proof.
  intros Hs. unfold AdvanceCommand, Transition, stamps_ok in *.
  destruct e as [? ? ? ? s ? ? ? ? sa da ca]; cbn in *.
  destruct s, to; cbn; try done; destruct sa; try done; by destruct Hs as (? & ? & ?).
Qed.

Lemma AdvanceCommand_frame e to now e' :
  AdvanceCommand (Some e) to now = Ok e' →
  ent_Status e' = to ∧ CanTransitionTo (ent_Status e) to = true ∧
  ID e' = ID e ∧ DeviceID e' = DeviceID e ∧ CommandType e' = CommandType e ∧
  Payload e' = Payload e ∧ Metadata e' = Metadata e ∧ ent_Timeouts e' = ent_Timeouts e ∧
  CreatedAt e' = CreatedAt e ∧
  Attempt e' = (if bool_decide (to = StatusSent) then wrap64 (Attempt e + 1) else Attempt e) ∧
  SentAt e' = (if bool_decide (to = StatusSent) then Some now else SentAt e).
Proof.
  unfold AdvanceCommand, Transition. intros H.
  case_bool_decide; [done|]. destruct (CanTransitionTo (ent_Status e) to) eqn:Hc; [|done].
  destruct to; cbn in H; repeat case_match; simplify_eq; cbn; done.
Qed.

Lemma AdvanceCommand_stamps e to now e' :
  stamps_ok e → AdvanceCommand (Some e) to now = Ok e' → stamps_ok e'.
Proof.
  intros Hs H. pose proof (AdvanceCommand_frame _ _ _ _ H) as (_ & Hc & _).
  unfold AdvanceCommand, Transition, stamps_ok in *.
  destruct e as [? ? ? ? s ? ? ? ? sa da ca]; cbn in *.
  destruct s, to; cbn in Hc, H; try discriminate; repeat case_match; simplify_eq; cbn;
    destruct_and?; subst; naive_solver.
Qed.

Lemma ResetForRetry_frame e e' :
  ResetForRetry (Some e) = Ok e' →
  (ent_Status e = StatusSent ∨ ent_Status e = StatusFailed) ∧
  e' = moved e StatusPending (Attempt e) None None None.
Proof. unfold ResetForRetry. intros H. repeat case_match; naive_solver. Qed.

(** ** A command's life: any sequence of transition requests and retries *)

Inductive cmd_op : Type := OpAdvance (to : Status) (now : Time) | OpReset.

Definition apply_op (e : Entry) (op : cmd_op) : outcome Entry :=
  match op with
  | OpAdvance to now => AdvanceCommand (Some e) to now
  | OpReset => ResetForRetry (Some e)
  end.

(** A refused request leaves the entry as it was. *)
Definition cmd_exec (e : Entry) (op : cmd_op) : Entry :=
  match apply_op e op with Ok e' => e' | Err _ => e end.

(** What the table and the retry rule allow in a status. *)
Definition allowed (s : Status) (op : cmd_op) : bool :=
  match op with
  | OpAdvance to _ => CanTransitionTo s to
  | OpReset => bool_decide (s = StatusSent ∨ s = StatusFailed)
  end.

Definition is_send (s : Status) (op : cmd_op) : bool :=
  match op with
  | OpAdvance to _ => bool_decide (to = StatusSent) && CanTransitionTo s to
  | OpReset => false
  end.

(** How often a life sends the command. *)
Fixpoint sends (e : Entry) (ops : list cmd_op) : Z :=
  match ops with
  | [] => 0
  | op :: rest => (if is_send (ent_Status e) op then 1 else 0) + sends (cmd_exec e op) rest
  end.

Lemma apply_op_allowed e op :
  stamps_ok e → is_ok (apply_op e op) = allowed (ent_Status e) op.
Proof.
  intros Hs. destruct op as [to now|]; cbn; [by apply AdvanceCommand_Ok|].
  destruct e as [? ? ? ? [] ? ? ? ? ? ? ?]; cbn; done.
Qed.

Lemma cmd_exec_spec e op :
  stamps_ok e → 0 ≤ Attempt e < MaxInt64 →
  stamps_ok (cmd_exec e op) ∧
  Attempt (cmd_exec e op) = Attempt e + (if is_send (ent_Status e) op then 1 else 0) ∧
  ID (cmd_exec e op) = ID e ∧ DeviceID (cmd_exec e op) = DeviceID e ∧
  Payload (cmd_exec e op) = Payload e ∧ CreatedAt (cmd_exec e op) = CreatedAt e.
Proof.
  intros Hs Ha. pose proof (apply_op_allowed e op Hs) as Hok. unfold cmd_exec.
  destruct (apply_op e op) as [e'|] eqn:Hop; cbn in Hok.
  - destruct op as [to now|]; cbn in Hop.
    + pose proof (AdvanceCommand_stamps _ _ _ _ Hs Hop).
      apply AdvanceCommand_frame in Hop as (_ & Hc & ? & ? & _ & ? & _ & _ & ? & Hat & _).
      cbn. rewrite Hc, Hat, andb_true_r.
      case_bool_decide; rewrite ?wrap64_id by (unfold int64_range, MinInt64; lia); repeat split; try done; lia.
    + apply ResetForRetry_frame in Hop as [_ ->]. cbn. repeat split; try done; lia.
  - repeat split; try done. destruct op as [to now|]; cbn in *; [|lia].
    rewrite <- Hok, andb_false_r. lia.
Qed.

Lemma sends_bound ops : ∀ e, 0 ≤ sends e ops ≤ Z.of_nat (length ops).
Proof.
  induction ops as [|op ops IH]; intros e; cbn [sends length]; [lia|].
  specialize (IH (cmd_exec e op)). destruct (is_send _ _); lia.
Qed.

Lemma life_spec ops : ∀ e,
  stamps_ok e → 0 ≤ Attempt e → Attempt e + Z.of_nat (length ops) ≤ MaxInt64 →
  let e' := foldl cmd_exec e ops in
  stamps_ok e' ∧ Attempt e' = Attempt e + sends e ops ∧
  ID e' = ID e ∧ DeviceID e' = DeviceID e ∧ Payload e' = Payload e ∧ CreatedAt e' = CreatedAt e.
Proof.
  induction ops as [|op ops IH]; intros e Hs Ha Hl; cbn [foldl sends length] in *.
  { repeat split; try done. lia. }
  destruct (cmd_exec_spec e op Hs ltac:(lia)) as (Hs' & Ha' & ? & ? & ? & ?).
  destruct (IH (cmd_exec e op) Hs') as (? & ? & ? & ? & ? & ?);
    [destruct (is_send _ _); lia..|].
  repeat split; try congruence. lia.
Qed.

(** the life of a command.  From [NewEntry] on, under any sequence of
    transition and retry requests at any clock readings, the entry carries
    exactly the timestamps its status calls for, [Attempt] counts the
    transmissions, identity, payload and creation time never change, and a
    request is accepted if and only if the transition table (or the retry rule)
    allows it: the additional guards on [SentAt] never refuse anything. *)
Theorem command_lifecycle id device ty payload tmo t0 ops :
  Z.of_nat (length ops) ≤ MaxInt64 →
  let e0 := NewEntry id device ty payload tmo t0 in
  let e := foldl cmd_exec e0 ops in
  stamps_ok e ∧ Attempt e = sends e0 ops ∧
  ID e = id ∧ DeviceID e = device ∧ Payload e = payload ∧ CreatedAt e = t0 ∧
  ∀ op, is_ok (apply_op e op) = allowed (ent_Status e) op.
Proof.
  intros Hl e0 e. destruct (life_spec ops e0) as (Hs & Ha & ? & ? & ? & ?); [done|done|cbn; lia|].
  split_and!; try done. intros op. by apply apply_op_allowed.
Qed.

Lemma command_lifecycle_witness :
  let e0 := NewEntry "c1" "d1" "reboot" "x" (MkTimeouts 5 10 0) 100 in
  let ops := [OpAdvance StatusSent 101; OpAdvance StatusSent 102; OpReset; OpAdvance StatusSent 90;
              OpAdvance StatusDelivered 91; OpReset; OpAdvance StatusSucceeded 92] in
  sends e0 ops = 2 ∧ Attempt (foldl cmd_exec e0 ops) = 2 ∧
  ent_Status (foldl cmd_exec e0 ops) = StatusSucceeded.
Proof.
  intros e0 ops. split; [vm_compute; reflexivity|]. split; [|vm_compute; reflexivity].
  destruct (command_lifecycle "c1" "d1" "reboot" "x" (MkTimeouts 5 10 0) 100 ops)
    as (_ & Ha & _); [vm_compute; discriminate|].
  etransitivity; [exact Ha|vm_compute; reflexivity].
Defined.

(** ** The sweep *)

Lemma checkExpiry_Some e now t :
  checkExpiry e now = Some t →
  CommandID t = ID e ∧ From t = ent_Status e ∧ To t = StatusExpired ∧
  ∃ ph, elapsed e ph now = true.
Proof. unfold checkExpiry. intros H. repeat case_match; simplify_eq; cbn; eauto 6. Qed.

Lemma checkExpiry_None e now :
  checkExpiry e now = None ↔ ∀ ph, elapsed e ph now = false.
Proof.
  unfold checkExpiry. split.
  - intros H ph. repeat case_match; try done. destruct ph; done.
  - intros H. by rewrite !H.
Qed.

Lemma SweepOnce_elem es now t :
  t ∈ SweepOnce es now ↔
  ∃ e, e ∈ es ∧ Status_IsTerminal (ent_Status e) = false ∧ checkExpiry e now = Some t.
Proof.
  induction es as [|e es IH]; cbn [SweepOnce].
  { split; [by intros ?%elem_of_nil|by intros (? & ?%elem_of_nil & _)]. }
  transitivity ((Status_IsTerminal (ent_Status e) = false ∧ checkExpiry e now = Some t) ∨
                t ∈ SweepOnce es now).
  - destruct (Status_IsTerminal (ent_Status e)); [intuition discriminate|].
    destruct (checkExpiry e now) as [t'|]; [rewrite elem_of_cons|]; intuition congruence.
  - rewrite IH. split.
    + intros [[? ?]|(e' & ? & ? & ?)]; [exists e|exists e']; rewrite elem_of_cons; auto.
    + intros (e' & [->|?]%elem_of_cons & ? & ?); [by left|right; eauto].
Qed.

Lemma SweepOnce_sublist es now : (CommandID <$> SweepOnce es now) `sublist_of` (ID <$> es).
Proof.
  induction es as [|e es IH]; cbn [SweepOnce fmap list_fmap]; [done|].
  repeat case_match; [by apply sublist_cons| |by apply sublist_cons].
  cbn. destruct (checkExpiry_Some _ _ _ ltac:(eassumption)) as (-> & _). by apply sublist_skip.
Qed.
