(* ===== verification/CommandQueue.v ===== *)
(** * kernel/command/commandtest: the in-memory command queue, and the sweeper

    [InMemQueue] is the map of entries, the map of leases and the store of
    metadata maps it shares with its callers ([Enqueue] writes the idempotency
    key into the caller's own map).  The order in which Go ranges over the entry
    map is an argument ([visit]) of the operations whose result depends on it;
    the clock and the random bytes of generated IDs are arguments too.  Each
    method holds the mutex for its whole effect, so a concurrent history is a
    sequence of these operations. *)

From Stdlib Require Import Ascii.
From S2P Require Import Prelude IdUtil Fsm Command.

(** ** State *)

Record InMemQueue := MkQueue {
  entries : gmap string Entry;
  leases : gmap string Time;
  maps : gmap positive (gmap string string);
}.

Definition NewInMemQueue : InMemQueue := MkQueue ∅ ∅ ∅.

Record EnqueueOptions := MkOptions {
  IdempotencyKey : string;
  Authz : option (outcome unit);   (* nil, or what the hook answers *)
  MaxPendingPerDevice : Z;
}.

Record ScanFilter := MkFilter {
  flt_DeviceID : string;
  flt_Statuses : list Status;
}.

Definition ErrCommandNotFound : string := "ERR_COMMAND_NOT_FOUND".
Definition errNotFound : goerror :=
  Errcode KindNotFound ErrCommandNotFound "commandtest: command not found".

Definition keyMeta : string := "_idempotency_key".

Definition put (q : InMemQueue) (id : string) (e : Entry) : InMemQueue :=
  MkQueue (<[id := e]> (entries q)) (leases q) (maps q).

Definition with_maps (q : InMemQueue) (h : gmap positive (gmap string string)) : InMemQueue :=
  MkQueue (entries q) (leases q) h.

Definition with_ID (e : Entry) (id : string) : Entry :=
  MkEntry id (DeviceID e) (CommandType e) (Payload e) (ent_Status e) (Metadata e)
    (ent_Timeouts e) (Attempt e) (CreatedAt e) (SentAt e) (DeliveredAt e) (CompletedAt e).

Definition with_meta (e : Entry) (m : option positive) : Entry :=
  MkEntry (ID e) (DeviceID e) (CommandType e) (Payload e) (ent_Status e) m
    (ent_Timeouts e) (Attempt e) (CreatedAt e) (SentAt e) (DeliveredAt e) (CompletedAt e).

(** ** Enqueue *)

Definition newID (entropy : list Z) : outcome string :=
  if bool_decide (length entropy = 16%nat) then Ok (hex_bytes entropy)
  else Err (Errorf "commandtest: generate ID" (ErrorsNew "unexpected EOF")).

(** [entry.Metadata["_idempotency_key"] = key], on a new map if it was nil. *)
Definition stamp_key (h : gmap positive (gmap string string)) (e : Entry) (key : string)
  : Entry * gmap positive (gmap string string) :=
  if key ==s "" then (e, h)
  else match Metadata e with
       | Some l => (e, <[l := <[keyMeta := key]> (meta h (Some l))]> h)
       | None => let l := fresh (dom h) in
                 (with_meta e (Some l), <[l := {[keyMeta := key]}]> h)
       end.

(** The key an entry carries; a missing one reads as the empty string. *)
Definition entry_key (h : gmap positive (gmap string string)) (e : Entry) : string :=
  default "" (meta h (Metadata e) !! keyMeta).

Definition holds_key (h : gmap positive (gmap string string)) (key : string) (e : Entry) : bool :=
  negb (Status_IsTerminal (ent_Status e)) && (bool_decide (is_Some (Metadata e)) &&
  (entry_key h e ==s key)).

Definition hasActiveKey (q : InMemQueue) (key : string) : bool :=
  existsb (λ kv, holds_key (maps q) key kv.2) (map_to_list (entries q)).

Definition is_pending_for (deviceID : string) (e : Entry) : bool :=
  (DeviceID e ==s deviceID) && bool_decide (ent_Status e = StatusPending).

Definition countPendingForDevice (q : InMemQueue) (deviceID : string) : Z :=
  Z.of_nat (length (filter (λ kv, is_pending_for deviceID kv.2 = true) (map_to_list (entries q)))).

Definition storeIfNotDup (q : InMemQueue) (entry : Entry) (idempotencyKey : string)
    (maxPending : Z) : outcome unit * InMemQueue :=
  if negb (idempotencyKey ==s "") && hasActiveKey q idempotencyKey then (Ok tt, q)
  else match entries q !! ID entry with
       | Some _ => (Err (Errcode KindConflict ErrConflict "commandtest: command already exists"), q)
       | None =>
           if (maxPending >? 0) && (countPendingForDevice q (DeviceID entry) >=? maxPending)
           then (Err (Errcode KindRateLimited ErrRateLimited
                        "per-device pending command limit exceeded"), q)
           else (Ok tt, put q (ID entry) entry)
       end.

Definition Enqueue (q : InMemQueue) (entropy : list Z) (entry : Entry) (opts : EnqueueOptions)
  : outcome unit * InMemQueue :=
  match Authz opts with
  | Some (Err e) => (Err (Errorf "commandtest: authz rejected" e), q)
  | _ =>
      match (if ID entry ==s "" then newID entropy else Ok (ID entry)) with
      | Err e => (Err e, q)
      | Ok id =>
          let '(entry, h) := stamp_key (maps q) (with_ID entry id) (IdempotencyKey opts) in
          let q := with_maps q h in
          match ValidateNew h entry with
          | Err e => (Err e, q)
          | Ok _ => storeIfNotDup q entry (IdempotencyKey opts) (MaxPendingPerDevice opts)
          end
      end
  end.

(** ** Reads: internal keys are stripped from what callers see *)

Definition is_public (k : string) : bool :=
  match k with EmptyString => true | String c _ => negb (bool_decide (c = "_"%char)) end.

Definition stripInternalMetaKeys (h : gmap positive (gmap string string)) (e : Entry)
  : Entry * gmap positive (gmap string string) :=
  if bool_decide (meta h (Metadata e) = ∅) then (e, h)
  else
    let stripped := filter (λ kv, is_public kv.1 = true) (meta h (Metadata e)) in
    if bool_decide (stripped = ∅) then (with_meta e None, h)
    else let l := fresh (dom h) in (with_meta e (Some l), <[l := stripped]> h).

Definition buildStatusAllowlist (statuses : list Status) : option (list Status) :=
  match statuses with
  | [] => None
  | _ => Some (filter (λ s, Status_IsTerminal s = false) statuses)
  end.

Definition wanted (filter : ScanFilter) (e : Entry) : bool :=
  negb (Status_IsTerminal (ent_Status e)) &&
  ((flt_DeviceID filter ==s "") || (DeviceID e ==s flt_DeviceID filter)) &&
  match buildStatusAllowlist (flt_Statuses filter) with
  | None => true
  | Some l => bool_decide (ent_Status e ∈ l)
  end.

Definition created_less (a b : Entry) : bool := Before (CreatedAt a) (CreatedAt b).

(** Appends the stripped copy of each matching entry; every copy may allocate. *)
Fixpoint scan_loop (flt : ScanFilter) (es : list (string * Entry))
    (h : gmap positive (gmap string string)) : list Entry * gmap positive (gmap string string) :=
  match es with
  | [] => ([], h)
  | (_, e) :: rest =>
      if wanted flt e then
        let '(c, h) := stripInternalMetaKeys h e in
        let '(cs, h) := scan_loop flt rest h in (c :: cs, h)
      else scan_loop flt rest h
  end.

Section ops.
(** The order in which [range q.entries] visits the map. *)
Context (visit : list (string * Entry) → list (string * Entry)).

Definition ScanActive (q : InMemQueue) (filter : ScanFilter) : outcome (list Entry) * InMemQueue :=
  let '(result, h) := scan_loop filter (visit (map_to_list (entries q))) (maps q) in
  (Ok (sort_Slice created_less result), with_maps q h).

(** The loop over the selected entries: a command that cannot be advanced is
    skipped. *)
Fixpoint dequeue_loop (pending : list (string * Entry)) (now : Time) (leaseDuration : Duration)
    (q : InMemQueue) : list Entry * InMemQueue :=
  match pending with
  | [] => ([], q)
  | (k, e) :: rest =>
      match AdvanceCommand (Some e) StatusSent now with
      | Err _ => dequeue_loop rest now leaseDuration q
      | Ok e' =>
          let '(c, h) := stripInternalMetaKeys (maps q) e' in
          let q := MkQueue (<[k := e']> (entries q)) (<[ID e' := now + leaseDuration]> (leases q)) h in
          let '(cs, q) := dequeue_loop rest now leaseDuration q in (c :: cs, q)
      end
  end.

Definition DefaultLeaseDuration : Duration := 5 * Minute.

(** [None] is the panic of [pending[:n]] for a negative [n]. *)
Definition Dequeue (q : InMemQueue) (now : Time) (targetID : string) (n : Z)
    (leaseDuration : Duration) : option (outcome (list Entry) * InMemQueue) :=
  let leaseDuration := if leaseDuration <=? 0 then DefaultLeaseDuration else leaseDuration in
  let pending :=
    sort_Slice (λ a b, created_less a.2 b.2)
      (filter (λ kv, is_pending_for targetID kv.2 = true) (visit (map_to_list (entries q)))) in
  let n := if n >? Z.of_nat (length pending) then Z.of_nat (length pending) else n in
  selected ← go_slice pending 0 n;
  let '(result, q) := dequeue_loop selected now leaseDuration q in
  Some (Ok result, q).
End ops.

Definition GetCommand (q : InMemQueue) (id : string) : outcome Entry * InMemQueue :=
  match entries q !! id with
  | None => (Err errNotFound, q)
  | Some e => let '(c, h) := stripInternalMetaKeys (maps q) e in (Ok c, with_maps q h)
  end.

(** ** Transitions of one command *)

Definition Report (q : InMemQueue) (commandID : string) (now : Time) : outcome unit * InMemQueue :=
  match entries q !! commandID with
  | None => (Err errNotFound, q)
  | Some e =>
      if bool_decide (ent_Status e = StatusDelivered) then (Ok tt, q)
      else match AdvanceCommand (Some e) StatusDelivered now with
           | Err err => (Err (Errorf "commandtest: report" err), q)
           | Ok e' => (Ok tt, put q commandID e')
           end
  end.

Definition drop_lease (q : InMemQueue) (id : string) : InMemQueue :=
  MkQueue (entries q) (delete id (leases q)) (maps q).

Definition Ack (q : InMemQueue) (commandID : string) (reason : AckReason) (now : Time)
  : outcome unit * InMemQueue :=
  if negb (AckReason_Valid reason) then (Err (invalid "commandtest: invalid AckReason"), q)
  else match entries q !! commandID with
       | None => (Err errNotFound, q)
       | Some e =>
           let target := TargetStatus reason in
           if Status_IsTerminal (ent_Status e) then
             if bool_decide (ent_Status e = target) then (Ok tt, q)
             else (Err (invalid ("commandtest: command already terminal with status "
                     ++ Status_String (ent_Status e) ++ "; cannot ack as " ++ Status_String target)), q)
           else
             let q := drop_lease q commandID in
             match AdvanceCommand (Some e) target now with
             | Err err => (Err (Errorf ("commandtest: advance to " ++ Status_String target) err), q)
             | Ok e' => (Ok tt, put q commandID e')
             end
       end.

Definition ExtendLease (q : InMemQueue) (commandID : string) (extension : Duration) (now : Time)
  : outcome unit * InMemQueue :=
  match entries q !! commandID with
  | None => (Err errNotFound, q)
  | Some _ =>
      let refused := (Err (invalid ("commandtest: lease expired or not acquired for command: "
                                    ++ commandID)), q) in
      match leases q !! commandID with
      | None => refused
      | Some expiry =>
          if After now expiry then refused
          else (Ok tt, MkQueue (entries q) (<[commandID := now + extension]> (leases q)) (maps q))
      end
  end.

Definition Cancel (q : InMemQueue) (commandID : string) (now : Time) : outcome unit * InMemQueue :=
  match entries q !! commandID with
  | None => (Err errNotFound, q)
  | Some e =>
      match AdvanceCommand (Some e) StatusCanceled now with
      | Err err => (Err (Errorf "commandtest: cancel" err), q)
      | Ok e' => (Ok tt, drop_lease (put q commandID e') commandID)
      end
  end.

(** Seeds an entry without validation (test fixtures). *)
Definition WriteCommand (q : InMemQueue) (entry : Entry) : outcome unit * InMemQueue :=
  (Ok tt, put q (ID entry) entry).

(** ** Histories

    A [client] says what the callers of the queue may do: which entries they
    may enqueue, which metadata maps they may write (the maps are theirs too), and
    which entries they may seed.  Every method of [InMemQueue] is a step, labelled
    with the IDs of the commands it hands out; panics and refusals change nothing.
    [WriteCommand] is for seeding fixtures and checks nothing, so a step seeds only
    what [Enqueue] could have stored: a valid new entry under a free ID. *)

Record client := MkClient {
  may_enqueue : InMemQueue → Entry → EnqueueOptions → Prop;
  may_write : InMemQueue → positive → Prop;
  may_seed : InMemQueue → Entry → Prop;
}.

Definition any_client : client := MkClient (λ _ _ _, True) (λ _ _, True) (λ _ _, True).

(** A Go map value is nil or refers to an existing map. *)
Definition live (h : gmap positive (gmap string string)) (e : Entry) : Prop :=
  match Metadata e with Some l => l ∈ dom h | None => True end.

Definition fair (visit : list (string * Entry) → list (string * Entry)) : Prop :=
  ∀ l, visit l ≡ₚ l.

Definition seeds (q : InMemQueue) (e : Entry) : Prop :=
  entries q !! ID e = None ∧ ValidateNew (maps q) e = Ok tt.

Inductive lstep (c : client) : InMemQueue → list string → InMemQueue → Prop :=
  | call_Enqueue q en e o : live (maps q) e → may_enqueue c q e o → lstep c q [] (Enqueue q en e o).2
  | call_Dequeue q visit now dev n d cs q' :
      fair visit → Dequeue visit q now dev n d = Some (Ok cs, q') → lstep c q (ID <$> cs) q'
  | call_Report q id now : lstep c q [] (Report q id now).2
  | call_Ack q id reason now : lstep c q [] (Ack q id reason now).2
  | call_ExtendLease q id ext now : lstep c q [] (ExtendLease q id ext now).2
  | call_Cancel q id now : lstep c q [] (Cancel q id now).2
  | call_ScanActive q visit flt : fair visit → lstep c q [] (ScanActive visit q flt).2
  | call_GetCommand q id : lstep c q [] (GetCommand q id).2
  | call_WriteCommand q e :
      live (maps q) e → seeds q e → may_seed c q e → lstep c q [] (WriteCommand q e).2
  | call_write q l m : may_write c q l → lstep c q [] (with_maps q (<[l := m]> (maps q))).

Definition step (c : client) (q q' : InMemQueue) : Prop := ∃ out, lstep c q out q'.

Lemma step_Enqueue c q en e o : live (maps q) e → may_enqueue c q e o → step c q (Enqueue q en e o).2.
Proof. intros. eexists. by apply call_Enqueue. Qed.

Lemma step_Dequeue c q visit now dev n d cs q' :
  fair visit → Dequeue visit q now dev n d = Some (Ok cs, q') → step c q q'.
Proof. intros. eexists. by eapply call_Dequeue. Qed.

Definition queue_reachable (c : client) (q : InMemQueue) : Prop := rtc (step c) NewInMemQueue q.

(** A history, with the IDs handed out in it, in order. *)
Inductive served (c : client) : InMemQueue → list string → InMemQueue → Prop :=
  | served_nil q : served c q [] q
  | served_cons q out q1 outs q2 : lstep c q out q1 → served c q1 outs q2 → served c q (out ++ outs) q2.

Lemma served_steps c q outs q' : served c q outs q' → rtc (step c) q q'.
Proof. induction 1; [done|]. eapply rtc_l; [|done]. by eexists. Qed.

Definition occurrences (id : string) (outs : list string) : nat := length (filter (λ x, x = id) outs).

(** *** What each method can do to the two maps *)

Definition in_flight (s : Status) : bool :=
  bool_decide (s = StatusSent ∨ s = StatusDelivered).

(** What every method but [Enqueue] does, once or repeatedly: allocate copies,
    renew leases, or move one command by a legal transition. *)
Inductive quiet (q : InMemQueue) : InMemQueue → Prop :=
  | quiet_none h L :
      maps q ⊆ h → (∀ i, is_Some (L !! i) ↔ is_Some (leases q !! i)) →
      quiet q (MkQueue (entries q) L h)
  | quiet_one id e to now e' L h :
      entries q !! id = Some e → AdvanceCommand (Some e) to now = Ok e' →
      maps q ⊆ h → (∀ i, i ≠ id → L !! i = leases q !! i) →
      (is_Some (L !! id) ↔ if bool_decide (to = StatusDelivered)
                           then is_Some (leases q !! id) else to = StatusSent) →
      quiet q (MkQueue (<[id := e']> (entries q)) L h).

Inductive moves (q : InMemQueue) : InMemQueue → Prop :=
  | moves_quiet q' : quiet q q' → moves q q'
  | moves_write l m : moves q (with_maps q (<[l := m]> (maps q)))
  | moves_new e h :
      dom (maps q) ⊆ dom h → live h e → ValidateNew h e = Ok tt → entries q !! ID e = None →
      moves q (MkQueue (<[ID e := e]> (entries q)) (leases q) h).

Lemma queue_eta q : q = MkQueue (entries q) (leases q) (maps q).
Proof. by destruct q. Qed.

Lemma quiet_same q : quiet q q.
Proof. rewrite (queue_eta q) at 2. by constructor. Qed.

Lemma stamp_key_spec h e key : live h e →
  let '(e', h') := stamp_key h e key in
  e' = with_meta e (Metadata e') ∧ live h' e' ∧ dom h ⊆ dom h' ∧
  (key = "" ∧ e' = e ∧ h' = h ∨
   key ≠ "" ∧ ∃ l m, Metadata e' = Some l ∧ h' = <[l := m]> h ∧ m !! keyMeta = Some key ∧
                     (Metadata e = Some l ∨ l ∉ dom h)).
Proof.
  intros Hl. unfold stamp_key, live in *. destruct (key ==s "") eqn:Hk; bools.
  { split_and!; [by destruct e|done..|by left]. }
  destruct (Metadata e) as [l|] eqn:Hm; cbn.
  - split_and!; [destruct e; cbn in *; by subst|rewrite ?Hm; set_solver..|].
    right. split; [done|]. eexists l, _. split_and!; [done..| |by left]. by rewrite lookup_insert_eq.
  - split_and!; [done|set_solver..|]. right. split; [done|].
    eexists _, _. split_and!; [done..| |right; apply is_fresh]. by rewrite lookup_insert_eq.
Qed.

(** What [Enqueue] leaves behind: nothing at all, the key written into the
    caller's map, or a new validated entry stored under a free ID. *)
Lemma queue_Enqueue_cases q en e o : live (maps q) e →
  let q' := (Enqueue q en e o).2 in
  q' = q ∨ ∃ id e1 h, stamp_key (maps q) (with_ID e id) (IdempotencyKey o) = (e1, h) ∧
    (q' = with_maps q h ∨
     ValidateNew h e1 = Ok tt ∧ entries q !! ID e1 = None ∧
     negb (IdempotencyKey o ==s "") && hasActiveKey (with_maps q h) (IdempotencyKey o) = false ∧
     (0 < MaxPendingPerDevice o → countPendingForDevice q (DeviceID e1) < MaxPendingPerDevice o) ∧
     q' = MkQueue (<[ID e1 := e1]> (entries q)) (leases q) h).
Proof.
  intros Hlive. unfold Enqueue.
  assert (∀ id, let q' := (let '(e1, h) := stamp_key (maps q) (with_ID e id) (IdempotencyKey o) in
    match ValidateNew h e1 with
    | Err err => (Err err, with_maps q h)
    | Ok _ => storeIfNotDup (with_maps q h) e1 (IdempotencyKey o) (MaxPendingPerDevice o)
    end).2 in ∃ e1 h, stamp_key (maps q) (with_ID e id) (IdempotencyKey o) = (e1, h) ∧
    (q' = with_maps q h ∨
     ValidateNew h e1 = Ok tt ∧ entries q !! ID e1 = None ∧
     negb (IdempotencyKey o ==s "") && hasActiveKey (with_maps q h) (IdempotencyKey o) = false ∧
     (0 < MaxPendingPerDevice o → countPendingForDevice q (DeviceID e1) < MaxPendingPerDevice o) ∧
     q' = MkQueue (<[ID e1 := e1]> (entries q)) (leases q) h)) as Hgo.
  { intros id. destruct (stamp_key _ _ _) as [e1 h]. exists e1, h. split; [done|].
    destruct (ValidateNew h e1) as [[]|] eqn:Hv; [|by left].
    unfold storeIfNotDup; cbn. destruct (_ && hasActiveKey _ _) eqn:Hk; [by left|].
    destruct (entries q !! ID e1) eqn:Hl; [by left|].
    destruct ((_ >? _) && (_ >=? _)) eqn:Hcap; [by left|]. right.
    change (countPendingForDevice (with_maps q h)) with (countPendingForDevice q) in Hcap.
    split_and!; try done. intros Hpos. apply Z.nle_gt. intros Hle.
    destruct (MaxPendingPerDevice o >? 0) eqn:?; [|lia].
    destruct (countPendingForDevice q (DeviceID e1) >=? MaxPendingPerDevice o) eqn:?; [done|lia]. }
  cbn zeta in *. destruct (Authz o) as [[[]|]|]; [|by left|];
    (destruct (if ID e ==s "" then _ else _) as [id|]; [right; exists id; apply Hgo|by left]).
Qed.

Lemma Enqueue_moves q en e o : live (maps q) e → moves q (Enqueue q en e o).2.
Proof.
  intros Hlive. destruct (queue_Enqueue_cases q en e o Hlive) as [->|(id & e1 & h & Hs & Hc)].
  { apply moves_quiet, quiet_same. }
  pose proof (stamp_key_spec (maps q) (with_ID e id) (IdempotencyKey o) Hlive) as Hk.
  rewrite Hs in Hk. destruct Hk as (_ & Hl1 & Hd & Hw).
  destruct Hc as [->|(Hv & Hn & _ & _ & ->)]; [|by apply moves_new].
  destruct Hw as [(_ & _ & ->)|(_ & l & m & _ & -> & _)]; [|apply moves_write].
  apply moves_quiet, (quiet_none q); done.
Qed.

Lemma Report_quiet q id now : quiet q (Report q id now).2.
Proof.
  unfold Report. destruct (entries q !! id) as [e|] eqn:Hl; [|apply quiet_same].
  case_bool_decide; [apply quiet_same|].
  destruct (AdvanceCommand _ _ _) as [e'|] eqn:Ha; [|apply quiet_same].
  by eapply quiet_one; [..|rewrite bool_decide_true].
Qed.

Lemma Cancel_quiet q id now : quiet q (Cancel q id now).2.
Proof.
  unfold Cancel. destruct (entries q !! id) as [e|] eqn:Hl; [|apply quiet_same].
  destruct (AdvanceCommand _ _ _) as [e'|] eqn:Ha; [|apply quiet_same].
  eapply quiet_one; [done..| |]; cbn.
  - intros i Hi. by rewrite lookup_delete_ne.
  - rewrite lookup_delete_eq. by split; [intros []|].
Qed.

Lemma ExtendLease_quiet q id ext now : quiet q (ExtendLease q id ext now).2.
Proof.
  unfold ExtendLease. destruct (entries q !! id) as [e|]; [|apply quiet_same].
  destruct (leases q !! id) as [x|] eqn:Hl; [|apply quiet_same].
  destruct (After now x); [apply quiet_same|]. apply (quiet_none q); [done|]. intros i.
  destruct (decide (i = id)) as [->|]; [rewrite lookup_insert_eq, Hl|rewrite lookup_insert_ne by done];
    split; intros; eauto.
Qed.

(** *** The invariant *)

Record queue_inv (q : InMemQueue) : Prop := {
  qi_live id e : entries q !! id = Some e → live (maps q) e;
  qi_entry id e : entries q !! id = Some e → ID e = id ∧ stamps_ok e ∧
    Attempt e = (if SentAt e is Some _ then 1 else 0);
  qi_lease id : is_Some (leases q !! id) ↔
    ∃ e, entries q !! id = Some e ∧ in_flight (ent_Status e) = true;
}.

Lemma Ack_quiet q id reason now : queue_inv q → quiet q (Ack q id reason now).2.
Proof.
  intros Hq. unfold Ack. destruct (negb _) eqn:Hr; [apply quiet_same|].
  destruct (entries q !! id) as [e|] eqn:Hl; [|apply quiet_same].
  destruct (Status_IsTerminal (ent_Status e)) eqn:Ht; [case_bool_decide; apply quiet_same|].
  destruct (AdvanceCommand _ _ _) as [e'|] eqn:Ha.
  - eapply (quiet_one q); [done..| |]; cbn.
    + intros i Hi. by rewrite lookup_delete_ne.
    + rewrite lookup_delete_eq. destruct reason; cbn; (split; [by intros []|done]).
  - apply (quiet_none q); [done|]. intros i.
    destruct (decide (i = id)) as [->|]; [|by rewrite lookup_delete_ne].
    rewrite lookup_delete_eq, (qi_lease _ Hq), Hl. split; [by intros []|intros (? & [= <-] & Hf)].
    destruct (qi_entry _ Hq _ _ Hl) as (_ & Hs & _).
    pose proof (AdvanceCommand_Ok e (TargetStatus reason) now Hs) as Hc. rewrite Ha in Hc.
    exfalso. revert Hf Hc Hr. destruct (ent_Status e), reason; cbn; done.
Qed.

Lemma ValidateNew_fresh h e : ValidateNew h e = Ok tt →
  ent_Status e = StatusPending ∧ stamps_ok e ∧ Attempt e = 0 ∧ SentAt e = None ∧ ID e ≠ "".
Proof.
  unfold ValidateNew. rewrite !bind_Ok. intros (? & Hb & H). apply bind_Ok in H as (? & Hst & H).
  apply bind_Ok in H as (? & Htm & _).
  unfold validateBaseFields, validateStatus, validateTimestamps in *.
  repeat case_match; bools; simplify_eq.
  unfold stamps_ok. repeat match goal with H : _ = StatusPending |- _ => rewrite H end.
  done.
Qed.

Lemma move_attempt e to now e' :
  stamps_ok e → Attempt e = (if SentAt e is Some _ then 1 else 0) → AdvanceCommand (Some e) to now = Ok e' →
  Attempt e' = (if SentAt e' is Some _ then 1 else 0).
Proof.
  intros Hs Ha H. apply AdvanceCommand_frame in H as (_ & Hc & _ & _ & _ & _ & _ & _ & _ & -> & ->).
  case_bool_decide as Hto; [|done]. subst to. revert Hs Hc. unfold stamps_ok.
  destruct (ent_Status e); try done. intros (Hsent & _) _. by rewrite Ha, Hsent.
Qed.

Lemma live_mono h h' e : dom h ⊆ dom h' → live h e → live h' e.
Proof. unfold live. intros Hd. destruct (Metadata e); [apply Hd|done]. Qed.

Lemma quiet_inv q q' : queue_inv q → quiet q q' → queue_inv q'.
Proof.
  intros Hq Hm. destruct Hm as [h L Hd%subseteq_dom HL|id e to now e' L h Hl Ha Hd%subseteq_dom HL Hid].
  - split; cbn; [|apply Hq|].
    + intros i x Hx. by eapply live_mono, (qi_live _ Hq).
    + intros i. rewrite HL. apply Hq.
  - destruct (qi_entry _ Hq _ _ Hl) as (Hi & Hs & Hat).
    pose proof (AdvanceCommand_frame _ _ _ _ Ha) as (Hto & Hc & HID & _ & _ & _ & Hmd & _).
    split; cbn.
    + intros i x [[<- <-]|[? Hx]]%lookup_insert_Some; [|by eapply live_mono, (qi_live _ Hq)].
      unfold live. rewrite Hmd. by eapply live_mono, (qi_live _ Hq _ _ Hl).
    + intros i x [[<- <-]|[? Hx]]%lookup_insert_Some; [|by apply Hq].
      split_and!; [congruence|by eapply AdvanceCommand_stamps|by eapply move_attempt].
    + intros i. destruct (decide (i = id)) as [->|].
      * pose proof (qi_lease _ Hq id) as Hle. rewrite Hl in Hle. rewrite Hid, lookup_insert_eq.
        transitivity (in_flight (ent_Status e') = true); [rewrite Hto|naive_solver].
        clear Hid HL Ha Hat Hs Hto. case_bool_decide; [subst to; rewrite Hle|].
        { split; [by intros _|intros _; exists e; split; [done|]]. by destruct (ent_Status e). }
        by destruct (ent_Status e), to.
      * rewrite HL, lookup_insert_ne by done. apply Hq.
Qed.

Lemma moves_inv q q' : queue_inv q → moves q q' → queue_inv q'.
Proof.
  intros Hq Hm. destruct Hm as [q' Hqu|l m|e h Hd Hle Hv Hn]; [by eapply quiet_inv|..].
  - split; cbn; [|apply Hq..]. intros i x Hx.
    eapply live_mono, (qi_live _ Hq), Hx. set_solver.
  - apply ValidateNew_fresh in Hv as (Hp & Hs & Hat & Hsent & _). split; cbn.
    + intros i x [[<- <-]|[? Hx]]%lookup_insert_Some; [done|]. by eapply live_mono, (qi_live _ Hq).
    + intros i x [[<- <-]|[? Hx]]%lookup_insert_Some; [|by apply Hq]. by rewrite Hat, Hsent.
    + intros i. rewrite (qi_lease _ Hq). destruct (decide (i = ID e)) as [->|].
      * rewrite Hn, lookup_insert_eq. split; [by intros (? & ? & _)|].
        intros (? & [= <-] & Hf). by rewrite Hp in Hf.
      * by rewrite lookup_insert_ne.
Qed.

(** *** Copies handed to callers *)

(** An entry up to its metadata. *)
Definition erase (e : Entry) : Entry := with_meta e None.

Definition public_part (m : gmap string string) : gmap string string :=
  filter (λ kv, is_public kv.1 = true) m.

Lemma meta_mono h h' e : h ⊆ h' → live h e → meta h' (Metadata e) = meta h (Metadata e).
Proof.
  unfold live, meta. destruct (Metadata e) as [l|]; [|done].
  intros Hs [m Hm]%elem_of_dom. rewrite Hm. by erewrite lookup_weaken.
Qed.

Lemma live_weaken h h' e : h ⊆ h' → live h e → live h' e.
Proof. intros Hs. by apply live_mono, subseteq_dom. Qed.

Lemma strip_spec h e : live h e →
  let '(c, h') := stripInternalMetaKeys h e in
  erase c = erase e ∧ h ⊆ h' ∧ live h' c ∧ meta h' (Metadata c) = public_part (meta h (Metadata e)).
Proof.
  intros Hl. unfold stripInternalMetaKeys. fold (public_part (meta h (Metadata e))).
  case_bool_decide as Hm; [by rewrite Hm|]. case_bool_decide as Hp; [rewrite Hp; by split_and!|].
  split_and!; [done| |unfold live; cbn; set_solver|cbn; by rewrite lookup_insert_eq].
  apply insert_subseteq, not_elem_of_dom, is_fresh.
Qed.

(** The result of a loop that copies: [cs] are the public copies of [es]. *)
Definition copies (h h' : gmap positive (gmap string string)) (es cs : list Entry) : Prop :=
  h ⊆ h' ∧
  Forall2 (λ e c, erase c = erase e ∧ live h' c ∧
                  meta h' (Metadata c) = public_part (meta h (Metadata e))) es cs.

Lemma copies_cons h h1 h2 e c es cs :
  Forall (live h) es →
  h ⊆ h1 → erase c = erase e → live h1 c → meta h1 (Metadata c) = public_part (meta h (Metadata e)) →
  copies h1 h2 es cs → copies h h2 (e :: es) (c :: cs).
Proof.
  intros Hlive Hs1 He Hl Hm [Hs2 Hc]. split; [by etrans|]. constructor.
  - split_and!; [done|by eapply live_weaken|]. by rewrite (meta_mono _ _ _ Hs2 Hl).
  - clear -Hlive Hs1 Hc. induction Hc as [|x y xs ys (?&?&Hm) Hc IH]; [constructor|].
    apply Forall_cons in Hlive as [Hx Hlive]. constructor; [|by apply IH].
    split_and!; [done..|]. by rewrite Hm, (meta_mono _ _ _ Hs1 Hx).
Qed.

Lemma scan_loop_spec flt es : ∀ h,
  Forall (live h) es.*2 →
  let '(cs, h') := scan_loop flt es h in
  copies h h' (filter (λ e, wanted flt e = true) es.*2) cs.
Proof.
  induction es as [|[k e] es IH]; intros h Hl; cbn [scan_loop fmap list_fmap].
  { split; [done|constructor]. }
  apply Forall_cons in Hl as [He Hl]. cbn in He. rewrite filter_cons.
  cbn [snd]. destruct (wanted flt e) eqn:Hw; case_decide; try congruence; [|by apply IH].
  pose proof (strip_spec h e He) as Hst. destruct (stripInternalMetaKeys h e) as [c h1].
  destruct Hst as (? & Hs & ? & ?).
  assert (Forall (live h1) es.*2) as Hl1 by (eapply Forall_impl; [exact Hl|]; intros; by eapply live_weaken).
  specialize (IH h1 Hl1). destruct (scan_loop flt es h1) as [cs h2].
  eapply copies_cons; [|done..]. eapply Forall_forall. intros x [_ Hx]%list_elem_of_filter.
  by eapply Forall_forall in Hl.
Qed.

(** *** The dequeue loop *)

Definition sent (e : Entry) (now : Time) : Entry :=
  moved e StatusSent 1 (Some now) None None.

(** What a pending entry of the queue looks like. *)
Definition fresh_pending (e : Entry) : Prop :=
  ent_Status e = StatusPending ∧ stamps_ok e ∧ Attempt e = 0.

Lemma AdvanceCommand_sent e now :
  fresh_pending e → AdvanceCommand (Some e) StatusSent now = Ok (sent e now).
Proof.
  intros (Hp & Hs & Ha). unfold stamps_ok in Hs. rewrite Hp in Hs. destruct Hs as (H1 & H2 & H3).
  unfold AdvanceCommand, Transition. rewrite Hp, H1, H2, H3, Ha. done.
Qed.

Lemma dequeue_loop_spec now d sel : ∀ q,
  NoDup sel.*1 →
  (∀ k e, (k, e) ∈ sel → entries q !! k = Some e ∧ ID e = k ∧ fresh_pending e ∧ live (maps q) e) →
  let '(cs, q') := dequeue_loop sel now d q in
  copies (maps q) (maps q') ((λ ke, sent ke.2 now) <$> sel) cs ∧
  rtc quiet q q' ∧
  (∀ k e, (k, e) ∈ sel → entries q' !! k = Some (sent e now) ∧ leases q' !! k = Some (now + d)) ∧
  (∀ k, k ∉ sel.*1 → entries q' !! k = entries q !! k ∧ leases q' !! k = leases q !! k).
Proof.
  induction sel as [|[k e] sel IH]; intros q Hnd Hsel; cbn [dequeue_loop fmap list_fmap].
  { split_and!; [split; [done|constructor]|done|by intros ? ? ?%elem_of_nil|done]. }
  apply NoDup_cons in Hnd as [Hk Hnd]. cbn in Hk.
  destruct (Hsel k e ltac:(left)) as (Hl & HID & Hp & Hlive).
  pose proof (AdvanceCommand_sent _ now Hp) as Hadv. rewrite Hadv. cbn [fst snd].
  pose proof (strip_spec (maps q) (sent e now) Hlive) as Hst.
  destruct (stripInternalMetaKeys _ _) as [c h1]. destruct Hst as (? & Hs & ? & ?).
  set (q1 := MkQueue _ _ h1).
  assert (quiet q q1) as Hmove.
  { eapply quiet_one; [exact Hl|exact Hadv|done|..]; cbn; rewrite HID.
    - intros i Hi. by rewrite lookup_insert_ne.
    - rewrite lookup_insert_eq. split; [done|eauto]. }
  assert (∀ i, i ∉ [k] → entries q1 !! i = entries q !! i ∧ leases q1 !! i = leases q !! i) as Hframe.
  { intros i Hi%not_elem_of_cons. cbn. rewrite HID, !lookup_insert_ne by naive_solver. done. }
  assert (∀ k' e', (k', e') ∈ sel → k' ≠ k) as Hne.
  { intros k' e' Hin ->. apply Hk. by apply (list_elem_of_fmap_2 fst) in Hin. }
  specialize (IH q1 Hnd). destruct (dequeue_loop sel now d q1) as [cs q2].
  destruct IH as (Hc & Hr & Hin & Hout).
  { intros k' e' Hin. destruct (Hsel k' e') as (? & ? & ? & ?); [by right|].
    destruct (Hframe k') as [-> _]; [apply Hne in Hin; set_solver|]. eauto using live_weaken. }
  split_and!.
  - eapply copies_cons; [|done..]. apply Forall_fmap, Forall_forall. intros [k' e'] Hx.
    destruct (Hsel k' e') as (_ & _ & _ & ?); [by right|]. done.
  - by eapply rtc_l.
  - intros k' e' [[= -> ->]|Hx]%elem_of_cons; [|by apply Hin].
    destruct (Hout k Hk) as [-> ->]. cbn. by rewrite HID, !lookup_insert_eq.
  - intros i Hi%not_elem_of_cons. destruct (Hout i) as [-> ->]; [naive_solver|]. apply Hframe. set_solver.
Qed.

(** The pending commands of a device in the order [Dequeue] considers them. *)
Definition pending_sorted (visit : list (string * Entry) → list (string * Entry)) (q : InMemQueue)
    (dev : string) : list (string * Entry) :=
  sort_Slice (λ a b, created_less a.2 b.2)
    (filter (λ kv, is_pending_for dev kv.2 = true) (visit (map_to_list (entries q)))).

Definition lease_or_default (d : Duration) : Duration :=
  if d <=? 0 then DefaultLeaseDuration else d.

Lemma Dequeue_eq visit q now dev n d :
  Dequeue visit q now dev n d =
  if n <? 0 then None
  else let '(cs, q') := dequeue_loop (take (Z.to_nat n) (pending_sorted visit q dev)) now
                          (lease_or_default d) q in Some (Ok cs, q').
Proof.
  unfold Dequeue. fold (pending_sorted visit q dev). fold (lease_or_default d).
  set (p := pending_sorted visit q dev). destruct (n <? 0) eqn:Hn.
  - apply Z.ltb_lt in Hn. unfold go_slice. rewrite Z.gtb_ltb. destruct (Z.of_nat (length p) <? n) eqn:Hg; [apply Z.ltb_lt in Hg; lia|].
    destruct (0 <=? n) eqn:?; [lia|]. done.
  - apply Z.ltb_ge in Hn. destruct (n >? Z.of_nat (length p)) eqn:Hg.
    + rewrite go_slice_Some by lia. cbn. rewrite Z.sub_0_r, Nat2Z.id.
      by rewrite drop_0, firstn_all, take_ge by lia.
    + rewrite go_slice_Some by lia. cbn. by rewrite Z.sub_0_r, drop_0.
Qed.

Section pending_facts.
Context (visit : list (string * Entry) → list (string * Entry)) (Hfair : fair visit).
Context (q : InMemQueue) (Hq : queue_inv q) (dev : string).

Lemma pending_sorted_elem k e :
  (k, e) ∈ pending_sorted visit q dev ↔
  entries q !! k = Some e ∧ is_pending_for dev e = true.
Proof.
  unfold pending_sorted. rewrite sort_Slice_elem, list_elem_of_filter, (Hfair _), elem_of_map_to_list.
  cbn. tauto.
Qed.

Lemma pending_sorted_NoDup : NoDup (pending_sorted visit q dev).*1.
Proof.
  unfold pending_sorted. rewrite sort_Slice_perm.
  eapply sublist_NoDup; [|apply fmap_sublist, sublist_filter].
  rewrite (Hfair _). apply NoDup_fst_map_to_list.
Qed.

Lemma pending_entry k e :
  entries q !! k = Some e → is_pending_for dev e = true →
  ID e = k ∧ fresh_pending e ∧ live (maps q) e ∧ DeviceID e = dev.
Proof.
  intros Hl Hp. destruct (qi_entry _ Hq _ _ Hl) as (HID & Hs & Ha).
  unfold is_pending_for in Hp. bools.
  repeat split; try done; [|by eapply (qi_live _ Hq)].
  rewrite Ha. unfold stamps_ok in Hs.
  match goal with H : ent_Status e = _ |- _ => rewrite H in Hs end. by destruct Hs as (-> & _).
Qed.

Lemma selected_ok n k e :
  (k, e) ∈ take n (pending_sorted visit q dev) →
  entries q !! k = Some e ∧ ID e = k ∧ fresh_pending e ∧ live (maps q) e.
Proof.
  intros Hin. apply (subseteq_take n), pending_sorted_elem in Hin as [Hl Hp].
  destruct (pending_entry k e Hl Hp) as (? & ? & ? & _). done.
Qed.

Lemma pending_sorted_sorted :
  StronglySorted (not_after (λ a b, created_less a.2 b.2)) (pending_sorted visit q dev).
Proof.
  apply sort_Slice_sorted; unfold not_after, created_less, Before.
  - intros x y z Hx%Z.ltb_ge Hy%Z.ltb_ge. apply Z.ltb_ge. lia.
  - intros x y. rewrite !Z.ltb_ge. lia.
Qed.

Lemma pending_sorted_length :
  Z.of_nat (length (pending_sorted visit q dev)) = countPendingForDevice q dev.
Proof.
  unfold pending_sorted, countPendingForDevice. rewrite sort_Slice_length. by rewrite (Hfair _).
Qed.

Lemma selected_IDs n :
  ID <$> (take n (pending_sorted visit q dev)).*2 = (take n (pending_sorted visit q dev)).*1.
Proof.
  rewrite <- list_fmap_compose. apply list_fmap_ext. intros i [k e] Hi%list_elem_of_lookup_2.
  by destruct (selected_ok _ _ _ Hi) as (_ & ? & _).
Qed.

Lemma selected_sorted n :
  StronglySorted (not_after created_less) (take n (pending_sorted visit q dev)).*2.
Proof.
  pose proof (take_sorted _ n _ pending_sorted_sorted) as H.
  induction H as [|x l Hl IH Hx]; cbn; constructor; [done|]. by apply Forall_fmap.
Qed.

Lemma left_behind n e :
  entries q !! ID e = Some e → is_pending_for dev e = true →
  e ∉ (take n (pending_sorted visit q dev)).*2 →
  length (take n (pending_sorted visit q dev)) = n ∧
  ∀ s, s ∈ (take n (pending_sorted visit q dev)).*2 → CreatedAt s ≤ CreatedAt e.
Proof.
  intros He Hp Hni. set (p := pending_sorted visit q dev) in *.
  assert ((ID e, e) ∈ drop n p) as Hd.
  { assert ((ID e, e) ∈ p) as Hin by by apply pending_sorted_elem.
    rewrite <- (take_drop n p), elem_of_app in Hin. destruct Hin as [Hin|]; [|done].
    by apply (list_elem_of_fmap_2 snd) in Hin. }
  split.
  - rewrite length_take. enough (length (drop n p) ≠ 0%nat) as Hl by (rewrite length_drop in Hl; lia).
    intros Hnil%nil_length_inv. rewrite Hnil in Hd. by apply elem_of_nil in Hd.
  - intros s ([k s'] & -> & Hs)%list_elem_of_fmap.
    pose proof (take_sorted_before _ n p _ _ pending_sorted_sorted Hs Hd) as Hb.
    unfold not_after, created_less, Before in Hb. cbn in *. lia.
Qed.

Lemma selected_NoDup n : NoDup (take n (pending_sorted visit q dev)).*1.
Proof.
  eapply sublist_NoDup; [apply pending_sorted_NoDup|]. apply fmap_sublist, sublist_take.
Qed.
End pending_facts.

(** *** Every step *)

Lemma Dequeue_quiet visit q now dev n d r q' :
  queue_inv q → fair visit → Dequeue visit q now dev n d = Some (r, q') → rtc quiet q q'.
Proof.
  intros Hq Hf. rewrite Dequeue_eq. destruct (n <? 0); [done|].
  pose proof (dequeue_loop_spec now (lease_or_default d) _ q
    (selected_NoDup visit Hf q dev (Z.to_nat n)) (selected_ok visit Hf q Hq dev (Z.to_nat n))) as Hs.
  destruct (dequeue_loop _ _ _ _) as [cs q2]. intros. simplify_eq. by destruct Hs as (_ & ? & _).
Qed.

Lemma ScanActive_copies visit q flt :
  queue_inv q → fair visit →
  ∃ cs h, ScanActive visit q flt = (Ok (sort_Slice created_less cs), with_maps q h) ∧
    copies (maps q) h (filter (λ e, wanted flt e = true) (visit (map_to_list (entries q))).*2) cs.
Proof.
  intros Hq Hf. unfold ScanActive.
  pose proof (scan_loop_spec flt (visit (map_to_list (entries q))) (maps q)) as Hs.
  destruct (scan_loop _ _ _) as [cs h]. exists cs, h. split; [done|].
  apply Hs, Forall_fmap, Forall_forall. intros [k e]. rewrite (Hf _), elem_of_map_to_list.
  apply (qi_live _ Hq).
Qed.

Lemma GetCommand_quiet q id : queue_inv q → quiet q (GetCommand q id).2.
Proof.
  intros Hq. unfold GetCommand. destruct (entries q !! id) as [e|] eqn:He; [|apply quiet_same].
  pose proof (strip_spec (maps q) e (qi_live _ Hq _ _ He)) as Hs.
  destruct (stripInternalMetaKeys _ _) as [c' h]. destruct Hs as (_ & Hsub & _).
  by apply (quiet_none q).
Qed.

(** A step is a write or an enqueue permitted to the client, or quiet. *)
Lemma step_cases c q q' : queue_inv q → step c q q' →
  (∃ en e o, live (maps q) e ∧ may_enqueue c q e o ∧ q' = (Enqueue q en e o).2) ∨
  (∃ l m, may_write c q l ∧ q' = with_maps q (<[l := m]> (maps q))) ∨
  (∃ e, live (maps q) e ∧ seeds q e ∧ may_seed c q e ∧ q' = (WriteCommand q e).2) ∨
  rtc quiet q q'.
Proof.
  intros Hq [out Hstep].
  destruct Hstep as [q en e o Hl Hc|q visit now dev n d r q' Hf Hd| | | | |q visit flt Hf|q id|q e Hl He Hc|q l m Hw].
  - left. eauto 6.
  - right; right; right. by eapply Dequeue_quiet.
  - right; right; right. apply rtc_once, Report_quiet.
  - right; right; right. by apply rtc_once, Ack_quiet.
  - right; right; right. apply rtc_once, ExtendLease_quiet.
  - right; right; right. apply rtc_once, Cancel_quiet.
  - right; right; right. destruct (ScanActive_copies visit q flt Hq Hf) as (cs & h & -> & [Hs _]).
    by apply rtc_once, (quiet_none q).
  - right; right; right. by apply rtc_once, GetCommand_quiet.
  - right; right; left. eauto.
  - right; left. eauto.
Qed.

Lemma step_moves c q q' : queue_inv q → step c q q' → rtc moves q q'.
Proof.
  intros Hq [(en & e & o & Hl & _ & ->)|[(l & m & _ & ->)|[(e & Hl & [Hn Hv] & _ & ->)|Hr]]]%step_cases; [..|done].
  - by apply rtc_once, Enqueue_moves.
  - apply rtc_once, moves_write.
  - by apply rtc_once, moves_new.
  - by eapply rtc_subrel; [|exact Hr]; intros ? ? ?; apply moves_quiet.
Qed.

Lemma rtc_moves_inv q q' : rtc moves q q' → queue_inv q → queue_inv q'.
Proof. induction 1; eauto using moves_inv. Qed.

Lemma step_inv c q q' : step c q q' → queue_inv q → queue_inv q'.
Proof. intros Hs Hq. by eapply rtc_moves_inv, Hq; eapply step_moves. Qed.

Lemma NewInMemQueue_inv : queue_inv NewInMemQueue.
Proof.
  split; cbn; [done..|]. intros id. rewrite !lookup_empty. split; [by intros []|by intros (? & ? & _)].
Qed.

Lemma steps_inv c q q' : rtc (step c) q q' → queue_inv q → queue_inv q'.
Proof. induction 1; eauto using step_inv. Qed.

Lemma queue_reachable_inv c q : queue_reachable c q → queue_inv q.
Proof. intros H. eapply steps_inv; [exact H|apply NewInMemQueue_inv]. Qed.

(** *** A command's history *)

Lemma moves_history q q' id e :
  moves q q' → queue_inv q → entries q !! id = Some e →
  ∃ e', entries q' !! id = Some e' ∧ rtc edge (ent_Status e) (ent_Status e') ∧
    DeviceID e' = DeviceID e ∧ Payload e' = Payload e ∧ CreatedAt e' = CreatedAt e ∧
    (Status_IsTerminal (ent_Status e) = true → e' = e).
Proof.
  intros Hm Hq He.
  destruct Hm as [q' [h L Hd HL|id' x to now x' L h Hl Ha Hd HL Hid]|l m|x h Hd Hle Hv Hn]; cbn.
  - by exists e.
  - destruct (decide (id = id')) as [->|]; [|exists e; by rewrite lookup_insert_ne].
    simplify_eq. exists x'. rewrite lookup_insert_eq.
    apply AdvanceCommand_frame in Ha as (Hto & Hc & _ & ? & _ & ? & _ & _ & ? & _).
    split_and!; [done|rewrite Hto; by apply rtc_once|done..|].
    intros Ht. by rewrite (terminal_no_transition _ _ Ht) in Hc.
  - by exists e.
  - exists e. rewrite lookup_insert_ne by congruence. done.
Qed.

Lemma steps_history c q q' id e :
  rtc (step c) q q' → queue_inv q → entries q !! id = Some e →
  ∃ e', entries q' !! id = Some e' ∧ rtc edge (ent_Status e) (ent_Status e') ∧
    DeviceID e' = DeviceID e ∧ Payload e' = Payload e ∧ CreatedAt e' = CreatedAt e ∧
    (Status_IsTerminal (ent_Status e) = true → e' = e).
Proof.
  intros Hr Hq. assert (rtc moves q q') as Hm.
  { induction Hr as [|q q1 q2 Hs Hr IH]; [done|]. etrans; [by eapply step_moves|].
    apply IH. by eapply step_inv. }
  clear Hr. revert e. induction Hm as [|q q1 q2 Hs Hm IH]; intros e He; [by exists e|].
  destruct (moves_history _ _ _ _ Hs Hq He) as (e1 & He1 & Hr1 & ? & ? & ? & Ht1).
  destruct (IH (moves_inv _ _ Hq Hs) e1 He1) as (e2 & He2 & Hr2 & ? & ? & ? & Ht2).
  exists e2. split_and!; [done|by etrans|congruence..|].
  intros Ht. specialize (Ht1 Ht). subst e1. by apply Ht2.
Qed.

(** *** How often a command is handed out *)

(** The attempts a command was stored with; none if it is not stored. *)
Definition tallied (q : InMemQueue) (id : string) : Z := from_option Attempt 0 (entries q !! id).

Lemma occurrences_app id l k : occurrences id (l ++ k) = (occurrences id l + occurrences id k)%nat.
Proof. unfold occurrences. by rewrite filter_app, length_app. Qed.

Lemma occurrences_NoDup id l : NoDup l → occurrences id l = if decide (id ∈ l) then 1%nat else 0%nat.
Proof.
  unfold occurrences. induction 1 as [|x l Hx Hl IH]; [done|]. rewrite filter_cons.
  destruct (decide (x = id)) as [->|Hne].
  - rewrite decide_True by left. cbn. rewrite IH, decide_False by done. done.
  - rewrite IH. by repeat case_decide; set_solver.
Qed.

Lemma advance_tallied q id e to now e' L h i :
  entries q !! id = Some e → AdvanceCommand (Some e) to now = Ok e' → to ≠ StatusSent →
  tallied (MkQueue (<[id := e']> (entries q)) L h) i = tallied q i.
Proof.
  intros He Ha Hto. unfold tallied. cbn.
  destruct (decide (i = id)) as [->|]; [|by rewrite lookup_insert_ne].
  apply AdvanceCommand_frame in Ha as (_ & _ & _ & _ & _ & _ & _ & _ & _ & Hat & _).
  rewrite bool_decide_false in Hat by done. by rewrite lookup_insert_eq, He.
Qed.

Lemma new_tallied q e L h i :
  entries q !! ID e = None → Attempt e = 0 → tallied (MkQueue (<[ID e := e]> (entries q)) L h) i = tallied q i.
Proof.
  intros Hn Ha. unfold tallied. cbn. destruct (decide (i = ID e)) as [->|]; [|by rewrite lookup_insert_ne].
  by rewrite lookup_insert_eq, Hn.
Qed.

Lemma Dequeue_tallied visit q now dev n d cs q' id :
  queue_inv q → fair visit → Dequeue visit q now dev n d = Some (Ok cs, q') →
  tallied q' id = tallied q id + Z.of_nat (occurrences id (ID <$> cs)).
Proof.
  intros Hq Hf. rewrite Dequeue_eq. destruct (n <? 0); [done|].
  pose proof (selected_NoDup visit Hf q dev (Z.to_nat n)) as Hnd.
  pose proof (selected_ok visit Hf q Hq dev (Z.to_nat n)) as Hok.
  set (sel := take _ _) in *. pose proof (dequeue_loop_spec now (lease_or_default d) sel q Hnd Hok) as Hs.
  destruct (dequeue_loop _ _ _ _) as [cs' q2]. intros [= <- <-]. destruct Hs as ([_ Hc] & _ & Hin & Hout).
  assert (ID <$> cs' = sel.*1) as ->.
  { clear -Hc Hok. generalize dependent cs'. generalize dependent sel. intros sel.
    induction sel as [|[k e] sel IH]; intros Hok cs' Hc; cbn in Hc.
    - by apply Forall2_nil_inv_l in Hc as ->.
    - apply Forall2_cons_inv_l in Hc as (c & cs & (He & _) & Hcs & ->). cbn.
      rewrite (IH (λ k e H, Hok k e (list_elem_of_further _ _ _ H)) cs Hcs). f_equal.
      destruct (Hok k e ltac:(left)) as (_ & <- & _). exact (f_equal ID He). }
  rewrite occurrences_NoDup by done. unfold tallied. case_decide as Hid.
  - apply list_elem_of_fmap in Hid as ([k e] & -> & Hke). cbn. destruct (Hin _ _ Hke) as [-> _].
    destruct (Hok _ _ Hke) as (-> & _ & (_ & _ & Ha) & _). cbn. lia.
  - destruct (Hout id Hid) as [-> _]. lia.
Qed.

Lemma lstep_tallied c q out q' id :
  queue_inv q → lstep c q out q' → tallied q' id = tallied q id + Z.of_nat (occurrences id out).
Proof.
  intros Hq Hs. destruct Hs as [q en e o Hl Hc|q visit now dev n d r q' Hf Hd|q i now|q i reason now|q i ext now|q i now
    |q visit flt Hf|q i|q e Hl [Hn Hv] Hc|q l m Hw]; try by eapply Dequeue_tallied.
  all: rewrite Z.add_0_r.
  - destruct (queue_Enqueue_cases q en e o Hl) as [->|(i & e1 & h & _ & [->|(Hv & Hn & _ & _ & ->)])]; [done..|].
    apply ValidateNew_fresh in Hv as (_ & _ & Ha & _). by apply new_tallied.
  - unfold Report. destruct (entries q !! i) as [e|] eqn:He; [|done]. case_bool_decide; [done|].
    destruct (AdvanceCommand _ _ _) eqn:Ha; [|done]. by eapply (advance_tallied q).
  - unfold Ack. destruct (negb _); [done|]. destruct (entries q !! i) as [e|] eqn:He; [|done].
    destruct (Status_IsTerminal _); [by case_bool_decide|].
    destruct (AdvanceCommand _ _ _) eqn:Ha; [|done]. eapply (advance_tallied q); [done..|]. by destruct reason.
  - unfold ExtendLease. destruct (entries q !! i); [|done]. destruct (leases q !! i); [|done]. by destruct (After _ _).
  - unfold Cancel. destruct (entries q !! i) as [e|] eqn:He; [|done].
    destruct (AdvanceCommand _ _ _) eqn:Ha; [|done]. by eapply (advance_tallied q).
  - by destruct (ScanActive_copies visit q flt Hq Hf) as (cs & h & -> & _).
  - unfold GetCommand. destruct (entries q !! i); [|done]. by destruct (stripInternalMetaKeys _ _).
  - apply ValidateNew_fresh in Hv as (_ & _ & Ha & _). by apply new_tallied.
  - done.
Qed.

Lemma served_tallied c q outs q' id :
  served c q outs q' → queue_inv q → tallied q' id = tallied q id + Z.of_nat (occurrences id outs).
Proof.
  induction 1 as [q|q out q1 outs q2 Hs Hr IH]; intros Hq; [cbn; lia|].
  rewrite IH, (lstep_tallied _ _ _ _ _ Hq Hs), occurrences_app; [lia|]. eapply step_inv; [by eexists|done].
Qed.

(** *** Demonstration data *)

Definition demo_cmd (id dev : string) (t : Time) : Entry :=
  NewEntry id dev "reboot" "x" (MkTimeouts 5 10 0) t.
Definition plain : EnqueueOptions := MkOptions "" None 0.

Definition demo_q1 : InMemQueue := (Enqueue NewInMemQueue [] (demo_cmd "a" "d1" 20) plain).2.
Definition demo_q2 : InMemQueue := (Enqueue demo_q1 [] (demo_cmd "b" "d1" 10) plain).2.

Lemma demo_q2_reachable : queue_reachable any_client demo_q2.
Proof.
  eapply rtc_l; [by apply (step_Enqueue _ _ [] (demo_cmd "a" "d1" 20) plain)|].
  eapply rtc_l; [by apply (step_Enqueue _ _ [] (demo_cmd "b" "d1" 10) plain)|]. apply rtc_refl.
Qed.

Definition demo_q3 : InMemQueue :=
  (default (Ok [], demo_q2) (Dequeue id demo_q2 30 "d1" 1 100)).2.

Lemma demo_q3_step : step any_client demo_q2 demo_q3.
Proof.
  apply (step_Dequeue _ _ id 30 "d1" 1 100 [sent (demo_cmd "b" "d1" 10) 30]);
    [by intros l|vm_compute; reflexivity].
Qed.

(** ** Claims *)

(** C35: the life of a command in the queue.  Whatever sequence of queue methods
    is called by whatever clients, in whatever map iteration order (with
    [WriteCommand] seeding only valid new entries under free IDs), a stored
    command is never lost or overwritten: its status only moves along the
    transition table, its identity, payload and creation time stay, once
    terminal it never changes again, it carries exactly the timestamps of its
    status, and it is leased exactly while it is Sent or Delivered.  [Dequeue] hands
    it out at most once in the whole history of the queue, and its attempt counter
    says whether it did. *)
Theorem queue_command_history before q after q' id e :
  served any_client NewInMemQueue before q → served any_client q after q' → entries q !! id = Some e →
  ∃ e', entries q' !! id = Some e' ∧ ID e' = id ∧ rtc edge (ent_Status e) (ent_Status e') ∧
    DeviceID e' = DeviceID e ∧ Payload e' = Payload e ∧ CreatedAt e' = CreatedAt e ∧
    (Status_IsTerminal (ent_Status e) = true → e' = e) ∧
    stamps_ok e' ∧
    Attempt e' = Z.of_nat (occurrences id (before ++ after)) ∧ (occurrences id (before ++ after) ≤ 1)%nat ∧
    (is_Some (leases q' !! id) ↔ ent_Status e' = StatusSent ∨ ent_Status e' = StatusDelivered).
Proof.
  intros Hb Ha He. assert (Hq : queue_inv q) by (eapply queue_reachable_inv, served_steps, Hb).
  destruct (steps_history _ _ _ _ _ (served_steps _ _ _ _ Ha) Hq He) as (e' & He' & Hrun & ? & ? & ? & Ht).
  pose proof (steps_inv _ _ _ (served_steps _ _ _ _ Ha) Hq) as Hq'.
  destruct (qi_entry _ Hq' _ _ He') as (? & ? & Hat).
  assert (Attempt e' = Z.of_nat (occurrences id (before ++ after))) as Hocc.
  { pose proof (served_tallied _ _ _ _ id Hb NewInMemQueue_inv) as Ht1. pose proof (served_tallied _ _ _ _ id Ha Hq) as Ht2.
    assert (tallied NewInMemQueue id = 0) as Ht0 by (unfold tallied; cbn; by rewrite lookup_empty).
    assert (tallied q' id = Attempt e') as Ht3 by (unfold tallied; by rewrite He'). rewrite occurrences_app. lia. }
  exists e'. split_and!; try done.
  - destruct (SentAt e'); lia.
  - rewrite (qi_lease _ Hq'), He'. unfold in_flight. setoid_rewrite bool_decide_eq_true. naive_solver.
Qed.

Lemma demo_q2_served : served any_client NewInMemQueue [] demo_q2.
Proof.
  eapply (served_cons _ _ []); [by apply (call_Enqueue _ _ [] (demo_cmd "a" "d1" 20) plain)|].
  eapply (served_cons _ _ []); [by apply (call_Enqueue _ _ [] (demo_cmd "b" "d1" 10) plain)|]. apply served_nil.
Qed.

Lemma demo_q3_served : served any_client demo_q2 ["b"] demo_q3.
Proof.
  eapply (served_cons _ _ ["b"]); [|apply served_nil].
  apply (call_Dequeue _ _ id 30 "d1" 1 100 [sent (demo_cmd "b" "d1" 10) 30]); [by intros l|vm_compute; reflexivity].
Qed.

Lemma queue_command_history_witness :
  entries demo_q2 !! "b" = Some (demo_cmd "b" "d1" 10) ∧
  ∃ e', entries demo_q3 !! "b" = Some e' ∧ Attempt e' = 1 ∧ is_Some (leases demo_q3 !! "b").
Proof.
  split; [vm_compute; reflexivity|].
  destruct (queue_command_history [] demo_q2 ["b"] demo_q3 "b" (demo_cmd "b" "d1" 10)
    demo_q2_served demo_q3_served ltac:(vm_compute; reflexivity))
    as (e' & He & _ & _ & _ & _ & _ & _ & _ & Ha & _ & Hl).
  exists e'. split; [exact He|]. split; [exact Ha|]. apply Hl. left.
  vm_compute in He. injection He as <-. reflexivity.
Defined.

(** Without the restriction [WriteCommand] replaces any entry, a finished one too. *)
Lemma WriteCommand_overwrites q e : entries (WriteCommand q e).2 !! ID e = Some e.
Proof. apply lookup_insert_eq. Qed.

(** [Dequeue], exactly.  It panics only for a negative [n]; otherwise it
    hands out [min n #pending] pending commands of the device, oldest first and
    none younger than a pending command left behind; each of them becomes Sent
    (attempt 1) and leased until [now] plus the lease duration, everything else
    is untouched, and the copies returned carry exactly the public part of the
    stored metadata: no internal key leaks. *)
Theorem Dequeue_spec visit q now dev n d :
  queue_reachable any_client q → fair visit →
  (n < 0 → Dequeue visit q now dev n d = None) ∧
  (0 ≤ n → ∃ sel cs q', Dequeue visit q now dev n d = Some (Ok cs, q') ∧
     Z.of_nat (length sel) = Z.min n (countPendingForDevice q dev) ∧
     NoDup (ID <$> sel) ∧ StronglySorted (not_after created_less) sel ∧
     Forall2 (λ e c, erase c = erase (sent e now) ∧
                meta (maps q') (Metadata c) = public_part (meta (maps q) (Metadata e))) sel cs ∧
     (∀ e, e ∈ sel → entries q !! ID e = Some e ∧ is_pending_for dev e = true ∧
        entries q' !! ID e = Some (sent e now) ∧
        leases q' !! ID e = Some (now + lease_or_default d)) ∧
     (∀ id, id ∉ ID <$> sel → entries q' !! id = entries q !! id ∧ leases q' !! id = leases q !! id) ∧
     (∀ e, entries q !! ID e = Some e → is_pending_for dev e = true → e ∉ sel →
        Z.of_nat (length sel) = n ∧ ∀ s, s ∈ sel → CreatedAt s ≤ CreatedAt e)).
Proof.
  intros Hq%queue_reachable_inv Hf. rewrite Dequeue_eq. split; intros Hn.
  { apply Z.ltb_lt in Hn. by rewrite Hn. }
  assert ((n <? 0) = false) as -> by by apply Z.ltb_ge.
  pose proof (dequeue_loop_spec now (lease_or_default d) _ q
      (selected_NoDup visit Hf q dev (Z.to_nat n)) (selected_ok visit Hf q Hq dev (Z.to_nat n))) as Hs.
  pose proof (selected_IDs visit Hf q Hq dev (Z.to_nat n)) as HIDs.
  pose proof (selected_sorted visit q dev (Z.to_nat n)) as Hsort.
  pose proof (left_behind visit Hf q dev (Z.to_nat n)) as Hleft.
  pose proof (selected_NoDup visit Hf q dev (Z.to_nat n)) as Hnd.
  pose proof (length_take (pending_sorted visit q dev) (Z.to_nat n)) as Hlen.
  rewrite <- (pending_sorted_length visit Hf q dev).
  pose proof (selected_ok visit Hf q Hq dev (Z.to_nat n)) as Hsel.
  assert (∀ k e, (k, e) ∈ take (Z.to_nat n) (pending_sorted visit q dev) → is_pending_for dev e = true) as Hpend.
  { intros k e Hin. apply (subseteq_take (Z.to_nat n)), pending_sorted_elem in Hin; [|done]. apply Hin. }
  set (sel := take (Z.to_nat n) (pending_sorted visit q dev)) in *.
  destruct (dequeue_loop sel now _ q) as [cs q'] eqn:Hloop. destruct Hs as ([_ Hc] & _ & Hin & Hout).
  exists sel.*2, cs, q'. rewrite HIDs, length_fmap. split_and!; try done.
  - lia.
  - rewrite Forall2_fmap_l in Hc. rewrite Forall2_fmap_l.
    eapply Forall2_impl; [exact Hc|]. intros [k e] c (? & _ & ?). done.
  - intros e ([k e'] & -> & Hke)%list_elem_of_fmap. cbn.
    destruct (Hsel _ _ Hke) as (? & -> & _). destruct (Hin _ _ Hke). eauto.
  - intros e He Hp Hni. destruct (Hleft e He Hp Hni) as [Hl ?]. split; [|done]. lia.
Qed.

Lemma Dequeue_spec_witness :
  Dequeue id demo_q2 30 "d1" (-1) 100 = None ∧
  ∃ cs q', Dequeue id demo_q2 30 "d1" 1 100 = Some (Ok cs, q') ∧ length cs = 1%nat.
Proof.
  assert (fair id) as Hf by by intros l.
  split.
  - apply (Dequeue_spec id demo_q2 30 "d1" (-1) 100 demo_q2_reachable Hf). lia.
  - destruct (Dequeue_spec id demo_q2 30 "d1" 1 100 demo_q2_reachable Hf) as [_ H].
    destruct (H ltac:(lia)) as (sel & cs & q' & Hd & Hl & _ & _ & Hc & _).
    exists cs, q'. split; [exact Hd|]. rewrite <- (Forall2_length _ _ _ Hc).
    assert (countPendingForDevice demo_q2 "d1" = 2) as Hcount by (vm_compute; reflexivity).
    rewrite Hcount in Hl. lia.
Defined.

(** ** Idempotency keys *)

(** No stored command refers to the map at [l]. *)
Definition unshared (q : InMemQueue) (l : positive) : Prop :=
  ∀ i e, entries q !! i = Some e → Metadata e ≠ Some l.

(** Producers that hand over the metadata map with the command: they never
    reuse nor write a map a stored command refers to, and leave the reserved key
    alone. *)
Definition owning_client : client := MkClient
  (λ q e o, (∀ l, Metadata e = Some l → unshared q l) ∧
            (IdempotencyKey o = "" → entry_key (maps q) e = ""))
  unshared (λ _ _, False).

Record active_unique (q : InMemQueue) : Prop := {
  au_map i j e f l : entries q !! i = Some e → entries q !! j = Some f →
    Metadata e = Some l → Metadata f = Some l → i = j;
  au_key i j e f : entries q !! i = Some e → entries q !! j = Some f →
    Status_IsTerminal (ent_Status e) = false → Status_IsTerminal (ent_Status f) = false →
    entry_key (maps q) e ≠ "" → entry_key (maps q) e = entry_key (maps q) f → i = j;
}.

Lemma entry_key_insert h l m e :
  Metadata e ≠ Some l → entry_key (<[l := m]> h) e = entry_key h e.
Proof.
  unfold entry_key, meta. intros Hl. destruct (Metadata e) as [l'|]; [|done].
  by rewrite lookup_insert_ne by congruence.
Qed.

Lemma quiet_back q q' i e' : queue_inv q → quiet q q' → entries q' !! i = Some e' →
  ∃ e, entries q !! i = Some e ∧ Metadata e' = Metadata e ∧
    entry_key (maps q') e' = entry_key (maps q) e ∧
    (Status_IsTerminal (ent_Status e') = false → Status_IsTerminal (ent_Status e) = false).
Proof.
  intros Hq Hm. destruct Hm as [h L Hd HL|id e to now x L h Hl Ha Hd HL Hid]; cbn.
  - intros He. exists e'. split_and!; try done. unfold entry_key.
    by rewrite (meta_mono _ _ _ Hd (qi_live _ Hq _ _ He)).
  - intros [[<- <-]|[? Hx]]%lookup_insert_Some.
    + exists e. apply AdvanceCommand_frame in Ha as (_ & Hc & _ & _ & _ & _ & Hmd & _).
      split_and!; try done.
      * unfold entry_key. by rewrite Hmd, (meta_mono _ _ _ Hd (qi_live _ Hq _ _ Hl)).
      * intros _. destruct (Status_IsTerminal _) eqn:Ht; [|done].
        by rewrite (terminal_no_transition _ _ Ht) in Hc.
    + exists e'. split_and!; try done. unfold entry_key.
      by rewrite (meta_mono _ _ _ Hd (qi_live _ Hq _ _ Hx)).
Qed.

Lemma quiet_unique q q' : queue_inv q → quiet q q' → active_unique q → active_unique q'.
Proof.
  intros Hq Hm [Hmap Hkey]. split.
  - intros i j e f l He Hf. destruct (quiet_back _ _ _ _ Hq Hm He) as (e0 & ? & -> & _).
    destruct (quiet_back _ _ _ _ Hq Hm Hf) as (f0 & ? & -> & _). eauto.
  - intros i j e f He Hf. destruct (quiet_back _ _ _ _ Hq Hm He) as (e0 & ? & _ & -> & ?).
    destruct (quiet_back _ _ _ _ Hq Hm Hf) as (f0 & ? & _ & -> & ?). eauto.
Qed.

Lemma write_unique q l m :
  unshared q l → active_unique q → active_unique (with_maps q (<[l := m]> (maps q))).
Proof.
  intros Hl [Hmap Hkey]. split; cbn; [done|]. intros i j e f He Hf.
  rewrite !entry_key_insert by (by eapply Hl). eauto.
Qed.

Lemma hasActiveKey_false q key i e :
  hasActiveKey q key = false → key ≠ "" → entries q !! i = Some e →
  Status_IsTerminal (ent_Status e) = false → entry_key (maps q) e ≠ key.
Proof.
  intros Hh Hk Hi Ht He. apply not_true_iff_false in Hh. apply Hh. apply existsb_exists.
  exists (i, e). split; [by apply list_elem_of_In, elem_of_map_to_list|].
  unfold holds_key. cbn. rewrite Ht, He. unfold str_eqb. rewrite (bool_decide_true (key = key)) by done.
  rewrite bool_decide_true; [done|]. unfold entry_key, meta in He.
  destruct (Metadata e); [eauto|]. by rewrite lookup_empty in He.
Qed.

(** A new command whose map no stored command uses, and whose key, if any, no
    active command carries. *)
Lemma new_unique q e h :
  active_unique (with_maps q h) → entries q !! ID e = None →
  (∀ l, Metadata e = Some l → unshared q l) →
  (entry_key h e ≠ "" → ∀ i f, entries q !! i = Some f →
     Status_IsTerminal (ent_Status f) = false → entry_key h f ≠ entry_key h e) →
  active_unique (MkQueue (<[ID e := e]> (entries q)) (leases q) h).
Proof.
  intros [Hmap Hkey] Hn Hu Hk. split; cbn.
  - intros i j x y l [[<- <-]|[? Hx]]%lookup_insert_Some [[<- <-]|[? Hy]]%lookup_insert_Some Hlx Hly;
      [done| | |by eapply Hmap].
    + exfalso. by eapply (Hu l).
    + exfalso. by eapply (Hu l).
  - intros i j x y [[<- <-]|[? Hx]]%lookup_insert_Some [[<- <-]|[? Hy]]%lookup_insert_Some Htx Hty Hkx Hxy;
      [done| | |by eapply Hkey].
    + exfalso. by eapply (Hk Hkx j y).
    + exfalso. rewrite Hxy in Hkx. by eapply (Hk Hkx i x).
Qed.

Lemma step_unique q q' :
  queue_inv q → step owning_client q q' → active_unique q → active_unique q'.
Proof.
  intros Hq Hs Hu. apply step_cases in Hs as
    [(en & e & o & Hl & [Hown Hres] & ->)|[(l & m & Hw & ->)|[(e & _ & _ & [] & _)|Hr]]]; [..|done].
  - destruct (queue_Enqueue_cases q en e o Hl) as [->|(id & e1 & h & Hst & Hc)]; [done|].
    pose proof (stamp_key_spec (maps q) (with_ID e id) (IdempotencyKey o) Hl) as Hk.
    rewrite Hst in Hk. destruct Hk as (He1 & _ & _ & [(Hk0 & -> & ->)|(Hk0 & l & m & Hm & -> & Hmk & Hor)]).
    + assert (active_unique (with_maps q (maps q))) as Hu' by by destruct Hu; split.
      destruct Hc as [->|(_ & Hn & _ & _ & ->)]; [done|]. apply new_unique; [done..|].
      intros Hne. exfalso. apply Hne. by apply Hres.
    + assert (unshared q l) as Hul.
      { destruct Hor as [Hor|Hor]; [by apply Hown|]. intros i x Hx Hxl. apply Hor.
        pose proof (qi_live _ Hq _ _ Hx) as Hlx. unfold live in Hlx. by rewrite Hxl in Hlx. }
      pose proof (write_unique q l m Hul Hu) as Hu'.
      destruct Hc as [->|(_ & Hn & Hact & _ & ->)]; [done|].
      apply new_unique; [done..|by intros l' Hl'; simplify_eq|].
      assert (entry_key (<[l:=m]> (maps q)) e1 = IdempotencyKey o) as ->.
      { unfold entry_key, meta. by rewrite Hm, lookup_insert_eq; cbn; rewrite Hmk. }
      intros _ i f Hf Htf. eapply (hasActiveKey_false (with_maps q _)); [|done..].
      destruct (IdempotencyKey o ==s "") eqn:?; bools; done.
  - by apply write_unique.
  - clear -Hq Hu Hr. induction Hr; [done|]. eauto using quiet_inv, quiet_unique.
Qed.

Lemma reachable_unique q : queue_reachable owning_client q → active_unique q.
Proof.
  intros Hr. assert (queue_inv q ∧ active_unique q) as [_ H]; [|done].
  assert (queue_inv NewInMemQueue ∧ active_unique NewInMemQueue) as Hi
    by by split; [apply NewInMemQueue_inv|split].
  revert Hi. unfold queue_reachable in Hr. induction Hr as [|q0 q1 q2 Hs Hr IH]; [done|].
  intros [Hq Hu]. apply IH. split; [by eapply step_inv|by eapply step_unique].
Qed.

(** Three commands accepted under the keys "k1", "k2" and "k1"; the first two
    come with the same metadata map. *)
Definition keyed (k : string) : EnqueueOptions := MkOptions k None 0.
Definition shared_map : InMemQueue := with_maps NewInMemQueue {[ 1%positive := ∅ ]}.
Definition shared_a : InMemQueue :=
  (Enqueue shared_map [] (with_meta (demo_cmd "a" "d1" 20) (Some 1%positive)) (keyed "k1")).2.
Definition shared_ab : InMemQueue :=
  (Enqueue shared_a [] (with_meta (demo_cmd "b" "d1" 21) (Some 1%positive)) (keyed "k2")).2.
Definition shared_abc : InMemQueue :=
  (Enqueue shared_ab [] (demo_cmd "c" "d1" 22) (keyed "k1")).2.

(** active uniqueness of idempotency keys.  As long as producers do not
    share metadata maps between commands, at every moment at most one
    non-terminal command carries a given non-empty key, through any sequence of
    calls.  The condition is needed: [Enqueue] writes the key into the caller's
    own map, so a producer that reuses one map for a second command under
    another key overwrites the key of the first, which is still queued, and the
    queue then accepts a second active command under the first key. *)
Theorem at_most_one_active q i j e f :
  queue_reachable owning_client q → entries q !! i = Some e → entries q !! j = Some f →
  Status_IsTerminal (ent_Status e) = false → Status_IsTerminal (ent_Status f) = false →
  entry_key (maps q) e ≠ "" → entry_key (maps q) e = entry_key (maps q) f →
  i = j ∧
  hasActiveKey shared_a "k1" = true ∧ hasActiveKey shared_ab "k1" = false ∧
  ∃ a c, entries shared_abc !! "a" = Some a ∧ entries shared_abc !! "c" = Some c ∧
    ent_Status a = StatusPending ∧ ent_Status c = StatusPending.
Proof.
  intros Hr ? ? ? ? ? ?. split; [by eapply au_key; [apply reachable_unique|..]|].
  split_and!; [vm_compute; reflexivity..|].
  eexists _, _. split_and!; vm_compute; reflexivity.
Qed.

Lemma at_most_one_active_witness :
  let q := (Enqueue NewInMemQueue [] (demo_cmd "a" "d1" 20) (keyed "k1")).2 in
  hasActiveKey q "k1" = true ∧ "a" = "a" ∧ hasActiveKey shared_ab "k1" = false.
Proof.
  intros q. split; [vm_compute; reflexivity|].
  assert (queue_reachable owning_client q) as Hr.
  { eapply rtc_l; [|apply rtc_refl].
    apply (step_Enqueue owning_client _ [] (demo_cmd "a" "d1" 20) (keyed "k1")); [done|].
    split; [done|discriminate]. }
  destruct (entries q !! "a") as [e|] eqn:He; [|vm_compute in He; discriminate].
  assert (e = with_meta (demo_cmd "a" "d1" 20) (Some 1%positive)) as Hee.
  { vm_compute in He. injection He as <-. reflexivity. }
  destruct (at_most_one_active q "a" "a" e e Hr He He) as (H1 & _ & H2 & _);
    [subst e; vm_compute; try reflexivity; discriminate..|].
  split; [exact H1|exact H2].
Defined.

(** ** The per-device cap *)

Definition capped_client (n : Z) : client :=
  MkClient (λ _ _ o, MaxPendingPerDevice o = n) (λ _ _, True) (λ _ _, False).

Definition pending_map (q : InMemQueue) (dev : string) : gmap string Entry :=
  filter (λ kv, is_pending_for dev kv.2 = true) (entries q).

Lemma countPending_size q dev : countPendingForDevice q dev = Z.of_nat (size (pending_map q dev)).
Proof.
  unfold countPendingForDevice, pending_map. rewrite map_filter_alt, map_size_list_to_map; [done|].
  eapply sublist_NoDup; [apply (NoDup_fst_map_to_list (entries q))|]. apply fmap_sublist, sublist_filter.
Qed.

Lemma quiet_pending q q' dev :
  quiet q q' → countPendingForDevice q' dev ≤ countPendingForDevice q dev.
Proof.
  intros Hm. rewrite !countPending_size. apply Nat2Z.inj_le.
  destruct Hm as [h L Hd HL|id e to now x L h Hl Ha Hd HL Hid]; [done|].
  apply map_subseteq_size. unfold pending_map; cbn. rewrite map_filter_insert_False.
  - apply map_filter_subseteq_mono, delete_subseteq.
  - cbn. unfold is_pending_for. apply AdvanceCommand_frame in Ha as (-> & Hc & _).
    destruct (ent_Status e), to; vm_compute in Hc; try discriminate; by rewrite andb_false_r.
Qed.

Lemma new_pending q e h dev :
  countPendingForDevice (MkQueue (<[ID e := e]> (entries q)) (leases q) h) dev
  ≤ countPendingForDevice q dev + (if bool_decide (dev = DeviceID e) then 1 else 0).
Proof.
  rewrite !countPending_size. unfold pending_map; cbn. rewrite map_filter_insert; cbn.
  case_decide as Hp.
  - unfold is_pending_for in Hp. bools. rewrite bool_decide_true by done.
    rewrite map_size_insert. case_match; cbn; lia.
  - assert (size (filter (λ kv, is_pending_for dev kv.2 = true) (delete (ID e) (entries q)))
            ≤ size (filter (λ kv, is_pending_for dev kv.2 = true) (entries q)))%nat.
    { apply map_subseteq_size, map_filter_subseteq_mono, delete_subseteq. }
    case_bool_decide; lia.
Qed.

Lemma step_capped n q q' dev : 0 < n → queue_inv q → step (capped_client n) q q' →
  countPendingForDevice q dev ≤ n → countPendingForDevice q' dev ≤ n.
Proof.
  intros Hn Hq Hs Hc. apply step_cases in Hs as
    [(en & e & o & Hl & Ho & ->)|[(l & m & _ & ->)|[(e & _ & _ & [] & _)|Hr]]]; [..|done]; [|done|].
  - destruct (queue_Enqueue_cases q en e o Hl) as [->|(id & e1 & h & _ & [->|(_ & _ & _ & Hcap & ->)])]; [done..|].
    cbn in Ho. rewrite Ho in Hcap. specialize (Hcap Hn).
    etrans; [apply new_pending|]. case_bool_decide; [subst dev|]; lia.
  - clear Hq. induction Hr as [|q q1 q2 Hqu _ IH]; [done|]. apply IH.
    pose proof (quiet_pending _ _ dev Hqu). lia.
Qed.

(** the per-device cap is hard.  If every enqueue asks for the cap [n > 0],
    then at no moment does a device have more than [n] pending commands,
    whatever the order of calls. *)
Theorem pending_cap_is_hard n q dev :
  0 < n → queue_reachable (capped_client n) q → countPendingForDevice q dev ≤ n.
Proof.
  intros Hn Hr. assert (queue_inv NewInMemQueue ∧ countPendingForDevice NewInMemQueue dev ≤ n) as Hi.
  { split; [apply NewInMemQueue_inv|]. vm_compute countPendingForDevice. lia. }
  revert Hi. unfold queue_reachable in Hr. induction Hr as [|q0 q1 q2 Hs Hr IH]; [by intros []|].
  intros [Hq Hc]. apply IH. split; [by eapply step_inv|by eapply step_capped].
Qed.

Lemma pending_cap_is_hard_witness :
  let cap1 := MkOptions "" None 1 in
  let q1 := (Enqueue NewInMemQueue [] (demo_cmd "a" "d1" 20) cap1).2 in
  let q2 := (Enqueue q1 [] (demo_cmd "b" "d1" 21) cap1).2 in
  countPendingForDevice q1 "d1" = 1 ∧ countPendingForDevice q2 "d1" ≤ 1.
Proof.
  intros cap1 q1 q2. split; [vm_compute; reflexivity|].
  apply (pending_cap_is_hard 1); [lia|].
  eapply rtc_l; [apply (step_Enqueue (capped_client 1) _ [] (demo_cmd "a" "d1" 20) cap1); done|].
  eapply rtc_l; [apply (step_Enqueue (capped_client 1) _ [] (demo_cmd "b" "d1" 21) cap1); done|].
  apply rtc_refl.
Defined.
