(* ===== verification/CommandSweeper.v ===== *)
(** * kernel/command/sweeper.go: the expiry sweeper over any command store

    The sweeper scans the non-terminal commands, computes which deadlines have
    elapsed and expires those commands one by one.  It is verified against the
    interface [CommandStore]; the in-memory queue implements it. *)

From S2P Require Import Prelude IdUtil Fsm Command CommandQueue.

(** ** The interface

    What the sweeper relies on: scanning returns, up to metadata, exactly the
    non-terminal entries the filter asks for and changes no entry; expiring a
    non-terminal entry succeeds and changes that entry only. *)

Class CommandStore (Q : Type) := {
  cs_inv : Q → Prop;
  cs_view : Q → gmap string Entry;
  cs_scan : Q → ScanFilter → outcome (list Entry) * Q;
  cs_ack : Q → string → AckReason → Time → outcome unit * Q;
  cs_ids q id e : cs_inv q → cs_view q !! id = Some e → ID e = id;
  cs_scan_spec q flt : cs_inv q →
    ∃ es q', cs_scan q flt = (Ok es, q') ∧ cs_inv q' ∧ cs_view q' = cs_view q ∧
      erase <$> es ≡ₚ erase <$> filter (λ e, wanted flt e = true) (map_to_list (cs_view q)).*2;
  cs_ack_spec q id e now : cs_inv q → cs_view q !! id = Some e →
    Status_IsTerminal (ent_Status e) = false →
    ∃ q', cs_ack q id AckTimeout now = (Ok tt, q') ∧ cs_inv q' ∧
      cs_view q' = <[id := moved e StatusExpired (Attempt e) (SentAt e) (DeliveredAt e) (Some now)]>
                     (cs_view q);
}.

Record Sweeper := MkSweeper {
  sw_filter : ScanFilter;
  built : bool;
}.

Definition NewSweeper (flt : ScanFilter) : Sweeper := MkSweeper flt true.

Section sweeper.
Context {Q : Type} `{CommandStore Q}.

(** The loop over the transitions, collecting the errors. *)
Fixpoint ack_all (ts : list ExpiryTransition) (now : Time) (q : Q) : list goerror * Q :=
  match ts with
  | [] => ([], q)
  | t :: rest =>
      let '(r, q) := cs_ack q (CommandID t) AckTimeout now in
      let '(errs, q) := ack_all rest now q in
      (match r with Err e => e :: errs | Ok _ => errs end, q)
  end.

(** [Ok errs] is [errors.Join(errs...)], so nil for the empty list. *)
Definition SweepTick (s : option Sweeper) (now : Time) (q : Q) : outcome (list goerror) * Q :=
  match s with
  | None => (Err (invalid "command.Sweeper: nil receiver; use NewSweeper to construct"), q)
  | Some s =>
      if negb (built s)
      then (Err (invalid "command.Sweeper must be constructed via NewSweeper"), q)
      else match cs_scan q (sw_filter s) with
           | (Err scanErr, q) => (Err scanErr, q)
           | (Ok entries, q) => let '(errs, q) := ack_all (SweepOnce entries now) now q in (Ok errs, q)
           end
  end.
End sweeper.

(** ** The sweep, against the interface *)

(** Some deadline of the command has elapsed. *)
Definition due (e : Entry) (now : Time) : bool :=
  elapsed e PhaseOverall now || elapsed e PhaseSendToComplete now || elapsed e PhaseScheduleToSend now.

Definition expired_at (e : Entry) (now : Time) : Entry :=
  moved e StatusExpired (Attempt e) (SentAt e) (DeliveredAt e) (Some now).

Lemma due_checkExpiry e now : due e now = true ↔ is_Some (checkExpiry e now).
Proof.
  unfold due, checkExpiry. destruct (elapsed e PhaseOverall now); cbn; [by split; eauto|].
  destruct (elapsed e PhaseSendToComplete now); cbn; [by split; eauto|].
  destruct (elapsed e PhaseScheduleToSend now); cbn; [by split; eauto|].
  split; [done|by intros []].
Qed.

Lemma SweepOnce_erase es now : SweepOnce (erase <$> es) now = SweepOnce es now.
Proof. induction es as [|e es IH]; [done|]. cbn. rewrite IH. done. Qed.

Section sweep_proofs.
Context {Q : Type} `{CommandStore Q}.

Lemma ack_all_spec now ts : ∀ q,
  cs_inv q → NoDup (CommandID <$> ts) →
  (∀ t, t ∈ ts → ∃ e, cs_view q !! CommandID t = Some e ∧ Status_IsTerminal (ent_Status e) = false) →
  ∃ q', ack_all ts now q = ([], q') ∧ cs_inv q' ∧
    ∀ id, cs_view q' !! id =
      (λ e, if bool_decide (id ∈ CommandID <$> ts) then expired_at e now else e) <$> cs_view q !! id.
Proof.
  induction ts as [|t ts IH]; intros q Hq Hnd Hts; cbn [ack_all].
  { exists q. split_and!; [done..|]. intros id. by destruct (cs_view q !! id). }
  rewrite fmap_cons in *. apply NoDup_cons in Hnd as [Hni Hnd].
  destruct (Hts t ltac:(left)) as (e & He & Hte).
  destruct (cs_ack_spec q (CommandID t) e now Hq He Hte) as (q1 & -> & Hq1 & Hv1).
  assert (∀ i, i ≠ CommandID t → cs_view q1 !! i = cs_view q !! i) as Hother
    by (intros i Hi; by rewrite Hv1, lookup_insert_ne).
  destruct (IH q1 Hq1 Hnd) as (q2 & -> & Hq2 & Hv2).
  { intros t' Ht'. destruct (Hts t') as (e' & ? & ?); [by right|]. exists e'. rewrite Hother; [done|].
    intros Heq. apply Hni. rewrite <- Heq. by apply list_elem_of_fmap_2. }
  exists q2. split_and!; [done..|]. intros id. rewrite Hv2.
  destruct (decide (id = CommandID t)) as [->|Hne].
  - rewrite (bool_decide_false (_ ∈ CommandID <$> ts)) by done.
    rewrite (bool_decide_true (CommandID t ∈ _)) by left. rewrite Hv1, lookup_insert_eq, He. done.
  - rewrite Hother by done. destruct (cs_view q !! id); [|done]. cbn. f_equal.
    rewrite (bool_decide_ext (id ∈ CommandID t :: _) (id ∈ CommandID <$> ts)); [done|].
    rewrite elem_of_cons. tauto.
Qed.

(** The commands a sweep expires. *)
Lemma swept_ids q es flt now : cs_inv q →
  erase <$> es ≡ₚ erase <$> filter (λ e, wanted flt e = true) (map_to_list (cs_view q)).*2 →
  NoDup (CommandID <$> SweepOnce es now) ∧
  ∀ id, id ∈ CommandID <$> SweepOnce es now ↔
    ∃ e, cs_view q !! id = Some e ∧ wanted flt e = true ∧ due e now = true.
Proof.
  intros Hq Hperm.
  assert (∀ id e, (id, e) ∈ map_to_list (cs_view q) → ID e = id) as HID.
  { intros id e Hin%elem_of_map_to_list. by eapply cs_ids. }
  assert (∀ e, e ∈ filter (λ e, wanted flt e = true) (map_to_list (cs_view q)).*2 ↔
               wanted flt e = true ∧ cs_view q !! ID e = Some e) as Hin.
  { intros e. rewrite list_elem_of_filter. split.
    - intros [Hw ([k e'] & -> & Hm)%list_elem_of_fmap]. cbn in *. rewrite (HID _ _ Hm).
      by apply elem_of_map_to_list in Hm.
    - intros [Hw Hl]. split; [done|]. apply elem_of_map_to_list in Hl.
      by apply (list_elem_of_fmap_2 snd) in Hl. }
  split.
  - eapply sublist_NoDup; [|apply SweepOnce_sublist].
    assert (ID <$> es = ID <$> (erase <$> es)) as -> by by rewrite <- list_fmap_compose.
    rewrite Hperm, <- list_fmap_compose.
    eapply sublist_NoDup; [|apply fmap_sublist, sublist_filter].
    rewrite <- list_fmap_compose, (list_fmap_ext _ fst); [apply NoDup_fst_map_to_list|].
    intros i [k e] Hi%list_elem_of_lookup_2. by apply HID.
  - intros id. rewrite <- SweepOnce_erase, list_elem_of_fmap. setoid_rewrite SweepOnce_elem.
    setoid_rewrite Hperm. setoid_rewrite list_elem_of_fmap. split.
    + intros (t & -> & x & (e & -> & [Hw Hl]%Hin) & Ht & Hc). exists e.
      destruct (checkExpiry_Some _ _ _ Hc) as (-> & _). split_and!; [done..|].
      apply due_checkExpiry. by exists t.
    + intros (e & Hl & Hw & [t Hc]%due_checkExpiry). exists t.
      destruct (checkExpiry_Some _ _ _ Hc) as (-> & _). pose proof (cs_ids _ _ _ Hq Hl) as HIe.
      split; [done|]. exists (erase e). split_and!; [exists e; split; [done|]|..|exact Hc].
      * apply Hin. by rewrite HIe.
      * unfold wanted in Hw. bools. done.
Qed.

(** The whole tick: the entries of [ids] are expired, the others untouched. *)
Lemma sweep_run q flt now : cs_inv q →
  ∃ (ids : list string) q', SweepTick (Some (NewSweeper flt)) now q = (Ok [], q') ∧ cs_inv q' ∧
    (∀ id, id ∈ ids ↔ ∃ e, cs_view q !! id = Some e ∧ wanted flt e = true ∧ due e now = true) ∧
    ∀ id, cs_view q' !! id =
      (λ e, if bool_decide (id ∈ ids) then expired_at e now else e) <$> cs_view q !! id.
Proof.
  intros Hq. unfold SweepTick. cbn [built NewSweeper negb sw_filter].
  destruct (cs_scan_spec q flt Hq) as (es & q1 & -> & Hq1 & Hv1 & Hperm).
  destruct (swept_ids q es flt now Hq Hperm) as [Hnd Hids].
  destruct (ack_all_spec now (SweepOnce es now) q1 Hq1 Hnd) as (q2 & -> & Hq2 & Hv2).
  { intros t Ht. apply (list_elem_of_fmap_2 CommandID), Hids in Ht as (e & He & Hw & _).
    exists e. rewrite Hv1. split; [done|]. unfold wanted in Hw. bools. done. }
  exists (CommandID <$> SweepOnce es now), q2. split_and!; [done..|]. intros id. by rewrite Hv2, Hv1.
Qed.
End sweep_proofs.

(** ** The in-memory queue is a command store *)

Lemma copies_erase h h' es cs : copies h h' es cs → erase <$> cs = erase <$> es.
Proof. intros [_ Hc]. induction Hc as [|e c es cs (He & _) Hc IH]; [done|]. cbn. by rewrite He, IH. Qed.

Section instance.
Context (visit : list (string * Entry) → list (string * Entry)) (Hfair : fair visit).

#[export, program] Instance InMemQueue_store : CommandStore InMemQueue := {
  cs_inv := queue_inv;
  cs_view := entries;
  cs_scan := ScanActive visit;
  cs_ack := Ack;
}.
Next Obligation. intros q id e Hq He. by apply (qi_entry _ Hq). Qed.
Next Obligation.
  intros q flt Hq. destruct (ScanActive_copies visit q flt Hq Hfair) as (cs & h & -> & Hc).
  exists (sort_Slice created_less cs), (with_maps q h). split_and!; [done| |done|].
  - apply (quiet_inv q); [done|]. apply (quiet_none q); [apply Hc|done].
  - rewrite sort_Slice_perm, (copies_erase _ _ _ _ Hc). by rewrite (Hfair _).
Qed.
Next Obligation.
  intros q id e now Hq He Ht. destruct (qi_entry _ Hq _ _ He) as (_ & Hs & _).
  pose proof (Ack_quiet q id AckTimeout now Hq) as Hqu. revert Hqu.
  unfold Ack. cbn [AckReason_Valid negb]. rewrite He, Ht. cbn [TargetStatus].
  pose proof (AdvanceCommand_Ok e StatusExpired now Hs) as Hok.
  rewrite expiry_always_legal in Hok by (done || by apply stamps_ok_valid).
  destruct (AdvanceCommand (Some e) StatusExpired now) as [e'|] eqn:Ha; [|done].
  intros Hqu. eexists. split_and!; [done|by eapply quiet_inv|]. cbn. f_equal.
  unfold AdvanceCommand in Ha. case_bool_decide; [done|].
  apply bind_Ok in Ha as (? & _ & Ha). by simplify_eq.
Qed.
End instance.

(** ** Claims *)

(** A sweep is complete and precise.  Over any store that keeps the
    interface, a tick reports no error and leaves exactly the entries it found,
    except that every non-terminal command the filter covers with an elapsed
    deadline (of any of the three phases) is now Expired at the tick's time. *)
Theorem sweep_tick_expires {Q} `{CommandStore Q} (q : Q) flt now :
  cs_inv q →
  ∃ q', SweepTick (Some (NewSweeper flt)) now q = (Ok [], q') ∧ cs_inv q' ∧
    ∀ id, cs_view q' !! id =
      (λ e, if wanted flt e && due e now then expired_at e now else e) <$> cs_view q !! id.
Proof.
  intros Hq. destruct (sweep_run q flt now Hq) as (ids & q' & Hs & Hq' & Hids & Hv).
  exists q'. split_and!; [done..|]. intros id. rewrite Hv.
  destruct (cs_view q !! id) as [e|] eqn:He; [|done]. cbn. f_equal.
  destruct (wanted flt e && due e now) eqn:Hd.
  - rewrite bool_decide_true; [done|]. apply Hids. exists e. bools. done.
  - rewrite bool_decide_false; [done|]. intros (e' & He' & Hw & Hdue)%Hids. simplify_eq.
    by rewrite Hw, Hdue in Hd.
Qed.

Lemma fair_id : fair id.
Proof. by intros l. Qed.

Lemma sweep_tick_expires_witness :
  ∃ q', SweepTick (H := InMemQueue_store id fair_id) (Some (NewSweeper (MkFilter "" []))) 26 demo_q2
          = (Ok [], q') ∧
    (ent_Status <$> entries q' !! "a") = Some StatusExpired ∧
    (ent_Status <$> entries q' !! "b") = Some StatusExpired.
Proof.
  destruct (sweep_tick_expires (H := InMemQueue_store id fair_id) demo_q2 (MkFilter "" []) 26
    (queue_reachable_inv _ _ demo_q2_reachable)) as (q' & Hs & _ & Hv).
  exists q'. split; [exact Hs|].
  change (∀ id, entries q' !! id = (λ e, if wanted (MkFilter "" []) e && due e 26
     then expired_at e 26 else e) <$> entries demo_q2 !! id) in Hv.
  split; rewrite Hv; vm_compute; reflexivity.
Defined.

(** the schedule-to-send deadline is applied to commands that met it.  The
    phase is documented as the maximum from creation to Sent, but the sweep does
    not look at the status: a command sent to its device in time is expired as
    soon as the deadline it already met has passed, even while the device is
    executing it and with no other deadline configured. *)
Theorem sent_in_time_is_expired {Q} `{CommandStore Q} (q q' : Q) id e sentAt now r :
  cs_inv q → cs_view q !! id = Some e → ent_Status e = StatusSent ∨ ent_Status e = StatusDelivered →
  SentAt e = Some sentAt → sentAt ≤ DeadlineFor e PhaseScheduleToSend →
  0 < DeadlineFor e PhaseScheduleToSend < now →
  SendToComplete (ent_Timeouts e) = 0 → OverallDeadline (ent_Timeouts e) = 0 →
  SweepTick (Some (NewSweeper (MkFilter "" []))) now q = (r, q') →
  r = Ok [] ∧ cs_view q' !! id = Some (expired_at e now).
Proof.
  intros Hq He Hst _ _ Hdl _ _ Hs.
  destruct (sweep_run q (MkFilter "" []) now Hq) as (ids & q2 & Hs2 & _ & Hids & Hv).
  rewrite Hs in Hs2. simplify_eq. split; [done|]. rewrite Hv, He. cbn.
  rewrite bool_decide_true; [done|]. apply Hids. exists e. split_and!; [done| |].
  - unfold wanted. by destruct Hst as [-> | ->].
  - unfold due, elapsed. rewrite !orb_true_iff. right. unfold IsZero, After.
    apply andb_true_iff. split; [apply negb_true_iff, Z.eqb_neq|apply Z.ltb_lt]; lia.
Qed.

Definition in_time_cmd : Entry := NewEntry "a" "d1" "reboot" "x" (MkTimeouts 5 0 0) 10.
Definition in_time_q : InMemQueue :=
  (default (Ok [], NewInMemQueue)
     (Dequeue id (Enqueue NewInMemQueue [] in_time_cmd plain).2 12 "d1" 1 100)).2.

Lemma in_time_q_reachable : queue_reachable any_client in_time_q.
Proof.
  eapply rtc_l; [by apply (step_Enqueue _ _ [] in_time_cmd plain)|].
  eapply rtc_l; [|apply rtc_refl].
  apply (step_Dequeue _ _ id 12 "d1" 1 100 [sent in_time_cmd 12]);
    [apply fair_id|vm_compute; reflexivity].
Qed.

Lemma sent_in_time_is_expired_witness :
  entries in_time_q !! "a" = Some (sent in_time_cmd 12) ∧
  entries (SweepTick (H := InMemQueue_store id fair_id) (Some (NewSweeper (MkFilter "" []))) 16 in_time_q).2
    !! "a" = Some (expired_at (sent in_time_cmd 12) 16).
Proof.
  split; [vm_compute; reflexivity|].
  eapply (sent_in_time_is_expired (H := InMemQueue_store id fair_id) in_time_q _ "a"
            (sent in_time_cmd 12) 12 16
            (SweepTick (H := InMemQueue_store id fair_id) (Some (NewSweeper (MkFilter "" []))) 16 in_time_q).1).
  - exact (queue_reachable_inv _ _ in_time_q_reachable).
  - vm_compute; reflexivity.
  - left; reflexivity.
  - reflexivity.
  - vm_compute; discriminate.
  - vm_compute; split; reflexivity.
  - reflexivity.
  - reflexivity.
  - apply surjective_pairing.
Defined.
