(* ===== verification/CircuitBreaker.v ===== *)
(** * kernel/circuitbreaker: the three-state breaker

    The mutex splits [Allow] into two critical sections (read the state; then,
    after the callbacks ran, gate and count) and [done] and [State] into one
    each.  Each critical section is a function of the breaker and the clock, and
    [bstep] interleaves those of any number of callers, callbacks included.
    Counters are uint32 and the generation uint64, with their wrap-around. *)

From S2P Require Import Prelude.

Inductive State : Type := StateClosed | StateHalfOpen | StateOpen.

#[global] Instance State_eq_dec : EqDecision State.
Proof. solve_decision. Defined.

Record Counts := MkCounts {
  Requests : Z;
  TotalSuccesses : Z;
  TotalFailures : Z;
  ConsecutiveSuccesses : Z;
  ConsecutiveFailures : Z;
}.

Definition zeroCounts : Counts := MkCounts 0 0 0 0 0.

(** The immutable part of [breaker]. *)
Record settings := MkSettings {
  maxRequests : Z;
  interval : Duration;
  timeout : Duration;
  readyToTrip : Counts → bool;
  isSuccessful : option goerror → bool;
}.

Record breaker := MkBreaker {
  state : State;
  generation : Z;
  counts : Counts;
  expiry : Time;
}.

(** The fields of [Config] that are not callbacks for observation; a nil
    function is [None]. *)
Record Config := MkConfig {
  Name : string;
  MaxRequests : Z;
  Interval : Duration;
  Timeout : Duration;
  ReadyToTrip : option (Counts → bool);
  IsSuccessful : option (option goerror → bool);
}.

Definition defaultCircuitBreakerTimeout : Duration := 60 * Second.

Definition default_trip (c : Counts) : bool := ConsecutiveFailures c >? 5.

Definition stateTransition := (State * State)%type.

Section breaker.
Context (cf : settings).

Definition toNewGeneration (b : breaker) (now : Time) : breaker :=
  MkBreaker (state b) (wrap_u64 (generation b + 1)) zeroCounts
    (match state b with
     | StateClosed => if interval cf >? 0 then now + interval cf else 0
     | StateOpen => now + timeout cf
     | StateHalfOpen => 0
     end).

Definition setState (b : breaker) (target : State) (now : Time)
  : breaker * list stateTransition :=
  if bool_decide (state b = target) then (b, [])
  else (toNewGeneration (MkBreaker target (generation b) (counts b) (expiry b)) now,
        [(state b, target)]).

(** Lazily applies what the clock has decided; returns the transitions to fire. *)
Definition currentState (b : breaker) (now : Time) : breaker * list stateTransition :=
  let elapsed := negb (IsZero (expiry b)) && Before (expiry b) now in
  match state b with
  | StateClosed => if elapsed then (toNewGeneration b now, []) else (b, [])
  | StateOpen => if elapsed then setState b StateHalfOpen now else (b, [])
  | StateHalfOpen => (b, [])
  end.

Inductive verdict : Type := Permitted | errOpenState | errTooManyRequests.

(** Phase 3 of [beforeRequest], given what phase 1 saw. *)
Definition commitRequest (b : breaker) (seen : State) (gen : Z) : verdict * breaker :=
  if negb (generation b =? gen) then (errOpenState, b)
  else if bool_decide (seen = StateOpen) then (errOpenState, b)
  else if bool_decide (seen = StateHalfOpen) && (Requests (counts b) >=? maxRequests cf)
  then (errTooManyRequests, b)
  else
    let c := counts b in
    (Permitted, MkBreaker (state b) (generation b)
       (MkCounts (wrap_u32 (Requests c + 1)) (TotalSuccesses c) (TotalFailures c)
          (ConsecutiveSuccesses c) (ConsecutiveFailures c)) (expiry b)).

Definition onSuccess (b : breaker) (st : State) (now : Time) : breaker * list stateTransition :=
  let c := counts b in
  let b := MkBreaker (state b) (generation b)
             (MkCounts (Requests c) (wrap_u32 (TotalSuccesses c + 1)) (TotalFailures c)
                (wrap_u32 (ConsecutiveSuccesses c + 1)) 0) (expiry b) in
  if bool_decide (st = StateHalfOpen) && (ConsecutiveSuccesses (counts b) >=? maxRequests cf)
  then setState b StateClosed now else (b, []).

Definition onFailure (b : breaker) (st : State) (now : Time) : breaker * list stateTransition :=
  let c := counts b in
  let b := MkBreaker (state b) (generation b)
             (MkCounts (Requests c) (TotalSuccesses c) (wrap_u32 (TotalFailures c + 1)) 0
                (wrap_u32 (ConsecutiveFailures c + 1))) (expiry b) in
  match st with
  | StateClosed => if readyToTrip cf (counts b) then setState b StateOpen now else (b, [])
  | StateHalfOpen => setState b StateOpen now
  | StateOpen => (b, [])
  end.

Definition afterRequest (b : breaker) (before : Z) (success : bool) (now : Time)
  : breaker * list stateTransition :=
  let '(b, ts) := currentState b now in
  if generation b =? before then
    let '(b, ts') := if success then onSuccess b (state b) now else onFailure b (state b) now in
    (b, ts ++ ts')
  else (b, ts).

(** [Allow] with nothing happening between its two critical sections. *)
Definition Allow (b : breaker) (now : Time) : verdict * Z * breaker :=
  let '(b, _) := currentState b now in
  let '(v, b') := commitRequest b (state b) (generation b) in
  (v, generation b, b').

(** The callback [Allow] returned for generation [gen]. *)
Definition done_cb (b : breaker) (gen : Z) (err : option goerror) (now : Time) : breaker :=
  (afterRequest b gen (isSuccessful cf err) now).1.

(** A caller running alone: [Allow] at [t1] and, if admitted, its callback with
    the outcome at [t2]. *)
Definition call (b : breaker) (c : Time * Time * option goerror) : breaker :=
  let '(t1, t2, err) := c in
  match Allow b t1 with
  | (Permitted, gen, b1) => done_cb b1 gen err t2
  | (_, _, b1) => b1
  end.

(** *** Interleavings *)

(** Callers between their two critical sections hold what they saw; admitted
    ones hold the generation to report to. *)
Record bworld := MkWorld {
  brk : breaker;
  waiting : list (State * Z);
  outstanding : list Z;
}.

Inductive bstep : bworld → bworld → Prop :=
  | bs_begin w now b ts :
      currentState (brk w) now = (b, ts) →
      bstep w (MkWorld b ((state b, generation b) :: waiting w) (outstanding w))
  | bs_commit b ws1 seen gen ws2 os v b' :
      commitRequest b seen gen = (v, b') →
      bstep (MkWorld b (ws1 ++ (seen, gen) :: ws2) os)
            (MkWorld b' (ws1 ++ ws2) (match v with Permitted => gen :: os | _ => os end))
  | bs_done b ws os1 gen os2 success now b' ts :
      afterRequest b gen success now = (b', ts) →
      bstep (MkWorld b ws (os1 ++ gen :: os2)) (MkWorld b' ws (os1 ++ os2))
  | bs_state w now b ts :
      currentState (brk w) now = (b, ts) →
      bstep w (MkWorld b (waiting w) (outstanding w)).
End breaker.

(** [New]: the settings and the initial breaker. *)
Definition New (cfg : Config) (now : Time) : outcome (settings * breaker) :=
  if Name cfg ==s "" then
    Err (Errcode KindInvalid "ERR_CIRCUIT_BREAKER_CONFIG" "circuitbreaker: Name required")
  else
    let cf := MkSettings
      (if MaxRequests cfg =? 0 then 1 else MaxRequests cfg)
      (Interval cfg)
      (if Timeout cfg <=? 0 then defaultCircuitBreakerTimeout else Timeout cfg)
      (default default_trip (ReadyToTrip cfg))
      (default (λ err, bool_decide (err = None)) (IsSuccessful cfg)) in
    Ok (cf, toNewGeneration cf (MkBreaker StateClosed 0 zeroCounts 0) now).

(** ** Invariant of every interleaving *)

(** Outstanding requests of generation [g]. *)
Definition holding (g : Z) (os : list Z) : Z := Z.of_nat (length (filter (λ x, x = g) os)).

Lemma holding_app g os1 os2 : holding g (os1 ++ os2) = holding g os1 + holding g os2.
Proof. unfold holding. rewrite filter_app, length_app. lia. Qed.

Lemma holding_cons g x os : holding g (x :: os) = (if bool_decide (x = g) then 1 else 0) + holding g os.
Proof. unfold holding. rewrite filter_cons. case_decide; case_bool_decide; cbn; try done; lia. Qed.

Lemma holding_nonneg g os : 0 ≤ holding g os.
Proof. unfold holding. lia. Qed.

Lemma holding_zero g os : (∀ x, x ∈ os → x < g) → holding g os = 0.
Proof.
  induction os as [|x os IH]; intros Hlt; [done|]. rewrite holding_cons, IH by (intros; apply Hlt; by right).
  rewrite bool_decide_false; [done|]. intros ->. specialize (Hlt g ltac:(left)). lia.
Qed.

Section invariant.
Context (cf : settings) (Hmax : 1 ≤ maxRequests cf < 2 ^ 32).

Record binv (n : nat) (w : bworld) : Prop := {
  bi_gen : 1 ≤ generation (brk w) ≤ Z.of_nat n + 1;
  bi_wait s g : (s, g) ∈ waiting w →
    g ≤ generation (brk w) ∧ (g = generation (brk w) → s = state (brk w));
  bi_out g : g ∈ outstanding w → g ≤ generation (brk w);
  bi_open : state (brk w) = StateOpen → holding (generation (brk w)) (outstanding w) = 0;
  bi_half : state (brk w) = StateHalfOpen →
    let c := counts (brk w) in
    0 ≤ TotalSuccesses c < maxRequests cf ∧ ConsecutiveSuccesses c = TotalSuccesses c ∧
    holding (generation (brk w)) (outstanding w) + TotalSuccesses c = Requests c ∧
    Requests c ≤ maxRequests cf;
}.

Lemma binv_weaken n w : binv n w → binv (S n) w.
Proof. intros [????]; split; try done. lia. Qed.

(** A fresh generation forgets everything the callers hold. *)
Lemma binv_renew n w b ws os now :
  Z.of_nat n + 2 < 2 ^ 64 → binv n w → generation b = generation (brk w) →
  ws ⊆ waiting w → os ⊆ outstanding w →
  binv (S n) (MkWorld (toNewGeneration cf b now) ws os).
Proof.
  intros Hn [Hg Hw Ho _ _] Hb Hws Hos. unfold toNewGeneration, wrap_u64.
  assert ((generation b + 1) mod 2 ^ 64 = generation (brk w) + 1) as Hgen
    by (rewrite Hb, Z.mod_small; lia).
  assert (holding (generation (brk w) + 1) os = 0) as Hz.
  { apply holding_zero. intros x Hx. apply Hos, Ho in Hx. lia. }
  split; cbn; rewrite Hgen.
  - lia.
  - intros s g Hin. apply Hws, Hw in Hin as [? _]. split; [lia|]. intros; lia.
  - intros g Hin. apply Hos, Ho in Hin. lia.
  - intros _. exact Hz.
  - intros _. rewrite Hz. lia.
Qed.

Lemma currentState_inv n w now b ts :
  Z.of_nat n + 2 < 2 ^ 64 → binv n w → currentState cf (brk w) now = (b, ts) →
  binv (S n) (MkWorld b (waiting w) (outstanding w)) ∧
  (b = brk w ∨ generation (brk w) < generation b).
Proof.
  intros Hn Hi Hc.
  assert (∀ s, generation (brk w) < generation (toNewGeneration cf
    (MkBreaker s (generation (brk w)) (counts (brk w)) (expiry (brk w))) now)) as Hlt.
  { intros s. cbn. unfold wrap_u64. pose proof (bi_gen _ _ Hi). rewrite Z.mod_small; lia. }
  unfold currentState, setState in Hc. destruct w as [[s g c x] ws os]; cbn in *.
  assert (binv (S n) (MkWorld (MkBreaker s g c x) ws os)) by by apply binv_weaken.
  destruct s; [destruct (_ && _)|..|destruct (_ && _)]; cbn in Hc;
    rewrite ?bool_decide_false in Hc by done; simplify_eq; eauto.
  - split; [by apply (binv_renew _ _ _ _ _ _ Hn Hi)|]. right. apply (Hlt StateClosed).
  - split; [by apply (binv_renew _ _ _ _ _ _ Hn Hi)|]. right. apply (Hlt StateHalfOpen).
Qed.

Lemma commit_inv n b ws1 seen gen ws2 os v b' :
  binv n (MkWorld b (ws1 ++ (seen, gen) :: ws2) os) → commitRequest cf b seen gen = (v, b') →
  binv (S n) (MkWorld b' (ws1 ++ ws2) (match v with Permitted => gen :: os | _ => os end)) ∧
  (v = Permitted → state b ≠ StateOpen).
Proof.
  intros Hi Hc. pose proof (bi_wait _ _ Hi seen gen ltac:(cbn; apply elem_of_app; right; left)) as [_ Hseen]. cbn in Hseen.
  assert (binv (S n) (MkWorld b (ws1 ++ ws2) os)) as Hsame.
  { apply binv_weaken in Hi as [Hg Hw Ho Hop Hh]. split; try done. cbn in *. intros s g Hin. apply Hw. set_solver. }
  unfold commitRequest in Hc. destruct (generation b =? gen) eqn:Hg;
    [|cbn in Hc; simplify_eq; by split].
  cbn in Hc. apply Z.eqb_eq in Hg. specialize (Hseen (eq_sym Hg)). subst seen gen.
  case_bool_decide as Hopen; [simplify_eq; by split|].
  destruct (bool_decide (state b = StateHalfOpen) && _) eqn:Hfull; simplify_eq; [by split|].
  split; [|done]. destruct Hsame as [Hg Hw Ho Hop Hh]. cbn in *. split; cbn.
  - done.
  - done.
  - intros g [->|Hin]%elem_of_cons; [done|by apply Ho].
  - done.
  - intros Hs. destruct (Hh Hs) as (Hts & Hcs & Hsum & Hle).
    rewrite bool_decide_true in Hfull by done. cbn in Hfull. rewrite Z.geb_leb in Hfull.
    apply Z.leb_gt in Hfull. rewrite holding_cons, bool_decide_true by done.
    pose proof (holding_nonneg (generation b) os).
    unfold wrap_u32. rewrite Z.mod_small by lia. lia.
Qed.

(** Removing a request that belongs to an older generation. *)
Lemma drop_stale n b ws os1 gen os2 :
  binv n (MkWorld b ws (os1 ++ gen :: os2)) → generation b ≠ gen →
  binv n (MkWorld b ws (os1 ++ os2)).
Proof.
  intros [Hg Hw Ho Hop Hh] Hne. cbn in *.
  assert (holding (generation b) (os1 ++ os2) = holding (generation b) (os1 ++ gen :: os2)) as Heq.
  { rewrite !holding_app, holding_cons, bool_decide_false by congruence. lia. }
  split; cbn; rewrite ?Heq; try done. intros g Hin. apply Ho. set_solver.
Qed.

(** A request of the current generation reports: the breaker keeps its
    generation with new counts, or starts a new one. *)
Section report.
Context (n : nat) (b : breaker) (ws : list (State * Z)) (os1 os2 : list Z).
Context (Hi : binv n (MkWorld b ws (os1 ++ generation b :: os2))).

Lemma report_holding : holding (generation b) (os1 ++ generation b :: os2)
  = 1 + holding (generation b) (os1 ++ os2).
Proof. rewrite !holding_app, holding_cons, bool_decide_true by done. lia. Qed.

Lemma report_not_open : state b ≠ StateOpen.
Proof.
  intros Hs. pose proof (bi_open _ _ Hi Hs) as Hz. cbn in Hz. rewrite report_holding in Hz.
  pose proof (holding_nonneg (generation b) (os1 ++ os2)). lia.
Qed.

Lemma report_keep c :
  (state b = StateHalfOpen → 0 ≤ TotalSuccesses c < maxRequests cf ∧
     ConsecutiveSuccesses c = TotalSuccesses c ∧
     holding (generation b) (os1 ++ os2) + TotalSuccesses c = Requests c ∧
     Requests c ≤ maxRequests cf) →
  binv (S n) (MkWorld (MkBreaker (state b) (generation b) c (expiry b)) ws (os1 ++ os2)).
Proof.
  intros Hc. destruct (binv_weaken _ _ Hi) as [Hg Hw Ho _ _].
  split; cbn in *; try done; [|by intros ?%report_not_open].
  intros g Hin. apply Ho. set_solver.
Qed.

Lemma report_renew s c x now : Z.of_nat n + 2 < 2 ^ 64 →
  binv (S n) (MkWorld (toNewGeneration cf (MkBreaker s (generation b) c x) now) ws (os1 ++ os2)).
Proof. intros Hn. apply (binv_renew n _ _ _ _ _ Hn Hi); cbn; [done|done|set_solver]. Qed.

Lemma success_inv now b' ts : Z.of_nat n + 2 < 2 ^ 64 →
  onSuccess cf b (state b) now = (b', ts) → binv (S n) (MkWorld b' ws (os1 ++ os2)).
Proof.
  intros Hn. unfold onSuccess, setState. cbn.
  case_bool_decide as Hhalf; cbn; [|intros; simplify_eq; by apply report_keep].
  destruct (bi_half _ _ Hi Hhalf) as (Hts & Hcs & Hsum & Hle). cbn in Hts, Hcs, Hsum, Hle.
  rewrite report_holding in Hsum. pose proof (holding_nonneg (generation b) (os1 ++ os2)).
  assert (wrap_u32 (TotalSuccesses (counts b) + 1) = TotalSuccesses (counts b) + 1) as Hw1
    by (unfold wrap_u32; rewrite Z.mod_small; lia).
  rewrite Hcs, Hw1, Z.geb_leb.
  destruct (maxRequests cf <=? TotalSuccesses (counts b) + 1) eqn:Hfull.
  - rewrite bool_decide_false by congruence. intros; simplify_eq. by apply report_renew.
  - apply Z.leb_gt in Hfull. intros; simplify_eq. apply report_keep. intros _. cbn. lia.
Qed.

Lemma failure_inv now b' ts : Z.of_nat n + 2 < 2 ^ 64 →
  onFailure cf b (state b) now = (b', ts) → binv (S n) (MkWorld b' ws (os1 ++ os2)).
Proof.
  intros Hn. pose proof report_not_open as Hno. unfold onFailure, setState. cbn.
  destruct (state b) eqn:Hs; [destruct (readyToTrip _ _)| |done];
    rewrite ?bool_decide_false by done; intros; simplify_eq; [by apply report_renew| |by apply report_renew].
  rewrite <- Hs. by apply report_keep; rewrite Hs.
Qed.
End report.

Lemma after_inv n b ws os1 gen os2 success now b' ts :
  Z.of_nat n + 3 < 2 ^ 64 →
  binv n (MkWorld b ws (os1 ++ gen :: os2)) → afterRequest cf b gen success now = (b', ts) →
  binv (S (S n)) (MkWorld b' ws (os1 ++ os2)).
Proof.
  intros Hn Hi Ha. unfold afterRequest in Ha.
  destruct (currentState cf b now) as [b1 ts1] eqn:Hc.
  apply (currentState_inv n (MkWorld b ws (os1 ++ gen :: os2))) in Hc as [Hi1 _]; [|lia|done]. cbn in Hi1.
  destruct (generation b1 =? gen) eqn:Hg.
  - apply Z.eqb_eq in Hg. subst gen.
    destruct (if success then _ else _) as [b2 ts2] eqn:Ho. simplify_eq.
    destruct success; [eapply (success_inv (S n))|eapply (failure_inv (S n))]; try done; lia.
  - apply Z.eqb_neq in Hg. simplify_eq. apply binv_weaken. by eapply drop_stale.
Qed.

(** An open breaker ignores every report until its timeout has passed. *)
Lemma open_ignores b os gen success now :
  state b = StateOpen → gen ∈ os → now ≤ expiry b → holding (generation b) os = 0 →
  afterRequest cf b gen success now = (b, []).
Proof.
  intros Hs Hin Hle Hz. unfold afterRequest, currentState, Before. rewrite Hs.
  destruct (Z.ltb_spec (expiry b) now); [lia|]. rewrite andb_false_r.
  destruct (Z.eqb_spec (generation b) gen) as [Heq|]; [|done].
  apply list_elem_of_split in Hin as (os1 & os2 & ->). rewrite holding_app, holding_cons, bool_decide_true in Hz by done.
  pose proof (holding_nonneg (generation b) os1). pose proof (holding_nonneg (generation b) os2). lia.
Qed.

Lemma bstep_inv n w w' :
  Z.of_nat n + 3 < 2 ^ 64 → binv n w → bstep cf w w' → binv (S (S n)) w'.
Proof.
  intros Hn Hi Hs. destruct Hs as [w now b ts Hc|b ws1 seen gen ws2 os v b' Hc|b ws os1 gen os2 su now b' ts Ha|w now b ts Hc].
  - apply (currentState_inv n) in Hc as [Hc _]; [|lia|done]. apply binv_weaken in Hc as [Hg Hw Ho Hop Hh].
    split; try done. cbn in *. intros s g [[= -> ->]|Hin]%elem_of_cons; [done|by apply Hw].
  - apply binv_weaken. by eapply commit_inv.
  - by eapply after_inv.
  - apply (currentState_inv n) in Hc as [Hc _]; [|lia|done]. by apply binv_weaken.
Qed.

Lemma bsteps_inv k : ∀ n w w',
  Z.of_nat n + 2 * Z.of_nat k + 3 < 2 ^ 64 → binv n w → nsteps (bstep cf) k w w' →
  binv (n + 2 * k) w'.
Proof.
  induction k as [|k IH]; intros n w w' Hn Hi Hk; inversion Hk; subst; [by rewrite Nat.add_0_r|].
  replace (n + 2 * S k)%nat with (S (S n) + 2 * k)%nat by lia.
  eapply IH; [lia| |done]. eapply bstep_inv; [lia|done..].
Qed.
End invariant.

Lemma New_inv cfg now cf b :
  New cfg now = Ok (cf, b) → 0 ≤ MaxRequests cfg < 2 ^ 32 →
  1 ≤ maxRequests cf < 2 ^ 32 ∧ binv cf 0 (MkWorld b [] []).
Proof.
  unfold New. destruct (Name cfg ==s ""); [done|]. intros [= <- <-] Hm. cbn. split.
  - destruct (MaxRequests cfg =? 0) eqn:?; lia.
  - split; cbn; try done; [by intros ? ? ?%elem_of_nil|by intros ? ?%elem_of_nil].
Qed.

(** ** The cycle of one caller *)

(** Consecutive failures so far; [None] once the sixth has happened. *)
Definition streak (k : option Z) (err : option goerror) : option Z :=
  match k, err with
  | None, _ => None
  | Some _, None => Some 0
  | Some k, Some _ => if k + 1 >? 5 then None else Some (k + 1)
  end.

(** Decides comparisons of known states and of a generation with itself. *)
Local Ltac eval_states :=
  repeat (cbn; first [rewrite Z.eqb_refl | rewrite bool_decide_true by done
                     | rewrite bool_decide_false by done]); cbn.

Section cycle.
Context (cf : settings) (Hmax : 1 ≤ maxRequests cf < 2 ^ 32) (Hint : interval cf ≤ 0).
Context (Htrip : readyToTrip cf = default_trip) (Hok : isSuccessful cf = λ err, bool_decide (err = None)).

(** Closed with [k] consecutive failures. *)
Definition closed_at (k : Z) (b : breaker) : Prop :=
  state b = StateClosed ∧ expiry b = 0 ∧ ConsecutiveFailures (counts b) = k ∧ 0 ≤ k ≤ 5.

Lemma call_closed k b t1 t2 err : closed_at k b →
  match streak (Some k) err with
  | Some k' => closed_at k' (call cf b (t1, t2, err))
  | None => state (call cf b (t1, t2, err)) = StateOpen ∧
            expiry (call cf b (t1, t2, err)) = t2 + timeout cf
  end.
Proof.
  intros (Hs & He & Hk & Hr). destruct b as [st g [rq ts tf cs cfl] x]; cbn in *. subst.
  unfold call, Allow, currentState, commitRequest, done_cb, afterRequest, onSuccess, onFailure, setState.
  eval_states. rewrite Hok.
  destruct err as [err|]; eval_states; [|by repeat split].
  unfold wrap_u32. rewrite Htrip, (Z.mod_small (k + 1)) by lia. unfold default_trip. eval_states.
  destruct (k + 1 >? 5) eqn:Hg; eval_states; [done|]. repeat split; cbn; lia.
Qed.

Lemma call_open_rejected b now : state b = StateOpen → now ≤ expiry b →
  Allow cf b now = (errOpenState, generation b, b).
Proof.
  intros Hs Hle. unfold Allow, currentState, Before. rewrite Hs.
  destruct (expiry b <? now) eqn:?; [lia|]. rewrite andb_false_r. unfold commitRequest.
  by rewrite Z.eqb_refl, Hs.
Qed.

(** Half-open after [j] successful probes. *)
Definition probing (j : Z) (b : breaker) : Prop :=
  state b = StateHalfOpen ∧ Requests (counts b) = j ∧ ConsecutiveSuccesses (counts b) = j ∧
  0 ≤ j < maxRequests cf.

Lemma call_probe j b t1 t2 : probing j b →
  (j + 1 < maxRequests cf → probing (j + 1) (call cf b (t1, t2, None))) ∧
  (j + 1 = maxRequests cf → let b' := call cf b (t1, t2, None) in
     state b' = StateClosed ∧ counts b' = zeroCounts ∧ expiry b' = 0).
Proof.
  intros (Hs & Hr & Hc & Hj). destruct b as [st g [rq ts tf cs cfl] x]; cbn in *. subst.
  unfold call, Allow, currentState, commitRequest, done_cb, afterRequest, onSuccess, setState.
  eval_states. rewrite Z.geb_leb. destruct (maxRequests cf <=? j) eqn:?; [lia|].
  eval_states. rewrite Hok. eval_states. unfold wrap_u32. rewrite !(Z.mod_small (j + 1)) by lia.
  rewrite Z.geb_leb. destruct (maxRequests cf <=? j + 1) eqn:?; eval_states;
    (split; [intros|intros]); try lia.
  - destruct (interval cf >? 0) eqn:?; [lia|]. done.
  - repeat split; cbn; lia.
Qed.

Lemma probes_close ts : ∀ j b, probing j b → j + Z.of_nat (length ts) = maxRequests cf → ts ≠ [] →
  let b' := foldl (λ b t, call cf b (t.1, t.2, None)) b ts in
  state b' = StateClosed ∧ counts b' = zeroCounts ∧ expiry b' = 0.
Proof.
  induction ts as [|[t1 t2] ts IH]; intros j b Hp Hlen Hne; [done|]. cbn [foldl length fst snd] in *.
  destruct (call_probe j b t1 t2 Hp) as [Hgo Hend].
  destruct ts as [|t ts]; [apply Hend; cbn in Hlen; lia|].
  apply (IH (j + 1)); [apply Hgo; cbn in *; lia|cbn in *; lia|done].
Qed.

Lemma call_reopens b t1 t2 : state b = StateOpen → expiry b ≠ 0 → expiry b < t1 →
  call cf b (t1, t2, None) = call cf (toNewGeneration cf (MkBreaker StateHalfOpen (generation b)
      (counts b) (expiry b)) t1) (t1, t2, None).
Proof.
  intros Hs Hx Hlt. unfold call, Allow, currentState, setState, IsZero, Before. rewrite Hs.
  destruct (expiry b =? 0) eqn:?; [lia|]. destruct (expiry b <? t1) eqn:?; [|lia]. cbn. done.
Qed.
End cycle.

(** ** Claims *)

(** C37: probes are bounded and an open breaker admits nothing, in every
    interleaving of any number of callers.  In the half-open state the requests
    admitted in the current generation, in flight or already successful, never
    exceed [MaxRequests].  In the open state no request of the current generation is
    in flight; requests admitted before the trip may be, and until the timeout has
    passed their reports, good or bad, change nothing.  Whenever a caller is admitted
    the breaker is not open at that instant, although it decided on what it saw in
    an earlier critical section. *)
Theorem breaker_admission cfg now0 cf b0 k w :
  New cfg now0 = Ok (cf, b0) → 0 ≤ MaxRequests cfg < 2 ^ 32 →
  nsteps (bstep cf) k (MkWorld b0 [] []) w → 2 * Z.of_nat k + 3 < 2 ^ 64 →
  (state (brk w) = StateHalfOpen →
     holding (generation (brk w)) (outstanding w) + TotalSuccesses (counts (brk w))
       = Requests (counts (brk w)) ∧ Requests (counts (brk w)) ≤ maxRequests cf) ∧
  (state (brk w) = StateOpen →
     holding (generation (brk w)) (outstanding w) = 0 ∧
     ∀ gen success now, gen ∈ outstanding w → now ≤ expiry (brk w) →
       afterRequest cf (brk w) gen success now = (brk w, [])) ∧
  (∀ seen gen b', (seen, gen) ∈ waiting w → commitRequest cf (brk w) seen gen = (Permitted, b') →
     state (brk w) ≠ StateOpen ∧ seen = state (brk w)).
Proof.
  intros Hnew Hm Hk Hn. destruct (New_inv _ _ _ _ Hnew Hm) as [Hmax Hi].
  apply (bsteps_inv cf Hmax k 0 _ _ ltac:(lia) Hi) in Hk as Hinv. destruct Hinv as [Hg Hw Ho Hop Hh].
  split_and!.
  - intros Hs. by destruct (Hh Hs) as (_ & _ & ? & ?).
  - intros Hs. split; [by apply Hop|]. intros gen success now Hin Hle. by apply (open_ignores cf _ (outstanding w)), Hop.
  - intros seen gen b' Hin Hc. destruct (Hw seen gen Hin) as [_ Hseen].
    unfold commitRequest in Hc. destruct (generation (brk w) =? gen) eqn:Hge; [|done].
    apply Z.eqb_eq in Hge. specialize (Hseen (eq_sym Hge)). subst seen. cbn in Hc.
    case_bool_decide; done.
Qed.

(** Two callers are admitted, the failure of the first trips the breaker, and the
    second is still in flight; after the timeout a third is let through as a probe. *)
Module BreakerSample.
Definition config : Config := MkConfig "cb" 1 0 10 (Some (λ _, true)) None.
Definition cf : settings := MkSettings 1 0 10 (λ _, true) (λ err, bool_decide (err = None)).
Definition closed (requests : Z) : breaker := MkBreaker StateClosed 1 (MkCounts requests 0 0 0 0) 0.
Definition tripped : breaker := MkBreaker StateOpen 2 zeroCounts 115.
Definition half_open (requests : Z) : breaker := MkBreaker StateHalfOpen 3 (MkCounts requests 0 0 0 0) 0.

Lemma trips : nsteps (bstep cf) 5 (MkWorld (closed 0) [] []) (MkWorld tripped [] [1]).
Proof.
  eapply nsteps_l; [exact (bs_begin cf (MkWorld (closed 0) [] []) 101 _ _ eq_refl)|].
  eapply nsteps_l; [exact (bs_begin cf (MkWorld (closed 0) [(StateClosed, 1)] []) 102 _ _ eq_refl)|].
  eapply nsteps_l; [exact (bs_commit cf (closed 0) [] StateClosed 1 [(StateClosed, 1)] [] _ _ eq_refl)|].
  eapply nsteps_l; [exact (bs_commit cf (closed 1) [] StateClosed 1 [] [1] _ _ eq_refl)|].
  apply nsteps_once. exact (bs_done cf (closed 2) [] [] 1 [1] false 105 _ _ eq_refl).
Qed.

Lemma probes : nsteps (bstep cf) 7 (MkWorld (closed 0) [] []) (MkWorld (half_open 1) [] [3; 1]).
Proof.
  apply (nsteps_trans 5 2 _ _ _ trips).
  eapply nsteps_l; [exact (bs_begin cf (MkWorld tripped [] [1]) 116 _ _ eq_refl)|].
  apply nsteps_once. exact (bs_commit cf (half_open 0) [] StateHalfOpen 3 [] [1] _ _ eq_refl).
Qed.
End BreakerSample.

Lemma breaker_admission_witness :
  (holding 2 [1] = 0 ∧
   afterRequest BreakerSample.cf BreakerSample.tripped 1 false 115 = (BreakerSample.tripped, [])) ∧
  holding 3 [3; 1] + 0 = 1 ∧ 1 ≤ maxRequests BreakerSample.cf.
Proof.
  split.
  - destruct (breaker_admission BreakerSample.config 100 BreakerSample.cf (BreakerSample.closed 0) 5 _ eq_refl
      ltac:(cbn; lia) BreakerSample.trips ltac:(lia)) as (_ & Hopen & _).
    destruct (Hopen eq_refl) as [Hz Hlate]. split; [exact Hz|]. apply Hlate; [by left|cbn; lia].
  - destruct (breaker_admission BreakerSample.config 100 BreakerSample.cf (BreakerSample.closed 0) 7 _ eq_refl
      ltac:(cbn; lia) BreakerSample.probes ltac:(lia)) as (Hhalf & _). exact (Hhalf eq_refl).
Defined.

(** trip, fast-fail, recover.  With the default policies (and no closed-state
    interval) a caller running alone sees a breaker that counts consecutive
    failures: it stays closed as long as there are at most five and opens on the
    sixth; it then refuses every request, without changing, up to and including
    the instant [Timeout] after the trip; after that, [MaxRequests] successful
    probes close it again with cleared counters. *)
Theorem breaker_cycle cfg now0 cf b0 calls t1 t2 err k probes :
  New cfg now0 = Ok (cf, b0) → 0 ≤ MaxRequests cfg < 2 ^ 32 → Interval cfg ≤ 0 →
  ReadyToTrip cfg = None → IsSuccessful cfg = None →
  foldl streak (Some 0) (calls.*2) = Some k →
  let b := foldl (call cf) b0 calls in
  let b' := call cf b (t1, t2, err) in
  state b = StateClosed ∧ ConsecutiveFailures (counts b) = k ∧
  (streak (Some k) err = None → 0 < t2 →
     state b' = StateOpen ∧
     (∀ now, now ≤ t2 + timeout cf → Allow cf b' now = (errOpenState, generation b', b')) ∧
     (Z.of_nat (length probes) = maxRequests cf →
      (∀ p, head probes = Some p → t2 + timeout cf < p.1) →
      let b'' := foldl (λ b t, call cf b (t.1, t.2, None)) b' probes in
      state b'' = StateClosed ∧ counts b'' = zeroCounts)).
Proof.
  intros Hnew Hm Hi Ht Hs Hst b b'.
  destruct (New_inv _ _ _ _ Hnew Hm) as [Hmax _]. unfold New in Hnew.
  destruct (Name cfg ==s ""); [done|]. injection Hnew as Hcf Hb0.
  assert (interval cf ≤ 0) as Hint by by subst cf.
  assert (readyToTrip cf = default_trip) as Htrip by (subst cf; cbn; by rewrite Ht).
  assert (isSuccessful cf = λ err, bool_decide (err = None)) as Hok by (subst cf; cbn; by rewrite Hs).
  assert (0 < timeout cf) as Hto.
  { subst cf. cbn. destruct (Timeout cfg <=? 0) eqn:?; [done|lia]. }
  assert (closed_at k b) as Hclosed.
  { assert (closed_at 0 b0) as H0.
    { subst b0 cf. unfold closed_at. cbn in *. destruct (Interval cfg >? 0) eqn:?; [lia|]. done. }
    clear Hcf Hb0 b'. revert H0 Hst. subst b. generalize 0 as j. revert b0.
    induction calls as [|[[u1 u2] er] calls IH]; intros b j Hj Hst; cbn in *; [by simplify_eq|].
    pose proof (call_closed cf Htrip Hok j b u1 u2 er Hj) as Hc.
    destruct (match er with Some _ => _ | None => _ end) as [j'|] eqn:Hj'.
    - replace (streak (Some j) er) with (Some j') in Hc by done. by eapply IH.
    - exfalso. clear -Hst. induction calls as [|c calls IH]; cbn in Hst; [done|by apply IH]. }
  split; [apply Hclosed|]. split; [apply Hclosed|]. intros Hnone Hpos.
  pose proof (call_closed cf Htrip Hok k b t1 t2 err Hclosed) as Hc. rewrite Hnone in Hc.
  fold b' in Hc. destruct Hc as [Hopen Hexp]. split_and!; [done| |].
  - intros now Hnow. apply call_open_rejected; [done|lia].
  - intros Hlen Hhead. destruct probes as [|[p1 p2] probes]; [cbn in Hlen; lia|].
    specialize (Hhead _ eq_refl). cbn in Hhead. cbn [foldl fst snd]. rewrite call_reopens by (done || lia).
    destruct (probes_close cf Hmax Hint Hok ((p1, p2) :: probes) 0
      (toNewGeneration cf (MkBreaker StateHalfOpen (generation b') (counts b') (expiry b')) p1))
      as (? & ? & _); [|cbn in *; lia|done|done]. unfold probing. cbn. repeat split; lia.
Qed.

Lemma breaker_cycle_witness :
  let fail := Some (ErrorsNew "boom") in
  let calls := [(1, 2, fail); (3, 4, None); (5, 6, fail); (7, 8, fail); (9, 10, fail); (11, 12, fail);
                (13, 14, fail)] in
  ∃ cf b0, New (MkConfig "cb" 0 0 10 None None) 0 = Ok (cf, b0) ∧
    state (foldl (call cf) b0 calls) = StateClosed ∧
    let b' := call cf (foldl (call cf) b0 calls) (15, 16, fail) in
    Allow cf b' 26 = (errOpenState, generation b', b') ∧
    state (foldl (λ b t, call cf b (t.1, t.2, None)) b' [(27, 30)]) = StateClosed.
Proof.
  intros fail calls. eexists _, _. split; [reflexivity|].
  set (cf := MkSettings _ _ _ _ _). set (b0 := toNewGeneration _ _ _).
  destruct (breaker_cycle (MkConfig "cb" 0 0 10 None None) 0 cf b0 calls 15 16 fail 5 [(27, 30)])
    as (Hc & _ & Ho); try reflexivity; try (cbn; lia).
  split; [exact Hc|]. destruct Ho as (_ & Hrej & Hrec); [reflexivity|lia|].
  split; [apply Hrej; cbn; lia|]. destruct Hrec as [H _]; [reflexivity| |exact H].
  intros p Hp. injection Hp as <-. cbn. lia.
Defined.
