(* ===== verification/Idempotency.v ===== *)
(** * kernel/idempotency: the two-phase claimer

    [InMemClaimer] is a map from keys to leases or done markers, guarded by a
    mutex: each method is one atomic operation.  A receipt handed out by [Claim]
    is a value with a [sync.Once]; receipts live in a list next to the map and
    are named by their position.  Clock readings and random bytes are arguments. *)

From S2P Require Import Prelude IdUtil.

(** [ClaimStateOther]: the values the [uint8] has besides the declared ones. *)
Inductive ClaimState : Type := ClaimAcquired | ClaimDone | ClaimBusy | ClaimStateOther (n : N).

#[global] Instance ClaimState_eq_dec : EqDecision ClaimState.
Proof. solve_decision. Defined.

Definition ErrLeaseExpired : goerror :=
  Errcode KindConflict "ERR_IDEMPOTENCY_LEASE_EXPIRED" "idempotency: processing lease expired".
Definition ErrNoClaimLease : goerror :=
  Errcode KindConflict "ERR_IDEMPOTENCY_NO_CLAIM_LEASE" "idempotency: no acquired claim lease".
Definition errStaleReceipt : goerror :=
  ErrorsNew "idempotency: receipt is stale (claim was released or expired)".

Record inMemEntry := MkEntry {
  ent_state : ClaimState;   (* ClaimAcquired or ClaimDone *)
  token : string;
  expiresAt : Time;
}.

(** [rcp_err] is the receipt's [err] once its [Once] has run. *)
Record inMemReceipt := MkReceipt {
  rcp_key : string;
  rcp_token : string;
  doneTTL : Duration;
  rcp_err : option (outcome unit);
}.

Record InMemClaimer := MkClaimer {
  entries : gmap string inMemEntry;
  receipts : list inMemReceipt;
}.

Definition NewInMemClaimer : InMemClaimer := MkClaimer ∅ [].

Definition newToken (entropy : list Z) : outcome string :=
  if bool_decide (length entropy = 8%nat) then Ok (hex_bytes entropy)
  else Err (Errorf "idempotency: rand source read failed" (ErrorsNew "unexpected EOF")).

(** The state, the receipt ([None] is [NonAcquiredReceipt] or nil) and the
    error. *)
Definition Claim (c : InMemClaimer) (now : Time) (entropy : list Z) (key : string)
    (leaseTTL doneTTL : Duration) : (ClaimState * option nat * option goerror) * InMemClaimer :=
  let fresh c :=
    match newToken entropy with
    | Err err => ((ClaimBusy, None, Some err), c)
    | Ok tok =>
        ((ClaimAcquired, Some (length (receipts c)), None),
         MkClaimer (<[key := MkEntry ClaimAcquired tok (now + leaseTTL)]> (entries c))
           (receipts c ++ [MkReceipt key tok doneTTL None]))
    end in
  match entries c !! key with
  | Some existing =>
      if Before now (expiresAt existing) then
        if bool_decide (ent_state existing = ClaimDone) then ((ClaimDone, None, None), c)
        else ((ClaimBusy, None, None), c)
      else fresh (MkClaimer (delete key (entries c)) (receipts c))
  | None => fresh c
  end.

(** The entry a receipt still owns. *)
Definition owned (c : InMemClaimer) (r : inMemReceipt) : option inMemEntry :=
  match entries c !! rcp_key r with
  | Some e => if token e ==s rcp_token r then Some e else None
  | None => None
  end.

(** [r.used.Do(f)]: runs [f] the first time only and keeps its error. *)
Definition use_once (c : InMemClaimer) (i : nat) (f : inMemReceipt → outcome unit * gmap string inMemEntry)
  : outcome unit * InMemClaimer :=
  match receipts c !! i with
  | None => (Err ErrNoClaimLease, c)
  | Some r =>
      match rcp_err r with
      | Some res => (res, c)
      | None =>
          let '(res, es) := f r in
          (res, MkClaimer es (<[i := MkReceipt (rcp_key r) (rcp_token r) (doneTTL r) (Some res)]> (receipts c)))
      end
  end.

Definition Commit (c : InMemClaimer) (i : nat) (now : Time) : outcome unit * InMemClaimer :=
  use_once c i (λ r,
    match owned c r with
    | None => (Err errStaleReceipt, entries c)
    | Some e => (Ok tt, <[rcp_key r := MkEntry ClaimDone (token e) (now + doneTTL r)]> (entries c))
    end).

Definition Release (c : InMemClaimer) (i : nat) : outcome unit * InMemClaimer :=
  use_once c i (λ r,
    match owned c r with
    | None => (Err errStaleReceipt, entries c)
    | Some _ => (Ok tt, delete (rcp_key r) (entries c))
    end).

Definition Extend (c : InMemClaimer) (i : nat) (now : Time) (ttl : Duration)
  : outcome unit * InMemClaimer :=
  match receipts c !! i with
  | None => (Err ErrNoClaimLease, c)
  | Some r =>
      match owned c r with
      | None => (Err ErrLeaseExpired, c)
      | Some e => (Ok tt, MkClaimer (<[rcp_key r := MkEntry (ent_state e) (token e) (now + ttl)]> (entries c))
                            (receipts c))
      end
  end.

(** ** The claimer as its clients see it *)

Class Claimer (C : Type) := {
  cl_Claim : C → Time → list Z → string → Duration → Duration →
             (ClaimState * option nat * option goerror) * C;
  cl_Commit : C → nat → Time → outcome unit * C;
  cl_Release : C → nat → outcome unit * C;
}.

#[global] Instance InMemClaimer_Claimer : Claimer InMemClaimer := {|
  cl_Claim := Claim;
  cl_Commit := Commit;
  cl_Release := Release;
|}.

(** ** Histories *)

Inductive claimer_op : Type :=
  | OpClaim (now : Time) (entropy : list Z) (key : string) (leaseTTL doneTTL : Duration)
  | OpCommit (i : nat) (now : Time)
  | OpRelease (i : nat)
  | OpExtend (i : nat) (now : Time) (ttl : Duration).

Definition claimer_exec (c : InMemClaimer) (op : claimer_op) : InMemClaimer :=
  match op with
  | OpClaim now en key l d => (Claim c now en key l d).2
  | OpCommit i now => (Commit c i now).2
  | OpRelease i => (Release c i).2
  | OpExtend i now ttl => (Extend c i now ttl).2
  end.

(** The random source never repeats a token that a receipt still carries. *)
Definition fresh_tokens (c : InMemClaimer) (op : claimer_op) : Prop :=
  match op with
  | OpClaim _ en _ _ _ => ∀ tok r, newToken en = Ok tok → r ∈ receipts c → rcp_token r ≠ tok
  | _ => True
  end.

Inductive claimer_run : InMemClaimer → list claimer_op → InMemClaimer → Prop :=
  | run_nil c : claimer_run c [] c
  | run_cons c op ops c' :
      fresh_tokens c op → claimer_run (claimer_exec c op) ops c' → claimer_run c (op :: ops) c'.

(** Receipts have distinct tokens. *)
Definition tokens_distinct (c : InMemClaimer) : Prop :=
  ∀ i j r s, receipts c !! i = Some r → receipts c !! j = Some s → rcp_token r = rcp_token s → i = j.

(** Operation [op] is performed with receipt [i]. *)
Definition by_receipt (i : nat) (op : claimer_op) : Prop :=
  match op with OpClaim _ _ _ _ _ => False | OpCommit j _ | OpRelease j | OpExtend j _ _ => j = i end.

(** A claim of [key], if that is what [op] is, reads the clock before [t]. *)
Definition claims_before (key : string) (t : Time) (op : claimer_op) : Prop :=
  match op with OpClaim now _ k _ _ => k = key → now < t | _ => True end.

(** ** Lemmas *)

Lemma owned_Some c r e :
  owned c r = Some e ↔ entries c !! rcp_key r = Some e ∧ token e = rcp_token r.
Proof.
  unfold owned. destruct (entries c !! rcp_key r) as [x|]; [|naive_solver].
  destruct (token x ==s rcp_token r) eqn:Hx; bools; naive_solver.
Qed.

(** A method of receipt [i] leaves every other key and every other receipt
    alone, and changes nothing in the map unless the receipt owns its entry. *)
Lemma receipt_op_frame c op i r :
  by_receipt i op → receipts c !! i = Some r →
  (∀ k, k ≠ rcp_key r → entries (claimer_exec c op) !! k = entries c !! k) ∧
  (owned c r = None → entries (claimer_exec c op) = entries c) ∧
  (∀ j, j ≠ i → receipts (claimer_exec c op) !! j = receipts c !! j) ∧
  (∃ res, receipts (claimer_exec c op) !! i = Some (MkReceipt (rcp_key r) (rcp_token r) (doneTTL r) res)).
Proof.
  intros Hby Hr. destruct op as [|j now|j|j now ttl]; cbn in Hby; [done|subst j..];
    cbn; unfold Commit, Release, Extend, use_once; rewrite Hr;
    repeat (case_match; simplify_eq; cbn);
    (split_and!;
      [intros k Hk; rewrite ?lookup_insert_ne, ?lookup_delete_ne by done; done
      |done
      |intros j' Hj'; rewrite ?list_lookup_insert_ne by done; done
      |]);
    rewrite ?list_lookup_insert_eq by (by eapply lookup_lt_Some);
    (destruct r; eauto).
Qed.

(** What it leaves under its key is what was there, or carries its token. *)
Lemma receipt_op_token c op i r x :
  by_receipt i op → receipts c !! i = Some r → entries (claimer_exec c op) !! rcp_key r = Some x →
  entries c !! rcp_key r = Some x ∨ token x = rcp_token r.
Proof.
  intros Hby Hr. destruct (owned c r) as [e|] eqn:Ho.
  2:{ destruct (receipt_op_frame c op i r Hby Hr) as (_ & Hnone & _). rewrite Hnone by done. by left. }
  pose proof Ho as [He Ht]%owned_Some.
  destruct op as [|j now|j|j now ttl]; cbn in Hby; [done|subst j..]; cbn;
    unfold Commit, Release, Extend, use_once; rewrite Hr, ?Ho; [destruct (rcp_err r)..|];
    cbn; try (by left); rewrite ?lookup_insert_eq, ?lookup_delete_eq; try done;
    intros [= <-]; by right.
Qed.

Lemma receipt_op_missing c op i :
  by_receipt i op → receipts c !! i = None → claimer_exec c op = c.
Proof.
  intros Hby Hr. destruct op as [|j now|j|j now ttl]; cbn in Hby; [done|subst j..];
    cbn; unfold Commit, Release, Extend, use_once; by rewrite Hr.
Qed.

Lemma claim_frame c now en key l d :
  let c' := (Claim c now en key l d).2 in
  (∀ k, k ≠ key → entries c' !! k = entries c !! k) ∧
  (∀ e, entries c !! key = Some e → now < expiresAt e → c' = c) ∧
  (receipts c' = receipts c ∧ (entries c' !! key = entries c !! key ∨ entries c' !! key = None) ∨
   ∃ tok, newToken en = Ok tok ∧ receipts c' = receipts c ++ [MkReceipt key tok d None]
     ∧ entries c' !! key = Some (MkEntry ClaimAcquired tok (now + l))).
Proof.
  unfold Claim. cbn zeta. destruct (entries c !! key) as [e|] eqn:He.
  - destruct (Before now (expiresAt e)) eqn:Hb.
    { case_bool_decide; cbn; split_and!; try done; left; auto. }
    assert (∀ e0, Some e = Some e0 → now < expiresAt e0 → False) as Hno.
    { intros ? [= <-] ?. unfold Before in Hb. apply Z.ltb_ge in Hb. lia. }
    destruct (newToken en) as [tok|]; cbn; split_and!;
      try (intros k Hk; by rewrite ?lookup_insert_ne, ?lookup_delete_ne);
      try (intros ? H1 H2; by destruct (Hno _ H1 H2)).
    + right. eexists. split_and!; [done..|]. by rewrite lookup_insert_eq.
    + left. rewrite lookup_delete_eq. auto.
  - destruct (newToken en) as [tok|]; cbn; split_and!; try done;
      try (intros k Hk; by rewrite ?lookup_insert_ne).
    + right. eexists. split_and!; [done..|]. by rewrite lookup_insert_eq.
    + left. auto.
Qed.

Lemma op_cases op :
  (∃ i, by_receipt i op) ∨ ∃ now en key l d, op = OpClaim now en key l d.
Proof. destruct op; [right; by do 5 eexists|left; by eexists..]. Qed.

Lemma exec_distinct c op :
  fresh_tokens c op → tokens_distinct c → tokens_distinct (claimer_exec c op).
Proof.
  intros Hf Hd. destruct (op_cases op) as [[i Hby]|(now & en & key & l & d & ->)].
  - destruct (receipts c !! i) as [r|] eqn:Hr; [|by rewrite (receipt_op_missing _ _ i)].
    destruct (receipt_op_frame c op i r Hby Hr) as (_ & _ & Ho & (res & Hi)).
    assert (∀ j x, receipts (claimer_exec c op) !! j = Some x →
              ∃ y, receipts c !! j = Some y ∧ rcp_token y = rcp_token x) as Hback.
    { intros j x Hx. destruct (decide (j = i)) as [->|].
      - rewrite Hi in Hx. simplify_eq. by exists r.
      - rewrite Ho in Hx by done. by exists x. }
    intros j k x y Hx Hy Heq. apply Hback in Hx as (x' & Hx & Hxt). apply Hback in Hy as (y' & Hy & Hyt).
    eapply Hd; [exact Hx|exact Hy|congruence].
  - destruct (claim_frame c now en key l d) as (_ & _ & [[Heq _]|(tok & Htok & Heq & _)]); cbn in *.
    { intros i j r s. rewrite Heq. apply Hd. }
    intros i j r s. rewrite Heq. cbn in Hf.
    intros [Hr|[-> ->]]%list_lookup_snoc [Hs|[-> ->]]%list_lookup_snoc Hrs; cbn in Hrs; try done.
    + by eapply Hd.
    + exfalso. eapply Hf; [exact Htok| |exact Hrs]. by eapply list_elem_of_lookup_2.
    + exfalso. eapply Hf; [exact Htok| |symmetry; exact Hrs]. by eapply list_elem_of_lookup_2.
Qed.

(** While receipt [i] owns the entry of its key, nobody else can touch it before
    it expires. *)
Lemma owner_undisturbed c op i r e :
  tokens_distinct c → fresh_tokens c op → receipts c !! i = Some r → owned c r = Some e →
  ¬ by_receipt i op → claims_before (rcp_key r) (expiresAt e) op →
  receipts (claimer_exec c op) !! i = Some r ∧ owned (claimer_exec c op) r = Some e.
Proof.
  intros Hd Hf Hr Ho Hnot Hcl. pose proof Ho as Ho'. apply owned_Some in Ho' as [He Ht].
  destruct (op_cases op) as [[j Hby]|(now & en & key & l & d & ->)].
  - destruct (receipts c !! j) as [s|] eqn:Hs; [|by rewrite (receipt_op_missing _ _ j)].
    destruct (receipt_op_frame c op j s Hby Hs) as (Hk & Hnone & Hrs & _).
    assert (i ≠ j) as Hij by (intros ->; done).
    split; [by rewrite Hrs|]. apply owned_Some. split; [|done].
    destruct (decide (rcp_key s = rcp_key r)) as [Hks|]; [|by rewrite Hk].
    rewrite Hnone; [done|]. unfold owned. rewrite Hks, He.
    destruct (token e ==s rcp_token s) eqn:Htok; bools; [|done].
    exfalso. apply Hij. eapply Hd; [exact Hr|exact Hs|congruence].
  - destruct (claim_frame c now en key l d) as (Hk & Hsame & Hrs). cbn in *. split.
    + destruct Hrs as [[-> _]|(tok & _ & -> & _)]; [done|]. apply lookup_app_l_Some, Hr.
    + apply owned_Some. split; [|done]. destruct (decide (key = rcp_key r)) as [->|]; [|by rewrite Hk].
      rewrite (Hsame e He); [done|]. by apply Hcl.
Qed.

(** A receipt that does not own its entry never will again. *)
Lemma stale_forever c op i r :
  tokens_distinct c → fresh_tokens c op → receipts c !! i = Some r → owned c r = None →
  ∃ r', receipts (claimer_exec c op) !! i = Some r' ∧ rcp_key r' = rcp_key r ∧
    rcp_token r' = rcp_token r ∧ owned (claimer_exec c op) r' = None.
Proof.
  intros Hd Hf Hr Ho.
  assert (∀ c', entries c' !! rcp_key r = entries c !! rcp_key r → owned c' r = None) as Hsame.
  { intros c' Heq. unfold owned in *. by rewrite Heq. }
  destruct (op_cases op) as [[j Hby]|(now & en & key & l & d & ->)].
  - destruct (receipts c !! j) as [s|] eqn:Hs.
    2:{ rewrite (receipt_op_missing _ _ j) by done. by exists r. }
    destruct (receipt_op_frame c op j s Hby Hs) as (Hk & Hnone & Hrs & (res & Hj)).
    destruct (decide (i = j)) as [->|Hij].
    + simplify_eq. eexists. split_and!; [exact Hj|done..|]. unfold owned in *. cbn. by rewrite Hnone.
    + exists r. split_and!; [by rewrite Hrs|done..|].
      destruct (decide (rcp_key s = rcp_key r)) as [Hks|]; [|by apply Hsame, Hk].
      destruct (owned (claimer_exec c op) r) as [x|] eqn:Hx; [exfalso|done].
      apply owned_Some in Hx as [Hx Hxt]. rewrite <- Hks in Hx.
      destruct (receipt_op_token c op j s x Hby Hs Hx) as [Hold|Htok].
      * rewrite Hks in Hold. assert (owned c r = Some x) by by apply owned_Some. congruence.
      * apply Hij. eapply Hd; [exact Hr|exact Hs|congruence].
  - destruct (claim_frame c now en key l d) as (Hk & Hsm & Hrs). cbn in *. exists r. split_and!; [|done..|].
    + destruct Hrs as [[-> _]|(tok & _ & -> & _)]; [done|]. apply lookup_app_l_Some, Hr.
    + destruct (decide (key = rcp_key r)) as [->|]; [|by apply Hsame, Hk].
      destruct (owned (Claim c now en (rcp_key r) l d).2 r) as [x|] eqn:Hx; [exfalso|done]. apply owned_Some in Hx as [Hx Hxt].
      destruct Hrs as [[_ [Heq|Heq]]|(tok & Htok & _ & Hnew)].
      * rewrite Heq in Hx. assert (owned c r = Some x) by by apply owned_Some. congruence.
      * by rewrite Heq in Hx.
      * rewrite Hnew in Hx. simplify_eq. cbn in Hxt. eapply Hf; [exact Htok| |symmetry; exact Hxt].
        by eapply list_elem_of_lookup_2.
Qed.

Lemma run_distinct c ops c' : claimer_run c ops c' → tokens_distinct c → tokens_distinct c'.
Proof. induction 1; eauto using exec_distinct. Qed.

Lemma reachable_distinct ops c : claimer_run NewInMemClaimer ops c → tokens_distinct c.
Proof. intros Hr. eapply run_distinct; [exact Hr|]. by intros i j r s. Qed.

(** [op] is harmless to receipt [i]: not by it, or by it when its [Once] is
    spent (only [Extend] still acts). *)
Definition harmless (i : nat) (r : inMemReceipt) (op : claimer_op) : Prop :=
  match op with
  | OpClaim _ _ _ _ _ => True
  | OpCommit j _ | OpRelease j => j = i → is_Some (rcp_err r)
  | OpExtend j _ _ => j ≠ i
  end.

Lemma owner_run c ops c' i r e :
  claimer_run c ops c' → tokens_distinct c → receipts c !! i = Some r → owned c r = Some e →
  Forall (λ op, harmless i r op ∧ claims_before (rcp_key r) (expiresAt e) op) ops →
  receipts c' !! i = Some r ∧ owned c' r = Some e.
Proof.
  induction 1 as [|c op ops c' Hf _ IH]; intros Hd Hr Ho Hops; [done|].
  apply Forall_cons in Hops as [[Hh Hcl] Hops].
  destruct (op_cases op) as [[j Hby]|(now & en & key & l & d & ->)].
  - destruct (decide (j = i)) as [->|Hj].
    + assert (claimer_exec c op = c) as Heq; [|rewrite Heq in IH; by apply IH].
      destruct op as [|k now|k|k now ttl]; cbn in Hby, Hh; [done|subst k..|done];
        destruct (Hh eq_refl) as [res Hres]; cbn; unfold Commit, Release, use_once; by rewrite Hr, Hres.
    + assert (¬ by_receipt i op) as Hnot by (destruct op; cbn in *; congruence).
      destruct (owner_undisturbed c op i r e Hd Hf Hr Ho Hnot Hcl).
      apply IH; eauto using exec_distinct.
  - destruct (owner_undisturbed c _ i r e Hd Hf Hr Ho ltac:(by intros []) Hcl).
    apply IH; eauto using exec_distinct.
Qed.

Lemma stale_run c ops c' i r :
  claimer_run c ops c' → tokens_distinct c → receipts c !! i = Some r → owned c r = None →
  ∃ r', receipts c' !! i = Some r' ∧ rcp_key r' = rcp_key r ∧ rcp_token r' = rcp_token r ∧
    owned c' r' = None.
Proof.
  intros Hrun. revert r. induction Hrun as [|c op ops c' Hf _ IH]; intros r Hd Hr Ho; [by exists r|].
  destruct (stale_forever c op i r Hd Hf Hr Ho) as (r1 & Hr1 & Hk1 & Ht1 & Ho1).
  destruct (IH r1) as (r2 & ? & ? & ? & ?); [by apply exec_distinct|done..|].
  exists r2. split_and!; congruence.
Qed.

Lemma Claim_held c now en key l d r e :
  owned c r = Some e → rcp_key r = key → now < expiresAt e →
  Claim c now en key l d =
    ((if bool_decide (ent_state e = ClaimDone) then ClaimDone else ClaimBusy, None, None), c).
Proof.
  intros [He _]%owned_Some <- Hlt. unfold Claim. rewrite He. unfold Before.
  destruct (now <? expiresAt e) eqn:?; [|lia]. by case_bool_decide.
Qed.

Lemma Claim_acquired c now en key l d i c1 :
  Claim c now en key l d = ((ClaimAcquired, Some i, None), c1) →
  ∃ tok, receipts c1 !! i = Some (MkReceipt key tok d None) ∧
    owned c1 (MkReceipt key tok d None) = Some (MkEntry ClaimAcquired tok (now + l)).
Proof.
  intros Hc. destruct (claim_frame c now en key l d) as (_ & _ & Hrs). rewrite Hc in Hrs. cbn in Hrs.
  assert (∃ tok, newToken en = Ok tok ∧ i = length (receipts c) ∧ receipts c1 = receipts c ++ [MkReceipt key tok d None]
    ∧ entries c1 !! key = Some (MkEntry ClaimAcquired tok (now + l))) as (tok & _ & -> & Hrc & Hent).
  { unfold Claim in Hc. destruct (newToken en) as [tok|]; [exists tok|];
      repeat case_match; simplify_eq; split_and!; cbn; try done; by rewrite lookup_insert_eq. }
  exists tok. rewrite Hrc. split; [by apply list_lookup_middle|]. by apply owned_Some.
Qed.

(** ** Claims *)

(** C38: a claim is exclusive and a commit is remembered.  From a successful
    [Claim] until its lease runs out, whatever other consumers do, every other
    claim of the key is told Busy; a [Commit] of the receipt then succeeds, and
    from it until [doneTTL] later every claim of the key is told Done, so the
    event is not processed again.  Only [Extend] on the committed receipt breaks
    this: documented to fail when no lease is held, it succeeds and replaces the
    expiry of the done marker, after which the key can be claimed again. *)
Theorem claim_exclusive ops0 c now en key l d i c1 ops c2 t :
  claimer_run NewInMemClaimer ops0 c → fresh_tokens c (OpClaim now en key l d) →
  Claim c now en key l d = ((ClaimAcquired, Some i, None), c1) →
  claimer_run c1 ops c2 →
  Forall (λ op, ¬ by_receipt i op ∧ claims_before key (now + l) op) ops →
  (∀ now' en' l' d', now' < now + l → Claim c2 now' en' key l' d' = ((ClaimBusy, None, None), c2)) ∧
  let '(res, c3) := Commit c2 i t in
  res = Ok tt ∧
  (∀ ops' c4, claimer_run c3 ops' c4 →
     Forall (λ op, (∀ u ttl, op ≠ OpExtend i u ttl) ∧ claims_before key (t + d) op) ops' →
     ∀ now' en' l' d', now' < t + d → Claim c4 now' en' key l' d' = ((ClaimDone, None, None), c4)) ∧
  (∀ u ttl en' l' d', (Extend c3 i u ttl).1 = Ok tt ∧
     (is_ok (newToken en') = true →
      (Claim (Extend c3 i u ttl).2 (u + ttl) en' key l' d').1.1.1 = ClaimAcquired)).
Proof.
  intros Hrun0 Hf Hc Hrun Hops. apply reachable_distinct in Hrun0 as Hd.
  destruct (Claim_acquired _ _ _ _ _ _ _ _ Hc) as (tok & Hr & Ho).
  assert (tokens_distinct c1) as Hd1.
  { pose proof (exec_distinct c (OpClaim now en key l d) Hf Hd) as H. cbn in H. by rewrite Hc in H. }
  destruct (owner_run c1 ops c2 i _ _ Hrun Hd1 Hr Ho) as [Hr2 Ho2].
  { eapply Forall_impl; [exact Hops|]. intros op [Hnot Hb]. split; [|done].
    destruct op; cbn in *; try done; by intros ->. }
  pose proof (run_distinct _ _ _ Hrun Hd1) as Hd2.
  split; [intros; by erewrite Claim_held by done|].
  unfold Commit, use_once. rewrite Hr2. cbn [rcp_err]. rewrite Ho2. cbn [rcp_key rcp_token doneTTL token].
  set (c3 := MkClaimer _ _). set (r3 := MkReceipt key tok d (Some (Ok tt))) in *.
  assert (receipts c3 !! i = Some r3) as Hr3.
  { cbn. rewrite list_lookup_insert_eq; [done|]. by eapply lookup_lt_Some. }
  assert (owned c3 r3 = Some (MkEntry ClaimDone tok (t + d))) as Ho3.
  { apply owned_Some. split; [cbn; by rewrite lookup_insert_eq|done]. }
  assert (tokens_distinct c3) as Hd3.
  { pose proof (exec_distinct c2 (OpCommit i t) I Hd2) as H. cbn in H.
    unfold Commit, use_once in H. rewrite Hr2 in H. cbn [rcp_err] in H. by rewrite Ho2 in H. }
  split_and!; [done| |].
  - intros ops' c4 Hrun' Hops' now' en' l' d' Hlt.
    destruct (owner_run c3 ops' c4 i r3 _ Hrun' Hd3 Hr3 Ho3) as [_ Ho4].
    { eapply Forall_impl; [exact Hops'|]. intros op [Hnot Hb]. split; [|done].
      destruct op; cbn in *; try done; [by eexists..|]. intros ->. by eapply Hnot. }
    by erewrite Claim_held by done.
  - intros u ttl en' l' d'. unfold Extend. rewrite Hr3, Ho3. cbn [fst snd]. split; [done|].
    unfold Claim. cbn. rewrite lookup_insert_eq. unfold Before. cbn. rewrite Z.ltb_irrefl.
    by destruct (newToken en').
Qed.

Definition demo_bytes (n : Z) : list Z := [n; 0; 0; 0; 0; 0; 0; 0].

Lemma claim_exclusive_witness :
  let c1 := (Claim NewInMemClaimer 10 (demo_bytes 1) "k" 5 100).2 in
  let c2 := claimer_exec c1 (OpClaim 12 (demo_bytes 2) "k" 5 100) in
  (∀ now' en' l' d', now' < 15 → Claim c2 now' en' "k" l' d' = ((ClaimBusy, None, None), c2)) ∧
  (Commit c2 0 14).1 = Ok tt.
Proof.
  intros c1 c2.
  destruct (claim_exclusive [] NewInMemClaimer 10 (demo_bytes 1) "k" 5 100 0 c1
    [OpClaim 12 (demo_bytes 2) "k" 5 100] c2 14) as [Hbusy Hc].
  - constructor.
  - intros tok r _ Hr. cbn in Hr. by apply elem_of_nil in Hr.
  - vm_compute. reflexivity.
  - constructor; [|constructor]. intros tok r Htok Hr.
    assert (rcp_token r = "0100000000000000") as ->.
    { apply list_elem_of_singleton in Hr as ->. reflexivity. }
    injection Htok as <-. vm_compute. discriminate.
  - constructor; [|constructor]. split; [by intros []|intros _; lia].
  - split; [exact Hbusy|]. destruct (Commit c2 0 14) as [res c3]. apply Hc.
Defined.

(** a superseded receipt is harmless.  Once the entry of its key is gone or
    carries another consumer's token, then after any further operations of
    anyone, its [Extend] reports the lost lease, and neither it nor [Commit] nor
    [Release] changes any lease or done marker; a [Commit] that had not been
    tried before is refused as stale. *)
Theorem stale_receipt_harmless ops0 c i r ops c' :
  claimer_run NewInMemClaimer ops0 c → receipts c !! i = Some r → owned c r = None →
  claimer_run c ops c' →
  ∃ r', receipts c' !! i = Some r' ∧ ∀ now ttl,
    Extend c' i now ttl = (Err ErrLeaseExpired, c') ∧
    entries (Commit c' i now).2 = entries c' ∧ entries (Release c' i).2 = entries c' ∧
    (rcp_err r' = None → (Commit c' i now).1 = Err errStaleReceipt ∧
                         (Release c' i).1 = Err errStaleReceipt).
Proof.
  intros Hrun0%reachable_distinct Hr Ho Hrun.
  destruct (stale_run c ops c' i r Hrun Hrun0 Hr Ho) as (r' & Hr' & _ & _ & Ho').
  exists r'. split; [done|]. intros now ttl. unfold Extend, Commit, Release, use_once.
  rewrite Hr', Ho'. by destruct (rcp_err r').
Qed.

Lemma stale_receipt_harmless_witness :
  let c := claimer_exec (claimer_exec NewInMemClaimer (OpClaim 10 (demo_bytes 1) "k" 5 100))
             (OpClaim 20 (demo_bytes 2) "k" 5 100) in
  ∃ r', receipts c !! 0%nat = Some r' ∧ Extend c 0 21 5 = (Err ErrLeaseExpired, c).
Proof.
  intros c.
  assert (claimer_run NewInMemClaimer
    [OpClaim 10 (demo_bytes 1) "k" 5 100; OpClaim 20 (demo_bytes 2) "k" 5 100] c) as Hrun.
  { constructor; [intros tok r _ Hr; cbn in Hr; by apply elem_of_nil in Hr|].
    constructor; [|constructor]. intros tok r Htok Hr.
    assert (rcp_token r = "0100000000000000") as ->.
    { apply list_elem_of_singleton in Hr as ->. reflexivity. }
    injection Htok as <-. vm_compute. discriminate. }
  destruct (stale_receipt_harmless _ c 0 (MkReceipt "k" "0100000000000000" 100 None) [] c Hrun
    eq_refl ltac:(vm_compute; reflexivity) (run_nil c)) as (r' & Hr' & H).
  exists r'. split; [exact Hr'|]. apply (H 21 5).
Defined.
