(* ===== verification/ConsumerBase.v ===== *)
(** * kernel/outbox/consumer_base.go: the idempotent, retrying consumer

    [Wrap] claims the event, runs the business handler under the claim with
    bounded retries and reports to the broker what to do with the delivery.
    What the surroundings answer (each claim, each run of the handler, whether a
    wait ended by its timer or by cancellation, whether the lease renewal lost
    the lease) is the environment [cenv], indexed by the number of the call; the
    functions also return how often claim and handler were called. *)

From S2P Require Import Prelude Idempotency.

Inductive Disposition : Type :=
  | DispositionAck | DispositionRequeue | DispositionReject | DispositionOther (n : N).

#[global] Instance Disposition_eq_dec : EqDecision Disposition.
Proof. solve_decision. Defined.

Record HandleResult := MkResult {
  hr_Disposition : Disposition;
  hr_Err : option goerror;
}.

Record DeliveryOutcome := MkDelivery {
  do_Disposition : Disposition;
  do_Err : option goerror;
  ProcessReason : string;
}.

Definition Ack : HandleResult := MkResult DispositionAck None.
Definition Requeue (err : option goerror) : HandleResult := MkResult DispositionRequeue err.

Inductive ClaimPolicy : Type := ClaimPolicyFailClosed | ClaimPolicyFailOpen | ClaimPolicyOther (n : N).

#[global] Instance ClaimPolicy_eq_dec : EqDecision ClaimPolicy.
Proof. solve_decision. Defined.

Definition ClaimPolicy_Valid (p : ClaimPolicy) : bool :=
  match p with ClaimPolicyOther _ => false | _ => true end.

Record ConsumerBaseConfig := MkConfig {
  RetryCount : Z;
  RetryBaseDelay : Duration;
  IdempotencyTTL : Duration;
  LeaseTTL : Duration;
  cfg_ClaimPolicy : ClaimPolicy;
  ClaimRetryCount : Z;
  ClaimRetryBaseDelay : Duration;
  MaxRetryDelay : Duration;
  LeaseRenewalInterval : Duration;
}.

Definition DefaultTTL : Duration := 24 * Hour.
Definition DefaultLeaseTTL : Duration := 5 * Minute.
Definition leaseRenewalDivisor : Z := 3.

Definition or_default (x dflt : Z) : Z := if x <=? 0 then dflt else x.

Definition SetDefaults (c : ConsumerBaseConfig) : ConsumerBaseConfig :=
  let retryCount := or_default (RetryCount c) 3 in
  let retryBase := or_default (RetryBaseDelay c) (1 * Second) in
  let leaseTTL := or_default (LeaseTTL c) DefaultLeaseTTL in
  MkConfig retryCount retryBase (or_default (IdempotencyTTL c) DefaultTTL) leaseTTL
    (cfg_ClaimPolicy c)
    (or_default (ClaimRetryCount c) retryCount)
    (or_default (ClaimRetryBaseDelay c) retryBase)
    (or_default (MaxRetryDelay c) (30 * Second))
    (if LeaseRenewalInterval c =? 0 then Z.quot leaseTTL leaseRenewalDivisor else LeaseRenewalInterval c).

(** The uint8 behind a policy. *)
Definition ClaimPolicy_code (p : ClaimPolicy) : Z :=
  match p with ClaimPolicyFailClosed => 0 | ClaimPolicyFailOpen => 1 | ClaimPolicyOther n => 2 + Z.of_N n end.

Definition NewConsumerBase (c : ConsumerBaseConfig) : outcome ConsumerBaseConfig :=
  if negb (ClaimPolicy_Valid (cfg_ClaimPolicy c))
  then Err (ErrorsNew ("outbox: invalid ClaimPolicy " ++ pretty (ClaimPolicy_code (cfg_ClaimPolicy c))
                       ++ " (valid range: 0..1)"))
  else Ok (SetDefaults c).

(** The environment of one delivery.  [Some err] for a context reading is a
    cancelled context with that error; for a wait, that it ended by
    cancellation and not by its timer. *)
Record cenv := MkEnv {
  ce_claim : nat → ClaimState * option nat * option goerror;
  ce_claim_ctx : nat → option goerror;
  ce_claim_wait : nat → option goerror;
  ce_handler : nat → HandleResult;
  ce_ctx : nat → option goerror;
  ce_wait : nat → option goerror;
  ce_final_ctx : option goerror;
  ce_lease_lost : bool;
}.

Definition deliveryFrom (r : HandleResult) : DeliveryOutcome :=
  MkDelivery (hr_Disposition r) (hr_Err r) "".

Definition requeueResult (err : option goerror) : DeliveryOutcome :=
  MkDelivery DispositionRequeue err "".

Definition isPermanentRejection (r : HandleResult) : bool :=
  bool_decide (hr_Disposition r = DispositionReject).

Definition ProcessReasonRetryExhausted : string := "retry_exhausted".

Section consumer.
Context (cfg : ConsumerBaseConfig) (ce : cenv).

(** [Some err] aborts the loop. *)
Definition waitBackoff (attempt : nat) : option goerror :=
  match ce_ctx ce attempt with
  | Some err => Some err
  | None => ce_wait ce attempt
  end.

(** The loop from attempt number [attempt] on, with [fuel] attempts left. *)
Fixpoint retry_from (fuel attempt : nat) (lastResult : HandleResult) : DeliveryOutcome * nat :=
  match fuel with
  | O =>
      match ce_final_ctx ce with
      | Some err => (requeueResult (Some err), attempt)
      | None => (MkDelivery DispositionReject (hr_Err lastResult) ProcessReasonRetryExhausted, attempt)
      end
  | S fuel =>
      let lastResult := ce_handler ce attempt in
      if bool_decide (hr_Disposition lastResult = DispositionAck)
      then (deliveryFrom lastResult, S attempt)
      else if isPermanentRejection lastResult then (deliveryFrom lastResult, S attempt)
      else if Z.of_nat attempt <? RetryCount cfg - 1 then
        match waitBackoff attempt with
        | Some err => (requeueResult (Some err), S attempt)
        | None => retry_from fuel (S attempt) lastResult
        end
      else retry_from fuel (S attempt) lastResult
  end.

Definition retryLoop (passthrough : bool) : DeliveryOutcome * nat :=
  if passthrough then (deliveryFrom (ce_handler ce 0), 1%nat)
  else retry_from (Z.to_nat (RetryCount cfg)) 0 (MkResult (DispositionOther 0) None).

Definition runWithRenewal (receipt : option nat) (passthrough : bool) : DeliveryOutcome * nat :=
  if (LeaseRenewalInterval cfg <=? 0) || bool_decide (receipt = None) then retryLoop passthrough
  else
    let '(result, calls) := retryLoop passthrough in
    if ce_lease_lost ce && bool_decide (do_Disposition result = DispositionAck)
    then (MkDelivery DispositionRequeue (Some ErrLeaseExpired) (ProcessReason result), calls)
    else (result, calls).

(** The outcome, the settlement, and the number of handler calls. *)
Definition handleClaimState (state : ClaimState) (receipt : option nat) (passthrough : bool)
  : DeliveryOutcome * option nat * nat :=
  match state with
  | ClaimDone => (deliveryFrom Ack, None, 0%nat)
  | ClaimBusy => (deliveryFrom (Requeue None), None, 0%nat)
  | ClaimAcquired | ClaimStateOther _ =>
      let '(result, calls) := runWithRenewal receipt passthrough in (result, receipt, calls)
  end.

(** The state and receipt of the first claim that did not fail, or the error to
    report, and the number of claims made. *)
Fixpoint claim_from (fuel attempt : nat) (lastErr : option goerror)
  : (ClaimState * option nat + option goerror) * nat :=
  match fuel with
  | O => (inr lastErr, attempt)
  | S fuel =>
      match ce_claim ce attempt with
      | (state, receipt, None) => (inl (state, receipt), S attempt)
      | (_, _, Some err) =>
          match ce_claim_ctx ce attempt with
          | Some cerr => (inr (Some cerr), S attempt)
          | None =>
              if Z.of_nat attempt <? ClaimRetryCount cfg - 1 then
                match ce_claim_wait ce attempt with
                | Some cerr => (inr (Some cerr), S attempt)
                | None => claim_from fuel (S attempt) (Some err)
                end
              else claim_from fuel (S attempt) (Some err)
          end
      end
  end.

Definition claimWithRetry : (ClaimState * option nat + option goerror) * nat :=
  claim_from (Z.to_nat (ClaimRetryCount cfg)) 0 None.

(** One delivery: outcome, settlement, handler calls, claims.  A claim loop that
    returns a nil error with no receipt reads as the zero state. *)
Definition Wrap (passthrough : bool) : DeliveryOutcome * option nat * nat * nat :=
  if bool_decide (cfg_ClaimPolicy cfg = ClaimPolicyFailOpen) then
    match ce_claim ce 0 with
    | (_, _, Some _) => let '(result, calls) := retryLoop passthrough in (result, None, calls, 1%nat)
    | (state, receipt, None) =>
        let '(result, settlement, calls) := handleClaimState state receipt passthrough in
        (result, settlement, calls, 1%nat)
    end
  else
    match claimWithRetry with
    | (inr (Some err), n) => (deliveryFrom (Requeue (Some err)), None, 0%nat, n)
    | (inr None, n) =>
        let '(result, settlement, calls) := handleClaimState ClaimAcquired None passthrough in
        (result, settlement, calls, n)
    | (inl (state, receipt), n) =>
        let '(result, settlement, calls) := handleClaimState state receipt passthrough in
        (result, settlement, calls, n)
    end.
End consumer.

(** ** Lemmas *)

(** Neither Ack nor Reject: worth another attempt. *)
Definition transient (r : HandleResult) : Prop :=
  hr_Disposition r ≠ DispositionAck ∧ hr_Disposition r ≠ DispositionReject.

(** How a run of the retry loop that made [n] handler calls ended. *)
Definition loop_result (cfg : ConsumerBaseConfig) (ce : cenv) (out : DeliveryOutcome) (n : nat) : Prop :=
  let last := ce_handler ce (n - 1) in
  (∀ j, (j < n - 1)%nat → transient (ce_handler ce j)) ∧
  ((¬ transient last ∧ out = deliveryFrom last) ∨
   (transient last ∧ ∃ err, out = requeueResult (Some err) ∧
      (waitBackoff ce (n - 1) = Some err ∨ ce_final_ctx ce = Some err)) ∨
   (transient last ∧ Z.of_nat n = RetryCount cfg ∧ ce_final_ctx ce = None ∧
      out = MkDelivery DispositionReject (hr_Err last) ProcessReasonRetryExhausted)).

Lemma retry_from_spec cfg ce fuel : ∀ attempt last,
  Z.of_nat (attempt + fuel) = RetryCount cfg → (0 < attempt + fuel)%nat →
  (∀ j, (j < attempt)%nat → transient (ce_handler ce j)) →
  ((0 < attempt)%nat → last = ce_handler ce (attempt - 1)) →
  let '(out, n) := retry_from cfg ce fuel attempt last in
  (1 ≤ n ≤ attempt + fuel)%nat ∧ loop_result cfg ce out n.
Proof.
  induction fuel as [|fuel IH]; intros attempt last Hc Hpos Htr Hlast; cbn [retry_from].
  - assert (0 < attempt)%nat as Ha by lia. specialize (Hlast Ha). subst last.
    unfold loop_result. pose proof (Htr (attempt - 1)%nat ltac:(lia)) as Hl.
    destruct (ce_final_ctx ce) as [err|]; (split; [lia|]);
      (split; [intros j Hj; apply Htr; lia|]); right.
    + left. eauto.
    + right. split_and!; [done|lia|done|done].
  - assert (loop_result cfg ce (deliveryFrom (ce_handler ce attempt)) (S attempt) ∨
            transient (ce_handler ce attempt)) as Hcase.
    { destruct (decide (hr_Disposition (ce_handler ce attempt) = DispositionAck)) as [Hd|];
        [|destruct (decide (hr_Disposition (ce_handler ce attempt) = DispositionReject)) as [Hd|]; [|by right]];
        left; unfold loop_result, transient; rewrite Nat.sub_succ, Nat.sub_0_r;
        (split; [done|left; split; [|done]]); rewrite Hd; tauto. }
    case_bool_decide as Hack; [destruct Hcase as [?|[? _]]; [split; [lia|done]|done]|].
    unfold isPermanentRejection. case_bool_decide as Hrej; [destruct Hcase as [?|[_ ?]]; [split; [lia|done]|done]|].
    assert (transient (ce_handler ce attempt)) as Ht by done.
    assert (∀ j, (j < S attempt)%nat → transient (ce_handler ce j)) as Htr'.
    { intros j Hj. destruct (decide (j = attempt)) as [->|]; [done|]. apply Htr. lia. }
    specialize (IH (S attempt) (ce_handler ce attempt) ltac:(lia) ltac:(lia) Htr'
      ltac:(intros; by rewrite Nat.sub_succ, Nat.sub_0_r)).
    rewrite Nat.add_succ_r, <- Nat.add_succ_l.
    destruct (Z.of_nat attempt <? RetryCount cfg - 1); [|exact IH].
    destruct (waitBackoff ce attempt) as [err|] eqn:Hw; [|exact IH].
    split; [lia|]. unfold loop_result. rewrite Nat.sub_succ, Nat.sub_0_r.
    split; [intros j Hj; apply Htr; lia|]. right; left. eauto.
Qed.

Lemma claim_from_spec cfg ce fuel : ∀ attempt lastErr,
  (0 < fuel)%nat ∨ is_Some lastErr →
  let '(r, n) := claim_from cfg ce fuel attempt lastErr in
  (n ≤ attempt + fuel)%nat ∧
  match r with
  | inl (s, rc) => (attempt < n)%nat ∧ ce_claim ce (n - 1) = (s, rc, None)
  | inr e => is_Some e ∧
      (fuel = 0%nat ∧ n = attempt ∨
       (attempt < n)%nat ∧ ∃ s rc err, ce_claim ce (n - 1) = (s, rc, Some err))
  end.
Proof.
  induction fuel as [|fuel IH]; intros attempt lastErr Hor; cbn [claim_from].
  { split; [lia|]. split; [destruct Hor; [lia|done]|by left]. }
  destruct (ce_claim ce attempt) as [[s rc] [err|]] eqn:Hc.
  2:{ split; [lia|]. split; [lia|]. by rewrite Nat.sub_succ, Nat.sub_0_r. }
  assert (∃ s rc err, ce_claim ce (S attempt - 1) = (s, rc, Some err)) as Hfail
    by (rewrite Nat.sub_succ, Nat.sub_0_r; eauto).
  specialize (IH (S attempt) (Some err) ltac:(right; eauto)).
  destruct (claim_from cfg ce fuel (S attempt) (Some err)) as [r n] eqn:Hrec.
  assert ((n ≤ attempt + S fuel)%nat ∧ match r with
    | inl (s, rc) => (attempt < n)%nat ∧ ce_claim ce (n - 1) = (s, rc, None)
    | inr e => is_Some e ∧
        (S fuel = 0%nat ∧ n = attempt ∨
         (attempt < n)%nat ∧ ∃ s rc err, ce_claim ce (n - 1) = (s, rc, Some err))
    end) as Hgoal.
  { destruct IH as [Hn Hr]. split; [lia|]. destruct r as [[s' rc']|e'].
    - split; [lia|apply Hr].
    - destruct Hr as [He [[_ ->]|[? ?]]]; (split; [done|right]); (split; [lia|done]). }
  assert (∀ e : goerror, (S attempt ≤ attempt + S fuel)%nat ∧ is_Some (Some e) ∧ (S fuel = 0%nat ∧ S attempt = attempt ∨
    (attempt < S attempt)%nat ∧ ∃ s rc err, ce_claim ce (S attempt - 1) = (s, rc, Some err))) as Habort
    by (intros e; split; [lia|]; split; [eauto|right; split; [lia|done]]).
  destruct (ce_claim_ctx ce attempt); [apply Habort|].
  destruct (_ <? _); [|exact Hgoal].
  destruct (ce_claim_wait ce attempt); [apply Habort|exact Hgoal].
Qed.

Lemma retryLoop_spec cfg ce pt :
  0 < RetryCount cfg →
  let '(out, n) := retryLoop cfg ce pt in
  if pt then n = 1%nat ∧ out = deliveryFrom (ce_handler ce 0)
  else (1 ≤ n)%nat ∧ Z.of_nat n ≤ RetryCount cfg ∧ loop_result cfg ce out n.
Proof.
  intros Hr. unfold retryLoop. destruct pt; [done|].
  pose proof (retry_from_spec cfg ce (Z.to_nat (RetryCount cfg)) 0 (MkResult (DispositionOther 0) None)
    ltac:(lia) ltac:(lia) ltac:(intros; lia) ltac:(intros; lia)) as H.
  destruct (retry_from _ _ _ _ _) as [out n]. destruct H as [? ?]. split_and!; [lia|lia|done].
Qed.

Lemma NewConsumerBase_positive c cfg :
  NewConsumerBase c = Ok cfg → 0 < RetryCount cfg ∧ 0 < ClaimRetryCount cfg ∧ 0 < LeaseTTL cfg ∧
    0 < IdempotencyTTL cfg ∧ cfg_ClaimPolicy cfg = cfg_ClaimPolicy c.
Proof.
  unfold NewConsumerBase. destruct (negb _); [done|]. intros [= <-]. cbn.
  assert (∀ x d, 0 < d → 0 < or_default x d) as Hpos
    by (intros x d Hd; unfold or_default; destruct (x <=? 0) eqn:?; lia).
  split_and!; try (apply Hpos); try done; try (apply Hpos); done.
Qed.

(** What the renewal fence makes of the result of the retry loop. *)
Definition fence (cfg : ConsumerBaseConfig) (ce : cenv) (receipt : option nat) (res : DeliveryOutcome)
  : DeliveryOutcome :=
  if (LeaseRenewalInterval cfg <=? 0) || bool_decide (receipt = None) then res
  else if ce_lease_lost ce && bool_decide (do_Disposition res = DispositionAck)
  then MkDelivery DispositionRequeue (Some ErrLeaseExpired) (ProcessReason res)
  else res.

Lemma runWithRenewal_fence cfg ce receipt pt :
  runWithRenewal cfg ce receipt pt =
  (fence cfg ce receipt (retryLoop cfg ce pt).1, (retryLoop cfg ce pt).2).
Proof.
  unfold runWithRenewal, fence. destruct (retryLoop cfg ce pt) as [res n]. cbn.
  by repeat case_match.
Qed.

(** ** Claims *)

(** C36: what one delivery does (fail-closed policy).  It always comes to an end,
    after at most [ClaimRetryCount] claims and at most [RetryCount] runs of the
    handler, and the last claim decides.  Acquired, or a
    state the code does not know: the handler ran, the receipt
    is handed over for settlement, all runs but the last were transient
    failures, and the delivery is acknowledged only if the last run said Ack
    and the renewal had not lost the lease, rejected only if the last run said
    Reject or the whole budget was spent on an uncancelled context, and requeued
    otherwise.  Done: acknowledged without running the handler.  Busy, or no
    claim succeeded: requeued without running the handler. *)
Theorem consumer_delivery c0 cfg ce pt out settlement calls claims :
  NewConsumerBase c0 = Ok cfg → cfg_ClaimPolicy c0 = ClaimPolicyFailClosed →
  Wrap cfg ce pt = (out, settlement, calls, claims) →
  (1 ≤ claims)%nat ∧ Z.of_nat claims ≤ ClaimRetryCount cfg ∧
  Z.of_nat calls ≤ (if pt then 1 else RetryCount cfg) ∧
  match ce_claim ce (claims - 1) with
  | ((ClaimAcquired | ClaimStateOther _), receipt, None) =>
      settlement = receipt ∧ (1 ≤ calls)%nat ∧
      ∃ res, out = fence cfg ce receipt res ∧
        (if pt then res = deliveryFrom (ce_handler ce 0) else loop_result cfg ce res calls)
  | (ClaimDone, _, None) => out = deliveryFrom Ack ∧ settlement = None ∧ calls = 0%nat
  | (ClaimBusy, _, None) => out = requeueResult None ∧ settlement = None ∧ calls = 0%nat
  | (_, _, Some _) =>
      do_Disposition out = DispositionRequeue ∧ is_Some (do_Err out) ∧ settlement = None ∧ calls = 0%nat
  end.
Proof.
  intros Hnew Hpol Hw. destruct (NewConsumerBase_positive _ _ Hnew) as (Hr & Hcr & _ & _ & Hp).
  unfold Wrap in Hw. rewrite Hp, Hpol, bool_decide_false in Hw by done.
  unfold claimWithRetry in Hw.
  pose proof (claim_from_spec cfg ce (Z.to_nat (ClaimRetryCount cfg)) 0 None ltac:(left; lia)) as Hc.
  destruct (claim_from _ _ _ _ _) as [[[s rc]|e] n].
  - destruct Hc as (Hn & Hpos & Hclaim).
    assert (claims = n) as -> by (destruct (handleClaimState _ _ _ _ _) as [[? ?] ?]; by simplify_eq).
    rewrite Hclaim. unfold handleClaimState in Hw. rewrite runWithRenewal_fence in Hw.
    pose proof (retryLoop_spec cfg ce pt Hr) as Hl. destruct (retryLoop cfg ce pt) as [res k]. cbn in Hw.
    destruct s; simplify_eq; split_and!; try done; try lia; destruct pt; destruct_and?; subst; try done; eauto; lia.
  - destruct Hc as (Hn & [err ->] & Hor). simplify_eq.
    destruct Hor as [[? _]|(Hpos & s & rc & er & ->)]; [lia|].
    split_and!; try done; try lia; [destruct pt; lia|]. destruct s; split_and!; cbn; eauto.
Qed.

Lemma consumer_delivery_witness :
  let cfg := SetDefaults (MkConfig 0 0 0 0 ClaimPolicyFailClosed 0 0 0 0) in
  let ce := MkEnv (λ n, if (n =? 0)%nat then (ClaimBusy, None, Some (ErrorsNew "redis down"))
                        else (ClaimAcquired, Some 7%nat, None))
              (λ _, None) (λ _, None)
              (λ n, if (n =? 0)%nat then Requeue (Some (ErrorsNew "try again")) else Ack)
              (λ _, None) (λ _, None) None false in
  Wrap cfg ce false = (deliveryFrom Ack, Some 7%nat, 2%nat, 2%nat) ∧ Z.of_nat 2 ≤ RetryCount cfg ∧
  ∃ res, deliveryFrom Ack = fence cfg ce (Some 7%nat) res.
Proof.
  intros cfg ce.
  assert (Wrap cfg ce false = (deliveryFrom Ack, Some 7%nat, 2%nat, 2%nat)) as Hw
    by (vm_compute; reflexivity).
  destruct (consumer_delivery (MkConfig 0 0 0 0 ClaimPolicyFailClosed 0 0 0 0) cfg ce false _ _ _ _
    eq_refl eq_refl Hw) as (_ & _ & Hcalls & Hm).
  split; [exact Hw|]. split; [exact Hcalls|].
  destruct Hm as (_ & _ & res & Hres & _). exists res. exact Hres.
Defined.
