(* ===== verification/OutboxStore.v ===== *)
(** * kernel/outbox/state.go and runtime/outbox/outboxtest/fake_store.go

    The states of an outbox row and the in-memory [Store]: claim under a lease,
    settle under that lease, recover stale claims, clean up.  Every method runs
    under the store's mutex, so a history of concurrent relays is a sequence of
    these operations.  The clock, the lease UUID (google/uuid) and the order of
    the map ranges whose result depends on it are arguments. *)

From S2P Require Import Prelude Fsm Backoff.

(** ** state.go *)

Inductive State : Type :=
  | StatePending | StateClaiming | StatePublished | StateDead | StateOther (n : N).

#[global] Instance State_eq_dec : EqDecision State.
Proof. solve_decision. Defined.

(** The uint8 behind a state; [StateOther 0] is the zero value. *)
Definition State_code (s : State) : Z :=
  match s with
  | StatePending => 1 | StateClaiming => 2 | StatePublished => 3 | StateDead => 4
  | StateOther n => if (n =? 0)%N then 0 else 4 + Z.of_N n
  end.

Definition State_Valid (s : State) : bool :=
  (State_code StatePending <=? State_code s) && (State_code s <=? State_code StateDead).

Definition State_String (s : State) : string :=
  match s with
  | StatePending => "pending" | StateClaiming => "claiming"
  | StatePublished => "published" | StateDead => "dead"
  | StateOther n =>
      if (n =? 0)%N then "invalid" else ("state(" ++ pretty (State_code s) ++ ")")%string
  end.

Definition State_IsTerminal (s : State) : bool :=
  match s with StatePublished | StateDead => true | _ => false end.

Definition ParseState (s : string) : outcome State :=
  if s ==s "pending" then Ok StatePending
  else if s ==s "claiming" then Ok StateClaiming
  else if s ==s "published" then Ok StatePublished
  else if s ==s "dead" then Ok StateDead
  else Err (invalid "invalid outbox entry state").

Definition stateTransitions : table State :=
  [ (StatePending, [StateClaiming]);
    (StateClaiming, [StatePublished; StateDead; StatePending]);
    (StatePublished, []);
    (StateDead, []) ].

Definition CanTransitionTo (s target : State) : bool := CanTransition stateTransitions s target.

Definition ValidTransitions (s : State) : option (list State) := AllowedTargets stateTransitions s.

Definition Transition (from to : State) : outcome unit :=
  if CanTransitionTo from to then Ok tt else Err (invalid "outbox: invalid entry state transition").

(** ** Entries and rows *)

(** The fields of [outbox.Entry] that the store and the relay read. *)
Record Entry := MkEntry {
  ent_id : string;
  aggregateID : string;
  eventType : string;
  topic : string;
  payload : bytes;
  createdAt : Time;
  metadata : gmap string string;
  tenantID : string;   (* of the principal *)
}.

Definition RoutingTopic (e : Entry) : string := if topic e ==s "" then eventType e else topic e.

Record ClaimedEntry := MkClaimed {
  ce_Entry : Entry;
  Attempts : Z;
  LeaseID : string;
}.

Record fakeRow := MkRow {
  entry : Entry;
  status : State;
  attempts : Z;
  leaseID : string;
  claimedAt : option Time;
  publishedAt : option Time;
  deadAt : option Time;
  nextRetryAt : option Time;
  lastError : string;
}.

Record FakeStore := MkStore { rows : gmap string fakeRow }.

Definition NewFakeStore : FakeStore := MkStore ∅.

Definition set_row (s : FakeStore) (id : string) (r : fakeRow) : FakeStore :=
  MkStore (<[id := r]> (rows s)).

Definition new_row (e : Entry) (att : Z) : fakeRow :=
  MkRow e StatePending att "" None None None None "".

Definition Seed (s : FakeStore) (ces : list ClaimedEntry) : FakeStore :=
  foldl (λ s ce, set_row s (ent_id (ce_Entry ce)) (new_row (ce_Entry ce) (Attempts ce))) s ces.

Definition Write (s : FakeStore) (e : Entry) : outcome unit * FakeStore :=
  (Ok tt, set_row s (ent_id e) (new_row e 0)).

(** ** Claiming *)

Definition eligible (now : Time) (r : fakeRow) : bool :=
  bool_decide (status r = StatePending) &&
  match nextRetryAt r with Some t => negb (After t now) | None => true end.

(** next_retry_at ascending with nil first, then created_at ascending. *)
Definition claim_before (a b : string * fakeRow) : bool :=
  match nextRetryAt a.2, nextRetryAt b.2 with
  | None, None => Before (createdAt (entry a.2)) (createdAt (entry b.2))
  | None, Some _ => true
  | Some _, None => false
  | Some x, Some y =>
      if x =? y then Before (createdAt (entry a.2)) (createdAt (entry b.2)) else Before x y
  end.

Definition claimed_row (r : fakeRow) (lease : string) (now : Time) : fakeRow :=
  MkRow (entry r) StateClaiming (attempts r) lease (Some now) (publishedAt r) (deadAt r)
    (nextRetryAt r) (lastError r).

(** [None] is the panic of [candidates[:batchSize]] for a negative size. *)
Definition ClaimPending (visit : list (string * fakeRow) → list (string * fakeRow)) (s : FakeStore)
    (now : Time) (lease : string) (batchSize : Z) : option (outcome (list ClaimedEntry) * FakeStore) :=
  let candidates :=
    sort_Slice claim_before
      (filter (λ kr, eligible now kr.2 = true) (visit (map_to_list (rows s)))) in
  selected ← if Z.of_nat (length candidates) >? batchSize then go_slice candidates 0 batchSize
             else Some candidates;
  Some (Ok ((λ kr, MkClaimed (entry kr.2) (attempts kr.2) lease) <$> selected),
        foldl (λ s kr, set_row s kr.1 (claimed_row kr.2 lease now)) s selected).

(** ** Settling, under the lease *)

Definition holds_lease (s : FakeStore) (id lease : string) : option fakeRow :=
  match rows s !! id with
  | Some r => if negb (bool_decide (status r = StateClaiming)) || negb (leaseID r ==s lease)
              then None else Some r
  | None => None
  end.

Definition published_row (r : fakeRow) (now : Time) : fakeRow :=
  MkRow (entry r) StatePublished (attempts r) (leaseID r) None (Some now) (deadAt r)
    (nextRetryAt r) (lastError r).

Definition MarkPublished (s : FakeStore) (now : Time) (id lease : string) : bool * FakeStore :=
  match holds_lease s id lease with
  | None => (false, s)
  | Some r => (true, set_row s id (published_row r now))
  end.

Definition retry_row (r : fakeRow) (att : Z) (next : Time) (err : string) : fakeRow :=
  MkRow (entry r) StatePending att "" None (publishedAt r) (deadAt r) (Some next) err.

Definition MarkRetry (s : FakeStore) (id lease : string) (att : Z) (next : Time) (err : string)
  : bool * FakeStore :=
  match holds_lease s id lease with
  | None => (false, s)
  | Some r => (true, set_row s id (retry_row r att next err))
  end.

Definition dead_row (r : fakeRow) (now : Time) (att : Z) (err : string) : fakeRow :=
  MkRow (entry r) StateDead att (leaseID r) None (publishedAt r) (Some now) (nextRetryAt r) err.

Definition MarkDead (s : FakeStore) (now : Time) (id lease : string) (att : Z) (err : string)
  : bool * FakeStore :=
  match holds_lease s id lease with
  | None => (false, s)
  | Some r => (true, set_row s id (dead_row r now att err))
  end.

(** ** Stale claims and cleanup *)

(** IDs of the rows in state [st] whose timestamp is set and before [cutoff],
    oldest first. *)
Definition eligibleIDsByTimeAsc (s : FakeStore) (st : State) (cutoff : Time)
    (tsOf : fakeRow → option Time) : list string :=
  fst <$> sort_Slice (time_id_less snd fst)
    (omap (λ kr, if negb (bool_decide (status kr.2 = st)) then None
                 else match tsOf kr.2 with
                      | Some t => if Before t cutoff then Some (kr.1, t) else None
                      | None => None
                      end) (map_to_list (rows s))).

(** The retry delay of a reclaimed row; [None] is the panic of a negative shift. *)
Definition reclaim_delay (baseDelay maxDelay : Duration) (newAttempts : Z) : option Duration :=
  let shift := Z.min newAttempts 30 in
  if shift <? 0 then None else Some (cappedDelay (wrap64 (Z.shiftl baseDelay shift)) maxDelay).

Definition reclaim_row (r : fakeRow) (now : Time) (maxAttempts : Z) (baseDelay maxDelay : Duration)
  : option fakeRow :=
  let newAttempts := wrap64 (attempts r + 1) in
  if newAttempts >=? maxAttempts then
    Some (MkRow (entry r) StateDead newAttempts (leaseID r) None (publishedAt r) (Some now)
            (nextRetryAt r) (lastError r))
  else
    delay ← reclaim_delay baseDelay maxDelay newAttempts;
    Some (MkRow (entry r) StatePending newAttempts "" None (publishedAt r) (deadAt r)
            (Some (now + delay)) (lastError r)).

Fixpoint reclaim_loop (ids : list string) (count batchSize : Z) (now : Time) (maxAttempts : Z)
    (baseDelay maxDelay : Duration) (s : FakeStore) : option (Z * FakeStore) :=
  match ids with
  | [] => Some (count, s)
  | id :: rest =>
      if count >=? batchSize then Some (count, s)
      else match rows s !! id with
           | None => None
           | Some r =>
               r' ← reclaim_row r now maxAttempts baseDelay maxDelay;
               reclaim_loop rest (count + 1) batchSize now maxAttempts baseDelay maxDelay (set_row s id r')
           end
  end.

Definition ReclaimStale (s : FakeStore) (now : Time) (claimTTL : Duration) (maxAttempts : Z)
    (baseDelay maxDelay : Duration) (batchSize : Z) : option (Z * FakeStore) :=
  reclaim_loop (eligibleIDsByTimeAsc s StateClaiming (now - claimTTL) claimedAt) 0 batchSize now
    maxAttempts baseDelay maxDelay s.

Fixpoint cleanup_loop (ids : list string) (deleted batchSize : Z) (s : FakeStore) : Z * FakeStore :=
  match ids with
  | [] => (deleted, s)
  | id :: rest =>
      if deleted >=? batchSize then (deleted, s)
      else cleanup_loop rest (deleted + 1) batchSize (MkStore (delete id (rows s)))
  end.

Definition CleanupPublished (s : FakeStore) (cutoff : Time) (batchSize : Z) : Z * FakeStore :=
  cleanup_loop (eligibleIDsByTimeAsc s StatePublished cutoff publishedAt) 0 batchSize s.

Definition CleanupDead (s : FakeStore) (cutoff : Time) (batchSize : Z) : Z * FakeStore :=
  cleanup_loop (eligibleIDsByTimeAsc s StateDead cutoff deadAt) 0 batchSize s.

Definition CountPending (s : FakeStore) (now : Time) : Z :=
  Z.of_nat (length (filter (λ kr, eligible now kr.2 = true) (map_to_list (rows s)))).

(** The minimum, or nothing when no row of that state carries a timestamp. *)
Definition OldestEligibleAt (s : FakeStore) (st : State) : outcome (option Time) :=
  let oldest (tsOf : fakeRow → option Time) :=
    foldl (λ acc kr,
      if bool_decide (status kr.2 = st) then
        match tsOf kr.2, acc with
        | None, _ => acc
        | Some t, None => Some t
        | Some t, Some o => if Before t o then Some t else acc
        end
      else acc) None (map_to_list (rows s)) in
  match st with
  | StatePublished => Ok (oldest publishedAt)
  | StateDead => Ok (oldest deadAt)
  | _ => Err (ErrorsNew ("OldestEligibleAt: invalid status " ++ State_String st
                         ++ " (want StatePublished or StateDead)"))
  end.

(** ** The state machine *)

Lemma StateOther_invalid n : State_Valid (StateOther n) = false.
Proof.
  unfold State_Valid; cbn. destruct (n =? 0)%N eqn:Hn; [done|].
  apply N.eqb_neq in Hn. apply andb_false_iff. right. apply Z.leb_gt. lia.
Qed.

#[global] Program Instance outbox_TransitionSystem : TransitionSystem State := {
  ts_table := stateTransitions;
  ts_valid := State_Valid;
  ts_terminal := State_IsTerminal;
}.
Next Obligation. intros [] []; vm_compute; done. Qed.
Next Obligation.
  intros [| | | |n] Hv; try (vm_compute; naive_solver). by rewrite StateOther_invalid in Hv.
Qed.

(** ** Histories *)

Definition fair_order (visit : list (string * fakeRow) → list (string * fakeRow)) : Prop :=
  ∀ l, visit l ≡ₚ l.

(** One call of a store method.  Claims draw their lease from [draws]; a
    producer writes each entry ID once; calls that panic change nothing. *)
Inductive ostep (draws : string → Prop) : FakeStore → FakeStore → Prop :=
  | os_Write s e : rows s !! ent_id e = None → ostep draws s (Write s e).2
  | os_ClaimPending s visit now lease b r s' :
      fair_order visit → draws lease → ClaimPending visit s now lease b = Some (r, s') →
      ostep draws s s'
  | os_MarkPublished s now id l : ostep draws s (MarkPublished s now id l).2
  | os_MarkRetry s id l att next err : ostep draws s (MarkRetry s id l att next err).2
  | os_MarkDead s now id l att err : ostep draws s (MarkDead s now id l att err).2
  | os_ReclaimStale s now ttl maxA base maxD b n s' :
      ReclaimStale s now ttl maxA base maxD b = Some (n, s') → ostep draws s s'
  | os_CleanupPublished s cutoff b : ostep draws s (CleanupPublished s cutoff b).2
  | os_CleanupDead s cutoff b : ostep draws s (CleanupDead s cutoff b).2.

(** What the methods do to the map, one row at a time. *)
Inductive row_step (draws : string → Prop) (s : FakeStore) : FakeStore → Prop :=
  | rs_new e : rows s !! ent_id e = None → row_step draws s (set_row s (ent_id e) (new_row e 0))
  | rs_move id r r' :
      rows s !! id = Some r → edge (status r) (status r') → entry r' = entry r →
      (status r' = StateClaiming → draws (leaseID r')) → row_step draws s (set_row s id r')
  | rs_delete id r :
      rows s !! id = Some r → State_IsTerminal (status r) = true →
      row_step draws s (MkStore (delete id (rows s))).

Lemma holds_lease_Some s id l r :
  holds_lease s id l = Some r ↔ rows s !! id = Some r ∧ status r = StateClaiming ∧ leaseID r = l.
Proof.
  unfold holds_lease. destruct (rows s !! id) as [x|]; [|naive_solver].
  destruct (leaseID x ==s l) eqn:Hl; bools; case_bool_decide; cbn; naive_solver.
Qed.

Section row_steps.
Context (draws : string → Prop).

Lemma mark_row_step s id l r r' :
  holds_lease s id l = Some r → State_IsTerminal (status r') = true ∨ status r' = StatePending →
  entry r' = entry r → row_step draws s (set_row s id r').
Proof.
  intros (Hr & Hs & _)%holds_lease_Some Hor He. eapply rs_move; [exact Hr| |done|].
  - unfold edge. rewrite Hs. destruct Hor as [Ht| ->]; [|done]. by destruct (status r').
  - intros Hc. rewrite Hc in Hor. by destruct Hor.
Qed.

Lemma claim_all_steps lease now sel : ∀ s,
  draws lease → NoDup sel.*1 →
  (∀ k r, (k, r) ∈ sel → rows s !! k = Some r ∧ status r = StatePending) →
  let s' := foldl (λ s kr, set_row s kr.1 (claimed_row kr.2 lease now)) s sel in
  rtc (row_step draws) s s' ∧
  (∀ k r, (k, r) ∈ sel → rows s' !! k = Some (claimed_row r lease now)) ∧
  (∀ k, k ∉ sel.*1 → rows s' !! k = rows s !! k).
Proof.
  induction sel as [|[k r] sel IH]; intros s Hd Hnd Hsel; cbn [foldl fst snd].
  { split_and!; [done|by intros ? ? ?%elem_of_nil|done]. }
  rewrite fmap_cons in *. apply NoDup_cons in Hnd as [Hk Hnd]. cbn in Hk.
  destruct (Hsel k r ltac:(left)) as [Hr Hp].
  assert (∀ k' r', (k', r') ∈ sel → k' ≠ k) as Hne.
  { intros k' r' Hin ->. apply Hk. by apply (list_elem_of_fmap_2 fst) in Hin. }
  destruct (IH (set_row s k (claimed_row r lease now)) Hd Hnd) as (Hsteps & Hin & Hout).
  { intros k' r' Hx. cbn. rewrite lookup_insert_ne by (apply not_eq_sym; by eapply Hne).
    apply Hsel. by right. }
  split_and!.
  - eapply rtc_l; [|exact Hsteps]. eapply rs_move; [exact Hr| |done|done].
    unfold edge. by rewrite Hp.
  - intros k' r' [[= -> ->]|Hx]%elem_of_cons; [|by apply Hin].
    rewrite Hout by done. cbn. by rewrite lookup_insert_eq.
  - intros k' Hk'%not_elem_of_cons. rewrite Hout by naive_solver. cbn.
    by rewrite lookup_insert_ne by naive_solver.
Qed.
End row_steps.

(** *** Selection *)

Definition candidates (visit : list (string * fakeRow) → list (string * fakeRow)) (s : FakeStore)
    (now : Time) : list (string * fakeRow) :=
  sort_Slice claim_before (filter (λ kr, eligible now kr.2 = true) (visit (map_to_list (rows s)))).

Lemma ClaimPending_eq visit s now lease b :
  ClaimPending visit s now lease b =
  if b <? 0 then None
  else let sel := take (Z.to_nat b) (candidates visit s now) in
       Some (Ok ((λ kr, MkClaimed (entry kr.2) (attempts kr.2) lease) <$> sel),
             foldl (λ s kr, set_row s kr.1 (claimed_row kr.2 lease now)) s sel).
Proof.
  unfold ClaimPending. fold (candidates visit s now). rewrite Z.gtb_ltb.
  destruct (b <? 0) eqn:Hb; [apply Z.ltb_lt in Hb|apply Z.ltb_ge in Hb];
    destruct (b <? Z.of_nat (length (candidates visit s now))) eqn:Hl;
    [apply Z.ltb_lt in Hl|apply Z.ltb_ge in Hl|apply Z.ltb_lt in Hl|apply Z.ltb_ge in Hl].
  - unfold go_slice. destruct (0 <=? b) eqn:?; [lia|]. done.
  - lia.
  - rewrite go_slice_Some by lia. cbn. by rewrite Z.sub_0_r, drop_0.
  - cbn. by rewrite take_ge by lia.
Qed.

Lemma candidates_elem visit s now k r : fair_order visit →
  (k, r) ∈ candidates visit s now ↔ rows s !! k = Some r ∧ eligible now r = true.
Proof.
  intros Hf. unfold candidates.
  rewrite sort_Slice_elem, list_elem_of_filter, (Hf _), elem_of_map_to_list. cbn. tauto.
Qed.

Lemma candidates_NoDup visit s now : fair_order visit → NoDup (candidates visit s now).*1.
Proof.
  intros Hf. unfold candidates. rewrite sort_Slice_perm.
  eapply sublist_NoDup; [|apply fmap_sublist, sublist_filter].
  rewrite (Hf _). apply NoDup_fst_map_to_list.
Qed.

Lemma eligible_pending now r : eligible now r = true → status r = StatePending.
Proof. unfold eligible. intros. bools. done. Qed.

(** The (id, timestamp) pairs behind [eligibleIDsByTimeAsc]. *)
Definition stamped (s : FakeStore) (st : State) (cutoff : Time) (tsOf : fakeRow → option Time)
  : list (string * Time) :=
  sort_Slice (time_id_less snd fst)
    (omap (λ kr, if negb (bool_decide (status kr.2 = st)) then None
                 else match tsOf kr.2 with
                      | Some t => if Before t cutoff then Some (kr.1, t) else None
                      | None => None
                      end) (map_to_list (rows s))).

Lemma stamped_elem s st cutoff tsOf id t :
  (id, t) ∈ stamped s st cutoff tsOf ↔
  ∃ r, rows s !! id = Some r ∧ status r = st ∧ tsOf r = Some t ∧ t < cutoff.
Proof.
  unfold stamped. rewrite sort_Slice_elem, list_elem_of_omap. split.
  - intros ([k r] & Hin%elem_of_map_to_list & Hf). cbn in Hf. exists r.
    case_bool_decide; [|done]. cbn in Hf. destruct (tsOf r) as [u|]; [|done].
    destruct (Before u cutoff) eqn:Hb; [|done]. injection Hf as -> ->.
    split_and!; try done. unfold Before in Hb. by apply Z.ltb_lt.
  - intros (r & Hr & Hs & Ht & Hlt). exists (id, r). split; [by apply elem_of_map_to_list|]. cbn.
    rewrite bool_decide_true by done. cbn. rewrite Ht. unfold Before.
    apply Z.ltb_lt in Hlt. by rewrite Hlt.
Qed.

Lemma stamped_sorted s st cutoff tsOf :
  StronglySorted (not_after (time_id_less snd fst)) (stamped s st cutoff tsOf).
Proof. apply sort_Slice_sorted; apply _. Qed.

Lemma stamped_NoDup s st cutoff tsOf : NoDup (stamped s st cutoff tsOf).*1.
Proof.
  unfold stamped. rewrite sort_Slice_perm. set (f := λ kr : string * fakeRow, _).
  assert (∀ l : list (string * fakeRow), (omap f l).*1 `sublist_of` l.*1) as Hsub.
  { induction l as [|[k r] l IH]; [done|]. cbn. destruct (f (k, r)) as [[k' t]|] eqn:Hf.
    - cbn. assert (k' = k) as ->; [|by apply sublist_skip].
      unfold f in Hf. cbn in Hf. repeat case_match; by simplify_eq.
    - by apply sublist_cons. }
  eapply sublist_NoDup; [apply (NoDup_fst_map_to_list (rows s))|apply Hsub].
Qed.

Lemma eligibleIDs_stamped s st cutoff tsOf :
  eligibleIDsByTimeAsc s st cutoff tsOf = (stamped s st cutoff tsOf).*1.
Proof. done. Qed.

(** *** The two loops *)

Lemma reclaim_row_spec r now maxA base maxD r' :
  reclaim_row r now maxA base maxD = Some r' →
  entry r' = entry r ∧ claimedAt r' = None ∧ attempts r' = wrap64 (attempts r + 1) ∧
  (status r' = StateDead ∧ deadAt r' = Some now ∧ maxA ≤ wrap64 (attempts r + 1) ∨
   status r' = StatePending ∧ leaseID r' = "" ∧ wrap64 (attempts r + 1) < maxA ∧
   ∃ d, reclaim_delay base maxD (wrap64 (attempts r + 1)) = Some d ∧ nextRetryAt r' = Some (now + d)).
Proof.
  unfold reclaim_row. rewrite Z.geb_leb. destruct (maxA <=? wrap64 (attempts r + 1)) eqn:Hm.
  - intros [= <-]. apply Z.leb_le in Hm. split_and!; [done..|]. left. done.
  - apply Z.leb_gt in Hm. destruct (reclaim_delay _ _ _) as [d|]; [|done]. cbn. intros [= <-].
    split_and!; [done..|]. right. split_and!; [done..|]. by exists d.
Qed.

Lemma reclaim_loop_spec now maxA base maxD b ids : ∀ s count n s',
  NoDup ids → (∀ id, id ∈ ids → ∃ r, rows s !! id = Some r ∧ status r = StateClaiming) →
  reclaim_loop ids count b now maxA base maxD s = Some (n, s') →
  let done_ids := take (Z.to_nat (b - count)) ids in
  n = count + Z.of_nat (length done_ids) ∧ (∀ draws, rtc (row_step draws) s s') ∧
  (∀ id, id ∈ done_ids → ∃ r r', rows s !! id = Some r ∧
     reclaim_row r now maxA base maxD = Some r' ∧ rows s' !! id = Some r') ∧
  (∀ id, id ∉ done_ids → rows s' !! id = rows s !! id).
Proof.
  induction ids as [|id ids IH]; intros s count n s' Hnd Hids; cbn [reclaim_loop].
  { intros [= <- <-]. rewrite take_nil. cbn. split_and!; try done; [lia|by intros ? ?%elem_of_nil]. }
  apply NoDup_cons in Hnd as [Hni Hnd]. rewrite Z.geb_leb. destruct (b <=? count) eqn:Hb.
  { intros [= <- <-]. apply Z.leb_le in Hb. replace (Z.to_nat (b - count)) with 0%nat by lia. cbn.
    split_and!; try done; [lia|by intros ? ?%elem_of_nil]. }
  apply Z.leb_gt in Hb. destruct (Hids id ltac:(left)) as (r & Hr & Hs). rewrite Hr.
  destruct (reclaim_row r now maxA base maxD) as [r'|] eqn:Hrec; [|done]. cbn. intros Hloop.
  apply IH in Hloop as (Hn & Hsteps & Hin & Hout); [|done|].
  2:{ intros id' Hid'. cbn. rewrite lookup_insert_ne by (intros ->; done). apply Hids. by right. }
  replace (Z.to_nat (b - count)) with (S (Z.to_nat (b - (count + 1)))) by lia. cbn [take].
  assert (id ∉ take (Z.to_nat (b - (count + 1))) ids) as Hnt.
  { intros Ht. apply Hni. by eapply subseteq_take. }
  split_and!.
  - cbn. lia.
  - intros draws. eapply rtc_l; [|apply Hsteps].
    apply reclaim_row_spec in Hrec as (He & _ & _ & Hor).
    eapply rs_move; [exact Hr| |done|]; unfold edge; rewrite ?Hs.
    + by destruct Hor as [(-> & _)|(-> & _)].
    + intros Hc. rewrite Hc in Hor. by destruct Hor as [(? & _)|(? & _)].
  - intros id' [->|Hid']%elem_of_cons.
    + exists r, r'. rewrite Hout by done. cbn. by rewrite lookup_insert_eq.
    + destruct (Hin id' Hid') as (x & x' & Hx & ? & ?). exists x, x'. cbn in Hx.
      rewrite lookup_insert_ne in Hx by (intros ->; done). done.
  - intros id' Hid'%not_elem_of_cons. rewrite Hout by naive_solver. cbn.
    by rewrite lookup_insert_ne by naive_solver.
Qed.

Lemma cleanup_loop_spec b ids : ∀ s deleted,
  NoDup ids → (∀ id, id ∈ ids → ∃ r, rows s !! id = Some r ∧ State_IsTerminal (status r) = true) →
  let '(n, s') := cleanup_loop ids deleted b s in
  let gone := take (Z.to_nat (b - deleted)) ids in
  n = deleted + Z.of_nat (length gone) ∧ (∀ draws, rtc (row_step draws) s s') ∧
  (∀ id, rows s' !! id = if bool_decide (id ∈ gone) then None else rows s !! id).
Proof.
  induction ids as [|id ids IH]; intros s deleted Hnd Hids; cbn [cleanup_loop].
  { rewrite take_nil. cbn. split_and!; try done; lia. }
  apply NoDup_cons in Hnd as [Hni Hnd]. rewrite Z.geb_leb. destruct (b <=? deleted) eqn:Hb.
  { apply Z.leb_le in Hb. replace (Z.to_nat (b - deleted)) with 0%nat by lia. cbn.
    split_and!; try done; lia. }
  apply Z.leb_gt in Hb. destruct (Hids id ltac:(left)) as (r & Hr & Ht).
  specialize (IH (MkStore (delete id (rows s))) (deleted + 1) Hnd).
  destruct (cleanup_loop ids (deleted + 1) b _) as [n s'].
  destruct IH as (Hn & Hsteps & Hrows).
  { intros id' Hid'. cbn. rewrite lookup_delete_ne by (intros ->; done). apply Hids. by right. }
  replace (Z.to_nat (b - deleted)) with (S (Z.to_nat (b - (deleted + 1)))) by lia. cbn [take].
  split_and!.
  - cbn. lia.
  - intros draws. eapply rtc_l; [|apply Hsteps]. by eapply rs_delete.
  - intros id'. rewrite Hrows. cbn. destruct (decide (id' = id)) as [->|Hne].
    + rewrite lookup_delete_eq, (bool_decide_true (id ∈ id :: _)) by left. by case_bool_decide.
    + rewrite lookup_delete_ne by done.
      rewrite (bool_decide_ext (id' ∈ id :: _) (id' ∈ take (Z.to_nat (b - (deleted + 1))) ids)); [done|].
      rewrite elem_of_cons. tauto.
Qed.

Lemma reclaim_delay_exact base maxD n :
  0 < base ≤ 2 ^ 33 - 1 → 0 < maxD → 0 ≤ n →
  reclaim_delay base maxD n = Some (Z.min (base * 2 ^ Z.min n 30) maxD).
Proof.
  intros Hb Hm Hn. unfold reclaim_delay. destruct (Z.min n 30 <? 0) eqn:?; [lia|].
  rewrite Z.shiftl_mul_pow2 by lia.
  assert (1 ≤ 2 ^ Z.min n 30 ≤ 2 ^ 30) as Hp.
  { split; [apply (Z.pow_le_mono_r 2 0); lia|apply Z.pow_le_mono_r; lia]. }
  rewrite wrap64_id, cappedDelay_min by (unfold int64_range, MinInt64, MaxInt64; nia). f_equal. nia.
Qed.

(** Rows with ordinary attempt counts are recovered without a panic. *)
Lemma reclaim_row_total r now maxA base maxD :
  0 < base ≤ 2 ^ 33 - 1 → 0 < maxD → 0 ≤ attempts r < MaxInt64 →
  ∃ r', reclaim_row r now maxA base maxD = Some r' ∧ entry r' = entry r ∧
    attempts r' = attempts r + 1 ∧
    (if maxA <=? attempts r + 1 then status r' = StateDead
     else status r' = StatePending ∧ leaseID r' = "" ∧
          nextRetryAt r' = Some (now + Z.min (base * 2 ^ Z.min (attempts r + 1) 30) maxD)).
Proof.
  intros Hb Hm Ha. unfold reclaim_row.
  rewrite wrap64_id by (unfold int64_range, MinInt64; lia). rewrite Z.geb_leb.
  destruct (maxA <=? attempts r + 1); [eexists; by split|].
  rewrite reclaim_delay_exact by lia. cbn. eexists. by split.
Qed.

Lemma reclaim_loop_total now maxA base maxD b ids : ∀ s count,
  NoDup ids →
  (∀ id, id ∈ ids → ∃ r, rows s !! id = Some r ∧
     is_Some (reclaim_row r now maxA base maxD)) →
  is_Some (reclaim_loop ids count b now maxA base maxD s).
Proof.
  induction ids as [|id ids IH]; intros s count Hnd Hids; cbn [reclaim_loop]; [eauto|].
  apply NoDup_cons in Hnd as [Hni Hnd]. destruct (count >=? b); [eauto|].
  destruct (Hids id ltac:(left)) as (r & -> & (r' & ->)). cbn. apply IH; [done|].
  intros id' Hid'. cbn. rewrite lookup_insert_ne by (intros ->; done). apply Hids. by right.
Qed.

(** *** Every call is a sequence of row steps *)

Lemma stamped_rows s st cutoff tsOf id :
  id ∈ (stamped s st cutoff tsOf).*1 → ∃ r, rows s !! id = Some r ∧ status r = st.
Proof.
  intros ([k t] & -> & Hin)%list_elem_of_fmap. apply stamped_elem in Hin as (r & ? & ? & _). eauto.
Qed.

Lemma ostep_row_steps draws s s' : ostep draws s s' → rtc (row_step draws) s s'.
Proof.
  intros Hs. destruct Hs as [s e Hn|s visit now lease b r s' Hf Hd Hc|s now id l|s id l att next err
    |s now id l att err|s now ttl maxA base maxD b n s' Hr|s cutoff b|s cutoff b].
  - by apply rtc_once, rs_new.
  - rewrite ClaimPending_eq in Hc. destruct (b <? 0); [done|]. cbn in Hc. simplify_eq.
    eapply (claim_all_steps draws lease now (take (Z.to_nat b) (candidates visit s now))); [done| |].
    + eapply sublist_NoDup; [by apply (candidates_NoDup visit s now)|]. apply fmap_sublist, sublist_take.
    + intros k x Hin. apply (subseteq_take (Z.to_nat b)), candidates_elem in Hin as [? ?]; [|done].
      eauto using eligible_pending.
  - unfold MarkPublished. destruct (holds_lease s id l) eqn:Hh; [|done].
    apply rtc_once. eapply mark_row_step; [exact Hh|by left|done].
  - unfold MarkRetry. destruct (holds_lease s id l) eqn:Hh; [|done].
    apply rtc_once. eapply mark_row_step; [exact Hh|by right|done].
  - unfold MarkDead. destruct (holds_lease s id l) eqn:Hh; [|done].
    apply rtc_once. eapply mark_row_step; [exact Hh|by left|done].
  - unfold ReclaimStale in Hr. rewrite eligibleIDs_stamped in Hr.
    eapply reclaim_loop_spec in Hr as (_ & H & _); [apply H|apply stamped_NoDup|apply stamped_rows].
  - unfold CleanupPublished. rewrite eligibleIDs_stamped.
    pose proof (cleanup_loop_spec b _ s 0 (stamped_NoDup s StatePublished cutoff publishedAt)) as H.
    destruct (cleanup_loop _ _ _ _) as [n s']. apply H.
    intros id (r & ? & Hst)%stamped_rows. exists r. by rewrite Hst.
  - unfold CleanupDead. rewrite eligibleIDs_stamped.
    pose proof (cleanup_loop_spec b _ s 0 (stamped_NoDup s StateDead cutoff deadAt)) as H.
    destruct (cleanup_loop _ _ _ _) as [n s']. apply H.
    intros id (r & ? & Hst)%stamped_rows. exists r. by rewrite Hst.
Qed.

Lemma osteps_row_steps draws s s' : rtc (ostep draws) s s' → rtc (row_step draws) s s'.
Proof. induction 1; [done|]. etrans; [by apply ostep_row_steps|done]. Qed.

(** A row stays until it is terminal, and moves along the table. *)
Lemma row_step_history draws s s' id r :
  row_step draws s s' → rows s !! id = Some r →
  (∃ r', rows s' !! id = Some r' ∧ entry r' = entry r ∧ rtc edge (status r) (status r') ∧
         (State_IsTerminal (status r) = true → r' = r)) ∨
  (rows s' !! id = None ∧ State_IsTerminal (status r) = true).
Proof.
  intros Hs Hr. destruct Hs as [e Hn|id' x x' Hx He Hen _|id' x Hx Ht]; cbn.
  - left. exists r. rewrite lookup_insert_ne by congruence. done.
  - left. destruct (decide (id = id')) as [->|]; [|exists r; by rewrite lookup_insert_ne].
    simplify_eq. exists x'. rewrite lookup_insert_eq. split_and!; [done..|by apply rtc_once|].
    intros Ht. exfalso. by destruct (status x), (status x').
  - destruct (decide (id = id')) as [->|]; [|left; exists r; by rewrite lookup_delete_ne].
    simplify_eq. right. by rewrite lookup_delete_eq.
Qed.

Lemma row_step_stale draws s s' id l :
  row_step draws s s' → ¬ draws l → holds_lease s id l = None → holds_lease s' id l = None.
Proof.
  intros Hs Hl Hn. destruct (holds_lease s' id l) as [x|] eqn:Hx; [exfalso|done].
  apply holds_lease_Some in Hx as (Hx & Hst & Hlx).
  destruct Hs as [e Hne|id' r r' Hr He Hen Hd|id' r Hr Ht]; cbn in Hx.
  - apply lookup_insert_Some in Hx as [[<- <-]|[? Hx]]; [done|].
    assert (holds_lease s id l = Some x) by by apply holds_lease_Some. congruence.
  - apply lookup_insert_Some in Hx as [[<- <-]|[? Hx]]; [apply Hl; rewrite <- Hlx; by apply Hd|].
    assert (holds_lease s id l = Some x) by by apply holds_lease_Some. congruence.
  - apply lookup_delete_Some in Hx as [? Hx].
    assert (holds_lease s id l = Some x) by by apply holds_lease_Some. congruence.
Qed.

Lemma row_steps_stale draws s s' id l :
  rtc (row_step draws) s s' → ¬ draws l → holds_lease s id l = None → holds_lease s' id l = None.
Proof. induction 1; eauto using row_step_stale. Qed.

Lemma row_steps_history draws s s' id r :
  rtc (row_step draws) s s' → rows s !! id = Some r →
  ∃ s1 r1, rtc (row_step draws) s s1 ∧ rtc (row_step draws) s1 s' ∧ rows s1 !! id = Some r1 ∧
    entry r1 = entry r ∧ rtc edge (status r) (status r1) ∧
    (State_IsTerminal (status r) = true → r1 = r) ∧
    (s1 = s' ∨ State_IsTerminal (status r1) = true).
Proof.
  intros Hs. revert r. induction Hs as [s|s s1 s2 Hstep Hs IH]; intros r Hr.
  { exists s, r. split_and!; try done. by left. }
  destruct (row_step_history _ _ _ _ _ Hstep Hr) as [(r1 & Hr1 & He1 & Hed1 & Ht1)|[Hnone Ht]].
  - destruct (IH r1 Hr1) as (s3 & r3 & ? & ? & ? & ? & ? & Ht3 & ?).
    exists s3, r3. split_and!; [by eapply rtc_l|done|done|congruence|by etrans| |done].
    intros Ht. rewrite <- (Ht1 Ht). apply Ht3. by rewrite (Ht1 Ht).
  - exists s, r. split_and!; try done; [by eapply rtc_l|by right].
Qed.

(** ** Claims *)

(** C23: an outbox row is never lost and never settled twice.  Under any sequence
    of store calls by any number of relays, a row keeps its entry and moves only
    along the state table; it can disappear (cleanup) only after having been
    Published or Dead, and from then on until its deletion it never changes.
    Once a relay's lease on it is gone (settled, reclaimed, or claimed by
    another relay), every later settlement under that lease is refused and
    changes nothing, as long as UUIDs are not drawn twice. *)
Theorem outbox_row_history s s' id r l :
  rows s !! id = Some r → rtc (ostep (λ l', l' ≠ l)) s s' →
  (∃ s1 r1, rtc (row_step (λ l', l' ≠ l)) s s1 ∧ rtc (row_step (λ l', l' ≠ l)) s1 s' ∧
     rows s1 !! id = Some r1 ∧ entry r1 = entry r ∧ rtc edge (status r) (status r1) ∧
     (State_IsTerminal (status r) = true → r1 = r) ∧
     (s1 = s' ∨ State_IsTerminal (status r1) = true)) ∧
  (status r ≠ StateClaiming ∨ leaseID r ≠ l →
     ∀ now att next err, MarkPublished s' now id l = (false, s') ∧
       MarkRetry s' id l att next err = (false, s') ∧ MarkDead s' now id l att err = (false, s')).
Proof.
  intros Hr Hs%osteps_row_steps. split; [by apply row_steps_history|].
  intros Hor. assert (holds_lease s id l = None) as Hn.
  { destruct (holds_lease s id l) as [x|] eqn:Hx; [|done].
    apply holds_lease_Some in Hx as (? & ? & ?). simplify_eq. by destruct Hor. }
  eapply row_steps_stale in Hn; [|exact Hs|naive_solver].
  intros. unfold MarkPublished, MarkRetry, MarkDead. by rewrite Hn.
Qed.

Definition demo_entry (id : string) (t : Time) : Entry := MkEntry id "o-1" "order.created" "" "{}" t ∅ "".
Definition demo_s1 : FakeStore := (Write NewFakeStore (demo_entry "e1" 10)).2.
Definition demo_claimed : FakeStore :=
  set_row demo_s1 "e1" (claimed_row (new_row (demo_entry "e1" 10) 0) "L1" 20).
(** Reclaimed after its claim went stale, and claimed again by another relay. *)
Definition demo_reclaimed : FakeStore :=
  (default (0, demo_claimed) (ReclaimStale demo_claimed 90 60 5 1 100 10)).2.
Definition demo_again : FakeStore :=
  (default (Ok [], demo_reclaimed) (ClaimPending id demo_reclaimed 100 "L2" 10)).2.

Lemma fair_order_id : fair_order id.
Proof. by intros l. Qed.

Lemma outbox_row_history_witness :
  let r := claimed_row (new_row (demo_entry "e1" 10) 0) "L1" 20 in
  rows demo_claimed !! "e1" = Some r ∧
  ∃ r', rows demo_again !! "e1" = Some r' ∧ leaseID r' = "L2" ∧
    MarkPublished demo_again 101 "e1" "L1" = (false, demo_again).
Proof.
  intros r. split; [vm_compute; reflexivity|].
  assert (rows demo_reclaimed !! "e1" =
    Some (MkRow (demo_entry "e1" 10) StatePending 1 "" None None None (Some 92) "")) as Hrec
    by (vm_compute; reflexivity).
  assert (rtc (ostep (λ l', l' ≠ "L1")) demo_reclaimed demo_again) as Hs.
  { apply rtc_once, (os_ClaimPending _ _ id 100 "L2" 10
      (Ok [MkClaimed (demo_entry "e1" 10) 1 "L2"])); [apply fair_order_id|discriminate|].
    vm_compute; reflexivity. }
  destruct (outbox_row_history demo_reclaimed demo_again "e1" _ "L1" Hrec Hs) as [_ Hm].
  eexists. split; [vm_compute; reflexivity|]. split; [reflexivity|].
  destruct (Hm ltac:(left; discriminate) 101 0 0 "") as [H _]. exact H.
Defined.

(** [ReclaimStale], exactly.  On rows whose attempt counts are in the normal
    range it never panics: it recovers the [batchSize] oldest claims older than
    the TTL and no other row; each of them has one more attempt and is Dead if
    that reaches the maximum and Pending again otherwise, its next retry
    [min(base * 2^min(attempts, 30), max)] from now (for a base of at most
    2^33 - 1 ns, beyond which the shift can overflow as in the relay); the count
    returned is the number of rows recovered. *)
Theorem ReclaimStale_spec s now ttl maxA base maxD b :
  0 < base ≤ 2 ^ 33 - 1 → 0 < maxD → 0 ≤ b →
  (∀ id r, rows s !! id = Some r → 0 ≤ attempts r < MaxInt64) →
  let stale := stamped s StateClaiming (now - ttl) claimedAt in
  ∃ s', ReclaimStale s now ttl maxA base maxD b = Some (Z.min b (Z.of_nat (length stale)), s') ∧
    (∀ id, id ∉ (take (Z.to_nat b) stale).*1 → rows s' !! id = rows s !! id) ∧
    (∀ id t, (id, t) ∈ take (Z.to_nat b) stale → ∃ r r', rows s !! id = Some r ∧
       status r = StateClaiming ∧ claimedAt r = Some t ∧ t < now - ttl ∧
       rows s' !! id = Some r' ∧ entry r' = entry r ∧ attempts r' = attempts r + 1 ∧
       (if maxA <=? attempts r + 1 then status r' = StateDead
        else status r' = StatePending ∧ leaseID r' = "" ∧
             nextRetryAt r' = Some (now + Z.min (base * 2 ^ Z.min (attempts r + 1) 30) maxD))) ∧
    (∀ x y, x ∈ take (Z.to_nat b) stale → y ∈ drop (Z.to_nat b) stale →
       not_after (time_id_less snd fst) x y).
Proof.
  intros Hb Hm Hn Hatt stale.
  assert (∀ id t, (id, t) ∈ stale → ∃ r, rows s !! id = Some r ∧ status r = StateClaiming ∧
    claimedAt r = Some t ∧ t < now - ttl) as Hst by (intros id t; apply stamped_elem).
  destruct (reclaim_loop_total now maxA base maxD b stale.*1 s 0 (stamped_NoDup _ _ _ _)) as [[n s'] Hl].
  { intros id ([k t] & -> & Hin)%list_elem_of_fmap. destruct (Hst _ _ Hin) as (r & Hr & _).
    exists r. split; [done|].
    destruct (reclaim_row_total r now maxA base maxD Hb Hm (Hatt _ _ Hr)) as (? & ? & _). eauto. }
  exists s'. unfold ReclaimStale. rewrite eligibleIDs_stamped. fold stale. rewrite Hl.
  apply reclaim_loop_spec in Hl as (-> & _ & Hin & Hout); [|apply stamped_NoDup|apply stamped_rows].
  rewrite Z.sub_0_r, <- fmap_take in *. split_and!.
  - f_equal. f_equal. rewrite length_fmap, length_take. lia.
  - done.
  - intros id t Hit. destruct (Hst id t) as (r & Hr & ? & ? & ?); [by eapply subseteq_take|].
    destruct (Hin id) as (x & x' & Hx & Hrx & Hx'); [by apply (list_elem_of_fmap_2 fst) in Hit|].
    simplify_eq. destruct (reclaim_row_total r now maxA base maxD Hb Hm (Hatt _ _ Hr)) as (y & Hy & ? & ? & ?).
    simplify_eq. eexists r, _. done.
  - intros x y Hx Hy. eapply take_sorted_before; [apply stamped_sorted|exact Hx|exact Hy].
Qed.

Lemma ReclaimStale_spec_witness :
  stamped demo_claimed StateClaiming 30 claimedAt = [("e1", 20)] ∧
  ∃ s', ReclaimStale demo_claimed 90 60 5 1 100 10 = Some (1, s') ∧
    ∃ r', rows s' !! "e1" = Some r' ∧ attempts r' = 1 ∧ nextRetryAt r' = Some 92.
Proof.
  assert (stamped demo_claimed StateClaiming 30 claimedAt = [("e1", 20)]) as Hst
    by (vm_compute; reflexivity).
  split; [exact Hst|].
  destruct (ReclaimStale_spec demo_claimed 90 60 5 1 100 10) as (s' & Hs & _ & Hin & _); [lia..| |].
  { intros id r Hr. cbn in Hr. rewrite lookup_insert_Some, lookup_insert_Some in Hr.
    destruct Hr as [[_ <-]|[_ [[_ <-]|[_ Hr]]]]; [vm_compute; split; [discriminate|reflexivity]..|].
    by rewrite lookup_empty in Hr. }
  exists s'. change (90 - 60) with 30 in Hs, Hin. rewrite Hst in Hs, Hin. split; [exact Hs|].
  destruct (Hin "e1" 20) as (r & r' & Hr & _ & _ & _ & Hr' & _ & Ha & Hif); [left|].
  assert (r = claimed_row (new_row (demo_entry "e1" 10) 0) "L1" 20) as ->.
  { vm_compute in Hr. by injection Hr. }
  exists r'. split; [exact Hr'|]. split; [exact Ha|]. apply Hif.
Defined.
