(* ===== verification/OutboxRelay.v ===== *)
(** * runtime/outbox/relay.go: the relay

    One poll claims a batch, delivers every entry to its sink (the broker, or an
    in-process command handler behind the idempotency claimer) and writes each
    outcome back under the lease.  The relay is written against the [Store]
    interface; what it cannot control is the [relay_env]: the clock, the lease
    UUID, the answers of broker and handlers, random numbers, and what other
    relays do to the store before each of its calls. *)

From S2P Require Import Prelude Fsm Backoff Idempotency OutboxStore.

(** ** The interfaces to the store and to the claimer

    [None] is a run-time panic of the implementation. *)

Class Store (S : Type) := {
  st_ClaimPending : S → Time → string → Z → option (outcome (list ClaimedEntry) * S);
  st_MarkPublished : S → Time → string → string → option (outcome bool * S);
  st_MarkRetry : S → string → string → Z → Time → string → option (outcome bool * S);
  st_MarkDead : S → Time → string → string → Z → string → option (outcome bool * S);
  st_ReclaimStale : S → Time → Duration → Z → Duration → Duration → Z → option (outcome Z * S);
  st_CleanupPublished : S → Time → Z → option (outcome Z * S);
  st_CleanupDead : S → Time → Z → option (outcome Z * S);
}.

(** The methods of [FakeStore] that return no error. *)
Definition no_error {A S} (r : A * S) : option (outcome A * S) := Some (Ok r.1, r.2).

Definition FakeStore_Store (visit : list (string * fakeRow) → list (string * fakeRow)) : Store FakeStore := {|
  st_ClaimPending := ClaimPending visit;
  st_MarkPublished s now id lease := no_error (MarkPublished s now id lease);
  st_MarkRetry s id lease att next err := no_error (MarkRetry s id lease att next err);
  st_MarkDead s now id lease att err := no_error (MarkDead s now id lease att err);
  st_ReclaimStale s now ttl maxA base maxD b := ReclaimStale s now ttl maxA base maxD b ≫= no_error;
  st_CleanupPublished s cutoff b := no_error (CleanupPublished s cutoff b);
  st_CleanupDead s cutoff b := no_error (CleanupDead s cutoff b);
|}.

(** ** Configuration, results, statistics *)

Record RelayConfig := MkRelayConfig {
  BatchSize : Z;
  MaxAttempts : Z;
  BaseRetryDelay : Duration;
  MaxRetryDelay : Duration;
  ClaimTTL : Duration;
  ReclaimBatchSize : Z;
  RetentionPeriod : Duration;
  DeadRetentionPeriod : Duration;
}.

(** An error of a sink; [PermanentError] when the chain carries that tag. *)
Inductive sinkerr : Type := Plain (e : goerror) | PermanentError (e : goerror).

Definition isPermanentDispatch (e : sinkerr) : bool :=
  match e with PermanentError _ => true | Plain _ => false end.

(** [res.err.Error()], from the text of the underlying error. *)
Definition sink_text (text : goerror → string) (e : sinkerr) : string :=
  match e with
  | Plain e => text e
  | PermanentError e => "permanent: " ++ text e
  end.

Record publishResult := MkPublish {
  pr_entry : ClaimedEntry;
  pr_err : option sinkerr;
  pr_receipt : option nat;
  isCommand : bool;
}.

Record OutcomeCounts := MkCounts { Published : Z; Retried : Z; Dead : Z; Skipped : Z; Lost : Z }.
Record pollStats := MkStats { ps_event : OutcomeCounts; ps_command : OutcomeCounts }.

Definition no_counts : OutcomeCounts := MkCounts 0 0 0 0 0.

Inductive settled : Type := IsPublished | IsRetried | IsDead | IsSkipped | IsLost.

Definition count_one (c : OutcomeCounts) (k : settled) : OutcomeCounts :=
  match k with
  | IsPublished => MkCounts (Published c + 1) (Retried c) (Dead c) (Skipped c) (Lost c)
  | IsRetried => MkCounts (Published c) (Retried c + 1) (Dead c) (Skipped c) (Lost c)
  | IsDead => MkCounts (Published c) (Retried c) (Dead c + 1) (Skipped c) (Lost c)
  | IsSkipped => MkCounts (Published c) (Retried c) (Dead c) (Skipped c + 1) (Lost c)
  | IsLost => MkCounts (Published c) (Retried c) (Dead c) (Skipped c) (Lost c + 1)
  end.

(** [stats.bucket(isCommand)] incremented. *)
Definition bump (st : pollStats) (cmd : bool) (k : settled) : pollStats :=
  if cmd then MkStats (ps_event st) (count_one (ps_command st) k)
  else MkStats (count_one (ps_event st) k) (ps_command st).

(** The statistics after a write-back that answered [r]. *)
Definition settle (stats : pollStats) (cmd : bool) (updated lost : settled) (r : outcome bool)
  : outcome pollStats :=
  match r with
  | Ok b => Ok (bump stats cmd (if b then updated else lost))
  | Err e => Err e
  end.

(** ** The surroundings

    Clock readings and calls of one poll are numbered: reading or call [n] sees
    the time [re_now n], after the other relays did [re_env n]. *)

Record relay_env (S C : Type) := MkRelayEnv {
  re_env : nat → S * C → S * C;
  re_now : nat → Time;
  re_lease : string;
  re_marshal : Entry → outcome bytes;                   (* outbox.MarshalEnvelope *)
  re_publish : Entry → bytes → option sinkerr;          (* Publisher.Publish *)
  re_handlers : gmap string (Entry → option (string * Time) → option sinkerr);  (* cmdDispatch *)
  re_key : string → string → string → string;           (* idemkey.DeriveCommandKey, Flat *)
  re_parse : string → outcome Time;                     (* time.Parse of an RFC 3339 time *)
  re_entropy : Entry → list Z;
  re_text : goerror → string;                           (* Error() *)
  re_sanitize : string → string;                        (* SanitizeError to 1000 runes *)
  re_int64N : Z → Z;
}.
Arguments re_env {S C}. Arguments re_now {S C}. Arguments re_lease {S C}.
Arguments re_marshal {S C}. Arguments re_publish {S C}. Arguments re_handlers {S C}.
Arguments re_key {S C}. Arguments re_parse {S C}. Arguments re_entropy {S C}.
Arguments re_text {S C}. Arguments re_sanitize {S C}. Arguments re_int64N {S C}.

Definition CommandIDMetadataKey : string := "gocell.command.idempotency_id".
Definition CommandDeadlineMetadataKey : string := "gocell.command.overall_deadline".
Definition errRelayOp : string := "ERR_OUTBOX_RELAY_OP".
Definition commandLeaseTTL : Duration := 5 * Minute.
Definition commandDoneTTL : Duration := 24 * Hour.

Definition errMissingIdentity : goerror :=
  Errcode KindInvalid errRelayOp "outbox relay: command entry missing idempotency identity".
Definition errUnparseableDeadline : goerror :=
  Errcode KindInvalid errRelayOp "outbox relay: command entry has unparseable overall_deadline".
Definition errUnknownClaimState : goerror :=
  Errcode KindInternal errRelayOp "outbox relay: command claim returned unknown state".
Definition errCommandDispatchBusy : goerror :=
  Errcode KindConflict errRelayOp "outbox relay: command dispatch busy; another worker holds the claim".

Definition meta_get (e : Entry) (k : string) : string := default "" (metadata e !! k).

Definition activeUniquenessDoneTTL (deadline now : Time) : Duration :=
  let ttl := Sub deadline now in if ttl >? 0 then ttl else 0.

(** What a loop that may need more iterations than [fuel] gives. *)
Inductive looped (A : Type) : Type := Returned (a : A) | Panicked | OutOfFuel.
Arguments Returned {A}. Arguments Panicked {A}. Arguments OutOfFuel {A}.

Section relay.
Context {S C : Type} `{Store S} `{Claimer C} (cfg : RelayConfig) (w : relay_env S C).

(** The store, the claimer, and the number of the next reading or call. *)
Abbreviation rstate := (S * C * nat)%type (only parsing).

Definition store_call {A} (f : S → Time → option (A * S)) (st : rstate) : option (A * rstate) :=
  let '(s, c, n) := st in
  let '(s, c) := re_env w n (s, c) in
  '(a, s) ← f s (re_now w n); Some (a, (s, c, Datatypes.S n)).

Definition claimer_call {A} (f : C → Time → A * C) (st : rstate) : A * rstate :=
  let '(s, c, n) := st in
  let '(s, c) := re_env w n (s, c) in
  let '(a, c) := f c (re_now w n) in (a, (s, c, Datatypes.S n)).

Definition clk_Now (st : rstate) : Time * rstate :=
  let '(s, c, n) := st in (re_now w n, (s, c, Datatypes.S n)).

Definition commandDispatchFor (topic : string) : option (Entry → option (string * Time) → option sinkerr) :=
  re_handlers w !! topic.

Definition ClaimKeyFromEntry (e : Entry) : option string :=
  let subject := aggregateID e in
  let commandID := meta_get e CommandIDMetadataKey in
  if (subject ==s "") || (commandID ==s "") then None
  else Some (re_key w (tenantID e) subject commandID).

(** [Ok None]: the entry carries no deadline. *)
Definition activeDeadline (e : Entry) : outcome (option Time) :=
  let dl := meta_get e CommandDeadlineMetadataKey in
  if dl ==s "" then Ok None else Some <$> re_parse w dl.

Definition dispatchCommand (e : ClaimedEntry) (fn : Entry → option (string * Time) → option sinkerr)
    (st : rstate) : publishResult * rstate :=
  let result err receipt := MkPublish e err receipt true in
  match ClaimKeyFromEntry (ce_Entry e) with
  | None => (result (Some (PermanentError errMissingIdentity)) None, st)
  | Some key =>
      match activeDeadline (ce_Entry e) with
      | Err _ => (result (Some (PermanentError errUnparseableDeadline)) None, st)
      | Ok deadline =>
          let '(doneTTL, st) :=
            match deadline with
            | Some d => let '(now, st) := clk_Now st in (activeUniquenessDoneTTL d now, st)
            | None => (commandDoneTTL, st)
            end in
          let '((state, receipt, err), st) :=
            claimer_call (λ c now, cl_Claim c now (re_entropy w (ce_Entry e)) key commandLeaseTTL doneTTL) st in
          match err with
          | Some err => (result (Some (Plain err)) None, st)
          | None =>
              match state with
              | ClaimAcquired => (result (fn (ce_Entry e) (pair key <$> deadline)) receipt, st)
              | ClaimDone => (result None None, st)
              | ClaimBusy => (result (Some (Plain errCommandDispatchBusy)) None, st)
              | ClaimStateOther _ => (result (Some (PermanentError errUnknownClaimState)) None, st)
              end
          end
      end
  end.

(** The body of the loop of [publishBatch]. *)
Definition publish_one (e : ClaimedEntry) (st : rstate) : publishResult * rstate :=
  match commandDispatchFor (RoutingTopic (ce_Entry e)) with
  | Some fn => dispatchCommand e fn st
  | None =>
      match re_marshal w (ce_Entry e) with
      | Err marshalErr => (MkPublish e (Some (PermanentError marshalErr)) None false, st)
      | Ok payload => (MkPublish e (re_publish w (ce_Entry e) payload) None false, st)
      end
  end.

Fixpoint publishBatch (es : list ClaimedEntry) (st : rstate) : list publishResult * rstate :=
  match es with
  | [] => ([], st)
  | e :: rest =>
      let '(r, st) := publish_one e st in
      let '(rs, st) := publishBatch rest st in (r :: rs, st)
  end.

Definition handleFailedEntry (res : publishResult) (err : sinkerr) (stats : pollStats) (st : rstate)
  : option (outcome pollStats * rstate) :=
  let st := match pr_receipt res with
            | Some i => (claimer_call (λ c _, cl_Release c i) st).2
            | None => st
            end in
  let ce := pr_entry res in
  let newAttempts := wrap64 (Attempts ce + 1) in
  let errMsg := re_sanitize w (sink_text (re_text w) err) in
  if isPermanentDispatch err || (newAttempts >=? MaxAttempts cfg) then
    match Transition StateClaiming StateDead with
    | Err e => Some (Err e, st)
    | Ok _ =>
        match store_call (λ s now, st_MarkDead s now (ent_id (ce_Entry ce)) (LeaseID ce) newAttempts errMsg) st with
        | Some (r, st) => Some (settle stats (isCommand res) IsDead IsLost r, st)
        | None => None
        end
    end
  else
    match Transition StateClaiming StatePending with
    | Err e => Some (Err e, st)
    | Ok _ =>
        match retryDelay (BaseRetryDelay cfg) (MaxRetryDelay cfg) newAttempts (re_int64N w) with
        | None => None
        | Some delay =>
            let '(now, st) := clk_Now st in
            match store_call (λ s _, st_MarkRetry s (ent_id (ce_Entry ce)) (LeaseID ce) newAttempts
                                        (now + delay) errMsg) st with
            | Some (r, st) => Some (settle stats (isCommand res) IsRetried IsLost r, st)
            | None => None
            end
        end
    end.

Definition writeBackOne (res : publishResult) (stats : pollStats) (st : rstate)
  : option (outcome pollStats * rstate) :=
  match pr_err res with
  | Some err => handleFailedEntry res err stats st
  | None =>
      let '(committed, st) :=
        match pr_receipt res with
        | Some i => claimer_call (λ c now, cl_Commit c i now) st
        | None => (Ok tt, st)
        end in
      match committed with
      | Err e => Some (Err e, st)
      | Ok _ =>
          match Transition StateClaiming StatePublished with
          | Err e => Some (Err e, st)
          | Ok _ =>
              let ce := pr_entry res in
              match store_call (λ s now, st_MarkPublished s now (ent_id (ce_Entry ce)) (LeaseID ce)) st with
              | Some (r, st) => Some (settle stats (isCommand res) IsPublished IsSkipped r, st)
              | None => None
              end
          end
      end
  end.

(** Stops at the first error: the remaining entries stay claimed. *)
Fixpoint writeBackResults (rs : list publishResult) (stats : pollStats) (st : rstate)
  : option (outcome pollStats * rstate) :=
  match rs with
  | [] => Some (Ok stats, st)
  | res :: rest =>
      match writeBackOne res stats st with
      | None => None
      | Some (Err e, st) => Some (Err e, st)
      | Some (Ok stats, st) => writeBackResults rest stats st
      end
  end.

Definition pollOnce (st : rstate) : option (outcome pollStats * rstate) :=
  match store_call (λ s now, st_ClaimPending s now (re_lease w) (BatchSize cfg)) st with
  | None => None
  | Some (Err e, st) => Some (Err e, st)
  | Some (Ok [], st) => Some (Ok (MkStats no_counts no_counts), st)
  | Some (Ok es, st) =>
      let '(results, st) := publishBatch es st in
      writeBackResults results (MkStats no_counts no_counts) st
  end.

(** *** Stale claims and cleanup *)

Definition reclaimMaxIterations : nat := 16.

(** The loop with [fuel] iterations left; [canceled i] is the reading of the
    context before iteration [i].  The total is reported also when a sweep
    fails. *)
Fixpoint reclaim_from (fuel i : nat) (total : Z) (canceled : nat → bool) (st : rstate)
  : option (Z * option goerror * rstate) :=
  match fuel with
  | O => Some (total, None, st)
  | Datatypes.S fuel =>
      if canceled i then Some (total, None, st)
      else
        match store_call (λ s now, st_ReclaimStale s now (ClaimTTL cfg) (MaxAttempts cfg)
                 (BaseRetryDelay cfg) (MaxRetryDelay cfg) (ReclaimBatchSize cfg)) st with
        | None => None
        | Some (Err e, st) => Some (total, Some e, st)
        | Some (Ok count, st) =>
            let total := wrap64 (total + count) in
            if count <? ReclaimBatchSize cfg then Some (total, None, st)
            else reclaim_from fuel (Datatypes.S i) total canceled st
        end
  end.

Definition reclaimStale (canceled : nat → bool) (st : rstate) : option (Z * option goerror * rstate) :=
  reclaim_from reclaimMaxIterations 0 0 canceled st.

Definition batchLimit : Z := 1000.

(** The [for] loop around one cleanup method. *)
Fixpoint drain_from (fuel : nat) (total : Z) (f : S → option (outcome Z * S)) (st : rstate)
  : looped (outcome Z * rstate) :=
  match fuel with
  | O => OutOfFuel
  | Datatypes.S fuel =>
      match store_call (λ s _, f s) st with
      | None => Panicked
      | Some (Err e, st) => Returned (Err e, st)
      | Some (Ok deleted, st) =>
          let total := wrap64 (total + deleted) in
          if deleted <? batchLimit then Returned (Ok total, st) else drain_from fuel total f st
      end
  end.

(** The numbers of published and of dead rows removed. *)
Definition cleanup (fuel : nat) (st : rstate) : looped (outcome (Z * Z) * rstate) :=
  let '(now, st) := clk_Now st in
  match drain_from fuel 0 (λ s, st_CleanupPublished s (now - RetentionPeriod cfg) batchLimit) st with
  | Panicked => Panicked
  | OutOfFuel => OutOfFuel
  | Returned (Err e, st) => Returned (Err e, st)
  | Returned (Ok totalPublished, st) =>
      let '(now, st) := clk_Now st in
      match drain_from fuel 0 (λ s, st_CleanupDead s (now - DeadRetentionPeriod cfg) batchLimit) st with
      | Panicked => Panicked
      | OutOfFuel => OutOfFuel
      | Returned (Err e, st) => Returned (Err e, st)
      | Returned (Ok totalDead, st) => Returned (Ok (totalPublished, totalDead), st)
      end
  end.
End relay.

(** ** Polls of events by an undisturbed relay *)

(** What happens when the event is sent. *)
Definition attempt {S C} (w : relay_env S C) (e : Entry) : option sinkerr :=
  match re_marshal w e with
  | Err err => Some (PermanentError err)
  | Ok payload => re_publish w e payload
  end.

(** The entry gives up at this failure, its attempt number [a]. *)
Definition gives_up (cfg : RelayConfig) (err : sinkerr) (a : Z) : bool :=
  isPermanentDispatch err || (a >=? MaxAttempts cfg).

(** Row [r] was delivered once and its outcome written back as [r']. *)
Definition settled_row {S C} (cfg : RelayConfig) (w : relay_env S C) (r r' : fakeRow) : Prop :=
  entry r' = entry r ∧
  match attempt w (entry r) with
  | None => status r' = StatePublished ∧ attempts r' = attempts r
  | Some err =>
      attempts r' = attempts r + 1 ∧
      if gives_up cfg err (attempts r + 1) then status r' = StateDead
      else status r' = StatePending ∧ ∃ n d,
             retryDelay (BaseRetryDelay cfg) (MaxRetryDelay cfg) (attempts r + 1) (re_int64N w) = Some d ∧
             nextRetryAt r' = Some (re_now w n + d)
  end.

(** The relay is alone and dispatches no commands in process. *)
Definition undisturbed {S C} (w : relay_env S C) : Prop :=
  (∀ n x, re_env w n x = x) ∧ re_handlers w = ∅.

(** Rows are stored under the ID of their entry, and the attempts of a row that
    can be claimed can be counted on. *)
Definition store_wf (s : FakeStore) : Prop :=
  ∀ id r, rows s !! id = Some r →
    ent_id (entry r) = id ∧ (status r = StatePending → 0 ≤ attempts r < MaxInt64).

(** One poll after the other; [None] if one of them panics. *)
Fixpoint run_polls {S C : Type} `{Store S} `{Claimer C} (cfg : RelayConfig) (ws : list (relay_env S C)) (s : S) (c : C)
  : option (S * C) :=
  match ws with
  | [] => Some (s, c)
  | w :: ws =>
      match pollOnce cfg w (s, c, 0%nat) with
      | None => None
      | Some (_, (s, c, _)) => run_polls cfg ws s c
      end
  end.

(** A poll begins when every retry its predecessor scheduled is due. *)
Fixpoint spaced {S C} (cfg : RelayConfig) (ws : list (relay_env S C)) : Prop :=
  match ws with
  | w :: ((w' :: _) as rest) =>
      (∀ n, re_now w n + MaxRetryDelay cfg + Z.quot (MaxRetryDelay cfg) 4 ≤ re_now w' 0%nat) ∧
      spaced cfg rest
  | _ => True
  end.

(** The state of a row with [a] failed attempts after the polls [ws]. *)
Fixpoint fate {S C} (cfg : RelayConfig) (ws : list (relay_env S C)) (a : Z) (e : Entry) : State :=
  match ws with
  | [] => StatePending
  | w :: ws =>
      match attempt w e with
      | None => StatePublished
      | Some err => if gives_up cfg err (a + 1) then StateDead else fate cfg ws (a + 1) e
      end
  end.

Section undisturbed.
Context {C : Type} `{Claimer C} (visit : list (string * fakeRow) → list (string * fakeRow)).
Context (cfg : RelayConfig) (Hfair : fair_order visit).
#[local] Hint Extern 0 (Store FakeStore) => exact (FakeStore_Store visit) : typeclass_instances.

Lemma publishBatch_events (w : relay_env FakeStore C) es st : undisturbed w →
  publishBatch w es st = ((λ e, MkPublish e (attempt w (ce_Entry e)) None false) <$> es, st).
Proof.
  intros [_ Hh]. induction es as [|e es IH]; [done|]. cbn [publishBatch].
  unfold publish_one, commandDispatchFor. rewrite Hh, lookup_empty, fmap_cons.
  unfold attempt at 1. destruct (re_marshal w (ce_Entry e)); rewrite IH; done.
Qed.

Lemma writeBackOne_event (w : relay_env FakeStore C) s c n ce id r stats :
  undisturbed w → holds_lease s id (LeaseID ce) = Some r → ent_id (ce_Entry ce) = id →
  ce_Entry ce = entry r → Attempts ce = attempts r → 0 ≤ attempts r < MaxInt64 →
  ∃ stats' r' n',
    writeBackOne cfg w (MkPublish ce (attempt w (ce_Entry ce)) None false) stats (s, c, n) =
      Some (Ok stats', (set_row s id r', c, n')) ∧ settled_row cfg w r r'.
Proof.
  intros [Hq _] Hl Hid He Ha Hr. unfold writeBackOne, settled_row. cbn [pr_err].
  rewrite He. destruct (attempt w (entry r)) as [err|].
  - unfold handleFailedEntry, gives_up. cbn [pr_receipt pr_entry isCommand]. rewrite Ha.
    rewrite wrap64_id by (unfold int64_range, MinInt64, MaxInt64 in *; lia).
    destruct (isPermanentDispatch err || _) eqn:Hg.
    + unfold store_call. cbn -[set_row]. rewrite Hq. unfold MarkDead. rewrite Hid, Hl. cbn -[set_row].
      by repeat eexists.
    + unfold retryDelay. replace (Z.min (attempts r + 1) 30 <? 0) with false by lia.
      unfold store_call. cbn -[set_row]. rewrite Hq. unfold MarkRetry. rewrite Hid, Hl. cbn -[set_row].
      by repeat eexists.
  - cbn [pr_receipt pr_entry isCommand]. unfold store_call. cbn -[set_row]. rewrite Hq.
    unfold MarkPublished. rewrite Hid, Hl. cbn -[set_row]. by repeat eexists.
Qed.

Lemma writeBack_events (w : relay_env FakeStore C) lease now c sel : undisturbed w → ∀ s n stats,
  NoDup sel.*1 →
  (∀ k r, (k, r) ∈ sel → rows s !! k = Some (claimed_row r lease now) ∧ ent_id (entry r) = k ∧
                         0 ≤ attempts r < MaxInt64) →
  ∃ stats' s' n',
    writeBackResults cfg w
      ((λ e, MkPublish e (attempt w (ce_Entry e)) None false) <$>
        ((λ kr, MkClaimed (entry kr.2) (attempts kr.2) lease) <$> sel)) stats (s, c, n) =
      Some (Ok stats', (s', c, n')) ∧
    (∀ k r, (k, r) ∈ sel → ∃ r', rows s' !! k = Some r' ∧ settled_row cfg w r r') ∧
    (∀ k, k ∉ sel.*1 → rows s' !! k = rows s !! k).
Proof.
  intros Hw. induction sel as [|[k r] sel IH]; intros s n stats Hnd Hsel.
  { eexists _, _, _. split; [reflexivity|]. split; [by intros ? ? ?%elem_of_nil|done]. }
  rewrite !fmap_cons in *. apply NoDup_cons in Hnd as [Hk Hnd]. cbn [fst snd] in *.
  destruct (Hsel k r ltac:(left)) as (Hr & Hid & Ha).
  destruct (writeBackOne_event w s c n (MkClaimed (entry r) (attempts r) lease) k
              (claimed_row r lease now) stats Hw) as (stats1 & r1 & n1 & Hwb & Hset); try done.
  { by apply holds_lease_Some. }
  assert (∀ k' r', (k', r') ∈ sel → k ≠ k') as Hne.
  { intros k' r' Hin <-. apply Hk. by apply (list_elem_of_fmap_2 fst) in Hin. }
  destruct (IH (set_row s k r1) n1 stats1 Hnd) as (stats' & s' & n' & Hrest & Hin & Hout).
  { intros k' r' Hx. cbn. rewrite lookup_insert_ne by (by eapply Hne). apply Hsel. by right. }
  exists stats', s', n'. split_and!.
  - cbn [writeBackResults]. rewrite Hwb. exact Hrest.
  - intros k' r' [[= -> ->]|Hx]%elem_of_cons; [|by apply Hin].
    exists r1. rewrite Hout by done. cbn. by rewrite lookup_insert_eq.
  - intros k' [? ?]%not_elem_of_cons. rewrite Hout by done. cbn. by rewrite lookup_insert_ne.
Qed.

(** How many rows wait to be published. *)
Definition pending_count (s : FakeStore) : nat := size (filter (λ kr, status kr.2 = StatePending) (rows s)).

Lemma candidates_length s now : (length (candidates visit s now) ≤ pending_count s)%nat.
Proof.
  unfold candidates, pending_count. rewrite sort_Slice_length, (Hfair _).
  rewrite map_filter_alt, map_size_list_to_map.
  2: { eapply sublist_NoDup; [apply (NoDup_fst_map_to_list (rows s))|]. apply fmap_sublist, sublist_filter. }
  induction (map_to_list (rows s)) as [|[k r] l IH]; [done|]. rewrite !filter_cons. cbn [snd].
  repeat case_decide; cbn [length]; try lia.
  match goal with H : eligible _ _ = true |- _ => by apply eligible_pending in H end.
Qed.

Lemma pending_None s k r : pending_count s = 0%nat → rows s !! k = Some r → status r ≠ StatePending.
Proof.
  intros Hz%map_size_empty_inv Hr Hst.
  assert (filter (λ kr : string * fakeRow, status kr.2 = StatePending) (rows s) !! k = Some r) as Hx
    by (by apply map_lookup_filter_Some).
  by rewrite Hz, lookup_empty in Hx.
Qed.

Lemma pending_Some s : pending_count s ≠ 0%nat → ∃ k r, rows s !! k = Some r ∧ status r = StatePending.
Proof.
  intros Hne. destruct (map_choose (filter (λ kr : string * fakeRow, status kr.2 = StatePending) (rows s)))
    as (k & r & [? ?]%map_lookup_filter_Some); [|by exists k, r].
  intros Hz. apply Hne. unfold pending_count. by rewrite Hz.
Qed.

(** What one poll does: it delivers the rows [sel] once and touches no other.  They
    are eligible; they are all the eligible ones if the pending rows fit the batch,
    and at least one if there is any. *)
Record polled (w : relay_env FakeStore C) (s s' : FakeStore) (sel : list string) : Prop := {
  pd_sel k : k ∈ sel → ∃ r, rows s !! k = Some r ∧ eligible (re_now w 0) r = true;
  pd_none k : rows s !! k = None → rows s' !! k = None;
  pd_row k r : rows s !! k = Some r → ∃ r', rows s' !! k = Some r' ∧
    if decide (k ∈ sel) then settled_row cfg w r r' else r' = r;
  pd_full k r : Z.of_nat (pending_count s) ≤ BatchSize cfg →
    rows s !! k = Some r → eligible (re_now w 0) r = true → k ∈ sel;
  pd_some k r : 0 < BatchSize cfg → rows s !! k = Some r → eligible (re_now w 0) r = true → ∃ k', k' ∈ sel;
}.

Lemma pollOnce_polled (w : relay_env FakeStore C) s c :
  undisturbed w → store_wf s → 0 ≤ BatchSize cfg →
  ∃ stats s' n' sel, pollOnce cfg w (s, c, 0%nat) = Some (Ok stats, (s', c, n')) ∧ polled w s s' sel.
Proof.
  intros Hw Hwf Hb. unfold pollOnce, store_call. destruct Hw as [Hq Hh]. rewrite Hq.
  cbn [st_ClaimPending FakeStore_Store]. rewrite ClaimPending_eq.
  replace (BatchSize cfg <? 0) with false by lia. set (now := re_now w 0). cbv zeta.
  set (sel := take _ (candidates visit s now)).
  assert (NoDup sel.*1) as Hnd.
  { eapply sublist_NoDup; [by apply (candidates_NoDup visit s now)|]. apply fmap_sublist, sublist_take. }
  assert (∀ k r, (k, r) ∈ sel → rows s !! k = Some r ∧ eligible now r = true) as Hsel
    by (intros k r Hin%subseteq_take; by apply (candidates_elem visit)).
  destruct (claim_all_steps (λ _, True) (re_lease w) now sel s I Hnd) as (_ & Hcl & Hkeep).
  { intros k r [? He%eligible_pending]%Hsel. done. }
  destruct (writeBack_events w (re_lease w) now c sel (conj Hq Hh)
    (foldl (λ s kr, set_row s kr.1 (claimed_row kr.2 (re_lease w) now)) s sel) 1
    (MkStats no_counts no_counts) Hnd) as (stats & s' & n' & Hwb & Hin & Hout).
  { intros k r Hx. destruct (Hsel k r Hx) as [Hr He%eligible_pending].
    destruct (Hwf k r Hr) as [Hid Ha]. eauto. }
  exists stats, s', n', sel.*1. split.
  { cbn -[publishBatch writeBackResults].
    destruct sel as [|x sel']; [by cbn in Hwb |- *; injection Hwb as <- <- <-|].
    rewrite fmap_cons. rewrite publishBatch_events by done. exact Hwb. }
  assert (Hkey : ∀ k r, k ∈ sel.*1 → rows s !! k = Some r → (k, r) ∈ sel).
  { intros k r ([k' r'] & -> & Hx)%list_elem_of_fmap Hr. destruct (Hsel _ _ Hx). cbn in *. by simplify_eq. }
  split.
  - intros k ([k' r] & -> & Hx)%list_elem_of_fmap. exists r. by apply Hsel.
  - intros k Hk. assert (k ∉ sel.*1) as Hn.
    { intros ([k' r] & -> & Hx)%list_elem_of_fmap. destruct (Hsel _ _ Hx). cbn in Hk. congruence. }
    by rewrite Hout, Hkeep.
  - intros k r Hr. case_decide as Hk; [apply Hin, Hkey; done|]. exists r. by rewrite Hout, Hkeep.
  - intros k r Hfit Hr He. apply (list_elem_of_fmap_2 fst _ (k, r)). unfold sel.
    pose proof (candidates_length s now). rewrite take_ge by lia. by apply (candidates_elem visit).
  - intros k r Hpos Hr He. assert ((k, r) ∈ candidates visit s now) as Hx by (by apply (candidates_elem visit)).
    unfold sel. destruct (candidates visit s now) as [|[k' r'] l]; [by apply elem_of_nil in Hx|].
    destruct (Z.to_nat (BatchSize cfg)) eqn:?; [lia|]. exists k'. cbn. by left.
Qed.

Lemma polled_pending (w : relay_env FakeStore C) s s' sel k r r' :
  polled w s s' sel → rows s !! k = Some r → rows s' !! k = Some r' → status r' = StatePending → status r = StatePending.
Proof.
  intros Hp Hr Hr' Hst. destruct (pd_row _ _ _ _ Hp k r Hr) as (x & Hx & Hset). simplify_eq.
  case_decide as Hk; [|by subst]. destruct (pd_sel _ _ _ _ Hp k Hk) as (y & Hy & He%eligible_pending). congruence.
Qed.

Lemma polled_wf (w : relay_env FakeStore C) s s' sel :
  MaxAttempts cfg ≤ MaxInt64 → store_wf s → polled w s s' sel →
  store_wf s' ∧ dom (rows s') = dom (rows s) ∧ (pending_count s' ≤ pending_count s)%nat.
Proof.
  intros HM Hwf Hp. assert (Hdom : dom (rows s') = dom (rows s)).
  { apply set_eq. intros k. rewrite !elem_of_dom. destruct (rows s !! k) as [r|] eqn:Hr.
    - destruct (pd_row _ _ _ _ Hp k r Hr) as (x & -> & _). split; eauto.
    - by rewrite (pd_none _ _ _ _ Hp). }
  assert (Hback : ∀ k r', rows s' !! k = Some r' → ∃ r, rows s !! k = Some r).
  { intros k r' Hr'. apply elem_of_dom. rewrite <-Hdom. apply elem_of_dom. eauto. }
  split_and!; [|done|].
  - intros k r' Hr'. destruct (Hback k r' Hr') as [r Hr].
    destruct (pd_row _ _ _ _ Hp k r Hr) as (x & Hx & Hset). simplify_eq. destruct (Hwf k r Hr) as [Hid Ha].
    case_decide as Hk; [|by subst]. destruct (pd_sel _ _ _ _ Hp k Hk) as (y & Hy & He%eligible_pending).
    assert (y = r) as -> by congruence. specialize (Ha He). destruct Hset as [-> Hset]. split; [done|]. intros Hpe.
    destruct (attempt w (entry r)) as [err|]; [|destruct Hset; congruence].
    destruct Hset as [-> Hg]. unfold gives_up in Hg.
    destruct (isPermanentDispatch err); cbn in Hg; [congruence|].
    destruct (attempts r + 1 >=? MaxAttempts cfg) eqn:Hlt; [congruence|].
    rewrite Z.geb_leb in Hlt. lia.
  - unfold pending_count. rewrite <-!size_dom. apply subseteq_size. intros k (r' & [Hr' Hst]%map_lookup_filter_Some)%elem_of_dom.
    destruct (Hback k r' Hr') as [r Hr]. apply elem_of_dom. exists r. apply map_lookup_filter_Some. split; [done|].
    by eapply polled_pending.
Qed.

(** Every row is delivered in some of the polls, its turns, and follows its fate. *)
Lemma run_polls_turns (ws : list (relay_env FakeStore C)) : ∀ s c,
  Forall undisturbed ws → store_wf s → MaxAttempts cfg ≤ MaxInt64 → 0 ≤ BatchSize cfg →
  ∃ s', run_polls cfg ws s c = Some (s', c) ∧ dom (rows s') = dom (rows s) ∧ ∀ k r, rows s !! k = Some r →
    ∃ r' turns, rows s' !! k = Some r' ∧ entry r' = entry r ∧ turns `sublist_of` ws ∧
      (status r = StatePending → status r' = fate cfg turns (attempts r) (entry r)) ∧
      (status r ≠ StatePending → r' = r).
Proof.
  induction ws as [|w ws IH]; intros s c Hws Hwf HM Hb.
  { exists s. split_and!; [done..|]. intros k r Hr. by exists r, []. }
  apply Forall_cons in Hws as [Hw Hws].
  destruct (pollOnce_polled w s c Hw Hwf Hb) as (stats & s1 & n & sel & Hrun & Hp).
  destruct (polled_wf w s s1 sel HM Hwf Hp) as (Hwf1 & Hdom & _). cbn [run_polls]. rewrite Hrun.
  destruct (IH s1 c Hws Hwf1 HM Hb) as (s' & Hrest & Hdom' & Hrows).
  exists s'. split_and!; [done|congruence|]. intros k r Hr.
  destruct (pd_row _ _ _ _ Hp k r Hr) as (r1 & Hr1 & Hset).
  destruct (Hrows k r1 Hr1) as (r' & turns & Hr' & He' & Hsub & Hfate & Hsame). case_decide as Hk.
  2: { subst r1. exists r', turns. split_and!; try done. by apply sublist_cons. }
  destruct (pd_sel _ _ _ _ Hp k Hk) as (x & Hx & Hst%eligible_pending).
  assert (x = r) as -> by congruence.
  destruct Hset as [He Hset]. exists r'. destruct (attempt w (entry r)) as [err|] eqn:Ha.
  - destruct Hset as [Hat Hset]. destruct (gives_up cfg err (attempts r + 1)) eqn:Hg.
    + exists [w]. rewrite (Hsame ltac:(congruence)) in *. split_and!; [done..|by apply sublist_skip, sublist_nil_l| |done].
      intros _. cbn. by rewrite Ha, Hg.
    + destruct Hset as [Hp1 _]. exists (w :: turns). split_and!; [done|congruence|by apply sublist_skip| |done].
      intros _. cbn. rewrite Ha, Hg, <-Hat, <-He. by apply Hfate.
  - destruct Hset as [Hs _]. exists [w]. rewrite (Hsame ltac:(congruence)) in *.
    split_and!; [done..|by apply sublist_skip, sublist_nil_l| |done]. intros _. cbn. by rewrite Ha.
Qed.

Lemma run_polls_terminal (ws : list (relay_env FakeStore C)) s c id r :
  Forall undisturbed ws → store_wf s → MaxAttempts cfg ≤ MaxInt64 → 0 ≤ BatchSize cfg →
  rows s !! id = Some r → status r ≠ StatePending →
  ∃ s', run_polls cfg ws s c = Some (s', c) ∧ rows s' !! id = Some r.
Proof.
  intros Hws Hwf HM Hb Hr Hst. destruct (run_polls_turns ws s c Hws Hwf HM Hb) as (s' & Hrun & _ & Hrows).
  destruct (Hrows id r Hr) as (r' & _ & Hr' & _ & _ & _ & Hsame). exists s'. by rewrite <-(Hsame Hst).
Qed.

(** *** Work *)

(** The attempts the pending rows have left together; a pending row has at least one. *)
Definition budget (r : fakeRow) : nat :=
  if bool_decide (status r = StatePending) then Z.to_nat (Z.max 1 (MaxAttempts cfg - attempts r)) else 0%nat.
Definition work (s : FakeStore) : nat :=
  sum_list_with (λ k, from_option budget 0%nat (rows s !! k)) (elements (dom (rows s))).

Lemma sum_list_with_le {A} (f g : A → nat) l :
  (∀ x, x ∈ l → (f x ≤ g x)%nat) → (sum_list_with f l ≤ sum_list_with g l)%nat.
Proof.
  induction l as [|y l IH]; intros Hle; [done|]. cbn.
  apply Nat.add_le_mono; [apply Hle; left|]. apply IH. intros x Hx. apply Hle. by right.
Qed.

Lemma sum_list_with_lt {A} (f g : A → nat) l x :
  (∀ x, x ∈ l → (f x ≤ g x)%nat) → x ∈ l → (f x < g x)%nat → (sum_list_with f l < sum_list_with g l)%nat.
Proof.
  intros Hle Hx Hlt. induction l as [|y l IH]; [by apply elem_of_nil in Hx|]. cbn.
  assert (Hrest : ∀ z, z ∈ l → (f z ≤ g z)%nat) by (intros z Hz; apply Hle; by right).
  apply elem_of_cons in Hx as [->|Hx].
  - apply Nat.add_lt_le_mono; [done|]. by apply sum_list_with_le.
  - apply Nat.add_le_lt_mono; [apply Hle; left|]. by apply IH.
Qed.

Lemma settled_budget (w : relay_env FakeStore C) r r' :
  status r = StatePending → settled_row cfg w r r' → (budget r' < budget r)%nat.
Proof.
  intros Hst [_ Hset]. unfold budget. rewrite (bool_decide_true (status r = _)) by done.
  destruct (attempt w (entry r)) as [err|].
  - destruct Hset as [Hat Hset]. destruct (gives_up cfg err (attempts r + 1)) eqn:Hg.
    + rewrite bool_decide_false by congruence. lia.
    + destruct Hset as [Hp _]. rewrite bool_decide_true by done. rewrite Hat.
      unfold gives_up in Hg. apply orb_false_iff in Hg as [_ Hg]. rewrite Z.geb_leb in Hg. lia.
  - destruct Hset as [Hs _]. rewrite bool_decide_false by congruence. lia.
Qed.

Lemma polled_work (w : relay_env FakeStore C) s s' sel k :
  MaxAttempts cfg ≤ MaxInt64 → store_wf s → polled w s s' sel → k ∈ sel → (work s' < work s)%nat.
Proof.
  intros HM Hwf Hp Hk. destruct (polled_wf w s s' sel HM Hwf Hp) as (_ & Hdom & _). unfold work. rewrite Hdom.
  apply (sum_list_with_lt _ _ _ k).
  - intros x _. destruct (rows s !! x) as [r|] eqn:Hr; [|by rewrite (pd_none _ _ _ _ Hp)].
    destruct (pd_row _ _ _ _ Hp x r Hr) as (r' & -> & Hset). cbn. case_decide as Hx; [|by subst].
    destruct (pd_sel _ _ _ _ Hp x Hx) as (y & Hy & He%eligible_pending).
    assert (y = r) as -> by congruence. by apply Nat.lt_le_incl, (settled_budget w).
  - destruct (pd_sel _ _ _ _ Hp k Hk) as (r & Hr & _). apply elem_of_elements, elem_of_dom. eauto.
  - destruct (pd_sel _ _ _ _ Hp k Hk) as (r & Hr & He%eligible_pending). rewrite Hr.
    destruct (pd_row _ _ _ _ Hp k r Hr) as (r' & -> & Hset). rewrite decide_True in Hset by done. cbn.
    by apply (settled_budget w).
Qed.
End undisturbed.

Lemma retryDelay_le baseDelay maxDelay a int64N d :
  0 ≤ maxDelay ≤ 2 ^ 62 → (∀ n, 0 < n → 0 ≤ int64N n < n) →
  retryDelay baseDelay maxDelay a int64N = Some d → d ≤ maxDelay + Z.quot maxDelay 4.
Proof.
  intros Hm Hj. unfold retryDelay. destruct (Z.min a 30 <? 0); [done|]. intros [= <-].
  set (x := cappedDelay _ _). assert (0 ≤ x ≤ maxDelay) as Hx.
  { unfold x, cappedDelay. repeat case_match; rewrite ?Z.gtb_ltb in *; lia. }
  pose proof (Z.quot_pos maxDelay 4 ltac:(lia) ltac:(lia)).
  destruct (x >? 0) eqn:H0; [|lia]. unfold retryJitterDivisor.
  pose proof (Z.quot_le_mono x maxDelay 4 ltac:(lia) ltac:(lia)).
  pose proof (Z.quot_pos x 4 ltac:(lia) ltac:(lia)).
  pose proof (Z.mul_quot_le x 4 ltac:(lia) ltac:(lia)).
  pose proof (Hj (Z.quot x 4 + 1) ltac:(lia)).
  rewrite wrap64_id by (unfold int64_range, MinInt64, MaxInt64; lia). lia.
Qed.

(** A row scheduled for a retry by poll [w] is eligible in the next, [w']. *)
Lemma retry_due {C} cfg (w w' : relay_env FakeStore C) r' d n :
  0 ≤ MaxRetryDelay cfg ≤ 2 ^ 62 → (∀ n, 0 < n → 0 ≤ re_int64N w n < n) →
  re_now w n + MaxRetryDelay cfg + Z.quot (MaxRetryDelay cfg) 4 ≤ re_now w' 0%nat →
  retryDelay (BaseRetryDelay cfg) (MaxRetryDelay cfg) d (re_int64N w) = Some (from_option id 0 (nextRetryAt r') - re_now w n) →
  is_Some (nextRetryAt r') → status r' = StatePending → eligible (re_now w' 0%nat) r' = true.
Proof.
  intros Hmax Hj Hsp Hd [t Ht] Hp. rewrite Ht in Hd. cbn in Hd. apply retryDelay_le in Hd; [|done..].
  unfold eligible. rewrite Hp, Ht, bool_decide_true by done. cbn. unfold After. rewrite ?Z.gtb_ltb.
  apply negb_true_iff, Z.ltb_ge. lia.
Qed.

(** The induction over the polls when all pending rows fit the batch: each poll is a
    turn of the row. *)
Lemma run_polls_fate {C} `{Claimer C} visit cfg (ws : list (relay_env FakeStore C)) :
  fair_order visit → MaxAttempts cfg ≤ MaxInt64 → 0 ≤ MaxRetryDelay cfg ≤ 2 ^ 62 → ∀ s c id r,
  Forall undisturbed ws → Forall (λ w, ∀ n, 0 < n → 0 ≤ re_int64N w n < n) ws → spaced cfg ws →
  store_wf s → Z.of_nat (pending_count s) ≤ BatchSize cfg →
  rows s !! id = Some r → status r = StatePending →
  (∀ w, head ws = Some w → eligible (re_now w 0) r = true) →
  ∃ s' r', run_polls (H := FakeStore_Store visit) cfg ws s c = Some (s', c) ∧
    rows s' !! id = Some r' ∧ entry r' = entry r ∧ status r' = fate cfg ws (attempts r) (entry r).
Proof.
  intros Hfair HM Hmax. induction ws as [|w ws IH]; intros s c id r Hws Hj Hsp Hwf Hb Hr Hst Hel.
  { eexists s, r. done. }
  pose proof Hws as [Hw Hws']%Forall_cons. pose proof Hj as [Hjw Hj']%Forall_cons.
  assert (Hb0 : 0 ≤ BatchSize cfg) by lia.
  destruct (pollOnce_polled visit cfg Hfair w s c Hw Hwf Hb0) as (stats & s1 & n & sel & Hp & Hpd).
  destruct (polled_wf cfg w s s1 sel HM Hwf Hpd) as (Hwf1 & _ & Hcnt).
  destruct (pd_row _ _ _ _ _ Hpd id r Hr) as (r1 & Hr1 & Hset).
  rewrite decide_True in Hset by (by apply (pd_full _ _ _ _ _ Hpd id r Hb Hr), Hel).
  destruct Hset as [He Hset]. cbn [run_polls fate]. rewrite Hp.
  assert (status r1 ≠ StatePending → ∃ s' r', run_polls (H := FakeStore_Store visit) cfg ws s1 c = Some (s', c) ∧
    rows s' !! id = Some r' ∧ entry r' = entry r ∧ status r' = status r1) as Hterm.
  { intros Hne. destruct (run_polls_terminal visit cfg Hfair ws s1 c id r1) as (s' & ? & ?); [done..|by exists s', r1]. }
  destruct (attempt w (entry r)) as [err|]; [|destruct Hset as [Hs _]; rewrite Hs in Hterm; by apply Hterm].
  destruct Hset as [Ha Hg]. destruct (gives_up cfg err (attempts r + 1)).
  { rewrite Hg in Hterm. by apply Hterm. }
  destruct Hg as (Hp1 & m & d & Hd & Hnext). rewrite <- Ha, <- He.
  apply IH; try done; [by destruct ws; [|destruct Hsp]|lia|].
  intros w' Hw'. destruct ws as [|w'' ws]; [done|]. injection Hw' as ->. destruct Hsp as [Hsp _].
  eapply (retry_due cfg w w'); [done..|apply (Hsp m)| |by eauto|done]. rewrite Hnext. cbn. rewrite Hd. f_equal. lia.
Qed.

(** Every pending row is eligible in the first poll. *)
Definition ready {S C} (ws : list (relay_env S C)) (s : FakeStore) : Prop :=
  ∀ w k r, head ws = Some w → rows s !! k = Some r → status r = StatePending → eligible (re_now w 0%nat) r = true.

Lemma polled_ready {C} `{Claimer C} cfg (w w' : relay_env FakeStore C) ws s s' sel :
  0 ≤ MaxRetryDelay cfg ≤ 2 ^ 62 → (∀ n, 0 < n → 0 ≤ re_int64N w n < n) → spaced cfg (w :: w' :: ws) →
  ready (w :: w' :: ws) s → polled cfg w s s' sel → ready (w' :: ws) s'.
Proof.
  intros Hmax Hj [Hsp _] Hready Hp w0 k r' [= <-] Hr' Hst.
  destruct (rows s !! k) as [r|] eqn:Hr; [|by rewrite (pd_none _ _ _ _ _ Hp) in Hr'].
  pose proof (polled_pending _ _ _ _ _ _ _ _ Hp Hr Hr' Hst) as Hst0.
  destruct (pd_row _ _ _ _ _ Hp k r Hr) as (x & Hx & Hset).
  assert (x = r') as -> by congruence. case_decide as Hk.
  - destruct Hset as [_ Hset]. destruct (attempt w (entry r)) as [err|]; [|destruct Hset; congruence].
    destruct Hset as [_ Hset]. destruct (gives_up _ _ _); [congruence|]. destruct Hset as (_ & n & d & Hd & Hnext).
    eapply (retry_due cfg w w'); [done..|apply (Hsp n)| |by eauto|done]. rewrite Hnext. cbn. rewrite Hd. f_equal. lia.
  - subst r'. specialize (Hready w k r eq_refl Hr Hst). specialize (Hsp 0%nat).
    pose proof (Z.quot_pos (MaxRetryDelay cfg) 4 ltac:(lia) ltac:(lia)).
    unfold eligible in *. bools. rewrite bool_decide_true by done. cbn. destruct (nextRetryAt r); [|done].
    unfold After in *. rewrite ?Z.gtb_ltb in *. bools. apply negb_true_iff, Z.ltb_ge. lia.
Qed.

(** With any positive batch, as many polls as the pending rows have attempts left
    settle them all. *)
Lemma run_polls_work {C} `{Claimer C} visit cfg (ws : list (relay_env FakeStore C)) :
  fair_order visit → MaxAttempts cfg ≤ MaxInt64 → 0 ≤ MaxRetryDelay cfg ≤ 2 ^ 62 → 0 < BatchSize cfg → ∀ s c s',
  Forall undisturbed ws → Forall (λ w, ∀ n, 0 < n → 0 ≤ re_int64N w n < n) ws → spaced cfg ws →
  store_wf s → ready ws s → (work cfg s ≤ length ws)%nat →
  run_polls (H := FakeStore_Store visit) cfg ws s c = Some (s', c) →
  ∀ k r, rows s' !! k = Some r → status r ≠ StatePending.
Proof.
  intros Hfair HM Hmax Hb. induction ws as [|w ws IH]; intros s c s' Hws Hj Hsp Hwf Hready Hlen.
  { intros [= <-] k r Hr Hst. cbn in Hlen.
    assert (budget cfg r = 0%nat) as Hz.
    { apply Nat.le_0_r. etrans; [|exact Hlen]. unfold work.
      assert (k ∈ elements (dom (rows s))) as Hk by (apply elem_of_elements, elem_of_dom; eauto).
      induction (elements (dom (rows s))) as [|x l IH]; [by apply elem_of_nil in Hk|]. cbn.
      apply elem_of_cons in Hk as [<-|Hk]; [rewrite Hr; cbn; lia|]. specialize (IH Hk). lia. }
    unfold budget in Hz. rewrite bool_decide_true in Hz by done. lia. }
  pose proof Hws as [Hw Hws']%Forall_cons. pose proof Hj as [Hjw Hj']%Forall_cons.
  destruct (pollOnce_polled visit cfg Hfair w s c Hw Hwf ltac:(lia)) as (stats & s1 & n & sel & Hp & Hpd).
  destruct (polled_wf cfg w s s1 sel HM Hwf Hpd) as (Hwf1 & _ & _). cbn [run_polls]. rewrite Hp. intros Hrun.
  destruct (decide (pending_count s = 0%nat)) as [Hnone|Hsome].
  - destruct (run_polls_turns visit cfg Hfair (w :: ws) s c Hws Hwf HM ltac:(lia)) as (s2 & Hrun2 & Hdom & Hrows).
    cbn [run_polls] in Hrun2. rewrite Hp, Hrun in Hrun2. injection Hrun2 as <-. intros k r' Hr' Hst.
    assert (k ∈ dom (rows s)) as [r Hr]%elem_of_dom by (rewrite <-Hdom; apply elem_of_dom; eauto).
    assert (status r ≠ StatePending) as Hne.
    { intros Hpe. eapply pending_None; [exact Hnone|done..]. }
    destruct (Hrows k r Hr) as (x & _ & Hx & _ & _ & _ & Hsame). rewrite (Hsame Hne) in Hx. congruence.
  - destruct (pending_Some s Hsome) as (k & r & Hr & Hst).
    destruct (pd_some _ _ _ _ _ Hpd k r Hb Hr) as [k' Hk']; [by apply (Hready w k r)|].
    pose proof (polled_work cfg w s s1 sel k' HM Hwf Hpd Hk'). cbn [length] in Hlen.
    apply (IH s1 c s'); [done..|by destruct ws; [|destruct Hsp]|done| |lia|done].
    destruct ws as [|w' ws]; [by intros ???|]. by apply (polled_ready cfg w w' ws s s1 sel).
Qed.

Lemma fate_terminal {S C} cfg (ws : list (relay_env S C)) e : ∀ a,
  ws ≠ [] → MaxAttempts cfg - a ≤ Z.of_nat (length ws) → State_IsTerminal (fate cfg ws a e) = true.
Proof.
  induction ws as [|w ws IH]; intros a Hne Hlen; [done|]. cbn in *.
  destruct (attempt w e) as [err|]; [|done]. destruct (gives_up cfg err (a + 1)) eqn:Hg; [done|].
  unfold gives_up in Hg. apply orb_false_iff in Hg as [_ Hg]. rewrite Z.geb_leb in Hg.
  apply IH; [|lia]. intros ->. cbn in *. lia.
Qed.

Lemma fate_cases {S C} cfg (ws : list (relay_env S C)) e : ∀ a,
  fate cfg ws a e = StatePublished ∨ fate cfg ws a e = StateDead ∨ fate cfg ws a e = StatePending.
Proof.
  induction ws as [|w ws IH]; intros a; cbn; [auto|].
  destruct (attempt w e) as [err|]; [|auto]. destruct (gives_up cfg err (a + 1)); auto.
Qed.

(** Some delivery of the entry succeeds, and those before it fail transiently with
    budget left after [a] attempts already made. *)
Definition delivered_by {S C} cfg (ws : list (relay_env S C)) (a : Z) (e : Entry) : Prop :=
  ∃ i w, ws !! i = Some w ∧ attempt w e = None ∧
    ∀ j w', (j < i)%nat → ws !! j = Some w' →
      ∃ err, attempt w' e = Some err ∧ gives_up cfg err (a + 1 + Z.of_nat j) = false.

Lemma fate_published {S C} cfg (ws : list (relay_env S C)) e : ∀ a,
  fate cfg ws a e = StatePublished ↔ delivered_by cfg ws a e.
Proof.
  unfold delivered_by. induction ws as [|w ws IH]; intros a; cbn [fate].
  { split; [done|]. intros (i & ? & Hi & _). by rewrite lookup_nil in Hi. }
  destruct (attempt w e) as [err|] eqn:Hw.
  2: { split; [|done]. intros _. exists 0%nat, w. split_and!; [done..|]. intros; lia. }
  destruct (gives_up cfg err (a + 1)) eqn:Hg.
  - split; [done|]. intros ([|i] & w0 & Hi & H0 & Hall); cbn in Hi; [by simplify_eq|].
    destruct (Hall 0%nat w ltac:(lia) eq_refl) as (err' & He & Hg'). rewrite Z.add_0_r in Hg'. congruence.
  - rewrite IH. split.
    + intros (i & w0 & Hi & H0 & Hall). exists (Datatypes.S i), w0. split_and!; [done..|].
      intros [|j] w' Hj Hw'; cbn in Hw'.
      * simplify_eq. exists err. by rewrite Z.add_0_r.
      * destruct (Hall j w' ltac:(lia) Hw') as (err' & ? & <-). exists err'. split; [done|]. f_equal. lia.
    + intros ([|i] & w0 & Hi & H0 & Hall); cbn in Hi; [by simplify_eq|].
      exists i, w0. split_and!; [done..|]. intros j w' Hj Hw'.
      destruct (Hall (Datatypes.S j) w' ltac:(lia) Hw') as (err' & ? & <-). exists err'. split; [done|]. f_equal. lia.
Qed.

(** *** Commands *)

(** The lifetime of the done marker of a command dispatched at reading [n]. *)
Definition done_ttl {S C} (w : relay_env S C) (e : Entry) (n : nat) : Duration :=
  match activeDeadline w e with
  | Ok (Some deadline) => activeUniquenessDoneTTL deadline (re_now w n)
  | _ => commandDoneTTL
  end.

(** During the poll nobody else uses the claimer. *)
Definition claimer_quiet {S C} (w : relay_env S C) : Prop := ∀ n x, (re_env w n x).2 = x.2.

(** The receipt a dispatch returns is that of an acquired claim of the key. *)
Lemma dispatch_receipt {S} `{Store S} (w : relay_env S InMemClaimer) ce fn s c n res s1 c1 n1 key i :
  ClaimKeyFromEntry w (ce_Entry ce) = Some key →
  dispatchCommand w ce fn (s, c, n) = (res, (s1, c1, n1)) → pr_receipt res = Some i →
  ∃ tok, receipts c1 !! i = Some (MkReceipt key tok (done_ttl w (ce_Entry ce) n) None).
Proof.
  intros Hkey Hd Hi. unfold dispatchCommand in Hd. rewrite Hkey in Hd. unfold done_ttl.
  destruct (activeDeadline w (ce_Entry ce)) as [dl|]; [|by simplify_eq].
  destruct dl as [dl|]; cbn [clk_Now] in Hd; unfold claimer_call in Hd;
    (destruct (re_env w _ (s, c)) as [s0 c0]; cbn [cl_Claim InMemClaimer_Claimer] in Hd;
     destruct (Claim c0 _ _ _ _ _) as [[[state rc] err] c'] eqn:Hc;
     destruct err; [by simplify_eq|]; destruct state; simplify_eq; cbn in Hi; simplify_eq;
     apply Claim_acquired in Hc as (tok & Hr & _); eauto).
Qed.

Lemma receipt_kept c ops c' i r :
  claimer_run c ops c' → receipts c !! i = Some r → Forall (λ op, ¬ by_receipt i op) ops →
  receipts c' !! i = Some r.
Proof.
  induction 1 as [|c op ops c' Hf _ IH]; intros Hr Hops; [done|].
  apply Forall_cons in Hops as [Hnot Hops]. apply IH; [|done].
  destruct (op_cases op) as [[j Hby]|(now & en & key & l & d & ->)].
  - destruct (receipts c !! j) as [x|] eqn:Hx; [|by rewrite (receipt_op_missing _ _ j)].
    destruct (receipt_op_frame c op j x Hby Hx) as (_ & _ & Hrs & _).
    rewrite Hrs; [done|]. by intros ->.
  - destruct (claim_frame c now en key l d) as (_ & _ & [[Heq _]|(tok & _ & Heq & _)]); cbn; rewrite Heq;
      [done|]. by apply lookup_app_l_Some.
Qed.

(** A write-back that publishes a command has left its done marker. *)
Lemma writeBack_done {S} `{Store S} cfg (w : relay_env S InMemClaimer) res stats s c n stats' s2 c2 n2 i key tok d :
  claimer_quiet w → tokens_distinct c → receipts c !! i = Some (MkReceipt key tok d None) →
  pr_err res = None → pr_receipt res = Some i →
  writeBackOne cfg w res stats (s, c, n) = Some (Ok stats', (s2, c2, n2)) →
  let r2 := MkReceipt key tok d (Some (Ok tt)) in
  tokens_distinct c2 ∧ receipts c2 !! i = Some r2 ∧
  owned c2 r2 = Some (Idempotency.MkEntry ClaimDone tok (re_now w n + d)).
Proof.
  intros Hq Hd Hr Herr Hrc. unfold writeBackOne. rewrite Herr, Hrc. unfold claimer_call.
  pose proof (Hq n (s, c)) as Hn. destruct (re_env w n (s, c)) as [s0 c0]. cbn in Hn. subst c0.
  cbn [cl_Commit InMemClaimer_Claimer].
  pose proof (exec_distinct c (OpCommit i (re_now w n)) I Hd) as Hd'. cbn in Hd'.
  unfold Commit, use_once in *. rewrite Hr in *. cbn [rcp_err] in *.
  destruct (owned c _) as [x|] eqn:Ho; [|done]. cbn -[owned] in *. unfold store_call.
  match goal with |- context [re_env w (Datatypes.S n) ?x] => pose proof (Hq (Datatypes.S n) x) as Hn';
    destruct (re_env w (Datatypes.S n) x) as [s3 c3] end. cbn in Hn'. subst c3.
  destruct (st_MarkPublished _ _ _ _) as [[a b]|]; [|done]. cbn. intros [= _ _ <- _].
  apply owned_Some in Ho as [Hx Ht]. cbn in Hx, Ht. subst tok. split_and!; [done| |].
  - cbn. by rewrite list_lookup_insert_eq by (by eapply lookup_lt_Some).
  - apply owned_Some. cbn. by rewrite lookup_insert_eq.
Qed.

(** ** Claims *)


(** A relay whose broker is down at the first poll only. *)
Definition demo_relay_env (t : Time) (up : bool) : relay_env FakeStore InMemClaimer :=
  MkRelayEnv _ _ (λ _ x, x) (λ n, t + Z.of_nat (Nat.min n 9)) "lease" (λ _, Ok "{}")
    (λ _ _, if up then None else Some (Plain (ErrorsNew "broker down"))) ∅
    (λ tenant subject cmd, (tenant ++ ":" ++ subject ++ ":" ++ cmd)%string) (λ _, Err (ErrorsNew "bad time"))
    (λ _, demo_bytes 1) (λ _, "broker down") (λ s, s) (λ _, 0).

Definition demo_relay_cfg : RelayConfig := MkRelayConfig 10 3 1 8 100 10 100 100.

(** Two events and a batch of one: the first one is in the way of the second. *)
Module NarrowSample.
Definition cfg : RelayConfig := MkRelayConfig 1 2 1 8 100 10 100 100.
Definition store : FakeStore :=
  MkStore {["e1" := new_row (demo_entry "e1" 10) 0; "e2" := new_row (demo_entry "e2" 11) 0]}.
Definition polls : list (relay_env FakeStore InMemClaimer) :=
  [demo_relay_env 20 false; demo_relay_env 60 true; demo_relay_env 100 true; demo_relay_env 140 true].

Lemma store_cases k x : rows store !! k = Some x →
  (k = "e1" ∧ x = new_row (demo_entry "e1" 10) 0) ∨ (k = "e2" ∧ x = new_row (demo_entry "e2" 11) 0).
Proof.
  cbn. intros [[<- <-]|[_ [<- <-]%lookup_singleton_Some]]%lookup_insert_Some; auto.
Qed.
End NarrowSample.


(** C24: a command is not dispatched twice.  Let the relay dispatch a command
    under an acquired claim and write its success back without error; between
    the two and afterwards any other workers use the claimer, but not this
    receipt.  Then until the lifetime of the done marker is over any relay that
    meets an entry with the same idempotency key settles it as published, and
    its handler is not run: the result does not depend on it.  The lifetime counts
    from the commit: it is 24 hours, or for a command with a deadline what was left
    to the deadline before the claim, so that such a marker outlives the deadline by
    the time from there to the commit, although the deadline is documented to bound
    it. *)
Theorem command_dispatched_once {S} `{Store S} cfg (w w' : relay_env S InMemClaimer)
    ce fn s c n res s1 c1 n1 ops0 ops1 s1' c1' n1' stats stats' s2 c2 n2 ops2 s3 c3 n3 key i ce' dl' :
  ClaimKeyFromEntry w (ce_Entry ce) = Some key →
  dispatchCommand w ce fn (s, c, n) = (res, (s1, c1, n1)) →
  pr_err res = None → pr_receipt res = Some i →
  claimer_run NewInMemClaimer ops0 c1 →
  claimer_run c1 ops1 c1' → Forall (λ op, ¬ by_receipt i op) ops1 → claimer_quiet w →
  writeBackOne cfg w res stats (s1', c1', n1') = Some (Ok stats', (s2, c2, n2)) →
  let until := re_now w n1' + done_ttl w (ce_Entry ce) n in
  claimer_run c2 ops2 c3 → Forall (λ op, ¬ by_receipt i op ∧ claims_before key until op) ops2 →
  claimer_quiet w' → ClaimKeyFromEntry w' (ce_Entry ce') = Some key →
  activeDeadline w' (ce_Entry ce') = Ok dl' → (∀ m, re_now w' m < until) →
  (∃ st', ∀ fn', dispatchCommand w' ce' fn' (s3, c3, n3) = (MkPublish ce' None None true, st')) ∧
  (activeDeadline w (ce_Entry ce) = Ok None → until = re_now w n1' + 24 * Hour) ∧
  (∀ dl, activeDeadline w (ce_Entry ce) = Ok (Some dl) → re_now w n < dl → dl - re_now w n ≤ MaxInt64 →
     until = dl + (re_now w n1' - re_now w n)).
Proof.
  intros Hkey Hd Herr Hrc Hrun0 Hrun1 Hops1 Hq Hwb until Hrun2 Hops2 Hq' Hkey' Hdl Hnow.
  destruct (dispatch_receipt w ce fn s c n res s1 c1 n1 key i Hkey Hd Hrc) as (tok & Hr1).
  pose proof (receipt_kept _ _ _ _ _ Hrun1 Hr1 Hops1) as Hr1'.
  pose proof (run_distinct _ _ _ Hrun1 (reachable_distinct _ _ Hrun0)) as Hd1.
  destruct (writeBack_done _ _ _ _ _ _ _ _ _ _ _ _ _ _ _ Hq Hd1 Hr1' Herr Hrc Hwb) as (Hd2 & Hr2 & Ho2).
  destruct (owner_run c2 ops2 c3 i _ _ Hrun2 Hd2 Hr2 Ho2) as [_ Ho3].
  { eapply Forall_impl; [exact Hops2|]. intros op [Hnot Hb]. split; [|done].
    destruct op; cbn in *; try done; by intros ->. }
  split; [|unfold until, done_ttl; split; [by intros ->|]].
  2: { intros dl -> Hlt Hmax. unfold activeUniquenessDoneTTL, Sub. rewrite Z.min_r, Z.max_r by (unfold MinInt64; lia).
       destruct (Z.gtb_spec (dl - re_now w n) 0); lia. }
  unfold dispatchCommand. rewrite Hkey', Hdl.
  destruct dl' as [dl|]; cbn [clk_Now]; unfold claimer_call;
    (match goal with |- context [re_env w' ?k ?x] => pose proof (Hq' k x) as Hn;
       destruct (re_env w' k x) as [s4 c4] end; cbn in Hn; subst c4;
     cbn [cl_Claim InMemClaimer_Claimer];
     erewrite Claim_held by (first [exact Ho3|done|apply Hnow]); cbn; eauto).
Qed.

(** A command with the deadline 22 is dispatched at 20 and committed at 22; at 23 it is
    met again, and still taken for done. *)
Module CommandSample.
Definition env (now : nat → Time) : relay_env FakeStore InMemClaimer :=
  MkRelayEnv _ _ (λ _ x, x) now "lease" (λ _, Ok "{}") (λ _ _, None) ∅
    (λ tenant subject cmd, (tenant ++ ":" ++ subject ++ ":" ++ cmd)%string) (λ _, Ok 22)
    (λ _, demo_bytes 1) (λ _, "") (λ s, s) (λ _, 0).
Definition first : relay_env FakeStore InMemClaimer := env (λ n, 20 + Z.of_nat (Nat.min n 9)).
Definition later : relay_env FakeStore InMemClaimer := env (λ _, 23).

Definition command (id : string) : ClaimedEntry :=
  MkClaimed (MkEntry id "o-1" "command.ship" "" "{}" 10
    {[ CommandIDMetadataKey := "c1"; CommandDeadlineMetadataKey := "t22" ]} "t1") 0 "lease".
Definition handler (_ : Entry) (_ : option (string * Time)) : option sinkerr := None.

Definition claimed : InMemClaimer :=
  (dispatchCommand first (command "e1") handler (NewFakeStore, NewInMemClaimer, 0%nat)).2.1.2.
Definition committed : InMemClaimer := (Commit claimed 0 22).2.

Lemma claimed_run : claimer_run NewInMemClaimer [OpClaim 21 (demo_bytes 1) "t1:o-1:c1" commandLeaseTTL 2] claimed.
Proof.
  apply (run_cons NewInMemClaimer _ [] claimed); [|apply run_nil].
  intros tok r _ Hr. cbn in Hr. by apply elem_of_nil in Hr.
Qed.
End CommandSample.

Lemma command_dispatched_once_witness :
  activeDeadline CommandSample.first (ce_Entry (CommandSample.command "e1")) = Ok (Some 22) ∧
  ∃ st', ∀ fn', dispatchCommand CommandSample.later (CommandSample.command "e2") fn'
                  (NewFakeStore, CommandSample.committed, 0%nat) =
                (MkPublish (CommandSample.command "e2") None None true, st').
Proof.
  split; [vm_compute; reflexivity|].
  refine (proj1 (command_dispatched_once (H := FakeStore_Store id) demo_relay_cfg CommandSample.first CommandSample.later
    (CommandSample.command "e1") CommandSample.handler
    NewFakeStore NewInMemClaimer 0 (MkPublish (CommandSample.command "e1") None (Some 0%nat) true) NewFakeStore CommandSample.claimed 2
    _ [] NewFakeStore CommandSample.claimed 2 (MkStats no_counts no_counts) (MkStats no_counts (MkCounts 0 0 0 1 0))
    NewFakeStore CommandSample.committed 4 [] NewFakeStore CommandSample.committed 0 "t1:o-1:c1" 0 (CommandSample.command "e2") (Some 22)
    _ _ eq_refl eq_refl CommandSample.claimed_run (run_nil _) (Forall_nil_2 _) _ _ (run_nil _) (Forall_nil_2 _) _ _ _ _));
    [vm_compute; reflexivity|vm_compute; reflexivity|by intros n x|vm_compute; reflexivity
    |by intros n x|vm_compute; reflexivity|vm_compute; reflexivity|].
  intros m. vm_compute. reflexivity.
Defined.
