(* ===== verification/Base64.v ===== *)
(** * encoding/base64: RawURLEncoding

    The unpadded URL-safe codec of the Go library, as the refresh tokens and the
    pagination cursors use it.  The decoder is the library's, not a strict one:
    it skips carriage returns and line feeds and ignores the spare bits of the
    last character of an incomplete quantum. *)

From Stdlib Require Import Ascii String.
From S2P Require Import Prelude GoJson.

Ltac Zify.zify_post_hook ::= Z.to_euclidean_division_equations.

(** ** The alphabet *)

Definition chr (n : Z) : ascii := ascii_of_N (Z.to_N n).

Definition b64_char (n : Z) : ascii :=
  if n <? 26 then chr (65 + n)
  else if n <? 52 then chr (97 + (n - 26))
  else if n <? 62 then chr (48 + (n - 52))
  else if n =? 62 then "-"%char else "_"%char.

Definition b64_val (c : ascii) : option Z :=
  let v := byte_val c in
  if (65 <=? v) && (v <=? 90) then Some (v - 65)
  else if (97 <=? v) && (v <=? 122) then Some (v - 97 + 26)
  else if (48 <=? v) && (v <=? 57) then Some (v - 48 + 52)
  else if (c =? "-")%char then Some 62
  else if (c =? "_")%char then Some 63
  else None.

(** ** Encoding and decoding *)

Fixpoint b64_encode (s : bytes) : string :=
  match s with
  | String a (String b (String c rest)) =>
      let v := byte_val a * 65536 + byte_val b * 256 + byte_val c in
      String (b64_char (v / 262144)) (String (b64_char (v / 4096 mod 64))
        (String (b64_char (v / 64 mod 64)) (String (b64_char (v mod 64)) (b64_encode rest))))
  | String a (String b EmptyString) =>
      let v := byte_val a * 256 + byte_val b in
      String (b64_char (v / 1024)) (String (b64_char (v / 16 mod 64))
        (String (b64_char (v mod 16 * 4)) EmptyString))
  | String a EmptyString =>
      let v := byte_val a in
      String (b64_char (v / 4)) (String (b64_char (v mod 4 * 16)) EmptyString)
  | EmptyString => EmptyString
  end.

(** The quanta, once line breaks are gone. *)
Fixpoint b64_quanta (s : string) : option bytes :=
  match s with
  | String a (String b (String c (String d rest))) =>
      x ← b64_val a; y ← b64_val b; z ← b64_val c; t ← b64_val d; more ← b64_quanta rest;
      let v := x * 262144 + y * 4096 + z * 64 + t in
      Some (String (chr (v / 65536)) (String (chr (v / 256 mod 256)) (String (chr (v mod 256)) more)))
  | String a (String b (String c EmptyString)) =>
      x ← b64_val a; y ← b64_val b; z ← b64_val c;
      let v := x * 1024 + y * 16 + z / 4 in
      Some (String (chr (v / 256)) (String (chr (v mod 256)) EmptyString))
  | String a (String b EmptyString) =>
      x ← b64_val a; y ← b64_val b;
      Some (String (chr (x * 4 + y / 16)) EmptyString)
  | String _ EmptyString => None
  | EmptyString => Some EmptyString
  end.

Fixpoint drop_newlines (s : string) : string :=
  match s with
  | EmptyString => EmptyString
  | String c rest =>
      if (c =? "010")%char || (c =? "013")%char then drop_newlines rest else String c (drop_newlines rest)
  end.

Definition b64_decode (s : string) : option bytes := b64_quanta (drop_newlines s).

(** ** Lemmas *)

Lemma byte_val_range c : 0 ≤ byte_val c < 256.
Proof.
  unfold byte_val. pose proof (N_ascii_bounded c). lia.
Qed.

Lemma chr_val c : chr (byte_val c) = c.
Proof. unfold chr, byte_val. rewrite N2Z.id. apply ascii_N_embedding. Qed.

Lemma val_chr n : 0 ≤ n < 256 → byte_val (chr n) = n.
Proof. intros. unfold chr, byte_val. rewrite N_ascii_embedding by lia. lia. Qed.

(** A statement about every sextet, decided by evaluation. *)
Lemma sextet_ind (P : Z → Prop) `{!∀ n, Decision (P n)} :
  forallb (λ n, bool_decide (P (Z.of_nat n))) (seq 0 64) = true → ∀ n, 0 ≤ n < 64 → P n.
Proof.
  rewrite forallb_forall. intros Hall n Hn. specialize (Hall (Z.to_nat n)).
  rewrite Z2Nat.id in Hall by lia. apply bool_decide_eq_true in Hall; [done|]. apply in_seq. lia.
Qed.

Lemma b64_val_char n : 0 ≤ n < 64 → b64_val (b64_char n) = Some n.
Proof. apply (sextet_ind (λ n, b64_val (b64_char n) = Some n)). vm_compute. reflexivity. Qed.

(** A boolean test that holds of every byte, decided by evaluation. *)
Lemma byte_forall (f : ascii → bool) :
  forallb (λ n, f (chr (Z.of_nat n))) (seq 0 256) = true → ∀ c, f c = true.
Proof.
  rewrite forallb_forall. intros Hall c. pose proof (byte_val_range c).
  specialize (Hall (Z.to_nat (byte_val c))). rewrite Z2Nat.id, chr_val in Hall by lia.
  apply Hall, in_seq. lia.
Qed.

Lemma b64_val_Some c n : b64_val c = Some n → 0 ≤ n < 64 ∧ c = b64_char n.
Proof.
  intros Hn. assert (match b64_val c with
    | Some n => (0 <=? n) && (n <? 64) && (c =? b64_char n)%char | None => true end = true) as Hc.
  { revert c Hn. intros c _. revert c. apply byte_forall. vm_compute. reflexivity. }
  rewrite Hn in Hc. bools. split; [lia|]. by apply Ascii.eqb_eq.
Qed.

(** No character of the alphabet is a line break or the dot. *)
Lemma b64_char_plain n : 0 ≤ n < 64 →
  (b64_char n =? "010")%char = false ∧ (b64_char n =? "013")%char = false ∧
  (b64_char n =? ".")%char = false.
Proof.
  apply (sextet_ind (λ n, (b64_char n =? "010")%char = false ∧ (b64_char n =? "013")%char = false ∧
    (b64_char n =? ".")%char = false)). vm_compute. reflexivity.
Qed.

Fixpoint b64_plain (s : string) : Prop :=
  match s with
  | EmptyString => True
  | String c rest => is_Some (b64_val c) ∧ b64_plain rest
  end.

Lemma string_ind3 (P : string → Prop) :
  P EmptyString → (∀ a, P (String a EmptyString)) → (∀ a b, P (String a (String b EmptyString))) →
  (∀ a b c s, P s → P (String a (String b (String c s)))) → ∀ s, P s.
Proof.
  intros H0 H1 H2 H3. fix IH 1. intros [|a [|b [|c s]]]; [done|apply H1|apply H2|apply H3, IH].
Qed.

Lemma plain_char n s : 0 ≤ n < 64 → b64_plain s → b64_plain (String (b64_char n) s).
Proof. intros Hn Hs. split; [|done]. rewrite b64_val_char by done. by eexists. Qed.

Lemma b64_encode_plain s : b64_plain (b64_encode s).
Proof.
  induction s as [|a|a b|a b c s IH] using string_ind3; [done|..]; cbn [b64_encode];
    pose proof (byte_val_range a); try pose proof (byte_val_range b); try pose proof (byte_val_range c);
    repeat (apply plain_char; [lia|]); done.
Qed.

Lemma drop_newlines_plain s : b64_plain s → drop_newlines s = s.
Proof.
  induction s as [|c s IH]; [done|]. intros [[n Hc] Hs].
  apply b64_val_Some in Hc as [Hn ->]. destruct (b64_char_plain n Hn) as (H1 & H2 & _).
  cbn [drop_newlines]. rewrite H1, H2. cbn. by rewrite IH.
Qed.

Lemma b64_quanta_encode s : b64_quanta (b64_encode s) = Some s.
Proof.
  induction s as [|a|a b|a b c s IH] using string_ind3; [done|..]; cbn [b64_encode b64_quanta];
    pose proof (byte_val_range a); try pose proof (byte_val_range b); try pose proof (byte_val_range c);
    rewrite !b64_val_char by lia; cbn [mbind option_bind]; rewrite ?IH; cbn [mbind option_bind];
    repeat f_equal;
    match goal with |- chr ?e = ?x => trans (chr (byte_val x)); [f_equal; lia|apply chr_val] end.
Qed.

(** Encoding and decoding again gives the bytes back. *)
Lemma b64_decode_encode s : b64_decode (b64_encode s) = Some s.
Proof. unfold b64_decode. by rewrite drop_newlines_plain, b64_quanta_encode by apply b64_encode_plain. Qed.

Lemma b64_encode_length s :
  String.length (b64_encode s) =
  (4 * (String.length s / 3) + match String.length s mod 3 with O => 0 | S k => k + 2 end)%nat.
Proof.
  induction s as [|a|a b|a b c s IH] using string_ind3; [done..|]. cbn [b64_encode String.length].
  rewrite IH. replace (S (S (S (String.length s)))) with (String.length s + 1 * 3)%nat by lia.
  rewrite Nat.div_add, Nat.Div0.mod_add by done. lia.
Qed.

Lemma string_ind4 (P : string → Prop) :
  P EmptyString → (∀ a, P (String a EmptyString)) → (∀ a b, P (String a (String b EmptyString))) →
  (∀ a b c, P (String a (String b (String c EmptyString)))) →
  (∀ a b c d s, P s → P (String a (String b (String c (String d s))))) → ∀ s, P s.
Proof.
  intros H0 H1 H2 H3 H4. fix IH 1.
  intros [|a [|b [|c [|d s]]]]; [done|apply H1|apply H2|apply H3|apply H4, IH].
Qed.

(** What decodes to [b] is the encoding of [b], except for the spare bits of the
    last character of an incomplete quantum. *)
Lemma b64_quanta_Some s : ∀ b, b64_quanta s = Some b →
  b64_plain s ∧ String.length s = String.length (b64_encode b) ∧
  ∀ i, (S i < String.length s)%nat ∨ (String.length s mod 4 = 0)%nat →
    String.get i s = String.get i (b64_encode b).
Proof.
  induction s as [|a|a b0|a b0 c|a b0 c d s IH] using string_ind4; intros b Hb; cbn [b64_quanta] in Hb.
  { by simplify_eq. }
  { done. }
  all: repeat match type of Hb with
    | (b64_val ?c ≫= _) = Some _ => destruct (b64_val c) as [?|] eqn:?; [cbn [mbind option_bind] in Hb|done]
    end.
  3: destruct (b64_quanta s) as [more|] eqn:Hmore; [cbn [mbind option_bind] in Hb|done];
     destruct (IH more eq_refl) as (Hp & Hl & Hi); clear IH.
  all: injection Hb as <-; repeat match goal with
    | H : b64_val _ = Some _ |- _ => pose proof H; apply b64_val_Some in H as [? ->] end.
  all: cbn [b64_encode b64_plain]; rewrite !val_chr by lia; split; [repeat split; first [exact Hp|by eexists]|].
  - split; [done|]. intros [|[|i]] [Hlt|Hm]; cbn in Hlt || cbn in Hm; try lia. cbn. do 2 f_equal. lia.
  - split; [done|]. intros [|[|[|i]]] [Hlt|Hm]; cbn in Hlt || cbn in Hm; try lia; cbn; do 2 f_equal; lia.
  - cbn [String.length]. split; [by rewrite Hl|]. intros [|[|[|[|i]]]] Hor; [cbn; do 2 f_equal; lia..|].
    apply Hi. destruct Hor as [Hor|Hor]; [left; lia|right].
    replace (S (S (S (S (String.length s))))) with (String.length s + 1 * 4)%nat in Hor by lia.
    by rewrite Nat.Div0.mod_add in Hor.
Qed.

(** Bytes that do not fill their last quantum have a second text. *)
Lemma b64_malleable b : (String.length b mod 3 ≠ 0)%nat →
  ∃ s, s ≠ b64_encode b ∧ b64_plain s ∧ b64_quanta s = Some b.
Proof.
  induction b as [|a|a b|a b c s IH] using string_ind3; intros Hm; cbn [String.length] in Hm; [done|..].
  - pose proof (byte_val_range a).
    exists (String (b64_char (byte_val a / 4)) (String (b64_char (byte_val a mod 4 * 16 + 1)) EmptyString)).
    cbn [b64_encode b64_quanta]. rewrite !b64_val_char by lia. cbn [mbind option_bind]. split_and!.
    + intros [= Heq]. apply (f_equal b64_val) in Heq. rewrite !b64_val_char in Heq by lia. injection Heq. lia.
    + repeat (apply plain_char; [lia|]). done.
    + do 2 f_equal. trans (chr (byte_val a)); [f_equal; lia|apply chr_val].
  - pose proof (byte_val_range a). pose proof (byte_val_range b).
    exists (String (b64_char ((byte_val a * 256 + byte_val b) / 1024))
      (String (b64_char ((byte_val a * 256 + byte_val b) / 16 mod 64))
        (String (b64_char ((byte_val a * 256 + byte_val b) mod 16 * 4 + 1)) EmptyString))).
    cbn [b64_encode b64_quanta]. rewrite !b64_val_char by lia. cbn [mbind option_bind]. split_and!.
    + intros [= Heq]. apply (f_equal b64_val) in Heq. rewrite !b64_val_char in Heq by lia. injection Heq. lia.
    + repeat (apply plain_char; [lia|]). done.
    + do 2 f_equal; [trans (chr (byte_val a)); [f_equal; lia|apply chr_val]|].
      f_equal. trans (chr (byte_val b)); [f_equal; lia|apply chr_val].
  - destruct IH as (t & Hne & Hp & Hq).
    { replace (S (S (S (String.length s)))) with (String.length s + 1 * 3)%nat in Hm by lia.
      by rewrite Nat.Div0.mod_add in Hm. }
    pose proof (byte_val_range a). pose proof (byte_val_range b). pose proof (byte_val_range c).
    set (v := byte_val a * 65536 + byte_val b * 256 + byte_val c).
    exists (String (b64_char (v / 262144)) (String (b64_char (v / 4096 mod 64))
        (String (b64_char (v / 64 mod 64)) (String (b64_char (v mod 64)) t)))).
    cbn [b64_encode b64_quanta]. fold v. rewrite !b64_val_char by (unfold v; lia). cbn [mbind option_bind].
    rewrite Hq. cbn [mbind option_bind]. split_and!.
    + by intros [= ->].
    + repeat (apply plain_char; [unfold v; lia|]). done.
    + repeat f_equal; unfold v;
        match goal with |- chr ?e = ?x => trans (chr (byte_val x)); [f_equal; lia|apply chr_val] end.
Qed.
