(* ===== verification/RefreshStore.v ===== *)
(** * runtime/auth/refresh and its in-memory store

    Refresh tokens are opaque pairs of a selector, by which the row is found, and
    a verifier, of which only the SHA-256 is stored.  Every method of the store
    runs under its mutex.  The clock, the new row's UUID and the random bytes are
    arguments: [rand k] is what the [k]-th [io.ReadFull] of the call gave. *)

From Stdlib Require Import Ascii String.
From S2P Require Import Prelude GoJson Base64.

(** ** opaque.go *)

Definition SelectorLen : nat := 16.
Definition VerifierLen : nat := 32.
Definition WireLen : nat := 22 + 1 + 43.
Definition wireSeparator : ascii := ".".

Definition GeneratePair (rand : nat → outcome bytes) : outcome (bytes * bytes) :=
  match rand 0%nat with
  | Err e => Err e
  | Ok sel => match rand 1%nat with
              | Err e => Err e
              | Ok ver => Ok (sel, ver)
              end
  end.

Definition EncodeOpaque (selector verifier : bytes) : string :=
  (b64_encode selector ++ String wireSeparator (b64_encode verifier))%string.

(** [strings.Cut] at the first separator. *)
Fixpoint strings_Cut (s : string) (sep : ascii) : option (string * string) :=
  match s with
  | EmptyString => None
  | String c rest =>
      if (c =? sep)%char then Some (EmptyString, rest)
      else match strings_Cut rest sep with
           | Some (before, after) => Some (String c before, after)
           | None => None
           end
  end.

Definition ParseOpaque (s : string) : option (bytes * bytes) :=
  if negb (String.length s =? WireLen)%nat then None
  else match strings_Cut s wireSeparator with
       | None => None
       | Some (selStr, verStr) =>
           match b64_decode selStr, b64_decode verStr with
           | Some selB, Some verB =>
               if negb (String.length selB =? SelectorLen)%nat || negb (String.length verB =? VerifierLen)%nat
               then None else Some (selB, verB)
           | _, _ => None
           end
       end.

(** ** types.go, errors.go *)

Record Token := MkToken {
  tok_ID : string;
  tok_SessionID : string;
  tok_SubjectID : string;
  CreatedAt : Time;
  ExpiresAt : Time;
  AuthzEpochAtIssue : Z;
}.

Record Policy := MkPolicy {
  ReuseInterval : Duration;
  MaxAge : Duration;
  MaxIdle : Duration;
  GraceMaxReuses : Z;
}.

Definition Policy_Validate (p : Policy) : outcome unit :=
  let errorf msg := Err (ErrorsNew ("refresh.Policy: " ++ msg)) in
  if MaxAge p <=? 0 then errorf "Policy.MaxAge must be positive"
  else if ReuseInterval p <? 0 then errorf "Policy.ReuseInterval must not be negative"
  else if MaxIdle p <=? 0 then errorf "Policy.MaxIdle must be positive"
  else if GraceMaxReuses p <=? 0 then errorf "Policy.GraceMaxReuses must be positive"
  else Ok tt.

Definition ErrRejected : goerror :=
  Errcode KindUnauthenticated "ERR_REFRESH_TOKEN_REJECTED" "refresh token rejected".
Definition ErrReused : goerror :=
  Errcode KindUnauthenticated "ERR_REFRESH_TOKEN_REUSED" "refresh token reused".

(** ** memstore/store.go *)

Record tokenRecord := MkRecord {
  rec_id : string;
  parentID : string;
  sessionID : string;
  subjectID : string;
  selector : bytes;
  verifierHash : bytes;
  createdAt : Time;
  expiresAt : Time;
  idleExpiresAt : Time;
  rotatedAt : Time;
  revokedAt : Time;
  firstUsedAt : Time;
  usedTimes : Z;
  authzEpochAtIssue : Z;
}.

Definition isRotated (r : tokenRecord) : bool := negb (IsZero (rotatedAt r)).
Definition isRevoked (r : tokenRecord) : bool := negb (IsZero (revokedAt r)).

Definition toToken (r : tokenRecord) : Token :=
  MkToken (rec_id r) (sessionID r) (subjectID r) (createdAt r) (expiresAt r) (authzEpochAtIssue r).

Definition set_rotated (r : tokenRecord) (now : Time) : tokenRecord :=
  MkRecord (rec_id r) (parentID r) (sessionID r) (subjectID r) (selector r) (verifierHash r)
    (createdAt r) (expiresAt r) (idleExpiresAt r) now (revokedAt r) (firstUsedAt r) (usedTimes r)
    (authzEpochAtIssue r).

Definition set_revoked (r : tokenRecord) (now : Time) : tokenRecord :=
  MkRecord (rec_id r) (parentID r) (sessionID r) (subjectID r) (selector r) (verifierHash r)
    (createdAt r) (expiresAt r) (idleExpiresAt r) (rotatedAt r) now (firstUsedAt r) (usedTimes r)
    (authzEpochAtIssue r).

Definition set_used (r : tokenRecord) (now : Time) : tokenRecord :=
  MkRecord (rec_id r) (parentID r) (sessionID r) (subjectID r) (selector r) (verifierHash r)
    (createdAt r) (expiresAt r) (idleExpiresAt r) (rotatedAt r) (revokedAt r)
    (if IsZero (firstUsedAt r) then now else firstUsedAt r) (wrap64 (usedTimes r + 1))
    (authzEpochAtIssue r).

(** The index of the last row with the property. *)
Fixpoint find_last (p : tokenRecord → bool) (rows : list tokenRecord) : option nat :=
  match rows with
  | [] => None
  | r :: rest =>
      match find_last p rest with
      | Some i => Some (S i)
      | None => if p r then Some 0%nat else None
      end
  end.

Definition uuid_Nil : string := "00000000-0000-0000-0000-000000000000".

(** [New], for a clock that is not nil; the store begins empty. *)
Definition New (p : Policy) : outcome (list tokenRecord) :=
  match Policy_Validate p with
  | Err _ => Err (invalid "memstore.New")
  | Ok _ => Ok []
  end.

Section store.
Context (sha256 : bytes → bytes) (policy : Policy).

Definition idleDeadline (now : Time) : Time := now + MaxIdle policy.

Definition findBySelectorLocked (rows : list tokenRecord) (sel : bytes) : option nat :=
  find_last (λ r, selector r ==s sel) rows.

Definition revokeSessionLocked (rows : list tokenRecord) (sid : string) (now : Time) : list tokenRecord :=
  (λ r, if (sessionID r ==s sid) && negb (isRevoked r) then set_revoked r now else r) <$> rows.

(** The row of a new chain ([parent] the nil UUID) or of a child. *)
Definition new_record (id parent sid subj : string) (sel ver : bytes) (now : Time) (epoch : Z) : tokenRecord :=
  MkRecord id parent sid subj sel (sha256 ver) now (now + MaxAge policy) (idleDeadline now) 0 0 0 0 epoch.

Definition Issue (rows : list tokenRecord) (rand : nat → outcome bytes) (now : Time) (id sid subj : string)
    (epoch : Z) : outcome (string * Token) * list tokenRecord :=
  if epoch =? 0 then (Err (invalid "refresh.Issue: authzEpochAtIssue required (non-zero)"), rows)
  else match GeneratePair rand with
       | Err e => (Err e, rows)
       | Ok (sel, ver) =>
           let rec := new_record id uuid_Nil sid subj sel ver now epoch in
           (Ok (EncodeOpaque sel ver, toToken rec), rows ++ [rec])
       end.

(** The row found, if it is returned, and the error, if there is one. *)
Definition validatePresentedLocked (rows : list tokenRecord) (now : Time) (sel ver : bytes)
  : option (nat * tokenRecord) * option goerror * list tokenRecord :=
  match findBySelectorLocked rows sel with
  | None => (None, Some ErrRejected, rows)
  | Some i =>
      match rows !! i with
      | None => (None, Some ErrRejected, rows)
      | Some rec =>
          if negb (sha256 ver ==s verifierHash rec) then (None, Some ErrRejected, rows)
          else if isRevoked rec then (None, Some ErrRejected, rows)
          else if negb (After (expiresAt rec) now) then (None, Some ErrRejected, rows)
          else if negb (After (idleExpiresAt rec) now) then (None, Some ErrRejected, rows)
          else if isRotated rec then
            if usedTimes rec >=? GraceMaxReuses policy
            then (Some (i, rec), Some ErrReused, revokeSessionLocked rows (sessionID rec) now)
            else if Sub now (rotatedAt rec) >? ReuseInterval policy
            then (Some (i, rec), Some ErrReused, revokeSessionLocked rows (sessionID rec) now)
            else (Some (i, rec), None, rows)
          else (Some (i, rec), None, rows)
      end
  end.

(** What a call gives back: the results and the error, both possibly set. *)
Definition Peek (rows : list tokenRecord) (now : Time) (presented : string)
  : option Token * option goerror * list tokenRecord :=
  match ParseOpaque presented with
  | None => (None, Some ErrRejected, rows)
  | Some (sel, ver) =>
      match validatePresentedLocked rows now sel ver with
      | (Some (_, rec), Some err, rows) =>
          (if bool_decide (err = ErrReused) then Some (toToken rec) else None, Some err, rows)
      | (None, Some err, rows) => (None, Some err, rows)
      | (Some (_, rec), None, rows) => (Some (toToken rec), None, rows)
      | (None, None, rows) => (None, None, rows)
      end
  end.

(** [now1] is read while the token is checked, [now2] for the child. *)
Definition Rotate (rows : list tokenRecord) (rand : nat → outcome bytes) (now1 now2 : Time) (id : string)
    (presented : string) : string * option Token * option goerror * list tokenRecord :=
  match ParseOpaque presented with
  | None => (EmptyString, None, Some ErrRejected, rows)
  | Some (sel, ver) =>
      match validatePresentedLocked rows now1 sel ver with
      | (Some (_, rec), Some err, rows) =>
          (EmptyString, if bool_decide (err = ErrReused) then Some (toToken rec) else None, Some err, rows)
      | (None, Some err, rows) => (EmptyString, None, Some err, rows)
      | (None, None, rows) => (EmptyString, None, None, rows)
      | (Some (i, rec), None, rows) =>
          match GeneratePair rand with
          | Err e => (EmptyString, None, Some e, rows)
          | Ok (newSel, newVer) =>
              let child := new_record id (rec_id rec) (sessionID rec) (subjectID rec) newSel newVer now2
                             (authzEpochAtIssue rec) in
              let rec' := if negb (isRotated rec) then set_rotated rec now2 else set_used rec now2 in
              (EncodeOpaque newSel newVer, Some (toToken child), None, <[i := rec']> (rows ++ [child]))
          end
      end
  end.

Definition RevokeSession (rows : list tokenRecord) (now : Time) (sid : string) : list tokenRecord :=
  revokeSessionLocked rows sid now.

Definition RevokeSessionDetached (rows : list tokenRecord) (now : Time) (sid : string) : list tokenRecord :=
  RevokeSession rows now sid.

(** [fence]: the capability proof is not nil; without it the call panics. *)
Definition RevokeUser (rows : list tokenRecord) (now : Time) (subj : string) (fence : bool)
  : option (list tokenRecord) :=
  if negb fence then None
  else Some ((λ r, if (subjectID r ==s subj) && negb (isRevoked r) then set_revoked r now else r) <$> rows).

Definition effectiveExpiry (r : tokenRecord) : Time :=
  if Before (idleExpiresAt r) (expiresAt r) then idleExpiresAt r else expiresAt r.

Definition GC (rows : list tokenRecord) (olderThan : Time) : Z * list tokenRecord :=
  let kept := filter (λ r, Before (effectiveExpiry r) olderThan = false) rows in
  (Z.of_nat (length rows) - Z.of_nat (length kept), kept).
End store.

(** ** Histories *)

Inductive refresh_op : Type :=
  | OpIssue (rand : nat → outcome bytes) (now : Time) (id sid subj : string) (epoch : Z)
  | OpPeek (now : Time) (wire : string)
  | OpRotate (rand : nat → outcome bytes) (now1 now2 : Time) (id wire : string)
  | OpRevokeSession (now : Time) (sid : string)
  | OpRevokeUser (now : Time) (subj : string)
  | OpGC (olderThan : Time).

(** The random bytes an operation may draw, and the instants it may read. *)
Definition op_rand (op : refresh_op) : option (nat → outcome bytes) :=
  match op with OpIssue r _ _ _ _ _ | OpRotate r _ _ _ _ => Some r | _ => None end.

Definition op_times (op : refresh_op) : list Time :=
  match op with
  | OpIssue _ t _ _ _ _ | OpPeek t _ | OpRevokeSession t _ | OpRevokeUser t _ => [t]
  | OpRotate _ t1 t2 _ _ => [t1; t2]
  | OpGC _ => []
  end.

(** No selector is drawn twice: this operation does not draw [sel]. *)
Definition draws_other (sel : bytes) (op : refresh_op) : Prop :=
  ∀ r, op_rand op = Some r → r 0%nat ≠ Ok sel.

(** The clock is past Go's zero time. *)
Definition clocked (op : refresh_op) : Prop := Forall (λ t, t ≠ 0) (op_times op).

Section histories.
Context (sha256 : bytes → bytes) (policy : Policy).

Definition refresh_exec (rows : list tokenRecord) (op : refresh_op) : list tokenRecord :=
  match op with
  | OpIssue r now id sid subj epoch => (Issue sha256 policy rows r now id sid subj epoch).2
  | OpPeek now wire => (Peek sha256 policy rows now wire).2
  | OpRotate r now1 now2 id wire => (Rotate sha256 policy rows r now1 now2 id wire).2
  | OpRevokeSession now sid => RevokeSession rows now sid
  | OpRevokeUser now subj => default rows (RevokeUser rows now subj true)
  | OpGC olderThan => (GC rows olderThan).2
  end.

(** The token with this selector was exchanged by [op]. *)
Definition exchanges (sel : bytes) (rows : list tokenRecord) (op : refresh_op) : bool :=
  match op with
  | OpRotate r now1 now2 id wire =>
      match ParseOpaque wire with
      | Some (s, _) => (s ==s sel) && bool_decide ((Rotate sha256 policy rows r now1 now2 id wire).1.2 = None)
      | None => false
      end
  | _ => false
  end.

(** How often the token with this selector is exchanged in a history. *)
Fixpoint exchange_count (sel : bytes) (rows : list tokenRecord) (ops : list refresh_op) : Z :=
  match ops with
  | [] => 0
  | op :: rest =>
      (if exchanges sel rows op then 1 else 0) + exchange_count sel (refresh_exec rows op) rest
  end.
End histories.

(** ** The row of a selector *)

Definition row_of (rows : list tokenRecord) (sel : bytes) : option tokenRecord :=
  i ← findBySelectorLocked rows sel; rows !! i.
#[global] Arguments row_of : simpl never.

(** No two rows carry this selector. *)
Definition sole (rows : list tokenRecord) (sel : bytes) : Prop :=
  ∀ i j r s, rows !! i = Some r → rows !! j = Some s → selector r = sel → selector s = sel → i = j.

Lemma find_last_None p rows : find_last p rows = None ↔ Forall (λ r, p r = false) rows.
Proof.
  induction rows as [|r rows IH]; [done|]. cbn. rewrite Forall_cons, <- IH.
  destruct (find_last p rows), (p r); naive_solver.
Qed.

Lemma find_last_Some p rows i :
  find_last p rows = Some i → ∃ r, rows !! i = Some r ∧ p r = true.
Proof.
  revert i. induction rows as [|r rows IH]; intros i; [done|]. cbn.
  destruct (find_last p rows) as [j|]; [intros [= <-]; by apply IH|].
  destruct (p r) eqn:Hp; [|done]. intros [= <-]. by exists r.
Qed.

Lemma row_of_None rows sel : row_of rows sel = None ↔ Forall (λ r, selector r ≠ sel) rows.
Proof.
  unfold row_of, findBySelectorLocked. destruct (find_last _ rows) as [i|] eqn:Hf; cbn.
  - apply find_last_Some in Hf as (r & Hr & Hs). bools. rewrite Hr. split; [done|].
    intros Hall. eapply Forall_lookup_1 in Hall; [|exact Hr]. done.
  - split; [|done]. intros _. apply find_last_None in Hf.
    eapply Forall_impl; [exact Hf|]. intros r Hr. cbv beta in Hr. bools. done.
Qed.

(** With at most one row of that selector, finding it is membership. *)
Lemma row_of_sole rows sel r :
  sole rows sel → row_of rows sel = Some r ↔ r ∈ rows ∧ selector r = sel.
Proof.
  intros Hsole. unfold row_of, findBySelectorLocked.
  destruct (find_last _ rows) as [i|] eqn:Hf; cbn.
  - apply find_last_Some in Hf as (x & Hx & Hs). bools. rewrite Hx. split.
    + intros [= <-]. split; [by eapply list_elem_of_lookup_2|done].
    + intros [[j Hj]%list_elem_of_lookup_1 Hr]. assert (i = j) as <- by by eapply Hsole. congruence.
  - split; [done|]. intros [Hin Hr]. apply find_last_None in Hf.
    rewrite Forall_forall in Hf. specialize (Hf r Hin). cbv beta in Hf. bools. done.
Qed.

Lemma row_of_selector rows sel r : row_of rows sel = Some r → selector r = sel.
Proof.
  unfold row_of, findBySelectorLocked. destruct (find_last _ rows) as [i|] eqn:Hf; [|done]. cbn.
  apply find_last_Some in Hf as (x & -> & Hs). intros [= <-]. by bools.
Qed.

Lemma sole_fmap f rows sel :
  (∀ r, selector (f r) = selector r) → sole rows sel → sole (f <$> rows) sel.
Proof.
  intros Hf Hs i j r s. rewrite !list_lookup_fmap.
  intros (x & Hx & ->)%fmap_Some (y & Hy & ->)%fmap_Some. rewrite !Hf. by eapply Hs.
Qed.

Lemma row_of_fmap f rows sel :
  (∀ r, selector (f r) = selector r) → row_of (f <$> rows) sel = f <$> row_of rows sel.
Proof.
  intros Hf. unfold row_of, findBySelectorLocked.
  assert (find_last (λ r, selector r ==s sel) (f <$> rows) = find_last (λ r, selector r ==s sel) rows) as ->.
  { induction rows as [|r rows IH]; [done|]. rewrite fmap_cons. cbn [find_last]. by rewrite IH, Hf. }
  destruct (find_last _ rows) as [i|]; [|done]. cbn. apply list_lookup_fmap.
Qed.

Lemma row_of_snoc rows x sel : selector x ≠ sel → row_of (rows ++ [x]) sel = row_of rows sel.
Proof.
  intros Hx. unfold row_of, findBySelectorLocked.
  assert (find_last (λ r, selector r ==s sel) (rows ++ [x]) = find_last (λ r, selector r ==s sel) rows) as ->.
  { induction rows as [|r rows IH]; cbn; [|by rewrite IH].
    unfold str_eqb. by rewrite bool_decide_false. }
  destruct (find_last _ rows) as [i|] eqn:Hf; [|done]. cbn.
  apply find_last_Some in Hf as (r & Hr & _). rewrite Hr. by apply lookup_app_l_Some.
Qed.

Lemma sole_snoc rows x sel : selector x ≠ sel → sole rows sel → sole (rows ++ [x]) sel.
Proof.
  intros Hx Hs i j r s [Hr|[-> ->]]%list_lookup_snoc [Hs'|[-> ->]]%list_lookup_snoc Hrs Hss; try done.
  by eapply Hs.
Qed.

Lemma sole_insert rows i r sel :
  (∃ x, rows !! i = Some x ∧ selector x = selector r) → sole rows sel → sole (<[i:=r]> rows) sel.
Proof.
  intros (x & Hx & Hsel) Hs j k y z Hy Hz.
  assert (∀ j y, <[i:=r]> rows !! j = Some y → ∃ y', rows !! j = Some y' ∧ selector y' = selector y) as Hback.
  { intros j' y' Hy'. destruct (decide (i = j')) as [<-|].
    - rewrite list_lookup_insert_eq in Hy' by (by eapply lookup_lt_Some). simplify_eq. eauto.
    - rewrite list_lookup_insert_ne in Hy' by done. eauto. }
  apply Hback in Hy as (y' & Hy & <-). apply Hback in Hz as (z' & Hz & <-). by eapply Hs.
Qed.

Lemma row_of_insert rows i r sel :
  (∃ x, rows !! i = Some x ∧ selector x = selector r) → sole rows sel →
  row_of (<[i:=r]> rows) sel = if decide (selector r = sel) then Some r else row_of rows sel.
Proof.
  intros Hx Hs. pose proof (sole_insert _ _ _ _ Hx Hs) as Hs'. destruct Hx as (x & Hx & Hsel).
  pose proof (lookup_lt_Some _ _ _ Hx) as Hlt. destruct (decide (selector r = sel)) as [Hr|Hr].
  - apply row_of_sole; [done|]. split; [|done]. eapply list_elem_of_lookup_2.
    by apply list_lookup_insert_eq.
  - apply option_eq. intros y. rewrite !row_of_sole by done. split.
    + intros [[j Hj]%list_elem_of_lookup_1 Hy]. split; [|done]. destruct (decide (i = j)) as [<-|].
      * rewrite list_lookup_insert_eq in Hj by done. by simplify_eq.
      * rewrite list_lookup_insert_ne in Hj by done. by eapply list_elem_of_lookup_2.
    + intros [[j Hj]%list_elem_of_lookup_1 Hy]. split; [|done]. destruct (decide (i = j)) as [<-|].
      * by simplify_eq.
      * eapply (list_elem_of_lookup_2 _ j). by rewrite list_lookup_insert_ne.
Qed.

Lemma sole_cons r rows sel :
  sole (r :: rows) sel ↔ sole rows sel ∧ (selector r = sel → Forall (λ x, selector x ≠ sel) rows).
Proof.
  split.
  - intros Hs. split.
    + intros i j x y Hx Hy Hxs Hys. assert (S i = S j) by by eapply Hs. lia.
    + intros Hr. apply Forall_lookup. intros j x Hx Hxs. assert (0 = S j)%nat by by eapply Hs. lia.
  - intros [Hs Hr] [|i] [|j] x y Hx Hy Hxs Hys; cbn in *; simplify_eq; [done|..].
    + specialize (Hr eq_refl). eapply Forall_lookup_1 in Hr; [|exact Hy]. done.
    + specialize (Hr Hys). eapply Forall_lookup_1 in Hr; [|exact Hx]. done.
    + f_equal. by eapply Hs.
Qed.

Lemma sole_filter (P : tokenRecord → Prop) `{!∀ r, Decision (P r)} rows sel :
  sole rows sel → sole (filter P rows) sel.
Proof.
  induction rows as [|r rows IH]; [done|]. intros [Hs Hr]%sole_cons. rewrite filter_cons.
  destruct (decide (P r)); [|by apply IH]. apply sole_cons. split; [by apply IH|].
  intros Heq. apply Forall_forall. intros x [_ Hx]%list_elem_of_filter.
  specialize (Hr Heq). rewrite Forall_forall in Hr. by apply Hr.
Qed.

Lemma row_of_filter (P : tokenRecord → Prop) `{!∀ r, Decision (P r)} rows sel :
  sole rows sel → row_of (filter P rows) sel = None ∨ row_of (filter P rows) sel = row_of rows sel.
Proof.
  intros Hs. destruct (row_of (filter P rows) sel) as [r|] eqn:Hr; [right|by left].
  apply row_of_sole in Hr as [[_ Hin]%list_elem_of_filter Hsel]; [|by apply sole_filter].
  symmetry. by apply row_of_sole.
Qed.

Lemma sole_none rows sel : row_of rows sel = None → sole rows sel.
Proof.
  intros Hn%row_of_None i j r s Hr _ Hrs _. eapply Forall_lookup_1 in Hn; [|exact Hr]. done.
Qed.

(** ** How the row of a selector changes *)

(** What one operation that does not draw its selector makes of row [r]; the
    flag says whether its token was exchanged. *)
Inductive evolves (policy : Policy) (r : tokenRecord) : option tokenRecord → bool → Prop :=
  | ev_gone : evolves policy r None false
  | ev_same : evolves policy r (Some r) false
  | ev_revoked t : t ≠ 0 → isRevoked r = false → evolves policy r (Some (set_revoked r t)) false
  | ev_rotated t :
      t ≠ 0 → isRevoked r = false → isRotated r = false → evolves policy r (Some (set_rotated r t)) true
  | ev_used t :
      isRevoked r = false → isRotated r = true → usedTimes r < GraceMaxReuses policy →
      evolves policy r (Some (set_used r t)) true.

Section evolution.
Context (sha256 : bytes → bytes) (policy : Policy).

Lemma validate_cases rows now sel ver :
  let '(found, err, rows') := validatePresentedLocked sha256 policy rows now sel ver in
  (found = None ∧ err = Some ErrRejected ∧ rows' = rows) ∨
  ∃ i r, found = Some (i, r) ∧ rows !! i = Some r ∧ row_of rows sel = Some r ∧
    isRevoked r = false ∧ now < expiresAt r ∧ now < idleExpiresAt r ∧ sha256 ver = verifierHash r ∧
    ((err = None ∧ rows' = rows ∧
      (isRotated r = true → usedTimes r < GraceMaxReuses policy ∧ Sub now (rotatedAt r) ≤ ReuseInterval policy)) ∨
     (err = Some ErrReused ∧ rows' = revokeSessionLocked rows (sessionID r) now ∧ isRotated r = true ∧
      (GraceMaxReuses policy ≤ usedTimes r ∨ ReuseInterval policy < Sub now (rotatedAt r)))).
Proof.
  unfold validatePresentedLocked. destruct (findBySelectorLocked rows sel) as [i|] eqn:Hf; [|by left].
  destruct (rows !! i) as [r|] eqn:Hr; [|by left].
  assert (row_of rows sel = Some r) as Hrow by (unfold row_of; by rewrite Hf).
  destruct (sha256 ver ==s verifierHash r) eqn:Hv; [cbn|by left].
  destruct (isRevoked r) eqn:Hrv; [by left|].
  destruct (After (expiresAt r) now) eqn:He; [cbn|by left].
  destruct (After (idleExpiresAt r) now) eqn:Hi; [cbn|by left].
  rewrite Z.geb_leb, Z.gtb_ltb. bools.
  destruct (isRotated r) eqn:Hrot.
  2: { right. exists i, r. split_and!; try done. left. split_and!; [done..|congruence]. }
  destruct (GraceMaxReuses policy <=? usedTimes r) eqn:Hg; bools.
  { right. exists i, r. split_and!; try done. right. auto. }
  destruct (ReuseInterval policy <? Sub now (rotatedAt r)) eqn:Hw; bools; right; exists i, r; split_and!; try done.
  - right. auto.
  - left. auto.
Qed.

Lemma selector_revoke (P : tokenRecord → bool) now r :
  selector (if P r then set_revoked r now else r) = selector r.
Proof. by destruct (P r). Qed.

(** Revoking some of the rows that are not revoked yet. *)
Lemma revoke_evolves (P : tokenRecord → bool) rows now sel :
  now ≠ 0 → (∀ r, P r = true → isRevoked r = false) → sole rows sel →
  let rows' := (λ r, if P r then set_revoked r now else r) <$> rows in
  sole rows' sel ∧
  match row_of rows sel with
  | Some r => evolves policy r (row_of rows' sel) false
  | None => row_of rows' sel = None
  end.
Proof.
  intros Hnow HP Hs. split; [by apply sole_fmap; [apply selector_revoke|]|].
  rewrite row_of_fmap by (intros; apply selector_revoke).
  destruct (row_of rows sel) as [r|]; [cbn|done].
  destruct (P r) eqn:HPr; [|constructor]. apply ev_revoked; auto.
Qed.

Lemma session_revoke_evolves rows sid now sel :
  now ≠ 0 → sole rows sel →
  sole (revokeSessionLocked rows sid now) sel ∧
  match row_of rows sel with
  | Some r => evolves policy r (row_of (revokeSessionLocked rows sid now) sel) false
  | None => row_of (revokeSessionLocked rows sid now) sel = None
  end.
Proof.
  intros. apply (revoke_evolves (λ r, (sessionID r ==s sid) && negb (isRevoked r))); [done| |done].
  intros r Hr. by bools.
Qed.

Lemma unchanged_evolves rows sel :
  sole rows sel →
  sole rows sel ∧
  match row_of rows sel with
  | Some r => evolves policy r (row_of rows sel) false
  | None => row_of rows sel = None
  end.
Proof. intros. split; [done|]. destruct (row_of rows sel); [constructor|done]. Qed.

Lemma GeneratePair_Ok rand sel ver : GeneratePair rand = Ok (sel, ver) → rand 0%nat = Ok sel ∧ rand 1%nat = Ok ver.
Proof. unfold GeneratePair. destruct (rand 0%nat), (rand 1%nat); naive_solver. Qed.

(** A successful rotation: the child's selector is not [sel]. *)
Lemma rotate_evolves rows sel i r child now :
  now ≠ 0 → sole rows sel → rows !! i = Some r → isRevoked r = false →
  (isRotated r = true → usedTimes r < GraceMaxReuses policy) → selector child ≠ sel →
  let rows' := <[i := if negb (isRotated r) then set_rotated r now else set_used r now]> (rows ++ [child]) in
  sole rows' sel ∧
  match row_of rows sel with
  | Some x => evolves policy x (row_of rows' sel) (bool_decide (selector r = sel))
  | None => row_of rows' sel = None ∧ bool_decide (selector r = sel) = false
  end.
Proof.
  intros Hnow Hs Hr Hrv Hused Hchild rows'.
  set (r' := if negb (isRotated r) then set_rotated r now else set_used r now) in *.
  assert (selector r' = selector r) as Hsel by (unfold r'; by destruct (isRotated r)).
  assert (∃ x, (rows ++ [child]) !! i = Some x ∧ selector x = selector r') as Hx.
  { exists r. split; [by apply lookup_app_l_Some|done]. }
  pose proof (sole_snoc rows child sel Hchild Hs) as Hs'.
  split; [by apply sole_insert|]. unfold rows'. rewrite row_of_insert, Hsel, row_of_snoc by done.
  destruct (decide (selector r = sel)) as [Heq|Hne].
  - assert (row_of rows sel = Some r) as ->.
    { apply row_of_sole; [done|]. split; [by eapply list_elem_of_lookup_2|done]. }
    rewrite bool_decide_true by done. unfold r'. destruct (isRotated r) eqn:Hrot; cbn; constructor; auto.
  - rewrite bool_decide_false by done. destruct (row_of rows sel); [constructor|done].
Qed.

(** One operation, seen from a selector it does not draw. *)
Lemma step_evolves rows op sel :
  draws_other sel op → clocked op → sole rows sel →
  let rows' := refresh_exec sha256 policy rows op in
  sole rows' sel ∧
  match row_of rows sel with
  | Some r => evolves policy r (row_of rows' sel) (exchanges sha256 policy sel rows op)
  | None => row_of rows' sel = None ∧ exchanges sha256 policy sel rows op = false
  end.
Proof.
  intros Hdraw Hclk Hs. unfold clocked in Hclk.
  assert (∀ rows', sole rows' sel ∧ match row_of rows sel with
      | Some r => evolves policy r (row_of rows' sel) false | None => row_of rows' sel = None end →
    sole rows' sel ∧ match row_of rows sel with
      | Some r => evolves policy r (row_of rows' sel) false | None => row_of rows' sel = None ∧ false = false end) as Hno.
  { intros rows' [? ?]. split; [done|]. by destruct (row_of rows sel). }
  destruct op as [rand now id sid subj epoch|now wire|rand now1 now2 id wire|now sid|now subj|older];
    cbn [refresh_exec exchanges op_times] in *; repeat rewrite Forall_cons in Hclk.
  - apply Hno. unfold Issue. destruct (epoch =? 0); [by apply unchanged_evolves|].
    destruct (GeneratePair rand) as [[s v]|] eqn:Hg; [|by apply unchanged_evolves].
    apply GeneratePair_Ok in Hg as [Hg _].
    assert (s ≠ sel) as Hne by (intros ->; by apply (Hdraw rand)). cbn.
    split; [by apply sole_snoc|]. rewrite row_of_snoc by done. by apply unchanged_evolves.
  - apply Hno. unfold Peek. destruct (ParseOpaque wire) as [[s v]|]; [|by apply unchanged_evolves].
    pose proof (validate_cases rows now s v) as Hv.
    destruct (validatePresentedLocked _ _ _ _ _ _) as [[found err] rows'].
    destruct Hv as [(-> & -> & ->)|(i & r & -> & _ & _ & _ & _ & _ & _ & [(-> & -> & _)|(-> & -> & _)])];
      [by apply unchanged_evolves..|]. apply session_revoke_evolves; naive_solver.
  - unfold Rotate. destruct (ParseOpaque wire) as [[s v]|]; [|by apply Hno, unchanged_evolves].
    pose proof (validate_cases rows now1 s v) as Hv.
    destruct (validatePresentedLocked _ _ _ _ _ _) as [[found err] rows'].
    destruct Hv as [(-> & -> & ->)|(i & r & -> & Hr & Hrow & Hrv & _ & _ & _ & [(-> & -> & Hused)|(-> & -> & _)])].
    + cbn. rewrite andb_false_r. by apply Hno, unchanged_evolves.
    + destruct (GeneratePair rand) as [[s' v']|] eqn:Hg; cbn.
      2: { rewrite andb_false_r. by apply Hno, unchanged_evolves. }
      apply GeneratePair_Ok in Hg as [Hg _]. rewrite andb_true_r.
      rewrite <- (row_of_selector _ _ _ Hrow). apply rotate_evolves; try done; [naive_solver..|].
      cbn. intros ->. by apply (Hdraw rand).
    + cbn. rewrite andb_false_r. apply Hno, session_revoke_evolves; naive_solver.
  - apply Hno, session_revoke_evolves; naive_solver.
  - apply Hno. apply (revoke_evolves (λ r, (subjectID r ==s subj) && negb (isRevoked r)));
      [naive_solver| |done]. intros r Hr. by bools.
  - apply Hno. cbn. split; [by apply sole_filter|].
    destruct (row_of_filter (λ r, Before (effectiveExpiry r) older = false) rows sel Hs) as [->| ->];
      destruct (row_of rows sel); constructor || done.
Qed.
End evolution.

(** ** Counting exchanges *)

(** The exchanges a row still allows. *)
Definition budget (policy : Policy) (r : tokenRecord) : Z :=
  if isRotated r then GraceMaxReuses policy - usedTimes r else 1 + GraceMaxReuses policy.

Definition row_wf (policy : Policy) (r : tokenRecord) : Prop := 0 ≤ usedTimes r ≤ GraceMaxReuses policy.

Lemma evolves_budget policy r o ex :
  GraceMaxReuses policy ≤ MaxInt64 → row_wf policy r → evolves policy r o ex →
  match o with
  | Some r' => row_wf policy r' ∧ (if ex then 1 else 0) + budget policy r' ≤ budget policy r
  | None => ex = false
  end.
Proof.
  unfold row_wf, budget. intros HM Hwf [| |t Ht Hrv|t Ht Hrv Hrot|t Hrv Hrot Hu];
    [done|by split|by split|..].
  - rewrite Hrot. unfold isRotated, IsZero. cbn. replace (t =? 0) with false by lia. cbn. lia.
  - change (isRotated (set_used r t)) with (isRotated r). rewrite Hrot. cbn.
    rewrite wrap64_id by (unfold int64_range, MinInt64; lia). lia.
Qed.

Lemma exchange_count_le sha256 policy sel ops : ∀ rows,
  GraceMaxReuses policy ≤ MaxInt64 → Forall (draws_other sel) ops → Forall clocked ops → sole rows sel →
  match row_of rows sel with
  | Some r => row_wf policy r → exchange_count sha256 policy sel rows ops ≤ budget policy r
  | None => exchange_count sha256 policy sel rows ops = 0
  end.
Proof.
  induction ops as [|op ops IH]; intros rows HM Hd Hc Hs.
  { cbn [exchange_count]. destruct (row_of rows sel) as [r|]; [|done]. unfold row_wf, budget.
    destruct (isRotated r); lia. }
  apply Forall_cons in Hd as [Hd1 Hd]. apply Forall_cons in Hc as [Hc1 Hc].
  destruct (step_evolves sha256 policy rows op sel Hd1 Hc1 Hs) as [Hs' Hev].
  specialize (IH _ HM Hd Hc Hs'). cbn [exchange_count].
  destruct (row_of rows sel) as [r|].
  - intros Hwf. pose proof (evolves_budget _ _ _ _ HM Hwf Hev) as Hb.
    destruct (row_of (refresh_exec _ _ _ _) sel) as [r'|].
    + destruct Hb as [Hwf' Hb]. specialize (IH Hwf'). lia.
    + rewrite Hb, IH. unfold row_wf, budget in *. destruct (isRotated r); lia.
  - destruct Hev as [Hnone ->]. rewrite Hnone in IH. lia.
Qed.

Lemma exchange_count_app sha256 policy sel ops1 ops2 : ∀ rows,
  exchange_count sha256 policy sel rows (ops1 ++ ops2) =
  exchange_count sha256 policy sel rows ops1 +
  exchange_count sha256 policy sel (foldl (refresh_exec sha256 policy) rows ops1) ops2.
Proof. induction ops1 as [|op ops1 IH]; intros rows; cbn; [done|]. rewrite IH. lia. Qed.

Lemma absent_run sha256 policy sel ops : ∀ rows,
  Forall (draws_other sel) ops → Forall clocked ops → row_of rows sel = None →
  row_of (foldl (refresh_exec sha256 policy) rows ops) sel = None.
Proof.
  induction ops as [|op ops IH]; intros rows Hd Hc Hn; [done|].
  apply Forall_cons in Hd as [Hd1 Hd]. apply Forall_cons in Hc as [Hc1 Hc].
  destruct (step_evolves sha256 policy rows op sel Hd1 Hc1 (sole_none _ _ Hn)) as [_ Hev].
  rewrite Hn in Hev. destruct Hev as [Hn' _]. by apply IH.
Qed.

Lemma fresh_snoc policy rows x sel :
  0 ≤ GraceMaxReuses policy → row_of rows sel = None →
  usedTimes x = 0 → rotatedAt x = 0 → selector x = sel →
  sole (rows ++ [x]) sel ∧
  ∀ r, row_of (rows ++ [x]) sel = Some r → row_wf policy r ∧ isRotated r = false.
Proof.
  intros Hg Hnone Hu Hr Hx. apply row_of_None in Hnone. assert (sole (rows ++ [x]) sel) as Hs.
  { intros i j r s. rewrite Forall_lookup in Hnone.
    intros [H1|[-> _]]%list_lookup_snoc [H2|[-> _]]%list_lookup_snoc H3 H4; [..|done]; exfalso; naive_solver. }
  split; [done|]. intros r [Hin Hsel]%row_of_sole; [|done].
  apply elem_of_app in Hin as [Hin| ->%list_elem_of_singleton].
  - rewrite Forall_forall in Hnone. by destruct (Hnone r Hin).
  - unfold row_wf, isRotated, IsZero. rewrite Hu, Hr. split; [lia|done].
Qed.

(** A token without a row is not exchanged, and the operation that draws the
    selector leaves a fresh row. *)
Lemma first_draw sha256 policy rows op sel :
  0 ≤ GraceMaxReuses policy → clocked op → row_of rows sel = None →
  exchanges sha256 policy sel rows op = false ∧
  let rows' := refresh_exec sha256 policy rows op in
  sole rows' sel ∧ ∀ r, row_of rows' sel = Some r → row_wf policy r ∧ isRotated r = false.
Proof.
  intros Hg Hc Hn. assert (draws_other sel op ∨ ∃ rand, op_rand op = Some rand ∧ rand 0%nat = Ok sel)
    as [Hd|(rand & Hop & Hrand)].
  { unfold draws_other. destruct (op_rand op) as [rand|]; [|left; by intros ? [=]].
    destruct (decide (rand 0%nat = Ok sel)); [right; eauto|left; by intros ? [= <-]]. }
  { destruct (step_evolves sha256 policy rows op sel Hd Hc (sole_none _ _ Hn)) as [Hs Hev].
    rewrite Hn in Hev. destruct Hev as [Hn' ->]. cbn zeta. by rewrite Hn'. }
  assert (sole rows sel ∧ ∀ r, row_of rows sel = Some r → row_wf policy r ∧ isRotated r = false) as Hsame
    by (split; [by apply sole_none|by rewrite Hn]).
  destruct op as [rd now id sid subj epoch| |rd now1 now2 id wire| | |]; cbn in Hop; simplify_eq; cbn zeta.
  - split; [done|]. cbn [refresh_exec]. unfold Issue. destruct (epoch =? 0); [exact Hsame|].
    unfold GeneratePair. rewrite Hrand. destruct (rand 1%nat) as [v|e]; [by apply fresh_snoc|exact Hsame].
  - cbn [exchanges refresh_exec]. unfold Rotate.
    destruct (ParseOpaque wire) as [[s v]|]; [|split; [done|exact Hsame]].
    pose proof (validate_cases sha256 policy rows now1 s v) as Hv.
    destruct (validatePresentedLocked _ _ _ _ _ _) as [[found err] rows'].
    destruct Hv as [(-> & -> & ->)|(i & r & -> & Hr & Hrow & Hrv & _ & _ & _ & Hor)].
    { cbn. rewrite andb_false_r. split; [done|exact Hsame]. }
    assert ((s ==s sel) = false) as Hne by (unfold str_eqb; apply bool_decide_eq_false; intros ->; congruence).
    rewrite Hne. split; [done|]. destruct Hor as [(-> & -> & _)|(-> & -> & _)].
    2: { cbn. destruct (session_revoke_evolves policy rows (sessionID r) now1 sel) as [Hs Hev];
           [unfold clocked in Hc; cbn in Hc; by apply Forall_cons in Hc as [? _]|by apply sole_none|].
         rewrite Hn in Hev. by rewrite Hev. }
    unfold GeneratePair. rewrite Hrand. destruct (rand 1%nat) as [v'|e]; cbn.
    2: { exact Hsame. }
    rewrite insert_app_l by (by eapply lookup_lt_Some). apply fresh_snoc; [done| |done..].
    rewrite row_of_insert; [|exists r; split; [done|by destruct (isRotated r)]|by apply sole_none].
    rewrite decide_False; [done|]. intros Heq. apply row_of_None in Hn. eapply Forall_lookup_1 in Hn; [|exact Hr].
    by destruct (isRotated r).
Qed.

(** ** Revocation is final *)

Lemma revoked_run sha256 policy sel ops : ∀ rows,
  Forall (draws_other sel) ops → Forall clocked ops → sole rows sel →
  (∀ r, row_of rows sel = Some r → isRevoked r = true) →
  ∀ r, row_of (foldl (refresh_exec sha256 policy) rows ops) sel = Some r → isRevoked r = true.
Proof.
  induction ops as [|op ops IH]; intros rows Hd Hc Hs Hrv; [done|].
  apply Forall_cons in Hd as [Hd1 Hd]. apply Forall_cons in Hc as [Hc1 Hc].
  destruct (step_evolves sha256 policy rows op sel Hd1 Hc1 Hs) as [Hs' Hev].
  cbn [foldl]. apply IH; [done..|]. intros r Hr. destruct (row_of rows sel) as [r0|].
  - specialize (Hrv r0 eq_refl). rewrite Hr in Hev. inversion Hev; congruence.
  - destruct Hev as [Hev _]. congruence.
Qed.

(** A token whose row is revoked or gone is refused by both methods. *)
Lemma revoked_refused sha256 policy rows sel ver wire :
  ParseOpaque wire = Some (sel, ver) → (∀ r, row_of rows sel = Some r → isRevoked r = true) →
  (∀ now, Peek sha256 policy rows now wire = (None, Some ErrRejected, rows)) ∧
  (∀ rand now1 now2 id,
     Rotate sha256 policy rows rand now1 now2 id wire = (EmptyString, None, Some ErrRejected, rows)).
Proof.
  intros Hp Hrv. unfold Peek, Rotate. rewrite Hp.
  assert (∀ now, validatePresentedLocked sha256 policy rows now sel ver = (None, Some ErrRejected, rows)) as Hval.
  { intros now. pose proof (validate_cases sha256 policy rows now sel ver) as Hv.
    destruct (validatePresentedLocked _ _ _ _ _ _) as [[found err] rows'].
    destruct Hv as [(-> & -> & ->)|(i & r & _ & _ & Hrow & Hr & _)]; [done|]. by rewrite Hrv in Hr. }
  split; intros; by rewrite Hval.
Qed.

(** The calls that end a session: a revocation, or a token presented again. *)
Definition ends_session (sha256 : bytes → bytes) (policy : Policy) (rows : list tokenRecord)
    (op : refresh_op) (sid : string) : Prop :=
  match op with
  | OpRevokeSession _ s => s = sid
  | OpPeek now wire =>
      ∃ tok rows', Peek sha256 policy rows now wire = (Some tok, Some ErrReused, rows') ∧ tok_SessionID tok = sid
  | OpRotate rand now1 now2 id wire =>
      ∃ tok rows', Rotate sha256 policy rows rand now1 now2 id wire = (EmptyString, Some tok, Some ErrReused, rows') ∧
        tok_SessionID tok = sid
  | _ => False
  end.

Lemma ends_session_revokes sha256 policy rows op sid :
  ends_session sha256 policy rows op sid →
  ∃ now, now ∈ op_times op ∧ refresh_exec sha256 policy rows op = revokeSessionLocked rows sid now.
Proof.
  destruct op as [|now wire|rand now1 now2 id wire|now s| |]; cbn [ends_session refresh_exec op_times]; try done.
  - intros (tok & rows' & Hp & <-). exists now. split; [left|]. rewrite Hp. cbn. revert Hp. unfold Peek.
    destruct (ParseOpaque wire) as [[s v]|]; [|done].
    pose proof (validate_cases sha256 policy rows now s v) as Hv.
    destruct (validatePresentedLocked _ _ _ _ _ _) as [[found err] rows1].
    destruct Hv as [(-> & -> & ->)|(i & r & -> & _ & _ & _ & _ & _ & _ & [(-> & -> & _)|(-> & -> & _)])]; [done..|].
    cbn. by intros [= <- <-].
  - intros (tok & rows' & Hp & <-). exists now1. split; [left|]. rewrite Hp. cbn. revert Hp. unfold Rotate.
    destruct (ParseOpaque wire) as [[s v]|]; [|done].
    pose proof (validate_cases sha256 policy rows now1 s v) as Hv.
    destruct (validatePresentedLocked _ _ _ _ _ _) as [[found err] rows1].
    destruct Hv as [(-> & -> & ->)|(i & r & -> & _ & _ & _ & _ & _ & _ & [(-> & -> & _)|(-> & -> & _)])];
      [done|by destruct (GeneratePair rand) as [[??]|]|].
    cbn. by intros [= <- <-].
  - intros ->. exists now. split; [left|done].
Qed.

(** ** The wire format *)

Lemma strings_Cut_plain a b : b64_plain a → strings_Cut (a ++ String wireSeparator b)%string wireSeparator = Some (a, b).
Proof.
  induction a as [|c a IH]; [done|]. intros [[n Hc] Ha]. apply b64_val_Some in Hc as [Hn ->].
  destruct (b64_char_plain n Hn) as (_ & _ & Hdot). change "."%char with wireSeparator in Hdot.
  rewrite append_String. cbn [strings_Cut]. by rewrite Hdot, IH.
Qed.

Lemma strings_Cut_Some s a b : strings_Cut s wireSeparator = Some (a, b) → s = (a ++ String wireSeparator b)%string.
Proof.
  revert a. induction s as [|c s IH]; intros a; [done|]. cbn [strings_Cut].
  destruct (c =? wireSeparator)%char eqn:Hc.
  - apply Ascii.eqb_eq in Hc as ->. by intros [= <- <-].
  - destruct (strings_Cut s wireSeparator) as [[x y]|]; [|done]. intros [= <- <-]. by rewrite append_String, <- IH.
Qed.

Lemma drop_newlines_length s : (String.length (drop_newlines s) ≤ String.length s)%nat.
Proof. induction s as [|c s IH]; cbn; [done|]. destruct (_ || _); cbn; lia. Qed.

Lemma drop_newlines_full s : String.length (drop_newlines s) = String.length s → drop_newlines s = s.
Proof.
  induction s as [|c s IH]; cbn; [done|]. pose proof (drop_newlines_length s).
  destruct (_ || _); cbn; intros; [lia|]. by rewrite IH by lia.
Qed.

Lemma EncodeOpaque_length sel ver :
  String.length sel = SelectorLen → String.length ver = VerifierLen →
  String.length (b64_encode sel) = 22%nat ∧ String.length (b64_encode ver) = 43%nat.
Proof. intros Hs Hv. by rewrite !b64_encode_length, Hs, Hv. Qed.

Lemma get_beyond s i : (String.length s ≤ i)%nat → String.get i s = None.
Proof. revert i. induction s as [|c s IH]; intros [|i] Hi; cbn in *; try done; [lia|]. apply IH. lia. Qed.

(** The two halves of an accepted text decode without line breaks. *)
Lemma ParseOpaque_Some s sel ver :
  ParseOpaque s = Some (sel, ver) →
  ∃ a b, s = (a ++ String wireSeparator b)%string ∧ String.length sel = SelectorLen ∧
    String.length ver = VerifierLen ∧ b64_quanta a = Some sel ∧ b64_quanta b = Some ver ∧
    String.length a = 22%nat ∧ String.length b = 43%nat.
Proof.
  unfold ParseOpaque. destruct (String.length s =? WireLen)%nat eqn:Hlen; [cbn|done].
  apply Nat.eqb_eq in Hlen. destruct (strings_Cut s wireSeparator) as [[a b]|] eqn:Hcut; [|done].
  apply strings_Cut_Some in Hcut as ->. rewrite length_append in Hlen. cbn in Hlen.
  unfold b64_decode. destruct (b64_quanta (drop_newlines a)) as [x|] eqn:Hx; [|done].
  destruct (b64_quanta (drop_newlines b)) as [y|] eqn:Hy; [|done].
  destruct (String.length x =? SelectorLen)%nat eqn:Hlx; [cbn|done].
  destruct (String.length y =? VerifierLen)%nat eqn:Hly; [cbn|done]. intros [= <- <-].
  apply Nat.eqb_eq in Hlx, Hly. destruct (EncodeOpaque_length x y Hlx Hly) as [Ex Ey].
  destruct (b64_quanta_Some _ _ Hx) as (_ & Hla & _). destruct (b64_quanta_Some _ _ Hy) as (_ & Hlb & _).
  pose proof (drop_newlines_length a). pose proof (drop_newlines_length b). unfold WireLen in Hlen.
  rewrite drop_newlines_full in Hx by lia. rewrite drop_newlines_full in Hy by lia.
  exists a, b. split_and!; try done; lia.
Qed.

(** A text of the alphabet with the two lengths, decoded. *)
Lemma ParseOpaque_intro a b sel ver :
  b64_plain a → b64_plain b → b64_quanta a = Some sel → b64_quanta b = Some ver →
  String.length sel = SelectorLen → String.length ver = VerifierLen →
  ParseOpaque (a ++ String wireSeparator b)%string = Some (sel, ver).
Proof.
  intros Ha Hb Hsel Hver Hls Hlv. destruct (EncodeOpaque_length sel ver Hls Hlv) as [Es Ev].
  destruct (b64_quanta_Some _ _ Hsel) as (_ & Hla & _). destruct (b64_quanta_Some _ _ Hver) as (_ & Hlb & _).
  unfold ParseOpaque. rewrite length_append. cbn [String.length]. rewrite Hla, Hlb, Es, Ev. cbn [Nat.add Nat.eqb negb WireLen].
  rewrite strings_Cut_plain by done. unfold b64_decode. rewrite !drop_newlines_plain, Hsel, Hver by done.
  by rewrite Hls, Hlv.
Qed.

(** ** Claims *)

(** C33: one refresh token buys a bounded number of new ones.  Over any history of
    the store, by any number of clients and with any revocations and clean-ups, a
    token whose selector was drawn once is exchanged at most
    [1 + GraceMaxReuses] times, however often it is presented. *)
Theorem refresh_exchange_bound sha256 policy rows0 sel ops1 op ops2 :
  New policy = Ok rows0 → GraceMaxReuses policy ≤ MaxInt64 →
  Forall (draws_other sel) (ops1 ++ ops2) → Forall clocked (ops1 ++ op :: ops2) →
  exchange_count sha256 policy sel rows0 (ops1 ++ op :: ops2) ≤ 1 + GraceMaxReuses policy.
Proof.
  intros Hnew HM [Hd1 Hd2]%Forall_app [Hc1 [Hc Hc2]%Forall_cons]%Forall_app.
  assert (rows0 = [] ∧ 0 < GraceMaxReuses policy) as [-> Hg].
  { unfold New, Policy_Validate in Hnew. destruct (MaxAge policy <=? 0); [done|].
    destruct (ReuseInterval policy <? 0); [done|]. destruct (MaxIdle policy <=? 0); [done|].
    destruct (GraceMaxReuses policy <=? 0) eqn:Hg; [done|]. injection Hnew as <-. bools. done. }
  rewrite exchange_count_app. cbn [exchange_count].
  pose proof (exchange_count_le sha256 policy sel ops1 [] HM Hd1 Hc1 (sole_none [] sel eq_refl)) as H1.
  cbn in H1. rewrite H1. set (rows1 := foldl _ [] ops1).
  assert (row_of rows1 sel = None) as Hn by by apply absent_run.
  destruct (first_draw sha256 policy rows1 op sel ltac:(lia) Hc Hn) as (-> & Hs & Hfresh).
  pose proof (exchange_count_le sha256 policy sel ops2 _ HM Hd2 Hc2 Hs) as H2.
  destruct (row_of (refresh_exec _ _ rows1 op) sel) as [r|] eqn:Hr; [|lia].
  destruct (Hfresh r eq_refl) as [Hwf Hrot]. specialize (H2 Hwf). unfold budget in H2. rewrite Hrot in H2. lia.
Qed.

Definition demo_policy : Policy := MkPolicy 10 1000 500 2.
Definition demo_rand (c : ascii) (k : nat) : outcome bytes :=
  Ok (string_of_list_ascii (replicate (if (k =? 0)%nat then SelectorLen else VerifierLen) c)).
Definition demo_issue : refresh_op := OpIssue (demo_rand "a") 100 "id1" "s1" "u1" 1.
Definition demo_wire : string :=
  EncodeOpaque (string_of_list_ascii (replicate SelectorLen "a"%char))
    (string_of_list_ascii (replicate VerifierLen "a"%char)).
Definition demo_rotate (c : ascii) (t : Time) : refresh_op := OpRotate (demo_rand c) t t "id2" demo_wire.

Lemma refresh_exchange_bound_witness :
  let sel := string_of_list_ascii (replicate SelectorLen "a"%char) in
  let ops := [demo_rotate "b" 110; demo_rotate "c" 112; demo_rotate "d" 113; demo_rotate "e" 114] in
  exchange_count id demo_policy sel [] (demo_issue :: ops) = 3 ∧
  exchange_count id demo_policy sel [] (demo_issue :: ops) ≤ 1 + GraceMaxReuses demo_policy.
Proof.
  intros sel ops. split; [vm_compute; reflexivity|].
  apply (refresh_exchange_bound id demo_policy [] sel [] demo_issue ops).
  - reflexivity.
  - vm_compute. congruence.
  - repeat (apply Forall_cons; split; [intros r [= <-]; vm_compute; congruence|]). by apply Forall_nil.
  - unfold clocked. repeat (apply Forall_cons; split; [repeat constructor; lia|]). by apply Forall_nil.
Defined.

(** C34: a session that was ended stays ended.  When a session is revoked, or a
    token of it is presented again after its grace (too late or too often) and
    [Peek] or [Rotate] reports the reuse, every refresh token of the session that
    exists at that moment is refused from then on by both methods, with the one
    error that tells nothing about the cause, whatever is done to the store
    afterwards; the report of a reuse names the session to the caller. *)
Theorem ended_session_stays_ended sha256 policy rows op sid r ops wire ver :
  clocked op → ends_session sha256 policy rows op sid →
  r ∈ rows → sessionID r = sid → sole rows (selector r) →
  Forall (draws_other (selector r)) ops → Forall clocked ops →
  ParseOpaque wire = Some (selector r, ver) →
  let rows' := foldl (refresh_exec sha256 policy) (refresh_exec sha256 policy rows op) ops in
  (∀ now, Peek sha256 policy rows' now wire = (None, Some ErrRejected, rows')) ∧
  (∀ rand now1 now2 id,
     Rotate sha256 policy rows' rand now1 now2 id wire = (EmptyString, None, Some ErrRejected, rows')).
Proof.
  intros Hclk Hend Hin Hsid Hs Hd Hc Hp rows'. apply ends_session_revokes in Hend as (now & Hnow & Hexec).
  unfold clocked in Hclk. rewrite Forall_forall in Hclk. apply Hclk in Hnow.
  eapply revoked_refused; [exact Hp|]. unfold rows'. rewrite Hexec.
  destruct (session_revoke_evolves policy rows sid now (selector r) Hnow Hs) as [Hs' _].
  apply revoked_run; [done..|]. intros x. unfold revokeSessionLocked.
  rewrite row_of_fmap by (intros y; by destruct (_ && _)).
  replace (row_of rows (selector r)) with (Some r) by (symmetry; by apply row_of_sole).
  cbn. intros [= <-]. unfold str_eqb. rewrite bool_decide_true by done. cbn.
  destruct (isRevoked r) eqn:Hrv; cbn; [done|]. unfold isRevoked, IsZero. cbn. by rewrite (proj2 (Z.eqb_neq _ _)).
Qed.

(** The store after an issue and one exchange; the old token comes back late. *)
Definition demo_rows : list tokenRecord :=
  foldl (refresh_exec id demo_policy) [] [demo_issue; demo_rotate "b" 110].
Definition demo_child : tokenRecord :=
  new_record id demo_policy "id2" "id1" "s1" "u1" (string_of_list_ascii (replicate SelectorLen "b"%char))
    (string_of_list_ascii (replicate VerifierLen "b"%char)) 110 1.
Definition demo_child_wire : string := EncodeOpaque (selector demo_child) (verifierHash demo_child).

Lemma ended_session_stays_ended_witness :
  let late := demo_rotate "c" 200 in
  (Rotate id demo_policy demo_rows (demo_rand "c") 111 111 "id3" demo_child_wire).1.2 = None ∧
  let rows' := refresh_exec id demo_policy demo_rows late in
  ∀ now, Peek id demo_policy rows' now demo_child_wire = (None, Some ErrRejected, rows').
Proof.
  intros late. split; [vm_compute; reflexivity|].
  apply (ended_session_stays_ended id demo_policy demo_rows late "s1" demo_child [] demo_child_wire
    (verifierHash demo_child)).
  - repeat constructor; lia.
  - eexists _, _. split; vm_compute; reflexivity.
  - right. left.
  - reflexivity.
  - intros [|[|i]] [|[|j]] x y Hx Hy H1 H2; try reflexivity; vm_compute in Hx, Hy; try discriminate;
      injection Hx as <-; injection Hy as <-; vm_compute in H1, H2; discriminate.
  - by apply Forall_nil.
  - by apply Forall_nil.
  - vm_compute. reflexivity.
Defined.

(** the wire format.  Every selector and verifier of the right lengths is
    read back from its encoding; whatever is accepted has these lengths and is
    that encoding except perhaps for the last character of each half.  Documented
    as the strict inverse, the parser is not: because the decoder ignores the
    spare bits of those two characters, every token has a second text that is
    accepted as the same token. *)
Theorem ParseOpaque_spec sel ver :
  String.length sel = SelectorLen → String.length ver = VerifierLen →
  ParseOpaque (EncodeOpaque sel ver) = Some (sel, ver) ∧
  (∀ s, ParseOpaque s = Some (sel, ver) →
     String.length s = WireLen ∧
     ∀ i, i ≠ 21%nat → i ≠ 65%nat → String.get i s = String.get i (EncodeOpaque sel ver)) ∧
  (∃ s, s ≠ EncodeOpaque sel ver ∧ ParseOpaque s = Some (sel, ver)).
Proof.
  intros Hls Hlv. destruct (EncodeOpaque_length sel ver Hls Hlv) as [Es Ev]. split_and!.
  - apply ParseOpaque_intro; auto using b64_encode_plain, b64_quanta_encode.
  - intros s (a & b & -> & _ & _ & Ha & Hb & Hla & Hlb)%ParseOpaque_Some. unfold EncodeOpaque.
    rewrite length_append. cbn [String.length]. split; [by rewrite Hla, Hlb|]. intros i H21 H65.
    destruct (b64_quanta_Some _ _ Ha) as (_ & _ & Hga). destruct (b64_quanta_Some _ _ Hb) as (_ & _ & Hgb).
    destruct (decide (i < 22)%nat) as [Hlt|Hge].
    + rewrite <- !append_correct1 by lia. apply Hga. left. lia.
    + assert (∃ k, i = (k + 22)%nat) as [k ->] by (exists (i - 22)%nat; lia).
      pose proof (append_correct2 a (String wireSeparator b) k) as H1. rewrite Hla in H1.
      pose proof (append_correct2 (b64_encode sel) (String wireSeparator (b64_encode ver)) k) as H2.
      rewrite Es in H2. rewrite <- H1, <- H2. destruct k as [|j]; [done|].
      cbn [String.get]. destruct (decide (43 ≤ j)%nat) as [Hbig|Hsmall].
      * trans (@None ascii); [|symmetry]; apply get_beyond; lia.
      * apply Hgb. left. lia.
  - destruct (b64_malleable ver) as (t & Hne & Hp & Hq); [by rewrite Hlv|].
    exists (b64_encode sel ++ String wireSeparator t)%string. split.
    + unfold EncodeOpaque. intros Heq. apply Hne. generalize (b64_encode sel) Heq. clear.
      intros x. induction x as [|c x IH]; [by intros [=]|]. rewrite !append_String. intros [= Hx]. auto.
    + apply ParseOpaque_intro; auto using b64_encode_plain, b64_quanta_encode.
Qed.

Lemma ParseOpaque_spec_witness :
  let sel := string_of_list_ascii (replicate SelectorLen "a"%char) in
  let ver := string_of_list_ascii (replicate VerifierLen "a"%char) in
  ParseOpaque (EncodeOpaque sel ver) = Some (sel, ver) ∧
  ∃ s, s ≠ EncodeOpaque sel ver ∧ ParseOpaque s = Some (sel, ver).
Proof.
  intros sel ver. destruct (ParseOpaque_spec sel ver eq_refl eq_refl) as (H1 & _ & H2). by split.
Defined.
