(* ===== verification/Query.v ===== *)
(** * pkg/query: keyset pagination and its signed cursors

    A page is cut out of the sorted rows after the position its cursor names; the
    cursor travels as base64 text of JSON signed with HMAC-SHA256.  The HMAC and
    the hash, the JSON codec of a cursor and the parser of RFC 3339 times are
    arguments ([codec_env]); everything else is the package's code. *)

From Stdlib Require Import Ascii String QArith.
From S2P Require Import Prelude GoJson IdUtil Base64 RefreshStore.
Close Scope Q_scope.

Definition ErrCursorInvalid : string := "ERR_CURSOR_INVALID".

(** The reason is an internal attribute of the error. *)
Definition cursorInvalid : goerror :=
  Errcode KindInvalid ErrCursorInvalid
    "invalid cursor; restart from first page (client should discard stored cursor)".

(** ** page.go: parameters *)

Definition DefaultPageSize : Z := 50.
Definition MaxPageSize : Z := 500.

Inductive SortDir : Type := SortASC | SortDESC | SortDirOther (s : string).

#[global] Instance SortDir_eq_dec : EqDecision SortDir.
Proof. solve_decision. Defined.

Definition SortDir_string (d : SortDir) : string :=
  match d with SortASC => "ASC" | SortDESC => "DESC" | SortDirOther s => s end.

Record SortColumn := MkColumn { Name : string; Direction : SortDir }.

Record PageParams := MkPageParams { pp_Limit : Z; pp_Cursor : string }.

Definition Normalize (p : PageParams) : PageParams :=
  let limit := if pp_Limit p <=? 0 then DefaultPageSize else pp_Limit p in
  MkPageParams (if limit >? MaxPageSize then MaxPageSize else limit) (pp_Cursor p).

(** The dynamic types a cursor value can have.  A [float64] is its (finite)
    value; [VOther] stands for every type that is not compared. *)
Inductive anyval : Type :=
  | VString (s : string)
  | VFloat (x : Q)
  | VInt (i : Z)
  | VTime (t : Time)
  | VOther.

(** [None]: the nil slice of the first page. *)
Record ListParams := MkListParams {
  lp_Limit : Z;
  CursorValues : option (list anyval);
  lp_Sort : list SortColumn;
}.

Definition FetchLimit (lp : ListParams) : Z := wrap64 (lp_Limit lp + 1).

(** ** mempage.go *)

(** [float64(i)]: rounds to 53 significant bits, ties to even. *)
Definition float64_of_int (i : Z) : Z :=
  let a := Z.abs i in
  if a <? 2 ^ 53 then i
  else
    let unit := 2 ^ (Z.log2 a - 52) in
    let q := a / unit in
    let r := a mod unit in
    let q := if (unit <? 2 * r) || ((2 * r =? unit) && Z.odd q) then q + 1 else q in
    Z.sgn i * q * unit.

Definition normalizeNumeric (v : anyval) : anyval :=
  match v with VInt i => VFloat (inject_Z (float64_of_int i)) | _ => v end.

Section compare.
Context (time_Parse : string → option Time).

Definition parseTimeString (s : string) : outcome Time :=
  match time_Parse s with Some t => Ok t | None => Err cursorInvalid end.

(** [cmp.Compare] and [time.Time.Compare]. *)
Definition compareStringValues (a b : anyval) : option (outcome comparison) :=
  match a with
  | VString av =>
      match b with
      | VString bv => Some (Ok (String.compare av bv))
      | VTime bv => Some (t ← parseTimeString av; Ok (Z.compare t bv))
      | _ => None
      end
  | _ => None
  end.

Definition compareFloatValues (a b : anyval) : option comparison :=
  match a, b with VFloat av, VFloat bv => Some (Qcompare av bv) | _, _ => None end.

Definition compareTimeValues (a b : anyval) : option (outcome comparison) :=
  match a with
  | VTime av =>
      match b with
      | VTime bv => Some (Ok (Z.compare av bv))
      | VString bv => Some (t ← parseTimeString bv; Ok (Z.compare av t))
      | _ => None
      end
  | _ => None
  end.

Definition CompareAny (a b : anyval) : outcome comparison :=
  let a := normalizeNumeric a in
  let b := normalizeNumeric b in
  match compareStringValues a b with
  | Some r => r
  | None =>
      match compareFloatValues a b with
      | Some r => Ok r
      | None => match compareTimeValues a b with Some r => r | None => Err cursorInvalid end
      end
  end.
End compare.

Definition is_gt (c : comparison) : bool := match c with Gt => true | _ => false end.
Definition is_lt (c : comparison) : bool := match c with Lt => true | _ => false end.

Section page.
Context {T : Type} (time_Parse : string → option Time).

(** The comparison closure of [Sort]. *)
Fixpoint sort_cmp (compareField : T → T → string → comparison) (cols : list SortColumn) (a b : T)
  : comparison :=
  match cols with
  | [] => Eq
  | col :: rest =>
      let v := compareField a b (Name col) in
      let v := if bool_decide (Direction col = SortDESC) then CompOpp v else v in
      match v with Eq => sort_cmp compareField rest a b | _ => v end
  end.

Definition Sort (compareField : T → T → string → comparison) (items : list T) (cols : list SortColumn)
  : list T :=
  if bool_decide (length cols = 0%nat) then items
  else sort_Slice (λ a b, is_lt (sort_cmp compareField cols a b)) items.

Definition validateCursorParams (params : ListParams) : outcome unit :=
  match CursorValues params with
  | None => Ok tt
  | Some values =>
      if bool_decide (length (lp_Sort params) = 0%nat) then Err cursorInvalid
      else if negb (length values =? length (lp_Sort params))%nat then Err cursorInvalid
      else Ok tt
  end.

(** The loop over the columns.  A missing cursor value would be an index out of
    range; [validateCursorParams] has excluded it. *)
Fixpoint afterCursor (fieldValue : T → string → anyval) (item : T) (cols : list SortColumn)
    (cursorValues : list anyval) : outcome bool :=
  match cols, cursorValues with
  | col :: rest, curVal :: values =>
      c ← CompareAny time_Parse (fieldValue item (Name col)) curVal;
      let after := if bool_decide (Direction col = SortDESC) then is_lt c else is_gt c in
      match rest with
      | [] => Ok after
      | _ => match c with Eq => afterCursor fieldValue item rest values | _ => Ok after end
      end
  | _, _ => Ok false
  end.

Fixpoint find_start (fieldValue : T → string → anyval) (items : list T) (cols : list SortColumn)
    (values : list anyval) : outcome nat :=
  match items with
  | [] => Ok 0%nat
  | item :: rest =>
      after ← afterCursor fieldValue item cols values;
      if after : bool then Ok 0%nat else S <$> find_start fieldValue rest cols values
  end.

Definition findCursorStart (fieldValue : T → string → anyval) (items : list T) (params : ListParams)
  : outcome nat :=
  match CursorValues params with
  | None => Ok 0%nat
  | Some values => find_start fieldValue items (lp_Sort params) values
  end.

(** [None] is the panic of a slice out of range, for a negative limit. *)
Definition ApplyCursor (fieldValue : T → string → anyval) (items : list T) (params : ListParams)
  : option (outcome (list T)) :=
  match validateCursorParams params with
  | Err e => Some (Err e)
  | Ok _ =>
      match findCursorStart fieldValue items params with
      | Err e => Some (Err e)
      | Ok start =>
          let stop := Z.min (wrap64 (Z.of_nat start + FetchLimit params)) (Z.of_nat (length items)) in
          page ← go_slice items (Z.of_nat start) stop; Some (Ok page)
      end
  end.
End page.

(** ** cursor.go *)

Definition minCursorKeyBytes : Z := 32.
Definition MaxCursorTokenBytes : Z := 4096.

(** [None]: a nil slice, as JSON [null] decodes to. *)
Record Cursor := MkCursor {
  cur_Values : option (list anyval);
  cur_Scope : string;
  cur_Context : string;
}.

Definition values_len (vs : option (list anyval)) : nat := length (default [] vs).

(** What the codec calls: HMAC-SHA256 and SHA-256 (32 bytes each), [json.Marshal]
    and [json.Unmarshal] at [Cursor], and [time.Parse(time.RFC3339Nano, _)]. *)
Record codec_env := MkCodecEnv {
  hmac_sha256 : bytes → bytes → bytes;
  sha256 : bytes → bytes;
  marshal : Cursor → option bytes;
  unmarshal : bytes → option Cursor;
  time_Parse : string → option Time;
}.

Record CursorCodec := MkCodec { current : bytes; previous : bytes }.

(** [previous] is the variadic argument. *)
Definition NewCursorCodec (cur : bytes) (previous : list bytes) : outcome CursorCodec :=
  if byte_len cur <? minCursorKeyBytes
  then Err (Errcode KindInvalid ErrCursorInvalid "cursor HMAC key too short")
  else
    let prev := default EmptyString (head previous) in
    if byte_len prev >? 0 then
      if byte_len prev <? minCursorKeyBytes
      then Err (Errcode KindInvalid ErrCursorInvalid "previous cursor HMAC key too short")
      else if cur ==s prev
      then Err (Errcode KindInvalid ErrCursorInvalid "previous cursor key must differ from current")
      else Ok (MkCodec cur prev)
    else Ok (MkCodec cur EmptyString).

(** [hex.EncodeToString]. *)
Fixpoint hex_encode (s : bytes) : string :=
  match s with
  | EmptyString => EmptyString
  | String c rest => (hex_byte (byte_val c) ++ hex_encode rest)%string
  end.

(** The slices around the last [sep], by [bytes.LastIndexByte]. *)
Fixpoint cut_last (s : string) (sep : ascii) : option (string * string) :=
  match s with
  | EmptyString => None
  | String c rest =>
      match cut_last rest sep with
      | Some (before, after) => Some (String c before, after)
      | None => if (c =? sep)%char then Some (EmptyString, rest) else None
      end
  end.

Definition signWith (E : codec_env) (key data : bytes) : bytes := hex_encode (hmac_sha256 E key data).

Definition Encode (E : codec_env) (c : CursorCodec) (cur : Cursor) : outcome string :=
  match marshal E cur with
  | None => Err (Errcode KindInternal ErrInternal "cursor: marshal failed")
  | Some payload => Ok (b64_encode (payload ++ String "." (signWith E (current c) payload)))
  end.

Definition Decode (E : codec_env) (c : CursorCodec) (token : string) : outcome Cursor :=
  if token ==s EmptyString then Err cursorInvalid
  else if byte_len token >? MaxCursorTokenBytes then Err cursorInvalid
  else
    match b64_decode token with
    | None => Err cursorInvalid
    | Some raw =>
        match cut_last raw "." with
        | None => Err cursorInvalid
        | Some (payload, sigHex) =>
            if sigHex ==s EmptyString then Err cursorInvalid
            else
              let keys := current c :: (if byte_len (previous c) >? 0 then [previous c] else []) in
              if negb (existsb (λ key, sigHex ==s signWith E key payload) keys) then Err cursorInvalid
              else match unmarshal E payload with
                   | None => Err cursorInvalid
                   | Some cur => Ok cur
                   end
        end
    end.

(** [h.Write] of each part followed by a zero byte. *)
Definition nul_terminated (parts : list string) : bytes :=
  foldr (λ p s, (p ++ String "000" s)%string) EmptyString parts.

(** [hex[:16]]; the hash has 32 bytes, so the slice is in range. *)
Definition fingerprint (E : codec_env) (parts : list string) : string :=
  String.substring 0 16 (hex_encode (sha256 E (nul_terminated parts))).

Definition SortScope (E : codec_env) (cols : list SortColumn) : string :=
  fingerprint E (cols ≫= λ c, [Name c; SortDir_string (Direction c)]).

Definition QueryContext (E : codec_env) (pairs : list string) : string := fingerprint E pairs.

Definition ValidateCursorScope (E : codec_env) (cur : Cursor) (sort : list SortColumn) (queryCtx : string)
  : outcome unit :=
  if cur_Scope cur ==s EmptyString then Err cursorInvalid
  else if negb (cur_Scope cur ==s SortScope E sort) then Err cursorInvalid
  else if cur_Context cur ==s EmptyString then Err cursorInvalid
  else if negb (cur_Context cur ==s queryCtx) then Err cursorInvalid
  else if negb (values_len (cur_Values cur) =? length sort)%nat then Err cursorInvalid
  else Ok tt.

(** ** page.go: results; runmode.go; paged_query.go *)

Record PageResult (T : Type) := MkPageResult { Items : list T; NextCursor : string; HasMore : bool }.
Arguments MkPageResult {T}.
Arguments Items {T}.
Arguments NextCursor {T}.
Arguments HasMore {T}.

Inductive RunMode : Type := RunModeProd | RunModeDemo | RunModeOther (n : N).

Definition IsDemo (m : RunMode) : bool := match m with RunModeDemo => true | _ => false end.
Definition RunModeForDemo (demo : bool) : RunMode := if demo then RunModeDemo else RunModeProd.

Definition MapPageResult {T U} (src : PageResult T) (fn : T → U) : PageResult U :=
  MkPageResult (fn <$> Items src) (NextCursor src) (HasMore src).

Definition CursorPhaseDecode : string := "decode".
Definition CursorPhaseScope : string := "scope".

Section paged.
Context {T : Type} (E : codec_env).

(** [None] is the panic of [items[:limit]] for a negative limit. *)
Definition BuildPageResult (items : list T) (limit : Z) (codec : CursorCodec) (sort : list SortColumn)
    (queryCtx : string) (extractCursor : T → option (list anyval)) : option (outcome (PageResult T)) :=
  let hasMore := Z.of_nat (length items) >? limit in
  items ← if hasMore then go_slice items 0 limit else Some items;
  match (if hasMore then last items else None) with
  | Some x =>
      Some (token ← Encode E codec (MkCursor (extractCursor x) (SortScope E sort) queryCtx);
            Ok (MkPageResult items token hasMore))
  | None => Some (Ok (MkPageResult items EmptyString hasMore))
  end.

(** [Fetch] may panic ([None]) as any callback; a nil field is [None]. *)
Record PagedQueryConfig := MkPagedQuery {
  Codec : option CursorCodec;
  cfg_PageParams : PageParams;
  cfg_Sort : list SortColumn;
  QueryCtx : string;
  Fetch : option (ListParams → option (outcome (list T)));
  Extract : option (T → option (list anyval));
  OnCursorErr : bool;
  cfg_RunMode : RunMode;
}.

(** The calls of [OnCursorErr], when it is not nil. *)
Definition reportCursorErr (cfg : PagedQueryConfig) (phase : string) (err : goerror) : list (string * goerror) :=
  if OnCursorErr cfg then [(phase, err)] else [].

(** With the reports made on the way. *)
Definition resolveCursor (cfg : PagedQueryConfig) (codec : CursorCodec) (cursor : string)
  : outcome (option (list anyval) * bool) * list (string * goerror) :=
  if cursor ==s EmptyString then (Ok (None, false), [])
  else
    match Decode E codec cursor with
    | Err err =>
        (if IsDemo (cfg_RunMode cfg) then Ok (None, true) else Err err,
         reportCursorErr cfg CursorPhaseDecode err)
    | Ok cur =>
        match ValidateCursorScope E cur (cfg_Sort cfg) (QueryCtx cfg) with
        | Err err => (Err err, reportCursorErr cfg CursorPhaseScope err)
        | Ok _ => (Ok (cur_Values cur, false), [])
        end
    end.

(** Fetch with the given position, then build the page. *)
Definition fetch_page (cfg : PagedQueryConfig) (codec : CursorCodec)
    (fetch : ListParams → option (outcome (list T))) (extract : T → option (list anyval))
    (limit : Z) (values : option (list anyval)) : option (outcome (PageResult T)) :=
  r ← fetch (MkListParams limit values (cfg_Sort cfg));
  match r with
  | Err e => Some (Err e)
  | Ok items => BuildPageResult items limit codec (cfg_Sort cfg) (QueryCtx cfg) extract
  end.

Definition fetchFirstPage (cfg : PagedQueryConfig) (codec : CursorCodec)
    (fetch : ListParams → option (outcome (list T))) (extract : T → option (list anyval))
    (limit : Z) : option (outcome (PageResult T)) :=
  fetch_page cfg codec fetch extract limit None.

Definition ExecutePagedQuery (cfg : PagedQueryConfig)
  : option (outcome (PageResult T)) * list (string * goerror) :=
  match Codec cfg, Fetch cfg, Extract cfg with
  | Some codec, Some fetch, Some extract =>
      let page := Normalize (cfg_PageParams cfg) in
      let '(resolved, reports) := resolveCursor cfg codec (pp_Cursor page) in
      (match resolved with
       | Err err => Some (Err err)
       | Ok (_, true) => fetchFirstPage cfg codec fetch extract (pp_Limit page)
       | Ok (cursorValues, false) => fetch_page cfg codec fetch extract (pp_Limit page) cursorValues
       end, reports)
  | _, _, _ =>
      (Some (Err (Errcode KindInternal ErrInternal
                    "paged query misconfigured: Codec, Fetch, and Extract must not be nil")), [])
  end.
End paged.
Arguments PagedQueryConfig : clear implicits.
Arguments MkPagedQuery {T}.

(** ** The codec *)

Lemma hex_digit_nodot n : 0 ≤ n < 16 → (hex_digit n =? ".")%char = false.
Proof.
  intros Hn. assert (H : Forall (λ n, (hex_digit n =? ".")%char = false) (Z.of_nat <$> seq 0 16))
    by (repeat constructor).
  rewrite Forall_forall in H. apply H. apply list_elem_of_fmap. exists (Z.to_nat n).
  rewrite elem_of_seq. lia.
Qed.

Lemma hex_encode_nodot s : cut_last (hex_encode s) "." = None.
Proof.
  induction s as [|c s IH]; [done|]. pose proof (byte_val_range c) as Hc.
  cbn [hex_encode]. unfold hex_byte. rewrite !append_String. rewrite append_Empty. cbn [cut_last]. rewrite IH.
  rewrite (Z.shiftr_div_pow2 _ 4) by lia. change 15 with (Z.ones 4). rewrite Z.land_ones by lia.
  by rewrite !hex_digit_nodot by (change (2 ^ 4) with 16; lia).
Qed.

Lemma hex_encode_length s : String.length (hex_encode s) = (2 * String.length s)%nat.
Proof. induction s as [|c s IH]; [done|]. cbn [hex_encode]. rewrite length_append, IH. cbn. lia. Qed.

Lemma cut_last_nodot a b sep :
  cut_last b sep = None → cut_last (a ++ String sep b)%string sep = Some (a, b).
Proof.
  intros Hb. induction a as [|c a IH].
  - rewrite append_Empty. cbn [cut_last]. by rewrite Hb, Ascii.eqb_refl.
  - rewrite append_String. cbn [cut_last]. by rewrite IH.
Qed.

Lemma cut_last_Some s sep a b : cut_last s sep = Some (a, b) → s = (a ++ String sep b)%string.
Proof.
  revert a b. induction s as [|c s IH]; intros a b; [done|]. cbn.
  destruct (cut_last s sep) as [[a' b']|] eqn:Hc.
  - intros [= <- <-]. rewrite append_String. f_equal. by apply IH.
  - destruct (Ascii.eqb_spec c sep) as [->|]; [|done]. by intros [= <- <-].
Qed.

(** The documented output sizes. *)
Record sized (E : codec_env) : Prop := MkSized {
  hmac_size : ∀ k d, String.length (hmac_sha256 E k d) = 32%nat;
  hash_size : ∀ d, String.length (sha256 E d) = 32%nat;
}.

Lemma signWith_length E k d : sized E → String.length (signWith E k d) = 64%nat.
Proof. intros HE. unfold signWith. by rewrite hex_encode_length, (hmac_size _ HE). Qed.

(** The raw token: base64 text of the payload, a dot and the signature. *)
Definition token_of (E : codec_env) (key payload : bytes) : string :=
  b64_encode (payload ++ String "." (signWith E key payload)).

Lemma token_nonempty E k p : token_of E k p ≠ EmptyString.
Proof.
  intros Hz. apply (f_equal b64_decode) in Hz. unfold token_of in Hz. rewrite b64_decode_encode in Hz.
  injection Hz as Hz. apply (f_equal String.length) in Hz. rewrite length_append in Hz. cbn in Hz. lia.
Qed.

Lemma Decode_token E c k p :
  sized E → k = current c ∨ (k = previous c ∧ byte_len (previous c) > 0) →
  Decode E c (token_of E k p) =
  if byte_len (token_of E k p) <=? MaxCursorTokenBytes
  then match unmarshal E p with Some cur => Ok cur | None => Err cursorInvalid end
  else Err cursorInvalid.
Proof.
  intros HE Hk. unfold Decode, str_eqb. rewrite bool_decide_false by apply token_nonempty.
  rewrite Z.gtb_ltb. destruct (Z.leb_spec (byte_len (token_of E k p)) MaxCursorTokenBytes) as [Hle|Hgt].
  2: { by destruct (Z.ltb_spec MaxCursorTokenBytes (byte_len (token_of E k p))); [|lia]. }
  destruct (Z.ltb_spec MaxCursorTokenBytes (byte_len (token_of E k p))); [lia|].
  unfold token_of. rewrite b64_decode_encode, cut_last_nodot by apply hex_encode_nodot.
  pose proof (signWith_length E k p HE) as Hs.
  rewrite bool_decide_false by (intros Hz; by rewrite Hz in Hs).
  match goal with |- (if negb ?b then _ else _) = _ => assert (b = true) as -> end; [|done].
  apply existsb_exists. exists k. rewrite bool_decide_true by done. split; [|done].
  destruct Hk as [->|[-> Hp]]; [by left|right]. rewrite Z.gtb_ltb.
  destruct (Z.ltb_spec 0 (byte_len (previous c))); [by left|lia].
Qed.

(** C40: A cursor token survives key rotation: what a codec encodes is decoded, to
    what the JSON codec makes of it, by every codec that still holds the signing
    key, as current or as previous key, exactly when the token has at most 4096
    bytes; a longer one is refused as an invalid cursor although [Encode] issued
    it. *)
Theorem cursor_roundtrip E c c' cur payload :
  sized E → marshal E cur = Some payload →
  current c = current c' ∨ (current c = previous c' ∧ byte_len (current c) > 0) →
  ∃ token, Encode E c cur = Ok token ∧
    Decode E c' token =
      if byte_len token <=? MaxCursorTokenBytes
      then match unmarshal E payload with Some cur' => Ok cur' | None => Err cursorInvalid end
      else Err cursorInvalid.
Proof.
  intros HE Hm Hk. exists (token_of E (current c) payload). unfold Encode. rewrite Hm.
  split; [done|]. apply Decode_token; [done|]. destruct Hk as [?|[Hk ?]]; [by left|].
  right. by rewrite <- Hk.
Qed.

(** Cursors cannot be forged: whatever token a codec accepts, within the size
    bound, carries a payload followed by that payload's own MAC under the current
    or, if set, the previous key, and the result is that payload decoded.  So an
    accepted cursor that was never issued exhibits a MAC forgery. *)
Theorem Decode_authentic E c token cur :
  Decode E c token = Ok cur →
  ∃ payload key,
    byte_len token ≤ MaxCursorTokenBytes ∧
    (key = current c ∨ (key = previous c ∧ byte_len (previous c) > 0)) ∧
    b64_decode token = Some (payload ++ String "." (signWith E key payload))%string ∧
    unmarshal E payload = Some cur.
Proof.
  unfold Decode. destruct (token ==s EmptyString); [done|].
  destruct (byte_len token >? MaxCursorTokenBytes) eqn:Hlen; [done|].
  destruct (b64_decode token) as [raw|] eqn:Hraw; [|done].
  destruct (cut_last raw ".") as [[payload sig]|] eqn:Hcut; [|done].
  destruct (sig ==s EmptyString); [done|].
  match goal with |- (if negb ?b then _ else _) = _ → _ => destruct b eqn:Hver end; [|done]. cbn.
  destruct (unmarshal E payload) as [cur'|] eqn:Hun; [|done]. intros [= ->].
  apply existsb_exists in Hver as (key & Hkey & Hsig). bools. subst sig.
  exists payload, key. rewrite Z.gtb_ltb in Hlen. bools.
  split; [done|]. split_and!; [|by f_equal; apply cut_last_Some|done].
  destruct Hkey as [<-|Hkey]; [by left|right].
  destruct (byte_len (previous c) >? 0) eqn:Hp; [|done].
  destruct Hkey as [<-|[]]. split; [done|]. rewrite Z.gtb_ltb in Hp. bools. lia.
Qed.

(** ** Sorting by the columns *)

(** What [Sort] asks of a [CompareFunc]: each field is compared by a total
    preorder. *)
Class FieldOrder {T} (compareField : T → T → string → comparison) : Prop := {
  field_antisym a b f : compareField b a f = CompOpp (compareField a b f);
  field_trans a b c f r : compareField a b f = r → compareField b c f = r → compareField a c f = r;
}.

(** A comparison by one key per field is such an order. *)
Lemma key_FieldOrder {T K} (cmp : K → K → comparison) (key : string → T → K)
    (Hanti : ∀ x y, cmp y x = CompOpp (cmp x y))
    (Htrans : ∀ x y z r, cmp x y = r → cmp y z = r → cmp x z = r) :
  FieldOrder (λ a b f, cmp (key f a) (key f b)).
Proof. split; [intros; apply Hanti|intros a b c f r; apply Htrans]. Qed.

Section order.
Context {T : Type} (compareField : T → T → string → comparison) `{!FieldOrder compareField}.

Lemma sort_cmp_antisym cols a b : sort_cmp compareField cols b a = CompOpp (sort_cmp compareField cols a b).
Proof.
  induction cols as [|col cols IH]; [done|]. cbn. rewrite (field_antisym a b).
  destruct (bool_decide _), (compareField a b (Name col)); cbn; done || apply IH.
Qed.

(** Equal fields are interchangeable. *)
Lemma field_Eq_l a b c f : compareField a b f = Eq → compareField a c f = compareField b c f.
Proof.
  intros Hab. pose proof (field_antisym a b f) as Hba. rewrite Hab in Hba. cbn in Hba.
  destruct (compareField b c f) eqn:Hbc; [by eapply field_trans|..];
    destruct (compareField a c f) eqn:Hac; try done; exfalso;
    try (pose proof (field_trans b a c f Eq Hba Hac); congruence);
    pose proof (field_antisym a c f) as Hca; rewrite Hac in Hca; cbn in Hca;
    pose proof (field_trans b c a f _ Hbc Hca); congruence.
Qed.

Lemma field_Eq_r a b c f : compareField b c f = Eq → compareField a b f = compareField a c f.
Proof.
  intros Hbc. rewrite (field_antisym b a), (field_antisym c a).
  by rewrite (field_Eq_l _ _ _ _ Hbc).
Qed.

Lemma sort_cmp_trans cols a b c r :
  sort_cmp compareField cols a b = r → sort_cmp compareField cols b c = r → sort_cmp compareField cols a c = r.
Proof.
  induction cols as [|col cols IH]; [done|]. cbn.
  destruct (compareField a b (Name col)) eqn:Hab.
  - rewrite (field_Eq_l _ _ c _ Hab). destruct (bool_decide _), (compareField b c (Name col)); cbn; congruence || auto.
  - destruct (compareField b c (Name col)) eqn:Hbc.
    + rewrite (field_Eq_r a _ _ _ Hbc) in Hab. rewrite Hab.
      destruct (bool_decide _); cbn; congruence.
    + rewrite (field_trans _ _ _ _ _ Hab Hbc). destruct (bool_decide _); cbn; congruence.
    + destruct (bool_decide _); cbn; congruence.
  - destruct (compareField b c (Name col)) eqn:Hbc.
    + rewrite (field_Eq_r a _ _ _ Hbc) in Hab. rewrite Hab.
      destruct (bool_decide _); cbn; congruence.
    + destruct (bool_decide _); cbn; congruence.
    + rewrite (field_trans _ _ _ _ _ Hab Hbc). destruct (bool_decide _); cbn; congruence.
Qed.

Definition row_less (cols : list SortColumn) (a b : T) : bool := is_lt (sort_cmp compareField cols a b).

Lemma not_after_row cols a b : not_after (row_less cols) a b ↔ sort_cmp compareField cols a b ≠ Gt.
Proof.
  unfold not_after, row_less. rewrite (sort_cmp_antisym cols a b).
  by destruct (sort_cmp compareField cols a b).
Qed.

#[global] Instance row_less_total cols : Total (not_after (row_less cols)).
Proof.
  intros a b. rewrite !not_after_row, (sort_cmp_antisym cols a b).
  destruct (sort_cmp compareField cols a b); cbn; auto.
Qed.

#[global] Instance row_less_trans cols : Transitive (not_after (row_less cols)).
Proof.
  intros a b c. rewrite !not_after_row. intros Hab Hbc Hac.
  pose proof (sort_cmp_antisym cols a c) as Hca. rewrite Hac in Hca. cbn in Hca.
  destruct (sort_cmp compareField cols a b) eqn:E1; [..|done].
  - pose proof (sort_cmp_antisym cols a b) as E2. rewrite E1 in E2. cbn in E2.
    destruct (sort_cmp compareField cols b c) eqn:E3; [..|done].
    + pose proof (sort_cmp_trans _ _ _ _ _ E1 E3). congruence.
    + pose proof (sort_cmp_trans _ _ _ _ _ E3 Hca). congruence.
  - pose proof (sort_cmp_trans _ _ _ _ _ Hca E1) as E2.
    pose proof (sort_cmp_antisym cols c b) as E3. rewrite E2 in E3. cbn in E3. congruence.
Qed.

(** Rows with distinct keys come out in strictly increasing order. *)
Lemma Sort_strict cols items :
  cols ≠ [] → NoDup items →
  (∀ a b, a ∈ items → b ∈ items → sort_cmp compareField cols a b = Eq → a = b) →
  StronglySorted (λ a b, sort_cmp compareField cols a b = Lt) (Sort compareField items cols).
Proof.
  intros Hcols Hnd Huniq. unfold Sort.
  rewrite bool_decide_false by (by intros ?%nil_length_inv).
  change (λ a b, is_lt _) with (row_less cols).
  pose proof (sort_Slice_perm (row_less cols) items) as Hp.
  pose proof (sort_Slice_sorted (row_less cols) items) as Hs.
  rewrite <- Hp in Hnd.
  assert (Huniq' : ∀ a b, a ∈ sort_Slice (row_less cols) items → b ∈ sort_Slice (row_less cols) items →
    sort_cmp compareField cols a b = Eq → a = b).
  { intros a b Ha Hb. rewrite sort_Slice_elem in Ha, Hb. by apply Huniq. }
  clear Huniq Hp. induction Hs as [|a l Hs IH Ha]; constructor.
  - apply IH; [by apply NoDup_cons in Hnd as []|]. intros; apply Huniq'; set_solver.
  - apply NoDup_cons in Hnd as [Hnin _]. rewrite Forall_forall in Ha |- *. intros b Hb.
    specialize (Ha b Hb). rewrite not_after_row in Ha.
    destruct (sort_cmp compareField cols a b) eqn:Hab; [|done..].
    apply Huniq' in Hab; [by subst|set_solver..].
Qed.

Lemma Sort_perm cols items : Sort compareField items cols ≡ₚ items.
Proof. unfold Sort. case_bool_decide; [done|apply sort_Slice_perm]. Qed.
End order.

(** ** Following the cursors *)

(** A repository that keeps its rows in memory, as the [mem] stores do: sort,
    then cut the page out. *)
Definition mem_fetch {T} (E : codec_env) (compareField : T → T → string → comparison)
    (fieldValue : T → string → anyval) (items : list T) (params : ListParams) : option (outcome (list T)) :=
  ApplyCursor (time_Parse E) fieldValue (Sort compareField items (lp_Sort params)) params.

Definition with_cursor {T} (cfg : PagedQueryConfig T) (token : string) : PagedQueryConfig T :=
  MkPagedQuery (Codec cfg) (MkPageParams (pp_Limit (cfg_PageParams cfg)) token) (cfg_Sort cfg) (QueryCtx cfg)
    (Fetch cfg) (Extract cfg) (OnCursorErr cfg) (cfg_RunMode cfg).

(** A client that requests pages until [HasMore] is false; [None] when a request
    fails or the client stops asking. *)
Fixpoint walk {T} (E : codec_env) (requests : nat) (cfg : PagedQueryConfig T) (token : string)
  : option (list (list T)) :=
  match requests with
  | O => None
  | S requests =>
      match (ExecutePagedQuery E (with_cursor cfg token)).1 with
      | Some (Ok r) =>
          if HasMore r then cons (Items r) <$> walk E requests cfg (NextCursor r) else Some [Items r]
      | _ => None
      end
  end.

Section pages.
Context {T : Type} (E : codec_env).
Context (compareField : T → T → string → comparison) `{!FieldOrder compareField}.
Context (fieldValue : T → string → anyval) (extract : T → option (list anyval)).
Context (items : list T) (cols : list SortColumn) (codec : CursorCodec) (queryCtx : string).
(** The values of row [x]'s cursor after their trip through JSON. *)
Context (received : T → list anyval).

(** What a caller of the package provides: distinct sort keys, a query context,
    and cursors that name their row's position: the JSON codec carries them, they
    fit in a token, and [CompareAny] orders a row against the received values as
    [compareField] orders the rows. *)
Record listable : Prop := MkListable {
  li_cols : cols ≠ [];
  li_nodup : NoDup items;
  li_int : Z.of_nat (length items) ≤ 2 ^ 62;
  li_ctx : queryCtx ≠ EmptyString;
  li_unique : ∀ x y, x ∈ items → y ∈ items → sort_cmp compareField cols x y = Eq → x = y;
  li_json : ∀ x, x ∈ items → ∃ payload,
    marshal E (MkCursor (extract x) (SortScope E cols) queryCtx) = Some payload ∧
    unmarshal E payload = Some (MkCursor (Some (received x)) (SortScope E cols) queryCtx) ∧
    byte_len (token_of E (current codec) payload) ≤ MaxCursorTokenBytes;
  li_compare : ∀ x y, x ∈ items → y ∈ items →
    Forall2 (λ col v, CompareAny (time_Parse E) (fieldValue y (Name col)) v = Ok (compareField y x (Name col)))
      cols (received x);
}.

Context (Hli : listable).
Abbreviation rows := (Sort compareField items cols).

Lemma afterCursor_spec x y : x ∈ items → y ∈ items →
  afterCursor (time_Parse E) fieldValue y cols (received x) = Ok (is_gt (sort_cmp compareField cols y x)).
Proof using Hli.
  intros Hx Hy. pose proof (li_compare Hli x y Hx Hy) as Hc. clear Hx Hy Hli.
  induction Hc as [|col v cs vs Hv Hc IH]; [done|]. cbn [afterCursor sort_cmp]. rewrite Hv. cbn.
  destruct Hc as [|col' v' cs vs Hv' Hc].
  - cbn. by destruct (bool_decide _), (compareField y x (Name col)).
  - destruct (bool_decide _), (compareField y x (Name col)); done || apply IH.
Qed.

Lemma find_start_split {U} (fv : U → string → anyval) P cs vs pre post :
  Forall (λ y, afterCursor P fv y cs vs = Ok false) pre →
  Forall (λ y, afterCursor P fv y cs vs = Ok true) post →
  find_start P fv (pre ++ post) cs vs = Ok (length pre).
Proof.
  intros Hpre Hpost. induction Hpre as [|y pre Hy Hpre IH]; cbn.
  - destruct Hpost as [|y post Hy Hpost]; [done|]. cbn. by rewrite Hy.
  - rewrite Hy. cbn. by rewrite IH.
Qed.

(** The cursor of the last row of a prefix starts right after the prefix. *)
Lemma find_start_row pre x post : rows = pre ++ x :: post →
  find_start (time_Parse E) fieldValue rows cols (received x) = Ok (S (length pre)).
Proof using Hli FieldOrder0.
  intros Hrows.
  pose proof (Sort_strict compareField cols items (li_cols Hli) (li_nodup Hli) (li_unique Hli)) as Hs.
  assert (Hin : ∀ y, y ∈ pre ++ x :: post → y ∈ items)
    by (intros y; rewrite <- Hrows; by rewrite (Sort_perm compareField)).
  rewrite Hrows in Hs |- *. replace (pre ++ x :: post) with ((pre ++ [x]) ++ post) in * by (by rewrite <- app_assoc).
  rewrite (find_start_split _ _ _ _ (pre ++ [x])); [f_equal; rewrite length_app; cbn; lia|..];
    rewrite Forall_forall; intros y Hy; rewrite afterCursor_spec by (apply Hin; set_solver); f_equal.
  - apply elem_of_app in Hy as [Hy|Hy].
    + apply StronglySorted_app_1_l in Hs.
      assert (sort_cmp compareField cols y x = Lt) as ->; [|done].
      eapply StronglySorted_app_1_elem_of in Hs; [exact Hs|done|set_solver].
    + apply list_elem_of_singleton in Hy as ->. pose proof (sort_cmp_antisym compareField cols x x) as Hxx.
      by destruct (sort_cmp compareField cols x x).
  - assert (Hxy : sort_cmp compareField cols x y = Lt).
    { eapply StronglySorted_app_1_elem_of in Hs; [exact Hs|set_solver|done]. }
    by rewrite (sort_cmp_antisym compareField cols x y), Hxy.
Qed.

(** The position after the first [i] rows, as values and as a token. *)
Definition values_at (i : nat) (vals : option (list anyval)) : Prop :=
  (i = O ∧ vals = None) ∨
  ∃ pre x post, rows = pre ++ x :: post ∧ i = S (length pre) ∧ vals = Some (received x).

Definition token_at (i : nat) (token : string) : Prop :=
  (i = O ∧ token = EmptyString) ∨
  ∃ pre x post, rows = pre ++ x :: post ∧ i = S (length pre) ∧
    Encode E codec (MkCursor (extract x) (SortScope E cols) queryCtx) = Ok token.

Lemma row_in pre x post : rows = pre ++ x :: post → x ∈ items.
Proof using. intros Hr. rewrite <- (Sort_perm compareField cols), Hr. apply elem_of_app. right. by left. Qed.

Lemma fetch_at limit i vals :
  0 < limit ≤ MaxPageSize → values_at i vals →
  mem_fetch E compareField fieldValue items (MkListParams limit vals cols) =
  Some (Ok (take (S (Z.to_nat limit)) (drop i rows))).
Proof using Hli FieldOrder0.
  intros Hlim Hat. unfold MaxPageSize in Hlim. unfold mem_fetch. cbn [lp_Sort].
  assert (Hlen : (i ≤ length rows)%nat).
  { destruct Hat as [[-> _]|(pre & x & post & Hr & -> & _)]; [lia|]. rewrite Hr, length_app. cbn. lia. }
  pose proof (li_int Hli) as Hint. rewrite <- (Sort_perm compareField cols items) in Hint.
  unfold ApplyCursor. assert (validateCursorParams (MkListParams limit vals cols) = Ok tt) as ->.
  { destruct Hat as [[_ ->]|(pre & x & post & Hr & _ & ->)]; [done|]. unfold validateCursorParams. cbn.
    rewrite bool_decide_false by (intros ?%nil_length_inv; by apply (li_cols Hli)).
    pose proof (row_in _ _ _ Hr) as Hx.
    by rewrite (Forall2_length _ _ _ (li_compare Hli x x Hx Hx)), Nat.eqb_refl. }
  assert (findCursorStart (time_Parse E) fieldValue rows (MkListParams limit vals cols) = Ok i) as ->.
  { destruct Hat as [[-> ->]|(pre & x & post & Hr & -> & ->)]; [done|]. by eapply find_start_row. }
  unfold FetchLimit. cbn [lp_Limit].
  rewrite !wrap64_id by (unfold int64_range, MinInt64, MaxInt64; rewrite ?wrap64_id;
    unfold int64_range, MinInt64, MaxInt64; lia).
  rewrite go_slice_Some by lia. cbn. rewrite Nat2Z.id. do 2 f_equal.
  destruct (Z.min_spec (Z.of_nat i + (limit + 1)) (Z.of_nat (length rows))) as [[_ ->]|[Hge ->]].
  - f_equal. lia.
  - rewrite !take_ge; [done|rewrite length_drop; lia..].
Qed.

Context (HE : sized E).

Lemma resolve_at (cfg : PagedQueryConfig T) i token :
  cfg_Sort cfg = cols → QueryCtx cfg = queryCtx → token_at i token →
  ∃ vals, resolveCursor E cfg codec token = (Ok (vals, false), []) ∧ values_at i vals.
Proof using Hli HE.
  intros Hs Hc [[-> ->]|(pre & x & post & Hr & -> & Htok)].
  { exists None. split; [done|by left]. }
  exists (Some (received x)). split; [|right; naive_solver].
  pose proof (row_in _ _ _ Hr) as Hx.
  destruct (li_json Hli x Hx) as (payload & Hm & Hu & Hlen).
  unfold Encode in Htok. rewrite Hm in Htok. injection Htok as <-. fold (token_of E (current codec) payload).
  unfold resolveCursor, str_eqb at 1. rewrite bool_decide_false by apply token_nonempty.
  rewrite Decode_token, Hu by (done || by left).
  destruct (Z.leb_spec (byte_len (token_of E (current codec) payload)) MaxCursorTokenBytes); [|lia].
  unfold ValidateCursorScope. cbn. rewrite Hs, Hc.
  assert (Hscope : SortScope E cols ≠ EmptyString).
  { unfold SortScope, fingerprint.
    pose proof (hash_size E HE (nul_terminated (cols ≫= λ c, [Name c; SortDir_string (Direction c)]))) as Hh.
    destruct (sha256 E _); [done|]. by cbn. }
  unfold str_eqb. rewrite !(bool_decide_false (_ = EmptyString)), !(bool_decide_true (_ = _)) by (done || apply (li_ctx Hli)).
  cbn. by rewrite (Forall2_length _ _ _ (li_compare Hli x x Hx Hx)), Nat.eqb_refl.
Qed.

Lemma build_at limit i :
  0 < limit → (i ≤ length rows)%nat →
  ∃ token, BuildPageResult E (take (S (Z.to_nat limit)) (drop i rows)) limit codec cols queryCtx extract =
      Some (Ok (MkPageResult (take (Z.to_nat limit) (drop i rows)) token
                  (bool_decide (i + Z.to_nat limit < length rows)%nat))) ∧
    ((i + Z.to_nat limit < length rows)%nat → token_at (i + Z.to_nat limit) token).
Proof using Hli.
  intros Hlim Hi. unfold BuildPageResult. rewrite length_take, length_drop, Z.gtb_ltb.
  case_bool_decide as Hmore.
  - assert ((limit <? Z.of_nat (Nat.min (S (Z.to_nat limit)) (length rows - i))) = true) as ->
      by (apply Z.ltb_lt; lia).
    rewrite go_slice_Some by (rewrite ?length_take, ?length_drop; lia). cbn [mbind option_bind].
    rewrite Z.sub_0_r, drop_0, take_take, Nat.min_l by lia.
    destruct (take (Z.to_nat limit) (drop i rows)) as [|x0 page _] eqn:Hp using rev_ind.
    { apply (f_equal length) in Hp. rewrite length_take, length_drop in Hp. cbn in Hp. lia. }
    rewrite last_snoc.
    assert (Hr : ∃ post, rows = (take i rows ++ page) ++ x0 :: post).
    { exists (drop (Z.to_nat limit) (drop i rows)). rewrite <- app_assoc, (cons_middle x0), (app_assoc page), <- Hp.
      by rewrite take_drop, take_drop. }
    destruct Hr as [post Hr]. destruct (li_json Hli x0 (row_in _ _ _ Hr)) as (payload & Hm & _).
    exists (token_of E (current codec) payload). unfold Encode at 1. rewrite Hm. split; [done|]. intros _. right.
    exists (take i rows ++ page), x0, post. split; [done|]. split.
    + apply (f_equal length) in Hp. rewrite length_take, length_drop, length_app in Hp. cbn in Hp.
      rewrite length_app, length_take. lia.
    + unfold Encode. by rewrite Hm.
  - assert ((limit <? Z.of_nat (Nat.min (S (Z.to_nat limit)) (length rows - i))) = false) as ->
      by (apply Z.ltb_ge; lia).
    exists EmptyString. split; [|lia]. cbn. do 3 f_equal. rewrite !take_ge; [done|rewrite length_drop; lia..].
Qed.

Context (page_limit : Z) (cursor : string) (report : bool) (mode : RunMode).
(** Any repository that answers with the rows after the position. *)
Context (fetch : ListParams → option (outcome (list T))).

Definition fetches_rows : Prop := ∀ limit i vals, 0 < limit ≤ MaxPageSize → values_at i vals →
  fetch (MkListParams limit vals cols) = Some (Ok (take (S (Z.to_nat limit)) (drop i rows))).

Context (Hfetch : fetches_rows).

(** The query of a service's list operation. *)
Definition list_query : PagedQueryConfig T :=
  MkPagedQuery (Some codec) (MkPageParams page_limit cursor) cols queryCtx
    (Some fetch) (Some extract) report mode.

Abbreviation limit := (pp_Limit (Normalize (MkPageParams page_limit cursor))).

Lemma Normalize_limit : 0 < limit ≤ MaxPageSize.
Proof using.
  unfold Normalize, DefaultPageSize, MaxPageSize. cbn. rewrite !Z.gtb_ltb.
  repeat case_match; bools; lia.
Qed.

Lemma execute_at i token : token_at i token → (i ≤ length rows)%nat →
  ∃ next, (ExecutePagedQuery E (with_cursor list_query token)).1 =
      Some (Ok (MkPageResult (take (Z.to_nat limit) (drop i rows)) next
                  (bool_decide (i + Z.to_nat limit < length rows)%nat))) ∧
    ((i + Z.to_nat limit < length rows)%nat → token_at (i + Z.to_nat limit) next).
Proof using Hli HE Hfetch.
  intros Hat Hi. pose proof Normalize_limit as Hlim.
  destruct (build_at limit i ltac:(lia) Hi) as (next & Hb & Hnext). exists next. split; [|done].
  destruct (resolve_at (with_cursor list_query token) i token eq_refl eq_refl Hat) as (vals & Hres & Hvals).
  unfold ExecutePagedQuery. cbn [Codec Fetch Extract with_cursor list_query].
  change (pp_Cursor (Normalize (cfg_PageParams (with_cursor list_query token)))) with token.
  rewrite Hres. cbn [fst]. unfold fetch_page.
  change (pp_Limit (Normalize (cfg_PageParams (with_cursor list_query token)))) with limit.
  cbn [cfg_Sort QueryCtx with_cursor list_query]. rewrite (Hfetch _ i) by done. cbn [mbind option_bind].
  exact Hb.
Qed.

Lemma walk_at requests i token : token_at i token → (i ≤ length rows)%nat →
  (length rows - i < requests)%nat →
  ∃ pages, walk E requests list_query token = Some pages ∧
    concat pages = drop i rows ∧
    Forall (λ p, length p = Z.to_nat limit) (removelast pages) ∧
    Forall (λ p, (length p ≤ Z.to_nat limit)%nat) pages ∧ pages ≠ [].
Proof using Hli HE Hfetch.
  revert i token. induction requests as [|n IH]; intros i token Hat Hi Hn; [lia|].
  pose proof Normalize_limit as Hlim. destruct (execute_at i token Hat Hi) as (next & Hx & Hnext).
  cbn [walk]. rewrite Hx. cbn [HasMore Items NextCursor]. case_bool_decide as Hmore.
  - destruct (IH _ _ (Hnext Hmore) ltac:(lia) ltac:(lia)) as (pages & -> & Hc & Hfull & Hle & Hne).
    eexists. split; [done|]. cbn [concat]. rewrite Hc, <- drop_drop, take_drop. split; [done|].
    split; [|split; [|done]].
    + destruct pages; [done|]. constructor; [|done]. rewrite length_take, length_drop. lia.
    + constructor; [rewrite length_take; lia|done].
  - eexists. split; [done|]. cbn [concat removelast]. rewrite app_nil_r, take_ge by (rewrite length_drop; lia).
    split; [done|]. split; [done|]. split; [|done]. constructor; [rewrite length_drop; lia|done].
Qed.

Lemma walk_all :
  ∃ pages, walk E (S (length items)) list_query EmptyString = Some pages ∧
    concat pages = rows ∧ concat pages ≡ₚ items ∧
    Forall (λ p, length p = Z.to_nat limit) (removelast pages) ∧
    Forall (λ p, (length p ≤ Z.to_nat limit)%nat) pages.
Proof using Hli HE Hfetch.
  destruct (walk_at (S (length items)) 0 EmptyString) as (pages & Hw & Hc & Hfull & Hle & _).
  - by left.
  - lia.
  - rewrite (Permutation_length (Sort_perm compareField cols items)). lia.
  - exists pages. rewrite drop_0 in Hc. split; [done|]. split; [done|]. split; [|done].
    rewrite Hc. apply (Sort_perm compareField).
Qed.
End pages.

(** C21: Pagination loses and repeats nothing.  Over rows with distinct sort keys
    whose cursors survive JSON, a client that asks for the first page and then
    follows [NextCursor] until [HasMore] is false succeeds within one request more
    than there are rows; the pages put together are exactly the sorted rows, every
    page but the last has the normalized limit's size, and no page exceeds it. *)
Theorem pagination_complete {T} E compareField `{!@FieldOrder T compareField} fieldValue extract items cols
    codec queryCtx received page_limit cursor report mode :
  sized E →
  listable E compareField fieldValue extract items cols codec queryCtx received →
  let limit := Z.to_nat (pp_Limit (Normalize (MkPageParams page_limit cursor))) in
  let query := list_query extract cols codec queryCtx page_limit cursor report mode
                 (mem_fetch E compareField fieldValue items) in
  ∃ pages, walk E (S (length items)) query EmptyString = Some pages ∧
    concat pages = Sort compareField items cols ∧ concat pages ≡ₚ items ∧
    Forall (λ p, length p = limit) (removelast pages) ∧
    Forall (λ p, (length p ≤ limit)%nat) pages.
Proof.
  intros HE Hli. apply (walk_all E compareField fieldValue extract items cols codec queryCtx received Hli HE).
  intros limit i vals. by apply (fetch_at _ _ _ _ _ _ _ _ _ Hli).
Qed.

(** ** A sample listing: rows (timestamp, sequence number), newest first *)

Module Sample.

Definition digest : bytes := "0123456789abcdef0123456789abcdef".
Definition scope : string := String.substring 0 16 (hex_encode digest).
Definition rows : list (Z * Z) := [(10, 1); (30, 2); (10, 3); (20, 4); (30, 5)].
Definition text (t : Z) : string := ("t" ++ pretty t)%string.

Definition received (x : Z * Z) : list anyval := [VString (text x.1); VFloat (inject_Z x.2)].
Definition payload (x : Z * Z) : bytes := (text x.1 ++ "," ++ pretty x.2)%string.

Definition env : codec_env := {|
  hmac_sha256 _ _ := digest;
  sha256 _ := digest;
  marshal cur :=
    match cur_Values cur with Some [VTime t; VInt i] => Some (payload (t, i)) | _ => None end;
  unmarshal p :=
    (λ x, MkCursor (Some (received x)) scope "audit") <$> List.find (λ x, p ==s payload x) rows;
  time_Parse s := fst <$> List.find (λ x, s ==s text x.1) rows;
|}.

Definition key (f : string) (x : Z * Z) : Z := if f ==s "timestamp" then x.1 else x.2.
Definition compareField (a b : Z * Z) (f : string) : comparison := Z.compare (key f a) (key f b).
Definition fieldValue (x : Z * Z) (f : string) : anyval := if f ==s "timestamp" then VTime x.1 else VInt x.2.
Definition extract (x : Z * Z) : option (list anyval) := Some [VTime x.1; VInt x.2].
Definition cols : list SortColumn := [MkColumn "timestamp" SortDESC; MkColumn "seq" SortASC].
Definition codec : CursorCodec := MkCodec digest EmptyString.

#[global] Instance compareField_order : FieldOrder compareField.
Proof.
  apply (key_FieldOrder Z.compare key); [intros; apply Z.compare_antisym|].
  intros x y z [| |]; rewrite ?Z.compare_eq_iff, ?Z.compare_lt_iff, ?Z.compare_gt_iff; lia.
Qed.

Lemma env_sized : sized env.
Proof. split; intros; reflexivity. Qed.

Lemma rows_forall (P : Z * Z → Prop) :
  P (10, 1) → P (30, 2) → P (10, 3) → P (20, 4) → P (30, 5) → ∀ x, x ∈ rows → P x.
Proof. intros ?????. by apply Forall_forall; repeat constructor. Qed.

Ltac each_row := refine (rows_forall _ _ _ _ _ _); cbv beta.

Lemma rows_listable : listable env compareField fieldValue extract rows cols codec "audit" received.
Proof.
  split; [done|apply (bool_decide_unpack (NoDup rows)); by vm_compute|done|done|..].
  - intros x y Hx Hy. revert x Hx y Hy. each_row; each_row; vm_compute; congruence.
  - each_row; eexists; (split; [by vm_compute|]; split; [by vm_compute|by vm_compute]).
  - intros x y Hx Hy. revert x Hx y Hy. each_row; each_row;
      (apply Forall2_cons_2; [vm_compute; reflexivity|apply Forall2_cons_2; [vm_compute; reflexivity|apply Forall2_nil_2]]).
Qed.

End Sample.

Lemma pagination_complete_witness :
  ∃ pages,
    walk Sample.env 6
      (list_query Sample.extract Sample.cols Sample.codec "audit" 2 EmptyString true RunModeProd
         (mem_fetch Sample.env Sample.compareField Sample.fieldValue Sample.rows)) EmptyString = Some pages ∧
    pages = [[(30, 2); (30, 5)]; [(20, 4); (10, 1)]; [(10, 3)]] ∧
    concat pages = Sort Sample.compareField Sample.rows Sample.cols.
Proof.
  destruct (pagination_complete Sample.env Sample.compareField Sample.fieldValue Sample.extract Sample.rows
              Sample.cols Sample.codec "audit" Sample.received 2 EmptyString true RunModeProd
              Sample.env_sized Sample.rows_listable) as (pages & Hw & Hc & _).
  exists pages. split; [exact Hw|]. split; [|exact Hc].
  vm_compute in Hw. by injection Hw as <-.
Defined.

Lemma cursor_roundtrip_witness :
  ∃ token,
    Encode Sample.env Sample.codec (MkCursor (Some [VTime 30; VInt 5]) Sample.scope "audit") = Ok token ∧
    Decode Sample.env (MkCodec "another key, the current one of ." Sample.digest) token =
      Ok (MkCursor (Some (Sample.received (30, 5))) Sample.scope "audit").
Proof.
  destruct (cursor_roundtrip Sample.env Sample.codec (MkCodec "another key, the current one of ." Sample.digest)
              (MkCursor (Some [VTime 30; VInt 5]) Sample.scope "audit") (Sample.payload (30, 5))
              Sample.env_sized eq_refl (or_intror (conj eq_refl eq_refl))) as (token & He & Hd).
  exists token. split; [exact He|]. rewrite Hd. vm_compute in He. injection He as <-. by vm_compute.
Defined.

Lemma Decode_authentic_witness :
  ∃ payload key,
    byte_len (token_of Sample.env Sample.digest (Sample.payload (30, 5))) ≤ MaxCursorTokenBytes ∧
    (key = current Sample.codec ∨ (key = previous Sample.codec ∧ byte_len (previous Sample.codec) > 0)) ∧
    b64_decode (token_of Sample.env Sample.digest (Sample.payload (30, 5))) =
      Some (payload ++ String "." (signWith Sample.env key payload))%string ∧
    unmarshal Sample.env payload = Some (MkCursor (Some (Sample.received (30, 5))) Sample.scope "audit").
Proof.
  apply (Decode_authentic Sample.env Sample.codec
           (token_of Sample.env Sample.digest (Sample.payload (30, 5)))). by vm_compute.
Defined.

(** ** Two limits of the fingerprints and of numeric keys *)

(** A separator inside a part moves the boundary: the two contexts are one. *)
Lemma QueryContext_boundary E a b rest :
  QueryContext E ((a ++ String "000" b)%string :: rest) = QueryContext E (a :: b :: rest).
Proof.
  unfold QueryContext, fingerprint. do 3 f_equal. unfold nul_terminated. cbn [foldr].
  induction a as [|c a IH]; [done|]. rewrite !append_String. by rewrite IH.
Qed.

(** Integer keys beyond 2^53 are compared after rounding. *)
Lemma CompareAny_rounds P : CompareAny P (VInt (2 ^ 53)) (VInt (2 ^ 53 + 1)) = Ok Eq.
Proof. by vm_compute. Qed.
