(* ===== verification/PgQuery.v ===== *)
(** * pkg/pgquery: building parameterised queries

    The Builder of builder.go, and a reader of the conditions it builds: the text
    after WHERE as a conjunction of comparisons of a column with a placeholder, the
    way PostgreSQL evaluates it on a row.  The reader answers [None] for text outside
    this fragment, so what is proved of a query is about its text. *)

From Stdlib Require Import Ascii String.
From S2P Require Import Prelude GoJson.

(** ** builder.go *)

Record Builder : Type := MkBuilder { parts : list string; args : list string }.

Definition NewBuilder : Builder := MkBuilder [] [].

Definition Append (b : Builder) (sql : string) : Builder := MkBuilder (parts b ++ [sql]) (args b).

(** [fmt.Sprintf("$%d", n)]. *)
Definition placeholder (n : nat) : string := ("$" ++ pretty n)%string.

Definition AppendParam (b : Builder) (sqlPrefix value : string) : Builder :=
  let args := args b ++ [value] in
  MkBuilder (parts b ++ [(sqlPrefix ++ placeholder (length args))%string]) args.

Definition AppendIf (b : Builder) (condition : bool) (sqlPrefix value : string) : Builder :=
  if condition then AppendParam b sqlPrefix value else b.

(** [strings.Join]. *)
Fixpoint Join (l : list string) (sep : string) : string :=
  match l with
  | [] => ""
  | [s] => s
  | s :: l => (s ++ sep ++ Join l sep)%string
  end.

Definition Build (b : Builder) : string * list string := (Join (parts b) " ", args b).

(** ** What the text selects *)

(** The words of a text, separated by spaces. *)
Fixpoint words_from (word s : string) : list string :=
  match s with
  | EmptyString => if bool_decide (word = "") then [] else [word]
  | String c s =>
      if (c =? " ")%char then (if bool_decide (word = "") then [] else [word]) ++ words_from "" s
      else words_from (word ++ String c "") s
  end.
Definition words (s : string) : list string := words_from "" s.

Fixpoint plain_word (s : string) : bool :=
  match s with EmptyString => true | String c s => negb (c =? " ")%char && plain_word s end.

(** [[a-z_][a-z0-9_]*]: the spelling of a name that is not quoted and not folded. *)
Definition name_start (c : ascii) : bool := in_range "a" "z" c || (c =? "_")%char.
Fixpoint name_rest (s : string) : bool :=
  match s with
  | EmptyString => true
  | String c s => (name_start c || is_digit c) && name_rest s
  end.
Definition name (s : string) : bool :=
  match s with EmptyString => false | String c s => name_start c && name_rest s end.

(** The value bound to a placeholder. *)
Fixpoint bound_from (n : nat) (args : list string) (word : string) : option string :=
  match args with
  | [] => None
  | v :: args => if bool_decide (word = placeholder n) then Some v else bound_from (S n) args word
  end.
Definition bound : list string → string → option string := bound_from 1.

Section reader.
(** The words a column may not be named by unless quoted. *)
Context (reserved : string → bool).

(** The text of a column, [None] for NULL, which no comparison admits. *)
Notation row := (string → option string).

Definition compares (args : list string) (r : row) (col op word : string) : option bool :=
  if negb (name col) || reserved col then None
  else
    v ← bound args word;
    if bool_decide (op = "=") then Some (from_option (λ x, bool_decide (x = v)) false (r col))
    else if bool_decide (op = "<>") then Some (from_option (λ x, bool_decide (x ≠ v)) false (r col))
    else None.

Fixpoint conjunction (args : list string) (r : row) (ws : list string) : option bool :=
  match ws with
  | col :: op :: word :: rest =>
      x ← compares args r col op word;
      match rest with
      | [] => Some x
      | w :: rest => if bool_decide (w = "AND") then andb x <$> conjunction args r rest else None
      end
  | _ => None
  end.

Fixpoint after_WHERE (ws : list string) : option (list string) :=
  match ws with
  | [] => None
  | w :: ws => if bool_decide (w = "WHERE") then Some ws else after_WHERE ws
  end.

(** Whether the query built so far selects the row. *)
Definition selects (b : Builder) (r : row) : option bool :=
  let '(sql, args) := Build b in ws ← after_WHERE (words sql); conjunction args r ws.

(** ** Words *)

Lemma words_from_space word s t :
  words_from word (s ++ String " " t) = words_from word s ++ words t.
Proof.
  revert word. induction s as [|c s IH]; intros word; [done|]. rewrite append_String. cbn [words_from].
  destruct (c =? " ")%char; [|apply IH]. by rewrite IH, app_assoc.
Qed.

Lemma words_space s t : words (s ++ String " " t) = words s ++ words t.
Proof. apply words_from_space. Qed.

Lemma words_from_plain s : ∀ word, plain_word s = true →
  words_from word s = if bool_decide ((word ++ s)%string = "") then [] else [(word ++ s)%string].
Proof.
  induction s as [|c s IH]; intros word; cbn [plain_word words_from]; [by rewrite append_nil|].
  intros [Hc Hs]%andb_prop. destruct (c =? " ")%char; [done|]. rewrite IH by done.
  by rewrite append_assoc, append_String, append_Empty.
Qed.

Lemma words_plain s : plain_word s = true → s ≠ "" → words s = [s].
Proof.
  intros Hp Hne. unfold words. rewrite words_from_plain, append_Empty by done. by rewrite bool_decide_false.
Qed.

Lemma plain_word_app s t : plain_word (s ++ t) = plain_word s && plain_word t.
Proof. induction s as [|c s IH]; [done|]. rewrite append_String. cbn [plain_word]. by rewrite IH, andb_assoc. Qed.

Lemma pretty_N_go_plain x s : plain_word s = true → plain_word (pretty_N_go x s) = true.
Proof.
  revert s. induction (N.lt_wf_0 x) as [x _ IH]; intros s Hs.
  destruct (decide (x = 0%N)) as [->|Hx]; [by rewrite pretty_N_go_0|].
  rewrite pretty_N_go_step by lia. apply IH; [apply N.div_lt; lia|]. cbn [plain_word]. rewrite Hs, andb_true_r.
  pose proof (N.mod_lt x 10 ltac:(done)) as Hm. revert Hm. generalize (x `mod` 10)%N. intros d Hd.
  unfold pretty_N_char. by repeat case_match.
Qed.

Lemma placeholder_plain n : plain_word (placeholder n) = true.
Proof.
  unfold placeholder. rewrite plain_word_app. cbn [plain_word]. rewrite andb_true_r. cbn.
  unfold pretty, pretty_nat, pretty, pretty_N. case_decide; [done|]. by apply pretty_N_go_plain.
Qed.

Lemma name_rest_plain s : name_rest s = true → plain_word s = true.
Proof.
  induction s as [|c s IH]; [done|]. cbn. intros [Hc Hs]%andb_prop. rewrite IH by done. rewrite andb_true_r.
  by destruct (Ascii.eqb_spec c " ") as [->|].
Qed.

Lemma name_plain s : name s = true → plain_word s = true ∧ s ≠ "".
Proof.
  destruct s as [|c s]; [done|]. cbn. intros [Hc Hs%name_rest_plain]%andb_prop. split; [|done]. rewrite Hs, andb_true_r.
  by destruct (Ascii.eqb_spec c " ") as [->|].
Qed.

Lemma condition_words col op n : plain_word col = true → col ≠ "" → plain_word op = true → op ≠ "" →
  words (" AND " ++ col ++ " " ++ op ++ " " ++ placeholder n) = ["AND"; col; op; placeholder n].
Proof.
  intros Hc Hc' Ho Ho'.
  change (words ("AND" ++ String " " (col ++ String " " (op ++ String " " (placeholder n)))) = ["AND"; col; op; placeholder n]).
  rewrite !words_space. by rewrite !words_plain by (done || apply placeholder_plain).
Qed.

(** ** A condition more *)

Lemma Join_snoc l s sep : l ≠ [] → Join (l ++ [s]) sep = (Join l sep ++ sep ++ s)%string.
Proof.
  induction l as [|x l IH]; [done|]. intros _. destruct l as [|y l]; [done|].
  change (Join ((x :: y :: l) ++ [s]) sep) with (x ++ sep ++ Join ((y :: l) ++ [s]) sep)%string.
  rewrite IH by done. cbn [Join]. by rewrite !append_assoc.
Qed.

Lemma after_WHERE_app ws k rest : after_WHERE ws = Some rest → after_WHERE (ws ++ k) = Some (rest ++ k).
Proof. induction ws as [|w ws IH]; [done|]. cbn. case_bool_decide; [by intros [= ->]|apply IH]. Qed.

Lemma placeholder_inj n m : placeholder n = placeholder m → n = m.
Proof. unfold placeholder. rewrite !append_String, !append_Empty. intros H. injection H as H. by apply (inj pretty) in H. Qed.

Lemma bound_from_app n l k w v : bound_from n l w = Some v → bound_from n (l ++ k) w = Some v.
Proof. revert n. induction l as [|x l IH]; intros n; [done|]. cbn. case_bool_decide; [done|apply IH]. Qed.

Lemma bound_from_last n l v : bound_from n (l ++ [v]) (placeholder (n + length l)) = Some v.
Proof.
  revert n. induction l as [|x l IH]; intros n; cbn.
  - by rewrite Nat.add_0_r, bool_decide_true.
  - rewrite bool_decide_false by (intros H%placeholder_inj; lia). by rewrite <-(IH (S n)), Nat.add_succ_r.
Qed.

Lemma compares_app l k r col op w x : compares l r col op w = Some x → compares (l ++ k) r col op w = Some x.
Proof.
  unfold compares. destruct (_ || _); [done|]. destruct (bound l w) as [v|] eqn:Hb; [|done].
  unfold bound in *. by rewrite (bound_from_app _ _ _ _ _ Hb).
Qed.

Lemma conjunction_snoc l k r col op w y ws : ∀ x,
  conjunction l r ws = Some x → compares (l ++ k) r col op w = Some y →
  conjunction (l ++ k) r (ws ++ ["AND"; col; op; w]) = Some (x && y).
Proof.
  induction ws as [ws IH] using (induction_ltof1 _ (@length string)). unfold ltof in IH. intros x.
  destruct ws as [|c [|o [|p rest]]]; try done. cbn [conjunction app].
  destruct (compares l r c o p) as [z|] eqn:Hz; [|done]. rewrite (compares_app _ k _ _ _ _ _ Hz).
  destruct rest as [|w' rest]; cbn [mbind option_bind app].
  - intros [= ->] Hy. rewrite bool_decide_true by done. cbn [conjunction]. by rewrite Hy.
  - case_bool_decide; [|done]. destruct (conjunction l r rest) as [x'|] eqn:Hx; [|done]. cbn. intros [= <-] Hy.
    rewrite (IH rest ltac:(cbn; lia) x' Hx Hy). cbn. by rewrite andb_assoc.
Qed.

(** Appending [AND col = ] with a value narrows what the query selects to the rows
    whose column has that value, whatever was built before. *)
Lemma AppendParam_equals b r col v x :
  name col = true → reserved col = false → selects b r = Some x →
  selects (AppendParam b (" AND " ++ col ++ " = ") v) r =
    Some (x && from_option (λ o, bool_decide (o = v)) false (r col)).
Proof.
  intros Hn Hr. destruct (name_plain _ Hn) as [Hp Hne]. unfold selects, Build, AppendParam. cbn [parts args].
  destruct (after_WHERE (words (Join (parts b) " "))) as [ws|] eqn:Hw; [|done]. cbn [mbind option_bind]. intros Hx.
  rewrite Join_snoc by (intros Hnil; by rewrite Hnil in Hw).
  change (" " ++ ?y)%string with (String " " y). rewrite words_space, length_app. cbn [length].
  assert (Heq : ∀ n, ((" AND " ++ col ++ " = ") ++ placeholder n)%string = (" AND " ++ col ++ " " ++ "=" ++ " " ++ placeholder n)%string)
    by (intros n; by rewrite !append_assoc).
  rewrite Heq, condition_words by done. rewrite (after_WHERE_app _ _ _ Hw). cbn [mbind option_bind].
  apply (conjunction_snoc _ _ _ _ _ _ _ _ _ Hx). unfold compares. rewrite Hn, Hr. cbn [negb orb].
  rewrite Nat.add_comm. unfold bound. by rewrite (bound_from_last 1).
Qed.
End reader.
