(* ===== verification/Tenant.v ===== *)
(** * pkg/tenant and the row visibility of runtime/auth

    Tenant identifiers, row scopes and row-visibility obligations
    ([tenant_id.go], [rowscope.go], [rowvisibility.go], [scope.go], [context.go]),
    and their derivation from an authenticated principal ([rowscope.go],
    [principal.go] and [deviceprincipal.go] of runtime/auth).
    [github.com/google/uuid.Parse] is an argument: it returns the canonical text of
    the UUID.  Values formatted into an error text are left out. *)

From Stdlib Require Import Ascii String.
From S2P Require Import Prelude GoJson PgQuery.

Definition ErrAuthForbidden : string := "ERR_AUTH_FORBIDDEN".
Definition ErrAuthUnauthorized : string := "ERR_AUTH_UNAUTHORIZED".

(** ** tenant_id.go *)

Abbreviation TenantID := string (only parsing).
Definition canonicalUUIDLen : Z := 36.
Definition reservedNilUUID : string := "00000000-0000-0000-0000-000000000000".

Section tenant_id.
Context (uuid_Parse : string → option string).

Definition parseCanonical (s : string) : outcome TenantID :=
  if s ==s EmptyString then Err (ErrorsNew "tenant: TenantID required (empty)")
  else if negb (byte_len s =? canonicalUUIDLen)
  then Err (ErrorsNew "tenant: TenantID must be a canonical 36-char dashed UUID")
  else match uuid_Parse s with
       | None => Err (Errorf "tenant: TenantID must be a UUID" (ErrorsNew "invalid UUID"))
       | Some u => Ok u
       end.

Definition ParseTenantID (s : string) : outcome TenantID :=
  if s ==s reservedNilUUID
  then Err (ErrorsNew "tenant: TenantID is reserved for internal use and must not be submitted as external input")
  else parseCanonical s.

Definition validateTenantIDString (s : string) : outcome unit :=
  if s ==s reservedNilUUID then Err (ErrorsNew "tenant: TenantID is reserved and invalid")
  else
    canonical ← parseCanonical s;
    if negb (canonical ==s s)
    then Err (ErrorsNew "tenant: TenantID must be a canonical lowercase UUID; use ParseTenantID to normalize")
    else Ok tt.

Definition TenantID_Validate (t : TenantID) : outcome unit := validateTenantIDString t.

(** context.go: [raw] is [ctxkeys.TenantIDFrom(ctx)]. *)
Definition FromContext (raw : option string) : outcome TenantID :=
  match raw with
  | None => Err (Errcode KindPermissionDenied ErrAuthForbidden "tenant scope required")
  | Some raw =>
      match ParseTenantID raw with
      | Err _ => Err (Errcode KindPermissionDenied ErrAuthForbidden "tenant scope invalid")
      | Ok tid => Ok tid
      end
  end.
End tenant_id.

(** ** rowscope.go: a [uint8], ordered from the narrowest to the widest *)

Abbreviation RowScope := Z (only parsing).
Definition RowScopeSelf : RowScope := 1.
Definition RowScopeDevice : RowScope := 2.
Definition RowScopeTenant : RowScope := 3.
Definition RowScopeAll : RowScope := 4.

Definition RowScope_Valid (rs : RowScope) : bool := (rs >=? RowScopeSelf) && (rs <=? RowScopeAll).

Definition RowScope_String (rs : RowScope) : string :=
  if rs =? RowScopeSelf then "self"
  else if rs =? RowScopeDevice then "device"
  else if rs =? RowScopeTenant then "tenant"
  else if rs =? RowScopeAll then "all"
  else "invalid".

Definition RowScope_Validate (rs : RowScope) : outcome unit :=
  if negb (RowScope_Valid rs) then Err (ErrorsNew "tenant: invalid RowScope") else Ok tt.

Definition ParseRowScope (s : string) : outcome RowScope :=
  if s ==s EmptyString then Ok 0
  else if s ==s "self" then Ok RowScopeSelf
  else if s ==s "device" then Ok RowScopeDevice
  else if s ==s "tenant" then Ok RowScopeTenant
  else if s ==s "all" then Ok RowScopeAll
  else Err (ErrorsNew "tenant: unknown RowScope wire code").

Definition Narrower (rs other : RowScope) : RowScope :=
  if rs =? 0 then other
  else if other =? 0 then rs
  else if rs <=? other then rs
  else other.

(** ** rowvisibility.go *)

Record RowVisibility := MkVis { scope : RowScope; subject : string }.

#[global] Instance RowVisibility_eq_dec : EqDecision RowVisibility.
Proof. solve_decision. Defined.

(** [^[a-z_][a-z0-9_]*$] *)
Definition ident_start (c : ascii) : bool := in_range "a" "z" c || (c =? "_")%char.

Fixpoint ident_rest (s : string) : bool :=
  match s with
  | EmptyString => true
  | String c s => (ident_start c || in_range "0" "9" c) && ident_rest s
  end.

Definition ownerColumnPattern (s : string) : bool :=
  match s with EmptyString => false | String c s => ident_start c && ident_rest s end.

Definition Validate (v : RowVisibility) : outcome unit :=
  _ ← RowScope_Validate (scope v);
  if (scope v =? RowScopeSelf) || (scope v =? RowScopeDevice) then
    if subject v ==s EmptyString
    then Err (ErrorsNew "tenant: RowScope requires a non-empty subject") else Ok tt
  else if (scope v =? RowScopeTenant) || (scope v =? RowScopeAll) then
    if negb (subject v ==s EmptyString)
    then Err (ErrorsNew "tenant: RowScope must carry an empty subject (no owner identity)") else Ok tt
  else Ok tt.

Definition NewRowVisibility (scope : RowScope) (subject : string) : outcome RowVisibility :=
  if scope =? RowScopeAll
  then Err (Errcode KindInternal ErrInternal
              "tenant: RowScopeAll must be minted via NewCrossTenantVisibility, not NewRowVisibility")
  else
    let v := MkVis scope subject in
    _ ← Validate v; Ok v.

Definition SystemRowVisibility : RowVisibility := MkVis RowScopeTenant EmptyString.

Record CrossTenantVisibility := MkCross { vis : RowVisibility }.

Definition NewCrossTenantVisibility : CrossTenantVisibility := MkCross (MkVis RowScopeAll EmptyString).

Definition Visibility (c : CrossTenantVisibility) : RowVisibility := vis c.

Definition CrossTenantVisibility_Validate (c : CrossTenantVisibility) : outcome unit :=
  _ ← Validate (vis c);
  if negb (scope (vis c) =? RowScopeAll)
  then Err (ErrorsNew "tenant: CrossTenantVisibility must carry RowScopeAll") else Ok tt.

Record RowSQLPredicate := MkPredicate { Apply : bool; Prefix : string; Arg : string }.

(** The zero predicate has a nil [Arg]. *)
Definition no_predicate : RowSQLPredicate := MkPredicate false EmptyString EmptyString.

Definition SQLPredicate (v : RowVisibility) (ownerColumn : string) : outcome RowSQLPredicate :=
  _ ← Validate v;
  if negb (ownerColumnPattern ownerColumn)
  then Err (ErrorsNew "tenant: RowVisibility owner column is not a SQL identifier")
  else if (scope v =? RowScopeSelf) || (scope v =? RowScopeDevice)
  then Ok (MkPredicate true (" AND " ++ ownerColumn ++ " = ") (subject v))
  else Ok no_predicate.

Definition Allows (v : RowVisibility) (ownerValue : string) : bool :=
  if (scope v =? RowScopeSelf) || (scope v =? RowScopeDevice) then ownerValue ==s subject v else true.

(** ** runtime/auth: principals *)

Inductive PrincipalKind : Type :=
  | PrincipalUnknown | PrincipalUser | PrincipalService | PrincipalAnonymous | PrincipalDevice
  | PrincipalKindOther (n : Z).

#[global] Instance PrincipalKind_eq_dec : EqDecision PrincipalKind.
Proof. solve_decision. Defined.

(** The fields the visibility depends on; [device] is the unexported seal. *)
Record Principal := MkPrincipal {
  p_Kind : PrincipalKind;
  p_Subject : string;
  p_Roles : list string;
  p_AuthMethod : string;
  p_TenantID : string;
  p_ExpiresAt : Time;
  p_device : bool;
}.

Definition RoleAdmin : string := "admin".
Definition RoleSuperAdmin : string := "superadmin".

Definition HasRole (p : option Principal) (role : string) : bool :=
  match p with
  | None => false
  | Some p => if role ==s EmptyString then false else bool_decide (role ∈ p_Roles p)
  end.

Record Claims := MkClaims { c_Subject : string; c_TenantID : string; c_Roles : list string; c_ExpiresAt : Time }.

Fixpoint hasPrivilegedRole (roles : list string) : bool :=
  match roles with
  | [] => false
  | r :: roles => if (r ==s RoleAdmin) || (r ==s RoleSuperAdmin) then true else hasPrivilegedRole roles
  end.

Definition mintDevicePrincipal (c : Claims) : outcome Principal :=
  if c_Subject c ==s EmptyString
  then Err (Errcode KindUnauthenticated ErrAuthUnauthorized "device token subject missing")
  else if c_TenantID c ==s EmptyString
  then Err (Errcode KindUnauthenticated ErrAuthUnauthorized "device token tenant missing")
  else if hasPrivilegedRole (c_Roles c)
  then Err (Errcode KindUnauthenticated ErrAuthUnauthorized "device token carries a privileged role")
  else Ok (MkPrincipal PrincipalDevice (c_Subject c) [] "device_token" (c_TenantID c) (c_ExpiresAt c) true).

(** The [slog.ErrorContext] security event: actor and tenant. *)
Record audit_event := MkAudit { au_actor : string; au_tenant : string }.

(** A nil receiver is [None]; the events logged come second. *)
Definition derive_CrossTenantVisibility (p : option Principal)
  : outcome CrossTenantVisibility * list audit_event :=
  match p with
  | None => (Err (Errcode KindInternal ErrInternal "CrossTenantVisibility called on nil principal"), [])
  | Some q =>
      if negb (bool_decide (p_Kind q = PrincipalUser)) || negb (HasRole p RoleSuperAdmin)
      then (Err (Errcode KindPermissionDenied ErrAuthForbidden
                   "cross-tenant visibility requires a super-admin user principal"), [])
      else (Ok NewCrossTenantVisibility, [MkAudit (p_Subject q) (p_TenantID q)])
  end.

Definition deriveUserRowVisibility (p : Principal) : outcome RowVisibility * list audit_event :=
  if HasRole (Some p) RoleSuperAdmin then
    match derive_CrossTenantVisibility (Some p) with
    | (Err e, log) => (Err e, log)
    | (Ok ctv, log) => (Ok (Visibility ctv), log)
    end
  else if HasRole (Some p) RoleAdmin then (NewRowVisibility RowScopeTenant EmptyString, [])
  else (NewRowVisibility RowScopeSelf (p_Subject p), []).

Definition derive_RowVisibility (p : option Principal) : outcome RowVisibility * list audit_event :=
  match p with
  | None => (Err (Errcode KindInternal ErrInternal "RowVisibility called on nil principal"), [])
  | Some p =>
      match p_Kind p with
      | PrincipalUser => deriveUserRowVisibility p
      | PrincipalDevice =>
          if negb (p_device p)
          then (Err (Errcode KindPermissionDenied ErrAuthForbidden "device principal missing issuer seal"), [])
          else (NewRowVisibility RowScopeDevice (p_Subject p), [])
      | PrincipalService | PrincipalAnonymous | PrincipalUnknown =>
          (Err (Errcode KindPermissionDenied ErrAuthForbidden
                  "principal kind cannot establish a row-visibility scope"), [])
      | PrincipalKindOther _ =>
          (Err (Errcode KindInternal ErrInternal "unhandled principal kind in RowVisibility"), [])
      end
  end.

(** ** Tenant identifiers *)

(** What [uuid.Parse] documents, at inputs of 36 bytes: the result is the canonical
    text of the UUID, which parses to itself; only one dashed text denotes the nil
    UUID. *)
Record uuid_law (parse : string → option string) : Prop := MkUuidLaw {
  uuid_len s u : byte_len s = canonicalUUIDLen → parse s = Some u → byte_len u = canonicalUUIDLen;
  uuid_idem s u : byte_len s = canonicalUUIDLen → parse s = Some u → parse u = Some u;
  uuid_nil s : byte_len s = canonicalUUIDLen → parse s = Some reservedNilUUID → s = reservedNilUUID;
}.

Lemma parseCanonical_Ok parse s t : parseCanonical parse s = Ok t ↔
  byte_len s = canonicalUUIDLen ∧ parse s = Some t.
Proof.
  unfold parseCanonical, str_eqb. case_bool_decide as He; [subst; split; [done|by intros []]|].
  destruct (Z.eqb_spec (byte_len s) canonicalUUIDLen) as [Hl|Hl]; cbn; [|naive_solver].
  destruct (parse s); naive_solver.
Qed.

(** Every tenant identifier that enters through [ParseTenantID] or the request
    context is a valid one: [Validate] accepts it, so it is canonical, never empty
    and never the reserved nil UUID, and parsing it again changes nothing. *)
Theorem TenantID_entry uuid_Parse raw t :
  uuid_law uuid_Parse → FromContext uuid_Parse raw = Ok t →
  TenantID_Validate uuid_Parse t = Ok tt ∧ ParseTenantID uuid_Parse t = Ok t ∧
  byte_len t = canonicalUUIDLen ∧ t ≠ reservedNilUUID.
Proof.
  intros Hlaw. unfold FromContext. destruct raw as [s|]; [|done].
  destruct (ParseTenantID uuid_Parse s) as [t'|] eqn:Hp; [|done]. intros [= ->].
  unfold ParseTenantID, str_eqb in Hp. case_bool_decide as Hn; [done|].
  apply parseCanonical_Ok in Hp as [Hl Hp].
  assert (Ht : t ≠ reservedNilUUID) by (intros ->; by apply Hn, (uuid_nil _ Hlaw)).
  assert (Hc : parseCanonical uuid_Parse t = Ok t).
  { apply parseCanonical_Ok. split; [by eapply uuid_len|by eapply uuid_idem]. }
  unfold TenantID_Validate, validateTenantIDString, ParseTenantID, str_eqb.
  rewrite !(bool_decide_false (t = _)) by done. rewrite Hc. cbn. rewrite bool_decide_true by done.
  split_and!; [done..|by eapply uuid_len|done].
Qed.

(** ** Visibility *)

Lemma Validate_Ok v : Validate v = Ok tt ↔
  ((scope v = RowScopeSelf ∨ scope v = RowScopeDevice) ∧ subject v ≠ EmptyString) ∨
  ((scope v = RowScopeTenant ∨ scope v = RowScopeAll) ∧ subject v = EmptyString).
Proof.
  unfold Validate, RowScope_Validate, RowScope_Valid, RowScopeSelf, RowScopeDevice, RowScopeTenant, RowScopeAll,
    str_eqb. rewrite Z.geb_leb.
  destruct (Z.leb_spec 1 (scope v)), (Z.leb_spec (scope v) 4); cbn; [|split; [done|lia]..].
  destruct v as [s sub]. cbn in *. assert (Hs : s = 1 ∨ s = 2 ∨ s = 3 ∨ s = 4) by lia.
  destruct Hs as [->|[->|[->| ->]]]; cbn; case_bool_decide; cbn; naive_solver.
Qed.

Lemma NewRowVisibility_Ok s sub v :
  NewRowVisibility s sub = Ok v ↔ v = MkVis s sub ∧ Validate v = Ok tt ∧ s ≠ RowScopeAll.
Proof.
  unfold NewRowVisibility. destruct (Z.eqb_spec s RowScopeAll) as [Hs|Hs].
  - split; [done|]. by intros (_&_&?).
  - split.
    + intros ([] & Hv & [= <-])%bind_Ok. done.
    + intros (-> & Hv & _). by rewrite Hv.
Qed.

Lemma ownerColumnPattern_name s : ownerColumnPattern s = true → name s = true.
Proof.
  assert (Hr : ∀ t, ident_rest t = true → name_rest t = true).
  { induction t as [|c t IH]; [done|]. cbn. intros [Hc Ht]%andb_prop. rewrite IH, andb_true_r by done. exact Hc. }
  destruct s as [|c s]; [done|]. cbn. intros [Hc Hs]%andb_prop. rewrite Hr by done. by rewrite andb_true_r.
Qed.

(** The rows a query shows once the fragment is appended: those it showed before
    that the in-memory check allows.  A row without an owner (NULL) is shown only
    under the scopes that have no owner predicate. *)
Definition confined (v : RowVisibility) (owner : option string) : bool :=
  match owner with
  | Some o => Allows v o
  | None => negb ((scope v =? RowScopeSelf) || (scope v =? RowScopeDevice))
  end.

(** [SQLPredicate], appended to any query, and its in-memory mirror select the same
    rows. *)
Lemma SQLPredicate_Allows v col :
  Validate v = Ok tt → ownerColumnPattern col = true →
  ∃ p, SQLPredicate v col = Ok p ∧ ∀ reserved b row x,
    reserved col = false → selects reserved b row = Some x →
    selects reserved (AppendIf b (Apply p) (Prefix p) (Arg p)) row = Some (x && confined v (row col)).
Proof.
  intros Hv Hcol. unfold SQLPredicate, confined, Allows. rewrite Hv, Hcol. cbn.
  destruct ((scope v =? RowScopeSelf) || (scope v =? RowScopeDevice)); eexists; (split; [done|]);
    intros reserved b row x Hr Hx; cbn [AppendIf Apply Prefix Arg no_predicate].
  - etrans; [exact (AppendParam_equals _ _ _ _ (subject v) _ (ownerColumnPattern_name _ Hcol) Hr Hx)|]. by destruct (row col).
  - rewrite Hx. destruct (row col); by rewrite andb_true_r.
Qed.

(** The scope a principal is entitled to, from the documented table. *)
Definition super_admin (p : Principal) : Prop := p_Kind p = PrincipalUser ∧ RoleSuperAdmin ∈ p_Roles p.
Definition tenant_admin (p : Principal) : Prop :=
  p_Kind p = PrincipalUser ∧ ¬ (RoleSuperAdmin ∈ p_Roles p) ∧ RoleAdmin ∈ p_Roles p.

Lemma derive_RowVisibility_cases p v log :
  derive_RowVisibility (Some p) = (Ok v, log) →
  Validate v = Ok tt ∧
  ((v = MkVis RowScopeAll EmptyString ∧ super_admin p ∧ log = [MkAudit (p_Subject p) (p_TenantID p)]) ∨
   (v = MkVis RowScopeTenant EmptyString ∧ tenant_admin p ∧ log = []) ∨
   ((v = MkVis RowScopeSelf (p_Subject p) ∨ v = MkVis RowScopeDevice (p_Subject p)) ∧
     ¬ super_admin p ∧ ¬ tenant_admin p ∧ log = [] ∧
     (p_Kind p = PrincipalUser ∨ (p_Kind p = PrincipalDevice ∧ p_device p = true)))).
Proof.
  unfold derive_RowVisibility, super_admin, tenant_admin. destruct (p_Kind p) eqn:Hk; try done.
  - unfold deriveUserRowVisibility, derive_CrossTenantVisibility. rewrite Hk.
    change (HasRole (Some p) RoleSuperAdmin) with (bool_decide (RoleSuperAdmin ∈ p_Roles p)).
    change (HasRole (Some p) RoleAdmin) with (bool_decide (RoleAdmin ∈ p_Roles p)).
    case_bool_decide as Hs; [|case_bool_decide as Ha].
    + intros [= <- <-]. split; [done|]. by left.
    + intros [= <- <-]. split; [done|]. right. by left.
    + intros [= Hv <-]. apply NewRowVisibility_Ok in Hv as (-> & Hv & _). split; [done|]. right. right.
      split; [by left|]. split_and!; [by intros []|by intros (_&_&?)|done|by left].
  - destruct (p_device p); [|done]. intros [= Hv <-]. apply NewRowVisibility_Ok in Hv as (-> & Hv & _).
    split; [done|]. right. right. split; [by right|]. split_and!; [by intros []|by intros []|done|by right].
Qed.


(** Narrowing is a meet: the zero scope is its unit. *)
Lemma Narrower_meet a b c :
  Narrower a b = Narrower b a ∧ Narrower a a = a ∧ Narrower a (Narrower b c) = Narrower (Narrower a b) c.
Proof.
  unfold Narrower. destruct (Z.eqb_spec a 0), (Z.eqb_spec b 0), (Z.eqb_spec c 0), (Z.leb_spec a b), (Z.leb_spec b a),
    (Z.leb_spec b c), (Z.leb_spec a a); try lia; repeat match goal with
  | |- context [?x =? ?y] => destruct (Z.eqb_spec x y)
  | |- context [?x <=? ?y] => destruct (Z.leb_spec x y)
  end; lia.
Qed.

(** ** Witnesses *)

(** A parser of dashed texts that only lowers letters. *)
Definition lower (c : ascii) : ascii := if in_range "A" "Z" c then ascii_of_nat (nat_of_ascii c + 32) else c.

Fixpoint lower_all (s : string) : string :=
  match s with EmptyString => EmptyString | String c s => String (lower c) (lower_all s) end.

Lemma lower_idem c : lower (lower c) = lower c.
Proof. by destruct c as [[] [] [] [] [] [] [] []]. Qed.

Lemma lower_fixed c d : d = "0"%char ∨ d = "-"%char → lower c = d → c = d.
Proof. intros [->| ->]; by destruct c as [[] [] [] [] [] [] [] []]. Qed.

Fixpoint zeros_dashes (s : string) : bool :=
  match s with EmptyString => true | String c s => ((c =? "0")%char || (c =? "-")%char) && zeros_dashes s end.

Lemma lower_all_fixed t s : zeros_dashes t = true → lower_all s = t → s = t.
Proof.
  revert s. induction t as [|d t IH]; intros [|c s]; cbn; try done.
  intros [Hd Ht]%andb_prop [= Hc Hs]. f_equal; [|by apply IH].
  apply lower_fixed; [|done]. apply orb_prop in Hd as [->%Ascii.eqb_eq| ->%Ascii.eqb_eq]; auto.
Qed.

Lemma lower_all_law : uuid_law (λ s, Some (lower_all s)).
Proof.
  assert (Hlen : ∀ s, String.length (lower_all s) = String.length s) by (induction s; cbn; auto).
  split.
  - intros s u Hs [= <-]. unfold byte_len in *. by rewrite Hlen.
  - intros s u _ [= <-]. f_equal. induction s as [|c s IH]; [done|]. cbn. by rewrite lower_idem, IH.
  - intros s _ [= Hs]. apply lower_all_fixed; [|done]. reflexivity.
Qed.

Lemma TenantID_entry_witness :
  TenantID_Validate (λ s, Some (lower_all s)) "3f2504e0-4f89-41d3-9a0c-0305e82c3301" = Ok tt ∧
  ParseTenantID (λ s, Some (lower_all s)) "3f2504e0-4f89-41d3-9a0c-0305e82c3301"
    = Ok "3f2504e0-4f89-41d3-9a0c-0305e82c3301"%string ∧
  byte_len "3f2504e0-4f89-41d3-9a0c-0305e82c3301" = canonicalUUIDLen ∧
  "3f2504e0-4f89-41d3-9a0c-0305e82c3301"%string ≠ reservedNilUUID.
Proof.
  apply (TenantID_entry (λ s, Some (lower_all s)) (Some "3F2504E0-4F89-41D3-9A0C-0305E82C3301"%string)).
  - apply lower_all_law.
  - reflexivity.
Defined.

(** Alice's device reads the audit table through a query that is already restricted to
    an event type. *)
Module VisibilitySample.
Definition device : Principal := MkPrincipal PrincipalDevice "dev-1" [] "device_token" "t1" 0 true.
Definition visibility : RowVisibility := MkVis RowScopeDevice "dev-1".
Definition reserved (w : string) : bool := bool_decide (w ∈ ["and"; "or"; "select"; "where"; "user"]%string).
Definition query : Builder :=
  AppendParam (Append NewBuilder "SELECT id FROM audit_entries WHERE") "event_type = " "login".
Definition row (owner : string) (col : string) : option string :=
  if col ==s "event_type" then Some "login"%string else if col ==s "actor_id" then Some owner else None.
End VisibilitySample.

