(* ===== verification/JsonText.v ===== *)
(** * Reading back what json.Marshal writes

    A decoder for the text of JSON strings, integers and base64 byte slices, and
    the proof that it inverts the encoder of [GoJson]: a string comes back with
    every byte that is not part of well-formed UTF-8 replaced by U+FFFD, as
    [encoding/json] documents.  This is what makes a message composed of such
    fields unambiguous. *)

From Stdlib Require Import Ascii String.
From S2P Require Import Prelude GoJson Base64.

(** ** Strings *)

Definition hex_val (c : ascii) : option Z :=
  if is_digit c then Some (byte_val c - 48)
  else if in_range "a" "f" c then Some (byte_val c - 87)
  else if in_range "A" "F" c then Some (byte_val c - 55)
  else None.

(** [utf8.EncodeRune] below U+10000. *)
Definition utf8_encode (r : Z) : string :=
  if r <? 128 then String (chr r) EmptyString
  else if r <? 2048 then String (chr (192 + r / 64)) (String (chr (128 + r mod 64)) EmptyString)
  else String (chr (224 + r / 4096))
         (String (chr (128 + (r / 64) mod 64)) (String (chr (128 + r mod 64)) EmptyString)).

Definition simple_escape (c : ascii) : option ascii :=
  if (c =? "b")%char then Some "008"%char
  else if (c =? "f")%char then Some "012"%char
  else if (c =? "n")%char then Some "010"%char
  else if (c =? "r")%char then Some "013"%char
  else if (c =? "t")%char then Some "009"%char
  else if (c =? quote)%char || (c =? "\")%char || (c =? "/")%char then Some c
  else None.

(** The string up to the closing quote, and the text after it. *)
Fixpoint json_unquote (s : string) : option (string * string) :=
  match s with
  | EmptyString => None
  | String c s1 =>
      if (c =? quote)%char then Some (EmptyString, s1)
      else if (c =? "\")%char then
        match s1 with
        | String e s2 =>
            if (e =? "u")%char then
              match s2 with
              | String h1 (String h2 (String h3 (String h4 s3))) =>
                  match hex_val h1, hex_val h2, hex_val h3, hex_val h4 with
                  | Some a, Some b, Some c, Some d =>
                      match json_unquote s3 with
                      | Some (t, r) => Some ((utf8_encode (4096 * a + 256 * b + 16 * c + d) ++ t)%string, r)
                      | None => None
                      end
                  | _, _, _, _ => None
                  end
              | _ => None
              end
            else match simple_escape e, json_unquote s2 with
                 | Some b, Some (t, r) => Some (String b t, r)
                 | _, _ => None
                 end
        | EmptyString => None
        end
      else match json_unquote s1 with
           | Some (t, r) => Some (String c t, r)
           | None => None
           end
  end.

(** [s] with every byte outside well-formed UTF-8 replaced by U+FFFD. *)
Fixpoint to_valid (s : string) : string :=
  match s with
  | EmptyString => EmptyString
  | String c s1 =>
      if byte_val c <? 128 then String c (to_valid s1)
      else
        match rune_size c s1, s1 with
        | 2%nat, String c1 s2 => String c (String c1 (to_valid s2))
        | 3%nat, String c1 (String c2 s3) => String c (String c1 (String c2 (to_valid s3)))
        | 4%nat, String c1 (String c2 (String c3 s4)) => String c (String c1 (String c2 (String c3 (to_valid s4))))
        | _, _ => (utf8_encode 65533 ++ to_valid s1)%string
        end
  end.

(** A string of well-formed UTF-8. *)
Definition valid_utf8 (s : string) : Prop := to_valid s = s.

#[global] Instance valid_utf8_dec s : Decision (valid_utf8 s).
Proof. unfold valid_utf8. apply _. Defined.

Definition push (p : string) (r : option (string * string)) : option (string * string) :=
  match r with Some (t, rest) => Some ((p ++ t)%string, rest) | None => None end.

Lemma unquote_escape_ascii c t : (byte_val c <? 128) = true →
  json_unquote (escape_ascii c ++ t)%string = push (String c EmptyString) (json_unquote t).
Proof. destruct c as [[] [] [] [] [] [] [] []]; try done; intros _; by destruct (json_unquote t) as [[]|]. Qed.

Lemma unquote_high c t : high c → json_unquote (String c t) = push (String c EmptyString) (json_unquote t).
Proof. destruct c as [[] [] [] [] [] [] [] []]; try done; intros _; by destruct (json_unquote t) as [[]|]. Qed.

Lemma unquote_separator c c1 c2 t : line_separator c c1 c2 = true →
  json_unquote ("\u202" ++ String (lower_hex (byte_val c2 mod 16)) t)%string =
  push (String c (String c1 (String c2 EmptyString))) (json_unquote t).
Proof.
  unfold line_separator, byte_between. intros Hl.
  apply andb_prop in Hl as [[H H1]%andb_prop [Hlo Hhi]%andb_prop].
  rewrite <- (chr_val c), <- (chr_val c1), <- (chr_val c2).
  replace (byte_val c) with 226 by lia. replace (byte_val c1) with 128 by lia.
  assert (byte_val c2 = 168 ∨ byte_val c2 = 169) as [->| ->] by lia; cbn;
    rewrite !append_String, append_Empty; simpl; by destruct (json_unquote t) as [[]|].
Qed.

Lemma push_push a b r : push a (push b r) = push (a ++ b)%string r.
Proof. destruct r as [[t rest]|]; [|done]. cbn. by rewrite append_assoc. Qed.

Lemma unquote_replacement t :
  json_unquote ("\ufffd" ++ t)%string = push (utf8_encode 65533) (json_unquote t).
Proof. rewrite !append_String, append_Empty. simpl. by destruct (json_unquote t) as [[]|]. Qed.

(** The encoder and the repair take the same steps. *)
Lemma json_escape_step s :
  s = EmptyString ∨
  ∃ out p rest, json_escape s = (out ++ json_escape rest)%string ∧ to_valid s = (p ++ to_valid rest)%string ∧
    (String.length rest < String.length s)%nat ∧
    ∀ t, json_unquote (out ++ t)%string = push p (json_unquote t).
Proof.
  destruct s as [|c s1]; [by left|]. right. cbn [json_escape to_valid].
  destruct (byte_val c <? 128) eqn:Hc.
  { exists (escape_ascii c), (String c EmptyString), s1.
    split_and!; [done|done|cbn; lia|intros; by apply unquote_escape_ascii]. }
  assert (Hrep : ∃ out p rest, ("\ufffd" ++ json_escape s1)%string = (out ++ json_escape rest)%string ∧
    (utf8_encode 65533 ++ to_valid s1)%string = (p ++ to_valid rest)%string ∧
    (String.length rest < String.length (String c s1))%nat ∧
    ∀ t, json_unquote (out ++ t)%string = push p (json_unquote t)).
  { exists "\ufffd"%string, (utf8_encode 65533), s1. split_and!; [done|done|cbn; lia|apply unquote_replacement]. }
  pose proof (rune_size_high c s1) as Hh.
  destruct (rune_size c s1) as [|[|[|[|[|n]]]]]; try apply Hrep.
  - destruct s1 as [|c1 s2]; [apply Hrep|].
    exists (String c (String c1 EmptyString)), (String c (String c1 EmptyString)), s2.
    split_and!; [done|done|cbn; lia|]. intros t. rewrite !append_String, append_Empty.
    by rewrite !unquote_high, push_push.
  - destruct s1 as [|c1 [|c2 s3]]; [apply Hrep..|]. destruct Hh as [Hh1 Hh2].
    destruct (line_separator c c1 c2) eqn:Hl.
    + exists ("\u202" ++ String (lower_hex (byte_val c2 mod 16)) EmptyString)%string,
        (String c (String c1 (String c2 EmptyString))), s3.
      split_and!; [done|done|cbn; lia|]. intros t. by rewrite append_assoc, <- unquote_separator.
    + exists (String c (String c1 (String c2 EmptyString))), (String c (String c1 (String c2 EmptyString))), s3.
      split_and!; [done|done|cbn; lia|]. intros t. rewrite !append_String, append_Empty.
      by rewrite !unquote_high, !push_push.
  - destruct s1 as [|c1 [|c2 [|c3 s4]]]; [apply Hrep..|]. destruct Hh as (?&?&?).
    exists (String c (String c1 (String c2 (String c3 EmptyString)))),
      (String c (String c1 (String c2 (String c3 EmptyString)))), s4.
    split_and!; [done|done|cbn; lia|]. intros t. rewrite !append_String, append_Empty.
    by rewrite !unquote_high, !push_push.
Qed.

Lemma json_unquote_escape s rest :
  json_unquote (json_escape s ++ String quote rest)%string = Some (to_valid s, rest).
Proof.
  remember (String.length s) as n eqn:Hn. revert s Hn. induction (lt_wf n) as [n _ IH]. intros s ->.
  destruct (json_escape_step s) as [->|(out & p & tl & -> & -> & Hlt & Hout)]; [done|].
  rewrite append_assoc, Hout, (IH _ Hlt tl eq_refl). done.
Qed.

(** Two texts that start with an encoded string agree on the string, up to repair,
    and on what follows. *)
Lemma json_string_split a b ra rb :
  (json_string a ++ ra)%string = (json_string b ++ rb)%string → to_valid a = to_valid b ∧ ra = rb.
Proof.
  unfold json_string. rewrite !append_String, !append_assoc, !append_String, !append_Empty.
  intros [= H]. apply (f_equal json_unquote) in H. rewrite !json_unquote_escape in H. by injection H.
Qed.

(** Fields of ASCII text are read back as they are. *)
Fixpoint ascii_text (s : string) : bool :=
  match s with EmptyString => true | String c s => (byte_val c <? 128) && ascii_text s end.

Lemma ascii_valid s : ascii_text s = true → valid_utf8 s.
Proof.
  induction s as [|c s IH]; [done|]. unfold valid_utf8 in *. cbn. intros [Hc Hs]%andb_prop.
  by rewrite Hc, IH.
Qed.

(** ** Integers *)

Definition int_char (c : ascii) : bool := is_digit c || (c =? "-")%char.

Fixpoint int_text (s : string) : bool :=
  match s with EmptyString => true | String c s => int_char c && int_text s end.

Lemma int_text_app a b : int_text (a ++ b)%string = int_text a && int_text b.
Proof. induction a as [|c a IH]; [done|]. rewrite append_String. cbn. by rewrite IH, andb_assoc. Qed.

Lemma pretty_N_char_int d : (d < 10)%N → int_char (pretty_N_char d) = true.
Proof.
  intros Hd. assert (d = 0 ∨ d = 1 ∨ d = 2 ∨ d = 3 ∨ d = 4 ∨ d = 5 ∨ d = 6 ∨ d = 7 ∨ d = 8 ∨ d = 9)%N as Hc by lia.
  by repeat destruct Hc as [->|Hc]; [..|subst].
Qed.

Lemma pretty_N_go_int x s : int_text s = true → int_text (pretty_N_go x s) = true.
Proof.
  revert s. induction (N.lt_wf_0 x) as [x _ IH]. intros s Hs.
  destruct (decide (x = 0%N)) as [->|Hx]; [by rewrite pretty_N_go_0|].
  rewrite pretty_N_go_step by lia. apply IH; [apply N.div_lt; lia|]. cbn.
  rewrite pretty_N_char_int; [done|]. apply N.mod_lt. lia.
Qed.

Lemma pretty_Z_int (z : Z) : int_text (pretty z) = true.
Proof.
  assert (HN : ∀ n : N, int_text (pretty n) = true).
  { intros n. unfold pretty, pretty_N. case_decide; [done|]. by apply pretty_N_go_int. }
  destruct z; [done|apply HN|]. unfold pretty, pretty_Z. rewrite int_text_app. cbn. apply HN.
Qed.

(** An integer is read up to the first character of another kind. *)
Lemma int_split a b ra rb ca cb :
  int_char ca = false → int_char cb = false →
  (pretty (a : Z) ++ String ca ra)%string = (pretty (b : Z) ++ String cb rb)%string →
  a = b ∧ String ca ra = String cb rb.
Proof.
  intros Hca Hcb. assert (H : ∀ x y, int_text x = true → int_text y = true →
    (x ++ String ca ra)%string = (y ++ String cb rb)%string → x = y ∧ String ca ra = String cb rb).
  { induction x as [|c x IH]; intros [|d y]; rewrite ?append_String, ?append_Empty; cbn.
    - done.
    - intros _ [Hd _]%andb_prop [= -> _]. congruence.
    - intros [Hc _]%andb_prop _ [= <- _]. congruence.
    - intros [_ Hx]%andb_prop [_ Hy]%andb_prop [= -> Heq]. apply IH in Heq as [-> ?]; done. }
  intros Heq. apply H in Heq as [Heq ?]; [|apply pretty_Z_int..]. split; [|done]. by apply (inj pretty).
Qed.

(** [strconv.ParseInt(s, 10, 64)]; [None] is an error (syntax or range). *)
Fixpoint parse_digits (acc : Z) (s : string) : option Z :=
  match s with
  | EmptyString => Some acc
  | String c s' => if is_digit c then parse_digits (acc * 10 + (byte_val c - 48)) s' else None
  end.

Definition digits_of (s : string) : option Z :=
  match s with EmptyString => None | _ => parse_digits 0 s end.

Definition ParseInt (s : string) : option Z :=
  n ← match s with
      | String "+" s' => digits_of s'
      | String "-" s' => Z.opp <$> digits_of s'
      | _ => digits_of s
      end;
  if (MinInt64 <=? n) && (n <=? MaxInt64) then Some n else None.

Lemma digit_char_val d : (d < 10)%N → is_digit (pretty_N_char d) = true ∧ byte_val (pretty_N_char d) - 48 = Z.of_N d.
Proof.
  intros Hd. assert (d = 0 ∨ d = 1 ∨ d = 2 ∨ d = 3 ∨ d = 4 ∨ d = 5 ∨ d = 6 ∨ d = 7 ∨ d = 8 ∨ d = 9)%N as Hc by lia.
  by repeat destruct Hc as [->|Hc]; [..|subst].
Qed.

Lemma parse_digits_pretty x s : parse_digits 0 (pretty_N_go x s) = parse_digits (Z.of_N x) s.
Proof.
  revert s. induction (N.lt_wf_0 x) as [x _ IH]. intros s.
  destruct (decide (x = 0%N)) as [->|Hx]; [by rewrite pretty_N_go_0|].
  rewrite pretty_N_go_step by lia. rewrite IH by (apply N.div_lt; lia). cbn [parse_digits].
  destruct (digit_char_val (x `mod` 10)) as [-> ->]; [apply N.mod_lt; lia|]. f_equal.
  rewrite N2Z.inj_div, N2Z.inj_mod. pose proof (Z_div_mod_eq_full (Z.of_N x) (Z.of_N 10)). lia.
Qed.

(** What [pretty] prints for a positive number: digits only, not empty. *)
Lemma pretty_N_go_digits x s :
  (x ≠ 0)%N → ∃ c s', pretty_N_go x s = String c s' ∧ is_digit c = true.
Proof.
  revert s. induction (N.lt_wf_0 x) as [x _ IH]. intros s Hx. rewrite pretty_N_go_step by lia.
  destruct (decide (x / 10 = 0)%N) as [->|Hd].
  - rewrite pretty_N_go_0. do 2 eexists. split; [done|]. apply digit_char_val, N.mod_lt. lia.
  - apply IH; [apply N.div_lt; lia|done].
Qed.

Lemma digits_of_pretty p : digits_of (pretty (N.pos p)) = Some (Z.pos p) ∧ ∃ c s, pretty (N.pos p) = String c s ∧ is_digit c = true.
Proof.
  unfold pretty, pretty_N. rewrite decide_False by done.
  destruct (pretty_N_go_digits (N.pos p) "") as (c&s'&Hs&Hc); [done|].
  assert (Hp : parse_digits 0 (pretty_N_go (N.pos p) "") = Some (Z.pos p)) by (by rewrite parse_digits_pretty).
  rewrite Hs in *. split; [done|]. by exists c, s'.
Qed.

(** What [FormatInt] prints, [ParseInt] reads. *)
Lemma ParseInt_pretty z : int64_range z → ParseInt (pretty z) = Some z.
Proof.
  intros Hz. unfold int64_range in Hz. assert (Hr : (MinInt64 <=? z) && (z <=? MaxInt64) = true)
    by (apply andb_true_intro; split; apply Z.leb_le; lia).
  destruct z as [|p|p]; [done|..].
  - destruct (digits_of_pretty p) as (Hd&c&s&Hs&Hc). change (pretty (Z.pos p)) with (pretty (N.pos p)).
    assert (ParseInt (pretty (N.pos p)) =
      (n ← digits_of (pretty (N.pos p)); if (MinInt64 <=? n) && (n <=? MaxInt64) then Some n else None)) as ->.
    { rewrite Hs. destruct c as [[] [] [] [] [] [] [] []]; done. }
    rewrite Hd. cbn [mbind option_bind]. by rewrite Hr.
  - destruct (digits_of_pretty p) as (Hd&_). change (pretty (Z.neg p)) with (String "-" (pretty (N.pos p))).
    transitivity (if (MinInt64 <=? Z.neg p) && (Z.neg p <=? MaxInt64) then Some (Z.neg p) else None); [|by rewrite Hr].
    unfold ParseInt. by rewrite Hd.
Qed.

(** ** Byte slices: base64 with the standard alphabet and padding *)

Definition to_std (c : ascii) : ascii :=
  if (c =? "-")%char then "+"%char else if (c =? "_")%char then "/"%char else c.

Fixpoint std_alphabet (s : string) : string :=
  match s with EmptyString => EmptyString | String c s => String (to_std c) (std_alphabet s) end.

Definition std_padding (n : nat) : string :=
  match (n mod 4)%nat with 2%nat => "==" | 3%nat => "=" | _ => EmptyString end.

(** [base64.StdEncoding.EncodeToString]. *)
Definition b64_std (s : bytes) : string :=
  let t := b64_encode s in (std_alphabet t ++ std_padding (String.length t))%string.

(** [json.Marshal] of a byte slice; nil is [null]. *)
Definition json_bytes (b : option bytes) : string :=
  match b with
  | None => "null"
  | Some b => String quote (b64_std b ++ String quote EmptyString)%string
  end.

Definition from_std (c : ascii) : ascii :=
  if (c =? "+")%char then "-"%char else if (c =? "/")%char then "_"%char else c.

Fixpoint url_alphabet (s : string) : string :=
  match s with
  | EmptyString => EmptyString
  | String c s => if (c =? "=")%char then url_alphabet s else String (from_std c) (url_alphabet s)
  end.

Lemma url_alphabet_std t n : b64_plain t → url_alphabet (std_alphabet t ++ std_padding n)%string = t.
Proof.
  induction t as [|c t IH].
  - intros _. cbn [std_alphabet]. rewrite append_Empty. unfold std_padding. by destruct (n mod 4)%nat as [|[|[|[|]]]].
  - intros [[v Hc] Ht]. cbn [std_alphabet]. rewrite append_String. cbn [url_alphabet]. rewrite IH by done.
    apply b64_val_Some in Hc as [Hv ->].
    assert (H : (to_std (b64_char v) =? "=")%char = false ∧ from_std (to_std (b64_char v)) = b64_char v).
    { revert v Hv. apply (sextet_ind (λ v, (to_std (b64_char v) =? "=")%char = false ∧
        from_std (to_std (b64_char v)) = b64_char v)). vm_compute. reflexivity. }
    by destruct H as [-> ->].
Qed.

#[global] Instance b64_std_inj : Inj (=) (=) b64_std.
Proof.
  intros a b H. apply (f_equal url_alphabet) in H. unfold b64_std in H.
  rewrite !url_alphabet_std in H by apply b64_encode_plain.
  apply (f_equal b64_decode) in H. rewrite !b64_decode_encode in H. by injection H.
Qed.

Lemma append_inj_r a b (t : string) : (a ++ t)%string = (b ++ t)%string → a = b.
Proof.
  revert b. induction a as [|c a IH]; intros [|d b]; rewrite ?append_String, ?append_Empty; [done|..].
  - intros H. apply (f_equal String.length) in H. cbn in H. rewrite length_append in H. lia.
  - intros H. apply (f_equal String.length) in H. cbn in H. rewrite length_append in H. lia.
  - intros [= -> H]. f_equal. by apply IH.
Qed.

#[global] Instance json_bytes_inj : Inj (=) (=) json_bytes.
Proof.
  intros [a|] [b|]; cbn [json_bytes]; [|done..]. intros [= H]. f_equal.
  by apply append_inj_r in H as ->%(inj b64_std).
Qed.

Lemma hex_val_range c v : hex_val c = Some v → 0 ≤ v < 16.
Proof. destruct c as [[] [] [] [] [] [] [] []]; intros H; vm_compute in H; try discriminate; injection H as <-; lia. Qed.
