(* ===== verification/AuditLedger.v ===== *)
(** * runtime/audit/ledger: the hash-chained audit ledger

    The protocol ([protocol.go]), the in-memory store ([mem_store.go]) with its
    cross-tenant and chain-verifying readers ([mem_cross_tenant_store.go],
    [mem_chain_verify_store.go]) and the fan-out reader ([multi_store.go]).
    HMAC-SHA256, SHA-256 and the parser of times come with [codec_env];
    [uuid.Parse] and the range check of JSON numbers are arguments.  The order in
    which Go ranges over the map of chains is the argument [visit]. *)

From Stdlib Require Import Ascii String.
From S2P Require Import Prelude GoJson IdUtil Base64 JsonText RefreshStore Query Tenant.

Definition ErrAuditLedgerNotFound : string := "ERR_AUDIT_LEDGER_NOT_FOUND".
Definition ErrAuditLedgerAlreadyExists : string := "ERR_AUDIT_LEDGER_ALREADY_EXISTS".

(** ** entry.go, store.go *)

(** [Payload] keeps nil apart from empty: they marshal differently. *)
Record Entry := MkEntry {
  SeqNo : Z;
  ID : string;
  EventID : string;
  EventType : string;
  ActorID : string;
  SubjectID : string;
  e_TenantID : string;
  SessionID : string;
  CorrelationID : string;
  TraceID : string;
  OccurredAt : Time;
  Timestamp : Time;
  Payload : option bytes;
  PrevHash : string;
  Hash : string;
}.

#[global] Instance Entry_eq_dec : EqDecision Entry.
Proof. solve_decision. Defined.

Record TailSnapshot := MkTail { t_SeqNo : Z; t_PrevHash : string; EntryCount : Z }.

Record AuditFilters := MkFilters {
  f_EventType : string;
  f_ActorID : string;
  f_SubjectID : string;
  f_TraceID : string;
  f_From : Time;
  f_To : Time;
}.

Definition RowScopeAllUnsupportedError : goerror :=
  Errcode KindNotImplemented ErrInternal "audit ledger: RowScopeAll is not supported on this read path".

Definition ValidateQueryTenant (uuid_Parse : string → option string) (t : TenantID) : outcome unit :=
  if t ==s EmptyString then Ok tt else TenantID_Validate uuid_Parse t.

Definition ValidateQueryFilters (f : AuditFilters) : outcome unit :=
  if negb (is_ok (validateSafeIDString (f_ActorID f)))
  then Err (invalid "invalid query filter: actorId format")
  else if negb (is_ok (validateSafeIDString (f_SubjectID f)))
  then Err (invalid "invalid query filter: subjectId format")
  else if negb (is_ok (validateSafeIDString (f_TraceID f)))
  then Err (invalid "invalid query filter: traceId format")
  else if byte_len (f_EventType f) >? MaxMetadataIDLen
  then Err (invalid "invalid query filter: eventType too long")
  else Ok tt.

Definition QuerySort : list SortColumn := [MkColumn "timestamp" SortDESC; MkColumn "id" SortASC].

(** ** protocol.go *)

Definition minHMACKeyBytes : Z := 32.
Definition maxNamespaceIDLen : Z := 48.

Fixpoint namespace_bytes (s : string) : bool :=
  match s with
  | EmptyString => true
  | String c s =>
      if negb (c =? "_")%char && ((byte_val c <? byte_val "a") || (byte_val c >? byte_val "z"))
      then false else namespace_bytes s
  end.

Definition NamespaceID_Validate (s : string) : outcome unit :=
  if s ==s EmptyString then Err (invalid "audit ledger: namespace ID must not be empty")
  else if byte_len s >? maxNamespaceIDLen
  then Err (invalid "audit ledger: namespace ID exceeds maximum length")
  else if negb (namespace_bytes s) then Err (invalid "audit ledger: namespace ID must contain only [a-z_]")
  else Ok tt.

Definition ParseNamespaceID (s : string) : outcome string := _ ← NamespaceID_Validate s; Ok s.

(** The two sealed modes have one implementation each, so a mode is whether it is
    set. *)
Record Protocol := MkProtocol {
  hmacKey : bytes;
  namespace : string;
  restartRecovery : bool;
  idempotency : bool;
}.

(** An [Option]: nil, or one of the two constructors with a mode that may be nil. *)
Inductive Option : Type :=
  | NilOption
  | WithRestartRecovery (set : bool)
  | WithIdempotency (set : bool).

Definition apply_option (p : Protocol) (o : Option) : outcome Protocol :=
  match o with
  | NilOption => Ok p
  | WithRestartRecovery false =>
      Err (invalid "audit ledger: restart recovery mode must not be nil (use WithRestartRecovery)")
  | WithRestartRecovery true => Ok (MkProtocol (hmacKey p) (namespace p) true (idempotency p))
  | WithIdempotency false => Err (invalid "audit ledger: idempotency mode must not be nil (use WithIdempotency)")
  | WithIdempotency true => Ok (MkProtocol (hmacKey p) (namespace p) (restartRecovery p) true)
  end.

Fixpoint apply_options (p : Protocol) (opts : list Option) : outcome Protocol :=
  match opts with [] => Ok p | o :: opts => p ← apply_option p o; apply_options p opts end.

(** [clear(key)]. *)
Fixpoint cleared (key : bytes) : bytes :=
  match key with EmptyString => EmptyString | String _ key => String "000" (cleared key) end.

(** With the caller's key slice afterwards. *)
Definition NewProtocol (ns : string) (key : bytes) (opts : list Option) : outcome Protocol * bytes :=
  if ns ==s EmptyString then (Err (invalid "audit ledger protocol: namespace must not be empty"), key)
  else
    match NamespaceID_Validate ns with
    | Err e => (Err e, key)
    | Ok _ =>
        if byte_len key =? 0
        then (Err (invalid "audit ledger protocol: HMAC key must not be nil or empty (key >= 32 bytes)"), key)
        else if byte_len key <? minHMACKeyBytes
        then (Err (invalid "audit ledger protocol: HMAC key too short (RFC 2104 §3, NIST SP 800-107)"), key)
        else
          (p ← apply_options (MkProtocol key ns false false) opts;
           if negb (restartRecovery p)
           then Err (invalid "audit ledger protocol: restart recovery mode required (use WithRestartRecovery)")
           else if negb (idempotency p)
           then Err (invalid "audit ledger protocol: idempotency mode required (use WithIdempotency)")
           else Ok p,
           cleared key)
    end.

(** [json.Marshal] of [auditHashInput]: the fields in declaration order. *)
Definition str_field (name value : string) : string := (json_string name ++ ":" ++ json_string value ++ ",")%string.
Definition int_field (name : string) (value : Z) : string := (json_string name ++ ":" ++ pretty value ++ ",")%string.

Definition auditHashInput (p : Protocol) (prevHash : string) (e : Entry) : bytes :=
  ("{" ++ str_field "namespace" (namespace p)
   ++ str_field "prev_hash" prevHash
   ++ str_field "event_id" (EventID e)
   ++ str_field "event_type" (EventType e)
   ++ str_field "actor_id" (ActorID e)
   ++ str_field "subject_id" (SubjectID e)
   ++ str_field "tenant_id" (e_TenantID e)
   ++ str_field "session_id" (SessionID e)
   ++ str_field "correlation_id" (CorrelationID e)
   ++ int_field "occurred_at_unix_nano" (UnixNano (OccurredAt e))
   ++ int_field "timestamp_unix_nano" (UnixNano (Timestamp e))
   ++ json_string "payload" ++ ":" ++ json_bytes (Payload e) ++ "}")%string.

Definition ComputeHash (E : codec_env) (p : Protocol) (prevHash : string) (e : Entry) : string :=
  hex_encode (hmac_sha256 E (hmacKey p) (auditHashInput p prevHash e)).

(** ** mem_store.go *)

Record memChain := MkChain { entries : list Entry; fingerprints : gset string }.
Definition empty_chain : memChain := MkChain [] ∅.

Record MemStore := MkStore { protocol : Protocol; chains : gmap string memChain }.

(** [protocol] and [clk] may be nil. *)
Definition NewMemStore (protocol : option Protocol) (clk : bool) : outcome MemStore :=
  match protocol with
  | None => Err (invalid "audit ledger: NewMemStore requires non-nil Protocol")
  | Some p => if negb clk then Err (invalid "audit ledger: NewMemStore requires non-nil Clock")
              else Ok (MkStore p ∅)
  end.

(** [scope] is [tenant.ScopeFromContext(ctx)]. *)
Definition tenantScopeOrSystem (scope : option TenantID) : string := default EmptyString scope.

Definition chainFor (m : MemStore) (t : string) : memChain := default empty_chain (chains m !! t).

(** [Decoder.Decode] reads one value and does not look at what follows it. *)
Definition value_done (s : scanner) : bool :=
  match scan_byte " " s with Some s' => endTop s' | None => false end.

Fixpoint read_value (b : bytes) (s : scanner) : bool :=
  match b with
  | EmptyString => value_done s
  | String c b =>
      match scan_byte c s with
      | Some s' => if endTop s' then true else read_value b s'
      | None => value_done s
      end
  end.

Fixpoint first_byte (b : bytes) : option ascii :=
  match b with
  | EmptyString => None
  | String c b => if is_json_space c then first_byte b else Some c
  end.

(** Into a [map[string]any]: an object or null, its numbers in range. *)
Definition decodes_map (numbers_ok : bytes → bool) (b : bytes) : bool :=
  read_value b (Scanner stateBeginValue [] false) &&
  match first_byte b with Some c => (c =? "{")%char || (c =? "n")%char | None => false end &&
  numbers_ok b.

Definition validatePayloadJSON (numbers_ok : bytes → bool) (payload : option bytes) : outcome unit :=
  let b := default EmptyString payload in
  if byte_len b =? 0 then Ok tt
  else if negb (decodes_map numbers_ok b) then Err (invalid "audit ledger: payload must be a JSON object or null")
  else Ok tt.

Definition contentFingerprint (E : codec_env) (e : Entry) : string := hex_encode (sha256 E (EventID e)).

(** The first 16 of the digest's 32 bytes. *)
Definition deterministicEntryID (E : codec_env) (namespace tenantID eventID : string) : string :=
  hex_encode (String.substring 0 16
    (sha256 E (namespace ++ String "000" (tenantID ++ String "000" eventID)))).

Definition last_hash (l : list Entry) : string :=
  match last l with Some e => Hash e | None => EmptyString end.

Definition sealed (e : Entry) (id : string) (seq : Z) (prev hash : string) : Entry :=
  MkEntry seq id (EventID e) (EventType e) (ActorID e) (SubjectID e) (e_TenantID e) (SessionID e)
    (CorrelationID e) (TraceID e) (OccurredAt e) (Timestamp e) (Payload e) prev hash.

(** The caller's entry, with the fields the store writes back. *)
Definition Append (E : codec_env) (numbers_ok : bytes → bool) (m : MemStore) (e : option Entry)
  : outcome Entry * MemStore :=
  match e with
  | None => (Err (invalid "audit ledger: Append requires non-nil Entry"), m)
  | Some e =>
      match validatePayloadJSON numbers_ok (Payload e) with
      | Err err => (Err err, m)
      | Ok _ =>
          let fp := contentFingerprint E e in
          let chain := chainFor m (e_TenantID e) in
          if bool_decide (fp ∈ fingerprints chain)
          then (Err (Errcode KindConflict ErrAuditLedgerAlreadyExists
                       "audit ledger: duplicate content fingerprint"),
                MkStore (protocol m) (<[e_TenantID e := chain]> (chains m)))
          else
            let prevHash := last_hash (entries chain) in
            let id := deterministicEntryID E (namespace (protocol m)) (e_TenantID e) (EventID e) in
            let seq := wrap64 (Z.of_nat (length (entries chain)) + 1) in
            let stored := sealed e id seq prevHash (ComputeHash E (protocol m) prevHash e) in
            (Ok stored,
             MkStore (protocol m)
               (<[e_TenantID e := MkChain (entries chain ++ [stored]) (fingerprints chain ∪ {[fp]})]> (chains m)))
      end
  end.

Definition Tail (m : MemStore) (scope : option TenantID) : TailSnapshot :=
  match chains m !! tenantScopeOrSystem scope with
  | None => MkTail 0 EmptyString 0
  | Some chain =>
      match last (entries chain) with
      | None => MkTail 0 EmptyString 0
      | Some e => MkTail (SeqNo e) (Hash e) (Z.of_nat (length (entries chain)))
      end
  end.

Definition notFound : goerror := Errcode KindNotFound ErrAuditLedgerNotFound "audit ledger: entry not found".

Definition GetBySeq (m : MemStore) (scope : option TenantID) (vis : RowVisibility) (seq : Z) : outcome Entry :=
  _ ← Validate vis;
  if Tenant.scope vis =? RowScopeAll then Err RowScopeAllUnsupportedError
  else
    match chains m !! tenantScopeOrSystem scope with
    | None => Err notFound
    | Some chain =>
        if (seq <? 1) || (seq >? Z.of_nat (length (entries chain))) then Err notFound
        else match entries chain !! Z.to_nat (seq - 1) with
             | None => Err notFound
             | Some e => if negb (Allows vis (ActorID e)) then Err notFound else Ok e
             end
    end.

Definition tenantMatches (entryTenant queryTenant : string) : bool :=
  (entryTenant ==s queryTenant) || (entryTenant ==s EmptyString).

Definition matchesFilters (e : Entry) (f : AuditFilters) : bool :=
  if negb (f_EventType f ==s EmptyString) && negb (EventType e ==s f_EventType f) then false
  else if negb (f_ActorID f ==s EmptyString) && negb (ActorID e ==s f_ActorID f) then false
  else if negb (f_SubjectID f ==s EmptyString) && negb (SubjectID e ==s f_SubjectID f) then false
  else if negb (f_TraceID f ==s EmptyString) && negb (TraceID e ==s f_TraceID f) then false
  else if negb (IsZero (f_From f)) && Before (Timestamp e) (f_From f) then false
  else if negb (IsZero (f_To f)) && After (Timestamp e) (f_To f) then false
  else true.

Definition compareEntryField (a b : Entry) (field : string) : comparison :=
  if field ==s "timestamp" then Z.compare (Timestamp a) (Timestamp b)
  else if field ==s "id" then String.compare (ID a) (ID b)
  else Eq.

Definition entryFieldValue (e : Entry) (field : string) : anyval :=
  if field ==s "timestamp" then VTime (Timestamp e)
  else if field ==s "id" then VString (ID e)
  else VString EmptyString.

(** [for seq := fromSeq; seq <= toSeq; seq++]: [valid], [firstInvalidSeq], [err];
    [fuel] counts the iterations left. *)
Fixpoint verify_from (E : codec_env) (proto : Protocol) (l : list Entry) (seq : Z) (fuel : nat)
  : bool * Z * option goerror :=
  match fuel with
  | O => (true, -1, None)
  | S fuel =>
      let idx := seq - 1 in
      match l !! Z.to_nat idx with
      | None => (false, seq, Some (Errcode KindNotFound ErrAuditLedgerNotFound
                                     "audit ledger: entry not found during Verify"))
      | Some e =>
          let expectedPrev := if idx >? 0 then from_option Hash EmptyString (l !! Z.to_nat (idx - 1))
                              else EmptyString in
          if negb (PrevHash e ==s expectedPrev) then (false, seq, None)
          else if negb (Hash e ==s ComputeHash E proto (PrevHash e) e) then (false, seq, None)
          else verify_from E proto l (seq + 1) fuel
      end
  end.

(** The loop stops at the first missing entry, so at most [len(entries) + 1]
    iterations are ever run. *)
Definition verifyMemChain (E : codec_env) (l : list Entry) (proto : Protocol) (fromSeq toSeq : Z)
  : bool * Z * option goerror :=
  if (fromSeq <? 1) || (toSeq <? fromSeq)
  then (false, fromSeq, Some (invalid "audit ledger: Verify requires 1 <= fromSeq <= toSeq"))
  else verify_from E proto l fromSeq (Z.to_nat (Z.min (toSeq - fromSeq + 1) (Z.of_nat (length l) + 1))).

Definition Verify (E : codec_env) (m : MemStore) (scope : option TenantID) (fromSeq toSeq : Z)
  : bool * Z * option goerror :=
  verifyMemChain E (entries (chainFor m (tenantScopeOrSystem scope))) (protocol m) fromSeq toSeq.

Section readers.
Context (E : codec_env) (uuid_Parse : string → option string).
Context (visit : list (string * memChain) → list (string * memChain)).

(** The entries of the chains selected by [keep], in the order of the ranges. *)
Definition range_entries (m : MemStore) (keep : string → bool) : list Entry :=
  filter (λ kc, keep kc.1 = true) (visit (map_to_list (chains m))) ≫= λ kc, entries kc.2.

Definition GetByID (m : MemStore) (t : TenantID) (vis : RowVisibility) (id : string) : outcome Entry :=
  _ ← ValidateQueryTenant uuid_Parse t;
  _ ← Validate vis;
  if scope vis =? RowScopeAll then Err RowScopeAllUnsupportedError
  else
    match List.find (λ e, ID e ==s id) (range_entries m (λ k, tenantMatches k t)) with
    | Some e => if negb (Allows vis (ActorID e)) then Err notFound else Ok e
    | None => Err notFound
    end.

Definition validateQueryArgs (t : TenantID) (vis : RowVisibility) (filters : AuditFilters) (params : ListParams)
  : outcome unit :=
  _ ← ValidateQueryTenant uuid_Parse t;
  _ ← ValidateQueryFilters filters;
  _ ← Validate vis;
  if scope vis =? RowScopeAll then Err RowScopeAllUnsupportedError
  else if bool_decide (length (lp_Sort params) = 0%nat)
  then Err (invalid "audit ledger: query requires a non-empty sort")
  else Ok tt.

Definition candidates (m : MemStore) (t : TenantID) (vis : RowVisibility) (filters : AuditFilters) : list Entry :=
  filter (λ e, matchesFilters e filters && Allows vis (ActorID e) = true)
    (range_entries m (λ k, tenantMatches k t)).

(** [None] is [ApplyCursor]'s panic. *)
Definition Query (m : MemStore) (t : TenantID) (vis : RowVisibility) (filters : AuditFilters) (params : ListParams)
  : option (outcome (list Entry)) :=
  match validateQueryArgs t vis filters params with
  | Err e => Some (Err e)
  | Ok _ =>
      ApplyCursor (time_Parse E) entryFieldValue
        (Sort compareEntryField (candidates m t vis filters) (lp_Sort params)) params
  end.

(** ** mem_cross_tenant_store.go *)

(** A nil store is [None]; both aggregators check alike. *)
Definition backing_stores (none nil : string) (stores : list (option MemStore)) : outcome (list MemStore) :=
  if bool_decide (length stores = 0%nat) then Err (invalid none)
  else match mapM id stores with None => Err (invalid nil) | Some l => Ok l end.

Definition NewMemCrossTenantStore : list (option MemStore) → outcome (list MemStore) :=
  backing_stores "audit ledger: NewMemCrossTenantStore requires at least one backing store"
    "audit ledger: NewMemCrossTenantStore received nil store".

(** [sort.SliceStable]: insertion keeps the order of equal elements. *)
Fixpoint insert_stable (less : Entry → Entry → bool) (x : Entry) (l : list Entry) : list Entry :=
  match l with
  | [] => [x]
  | y :: l => if less y x then y :: insert_stable less x l else x :: y :: l
  end.

Definition sort_SliceStable (less : Entry → Entry → bool) (l : list Entry) : list Entry :=
  foldr (insert_stable less) [] l.

(** multi_store.go *)
Fixpoint compareBySort (a b : Entry) (cols : list SortColumn) : comparison :=
  match cols with
  | [] => Eq
  | col :: cols =>
      match compareEntryField a b (Name col) with
      | Eq => compareBySort a b cols
      | c => if bool_decide (Direction col = SortDESC) then CompOpp c else c
      end
  end.

Definition sorted_by (cols : list SortColumn) (l : list Entry) : list Entry :=
  sort_SliceStable (λ a b, is_lt (compareBySort a b cols)) l.

Definition collectFromMemStore (m : MemStore) (filters : AuditFilters) : list Entry :=
  filter (λ e, matchesFilters e filters = true) (range_entries m (λ _, true)).

Definition collectAllEntries (stores : list MemStore) (filters : AuditFilters) : list Entry :=
  stores ≫= λ m, collectFromMemStore m filters.

Definition ErrMsgCrossTenantObligation : string :=
  "audit ledger: cross-tenant read requires a valid RowScopeAll obligation".

Definition QueryCrossTenant (stores : list MemStore) (ctv : CrossTenantVisibility) (filters : AuditFilters)
    (params : ListParams) : option (outcome (list Entry)) :=
  match CrossTenantVisibility_Validate ctv with
  | Err _ => Some (Err (Errcode KindInternal ErrInternal ErrMsgCrossTenantObligation))
  | Ok _ =>
      match ValidateQueryFilters filters with
      | Err e => Some (Err e)
      | Ok _ =>
          if bool_decide (length (lp_Sort params) = 0%nat)
          then Some (Err (invalid "audit ledger: cross-tenant query requires a non-empty sort"))
          else ApplyCursor (time_Parse E) entryFieldValue
                 (sorted_by (lp_Sort params) (collectAllEntries stores filters)) params
      end
  end.

Definition findByIDInMemStore (m : MemStore) (id : string) : option Entry :=
  List.find (λ e, ID e ==s id) (range_entries m (λ _, true)).

Fixpoint find_in_stores (stores : list MemStore) (id : string) : option Entry :=
  match stores with
  | [] => None
  | m :: stores => match findByIDInMemStore m id with Some e => Some e | None => find_in_stores stores id end
  end.

Definition GetByIDCrossTenant (stores : list MemStore) (ctv : CrossTenantVisibility) (id : string)
  : outcome Entry :=
  match CrossTenantVisibility_Validate ctv with
  | Err _ => Err (Errcode KindInternal ErrInternal ErrMsgCrossTenantObligation)
  | Ok _ => match find_in_stores stores id with Some e => Ok e | None => Err notFound end
  end.

(** ** mem_chain_verify_store.go *)

Record ChainRef := MkRef { r_Namespace : string; r_TenantID : string; MinSeq : Z; MaxSeq : Z }.

Definition NewMemChainVerifyStore : list (option MemStore) → outcome (list MemStore) :=
  backing_stores "audit ledger: NewMemChainVerifyStore requires at least one backing store"
    "audit ledger: NewMemChainVerifyStore received nil store".

Definition enumerateMemStoreChains (m : MemStore) : list ChainRef :=
  visit (map_to_list (chains m)) ≫= λ kc,
    let n := Z.of_nat (length (entries kc.2)) in
    if n =? 0 then [] else [MkRef (namespace (protocol m)) kc.1 1 n].

Definition EnumerateChains (stores : list MemStore) : list ChainRef := stores ≫= enumerateMemStoreChains.

Definition verifyMemStoreChain (m : MemStore) (tenantID : string) (fromSeq toSeq : Z) : bool * Z * option goerror :=
  verifyMemChain E (entries (chainFor m tenantID)) (protocol m) fromSeq toSeq.

Definition VerifyChain (stores : list MemStore) (ns tenantID : string) (fromSeq toSeq : Z)
  : bool * Z * option goerror :=
  match List.find (λ m, namespace (protocol m) ==s ns) stores with
  | Some m => verifyMemStoreChain m tenantID fromSeq toSeq
  | None => (false, fromSeq, Some (Errcode KindInternal ErrInternal
                                     "audit ledger: no protocol registered for chain namespace"))
  end.

(** ** multi_store.go: over [MemStore]s *)

Definition NewMultiStore (stores : list (option MemStore)) : outcome (list MemStore) :=
  if (Z.of_nat (length stores) <? 2)
  then Err (invalid "audit ledger: NewMultiStore requires at least two backing stores")
  else match mapM id stores with
       | None => Err (invalid "audit ledger: NewMultiStore received nil store")
       | Some l => Ok l
       end.

Fixpoint query_stores (stores : list MemStore) (t : TenantID) (vis : RowVisibility) (filters : AuditFilters)
    (params : ListParams) (merged : list Entry) : option (outcome (list Entry)) :=
  match stores with
  | [] => Some (Ok merged)
  | m :: stores =>
      r ← Query m t vis filters params;
      match r with
      | Err e => Some (Err (Errorf "multi-store query" e))
      | Ok page => query_stores stores t vis filters params (merged ++ page)
      end
  end.

Definition MultiStore_Query (stores : list MemStore) (t : TenantID) (vis : RowVisibility) (filters : AuditFilters)
    (params : ListParams) : option (outcome (list Entry)) :=
  match (_ ← ValidateQueryTenant uuid_Parse t; ValidateQueryFilters filters) with
  | Err e => Some (Err e)
  | Ok _ =>
      if scope vis =? RowScopeAll then Some (Err RowScopeAllUnsupportedError)
      else if bool_decide (length (lp_Sort params) = 0%nat)
      then Some (Err (invalid "audit ledger: query requires a non-empty sort"))
      else
        r ← query_stores stores t vis filters params [];
        match r with
        | Err e => Some (Err e)
        | Ok merged =>
            let merged := sorted_by (lp_Sort params) merged in
            let limit := FetchLimit params in
            if (limit >? 0) && (Z.of_nat (length merged) >? limit)
            then page ← go_slice merged 0 limit; Some (Ok page)
            else Some (Ok merged)
        end
  end.

Fixpoint get_from_stores (stores : list MemStore) (t : TenantID) (vis : RowVisibility) (id : string)
  : outcome Entry :=
  match stores with
  | [] => Err notFound
  | m :: stores =>
      match GetByID m t vis id with
      | Ok e => Ok e
      | Err err =>
          if bool_decide (error_code err = Some ErrAuditLedgerNotFound) then get_from_stores stores t vis id
          else Err (Errorf "multi-store get-by-id" err)
      end
  end.

Definition MultiStore_GetByID (stores : list MemStore) (t : TenantID) (vis : RowVisibility) (id : string)
  : outcome Entry :=
  _ ← ValidateQueryTenant uuid_Parse t;
  if scope vis =? RowScopeAll then Err RowScopeAllUnsupportedError
  else get_from_stores stores t vis id.
End readers.

(** ** The hash input is unambiguous *)

Lemma append_inj_l (t a b : string) : (t ++ a)%string = (t ++ b)%string → a = b.
Proof. induction t as [|c t IH]; [done|]. rewrite !append_String. intros [= ?]. by apply IH. Qed.

Lemma str_field_split n a b ra rb :
  (str_field n a ++ ra)%string = (str_field n b ++ rb)%string → to_valid a = to_valid b ∧ ra = rb.
Proof.
  unfold str_field. rewrite !append_assoc. intros H. do 2 apply append_inj_l in H.
  apply json_string_split in H as [? H]. split; [done|]. by apply append_inj_l in H.
Qed.

Lemma int_field_split n a b ra rb :
  (int_field n a ++ ra)%string = (int_field n b ++ rb)%string → a = b ∧ ra = rb.
Proof.
  unfold int_field. rewrite !append_assoc. intros H. do 2 apply append_inj_l in H.
  rewrite !append_String, !append_Empty in H. apply int_split in H as [? H]; [|done..].
  by injection H.
Qed.

(** The fields the hash covers; the sequence number, the store's id and the trace
    id are not among them. *)
Record hashed := MkHashed {
  h_namespace : string;
  h_prev : string;
  h_strings : list string;
  h_times : Z * Z;
  h_payload : option bytes;
}.

(** As the digest sees them. *)
Definition hashed_fields (p : Protocol) (prev : string) (e : Entry) : hashed :=
  MkHashed (to_valid (namespace p)) (to_valid prev)
    (to_valid <$> [EventID e; EventType e; ActorID e; SubjectID e; e_TenantID e; SessionID e; CorrelationID e])
    (UnixNano (OccurredAt e), UnixNano (Timestamp e)) (Payload e).

Ltac split_field H :=
  match type of H with
  | (str_field _ _ ++ _)%string = _ => apply str_field_split in H as [? H]
  | (int_field _ _ ++ _)%string = _ => apply int_field_split in H as [? H]
  end.

Lemma auditHashInput_inj p p' prev prev' e e' :
  auditHashInput p prev e = auditHashInput p' prev' e' → hashed_fields p prev e = hashed_fields p' prev' e'.
Proof.
  unfold auditHashInput, hashed_fields. intros H.
  apply append_inj_l in H. repeat split_field H. do 2 apply append_inj_l in H.
  apply append_inj_r in H as ->%(inj json_bytes). cbn. congruence.
Qed.

(** Well-formed fields: UTF-8 text and times [UnixNano] can express. *)
Definition time_ok (t : Time) : Prop := int64_range (t - unix_epoch).

Definition entry_ok (e : Entry) : Prop :=
  Forall valid_utf8 [EventID e; EventType e; ActorID e; SubjectID e; e_TenantID e; SessionID e; CorrelationID e] ∧
  time_ok (OccurredAt e) ∧ time_ok (Timestamp e).

(** The audited facts of an entry, without what the store assigns. *)
Definition facts (e : Entry) : Entry := sealed
  (MkEntry 0 EmptyString (EventID e) (EventType e) (ActorID e) (SubjectID e) (e_TenantID e) (SessionID e)
     (CorrelationID e) EmptyString (OccurredAt e) (Timestamp e) (Payload e) EmptyString EmptyString)
  EmptyString 0 EmptyString EmptyString.

Lemma hashed_fields_facts p prev prev' e e' :
  entry_ok e → entry_ok e' → hashed_fields p prev e = hashed_fields p prev' e' → facts e = facts e'.
Proof.
  intros (Hs & Ho & Ht) (Hs' & Ho' & Ht') [= _ H1 H2 H3 H4 H5 H6 H7 H8 H9 H10].
  unfold UnixNano in H8, H9. rewrite !wrap64_id in H8, H9 by done. unfold valid_utf8 in *.
  decompose_Forall_hyps. unfold facts, sealed. cbn. f_equal; congruence || lia.
Qed.

(** ** Chains *)

Section chain.
Context (E : codec_env) (p : Protocol).

(** The hash an entry at index [i] must point back to. *)
Definition prev_at (l : list Entry) (i : nat) : string :=
  match i with O => EmptyString | S j => from_option Hash EmptyString (l !! j) end.

Definition linked_entry (prev : string) (e : Entry) : Prop :=
  PrevHash e = prev ∧ Hash e = ComputeHash E p (PrevHash e) e.

Definition linked_at (l : list Entry) (i : nat) : Prop := ∃ e, l !! i = Some e ∧ linked_entry (prev_at l i) e.

(** The verification loop finds the first entry that is missing or not linked. *)
Lemma verify_from_spec l n seq : 1 ≤ seq →
  (verify_from E p l seq n = (true, -1, None) ∧ ∀ k, (k < n)%nat → linked_at l (Z.to_nat (seq - 1) + k)) ∨
  (∃ k err, (k < n)%nat ∧ verify_from E p l seq n = (false, seq + Z.of_nat k, err) ∧
     (∀ j, (j < k)%nat → linked_at l (Z.to_nat (seq - 1) + j)) ∧
     ¬ linked_at l (Z.to_nat (seq - 1) + k) ∧
     (err = None ↔ is_Some (l !! (Z.to_nat (seq - 1) + k)%nat))).
Proof.
  revert seq. induction n as [|n IH]; intros seq Hseq; [left; split; [done|lia]|].
  cbn [verify_from]. destruct (l !! Z.to_nat (seq - 1)) as [e|] eqn:He.
  2: { right. exists 0%nat, (Some (Errcode KindNotFound ErrAuditLedgerNotFound
         "audit ledger: entry not found during Verify")). rewrite Nat.add_0_r, Z.add_0_r, He.
       split_and!; [lia|done|lia|intros (? & ? & _); congruence|by split; [|intros []]]. }
  assert (Hprev : (if seq - 1 >? 0 then from_option Hash EmptyString (l !! Z.to_nat (seq - 1 - 1)) else EmptyString)
    = prev_at l (Z.to_nat (seq - 1))).
  { rewrite Z.gtb_ltb. destruct (Z.ltb_spec 0 (seq - 1)).
    - replace (Z.to_nat (seq - 1)) with (S (Z.to_nat (seq - 1 - 1))) by lia. done.
    - by replace (Z.to_nat (seq - 1)) with 0%nat by lia. }
  rewrite Hprev. assert (Hbad : ¬ linked_at l (Z.to_nat (seq - 1)) →
    ∃ k err, (k < S n)%nat ∧ (false, seq, None) = (false, seq + Z.of_nat k, err) ∧
     (∀ j, (j < k)%nat → linked_at l (Z.to_nat (seq - 1) + j)) ∧
     ¬ linked_at l (Z.to_nat (seq - 1) + k) ∧
     (err = (None : option goerror) ↔ is_Some (l !! (Z.to_nat (seq - 1) + k)%nat))).
  { intros Hn. exists 0%nat, None. rewrite Nat.add_0_r, Z.add_0_r, He. split_and!; [lia|done|lia|done|done]. }
  unfold str_eqb. case_bool_decide as Hp; cbn [negb].
  2: { right. apply Hbad. intros (e' & He' & [? _]). congruence. }
  case_bool_decide as Hh; cbn [negb].
  2: { right. apply Hbad. intros (e' & He' & [? ?]). congruence. }
  assert (Hl : linked_at l (Z.to_nat (seq - 1))) by (by exists e).
  assert (Hshift : ∀ k, (Z.to_nat (seq + 1 - 1) + k = Z.to_nat (seq - 1) + S k)%nat) by lia.
  assert (Hup : ∀ k, (∀ j, (j < k)%nat → linked_at l (Z.to_nat (seq + 1 - 1) + j)) →
    ∀ j, (j < S k)%nat → linked_at l (Z.to_nat (seq - 1) + j)).
  { intros k Hk [|j] Hj; [by rewrite Nat.add_0_r|]. rewrite <- Hshift. apply Hk. lia. }
  destruct (IH (seq + 1) ltac:(lia)) as [[-> Hall]|(k & err & Hk & -> & Hbefore & Hnot & Herr)].
  - left. split; [done|]. by apply Hup.
  - right. exists (S k), err. rewrite Hshift in Hnot, Herr. split_and!; [lia|f_equal; f_equal; lia|by apply Hup|done..].
Qed.

Lemma verifyMemChain_true l n :
  (0 < n)%nat → (n ≤ length l)%nat →
  verifyMemChain E l p 1 (Z.of_nat n) = (true, -1, None) ↔ ∀ i, (i < n)%nat → linked_at l i.
Proof.
  intros Hn Hl. unfold verifyMemChain.
  destruct (Z.ltb_spec (Z.of_nat n) 1); [lia|]. cbn [orb Z.ltb].
  replace (Z.to_nat (Z.min (Z.of_nat n - 1 + 1) (Z.of_nat (length l) + 1))) with n by lia.
  change (1 <? 1) with false. cbn [orb].
  destruct (verify_from_spec l n 1 ltac:(lia)) as [[-> Hall]|(k & err & Hk & -> & _ & Hnot & _)].
  - split; [intros _ i Hi; apply (Hall i Hi)|done].
  - split; [done|]. intros Hall. exfalso. apply Hnot, (Hall k Hk).
Qed.

Lemma linked_range l from to :
  (∀ i, (i < length l)%nat → linked_at l i) → 1 ≤ from → from ≤ to → to ≤ Z.of_nat (length l) →
  verifyMemChain E l p from to = (true, -1, None).
Proof.
  intros Hall Hf Hft Ht. unfold verifyMemChain.
  destruct (Z.ltb_spec from 1); [lia|]. destruct (Z.ltb_spec to from); [lia|]. cbn [orb].
  match goal with |- verify_from _ _ _ _ ?n = _ => destruct (verify_from_spec l n from Hf)
    as [[-> _]|(k & err & Hk & _ & _ & Hnot & _)] end; [done|].
  exfalso. apply Hnot, Hall. lia.
Qed.

Lemma ComputeHash_sealed prev e id seq pr h : ComputeHash E p prev (sealed e id seq pr h) = ComputeHash E p prev e.
Proof. done. Qed.

Lemma last_hash_prev l : last_hash l = prev_at l (length l).
Proof.
  unfold last_hash. destruct l as [|e l _] using rev_ind; [done|].
  rewrite last_snoc, length_app, Nat.add_comm. cbn. by rewrite list_lookup_middle.
Qed.

Lemma prev_at_snoc l e i : (i ≤ length l)%nat → prev_at (l ++ [e]) i = prev_at l i.
Proof. destruct i as [|i]; [done|]. intros Hi. cbn. by rewrite lookup_app_l by lia. Qed.

(** Sealing an entry extends a linked chain. *)
Lemma linked_snoc l e id seq :
  (∀ i, (i < length l)%nat → linked_at l i) →
  let l' := l ++ [sealed e id seq (last_hash l) (ComputeHash E p (last_hash l) e)] in
  ∀ i, (i < length l')%nat → linked_at l' i.
Proof.
  intros Hl l' i. unfold l'. rewrite length_app. cbn. intros Hi. unfold linked_at.
  rewrite prev_at_snoc by lia. destruct (decide (i < length l)%nat) as [Hlt|].
  - destruct (Hl i Hlt) as (x & Hx & Hlx). exists x. by rewrite lookup_app_l.
  - replace i with (length l) by lia. rewrite list_lookup_middle by done. eexists. split; [done|].
    split; [apply last_hash_prev|]. by rewrite ComputeHash_sealed.
Qed.
End chain.

(** ** Tampering *)

Lemma hex_encode_ascii s : ascii_text (hex_encode s) = true.
Proof.
  assert (Hd : ∀ n, 0 ≤ n < 16 → (byte_val (hex_digit n) <? 128) = true).
  { intros n Hn. assert (H : Forall (λ n, (byte_val (hex_digit n) <? 128) = true) (Z.of_nat <$> seq 0 16))
      by (repeat constructor).
    rewrite Forall_forall in H. apply H, list_elem_of_fmap. exists (Z.to_nat n). rewrite elem_of_seq. lia. }
  induction s as [|c s IH]; [done|]. pose proof (byte_val_range c) as Hc.
  cbn [hex_encode]. unfold hex_byte. rewrite !append_String, append_Empty. cbn [ascii_text]. rewrite IH.
  rewrite (Z.shiftr_div_pow2 _ 4) by lia. change 15 with (Z.ones 4). rewrite Z.land_ones by lia.
  by rewrite !Hd by (change (2 ^ 4) with 16; lia).
Qed.

Section tamper.
Context (E : codec_env) (HE : sized E) (p : Protocol).

Abbreviation message e := (auditHashInput p (PrevHash e) e).

Lemma ComputeHash_nonempty prev e : ComputeHash E p prev e ≠ EmptyString.
Proof using HE.
  intros H. apply (f_equal String.length) in H. unfold ComputeHash in H.
  rewrite hex_encode_length, (hmac_size _ HE) in H. done.
Qed.

Definition linked_chain (l : list Entry) : Prop := ∀ i, (i < length l)%nat → linked_at E p l i.

Lemma linked_lookup l i e : linked_chain l → l !! i = Some e → linked_entry E p (prev_at l i) e.
Proof.
  intros Hl He. destruct (Hl i) as (e' & He' & ?); [by eapply lookup_lt_Some|]. by simplify_eq.
Qed.

(** A back pointer is empty or a digest, so it is hashed as it is. *)
Lemma linked_prev_valid l i e : linked_chain l → l !! i = Some e → valid_utf8 (PrevHash e).
Proof.
  intros Hl He. destruct (linked_lookup _ _ _ Hl He) as [-> _]. destruct i as [|i]; [done|]. cbn.
  destruct (l !! i) as [x|] eqn:Hx; [|done]. cbn. destruct (linked_lookup _ _ _ Hl Hx) as [_ ->].
  apply ascii_valid, hex_encode_ascii.
Qed.

Lemma linked_prev_nonempty l i e : linked_chain l → l !! S i = Some e → prev_at l (S i) ≠ EmptyString.
Proof using HE.
  intros Hl He. assert (Hi : (i < length l)%nat) by (apply lookup_lt_Some in He; lia).
  destruct (lookup_lt_is_Some_2 l i Hi) as [x Hx]. cbn. rewrite Hx. cbn.
  destruct (linked_lookup _ _ _ Hl Hx) as [_ ->]. apply ComputeHash_nonempty.
Qed.

Lemma same_message_prev l l' i j e e' :
  linked_chain l → linked_chain l' → l !! i = Some e → l' !! j = Some e' → message e = message e' →
  prev_at l i = prev_at l' j ∧ Hash e = Hash e'.
Proof.
  intros Hl Hl' He He' Hm. pose proof (linked_prev_valid _ _ _ Hl He) as Hv.
  pose proof (linked_prev_valid _ _ _ Hl' He') as Hv'.
  destruct (linked_lookup _ _ _ Hl He) as [Hp Hh]. destruct (linked_lookup _ _ _ Hl' He') as [Hp' Hh'].
  split.
  - apply auditHashInput_inj in Hm. apply (f_equal h_prev) in Hm. cbn in Hm. unfold valid_utf8 in *. congruence.
  - rewrite Hh, Hh'. unfold ComputeHash. by rewrite Hm.
Qed.

(** Two entries of the chain whose distinct messages have one digest. *)
Definition collision (l : list Entry) : Prop :=
  Exists (λ a, Exists (λ b, Hash a = Hash b ∧ message a ≠ message b) l) l.

#[global] Instance collision_dec l : Decision (collision l).
Proof. unfold collision. apply _. Defined.

Lemma no_collision l i j a b :
  ¬ collision l → l !! i = Some a → l !! j = Some b → Hash a = Hash b → message a = message b.
Proof.
  intros Hc Ha Hb Hh. destruct (decide (message a = message b)) as [|Hne]; [done|]. exfalso. apply Hc.
  apply Exists_exists. exists a. split; [by eapply list_elem_of_lookup_2|].
  apply Exists_exists. exists b. split; [by eapply list_elem_of_lookup_2|done].
Qed.

(** Without collisions a message occurs at one index. *)
Lemma message_index l i j a b :
  linked_chain l → ¬ collision l → l !! i = Some a → l !! j = Some b → message a = message b → i = j.
Proof using HE.
  intros Hl Hc. revert j a b. induction i as [|i IH]; intros [|j] a b Ha Hb Hm; [done|..];
    destruct (same_message_prev _ _ _ _ _ _ Hl Hl Ha Hb Hm) as [Hp _].
  - by apply linked_prev_nonempty in Hb.
  - by apply linked_prev_nonempty in Ha.
  - f_equal. assert (Hi : (i < length l)%nat) by (apply lookup_lt_Some in Ha; lia).
    assert (Hj : (j < length l)%nat) by (apply lookup_lt_Some in Hb; lia).
    destruct (lookup_lt_is_Some_2 l i Hi) as [x Hx], (lookup_lt_is_Some_2 l j Hj) as [y Hy].
    cbn in Hp. rewrite Hx, Hy in Hp. eapply (IH j x y); [done|done|]. by eapply no_collision.
Qed.

(** A verified chain made of signed messages repeats the signed chain. *)
Lemma replay_prefix l l' :
  linked_chain l → linked_chain l' → ¬ collision l →
  Forall (λ e', Exists (λ e, message e' = message e) l) l' →
  ∀ i e', l' !! i = Some e' → ∃ e, l !! i = Some e ∧ message e' = message e.
Proof using HE.
  intros Hl Hl' Hc Hsig. induction i as [|i IH]; intros e' He';
    pose proof (proj1 (Forall_lookup _ _) Hsig _ _ He') as (e & Hin & Hm)%Exists_exists;
    apply list_elem_of_lookup in Hin as [j Hj];
    destruct (same_message_prev _ _ _ _ _ _ Hl' Hl He' Hj Hm) as [Hp _].
  - destruct j as [|j]; [by exists e|]. symmetry in Hp. by apply linked_prev_nonempty in Hj.
  - destruct j as [|j]; [by apply linked_prev_nonempty in He'|].
    assert (Hi : (i < length l')%nat) by (apply lookup_lt_Some in He'; lia).
    destruct (lookup_lt_is_Some_2 l' i Hi) as [x' Hx']. destruct (IH x' Hx') as (x & Hx & Hmx).
    assert (Hjl : (j < length l)%nat) by (apply lookup_lt_Some in Hj; lia).
    destruct (lookup_lt_is_Some_2 l j Hjl) as [y Hy].
    destruct (same_message_prev _ _ _ _ _ _ Hl' Hl Hx' Hx Hmx) as [_ Hxx].
    cbn in Hp. rewrite Hx', Hy in Hp. cbn in Hp.
    assert (Hij : i = j).
    { eapply (message_index l); [done|done|exact Hx|exact Hy|]. eapply no_collision; [done|exact Hx|exact Hy|congruence]. }
    subst j. by exists e.
Qed.
End tamper.

(** ** Histories of appends *)

Section history.
Context (E : codec_env) (numbers_ok : bytes → bool).

Definition append_all (m : MemStore) (es : list Entry) : MemStore :=
  foldl (λ m e, (Append E numbers_ok m (Some e)).2) m es.

(** The entries of tenant [t] that are accepted when [seen] are the fingerprints
    of its chain: those with a valid payload and a fingerprint not seen before. *)
Fixpoint accepted (t : string) (seen : gset string) (es : list Entry) : list Entry :=
  match es with
  | [] => []
  | e :: es =>
      if bool_decide (e_TenantID e = t) && is_ok (validatePayloadJSON numbers_ok (Payload e)) &&
         bool_decide (contentFingerprint E e ∉ seen)
      then e :: accepted t (seen ∪ {[contentFingerprint E e]}) es
      else accepted t seen es
  end.

(** What the caller provided. *)
Definition submitted (e : Entry) : Entry := sealed e EmptyString 0 EmptyString EmptyString.

Record chain_inv (p : Protocol) (t : string) (c : memChain) : Prop := MkChainInv {
  ci_linked : linked_chain E p (entries c);
  ci_tenant : Forall (λ e, e_TenantID e = t) (entries c);
  ci_seq : ∀ i e, entries c !! i = Some e → SeqNo e = wrap64 (Z.of_nat i + 1);
  ci_id : Forall (λ e, ID e = deterministicEntryID E (namespace p) t (EventID e)) (entries c);
}.

Definition store_inv (m : MemStore) : Prop := ∀ t, chain_inv (protocol m) t (chainFor m t).

(** The chain of [t] after one append. *)
Definition extend (p : Protocol) (c : memChain) (e : Entry) : memChain :=
  MkChain (entries c ++ [sealed e (deterministicEntryID E (namespace p) (e_TenantID e) (EventID e))
      (wrap64 (Z.of_nat (length (entries c)) + 1)) (last_hash (entries c))
      (ComputeHash E p (last_hash (entries c)) e)])
    (fingerprints c ∪ {[contentFingerprint E e]}).

Lemma Append_chain m e t :
  chainFor (Append E numbers_ok m (Some e)).2 t =
  if bool_decide (e_TenantID e = t) && is_ok (validatePayloadJSON numbers_ok (Payload e)) &&
     bool_decide (contentFingerprint E e ∉ fingerprints (chainFor m t))
  then extend (protocol m) (chainFor m t) e else chainFor m t.
Proof.
  cbn [Append]. destruct (validatePayloadJSON numbers_ok (Payload e)); cbn [is_ok].
  2: { by rewrite andb_false_r. }
  rewrite andb_true_r. destruct (decide (e_TenantID e = t)) as [<-|Hne].
  - rewrite (bool_decide_true (_ = _)) by done. cbn [andb].
    destruct (decide (contentFingerprint E e ∈ fingerprints (chainFor m (e_TenantID e)))) as [Hin|Hin].
    + rewrite bool_decide_true, bool_decide_false by (done || auto). unfold chainFor. cbn. by rewrite lookup_insert_eq.
    + rewrite bool_decide_false, bool_decide_true by done. unfold chainFor. cbn. by rewrite lookup_insert_eq.
  - rewrite (bool_decide_false (_ = t)) by done. cbn [andb].
    case_bool_decide; unfold chainFor; cbn; by rewrite lookup_insert_ne.
Qed.

Lemma Append_protocol m e : protocol (Append E numbers_ok m (Some e)).2 = protocol m.
Proof. cbn. repeat case_match; done. Qed.

Lemma extend_inv p t c e : e_TenantID e = t → chain_inv p t c → chain_inv p t (extend p c e).
Proof.
  intros Ht [Hl Hten Hseq Hid]. split; unfold extend; cbn.
  - exact (linked_snoc E p (entries c) e _ _ Hl).
  - by apply Forall_snoc.
  - intros i x [Hx|[-> ->]]%list_lookup_snoc; [by apply Hseq|done].
  - apply Forall_snoc. split; [done|]. cbn. by rewrite Ht.
Qed.

Lemma ledger_Append_inv m e : store_inv m → store_inv (Append E numbers_ok m (Some e)).2.
Proof.
  intros Hm t. rewrite Append_protocol, Append_chain.
  destruct (decide (e_TenantID e = t)); [|rewrite (bool_decide_false (_ = t)) by done; apply Hm].
  case_match; [apply extend_inv; [done|]|]; apply Hm.
Qed.

Lemma empty_inv p : store_inv (MkStore p ∅).
Proof.
  intros t. unfold chainFor. cbn. rewrite lookup_empty. cbn.
  split; cbn; [intros i Hi; cbn in Hi; lia|done|done|done].
Qed.

Lemma append_all_inv m es : store_inv m →
  store_inv (append_all m es) ∧ protocol (append_all m es) = protocol m.
Proof.
  revert m. induction es as [|e es IH]; intros m Hm; [done|]. cbn.
  destruct (IH _ (ledger_Append_inv m e Hm)) as [? Hp]. by rewrite Append_protocol in Hp.
Qed.

Lemma append_all_entries m es t :
  submitted <$> entries (chainFor (append_all m es) t) =
  (submitted <$> entries (chainFor m t)) ++ (submitted <$> accepted t (fingerprints (chainFor m t)) es).
Proof.
  revert m. induction es as [|e es IH]; intros m; [by rewrite app_nil_r|].
  change (append_all m (e :: es)) with (append_all (Append E numbers_ok m (Some e)).2 es).
  rewrite IH, Append_chain. cbn [accepted]. case_match; [|done]. cbn. rewrite fmap_app, <- app_assoc. done.
Qed.
End history.

(** The ledger keeps what it accepts and can prove it.  After any sequence of
    appends to a fresh store, the chain of a tenant holds exactly the entries
    submitted for that tenant that had a valid payload and a fingerprint not seen
    before, in order and numbered from 1; and [Verify] accepts every range within
    it. *)
Theorem ledger_history E numbers_ok p es t from to :
  let m := append_all E numbers_ok (MkStore p ∅) es in
  let l := entries (chainFor m t) in
  submitted <$> l = submitted <$> accepted E numbers_ok t ∅ es ∧
  (Z.of_nat (length es) < 2 ^ 63 → ∀ i e, l !! i = Some e → SeqNo e = Z.of_nat i + 1) ∧
  (1 ≤ from → from ≤ to → to ≤ Z.of_nat (length l) → Verify E m (Some t) from to = (true, -1, None)).
Proof.
  intros m l. destruct (append_all_inv E numbers_ok (MkStore p ∅) es (empty_inv E numbers_ok p)) as [Hinv Hp].
  fold m in Hinv, Hp. destruct (Hinv t) as [Hl Hten Hseq Hid]. fold l in Hl, Hten, Hseq, Hid.
  pose proof (append_all_entries E numbers_ok (MkStore p ∅) es t) as Hent.
  unfold chainFor at 2 3 in Hent. cbn in Hent. rewrite lookup_empty in Hent. cbn in Hent. fold m l in Hent.
  split; [done|]. split.
  - intros Hn i e He. rewrite (Hseq i e He). apply wrap64_id. apply lookup_lt_Some in He.
    apply (f_equal length) in Hent. rewrite !length_fmap in Hent.
    assert (Hacc : ∀ seen, (length (accepted E numbers_ok t seen es) ≤ length es)%nat).
    { clear. induction es as [|e es IH]; intros seen; [done|]. cbn. case_match; cbn; [specialize (IH (seen ∪ {[contentFingerprint E e]}))|specialize (IH seen)]; lia. }
    specialize (Hacc ∅). unfold int64_range, MinInt64, MaxInt64. lia.
  - intros Hf Hft Ht. unfold Verify. cbn. fold l. rewrite Hp in *. by apply linked_range.
Qed.

Lemma last_lookup_length {A} (l : list A) i x : l !! i = Some x → length l = S i → last l = Some x.
Proof. intros Hx Hl. rewrite last_lookup, Hl. done. Qed.

(** A prefix that ends in the chain's last hash is the whole chain. *)
Lemma replay_whole E (HE : sized E) p l l' :
  linked_chain E p l → ¬ collision p l → l' ≠ [] →
  (∀ i e', l' !! i = Some e' → ∃ e, l !! i = Some e ∧ Hash e' = Hash e) →
  last_hash l' = last_hash l → length l' = length l.
Proof.
  intros Hl Hc Hne Hpre Hlast.
  destruct (last l') as [x'|] eqn:Hx'; [|by apply last_None in Hx'].
  assert (Hi : l' !! pred (length l') = Some x') by (by rewrite <- last_lookup).
  destruct (Hpre _ _ Hi) as (x & Hx & Hxx).
  assert (Hlen : (length l ≠ 0)%nat) by (intros Hz; apply nil_length_inv in Hz; subst; done).
  destruct (lookup_lt_is_Some_2 l (pred (length l)) ltac:(lia)) as [y Hy].
  assert (Hxy : Hash x = Hash y).
  { unfold last_hash in Hlast. rewrite Hx', last_lookup, Hy in Hlast. congruence. }
  assert (pred (length l') = pred (length l)).
  { eapply (message_index E HE p l); [done|done|exact Hx|exact Hy|]. by eapply (no_collision p l). }
  destruct l'; [done|]. cbn in *. lia.
Qed.

(** C19: The ledger is tamper-evident.  Let [l] be the chain of a tenant after any
    sequence of appends, and let [l'] be whatever non-empty list of entries an
    attacker leaves in its place.  If [Verify] accepts all of [l'], then either
    [l'] repeats the first entries of [l] with their hashes and, for entries made
    of UTF-8 text and times between 1678 and 2262, all their audited facts, and is
    all of [l] as soon as its last hash is that of [l]; or an entry of [l'] carries
    a correct MAC of a message the ledger never signed; or two different messages
    signed in [l] have one MAC.  So short of breaking HMAC-SHA256 an attacker can
    only truncate, and a remembered tail hash excludes that. *)
Theorem tamper_evidence E numbers_ok p es t l' :
  let l := entries (chainFor (append_all E numbers_ok (MkStore p ∅) es) t) in
  sized E → l' ≠ [] → verifyMemChain E l' p 1 (Z.of_nat (length l')) = (true, -1, None) →
  ((∀ i e', l' !! i = Some e' →
      ∃ e, l !! i = Some e ∧ Hash e' = Hash e ∧ (entry_ok e → entry_ok e' → facts e' = facts e)) ∧
   (last_hash l' = last_hash l → length l' = length l)) ∨
  (∃ e', e' ∈ l' ∧ Hash e' = ComputeHash E p (PrevHash e') e' ∧
     ∀ e, e ∈ l → auditHashInput p (PrevHash e') e' ≠ auditHashInput p (PrevHash e) e) ∨
  (∃ a b, a ∈ l ∧ b ∈ l ∧ ComputeHash E p (PrevHash a) a = ComputeHash E p (PrevHash b) b ∧
     auditHashInput p (PrevHash a) a ≠ auditHashInput p (PrevHash b) b).
Proof.
  intros l HE Hne Hv. destruct (append_all_inv E numbers_ok (MkStore p ∅) es (empty_inv E numbers_ok p)) as [Hinv Hp].
  pose proof (ci_linked _ _ _ _ (Hinv t)) as Hl. rewrite Hp in Hl. cbn in Hl. fold l in Hl.
  assert (Hl' : linked_chain E p l').
  { unfold linked_chain. apply (verifyMemChain_true E p l' (length l')); [|lia|done]. destruct l'; [done|cbn; lia]. }
  assert (Hhash : ∀ k x, linked_chain E p k → x ∈ k → Hash x = ComputeHash E p (PrevHash x) x).
  { intros k x Hk [i Hi]%list_elem_of_lookup. by destruct (linked_lookup _ _ _ _ _ Hk Hi). }
  destruct (decide (collision p l)) as [Hc|Hc].
  { right. right. apply Exists_exists in Hc as (a & Ha & (b & Hb & Hab & Hm)%Exists_exists).
    exists a, b. by rewrite <- !(Hhash l). }
  destruct (decide (Forall (λ e', Exists (λ e, auditHashInput p (PrevHash e') e' = auditHashInput p (PrevHash e) e) l) l'))
    as [Hsig|Hsig].
  - left. assert (Hrep : ∀ i e', l' !! i = Some e' → ∃ e, l !! i = Some e ∧ Hash e' = Hash e ∧
      (entry_ok e → entry_ok e' → facts e' = facts e)).
    { intros i e' He'. destruct (replay_prefix E HE p l l' Hl Hl' Hc Hsig i e' He') as (e & He & Hm).
      exists e. split; [done|]. split; [by destruct (same_message_prev E p _ _ _ _ _ _ Hl' Hl He' He Hm)|].
      intros Hok Hok'. apply auditHashInput_inj in Hm. by eapply hashed_fields_facts. }
    split; [done|]. eapply (replay_whole E HE p); [done..|]. intros i e' He'.
    destruct (Hrep i e' He') as (e & ? & ? & _). by exists e.
  - right. left. apply not_Forall_Exists in Hsig; [|apply _].
    apply Exists_exists in Hsig as (e' & He' & Hno). exists e'. split; [done|]. split; [by apply (Hhash l')|].
    intros e He Heq. apply Hno. apply Exists_exists. by exists e.
Qed.

(** ** A sample ledger *)

Module LedgerSample.

(** A toy digest: 32 copies of the byte sum. *)
Fixpoint byte_sum (s : bytes) : Z :=
  match s with EmptyString => 0 | String c s => (byte_val c + 7 * byte_sum s) mod 251 end.

Fixpoint copies (n : nat) (c : ascii) : bytes :=
  match n with O => EmptyString | S n => String c (copies n c) end.

Definition digest (s : bytes) : bytes := copies 32 (chr (byte_sum s)).

Fixpoint decimal (acc : Z) (s : string) : option Z :=
  match s with
  | EmptyString => Some acc
  | String c s => if is_digit c then decimal (10 * acc + (byte_val c - 48)) s else None
  end.

Definition scope : string := String.substring 0 16 (hex_encode (digest (nul_terminated ["timestamp"; "DESC"; "id"; "ASC"]))).

Definition env : codec_env := {|
  hmac_sha256 k d := digest (k ++ d);
  sha256 := digest;
  marshal cur :=
    match cur_Values cur with Some [VTime t; VString i] => Some (pretty t ++ "," ++ i)%string | _ => None end;
  unmarshal p :=
    match strings_Cut p "," with
    | Some (t, i) => Some (MkCursor (Some [VString t; VString i]) scope "audit")
    | None => None
    end;
  time_Parse := decimal 0;
|}.

Lemma ledger_env_sized : sized env.
Proof. split; intros; reflexivity. Qed.

Definition uuid (s : string) : option string := Some (lower_all s).
Definition tenant_a : string := "3f2504e0-4f89-41d3-9a0c-0305e82c3301".
Definition tenant_b : string := "9b2504e0-4f89-41d3-9a0c-0305e82c3302".

Definition event (id actor tenant : string) (at_ : Z) : Entry :=
  MkEntry 0 EmptyString id "user.login" actor actor tenant "s" "c" "tr" (unix_epoch + at_) (unix_epoch + at_)
    (Some "{}"%string) EmptyString EmptyString.

Definition relay : Protocol := MkProtocol "0123456789abcdef0123456789abcdef" "relay" true true.
Definition boot : Protocol := MkProtocol "fedcba9876543210fedcba9876543210" "boot" true true.
Definition relay_events : list Entry :=
  [event "e1" "alice" tenant_a 10; event "e2" "bob" tenant_b 20; event "e1" "alice" tenant_a 25;
   event "e3" "alice" tenant_a 30].
Definition boot_events : list Entry := [event "b1" "alice" EmptyString 20; event "b2" "bob" EmptyString 40].

Definition relay_store : MemStore := append_all env (λ _, true) (MkStore relay ∅) relay_events.
Definition boot_store : MemStore := append_all env (λ _, true) (MkStore boot ∅) boot_events.
Definition chain_a : list Entry := Eval vm_compute in entries (chainFor relay_store tenant_a).

End LedgerSample.

Lemma ledger_history_witness :
  submitted <$> entries (chainFor LedgerSample.relay_store LedgerSample.tenant_a) =
    submitted <$> accepted LedgerSample.env (λ _, true) LedgerSample.tenant_a ∅ LedgerSample.relay_events ∧
  EventID <$> entries (chainFor LedgerSample.relay_store LedgerSample.tenant_a) = ["e1"; "e3"]%string ∧
  Verify LedgerSample.env LedgerSample.relay_store (Some LedgerSample.tenant_a) 1 2 = (true, -1, None).
Proof.
  destruct (ledger_history LedgerSample.env (λ _, true) LedgerSample.relay LedgerSample.relay_events
              LedgerSample.tenant_a 1 2) as (Hent & _ & Hver).
  split; [exact Hent|]. split; [vm_compute; reflexivity|]. apply Hver; [lia|lia|]. vm_compute. discriminate.
Defined.

(** The first entry alone still verifies, and is the first of the ledger's. *)
Lemma tamper_evidence_witness :
  verifyMemChain LedgerSample.env (take 1 LedgerSample.chain_a) LedgerSample.relay 1 1 = (true, -1, None) ∧
  ∃ e, entries (chainFor LedgerSample.relay_store LedgerSample.tenant_a) !! 0%nat = Some e ∧ EventID e = "e1"%string.
Proof.
  assert (Hv : verifyMemChain LedgerSample.env (take 1 LedgerSample.chain_a) LedgerSample.relay 1 1 = (true, -1, None))
    by (vm_compute; reflexivity).
  split; [exact Hv|].
  destruct (tamper_evidence LedgerSample.env (λ _, true) LedgerSample.relay LedgerSample.relay_events
              LedgerSample.tenant_a (take 1 LedgerSample.chain_a) LedgerSample.ledger_env_sized
              ltac:(discriminate) Hv) as [[Hpre _]|[(e' & He' & _ & Hno)|(a & b & Ha & Hb & Hh & Hm)]].
  - destruct (Hpre 0%nat _ eq_refl) as (e & He & _). exists e. split; [exact He|].
    vm_compute in He. injection He as <-. reflexivity.
  - eexists. split; vm_compute; reflexivity.
  - eexists. split; vm_compute; reflexivity.
Defined.

(** ** Two limits of the protocol *)

Definition with_type (e : Entry) (s : string) : Entry :=
  MkEntry (SeqNo e) (ID e) (EventID e) s (ActorID e) (SubjectID e) (e_TenantID e) (SessionID e)
    (CorrelationID e) (TraceID e) (OccurredAt e) (Timestamp e) (Payload e) (PrevHash e) (Hash e).

(** Bytes outside UTF-8 all hash as U+FFFD. *)
Lemma ComputeHash_utf8_blind E p prev e c d :
  (byte_val c <? 128) = false → (byte_val d <? 128) = false →
  ComputeHash E p prev (with_type e (String c EmptyString)) = ComputeHash E p prev (with_type e (String d EmptyString)).
Proof.
  intros Hc Hd. assert (H : json_string (String c EmptyString) = json_string (String d EmptyString)).
  { unfold json_string. cbn [json_escape]. by rewrite Hc, Hd. }
  unfold ComputeHash, auditHashInput. cbn [with_type EventType EventID ActorID SubjectID e_TenantID SessionID
    CorrelationID OccurredAt Timestamp Payload].
  assert (Hf : str_field "event_type" (String c EmptyString) = str_field "event_type" (String d EmptyString)).
  { unfold str_field. by rewrite H. }
  by rewrite Hf.
Qed.

(** What follows the first JSON value of a payload is not looked at. *)
Lemma payload_trailing numbers_ok : numbers_ok "{}garbage"%string = true →
  validatePayloadJSON numbers_ok (Some "{}garbage"%string) = Ok tt ∧ json_Valid "{}garbage" = false.
Proof. intros H. unfold validatePayloadJSON, decodes_map. cbn. by rewrite H. Qed.
