(* ===== verification/AuditQuery.v ===== *)
(** * Reading the audit ledger: isolation and paged listings

    What the readers of [AuditLedger] return: only rows of the tenant asked for or
    of the system chain, within the caller's row visibility; and, through
    [Query.ExecutePagedQuery] over the fan-out store, every such row exactly once
    and in order, although each backing store only ever returns one page. *)

From Stdlib Require Import Ascii String.
From S2P Require Import Prelude GoJson IdUtil Base64 JsonText Query Tenant AuditLedger.

(** ** The order of the listing *)

Lemma string_compare_refl a : String.compare a a = Eq.
Proof. pose proof (String.compare_antisym a a). by destruct (String.compare a a). Qed.

Lemma string_compare_Lt a b : String.compare a b = Lt ↔ String.le a b ∧ a ≠ b.
Proof.
  unfold String.le, String.leb. destruct (String.compare a b) eqn:Hc.
  - apply String.compare_eq_iff in Hc. naive_solver.
  - split; [|done]. intros _. split; [done|]. intros ->. by rewrite string_compare_refl in Hc.
  - naive_solver.
Qed.

Lemma string_compare_trans a b c r :
  String.compare a b = r → String.compare b c = r → String.compare a c = r.
Proof.
  assert (Hlt : ∀ a b c, String.compare a b = Lt → String.compare b c = Lt → String.compare a c = Lt).
  { clear. intros a b c. rewrite !string_compare_Lt. intros [Hab Hne] [Hbc Hne'].
    split; [by transitivity b|]. intros ->. by apply Hne, (anti_symm String.le). }
  intros <- H. destruct (String.compare a b) eqn:Hab.
  - apply String.compare_eq_iff in Hab. by subst.
  - by eapply Hlt.
  - pose proof (String.compare_antisym b a) as Hba. pose proof (String.compare_antisym c b) as Hcb.
    rewrite Hab in Hba. rewrite H in Hcb. rewrite String.compare_antisym.
    by rewrite (Hlt c b a).
Qed.

#[global] Instance compareEntryField_order : FieldOrder compareEntryField.
Proof.
  split; intros *; unfold compareEntryField; (destruct (f ==s "timestamp"); [|destruct (f ==s "id"); [|try done]]).
  - apply Z.compare_antisym.
  - apply String.compare_antisym.
  - destruct r; rewrite ?Z.compare_eq_iff, ?Z.compare_lt_iff, ?Z.compare_gt_iff; lia.
  - apply string_compare_trans.
Qed.

(** [compareBySort] of the fan-out and the closure of [query.Sort] agree. *)
Lemma compareBySort_cmp cols a b : compareBySort a b cols = sort_cmp compareEntryField cols a b.
Proof.
  induction cols as [|col cols IH]; [done|]. cbn. rewrite IH.
  destruct (bool_decide _), (compareEntryField a b (Name col)); done.
Qed.

(** ** Stable sorting *)

Section stable.
Context (less : Entry → Entry → bool) `{!Transitive (not_after less), !Total (not_after less)}.

Lemma insert_stable_perm x l : insert_stable less x l ≡ₚ x :: l.
Proof using. induction l as [|y l IH]; cbn; [done|]. case_match; [|done]. rewrite IH. apply Permutation_swap. Qed.

Lemma sort_SliceStable_perm l : sort_SliceStable less l ≡ₚ l.
Proof using. induction l as [|x l IH]; cbn; [done|]. by rewrite insert_stable_perm, IH. Qed.

Lemma insert_stable_sorted x l :
  StronglySorted (not_after less) l → StronglySorted (not_after less) (insert_stable less x l).
Proof.
  induction 1 as [|y l Hs IH Hy]; cbn; [by repeat constructor|].
  destruct (less y x) eqn:Hyx.
  - constructor; [done|]. rewrite insert_stable_perm. constructor; [|done].
    destruct (total (not_after less) x y) as [Hxy|]; [|done]. unfold not_after in Hxy. congruence.
  - constructor; [by constructor|]. constructor; [done|].
    eapply Forall_impl; [done|]. cbv beta. intros z Hz. by transitivity y.
Qed.

Lemma sort_SliceStable_sorted l : StronglySorted (not_after less) (sort_SliceStable less l).
Proof. induction l as [|x l IH]; cbn; [constructor|]. by apply insert_stable_sorted. Qed.
End stable.

(** Rows with distinct keys come out in strictly increasing order. *)
Lemma stable_strict cols k : NoDup k →
  (∀ a b, a ∈ k → b ∈ k → sort_cmp compareEntryField cols a b = Eq → a = b) →
  StronglySorted (λ a b, sort_cmp compareEntryField cols a b = Lt) (sorted_by cols k).
Proof.
  intros Hnd Huniq. unfold sorted_by. set (less := λ a b, is_lt (compareBySort a b cols)).
  assert (Hna : ∀ a b, not_after less a b ↔ sort_cmp compareEntryField cols a b ≠ Gt).
  { intros a b. rewrite <- not_after_row by apply _. unfold not_after, less, row_less. by rewrite compareBySort_cmp. }
  pose proof (row_less_trans compareEntryField cols) as Htr. pose proof (row_less_total compareEntryField cols) as Hto.
  assert (Transitive (not_after less)).
  { intros a b c. rewrite !Hna, <- !not_after_row by apply _. apply Htr. }
  assert (Total (not_after less)).
  { intros a b. rewrite !Hna, <- !not_after_row by apply _. apply Hto. }
  pose proof (sort_SliceStable_sorted less k) as Hs.
  assert (Hin : ∀ e, e ∈ sort_SliceStable less k → e ∈ k) by (intros e; by rewrite sort_SliceStable_perm).
  rewrite <- (sort_SliceStable_perm less k) in Hnd.
  induction Hs as [|a l Hs IH Ha]; constructor.
  - apply NoDup_cons in Hnd as [_ Hnd]. apply IH; [done|]. intros e He. apply Hin. by right.
  - apply NoDup_cons in Hnd as [Hnin _]. rewrite Forall_forall in Ha |- *. intros b Hb.
    specialize (Ha b Hb). apply Hna in Ha. destruct (sort_cmp compareEntryField cols a b) eqn:Hab; [|done..].
    apply Huniq in Hab; [by subst|apply Hin; by left|apply Hin; by right].
Qed.

(** ** Merging pages *)

Lemma elem_of_take_in {A} n (l : list A) x : x ∈ take n l → x ∈ l.
Proof. intros Hx. rewrite <- (take_drop n l). apply elem_of_app. by left. Qed.

Lemma elem_of_concat {A} (ls : list (list A)) x : x ∈ concat ls ↔ ∃ l, x ∈ l ∧ l ∈ ls.
Proof.
  induction ls as [|l ls IH]; cbn; [split; [by intros ?%elem_of_nil|by intros (?&_&?%elem_of_nil)]|].
  rewrite elem_of_app, IH. setoid_rewrite elem_of_cons. naive_solver.
Qed.

Lemma sorted_partition {A} (R : relation A) (P : A → Prop) `{!∀ x, Decision (P x)} l :
  StronglySorted R l → (∀ x y, R x y → P x → P y) → l = filter (λ x, ¬ P x) l ++ filter P l.
Proof.
  intros Hs Hup. induction Hs as [|x l Hs IH Hx]; [done|].
  rewrite !filter_cons. destruct (decide (P x)) as [Hp|Hp].
  - rewrite decide_False by tauto.
    assert (Hall : Forall P l) by (eapply Forall_impl; [exact Hx|]; intros y Hxy; by eapply Hup).
    rewrite (filter_all P l) by done. rewrite filter_none; [done|].
    eapply Forall_impl; [exact Hall|]. cbv beta. tauto.
  - rewrite decide_True by done. cbn. by rewrite <- IH.
Qed.

Lemma strict_NoDup {A} (R : relation A) `{!Irreflexive R} (l : list A) : StronglySorted R l → NoDup l.
Proof.
  induction 1 as [|x l Hs IH Hx]; constructor; [|done]. intros Hin.
  rewrite Forall_forall in Hx. by apply (irreflexivity R x), Hx.
Qed.

Section topk.
Context {A : Type} `{!EqDecision A} (R : relation A) `{!Transitive R, !Irreflexive R}.

(** Smaller elements of a strictly sorted list come first. *)
Lemma before_index (l : list A) x y i : StronglySorted R l → l !! i = Some x → y ∈ l → R y x → y ∈ take i l.
Proof.
  intros Hs Hx Hy Hyx. rewrite <- (take_drop i l), elem_of_app in Hy. destruct Hy as [|Hy]; [done|].
  exfalso. rewrite (drop_S l x i) in Hy by done. apply elem_of_cons in Hy as [->|Hy].
  - by apply (irreflexivity R x).
  - assert (R x y).
    { rewrite <- (take_drop (S i) l) in Hs. eapply StronglySorted_app_1_elem_of in Hs; [exact Hs|..|done].
      rewrite (take_S_r l i x) by done. apply elem_of_app. right. by left. }
    apply (irreflexivity R x). by transitivity y.
Qed.

(** An element among the first [n] of the whole is among the first [n] of its own
    list. *)
Lemma topk_elem n (ls : list (list A)) s l x :
  StronglySorted R s → Forall (StronglySorted R) ls → s ≡ₚ concat ls →
  l ∈ ls → x ∈ l → x ∈ take n s → x ∈ take n l.
Proof.
  intros Hs Hls Hp Hl Hx Hn. apply list_elem_of_lookup in Hx as [j Hj].
  apply list_elem_of_lookup in Hn as [i Hi]. apply lookup_take_Some in Hi as [Hi Hin].
  rewrite Forall_forall in Hls. specialize (Hls l Hl).
  apply list_elem_of_lookup_2 with j. apply lookup_take_Some. split; [done|].
  assert (Hsub : take j l ⊆+ take i s); [|apply submseteq_length in Hsub; rewrite !length_take in Hsub;
    apply lookup_lt_Some in Hj, Hi; lia].
  apply NoDup_submseteq; [by apply (strict_NoDup R), take_sorted|].
  intros y Hy. apply before_index with x; [done|done| |].
  - rewrite Hp. apply elem_of_concat. exists l. split; [|done]. by eapply elem_of_take_in.
  - rewrite <- (take_drop j l) in Hls. eapply StronglySorted_app_1_elem_of in Hls; [exact Hls|done|].
    rewrite (drop_S l x j) by done. by left.
Qed.

(** The first [n] of the merged prefixes are the first [n] of the whole. *)
Lemma topk_merge n (ls : list (list A)) s m :
  StronglySorted R s → Forall (StronglySorted R) ls → s ≡ₚ concat ls →
  StronglySorted R m → m ≡ₚ concat (take n <$> ls) → take n m = take n s.
Proof.
  intros Hs Hls Hp Hm Hmp.
  assert (Hms : ∀ x, x ∈ m → x ∈ s).
  { intros x. rewrite Hmp, Hp, !elem_of_concat. intros (l' & Hx & (l & -> & Hl)%list_elem_of_fmap).
    exists l. split; [by eapply elem_of_take_in|done]. }
  assert (Hin : ∀ x, x ∈ take n s → x ∈ m).
  { intros x Hx. assert (Hxs : x ∈ s) by (by eapply elem_of_take_in). rewrite Hp, elem_of_concat in Hxs.
    destruct Hxs as (l & Hxl & Hl). rewrite Hmp, elem_of_concat. exists (take n l).
    split; [by apply (topk_elem n ls s l x)|]. by apply list_elem_of_fmap_2. }
  assert (Hbefore : ∀ x y, x ∈ take n s → y ∈ s → y ∉ take n s → R x y).
  { intros x y Hx Hy Hn. rewrite <- (take_drop n s), elem_of_app in Hy. destruct Hy as [|Hy]; [done|].
    exact (take_sorted_before R n s x y Hs Hx Hy). }
  assert (Hsplit : m = take n s ++ filter (λ x, x ∉ take n s) m).
  { apply (StronglySorted_unique_strong R).
    - intros x y _ _ Hxy Hyx. exfalso. apply (irreflexivity R x). by transitivity y.
    - done.
    - apply StronglySorted_app_2.
      + intros x y Hx [Hy Hym]%list_elem_of_filter. apply Hbefore; [done|by apply Hms|done].
      + by apply take_sorted.
      + clear -Hm. induction Hm as [|x m Hm IH Hx]; [constructor|]. rewrite filter_cons. case_decide; [|done].
        constructor; [done|]. rewrite Forall_forall in Hx |- *. intros y [_ Hy]%list_elem_of_filter. by apply Hx.
    - rewrite <- (filter_app_complement (λ x, x ∈ take n s) m) at 1. apply Permutation_app; [|done].
      apply NoDup_Permutation; [by apply NoDup_filter, (strict_NoDup R)|by apply (strict_NoDup R), take_sorted|].
      intros x. rewrite list_elem_of_filter. naive_solver. }
  rewrite Hsplit. destruct (decide (length s < n)%nat) as [Hlt|Hge].
  - rewrite (take_ge s) in Hsplit |- * by lia.
    assert (filter (λ x, x ∉ s) m = []) as ->; [|by rewrite app_nil_r, take_ge by lia].
    apply filter_none. apply Forall_forall. intros x Hx Hn. by apply Hn, Hms.
  - rewrite take_app_le by (rewrite length_take; lia). rewrite take_take. f_equal. lia.
Qed.
End topk.

(** ** What the readers see *)

(** Go may range over a map in any order. *)
Definition fair_visit (visit : list (string * memChain) → list (string * memChain)) : Prop := ∀ l, visit l ≡ₚ l.

Definition in_store (m : MemStore) (e : Entry) : Prop := ∃ t c, chains m !! t = Some c ∧ e ∈ entries c.

Section readers.
Context (E : codec_env) (uuid_Parse : string → option string).
Context (visit : list (string * memChain) → list (string * memChain)) (Hvisit : fair_visit visit).

Lemma store_inv_tenant m t c e :
  store_inv E m → chains m !! t = Some c → e ∈ entries c → e_TenantID e = t.
Proof.
  intros Hm Hc He. pose proof (ci_tenant _ _ _ _ (Hm t)) as Ht. unfold chainFor in Ht. rewrite Hc in Ht. cbn in Ht.
  rewrite Forall_forall in Ht. by apply Ht.
Qed.

Lemma range_entries_elem m keep e : store_inv E m →
  e ∈ range_entries visit m keep ↔ in_store m e ∧ keep (e_TenantID e) = true.
Proof.
  intros Hm. unfold range_entries, in_store. rewrite list_elem_of_bind. split.
  - intros ([t c] & He & [Hk Hin]%list_elem_of_filter). rewrite (Hvisit _), elem_of_map_to_list in Hin. cbn in *.
    split; [by eauto|]. by rewrite (store_inv_tenant m t c e).
  - intros [(t & c & Hc & He) Hk]. exists (t, c). split; [done|]. apply list_elem_of_filter.
    rewrite (Hvisit _), elem_of_map_to_list. cbn. split; [|done]. by rewrite <- (store_inv_tenant m t c e).
Qed.

(** A row a caller with visibility [vis] may see on behalf of tenant [t]. *)
Definition visible (t : TenantID) (vis : RowVisibility) (e : Entry) : Prop :=
  (e_TenantID e = t ∨ e_TenantID e = EmptyString) ∧ Allows vis (ActorID e) = true.

Lemma tenantMatches_true k t : tenantMatches k t = true ↔ k = t ∨ k = EmptyString.
Proof. unfold tenantMatches, str_eqb. repeat case_bool_decide; naive_solver. Qed.

Lemma audit_candidates_elem m t vis f e : store_inv E m →
  e ∈ candidates visit m t vis f ↔ in_store m e ∧ visible t vis e ∧ matchesFilters e f = true.
Proof.
  intros Hm. unfold candidates, visible. rewrite list_elem_of_filter, range_entries_elem, tenantMatches_true, andb_true_iff by done.
  naive_solver.
Qed.

Lemma GetByID_Ok m t vis id e : store_inv E m → GetByID uuid_Parse visit m t vis id = Ok e →
  in_store m e ∧ visible t vis e ∧ ID e = id ∧ scope vis ≠ RowScopeAll.
Proof.
  intros Hm. unfold GetByID. destruct (ValidateQueryTenant uuid_Parse t); [|done]. cbn.
  destruct (Validate vis); [|done]. cbn. destruct (Z.eqb_spec (scope vis) RowScopeAll); [done|].
  destruct (List.find _ _) as [x|] eqn:Hf; [|done]. destruct (Allows vis (ActorID x)) eqn:Ha; [|done].
  cbn. intros [= <-]. apply find_some in Hf as [Hin Hid]. apply list_elem_of_In in Hin.
  apply range_entries_elem in Hin as [Hin Ht%tenantMatches_true]; [|done]. bools. done.
Qed.

Lemma GetBySeq_Ok m t vis seq e : store_inv E m → GetBySeq m (Some t) vis seq = Ok e →
  in_store m e ∧ e_TenantID e = t ∧ Allows vis (ActorID e) = true ∧ SeqNo e = wrap64 seq ∧
  scope vis ≠ RowScopeAll.
Proof.
  intros Hm. unfold GetBySeq. destruct (Validate vis); [|done]. cbn.
  destruct (Z.eqb_spec (scope vis) RowScopeAll); [done|].
  destruct (chains m !! t) as [c|] eqn:Hc; [|done]. destruct (Z.ltb_spec seq 1); [done|]. cbn.
  destruct (seq >? _); [done|]. destruct (entries c !! Z.to_nat (seq - 1)) as [x|] eqn:Hx; [|done].
  destruct (Allows vis (ActorID x)) eqn:Ha; [|done]. cbn. intros [= <-].
  assert (Hin : x ∈ entries c) by (by eapply list_elem_of_lookup_2).
  split; [by exists t, c|]. split; [by eapply store_inv_tenant|]. split; [done|]. split; [|done].
  pose proof (ci_seq _ _ _ _ (Hm t)) as Hs. unfold chainFor in Hs. rewrite Hc in Hs. cbn in Hs.
  rewrite (Hs _ _ Hx). f_equal. lia.
Qed.

Lemma ApplyCursor_elem {T} P fv (items : list T) params page x :
  ApplyCursor P fv items params = Some (Ok page) → x ∈ page → x ∈ items.
Proof.
  unfold ApplyCursor. destruct (validateCursorParams params); [|done].
  destruct (findCursorStart P fv items params) as [start|]; [|done].
  unfold go_slice. case_match; [|done]. cbn. intros [= <-] Hx.
  apply elem_of_take_in in Hx. rewrite <- (take_drop start items). apply elem_of_app. right.
  by rewrite Nat2Z.id in Hx.
Qed.

Lemma Query_Ok m t vis f params page e : store_inv E m →
  Query E uuid_Parse visit m t vis f params = Some (Ok page) → e ∈ page →
  in_store m e ∧ visible t vis e ∧ matchesFilters e f = true ∧ scope vis ≠ RowScopeAll.
Proof.
  intros Hm. unfold Query. destruct (validateQueryArgs uuid_Parse t vis f params) as [[]|] eqn:Hv; [|done].
  intros Hpage He. pose proof (ApplyCursor_elem _ _ _ _ _ _ Hpage He) as Hin.
  rewrite (Sort_perm compareEntryField), audit_candidates_elem in Hin by done.
  split_and!; try tauto. unfold validateQueryArgs in Hv. intros Hs. rewrite Hs in Hv.
  by repeat (apply bind_Ok in Hv as (? & _ & Hv)).
Qed.

Lemma Query_scope m t vis f params page :
  Query E uuid_Parse visit m t vis f params = Some (Ok page) → scope vis ≠ RowScopeAll.
Proof.
  unfold Query. destruct (validateQueryArgs uuid_Parse t vis f params) as [[]|] eqn:Hv; [|done].
  intros _ Hs. unfold validateQueryArgs in Hv. rewrite Hs in Hv. by repeat (apply bind_Ok in Hv as (? & _ & Hv)).
Qed.

Lemma query_stores_Ok ms t vis f params merged page :
  query_stores E uuid_Parse visit ms t vis f params merged = Some (Ok page) →
  ∀ e, e ∈ page → e ∈ merged ∨ ∃ m part, m ∈ ms ∧ Query E uuid_Parse visit m t vis f params = Some (Ok part) ∧ e ∈ part.
Proof.
  revert merged. induction ms as [|m ms IH]; intros merged; cbn; [intros [= <-]; by left|].
  destruct (Query E uuid_Parse visit m t vis f params) as [[part|]|] eqn:Hq; [|done..]. cbn. intros Hp e He.
  destruct (IH _ Hp e He) as [[|]%elem_of_app|(m' & part' & ? & ? & ?)]; [by left|right..].
  - exists m, part. split; [by left|done].
  - exists m', part'. split; [by right|done].
Qed.

Lemma MultiStore_Query_Ok ms t vis f params page e : Forall (store_inv E) ms →
  MultiStore_Query E uuid_Parse visit ms t vis f params = Some (Ok page) → e ∈ page →
  ∃ m, m ∈ ms ∧ in_store m e ∧ visible t vis e ∧ matchesFilters e f = true.
Proof.
  intros Hms. unfold MultiStore_Query. destruct (_ ≫= _) as [[]|]; [|done].
  destruct (scope vis =? RowScopeAll); [done|]. case_bool_decide; [done|].
  destruct (query_stores _ _ _ _ _ _ _ _ _) as [[merged|]|] eqn:Hq; [|done..]. cbn.
  intros Hp He. assert (Hin : e ∈ merged).
  { rewrite <- (sort_SliceStable_perm (λ a b, is_lt (compareBySort a b (lp_Sort params)))).
    case_match; [|by simplify_eq]. unfold go_slice in Hp. case_match; [|done]. cbn in Hp. injection Hp as <-.
    apply elem_of_take_in in He. by rewrite drop_0 in He. }
  destruct (query_stores_Ok _ _ _ _ _ _ _ Hq e Hin) as [?%elem_of_nil|(m & part & Hm & Hmq & Hpart)]; [done|].
  exists m. split; [done|]. rewrite Forall_forall in Hms. pose proof (Query_Ok m t vis f params part e (Hms m Hm) Hmq Hpart).
  tauto.
Qed.

Lemma MultiStore_Query_scope ms t vis f params page :
  MultiStore_Query E uuid_Parse visit ms t vis f params = Some (Ok page) → scope vis ≠ RowScopeAll.
Proof.
  unfold MultiStore_Query. destruct (_ ≫= _) as [[]|]; [|done]. by destruct (Z.eqb_spec (scope vis) RowScopeAll).
Qed.

Lemma MultiStore_GetByID_Ok ms t vis id e : Forall (store_inv E) ms →
  MultiStore_GetByID uuid_Parse visit ms t vis id = Ok e →
  scope vis ≠ RowScopeAll ∧ ∃ m, m ∈ ms ∧ in_store m e ∧ visible t vis e ∧ ID e = id.
Proof.
  intros Hms. unfold MultiStore_GetByID. destruct (ValidateQueryTenant uuid_Parse t); [|done]. cbn.
  destruct (Z.eqb_spec (scope vis) RowScopeAll); [done|]. intros Hg. split; [done|]. revert Hg.
  induction Hms as [|m ms Hm Hms IH]; cbn; [done|]. destruct (GetByID uuid_Parse visit m t vis id) as [x|] eqn:Hx.
  - intros [= <-]. exists m. pose proof (GetByID_Ok m t vis id x Hm Hx). set_solver.
  - case_match; [|done]. intros (m' & ? & ?)%IH. exists m'. set_solver.
Qed.

Lemma cross_tenant_refused m ms t vis f params :
  ValidateQueryTenant uuid_Parse t = Ok tt → ValidateQueryFilters f = Ok tt → Validate vis = Ok tt →
  scope vis = RowScopeAll →
  (∀ seq, GetBySeq m (Some t) vis seq = Err RowScopeAllUnsupportedError) ∧
  (∀ id, GetByID uuid_Parse visit m t vis id = Err RowScopeAllUnsupportedError) ∧
  Query E uuid_Parse visit m t vis f params = Some (Err RowScopeAllUnsupportedError) ∧
  MultiStore_Query E uuid_Parse visit ms t vis f params = Some (Err RowScopeAllUnsupportedError) ∧
  ∀ id, MultiStore_GetByID uuid_Parse visit ms t vis id = Err RowScopeAllUnsupportedError.
Proof.
  intros Ht Hf Hv Hs.
  unfold GetBySeq, GetByID, Query, validateQueryArgs, MultiStore_Query, MultiStore_GetByID. by rewrite Ht, Hf, Hv, Hs.
Qed.
End readers.

(** ** The fan-out store answers like one store *)

Section fanout.
Context (E : codec_env) (uuid_Parse : string → option string).
Context (visit : list (string * memChain) → list (string * memChain)).
Context (ms : list MemStore) (t : TenantID) (vis : RowVisibility) (f : AuditFilters).
Context (cols : list SortColumn) (codec : CursorCodec) (queryCtx : string).
Context (extract : Entry → option (list anyval)) (received : Entry → list anyval).

(** The rows of all stores that the query is about. *)
Definition all_candidates : list Entry := concat ((λ m, candidates visit m t vis f) <$> ms).

Context (Hargs : ∀ params, lp_Sort params = cols → validateQueryArgs uuid_Parse t vis f params = Ok tt).
Context (Hli : listable E compareEntryField entryFieldValue extract all_candidates cols codec queryCtx received).

Abbreviation before := (λ a b, sort_cmp compareEntryField cols a b = Lt).
Abbreviation sorted l := (Sort compareEntryField l cols).

#[local] Instance before_trans : Transitive before.
Proof. intros a b c. apply sort_cmp_trans, _. Qed.

#[local] Instance before_irrefl : Irreflexive before.
Proof.
  intros a Ha. cbv beta in Ha. pose proof (sort_cmp_antisym compareEntryField cols a a) as H. by rewrite Ha in H.
Qed.

Lemma candidates_all m e : m ∈ ms → e ∈ candidates visit m t vis f → e ∈ all_candidates.
Proof.
  intros Hm He. apply elem_of_concat. exists (candidates visit m t vis f). split; [done|].
  by apply (list_elem_of_fmap_2 (λ m, candidates visit m t vis f)).
Qed.

Lemma sorted_strict l : NoDup l → (∀ e, e ∈ l → e ∈ all_candidates) → StronglySorted before (sorted l).
Proof using Hli.
  intros Hnd Hsub. apply Sort_strict; [apply _|by apply (li_cols _ _ _ _ _ _ _ _ _ Hli)|done|].
  intros a b Ha Hb. apply (li_unique _ _ _ _ _ _ _ _ _ Hli); by apply Hsub.
Qed.

Lemma audit_candidates_NoDup m : m ∈ ms → NoDup (candidates visit m t vis f).
Proof using Hli.
  intros Hm. pose proof (li_nodup _ _ _ _ _ _ _ _ _ Hli) as Hnd. unfold all_candidates in Hnd. clear Hli Hargs.
  induction ms as [|m' ms' IH]; [by apply elem_of_nil in Hm|]. cbn in Hnd.
  apply NoDup_app in Hnd as (Hhead & _ & Htail). apply elem_of_cons in Hm as [->|Hm]; [done|by apply IH].
Qed.

(** The rows after a position. *)
Definition past (pos : option Entry) (e : Entry) : Prop :=
  match pos with None => True | Some x => sort_cmp compareEntryField cols e x = Gt end.

#[global] Instance past_dec pos e : Decision (past pos e).
Proof. unfold past. destruct pos; [|apply _]. destruct (sort_cmp _ _ _ _); [right|right|left]; done. Defined.

Lemma past_up pos a b : before a b → past pos a → past pos b.
Proof.
  destruct pos as [x|]; [|done]. cbn. intros Hab Hax.
  pose proof (sort_cmp_antisym compareEntryField cols a b) as Hba. rewrite Hab in Hba. cbn in Hba.
  by eapply (sort_cmp_trans compareEntryField cols b a x).
Qed.

Definition vals_of (pos : option Entry) : option (list anyval) := received <$> pos.

(** The page a single store returns, and the rows of the union at that position. *)
Lemma store_page m limit pos :
  m ∈ ms → 0 < limit ≤ MaxPageSize → (∀ x, pos = Some x → x ∈ all_candidates) →
  Query E uuid_Parse visit m t vis f (MkListParams limit (vals_of pos) cols) =
  Some (Ok (take (S (Z.to_nat limit)) (filter (past pos) (sorted (candidates visit m t vis f))))).
Proof using Hargs Hli.
  intros Hm Hlim Hpos. unfold MaxPageSize in Hlim. unfold Query. rewrite Hargs by done. cbn [lp_Sort].
  set (l := sorted (candidates visit m t vis f)).
  assert (Hin : ∀ e, e ∈ l → e ∈ all_candidates).
  { intros e He. unfold l in He. rewrite (Sort_perm compareEntryField) in He. by eapply candidates_all. }
  assert (Hs : StronglySorted before l).
  { apply sorted_strict; [by apply audit_candidates_NoDup|]. intros e. by apply candidates_all. }
  pose proof (sorted_partition before (past pos) l Hs (past_up pos)) as Hpart.
  assert (Hdrop : drop (length (filter (λ e, ¬ past pos e) l)) l = filter (past pos) l)
    by (rewrite Hpart at 2; apply drop_app_length).
  assert (Hlen : Z.of_nat (length l) ≤ 2 ^ 62).
  { pose proof (li_int _ _ _ _ _ _ _ _ _ Hli). assert (length l ≤ length all_candidates)%nat; [|lia].
    apply submseteq_length, NoDup_submseteq; [|exact Hin]. by eapply strict_NoDup; [exact before_irrefl|]. }
  unfold ApplyCursor. assert (validateCursorParams (MkListParams limit (vals_of pos) cols) = Ok tt) as ->.
  { destruct pos as [x|]; [|done]. unfold validateCursorParams. cbn.
    rewrite bool_decide_false by (intros ?%nil_length_inv; by apply (li_cols _ _ _ _ _ _ _ _ _ Hli)).
    pose proof (Hpos x eq_refl) as Hx.
    by rewrite (Forall2_length _ _ _ (li_compare _ _ _ _ _ _ _ _ _ Hli x x Hx Hx)), Nat.eqb_refl. }
  assert (findCursorStart (time_Parse E) entryFieldValue l (MkListParams limit (vals_of pos) cols) =
    Ok (length (filter (λ e, ¬ past pos e) l))) as ->.
  { destruct pos as [x|]; cbn [findCursorStart CursorValues vals_of fmap option_fmap option_map lp_Sort].
    - rewrite Hpart at 1. apply find_start_split; apply Forall_forall; intros e [Hp He]%list_elem_of_filter;
        rewrite (afterCursor_spec _ _ _ _ _ _ _ _ _ Hli) by (auto using Hin || by apply Hpos); cbn in Hp;
        by destruct (sort_cmp compareEntryField cols e x).
    - by rewrite filter_none by (apply Forall_forall; intros e _ Hn; by apply Hn). }
  apply (f_equal length) in Hpart as Hl. rewrite length_app in Hl.
  unfold FetchLimit. cbn [lp_Limit].
  rewrite !wrap64_id by (unfold int64_range, MinInt64, MaxInt64; rewrite ?wrap64_id;
    unfold int64_range, MinInt64, MaxInt64; lia).
  rewrite go_slice_Some by lia. cbn [mbind option_bind]. rewrite Nat2Z.id. do 2 f_equal.
  rewrite Hdrop.
  match goal with |- take (Z.to_nat (Z.min ?a ?b - ?c)) _ = _ => destruct (Z.min_spec a b) as [[_ ->]|[Hge ->]] end.
  - f_equal. lia.
  - rewrite !take_ge; [done|lia..].
Qed.

Lemma query_stores_pages limit pos ms' merged :
  (∀ m, m ∈ ms' → m ∈ ms) → 0 < limit ≤ MaxPageSize → (∀ x, pos = Some x → x ∈ all_candidates) →
  query_stores E uuid_Parse visit ms' t vis f (MkListParams limit (vals_of pos) cols) merged =
  Some (Ok (merged ++ concat (take (S (Z.to_nat limit)) <$>
    ((λ m, filter (past pos) (sorted (candidates visit m t vis f))) <$> ms')))).
Proof using Hargs Hli.
  revert merged. induction ms' as [|m ms' IH]; intros merged Hsub Hlim Hpos; cbn [query_stores].
  - by rewrite app_nil_r.
  - rewrite store_page by (try done; apply Hsub; by left). cbn [mbind option_bind].
    rewrite IH by (try done; intros m' Hm'; apply Hsub; by right).
    by rewrite !fmap_cons, <- app_assoc.
Qed.

Lemma filter_concat (P : Entry → Prop) `{!∀ x, Decision (P x)} (ls : list (list Entry)) :
  filter P (concat ls) = concat (filter P <$> ls).
Proof. induction ls as [|l ls IH]; [done|]. cbn. by rewrite filter_app, IH. Qed.

Lemma concat_perm {A B} (g h : A → list B) l : (∀ x, g x ≡ₚ h x) → concat (g <$> l) ≡ₚ concat (h <$> l).
Proof. intros Hgh. induction l as [|x l IH]; [done|]. cbn. by rewrite Hgh, IH. Qed.

Lemma filter_strict (P : Entry → Prop) `{!∀ x, Decision (P x)} (R : relation Entry) l :
  StronglySorted R l → StronglySorted R (filter P l).
Proof.
  induction 1 as [|x l Hs IH Hx]; [constructor|]. rewrite filter_cons. case_decide; [|done].
  constructor; [done|]. rewrite Forall_forall in Hx |- *. intros y [_ Hy]%list_elem_of_filter. by apply Hx.
Qed.

(** The merged pages, sorted and trimmed, are the next rows of the union. *)
Lemma merged_rows n pos : (0 < n)%nat →
  take n (sorted_by cols (concat (take n <$>
    ((λ m, filter (past pos) (sorted (candidates visit m t vis f))) <$> ms)))) =
  take n (filter (past pos) (sorted all_candidates)).
Proof using Hli.
  intros Hn. set (ls := (λ m, filter (past pos) (sorted (candidates visit m t vis f))) <$> ms).
  assert (Hunion : filter (past pos) (sorted all_candidates) ≡ₚ concat ls).
  { rewrite (Sort_perm compareEntryField). unfold all_candidates, ls. rewrite filter_concat, <- list_fmap_compose.
    apply concat_perm. intros m. cbn. by rewrite (Sort_perm compareEntryField). }
  assert (Hs : StronglySorted before (filter (past pos) (sorted all_candidates))).
  { apply filter_strict, sorted_strict; [apply (li_nodup _ _ _ _ _ _ _ _ _ Hli)|done]. }
  apply (topk_merge before n ls); [done| |done| |].
  - apply Forall_forall. intros l (m & -> & Hm)%list_elem_of_fmap.
    apply filter_strict, sorted_strict; [by apply audit_candidates_NoDup|intros e; by apply candidates_all].
  - set (k := concat (take n <$> ls)).
    assert (Hk : ∀ e, e ∈ k → e ∈ filter (past pos) (sorted all_candidates)).
    { intros e. rewrite Hunion. unfold k. rewrite !elem_of_concat.
      intros (l' & He & (l & -> & Hl)%list_elem_of_fmap). exists l. split; [by eapply elem_of_take_in|done]. }
    assert (Hnd : NoDup k).
    { assert (Hsub : k ⊆+ concat ls).
      { unfold k. clearbody ls. clear. induction ls as [|l ls IH]; [done|]. cbn. apply submseteq_app; [|done].
        apply sublist_submseteq, sublist_take. }
      apply (strict_NoDup before) in Hs. rewrite Hunion in Hs.
      apply submseteq_Permutation in Hsub as [r Hr]. rewrite Hr in Hs. by apply NoDup_app in Hs as [? _]. }
    apply stable_strict; [done|]. intros a b Ha Hb.
    apply (li_unique _ _ _ _ _ _ _ _ _ Hli); rewrite <- (Sort_perm compareEntryField cols);
      eapply list_elem_of_filter; by apply Hk.
  - apply sort_SliceStable_perm.
Qed.

Lemma union_rows i vals :
  values_at compareEntryField all_candidates cols received i vals →
  ∃ pos, vals = vals_of pos ∧ (∀ x, pos = Some x → x ∈ all_candidates) ∧
    drop i (sorted all_candidates) = filter (past pos) (sorted all_candidates).
Proof using Hli.
  intros [[-> ->]|(pre & x & post & Hr & -> & ->)].
  - exists None. split; [done|]. split; [done|]. by rewrite drop_0, filter_all by (by apply Forall_forall).
  - exists (Some x). assert (Hx : x ∈ sorted all_candidates) by (rewrite Hr; apply elem_of_app; right; by left).
    rewrite (Sort_perm compareEntryField) in Hx. split; [done|]. split; [by intros ? [= <-]|].
    assert (Hs : StronglySorted before (sorted all_candidates)).
    { apply sorted_strict; [apply (li_nodup _ _ _ _ _ _ _ _ _ Hli)|done]. }
    rewrite Hr in Hs |- *. replace (pre ++ x :: post) with ((pre ++ [x]) ++ post) in * by (by rewrite <- app_assoc).
    replace (S (length pre)) with (length (pre ++ [x])) by (rewrite length_app; cbn; lia).
    rewrite drop_app_length, filter_app, filter_none, filter_all; [done|..]; apply Forall_forall; intros e He; cbn.
    + assert (Hxe : before x e).
      { eapply StronglySorted_app_1_elem_of in Hs; [exact Hs| |done]. apply elem_of_app. right. by left. }
      by rewrite (sort_cmp_antisym compareEntryField cols x e), Hxe.
    + apply elem_of_app in He as [He|He].
      * apply StronglySorted_app_1_l in Hs. eapply StronglySorted_app_1_elem_of in Hs; [|exact He|by left].
        cbv beta in Hs. by rewrite Hs.
      * apply list_elem_of_singleton in He as ->. intros Hxx. pose proof (sort_cmp_antisym compareEntryField cols x x) as H. by rewrite Hxx in H.
Qed.

Lemma MultiStore_Query_rows : fetches_rows compareEntryField all_candidates cols received
  (MultiStore_Query E uuid_Parse visit ms t vis f).
Proof using Hargs Hli.
  intros limit i vals Hlim Hat. destruct (union_rows i vals Hat) as (pos & -> & Hpos & ->).
  pose proof (Hargs (MkListParams limit (vals_of pos) cols) eq_refl) as Ha. unfold validateQueryArgs in Ha.
  unfold MultiStore_Query. cbn [lp_Sort] in *.
  apply bind_Ok in Ha as ([] & Ht & ([] & Hf & ([] & Hv & Ha)%bind_Ok)%bind_Ok). rewrite Ht, Hf. cbn [mbind outcome_bind].
  destruct (scope vis =? RowScopeAll); [done|]. case_bool_decide; [done|].
  rewrite query_stores_pages by (done || by intros ?). cbn [mbind option_bind app].
  rewrite <- merged_rows by lia. unfold FetchLimit, MaxPageSize in *. cbn [lp_Limit].
  rewrite wrap64_id by (unfold int64_range, MinInt64, MaxInt64; lia).
  set (k := sorted_by cols _). rewrite !Z.gtb_ltb.
  destruct (Z.ltb_spec 0 (limit + 1)); [|lia]. cbn [andb].
  destruct (Z.ltb_spec (limit + 1) (Z.of_nat (length k))).
  - rewrite go_slice_Some by lia. cbn [mbind option_bind]. rewrite drop_0, Z.sub_0_r. do 3 f_equal. lia.
  - rewrite take_ge by lia. done.
Qed.
End fanout.

(** ** The ledger's reading contract *)

(** A store as it is after some history of appends. *)
Definition appended (E : codec_env) (m : MemStore) : Prop :=
  ∃ numbers_ok p es, m = append_all E numbers_ok (MkStore p ∅) es.

Lemma appended_inv E m : appended E m → store_inv E m.
Proof. intros (numbers_ok & p & es & ->). by apply append_all_inv, empty_inv. Qed.

(** C32: Reads are isolated.  Whatever was appended, and in whatever order Go ranges
    over the chains, a row returned by [GetBySeq], [GetByID], [Query] or the
    fan-out's [Query] and [GetByID] was stored, belongs to the tenant asked for (or,
    except by sequence number, to the system chain), is one the caller's visibility
    allows, and matches the identifier or the filters.  None of the five answers
    under the cross-tenant scope, not even with an empty page: when the tenant, the
    filters and the visibility are valid, each refuses with the error for that
    scope, whatever the stores hold and however many there are. *)
Theorem tenant_isolation E uuid_Parse visit m ms t vis f params :
  fair_visit visit → appended E m → Forall (appended E) ms →
  (∀ seq e, GetBySeq m (Some t) vis seq = Ok e → scope vis ≠ RowScopeAll ∧
     in_store m e ∧ e_TenantID e = t ∧ Allows vis (ActorID e) = true ∧ SeqNo e = wrap64 seq) ∧
  (∀ id e, GetByID uuid_Parse visit m t vis id = Ok e → scope vis ≠ RowScopeAll ∧
     in_store m e ∧ visible t vis e ∧ ID e = id) ∧
  (∀ page, Query E uuid_Parse visit m t vis f params = Some (Ok page) → scope vis ≠ RowScopeAll ∧
     ∀ e, e ∈ page → in_store m e ∧ visible t vis e ∧ matchesFilters e f = true) ∧
  (∀ page, MultiStore_Query E uuid_Parse visit ms t vis f params = Some (Ok page) → scope vis ≠ RowScopeAll ∧
     ∀ e, e ∈ page → ∃ m', m' ∈ ms ∧ in_store m' e ∧ visible t vis e ∧ matchesFilters e f = true) ∧
  (∀ id e, MultiStore_GetByID uuid_Parse visit ms t vis id = Ok e → scope vis ≠ RowScopeAll ∧
     ∃ m', m' ∈ ms ∧ in_store m' e ∧ visible t vis e ∧ ID e = id) ∧
  (ValidateQueryTenant uuid_Parse t = Ok tt → ValidateQueryFilters f = Ok tt → Validate vis = Ok tt →
   scope vis = RowScopeAll →
     (∀ seq, GetBySeq m (Some t) vis seq = Err RowScopeAllUnsupportedError) ∧
     (∀ id, GetByID uuid_Parse visit m t vis id = Err RowScopeAllUnsupportedError) ∧
     Query E uuid_Parse visit m t vis f params = Some (Err RowScopeAllUnsupportedError) ∧
     MultiStore_Query E uuid_Parse visit ms t vis f params = Some (Err RowScopeAllUnsupportedError) ∧
     ∀ id, MultiStore_GetByID uuid_Parse visit ms t vis id = Err RowScopeAllUnsupportedError).
Proof.
  intros Hv Hm%appended_inv Hms.
  assert (Hinv : Forall (store_inv E) ms) by (eapply Forall_impl; [done|]; apply appended_inv).
  split_and!.
  - intros seq e He. apply (GetBySeq_Ok E uuid_Parse) in He; [tauto|done].
  - intros id e He. apply (GetByID_Ok E) in He; [tauto|done..].
  - intros page Hp. split; [by eapply Query_scope|]. intros e He.
    apply (Query_Ok E) with (e := e) in Hp; [tauto|done..].
  - intros page Hp. split; [by eapply MultiStore_Query_scope|]. intros e. by eapply MultiStore_Query_Ok.
  - intros id e. by eapply MultiStore_GetByID_Ok.
  - by apply cross_tenant_refused.
Qed.

(** C20: The audit listing is complete.  Over the fan-out of stores with any history
    of appends, following the cursors from the first page yields every stored row
    that is visible to the caller and matches the filters, exactly once and in the
    order of the sort columns, although each page is merged from single pages of the
    stores. *)
Theorem audit_listing_complete E uuid_Parse visit ms t vis f cols codec queryCtx extract received
    page_limit cursor report mode :
  sized E → fair_visit visit → Forall (appended E) ms →
  (∀ params, lp_Sort params = cols → validateQueryArgs uuid_Parse t vis f params = Ok tt) →
  let rows := all_candidates visit ms t vis f in
  listable E compareEntryField entryFieldValue extract rows cols codec queryCtx received →
  let query := list_query extract cols codec queryCtx page_limit cursor report mode
                 (MultiStore_Query E uuid_Parse visit ms t vis f) in
  ∃ pages, walk E (S (length rows)) query EmptyString = Some pages ∧
    concat pages = Sort compareEntryField rows cols ∧ NoDup (concat pages) ∧
    ∀ e, e ∈ concat pages ↔ (∃ m, m ∈ ms ∧ in_store m e) ∧ visible t vis e ∧ matchesFilters e f = true.
Proof.
  intros HE Hv Hms Hargs rows Hli query.
  destruct (walk_all E compareEntryField entryFieldValue extract rows cols codec queryCtx received Hli HE
              page_limit cursor report mode (MultiStore_Query E uuid_Parse visit ms t vis f))
    as (pages & Hw & Hc & Hp & _); [by eapply MultiStore_Query_rows|].
  exists pages. split; [done|]. split; [done|].
  split; [rewrite Hp; apply (li_nodup _ _ _ _ _ _ _ _ _ Hli)|].
  intros e. rewrite Hp. unfold rows, all_candidates. rewrite elem_of_concat. rewrite Forall_forall in Hms. split.
  - intros (l & He & (m & -> & Hm)%list_elem_of_fmap).
    apply (audit_candidates_elem E uuid_Parse visit Hv) in He as (Hin & ? & ?); [|by apply appended_inv, Hms].
    split; [|done]. by exists m.
  - intros ((m & Hm & Hin) & Hvis & Hf). exists (candidates visit m t vis f). split.
    + apply (audit_candidates_elem E uuid_Parse visit Hv); [by apply appended_inv, Hms|done].
    + by apply (list_elem_of_fmap_2 (λ m, candidates visit m t vis f)).
Qed.

(** ** Sample stores *)

Module AuditSample.
Import LedgerSample.

Definition filters : AuditFilters := MkFilters EmptyString EmptyString EmptyString EmptyString 0 0.
Definition alice : RowVisibility := MkVis RowScopeSelf "alice".
Definition order (l : list (string * memChain)) : list (string * memChain) := l.

Definition rows : list Entry := Eval vm_compute in all_candidates order [relay_store; boot_store] tenant_a alice filters.
Definition received (e : Entry) : list anyval := [VString (pretty (Timestamp e)); VString (ID e)].
Definition extract (e : Entry) : option (list anyval) := Some [VTime (Timestamp e); VString (ID e)].
Definition codec : CursorCodec := MkCodec "0123456789abcdef0123456789abcdef" EmptyString.

Lemma rows_eq : all_candidates order [relay_store; boot_store] tenant_a alice filters = rows.
Proof. by vm_compute. Qed.

Lemma stores_appended : Forall (appended env) [relay_store; boot_store].
Proof. apply Forall_cons. split; [by do 3 eexists|]. apply Forall_cons. split; [by do 3 eexists|done]. Qed.

Definition row (i : nat) : Entry := nth i rows (event EmptyString EmptyString EmptyString 0).

Lemma audit_rows_forall (P : Entry → Prop) : P (row 0) → P (row 1) → P (row 2) → ∀ x, x ∈ rows → P x.
Proof. intros ???. apply Forall_forall. by repeat (apply Forall_cons; split). Qed.

Ltac each_row := refine (audit_rows_forall _ _ _ _); cbv beta.

Lemma args_ok params : lp_Sort params = QuerySort → validateQueryArgs uuid tenant_a alice filters params = Ok tt.
Proof. destruct params as [l v s]. cbn. intros ->. by vm_compute. Qed.

Lemma audit_rows_listable :
  listable env compareEntryField entryFieldValue extract rows QuerySort codec "audit" received.
Proof.
  split; [done|apply (bool_decide_unpack (NoDup rows)); by vm_compute|done|done|..].
  - intros x y Hx Hy. revert x Hx y Hy. each_row; each_row; vm_compute; congruence.
  - each_row; eexists; (split; [by vm_compute|]; split; [by vm_compute|by vm_compute]).
  - intros x y Hx Hy. revert x Hx y Hy. each_row; each_row;
      (apply Forall2_cons_2; [vm_compute; reflexivity|apply Forall2_cons_2; [vm_compute; reflexivity|apply Forall2_nil_2]]).
Qed.

End AuditSample.

Lemma tenant_isolation_witness :
  (∃ e, GetByID LedgerSample.uuid AuditSample.order LedgerSample.boot_store LedgerSample.tenant_a
          (MkVis RowScopeTenant EmptyString)
          (deterministicEntryID LedgerSample.env "boot" EmptyString "b2") = Ok e ∧
     visible LedgerSample.tenant_a (MkVis RowScopeTenant EmptyString) e) ∧
  MultiStore_Query LedgerSample.env LedgerSample.uuid AuditSample.order [] LedgerSample.tenant_a
    (MkVis RowScopeAll EmptyString) AuditSample.filters (MkListParams 2 None QuerySort) =
    Some (Err RowScopeAllUnsupportedError).
Proof.
  split.
  - destruct (tenant_isolation LedgerSample.env LedgerSample.uuid AuditSample.order LedgerSample.boot_store
                [LedgerSample.relay_store; LedgerSample.boot_store] LedgerSample.tenant_a
                (MkVis RowScopeTenant EmptyString) AuditSample.filters (MkListParams 2 None QuerySort)
                (λ l, Permutation_refl l) ltac:(by do 3 eexists) AuditSample.stores_appended) as (_ & Hid & _).
    eexists. split; [vm_compute; reflexivity|].
    eapply (Hid (deterministicEntryID LedgerSample.env "boot" EmptyString "b2")). vm_compute. reflexivity.
  - eapply (tenant_isolation LedgerSample.env LedgerSample.uuid AuditSample.order LedgerSample.boot_store []
              LedgerSample.tenant_a (MkVis RowScopeAll EmptyString) AuditSample.filters (MkListParams 2 None QuerySort)
              (λ l, Permutation_refl l) ltac:(by do 3 eexists) (Forall_nil_2 _)); by vm_compute.
Defined.

Lemma audit_listing_complete_witness :
  ∃ pages,
    walk LedgerSample.env 4
      (list_query AuditSample.extract QuerySort AuditSample.codec "audit" 2 EmptyString false RunModeProd
         (MultiStore_Query LedgerSample.env LedgerSample.uuid AuditSample.order
            [LedgerSample.relay_store; LedgerSample.boot_store] LedgerSample.tenant_a AuditSample.alice
            AuditSample.filters)) EmptyString = Some pages ∧
    ((λ page : list Entry, EventID <$> page) <$> pages) = [["e3"; "b1"]; ["e1"]]%string ∧
    concat pages = Sort compareEntryField AuditSample.rows QuerySort.
Proof.
  pose proof AuditSample.audit_rows_listable as Hli. rewrite <- AuditSample.rows_eq in Hli.
  destruct (audit_listing_complete LedgerSample.env LedgerSample.uuid AuditSample.order
              [LedgerSample.relay_store; LedgerSample.boot_store] LedgerSample.tenant_a AuditSample.alice
              AuditSample.filters QuerySort AuditSample.codec "audit" AuditSample.extract AuditSample.received
              2 EmptyString false RunModeProd LedgerSample.ledger_env_sized (λ l, Permutation_refl l)
              AuditSample.stores_appended AuditSample.args_ok Hli) as (pages & Hw & Hc & _).
  rewrite AuditSample.rows_eq in Hw, Hc. exists pages. split; [exact Hw|]. split; [|exact Hc].
  vm_compute in Hw. by injection Hw as <-.
Defined.
