(* ===== verification/ProjectionStore.v ===== *)
(** * kernel/projection: carriers, checkpoint stores and journal sources

    The data a projection works on: the lifecycle [Phase], the event carriers
    ([ProjectionEvent] is the Go interface; its constructors are the types of the
    repository that implement it and that the projection code tells apart), the
    in-memory checkpoint stores, the dead-letter sink and the two in-memory
    journals.  A store is the map or slice its mutex protects; each method is one
    atomic function of it.

    [JournalSource] is what the Coordinator asks of its replay source and cursor,
    [JournalLaws] what they promise (cursor.go's position invariants); both
    journals are instances.  healthz/probename.go is here because the
    constructors reject identifiers by the probe names they give rise to. *)

From Stdlib Require Import Ascii String.
From S2P Require Import Prelude GoJson.

(** ** healthz/probename.go *)

Definition probeNameMaxLen : Z := 64.

Definition lower_alnum (c : ascii) : bool := in_range "a" "z" c || in_range "0" "9" c.

(** The regular expression [^[a-z][a-z0-9]*(?:_[a-z0-9]+)*$]: after its first
    letter, [opened] tells that the last byte was an underscore. *)
Fixpoint probe_tail (opened : bool) (s : string) : bool :=
  match s with
  | EmptyString => negb opened
  | String c s' =>
      if lower_alnum c then probe_tail false s'
      else if (c =? "_")%char && negb opened then probe_tail true s' else false
  end.

Definition probeNamePattern (s : string) : bool :=
  match s with
  | EmptyString => false
  | String c s' => in_range "a" "z" c && probe_tail false s'
  end.

Definition NewProbeName (s : string) : outcome string :=
  if s ==s "" then Err (invalid "healthz: probe name must not be empty")
  else if byte_len s >? probeNameMaxLen
  then Err (invalid "healthz: probe name exceeds length budget")
  else if negb (probeNamePattern s)
  then Err (invalid "healthz: probe name must match snake_case lowercase regex")
  else Ok s.

Definition projectionProbeNameInfix : string := "_projection_".
Definition projectionStoreReadySuffix : string := "_store_ready".
Definition projectionLagSuffix : string := "_lag".
Definition sagaTailerProbeNameInfix : string := "_saga_tailer_".
Definition sagaTailerReadySuffix : string := "_ready".

Definition ProjectionStoreReadyProbeName (cellID projectionID : string) : outcome string :=
  if (cellID ==s "") || (projectionID ==s "")
  then Err (invalid "healthz: projection probe cellID and projectionID must not be empty")
  else NewProbeName (cellID ++ projectionProbeNameInfix ++ projectionID ++ projectionStoreReadySuffix).

Definition ProjectionLagProbeName (cellID projectionID : string) : outcome string :=
  if (cellID ==s "") || (projectionID ==s "")
  then Err (invalid "healthz: projection probe cellID and projectionID must not be empty")
  else NewProbeName (cellID ++ projectionProbeNameInfix ++ projectionID ++ projectionLagSuffix).

Definition SagaTailerReadyProbeName (cellID projectionID : string) : outcome string :=
  if (cellID ==s "") || (projectionID ==s "")
  then Err (invalid "healthz: saga tailer probe cellID and projectionID must not be empty")
  else NewProbeName (cellID ++ sagaTailerProbeNameInfix ++ projectionID ++ sagaTailerReadySuffix).

(** ** phase.go *)

Inductive Phase : Type :=
  | PhaseLive | PhaseStopped | PhaseReset | PhaseReplay | PhaseCatchup
  | PhaseOther (n : N).

#[global] Instance Phase_eq_dec : EqDecision Phase.
Proof. solve_decision. Defined.

(** The uint8 behind a phase; [PhaseOther 0] is the zero value and the other
    values of [PhaseOther] are those above [PhaseCatchup]. *)
Definition Phase_code (p : Phase) : Z :=
  match p with
  | PhaseLive => 1 | PhaseStopped => 2 | PhaseReset => 3 | PhaseReplay => 4 | PhaseCatchup => 5
  | PhaseOther n => if (n =? 0)%N then 0 else 5 + Z.of_N n
  end.

Definition Phase_Valid (p : Phase) : bool :=
  (Phase_code PhaseLive <=? Phase_code p) && (Phase_code p <=? Phase_code PhaseCatchup).

Definition Phase_String (p : Phase) : string :=
  match p with
  | PhaseOther n => if (n =? 0)%N then "invalid" else ("phase(" ++ pretty (Phase_code p) ++ ")")%string
  | PhaseLive => "live"
  | PhaseStopped => "stopped"
  | PhaseReset => "reset"
  | PhaseReplay => "replay"
  | PhaseCatchup => "catchup"
  end.

(** ** The carriers: outbox.Entry, JournalEvent, sagaProjectionEvent *)

(** The fields of an [outbox.Entry] a projection reads. *)
Record outboxEntry := MkOutboxEntry {
  en_id : string;
  en_eventType : string;
  en_topic : string;
  en_payload : bytes;
  en_occurredAt : Time;
}.

Definition entry_Stream (e : outboxEntry) : string :=
  if negb (en_topic e ==s "") then en_topic e else en_eventType e.

Inductive ProjectionEvent : Type :=
  | OutboxEntry (e : outboxEntry)
  | JournalEvent (entry : ProjectionEvent) (globalSeq : Z)
  | sagaProjectionEvent (globalSeq : Z) (instanceID : string) (payload : bytes) (occurredAt : Time).

#[global] Instance outboxEntry_eq_dec : EqDecision outboxEntry.
Proof. solve_decision. Defined.
#[global] Instance ProjectionEvent_eq_dec : EqDecision ProjectionEvent.
Proof. solve_decision. Defined.

Definition SagaJournalStream : string := "saga.journal.v1".
Definition SagaJournalEventIDPrefix : string := "saga-journal:".

Fixpoint EventID (ev : ProjectionEvent) : string :=
  match ev with
  | OutboxEntry e => en_id e
  | JournalEvent entry _ => EventID entry
  | sagaProjectionEvent seq inst _ _ =>
      (SagaJournalEventIDPrefix ++ pretty seq ++ "@" ++ inst)%string
  end.

Fixpoint Stream (ev : ProjectionEvent) : string :=
  match ev with
  | OutboxEntry e => entry_Stream e
  | JournalEvent entry _ => Stream entry
  | sagaProjectionEvent _ _ _ _ => SagaJournalStream
  end.

Fixpoint ev_Payload (ev : ProjectionEvent) : bytes :=
  match ev with
  | OutboxEntry e => en_payload e
  | JournalEvent entry _ => ev_Payload entry
  | sagaProjectionEvent _ _ payload _ => payload
  end.

Fixpoint OccurredAt (ev : ProjectionEvent) : Time :=
  match ev with
  | OutboxEntry e => en_occurredAt e
  | JournalEvent entry _ => OccurredAt entry
  | sagaProjectionEvent _ _ _ t => t
  end.

Definition PositionFromCarrier (entry : ProjectionEvent) : outcome Z :=
  match entry with
  | JournalEvent _ seq =>
      if seq <=? 0
      then Err (Permanent (invalid "projection: JournalEvent carries a non-positive global_seq (unseeded sentinel); a conforming journal source never emits seq 0"))
      else Ok seq
  | _ => Err (Permanent (invalid "projection: Position resolves only *JournalEvent carriers; an unresolvable carrier is permanent"))
  end.

(** ** memstore.go *)

Definition checkpointKey (cellID projectionID : string) : string := (cellID ++ "/" ++ projectionID)%string.

Definition LoadOffset (offsets : gmap string Z) (cellID projectionID : string) : Z :=
  default 0 (offsets !! checkpointKey cellID projectionID).

Definition SaveOffset (offsets : gmap string Z) (cellID projectionID : string) (offset : Z) : gmap string Z :=
  <[checkpointKey cellID projectionID := offset]> offsets.

(** ** mem_owner_checkpoint.go *)

Module OwnerStore.
Record ownerEntry := MkOwner { owner : string; offset : Z }.
Definition store := gmap string ownerEntry.
Definition zero : ownerEntry := MkOwner "" 0.
Definition entry_of (m : store) (cellID projectionID : string) : ownerEntry :=
  default zero (m !! checkpointKey cellID projectionID).
Definition ErrStaleOwner : goerror :=
  Errcode KindConflict ErrConflict "projection: checkpoint advance rejected — stale owner token".

Definition LoadOffset (m : store) (cellID projectionID : string) : Z :=
  offset (entry_of m cellID projectionID).

Definition SaveOffset (m : store) (cellID projectionID : string) (off : Z) : store :=
  <[checkpointKey cellID projectionID := MkOwner (owner (entry_of m cellID projectionID)) off]> m.

Definition AdvanceIfOwner (m : store) (cellID projectionID ownerToken : string) (off : Z)
    : outcome unit * store :=
  if ownerToken ==s "" then (Err (invalid "projection: AdvanceIfOwner requires a non-empty owner token"), m)
  else
    let e := entry_of m cellID projectionID in
    if (ownerToken ==s owner e) || (off >? offset e)
    then (Ok tt, <[checkpointKey cellID projectionID := MkOwner ownerToken off]> m)
    else (Err ErrStaleOwner, m).
End OwnerStore.

(** ** mem_deadletter.go *)

Module DeadLetters.
Record DeadLetter := MkDeadLetter {
  CellID : string;
  ProjectionID : string;
  dl_GlobalSeq : Z;
  dl_EventID : string;
  dl_Stream : string;
  ErrorType : string;
  ErrorMessage : string;
  dl_OccurredAt : Time;
}.

Definition deadLetterKey (dl : DeadLetter) : string * string * Z :=
  (CellID dl, ProjectionID dl, dl_GlobalSeq dl).

Record MemDeadLetterStore := MkDLStore {
  seen : gset (string * string * Z);
  records : list DeadLetter;
}.

Definition NewMemDeadLetterStore : MemDeadLetterStore := MkDLStore ∅ [].

Definition Record_ (m : MemDeadLetterStore) (dl : DeadLetter) : MemDeadLetterStore :=
  if decide (deadLetterKey dl ∈ seen m) then m
  else MkDLStore ({[deadLetterKey dl]} ∪ seen m) (records m ++ [dl]).
End DeadLetters.

(** ** The interface: ReplaySource with LiveCursor *)

(** [ReplaySince j from] are the entries [Replay(from, fn)] hands to [fn], in
    order, when [j] is the journal it snapshots; the loop around [fn] (context
    check, early return) is [replay_loop] of the Coordinator's file. *)
Class JournalSource (J : Type) := {
  Head : J → Z;
  ReplaySince : J → Z → list ProjectionEvent;
  Position : J → ProjectionEvent → outcome Z;
  ResolveCarrier : J → ProjectionEvent → outcome ProjectionEvent;
}.

(** What the event bus delivers for a journaled event: the entry without the
    journal's carrier. *)
Fixpoint bare (ev : ProjectionEvent) : ProjectionEvent :=
  match ev with JournalEvent entry _ => bare entry | _ => ev end.

(** cursor.go and replay.go: every journaled event has one position, positions
    are 1-based and strictly increasing, [Replay] delivers the events after an
    offset in that order, [Head] is the highest position, and a live delivery of
    a journaled event resolves to the event [Replay] would deliver. *)
Class JournalLaws (J : Type) `{!JournalSource J} := {
  source_ok : J → Prop;
  numbered : J → list (Z * ProjectionEvent);
  numbered_pos j p e : source_ok j → (p, e) ∈ numbered j → 1 ≤ p;
  numbered_sorted j : source_ok j → StronglySorted Z.lt (numbered j).*1;
  Head_spec j : source_ok j → Head j = default 0 (last (numbered j).*1);
  ReplaySince_spec j from : source_ok j →
    ReplaySince j from = (filter (λ pe, from < pe.1) (numbered j)).*2;
  Position_spec j p e : source_ok j → (p, e) ∈ numbered j → Position j e = Ok p;
  ResolveCarrier_spec j p e : source_ok j → (p, e) ∈ numbered j → ResolveCarrier j (bare e) = Ok e;
}.

(** The journal has grown: nothing is removed or renumbered. *)
Definition grows `{JournalLaws J} (j j' : J) : Prop :=
  source_ok j → source_ok j' ∧ numbered j `prefix_of` numbered j'.

(** Positions [i], [i + 1], ... in insertion order. *)
Fixpoint number {A} (i : Z) (l : list A) : list (Z * A) :=
  match l with [] => [] | x :: l' => (i, x) :: number (i + 1) l' end.

(** ** replay.go, memcursor.go: MemReplaySource with MemCursor *)

Module MemReplaySource.
Record source := MkSource { entries : list ProjectionEvent }.

Definition NewMemReplaySource : source := MkSource [].

Definition Append (m : source) (entry : ProjectionEvent) : source := MkSource (entries m ++ [entry]).

(** The loop of [Replay]: [pos] is [i + 1]. *)
Fixpoint since (pos fromOffset : Z) (snapshot : list ProjectionEvent) : list ProjectionEvent :=
  match snapshot with
  | [] => []
  | e :: rest =>
      if pos <=? fromOffset then since (pos + 1) fromOffset rest
      else e :: since (pos + 1) fromOffset rest
  end.

Definition Replay (m : source) (fromOffset : Z) : list ProjectionEvent := since 1 fromOffset (entries m).

Definition Head (m : source) : Z := Z.of_nat (length (entries m)).

Fixpoint position_from (pos : Z) (stored : list ProjectionEvent) (id : string) : Z :=
  match stored with
  | [] => 0
  | s :: rest => if EventID s ==s id then pos else position_from (pos + 1) rest id
  end.

Definition Position (m : source) (e : ProjectionEvent) : Z := position_from 1 (entries m) (EventID e).

(** [MemCursor.Position] and [MemCursor.ResolveCarrier]. *)
Definition cursor_Position (m : source) (entry : ProjectionEvent) : outcome Z :=
  let pos := Position m entry in
  if pos =? 0
  then Err (Permanent (invalid "projection.MemCursor: entry not present in the paired MemReplaySource"))
  else Ok pos.

Definition cursor_ResolveCarrier (m : source) (entry : ProjectionEvent) : outcome ProjectionEvent := Ok entry.
End MemReplaySource.

#[global] Instance mem_replay_source : JournalSource MemReplaySource.source := {|
  Head := MemReplaySource.Head;
  ReplaySince := MemReplaySource.Replay;
  Position := MemReplaySource.cursor_Position;
  ResolveCarrier := MemReplaySource.cursor_ResolveCarrier;
|}.

(** ** mem_journal_source.go: MemProjectionEventSource *)

Module MemProjectionEventSource.
Record source := MkSource { events : list (ProjectionEvent * Z) }.   (* entry, globalSeq *)

Definition carrier (ev : ProjectionEvent * Z) : ProjectionEvent := JournalEvent ev.1 ev.2.

Definition NewMemProjectionEventSource : source := MkSource [].

Definition Append (m : source) (entry : ProjectionEvent) : ProjectionEvent * source :=
  let seq := Z.of_nat (length (events m)) + 1 in
  (JournalEvent entry seq, MkSource (events m ++ [(entry, seq)])).

Fixpoint since (fromOffset : Z) (snapshot : list (ProjectionEvent * Z)) : list ProjectionEvent :=
  match snapshot with
  | [] => []
  | ev :: rest =>
      if ev.2 <=? fromOffset then since fromOffset rest else carrier ev :: since fromOffset rest
  end.

Definition Replay (m : source) (fromOffset : Z) : list ProjectionEvent := since fromOffset (events m).

Definition Head (m : source) : Z := Z.of_nat (length (events m)).

Definition Position (m : source) (entry : ProjectionEvent) : outcome Z := PositionFromCarrier entry.

Definition ResolveCarrier (m : source) (entry : ProjectionEvent) : outcome ProjectionEvent :=
  match entry with
  | JournalEvent _ _ => Ok entry
  | _ =>
      match list_find (λ ev, EventID (carrier ev) = EventID entry) (events m) with
      | Some (_, ev) => Ok (carrier ev)
      | None => Err (Permanent (invalid "projection: live entry not present in the in-memory projection journal; cannot resolve its global_seq"))
      end
  end.
End MemProjectionEventSource.

#[global] Instance mem_projection_event_source : JournalSource MemProjectionEventSource.source := {|
  Head := MemProjectionEventSource.Head;
  ReplaySince := MemProjectionEventSource.Replay;
  Position := MemProjectionEventSource.Position;
  ResolveCarrier := MemProjectionEventSource.ResolveCarrier;
|}.

(** ** The journals keep the laws *)

Section number.
Context {A : Type}.
Implicit Types l : list A.

Lemma number_app i l k : number i (l ++ k) = number i l ++ number (i + Z.of_nat (length l)) k.
Proof.
  revert i. induction l as [|x l IH]; intros i; [cbn; by rewrite Z.add_0_r|].
  cbn [app number length]. rewrite IH. cbn. do 3 f_equal. lia.
Qed.

Lemma number_elem i l p x :
  (p, x) ∈ number i l ↔ ∃ k, l !! k = Some x ∧ p = i + Z.of_nat k.
Proof.
  revert i. induction l as [|y l IH]; intros i; cbn.
  { rewrite elem_of_nil. naive_solver. }
  rewrite elem_of_cons, IH. split.
  - intros [[= -> ->]|(k&Hk&->)]; [exists 0%nat; split; [done|lia]|].
    exists (S k). split; [done|lia].
  - intros ([|k]&Hk&->); [left; naive_solver (f_equal; lia)|]. right. exists k. split; [done|lia].
Qed.

Lemma number_fst_le i l : Forall (λ p, i ≤ p) (number i l).*1.
Proof.
  rewrite Forall_fmap, Forall_forall. intros [p x] (k&_&->)%number_elem. cbn. lia.
Qed.

Lemma number_sorted i l : StronglySorted Z.lt (number i l).*1.
Proof.
  revert i. induction l as [|x l IH]; intros i; cbn; constructor; [done|].
  eapply Forall_impl; [apply number_fst_le|]. cbn. lia.
Qed.

Lemma number_last i l : last (number i l).*1 = if decide (l = []) then None else Some (i + Z.of_nat (length l) - 1).
Proof.
  destruct (decide (l = [])) as [->|Hl]; [done|].
  destruct l as [|x l _] using rev_ind; [done|].
  rewrite number_app, fmap_app, length_app. cbn. rewrite last_snoc. f_equal. lia.
Qed.

Lemma number_snd i l : (number i l).*2 = l.
Proof. revert i. induction l as [|x l IH]; intros i; cbn; [done|]. by rewrite IH. Qed.
End number.

Section instances.

Definition is_bare (ev : ProjectionEvent) : Prop := bare ev = ev.

(** The carrier contract: event ids are unique in a journal, and producers
    append plain entries. *)
Definition entries_ok (l : list ProjectionEvent) : Prop := NoDup (EventID <$> l) ∧ Forall is_bare l.

Lemma since_number pos from l :
  MemReplaySource.since pos from l = (filter (λ pe, from < pe.1) (number pos l)).*2.
Proof.
  revert pos. induction l as [|e l IH]; intros pos; [done|]. cbn [number MemReplaySource.since].
  rewrite filter_cons. destruct (pos <=? from) eqn:?, (decide (from < (pos, e).1)); bools;
    cbn in *; try lia; by rewrite IH.
Qed.

Lemma position_from_spec pos l k e :
  NoDup (EventID <$> l) → l !! k = Some e →
  MemReplaySource.position_from pos l (EventID e) = pos + Z.of_nat k.
Proof.
  revert pos k. induction l as [|x l IH]; intros pos k Hnd Hk; [done|].
  cbn in Hnd. apply NoDup_cons in Hnd as [Hx Hnd]. cbn. unfold str_eqb.
  destruct k as [|k]; simplify_eq/=.
  - rewrite bool_decide_true by done. lia.
  - rewrite bool_decide_false; [rewrite (IH _ k) by done; lia|].
    intros Heq. apply Hx. rewrite Heq. apply list_elem_of_fmap. eauto using list_elem_of_lookup_2.
Qed.

#[global] Program Instance mem_replay_laws : JournalLaws MemReplaySource.source := {|
  source_ok m := entries_ok (MemReplaySource.entries m);
  numbered m := number 1 (MemReplaySource.entries m);
|}.
Next Obligation. intros m p e _ (k&_&->)%number_elem. lia. Qed.
Next Obligation. intros m _. apply number_sorted. Qed.
Next Obligation.
  intros [l] _. unfold Head, mem_replay_source, MemReplaySource.Head. cbn. rewrite number_last.
  case_decide; subst; cbn; lia.
Qed.
Next Obligation. intros m from _. apply since_number. Qed.
Next Obligation.
  intros m p e [Hnd _] (k&Hk&->)%number_elem. unfold Position. cbn.
  unfold MemReplaySource.cursor_Position, MemReplaySource.Position.
  rewrite (position_from_spec 1 _ _ _ Hnd Hk). by destruct (1 + Z.of_nat k =? 0) eqn:?; bools; [lia|].
Qed.
Next Obligation.
  intros m p e [_ Hb] (k&Hk&->)%number_elem.
  unfold ResolveCarrier. cbn. unfold MemReplaySource.cursor_ResolveCarrier.
  by rewrite (Forall_lookup_1 _ _ _ _ Hb Hk).
Qed.

(** The events a [MemProjectionEventSource] holds after any sequence of appends. *)
Definition journal_ok (m : MemProjectionEventSource.source) : Prop :=
  (MemProjectionEventSource.events m).*2 = (number 1 (MemProjectionEventSource.events m)).*1 ∧
  entries_ok (MemProjectionEventSource.events m).*1.

Lemma journal_lookup m k ev :
  journal_ok m → MemProjectionEventSource.events m !! k = Some ev → ev.2 = 1 + Z.of_nat k.
Proof.
  intros [Hseq _] Hk.
  assert ((MemProjectionEventSource.events m).*2 !! k = Some ev.2) as Hs
    by (by rewrite list_lookup_fmap, Hk).
  rewrite Hseq, list_lookup_fmap in Hs. apply fmap_Some in Hs as ([p x]&Hx&->). cbn.
  revert Hx. generalize 1. revert k Hk. generalize (MemProjectionEventSource.events m) as l.
  induction l as [|y l IH]; intros [|k] Hk i; cbn in *; [done|done|naive_solver lia|].
  intros Hx. rewrite (IH k Hk (i + 1) Hx). lia.
Qed.

Lemma journal_Append m entry :
  journal_ok m → is_bare entry → EventID entry ∉ EventID <$> (MemProjectionEventSource.events m).*1 →
  journal_ok (MemProjectionEventSource.Append m entry).2.
Proof.
  intros [Hseq [Hnd Hb]] He Hid. split; cbn.
  - rewrite number_app, !fmap_app, Hseq. cbn. do 2 f_equal. lia.
  - rewrite fmap_app. split; [rewrite fmap_app; cbn; by apply NoDup_snoc|by apply Forall_app_2, Forall_singleton].
Qed.

Lemma since_filter from l :
  MemProjectionEventSource.since from l
  = MemProjectionEventSource.carrier <$> filter (λ ev, from < ev.2) l.
Proof.
  induction l as [|ev l IH]; [done|]. cbn [MemProjectionEventSource.since].
  rewrite filter_cons. destruct (ev.2 <=? from) eqn:?, (decide (from < ev.2)); bools;
    try lia; cbn; by rewrite IH.
Qed.

Lemma filter_seqs from (l : list (ProjectionEvent * Z)) :
  MemProjectionEventSource.carrier <$> filter (λ ev, from < ev.2) l
  = (filter (λ pe : Z * ProjectionEvent, from < pe.1)
       ((λ ev, (ev.2, MemProjectionEventSource.carrier ev)) <$> l)).*2.
Proof.
  induction l as [|ev l IH]; [done|]. cbn [fmap list_fmap]. rewrite !filter_cons. cbn.
  case_decide; cbn; by rewrite IH.
Qed.

#[global] Program Instance mem_projection_event_laws : JournalLaws MemProjectionEventSource.source := {|
  source_ok := journal_ok;
  numbered m := (λ ev, (ev.2, MemProjectionEventSource.carrier ev)) <$> MemProjectionEventSource.events m;
|}.
Next Obligation.
  intros m p e Hok (ev&[= -> ->]&[k Hk]%list_elem_of_lookup)%list_elem_of_fmap.
  rewrite (journal_lookup _ _ _ Hok Hk). lia.
Qed.
Next Obligation.
  intros m [Hseq _]. rewrite <- list_fmap_compose.
  change (StronglySorted Z.lt (MemProjectionEventSource.events m).*2). rewrite Hseq. apply number_sorted.
Qed.
Next Obligation.
  intros m [Hseq _]. rewrite <- list_fmap_compose.
  change (Head m = default 0 (last (MemProjectionEventSource.events m).*2)). rewrite Hseq, number_last.
  unfold Head. cbn. unfold MemProjectionEventSource.Head. destruct m as [l]. cbn.
  case_decide; subst; cbn; lia.
Qed.
Next Obligation.
  intros m from _. unfold ReplaySince. cbn. unfold MemProjectionEventSource.Replay.
  by rewrite since_filter, filter_seqs.
Qed.
Next Obligation.
  intros m p e Hok (ev&[= -> ->]&[k Hk]%list_elem_of_lookup)%list_elem_of_fmap.
  unfold Position. cbn. unfold MemProjectionEventSource.Position. cbn.
  rewrite (journal_lookup _ _ _ Hok Hk). by destruct (1 + Z.of_nat k <=? 0) eqn:?; bools; [lia|].
Qed.
Next Obligation.
  intros m p e Hok (ev&[= -> ->]&[k Hk]%list_elem_of_lookup)%list_elem_of_fmap.
  destruct Hok as [_ [Hnd Hb]].
  assert (Hk1 : (MemProjectionEventSource.events m).*1 !! k = Some ev.1) by (by rewrite list_lookup_fmap, Hk).
  assert (Hev : is_bare ev.1) by (by eapply Forall_lookup_1 in Hb).
  cbn. unfold is_bare in Hev. rewrite Hev.
  unfold MemProjectionEventSource.ResolveCarrier.
  destruct ev as [[e|e n|n i pl t] seq]; cbn in *.
  2:{ exfalso. clear -Hev. assert (∀ x, bare x ≠ JournalEvent e n) as H; [|by eapply H].
      induction x; cbn; naive_solver. }
  all: destruct (list_find _ _) as [[k' ev']|] eqn:Hf;
    [|rewrite list_find_None in Hf; by eapply Forall_lookup_1 in Hf; [|exact Hk]].
  all: apply list_find_Some in Hf as (Hk'&Heq&_); cbn in Heq.
  all: assert (k' = k) as ->; [|by simplify_eq].
  all: eapply NoDup_lookup; [exact Hnd|..]; rewrite !list_lookup_fmap;
    [by rewrite Hk'; cbn; rewrite Heq|by rewrite Hk].
Qed.
End instances.

(** ** Consequences of the laws *)

Lemma StronglySorted_fst_split {B} (l k : list (Z * B)) x y :
  StronglySorted Z.lt (l ++ k).*1 → x ∈ l → y ∈ k → x.1 < y.1.
Proof.
  rewrite fmap_app. intros Hs Hx Hy.
  eapply StronglySorted_app_1_elem_of in Hs; [exact Hs|..]; by apply list_elem_of_fmap_2.
Qed.

(** Filtering a sorted numbering by a lower bound cuts it in two. *)
Lemma filter_above {B} from (l : list (Z * B)) :
  StronglySorted Z.lt l.*1 →
  ∃ pre, l = pre ++ filter (λ pe, from < pe.1) l ∧ ∀ pe, pe ∈ pre → pe.1 ≤ from.
Proof.
  induction l as [|x l IH]; intros Hs; [by exists []; split; [|by intros pe ?%elem_of_nil]|].
  cbn in Hs. apply StronglySorted_inv in Hs as [Hs Hx]. rewrite filter_cons. case_decide as Hd.
  - exists []. split; [|by intros pe ?%elem_of_nil]. cbn. f_equal. symmetry.
    apply filter_all. rewrite Forall_fmap in Hx. eapply Forall_impl; [exact Hx|].
    cbn. intros y ?. lia.
  - destruct (IH Hs) as (pre&Heq&Hpre). exists (x :: pre). split; [cbn; by f_equal|].
    intros pe [->|Hpe]%elem_of_cons; [lia|by apply Hpre].
Qed.

Section laws.
Context {J : Type} `{JournalLaws J}.

Lemma grows_refl j : grows j j.
Proof. by intros ?. Qed.

Lemma grows_trans j1 j2 j3 : grows j1 j2 → grows j2 j3 → grows j1 j3.
Proof.
  intros H1 H2 Hok. destruct (H1 Hok) as [Hok2 Hp]. destruct (H2 Hok2) as [Hok3 Hp'].
  split; [done|by etrans].
Qed.

Lemma Head_max j p e : source_ok j → (p, e) ∈ numbered j → p ≤ Head j.
Proof.
  intros Hok Hin. rewrite Head_spec by done. pose proof (numbered_sorted j Hok) as Hs.
  destruct (numbered j) as [|x l _] using rev_ind; [by apply elem_of_nil in Hin|].
  rewrite fmap_app in *. cbn. rewrite last_snoc. cbn.
  apply elem_of_app in Hin as [Hin|Hin]; [|by apply list_elem_of_singleton in Hin as <-].
  eapply StronglySorted_app_1_elem_of in Hs;
    [apply Z.lt_le_incl, Hs|by apply (list_elem_of_fmap_2 fst) in Hin|by apply list_elem_of_singleton].
Qed.

Lemma Head_elem j : source_ok j → 0 < Head j → ∃ e, (Head j, e) ∈ numbered j.
Proof.
  intros Hok. rewrite Head_spec by done.
  destruct (numbered j) as [|[p e] l _] using rev_ind; [done|].
  rewrite fmap_app. cbn. rewrite last_snoc. cbn. intros _. exists e.
  apply elem_of_app. right. by apply list_elem_of_singleton.
Qed.

Lemma Head_nonneg j : source_ok j → 0 ≤ Head j.
Proof.
  intros Hok. rewrite Head_spec by done. destruct (last (numbered j).*1) as [p|] eqn:Hl; [|done].
  apply last_Some_elem_of, list_elem_of_fmap in Hl as ([p' e]&->&He).
  pose proof (numbered_pos j _ _ Hok He). cbn. lia.
Qed.

Lemma grows_elem j j' pe : grows j j' → source_ok j → pe ∈ numbered j → pe ∈ numbered j'.
Proof. intros Hg Hok Hin. destruct (Hg Hok) as [_ [k Hk]]. rewrite Hk. apply elem_of_app. by left. Qed.

Lemma grows_Head j j' : grows j j' → source_ok j → Head j ≤ Head j'.
Proof.
  intros Hg Hok. destruct (Hg Hok) as [Hok' _].
  destruct (decide (0 < Head j)) as [Hpos|]; [|pose proof (Head_nonneg j' Hok'); lia].
  destruct (Head_elem j Hok Hpos) as [e He]. eapply Head_max; [done|by eapply grows_elem].
Qed.

(** Events that appear later have higher positions. *)
Lemma grows_old j j' p e q e' :
  grows j j' → source_ok j → (p, e) ∈ numbered j' → p ≤ q → (q, e') ∈ numbered j → (p, e) ∈ numbered j.
Proof.
  intros Hg Hok Hp Hle Hq. destruct (Hg Hok) as [Hok' [k Hk]]. rewrite Hk in Hp.
  apply elem_of_app in Hp as [|Hp]; [done|].
  pose proof (numbered_sorted j' Hok') as Hs. rewrite Hk in Hs.
  pose proof (StronglySorted_fst_split _ _ _ _ Hs Hq Hp) as Hlt. cbn in Hlt. lia.
Qed.
End laws.

(** ** Identifiers that give valid probe names *)

(** The automaton of [probeNamePattern] as a run to its last state. *)
Fixpoint probe_run (opened : bool) (s : string) : option bool :=
  match s with
  | EmptyString => Some opened
  | String ch s' =>
      if lower_alnum ch then probe_run false s'
      else if (ch =? "_")%char && negb opened then probe_run true s' else None
  end.

Lemma probe_tail_run b s : probe_tail b s = match probe_run b s with Some o => negb o | None => false end.
Proof.
  revert b. induction s as [|ch s IH]; intros b; [done|]. cbn.
  destruct (lower_alnum ch); [apply IH|]. by destruct (_ && _); [apply IH|].
Qed.

Lemma probe_run_app b s t : probe_run b (s ++ t) = probe_run b s ≫= λ b', probe_run b' t.
Proof.
  revert b. induction s as [|ch s IH]; intros b; [done|]. rewrite append_String. cbn.
  destruct (lower_alnum ch); [apply IH|]. by destruct (_ && _); [apply IH|].
Qed.

(** A name accepted with one underscored suffix has the shape required with any
    other. *)
Lemma probe_shape_suffix prefix s t :
  prefix ≠ EmptyString → probe_run true s = Some false → probe_run true t = Some false →
  probeNamePattern (prefix ++ String "_" s) = true →
  probeNamePattern (prefix ++ String "_" t) = true.
Proof.
  destruct prefix as [|ch p]; [done|]. intros _ Hs Ht. rewrite !append_String. cbn [probeNamePattern].
  destruct (in_range "a" "z" ch); [|done]. cbn [andb]. rewrite !probe_tail_run, !probe_run_app.
  destruct (probe_run false p) as [[]|]; [done| |done].
  cbn [mbind option_bind probe_run]. by rewrite Ht.
Qed.

(** Names are built of lower-case letters, digits and underscores. *)
Fixpoint no_slash (s : string) : bool :=
  match s with EmptyString => true | String ch s' => negb (ch =? "/")%char && no_slash s' end.

Lemma probe_run_no_slash b s b' : probe_run b s = Some b' → no_slash s = true.
Proof.
  revert b. induction s as [|ch s IH]; intros b; [done|]. cbn [probe_run no_slash].
  destruct (Ascii.eqb ch "/") eqn:Hc.
  { apply Ascii.eqb_eq in Hc as ->. by destruct b. }
  destruct (lower_alnum ch); [apply IH|]. by destruct (_ && _); [apply IH|].
Qed.

Lemma no_slash_app s t : no_slash (s ++ t) = no_slash s && no_slash t.
Proof. induction s as [|ch s IH]; [done|]. rewrite append_String. cbn [no_slash]. by rewrite IH, andb_assoc. Qed.

Lemma probeNamePattern_no_slash s : probeNamePattern s = true → no_slash s = true.
Proof.
  destruct s as [|ch s]; [done|]. cbn [probeNamePattern no_slash]. intros [Hc Ht]%andb_prop.
  rewrite probe_tail_run in Ht. destruct (probe_run false s) eqn:Hr; [|done].
  rewrite (probe_run_no_slash _ _ _ Hr), andb_true_r.
  destruct (Ascii.eqb ch "/") eqn:He; [|done]. by apply Ascii.eqb_eq in He as ->.
Qed.

Lemma slash_split s t s' t' :
  no_slash s = true → no_slash s' = true → (s ++ "/" ++ t = s' ++ "/" ++ t')%string → s = s' ∧ t = t'.
Proof.
  revert s'. induction s as [|ch s IH]; intros [|ch' s']; cbn [no_slash];
    rewrite ?append_String, ?append_Empty; intros Hs Hs' Heq.
  - by injection Heq.
  - injection Heq as <- _. done.
  - injection Heq as -> _. done.
  - injection Heq as -> Heq. apply andb_prop in Hs as [_ Hs], Hs' as [_ Hs'].
    by destruct (IH s' Hs Hs' Heq) as [-> ->].
Qed.

Lemma NewProbeName_Ok s n :
  NewProbeName s = Ok n ↔ n = s ∧ byte_len s ≤ probeNameMaxLen ∧ probeNamePattern s = true.
Proof.
  unfold NewProbeName, str_eqb. destruct (bool_decide (s = "")) eqn:?; bools; [subst; by split; [|intros (_&_&?)]|].
  rewrite Z.gtb_ltb. destruct (probeNameMaxLen <? byte_len s) eqn:?; bools; [split; [done|intros (_&?&_); lia]|].
  destruct (probeNamePattern s); cbn; split; [by intros [= <-]|by intros (->&_)|done|by intros (_&_&?)].
Qed.

Lemma NewProbeName_accept s : byte_len s ≤ 64 → probeNamePattern s = true → NewProbeName s = Ok s.
Proof. intros ??. by apply NewProbeName_Ok. Qed.
