(* ===== verification/GoFlow.v ===== *)
(** * Code that fails, panics, stops early and runs in transactions

    The state monad of the projection drivers: a computation over a world [W]
    ends with a value, an error, the private sentinel of a replay callback or a
    panic, and leaves a world in every case. *)

From S2P Require Import Prelude ProjectionStore.

(** [Stop] is a package-private sentinel error a replay callback returns to end
    the replay ([errDrainDone], [errStopAtHead]); no other code can return it. *)
Inductive flow (A : Type) : Type :=
  | Val (a : A)
  | Fail (e : goerror)
  | Stop
  | Panic.
Arguments Val {A} a.
Arguments Fail {A} e.
Arguments Stop {A}.
Arguments Panic {A}.

#[global] Instance flow_eq_dec {A} `{!EqDecision A} : EqDecision (flow A).
Proof. solve_decision. Defined.

Definition go (W A : Type) : Type := W → flow A * W.

#[global] Instance go_ret {W} : MRet (go W) := λ A a w, (Val a, w).
#[global] Instance go_bind {W} : MBind (go W) := λ A B f x w,
  match x w with
  | (Val a, w') => f a w'
  | (Fail e, w') => (Fail e, w')
  | (Stop, w') => (Stop, w')
  | (Panic, w') => (Panic, w')
  end.

Definition fail {W A} (e : goerror) : go W A := λ w, (Fail e, w).
Definition stop {W A} : go W A := λ w, (Stop, w).
Definition read {W A} (f : W → A) : go W A := λ w, (Val (f w), w).
Definition modify {W} (f : W → W) : go W unit := λ w, (Val tt, f w).
Definition lift {W A} (r : outcome A) : go W A := λ w,
  (match r with Ok a => Val a | Err e => Fail e end, w).

(** [fmt.Errorf("p: %w", err)] on the error branch. *)
Definition wrapf {W A} (p : string) (x : go W A) : go W A := λ w,
  match x w with (Fail e, w') => (Fail (Errorf p e), w') | r => r end.

(** The error as a value, for code that looks at it. *)
Definition caught {W A} (x : go W A) : go W (outcome A) := λ w,
  match x w with
  | (Val a, w') => (Val (Ok a), w')
  | (Fail e, w') => (Val (Err e), w')
  | (Stop, w') => (Stop, w')
  | (Panic, w') => (Panic, w')
  end.

(** The body of [Replay]: the context check and the callback, entry by entry. *)
Fixpoint replay_loop {W} (ctxErr : go W unit) (fn : ProjectionEvent → go W unit)
    (entries : list ProjectionEvent) : go W unit :=
  match entries with
  | [] => mret tt
  | e :: rest => ctxErr ≫= λ _, fn e ≫= λ _, replay_loop ctxErr fn rest
  end.

(** [TxRunner.RunInTx] as adapters/postgres implements it: begin ([yield], before
    which other goroutines may run), the function, commit ([outside]).  Unless
    the function returns nil and the commit succeeds, [restore] puts the database
    part of the world back; a panic is raised again after the rollback. *)
Definition tx {W} (yield outside : go W unit) (restore : W → W → W) (fn : go W unit) : go W unit := λ w,
  match yield w with
  | (Val _, w1) =>
      match (fn ≫= λ _, outside) w1 with
      | (Val _, w2) => (Val tt, w2)
      | (r, w2) => (r, restore w1 w2)
      end
  | r => r
  end.

(** ** Inversion *)

Section inversion.
Context {W : Type}.
Implicit Type w : W.

Lemma bind_inv {A B} (x : go W A) (f : A → go W B) w r w' :
  (x ≫= f) w = (r, w') →
  ∃ rx wx, x w = (rx, wx) ∧
    match rx with
    | Val a => f a wx = (r, w')
    | Fail e => r = Fail e ∧ w' = wx
    | Stop => r = Stop ∧ w' = wx
    | Panic => r = Panic ∧ w' = wx
    end.
Proof.
  unfold mbind, go_bind. destruct (x w) as [rx wx] eqn:Hx. intros Hr. exists rx, wx.
  split; [done|]. by destruct rx; simplify_eq.
Qed.

(** Running a step that succeeds. *)
Lemma bind_Val {A B} (x : go W A) (f : A → go W B) w a w1 :
  x w = (Val a, w1) → (x ≫= f) w = f a w1.
Proof. intros Hx. unfold mbind, go_bind. by rewrite Hx. Qed.

Lemma wrapf_Val {A} p (x : go W A) w a w1 : x w = (Val a, w1) → wrapf p x w = (Val a, w1).
Proof. intros Hx. unfold wrapf. by rewrite Hx. Qed.

Lemma wrapf_inv {A} p (x : go W A) w r w' :
  wrapf p x w = (r, w') →
  ∃ rx, x w = (rx, w') ∧ match rx with Fail e => r = Fail (Errorf p e) | _ => r = rx end.
Proof. unfold wrapf. destruct (x w) as [rx wx]. intros Hr. exists rx. by destruct rx; simplify_eq. Qed.

Lemma caught_inv {A} (x : go W A) w r w' :
  caught x w = (r, w') →
  ∃ rx, x w = (rx, w') ∧
    match rx with
    | Val a => r = Val (Ok a) | Fail e => r = Val (Err e) | Stop => r = Stop | Panic => r = Panic
    end.
Proof. unfold caught. destruct (x w) as [rx wx]. intros Hr. exists rx. by destruct rx; simplify_eq. Qed.

(** A transaction commits as a whole or is rolled back. *)
Lemma tx_inv (yield outside : go W unit) restore fn w r w' :
  tx yield outside restore fn w = (r, w') →
  (r = Val tt ∧ ∃ w1 w2, yield w = (Val tt, w1) ∧ fn w1 = (Val tt, w2) ∧ outside w2 = (Val tt, w')) ∨
  (r ≠ Val tt ∧
   (yield w = (r, w') ∨ ∃ w1 w2, yield w = (Val tt, w1) ∧ (fn ≫= λ _, outside) w1 = (r, w2) ∧ w' = restore w1 w2)).
Proof.
  unfold tx. destruct (yield w) as [[[]|e| |] w1] eqn:Hy; [|intros [= <- <-]; right; split; [done|by left]..].
  destruct ((fn ≫= λ _, outside) w1) as [rf w2] eqn:Hf. intros Hr.
  destruct rf as [[]|e| |]; injection Hr as <- <-; [left|right; split; [done|right; by exists w1, w2]..].
  split; [done|]. apply bind_inv in Hf as (r1&w2'&Hf&Hk). exists w1, w2'.
  by destruct r1 as [[]|e| |]; [|destruct Hk as [[=] _]..].
Qed.
End inversion.
