(* ===== verification/Projection.v ===== *)
(** * kernel/projection: the Coordinator

    coordinator.go (live delivery), rebuild.go (the rebuild goroutine), probe.go
    and snapshot.go.  Code that runs in a transaction and may fail, panic or stop
    a replay early is written in the state monad [go] of GoFlow.v.

    A [world] is everything the two goroutines share: the checkpoint store and
    the read model (the database, rolled back with a transaction), the journal,
    and the Coordinator's own fields (phase, gate, last applied time), which are
    not.  The surroundings are an [env]: [weather n] is the answer of the n-th
    call that can fail for reasons outside this code (begin, commit, a store or a
    journal call, [ctx.Err]), and [interfere n] is what other goroutines do to
    the world before the n-th transaction or context check.  The business code
    ([apply], [onReset]) is a field of the Coordinator; [None] is a panic.

    The gate is a boolean ([true] = open, a closed channel): only the rebuild
    goroutine stores a new channel, and it closes the one it stored. *)

From S2P Require Import Prelude GoJson ConsumerBase ProjectionStore GoFlow.

(** ** State *)

Record world (M J : Type) := MkWorld {
  offsets : gmap string Z;
  model : M;
  journal : J;
  phase : Phase;
  gate : bool;
  lastAppliedUnixNano : Z;
  tick : nat;
}.
Arguments MkWorld {M J} _ _ _ _ _ _ _.
Arguments offsets {M J} _.
Arguments model {M J} _.
Arguments journal {M J} _.
Arguments phase {M J} _.
Arguments gate {M J} _.
Arguments lastAppliedUnixNano {M J} _.
Arguments tick {M J} _.

Record Coordinator (M : Type) := MkCoordinator {
  cellID : string;
  projectionID : string;
  spec_Topic : string;
  apply : ProjectionEvent → M → option (outcome unit) * M;
  onReset : option (M → option (outcome unit) * M);
}.
Arguments MkCoordinator {M} _ _ _ _ _.
Arguments cellID {M} _.
Arguments projectionID {M} _.
Arguments spec_Topic {M} _.
Arguments apply {M} _ _ _.
Arguments onReset {M} _.

Record env (M J : Type) := MkEnv {
  weather : nat → option goerror;
  interfere : nat → world M J → world M J;
}.
Arguments MkEnv {M J} _ _.
Arguments weather {M J} _ _.
Arguments interfere {M J} _ _ _.

Section setters.
Context {M J : Type}.
Implicit Type w : world M J.

Definition set_db (o : gmap string Z) (m : M) w : world M J :=
  MkWorld o m (journal w) (phase w) (gate w) (lastAppliedUnixNano w) (tick w).
Definition set_phase (p : Phase) w : world M J :=
  MkWorld (offsets w) (model w) (journal w) p (gate w) (lastAppliedUnixNano w) (tick w).
Definition set_gate (g : bool) w : world M J :=
  MkWorld (offsets w) (model w) (journal w) (phase w) g (lastAppliedUnixNano w) (tick w).
Definition set_last (t : Z) w : world M J :=
  MkWorld (offsets w) (model w) (journal w) (phase w) (gate w) t (tick w).
Definition set_journal (j : J) w : world M J :=
  MkWorld (offsets w) (model w) j (phase w) (gate w) (lastAppliedUnixNano w) (tick w).
Definition advance_tick w : world M J :=
  MkWorld (offsets w) (model w) (journal w) (phase w) (gate w) (lastAppliedUnixNano w) (S (tick w)).
End setters.

(** The constructor's checks on the identifiers (the nil checks on the
    dependencies have no counterpart: they are always given here). *)
Definition NewCoordinator (cellID projectionID : string) : outcome unit :=
  if cellID ==s "" then Err (invalid "projection.NewCoordinator: CellID required")
  else if projectionID ==s "" then Err (invalid "projection.NewCoordinator: ProjectionID required")
  else if negb (is_ok (ProjectionLagProbeName cellID projectionID))
  then Err (invalid "projection.NewCoordinator: CellID and ProjectionID must be valid snake_case probe-name identifiers")
  else Ok tt.

(** [Subscribe]: the [subscribed] flag it leaves.  [valid] is what
    [spec.Validate] and [registered] what the registrar answered. *)
Definition Subscribe (projectionID : string) (subscribed applyNil : bool) (specKind : string)
    (valid registered : outcome unit) : outcome unit * bool :=
  if subscribed
  then (Err (invalid "projection.Subscribe: already subscribed; one Coordinator hosts exactly one projection (v1 single input stream)"), true)
  else if applyNil then (Err (invalid "projection.Subscribe: apply required"), false)
  else if negb (specKind ==s "event")
  then (Err (invalid ("projection.Subscribe: spec.Kind must be " ++ String quote ("event" ++
         String quote "; a projection consumes an event-kind input stream"))), false)
  else
    match valid with
    | Err e => (Err (Errorf ("projection.Subscribe[" ++ projectionID ++ "]: invalid spec") e), false)
    | Ok _ =>
        match registered with
        | Err e => (Err (Errorf ("projection.Subscribe[" ++ projectionID ++ "]") e), true)
        | Ok _ => (Ok tt, true)
        end
    end.

Definition init_world {M J} (m : M) (j : J) (o : gmap string Z) : world M J :=
  MkWorld o m j PhaseLive true 0 0.

Definition Reject (err : goerror) : HandleResult := MkResult DispositionReject (Some err).

Fixpoint IsPermanent (err : goerror) : bool :=
  match err with
  | Permanent _ => true
  | Errorf _ cause => IsPermanent cause
  | Errcode _ _ _ | ErrorsNew _ => false
  end.

Definition classify (err : option goerror) : HandleResult :=
  match err with
  | None => Ack
  | Some e => if IsPermanent e then Reject e else Requeue (Some e)
  end.

Definition ErrRebuildInProgress : goerror :=
  Errcode KindConflict ErrConflict
    "projection.Rebuild: rebuild already in progress; only one rebuild may run at a time".

Definition errNonPositive : goerror :=
  Permanent (invalid "projection.position: cursor returned a non-positive position; Cursor must honor the 1-based invariant").

Definition errLag : goerror :=
  Errcode KindUnavailable "ERR_SERVICE_UNAVAILABLE" "projection.probe: replay lag exceeds threshold".

Inductive rebuild_result : Type :=
  | RebuildCompleted
  | RebuildDegraded
  | RebuildFailed (phase : string) (err : option goerror).

Section coordinator.
Context {M J : Type} `{!JournalSource J}.
Context (c : Coordinator M) (E : env M J).
Abbreviation W := (world M J).

(** ** Calls into the surroundings *)

(** A call that may fail: [weather] says how. *)
Definition outside : go W unit := λ w,
  match weather E (tick w) with
  | Some e => (Fail e, advance_tick w)
  | None => (Val tt, advance_tick w)
  end.

(** The same, where other goroutines may run first. *)
Definition yield : go W unit := λ w, outside (interfere E (tick w) w).

Definition ctxErr : go W unit := yield.

Definition RunInTx (fn : go W unit) : go W unit :=
  tx yield outside (λ w1 w2, set_db (offsets w1) (model w1) w2) fn.

Definition load_offset : go W Z :=
  outside ≫= λ _, read (λ w, LoadOffset (offsets w) (cellID c) (projectionID c)).
Definition save_offset (offset : Z) : go W unit :=
  outside ≫= λ _, modify (λ w, set_db (SaveOffset (offsets w) (cellID c) (projectionID c) offset) (model w) w).
Definition head : go W Z := outside ≫= λ _, read (λ w, Head (journal w)).

(** Business code runs on the read model. *)
Definition business (f : M → option (outcome unit) * M) : go W unit := λ w,
  match f (model w) with
  | (Some (Ok _), m) => (Val tt, set_db (offsets w) m w)
  | (Some (Err e), m) => (Fail e, set_db (offsets w) m w)
  | (None, m) => (Panic, set_db (offsets w) m w)
  end.

(** ** coordinator.go *)

(** [None] is [proceed = false] with a nil error: already reflected. *)
Definition resolvePosition (entry : ProjectionEvent) : go W (option Z) :=
  current ← wrapf "projection.position[load]" load_offset;
  pos ← wrapf "projection.position[cursor]" (λ w, lift (Position (journal w) entry) w);
  if pos <? 1 then fail errNonPositive
  else if pos <=? current then mret None
  else mret (Some pos).

Definition applyOne (entry : ProjectionEvent) : go W unit :=
  p ← resolvePosition entry;
  match p with
  | None => mret tt
  | Some pos =>
      wrapf "projection.applyOne[apply]" (business (apply c entry)) ≫= λ _,
      wrapf "projection.applyOne[save]" (save_offset pos) ≫= λ _,
      modify (set_last (UnixNano (OccurredAt entry)))
  end.

(** The [select] on the gate and the context; [None]: the handler stays parked.
    With both channels ready Go picks either, here by [pick]. *)
Definition select_gate (opened : bool) (ctx : option goerror) (pick : bool) : option (outcome unit) :=
  match opened, ctx with
  | true, None => Some (Ok tt)
  | true, Some e => Some (if pick then Ok tt else Err e)
  | false, Some e => Some (Err e)
  | false, None => None
  end.

(** The handler after the gate: one transaction, then [classify].  A panic is
    left to the caller. *)
Definition handle (entry : ProjectionEvent) : go W HandleResult :=
  r ← caught (RunInTx (ev ← (λ w, lift (ResolveCarrier (journal w) entry) w); applyOne ev));
  mret (classify (match r with Ok _ => None | Err e => Some e end)).

Definition buildHandler (ctx : option goerror) (pick : bool) (entry : ProjectionEvent)
    : go W (option HandleResult) := λ w,
  match select_gate (gate w) ctx pick with
  | None => (Val None, w)
  | Some (Err e) =>
      (Val (Some (Requeue (Some (Errorf "projection.handler: context canceled waiting for gate" e)))), w)
  | Some (Ok _) => (r ← handle entry; mret (Some r)) w
  end.

Definition shutGate : go W unit := modify (set_gate false).
Definition openGate : go W unit := modify (set_gate true).

(** ** rebuild.go *)

Definition advanceOffsetPastForeign (entry : ProjectionEvent) : go W unit :=
  p ← resolvePosition entry;
  match p with
  | None => mret tt
  | Some pos => wrapf "projection.rebuild[foreign-save]" (save_offset pos)
  end.

Definition drain_callback (through : Z) (entry : ProjectionEvent) : go W unit :=
  ctxErr ≫= λ _,
  wrapf "projection.rebuild[drain]"
    (RunInTx (if Stream entry ==s spec_Topic c then applyOne entry
              else advanceOffsetPastForeign entry)) ≫= λ _,
  pos ← wrapf "projection.rebuild[cutoff]" (λ w, lift (Position (journal w) entry) w);
  if (through >? 0) && (pos >=? through) then stop else mret tt.

Definition drainGap (from through : Z) : go W unit := λ w,
  match replay_loop ctxErr (drain_callback through) (ReplaySince (journal w) from) w with
  | (Stop, w') => (Val tt, w')
  | r => r
  end.

Definition captureHead : go W Z :=
  ctxErr ≫= λ _, wrapf "projection.rebuild: Head" head.

Definition reset_tx : go W unit :=
  (match onReset c with
   | Some f => wrapf "projection.rebuild[reset]: onReset" (business f)
   | None => mret tt
   end) ≫= λ _,
  wrapf "projection.rebuild[reset]: SaveOffset(0)" (save_offset 0).

Definition resetPhase : go W unit := ctxErr ≫= λ _, RunInTx reset_tx.

(** [false]: degraded, the cutoff could not be read. *)
Definition catchupPhase (head0 : Z) : go W bool :=
  ctxErr ≫= λ _,
  head1 ← caught head;
  match head1 with
  | Err _ => mret false
  | Ok head1 => drainGap head0 head1 ≫= λ _, mret true
  end.

Definition failRebuild (phase : string) (err : option goerror) : go W rebuild_result :=
  openGate ≫= λ _, modify (set_phase PhaseLive) ≫= λ _, mret (RebuildFailed phase err).

(** [x] or, when it fails, [failRebuild]; a panic reaches the deferred [recover]. *)
Definition or_fail {A} (name : string) (x : go W A) (k : A → go W rebuild_result) : go W rebuild_result := λ w,
  match x w with
  | (Val a, w') => k a w'
  | (Fail e, w') => failRebuild name (Some e) w'
  | (Stop, w') => (Stop, w')
  | (Panic, w') => failRebuild "panic" None w'
  end.

(** [runRebuild] from the replay phase on, and from its beginning. *)
Definition replay_and_catchup (head0 : Z) : go W rebuild_result :=
  modify (set_phase PhaseReplay) ≫= λ _,
  or_fail "replay" (drainGap 0 head0) (λ _,
  modify (set_phase PhaseCatchup) ≫= λ _,
  or_fail "catchup" (catchupPhase head0) (λ caughtUp,
  openGate ≫= λ _,
  modify (set_phase PhaseLive) ≫= λ _,
  mret (if caughtUp : bool then RebuildCompleted else RebuildDegraded))).

Definition runRebuild : go W rebuild_result :=
  shutGate ≫= λ _,
  or_fail "captureHead" captureHead (λ head0,
  modify (set_phase PhaseReset) ≫= λ _,
  or_fail "resetPhase" resetPhase (λ _,
  replay_and_catchup head0)).

(** The admission: the compare-and-swap on the phase.  On [Ok] the goroutine
    [runRebuild] starts. *)
Definition Rebuild (subscribed : bool) (w : W) : outcome unit * W :=
  if negb subscribed
  then (Err (invalid "projection.Rebuild: Subscribe must be called before Rebuild"), w)
  else if negb (bool_decide (phase w = PhaseLive)) then (Err ErrRebuildInProgress, w)
  else (Ok tt, set_phase PhaseStopped w).

(** ** probe.go, snapshot.go *)

Definition projectionLagThresholdSeconds : Z := 300.

Definition Probes : outcome (string * string) :=
  storeReadyName ← wrap_err "projection.Probes: store-ready name"
                     (ProjectionStoreReadyProbeName (cellID c) (projectionID c));
  lagName ← wrap_err "projection.Probes: lag name" (ProjectionLagProbeName (cellID c) (projectionID c));
  Ok (storeReadyName, lagName).

(** Pending events, lag, and whether the lag applies; the lag is kept in
    nanoseconds (its [Seconds()] is compared with whole seconds only). *)
Definition computeLagPending (now : Time) : go W (Z * Duration * bool) :=
  h ← wrapf "projection.probe: Head" head;
  cp ← wrapf "projection.probe: LoadOffset" load_offset;
  let pending := wrap64 (h - cp) in
  if pending <=? 0 then mret (0, 0, false)
  else
    last ← read lastAppliedUnixNano;
    if last =? 0 then mret (pending, 0, false)
    else mret (pending, Sub now (unix_epoch + last), true).

Definition checkLag (now : Time) : go W unit :=
  '(pending, lag, lagApplicable) ← computeLagPending now;
  if pending =? 0 then mret tt
  else if negb lagApplicable then mret tt
  else if lag >? projectionLagThresholdSeconds * Second
  then fail errLag
  else mret tt.

(** The phase is read last; [Err] carries the zero counts. *)
Definition Snapshot (now : Time) : go W (Phase * Z * Duration * option goerror) :=
  r ← caught (computeLagPending now);
  p ← read phase;
  mret (match r with
        | Ok (pending, lag, _) => (p, pending, lag, None)
        | Err e => (p, 0, 0, Some e)
        end).

Definition checkStoreReady : go W unit :=
  h ← caught head;
  match h with
  | Err _ => fail (Errcode KindUnavailable "ERR_SERVICE_UNAVAILABLE" "projection.probe: replay Head unreachable")
  | Ok _ =>
      o ← caught load_offset;
      match o with
      | Err _ => fail (Errcode KindUnavailable "ERR_SERVICE_UNAVAILABLE" "projection.probe: checkpoint store unreachable")
      | Ok _ => mret tt
      end
  end.

End coordinator.

(** ** What a projection promises *)

Section spec.
Context {M J : Type} `{JournalLaws J}.
Context (c : Coordinator M).
Abbreviation W := (world M J).
Implicit Types (w : W) (j : J) (base m : M).

(** The checkpoint of this projection. *)
Definition checkpoint w : Z := LoadOffset (offsets w) (cellID c) (projectionID c).

Definition own_event (pe : Z * ProjectionEvent) : Prop := Stream pe.2 = spec_Topic c.

(** The events of the projection's own stream up to a position, in order. *)
Definition own_upto j (o : Z) : list (Z * ProjectionEvent) :=
  filter (λ pe, own_event pe ∧ pe.1 ≤ o) (numbered j).
Definition own j (o : Z) : list ProjectionEvent := (own_upto j o).*2.

(** Applying events one after the other; [None] when one does not succeed. *)
Fixpoint fold_model (evs : list ProjectionEvent) m : option M :=
  match evs with
  | [] => Some m
  | e :: rest =>
      match apply c e m with
      | (Some (Ok _), m') => fold_model rest m'
      | _ => None
      end
  end.

(** The read model is [base] with every own event up to the checkpoint applied
    exactly once, in journal order. *)
Record projected base w : Prop := {
  pj_ok : source_ok (journal w);
  pj_low : 0 ≤ checkpoint w;
  pj_high : checkpoint w ≤ Head (journal w);
  pj_fold : fold_model (own (journal w) (checkpoint w)) base = Some (model w);
}.

(** Every own event before position [p] is reflected. *)
Definition covered (p : Z) w : Prop :=
  ∀ q e, (q, e) ∈ numbered (journal w) → own_event (q, e) → q < p → q ≤ checkpoint w.

(** What other goroutines may do while the gate is shut: the journal grows. *)
Definition keeps w w' : Prop :=
  offsets w' = offsets w ∧ model w' = model w ∧ gate w' = gate w ∧ phase w' = phase w ∧
  grows (journal w) (journal w').

Definition rely (E : env M J) : Prop := ∀ n w, gate w = false → keeps w (interfere E n w).

(** What [OnReset] makes of a read model. *)
Definition resets m base : Prop :=
  match onReset c with
  | Some f => f m = (Some (Ok tt), base)
  | None => base = m
  end.

(** ** Lemmas *)

Lemma fold_model_app l k m :
  fold_model (l ++ k) m = fold_model l m ≫= fold_model k.
Proof.
  revert m. induction l as [|e l IH]; intros m; [done|]. cbn.
  destruct (apply c e m) as [[[u|er]|] m']; [apply IH|done..].
Qed.

Lemma numbered_split j p e :
  source_ok j → (p, e) ∈ numbered j →
  ∃ l1 l2, numbered j = l1 ++ (p, e) :: l2 ∧ (∀ x, x ∈ l1 → x.1 < p) ∧ (∀ x, x ∈ l2 → p < x.1).
Proof.
  intros Hok (l1&l2&Heq)%list_elem_of_split. exists l1, l2. split; [done|].
  pose proof (numbered_sorted j Hok) as Hs. rewrite Heq in Hs. split; intros x Hx.
  - by eapply (StronglySorted_fst_split l1 ((p, e) :: l2) x (p, e)); [..|by left].
  - rewrite cons_middle, app_assoc in Hs.
    by eapply (StronglySorted_fst_split (l1 ++ [(p, e)]) l2 (p, e) x);
      [done|apply elem_of_app; right; by apply list_elem_of_singleton|].
Qed.

Lemma numbered_functional j p e e' :
  source_ok j → (p, e) ∈ numbered j → (p, e') ∈ numbered j → e' = e.
Proof.
  intros Hok Hin Hin'. destruct (numbered_split j p e Hok Hin) as (l1&l2&Heq&H1&H2). rewrite Heq in Hin'.
  apply elem_of_app in Hin' as [Hx|[[= ->]|Hx]%elem_of_cons]; [|done|].
  - specialize (H1 _ Hx). cbn in H1. lia.
  - specialize (H2 _ Hx). cbn in H2. lia.
Qed.

(** Moving the checkpoint to [p] adds the event at [p] when it is an own event,
    and nothing when it is foreign. *)
Lemma own_advance j p e o :
  source_ok j → (p, e) ∈ numbered j → o < p →
  (∀ q e', (q, e') ∈ numbered j → own_event (q, e') → q < p → q ≤ o) →
  own j p = own j o ++ (if decide (Stream e = spec_Topic c) then [e] else []).
Proof.
  intros Hok Hin Hlt Hcov. destruct (numbered_split j p e Hok Hin) as (l1&l2&Heq&H1&H2).
  unfold own, own_upto. rewrite Heq in *. rewrite !filter_app, !filter_cons, !fmap_app. cbn.
  rewrite (filter_none _ l2), (filter_none (λ pe, own_event pe ∧ pe.1 ≤ o) l2).
  2,3: apply Forall_forall; intros x Hx; specialize (H2 x Hx); lia.
  rewrite (decide_False (P := own_event (p, e) ∧ p ≤ o)) by lia. cbn. rewrite app_nil_r.
  f_equal.
  - f_equal. apply filter_ext_in. apply Forall_forall. intros [q e'] Hx. specialize (H1 _ Hx). cbn in *.
    split; intros [Ho Hq]; (split; [done|]); [|lia].
    eapply Hcov; [apply elem_of_app; by left|done|done].
  - unfold own_event. cbn. repeat case_decide; naive_solver lia.
Qed.

Lemma own_upto_grows j j' o :
  grows j j' → source_ok j → o ≤ Head j → own_upto j' o = own_upto j o.
Proof.
  intros Hg Hok Ho. destruct (Hg Hok) as [Hok' [k Hk]]. unfold own_upto. rewrite Hk, filter_app.
  rewrite (filter_none _ k), app_nil_r; [done|]. apply Forall_forall. intros [q e] Hq [_ Hle]. cbn in Hle.
  destruct (decide (0 < Head j)) as [Hpos|].
  - destruct (Head_elem j Hok Hpos) as [eh Hh]. pose proof (numbered_sorted j' Hok') as Hs.
    rewrite Hk in Hs. pose proof (StronglySorted_fst_split _ _ _ _ Hs Hh Hq) as Hlt. cbn in Hlt. lia.
  - assert (1 ≤ q); [|lia]. eapply (numbered_pos j' q e Hok'). rewrite Hk. apply elem_of_app. by right.
Qed.

Lemma own_grows j j' o :
  grows j j' → source_ok j → o ≤ Head j → own j' o = own j o.
Proof. intros. unfold own. by rewrite (own_upto_grows j j'). Qed.

Lemma keeps_refl w : keeps w w.
Proof. unfold keeps. split_and!; [done..|apply grows_refl]. Qed.

Lemma keeps_trans w1 w2 w3 : keeps w1 w2 → keeps w2 w3 → keeps w1 w3.
Proof.
  intros (?&?&?&?&?) (?&?&?&?&?). unfold keeps. split_and!; [congruence..|by eapply grows_trans].
Qed.

Lemma projected_keeps base w w' : keeps w w' → projected base w → projected base w'.
Proof.
  intros (Ho&Hm&_&_&Hg) []. destruct (Hg pj_ok0) as [Hok' _].
  assert (checkpoint w' = checkpoint w) as Hc by (unfold checkpoint; by rewrite Ho).
  pose proof (grows_Head _ _ Hg pj_ok0).
  constructor; rewrite ?Hc; [done|done|lia|]. by rewrite (own_grows _ _ _ Hg), Hm by done.
Qed.

Lemma covered_keeps p e w w' :
  source_ok (journal w) → (p, e) ∈ numbered (journal w) →
  keeps w w' → covered p w → covered p w'.
Proof.
  intros Hok Hin (Ho&_&_&_&Hg) Hc q e' Hq Hown Hlt. unfold checkpoint. rewrite Ho.
  eapply Hc; [|done|done]. eapply grows_old; [done|done|done|apply Z.lt_le_incl, Hlt|done].
Qed.

(** Equal up to the tick counter and the last applied time. *)
Definition quiet w w' : Prop :=
  offsets w' = offsets w ∧ model w' = model w ∧ journal w' = journal w ∧
  gate w' = gate w ∧ phase w' = phase w.

(** Equal outside the database. *)
Definition frame w w' : Prop :=
  journal w' = journal w ∧ gate w' = gate w ∧ phase w' = phase w.

Lemma quiet_keeps w w' : quiet w w' → keeps w w'.
Proof. intros (?&?&Hj&?&?). unfold keeps. rewrite Hj. split_and!; [done..|apply grows_refl]. Qed.

Section ops.
Context (E : env M J).

Lemma outside_inv w r w' :
  outside E w = (r, w') → w' = advance_tick w ∧ (r = Val tt ∨ ∃ e, r = Fail e).
Proof. unfold outside. destruct (weather E (tick w)); intros [= <- <-]; eauto. Qed.

Lemma yield_inv w r w' :
  keeps w (interfere E (tick w) w) → yield E w = (r, w') →
  keeps w w' ∧ (r = Val tt ∨ ∃ e, r = Fail e).
Proof.
  intros Hk [-> ?]%outside_inv. split; [|done]. by eapply keeps_trans, quiet_keeps.
Qed.

Lemma resolvePosition_inv p e w r w' :
  source_ok (journal w) → (p, e) ∈ numbered (journal w) →
  resolvePosition c E e w = (r, w') →
  quiet w w' ∧
  match r with
  | Val None => p ≤ checkpoint w
  | Val (Some q) => q = p ∧ checkpoint w < p
  | Fail _ => True
  | _ => False
  end.
Proof.
  intros Hok Hin (rl&w1&(rl'&Hl&Hrl)%wrapf_inv&Hk)%bind_inv.
  apply bind_inv in Hl as (ro&w2&[-> Hro]%outside_inv&Hl).
  destruct Hro as [->|[er ->]]; [|destruct Hl as [-> ->]; subst; by destruct Hk as [-> ->]].
  unfold read in Hl. injection Hl as <- <-. subst rl.
  apply bind_inv in Hk as (rp&w3&(rp'&Hp&Hrp)%wrapf_inv&Hk).
  unfold lift in Hp. cbn [journal advance_tick] in Hp.
  rewrite (Position_spec _ p) in Hp by done. injection Hp as <- <-. subst rp.
  pose proof (numbered_pos _ _ _ Hok Hin) as H1p.
  destruct (p <? 1) eqn:?; bools; [lia|]. fold (checkpoint w) in Hk.
  destruct (p <=? checkpoint w) eqn:?; bools; unfold mret, go_ret in Hk; simplify_eq; done.
Qed.

Lemma save_offset_inv p w r w' :
  save_offset c E p w = (r, w') →
  frame w w' ∧ (r = Val tt ∧ model w' = model w ∧ checkpoint w' = p ∨ ∃ e, r = Fail e).
Proof.
  intros (ro&w1&[-> Hro]%outside_inv&Hk)%bind_inv.
  destruct Hro as [->|[er ->]]; [|destruct Hk as [-> ->]; split; [done|eauto]].
  unfold modify in Hk. simplify_eq. split; [done|]. left. split_and!; [done..|].
  unfold checkpoint, LoadOffset, SaveOffset. cbn. by rewrite lookup_insert_eq.
Qed.

Lemma business_inv f w r w' :
  business f w = (r, w') →
  frame w w' ∧ offsets w' = offsets w ∧
  match f (model w) with
  | (Some (Ok _), m) => r = Val tt ∧ model w' = m
  | (Some (Err e), _) => r = Fail e
  | (None, _) => r = Panic
  end.
Proof. unfold business. destruct (f (model w)) as [[[[]|er]|] m]; intros [= <- <-]; done. Qed.

(** A transaction body that handles the event at [p]: when it returns nil, the
    projection is exact up to [p] or further. *)
Definition handles base (p : Z) w (r : flow unit) w' : Prop :=
  frame w w' ∧ r ≠ Stop ∧ (r = Val tt → projected base w' ∧ p ≤ checkpoint w').

Lemma frame_trans w1 w2 w3 : frame w1 w2 → frame w2 w3 → frame w1 w3.
Proof. intros (?&?&?) (?&?&?). unfold frame. split_and!; congruence. Qed.

Lemma quiet_frame w w' : quiet w w' → frame w w'.
Proof. by intros (_&_&?&?&?). Qed.

Lemma projected_advance base p e w w' :
  projected base w → (p, e) ∈ numbered (journal w) → covered p w → checkpoint w < p →
  frame w w' → checkpoint w' = p →
  (if decide (Stream e = spec_Topic c) then apply c e (model w) = (Some (Ok tt), model w')
   else model w' = model w) →
  projected base w'.
Proof.
  intros [] Hin Hcov Hlt (Hj&_) Hc Hm. constructor; rewrite ?Hj, ?Hc; [done|lia|by eapply Head_max|].
  rewrite (own_advance _ p e (checkpoint w)) by done.
  rewrite fold_model_app, pj_fold0. cbn. case_decide; cbn; [by rewrite Hm|by rewrite Hm].
Qed.

Lemma skip_handles base p w w' :
  projected base w → quiet w w' → p ≤ checkpoint w → handles base p w (Val tt) w'.
Proof.
  intros Hp Hq Hle. split; [by apply quiet_frame|]. split; [done|]. intros _.
  split; [by eapply projected_keeps, Hp; apply quiet_keeps|].
  destruct Hq as (Ho&_). unfold checkpoint. by rewrite Ho.
Qed.

(** [applyOne] changes the model and the checkpoint together, for an event past the
    checkpoint only. *)
Lemma applyOne_inv p e w r w' :
  source_ok (journal w) → (p, e) ∈ numbered (journal w) → applyOne c E e w = (r, w') →
  frame w w' ∧ r ≠ Stop ∧
  (r = Val tt → p ≤ checkpoint w ∧ quiet w w' ∨
     checkpoint w < p ∧ checkpoint w' = p ∧ apply c e (model w) = (Some (Ok tt), model w')).
Proof.
  intros Hok Hin (rp&w1&Hrp&Hk)%bind_inv.
  apply (resolvePosition_inv p) in Hrp as [Hq Hrp]; [|done|done].
  pose proof (quiet_frame _ _ Hq) as Hf.
  destruct rp as [[q|]|er| |]; [|..]; try done; [..|by destruct Hk as [-> ->]].
  2:{ injection Hk as <- <-. split_and!; [done..|]. intros _. by left. }
  destruct Hrp as [-> Hlt]. apply bind_inv in Hk as (ra&w2&(ra'&Ha&Hra)%wrapf_inv&Hk).
  apply business_inv in Ha as (Hf2&Ho2&Ha). assert (Hf02 := frame_trans _ _ _ Hf Hf2).
  destruct Hq as (Ho1&Hm1&_). rewrite Hm1 in Ha.
  destruct (apply c e (model w)) as [[[[]|er]|] m] eqn:Happ; subst;
    [|by destruct Hk as [-> ->]|by destruct Hk as [-> ->]].
  destruct Ha as [-> <-]. subst ra.
  apply bind_inv in Hk as (rs&w3&(rs'&Hs&Hrs)%wrapf_inv&Hk).
  apply save_offset_inv in Hs as [Hf3 Hs]. assert (Hf03 := frame_trans _ _ _ Hf02 Hf3).
  destruct Hs as [(->&Hm3&Hc3)|[er ->]]; [|subst; by destruct Hk as [-> ->]].
  subst rs. injection Hk as <- <-. split; [done|]. split; [done|]. intros _. right.
  split_and!; [done|done|]. cbn. by rewrite Hm3.
Qed.

Lemma applyOne_handles base p e w r w' :
  projected base w → (p, e) ∈ numbered (journal w) → covered p w → Stream e = spec_Topic c →
  applyOne c E e w = (r, w') → handles base p w r w'.
Proof.
  intros Hp Hin Hcov Hown Ha. apply (applyOne_inv p) in Ha as (Hf&Hns&Ha); [|apply Hp|done].
  split_and!; [done..|]. intros Hr. destruct (Ha Hr) as [[Hle Hq]|(Hlt&Hc&Hm)].
  - by apply (skip_handles base p w w' Hp Hq Hle).
  - split; [|lia]. eapply (projected_advance base p e w); try done. by rewrite decide_True by done.
Qed.

Lemma foreign_handles base p e w r w' :
  projected base w → (p, e) ∈ numbered (journal w) → covered p w → Stream e ≠ spec_Topic c →
  advanceOffsetPastForeign c E e w = (r, w') → handles base p w r w'.
Proof.
  intros Hp Hin Hcov Hown (rp&w1&Hrp&Hk)%bind_inv.
  apply (resolvePosition_inv p) in Hrp as [Hq Hrp]; [|apply Hp|done].
  pose proof (quiet_frame _ _ Hq) as Hf. unfold handles.
  destruct rp as [[q|]|er| |]; [|..]; try done; [..|by destruct Hk as [-> ->]].
  2:{ injection Hk as <- <-. by apply skip_handles. }
  destruct Hrp as [-> Hlt]. apply wrapf_inv in Hk as (rs&Hs&Hrs).
  apply save_offset_inv in Hs as [Hf2 Hs]. assert (Hf02 := frame_trans _ _ _ Hf Hf2).
  destruct Hs as [(->&Hm2&Hc2)|[er ->]]; [|by subst].
  split; [done|]. split; [by subst|]. intros _. split; [|lia].
  eapply (projected_advance base p e w); try done. rewrite decide_False by done.
  destruct Hq as (_&Hm&_). congruence.
Qed.

(** What stays true of everything but the database. *)
Definition moves w w' : Prop :=
  gate w' = gate w ∧ phase w' = phase w ∧ grows (journal w) (journal w').

Lemma moves_trans w1 w2 w3 : moves w1 w2 → moves w2 w3 → moves w1 w3.
Proof. intros (?&?&?) (?&?&?). unfold moves. split_and!; [congruence..|by eapply grows_trans]. Qed.

Lemma keeps_moves w w' : keeps w w' → moves w w'.
Proof. by intros (_&_&?&?&?). Qed.

Lemma frame_moves w w' : frame w w' → moves w w'.
Proof. intros (Hj&?&?). unfold moves. rewrite Hj. split_and!; [done..|apply grows_refl]. Qed.

Lemma RunInTx_inv fn w r w' :
  keeps w (interfere E (tick w) w) →
  (∀ w1 r1 w2, keeps w w1 → fn w1 = (r1, w2) → frame w1 w2 ∧ r1 ≠ Stop) →
  RunInTx E fn w = (r, w') →
  moves w w' ∧ r ≠ Stop ∧
  (r ≠ Val tt → keeps w w') ∧
  (r = Val tt → ∃ w1 w2, keeps w w1 ∧ fn w1 = (Val tt, w2) ∧ quiet w2 w').
Proof.
  unfold RunInTx, tx. intros Hi Hfn. destruct (yield E w) as [ry w1] eqn:Hy.
  apply (yield_inv _ _ _ Hi) in Hy as [Hk [->|[e ->]]].
  2:{ intros [= <- <-]. split; [by apply keeps_moves|]. done. }
  destruct ((fn ≫= λ _, outside E) w1) as [rf w2] eqn:Hf.
  apply bind_inv in Hf as (r1&w2'&Hf&Hr). specialize (Hfn _ _ _ Hk Hf) as [Hfr Hns].
  assert (Hrb : ∀ w3, frame w1 w3 → keeps w (set_db (offsets w1) (model w1) w3)).
  { intros w3 (Hj&Hg&Hph). eapply keeps_trans; [done|]. unfold keeps. cbn. rewrite Hj, Hg, Hph.
    split_and!; [done..|apply grows_refl]. }
  destruct r1 as [[]|e| |]; [|destruct Hr as [-> ->]..]; [|intros [= <- <-]..]; [| |done|].
  2,3: split; [by apply keeps_moves, Hrb|]; split; [done|]; by split; [intros _; apply Hrb|].
  apply outside_inv in Hr as [-> [->|[e ->]]]; intros [= <- <-].
  - split; [eapply moves_trans; [by apply keeps_moves|]; by apply frame_moves|].
    split; [done|]. split; [done|]. intros _. by exists w1, w2'.
  - split; [by apply keeps_moves, Hrb|]. split; [done|]. by split; [intros _; apply Hrb|].
Qed.

(** A transaction around a body that handles [p]. *)
Lemma RunInTx_handles base p fn w r w' :
  projected base w → keeps w (interfere E (tick w) w) →
  (∀ w1 r1 w2, keeps w w1 → fn w1 = (r1, w2) → handles base p w1 r1 w2) →
  RunInTx E fn w = (r, w') →
  moves w w' ∧ r ≠ Stop ∧ projected base w' ∧
  (r = Val tt → p ≤ checkpoint w') ∧ (r ≠ Val tt → keeps w w').
Proof.
  intros Hp Hi Hfn Hr. apply RunInTx_inv in Hr as (Hm&Hns&Hfail&Hval); [|done|].
  2:{ intros w1 r1 w2 Hk Hf. by destruct (Hfn _ _ _ Hk Hf) as (?&?&_). }
  split; [done|]. split; [done|]. destruct (decide (r = Val tt)) as [->|Hr].
  - destruct (Hval eq_refl) as (w1&w2&Hk&Hf&Hq).
    destruct (Hfn _ _ _ Hk Hf) as (_&_&Hh). destruct (Hh eq_refl) as [Hp2 Hle].
    split; [by eapply projected_keeps, Hp2; apply quiet_keeps|]. split; [|done]. intros _.
    destruct Hq as (Ho&_). unfold checkpoint in *. by rewrite Ho.
  - split; [by eapply projected_keeps; [apply Hfail|]|]. done.
Qed.

Section drain.
Context (Hrely : rely E).

(** One entry of a drain; [Stop] means that the cutoff is reached. *)
Lemma drain_callback_inv base through p e w r w' :
  projected base w → gate w = false → (p, e) ∈ numbered (journal w) → covered p w →
  drain_callback c E through e w = (r, w') →
  moves w w' ∧ projected base w' ∧
  (r = Val tt → p ≤ checkpoint w') ∧ (r = Stop → through ≤ p ∧ p ≤ checkpoint w').
Proof.
  intros Hp Hg Hin Hcov (ry&w1&Hy&Hk)%bind_inv.
  apply yield_inv in Hy as [Hk1 Hry]; [|by apply Hrely].
  assert (Hp1 := projected_keeps _ _ _ Hk1 Hp).
  assert (Hin1 := grows_elem _ _ _ (proj2 (proj2 (proj2 (proj2 Hk1)))) (pj_ok _ _ Hp) Hin).
  assert (Hcov1 := covered_keeps _ _ _ _ (pj_ok _ _ Hp) Hin Hk1 Hcov).
  assert (Hg1 : gate w1 = false) by (destruct Hk1 as (_&_&->&_); done).
  destruct Hry as [->|[er ->]].
  2:{ destruct Hk as [-> ->]. split; [by apply keeps_moves|]. done. }
  apply bind_inv in Hk as (rt&w2&(rt'&Ht&Hrt)%wrapf_inv&Hk).
  apply (RunInTx_handles base p) in Ht as (Hm2&Hns&Hp2&Hv2&_); [|done|by apply Hrely|].
  2:{ intros w3 r3 w4 Hk3 Hf.
      assert (Hp3 := projected_keeps _ _ _ Hk3 Hp1).
      assert (Hin3 := grows_elem _ _ _ (proj2 (proj2 (proj2 (proj2 Hk3)))) (pj_ok _ _ Hp1) Hin1).
      assert (Hcov3 := covered_keeps _ _ _ _ (pj_ok _ _ Hp1) Hin1 Hk3 Hcov1).
      destruct (Stream e ==s spec_Topic c) eqn:Hs; bools;
        [by eapply applyOne_handles|by eapply foreign_handles]. }
  assert (Hm : moves w w2) by (eapply moves_trans; [by apply keeps_moves|done]).
  destruct rt' as [[]|er| |]; subst rt; [|by destruct Hk as [-> ->]|done|by destruct Hk as [-> ->]].
  apply bind_inv in Hk as (rp&w3&(rp'&Hpos&Hrp)%wrapf_inv&Hk).
  unfold lift in Hpos. rewrite (Position_spec _ p) in Hpos;
    [|apply Hp2|by eapply grows_elem; [apply Hm2|apply Hp1|]].
  injection Hpos as <- <-. subst rp.
  destruct ((through >? 0) && (p >=? through)) eqn:Hcut; injection Hk as <- <-; (split; [done|]);
    (split; [done|]); (split; [by intros; try apply Hv2|]); [|done].
  intros _. split; [|by apply Hv2]. apply andb_prop in Hcut as [_ Hcut]. lia.
Qed.

Lemma covered_pre j0 pre p e l w :
  source_ok j0 → numbered j0 = pre ++ (p, e) :: l → grows j0 (journal w) →
  (∀ pe, pe ∈ pre → pe.1 ≤ checkpoint w) → covered p w.
Proof.
  intros Hok Hn Hg Hpre q eq Hq _ Hlt.
  assert (Hin : (p, e) ∈ numbered j0) by (rewrite Hn; apply elem_of_app; right; by left).
  apply (grows_old j0 _ q eq p e) in Hq; [|done|done|lia|done].
  rewrite Hn in Hq. apply elem_of_app in Hq as [Hq|Hq]; [by apply (Hpre _ Hq)|].
  apply elem_of_cons in Hq as [[= -> ->]|Hq]; [lia|].
  pose proof (numbered_sorted j0 Hok) as Hs. rewrite Hn, cons_middle, app_assoc in Hs.
  eapply (StronglySorted_fst_split _ _ (p, e) (q, eq)) in Hs; [cbn in Hs; lia|..|done].
  apply elem_of_app. right. by apply list_elem_of_singleton.
Qed.

(** The drain of a snapshot [j0]: [pre] has been handled, [l] remains. *)
Lemma drain_loop_inv base through j0 pre l w r w' :
  source_ok j0 → numbered j0 = pre ++ l → grows j0 (journal w) →
  projected base w → gate w = false → (∀ pe, pe ∈ pre → pe.1 ≤ checkpoint w) →
  replay_loop (ctxErr E) (drain_callback c E through) l.*2 w = (r, w') →
  moves w w' ∧ projected base w' ∧
  (r = Val tt → Head j0 ≤ checkpoint w') ∧ (r = Stop → through ≤ checkpoint w').
Proof.
  intros Hok0. revert pre w. induction l as [|[p e] l IH]; intros pre w Hn Hg0 Hp Hg Hpre.
  { intros [= <- <-]. split; [by apply keeps_moves, keeps_refl|]. split; [done|]. split; [|done]. intros _.
    destruct (decide (0 < Head j0)) as [Hpos|]; [|pose proof (pj_low _ _ Hp); lia].
    destruct (Head_elem j0 Hok0 Hpos) as [eh Hh]. rewrite Hn, app_nil_r in Hh. apply (Hpre _ Hh). }
  intros (ry&w1&Hy&Hk)%bind_inv. apply yield_inv in Hy as [Hk1 Hry]; [|by apply Hrely].
  destruct Hry as [->|[er ->]].
  2:{ destruct Hk as [-> ->]. split; [by apply keeps_moves|]. split; [by eapply projected_keeps|]. done. }
  assert (Hp1 := projected_keeps _ _ _ Hk1 Hp). destruct Hk1 as (Ho1&Hm1&Hg1&Hph1&Hj1) eqn:HeqK. clear HeqK.
  assert (Hg01 := grows_trans _ _ _ Hg0 Hj1).
  assert (Hin : (p, e) ∈ numbered j0) by (rewrite Hn; apply elem_of_app; right; by left).
  assert (Hpre1 : ∀ pe, pe ∈ pre → pe.1 ≤ checkpoint w1)
    by (intros pe Hpe; unfold checkpoint; rewrite Ho1; by apply Hpre).
  apply bind_inv in Hk as (rc&w2&Hc&Hk).
  apply (drain_callback_inv base through p) in Hc as (Hm2&Hp2&Hval&Hstop);
    [|done|congruence|by eapply grows_elem|].
  2:{ by eapply covered_pre. }
  assert (Hm02 : moves w w2) by (eapply moves_trans; [|done]; by unfold moves).
  destruct rc as [[]|er| |].
  - apply (IH (pre ++ [(p, e)])) in Hk as (?&?&?&?).
    + split; [by eapply moves_trans|]. done.
    + by rewrite <- app_assoc.
    + eapply grows_trans; [done|apply Hm2].
    + done.
    + destruct Hm2 as (->&_). congruence.
    + intros pe [Hpe|Hpe]%elem_of_app.
      * pose proof (numbered_sorted j0 Hok0) as Hs. rewrite Hn in Hs.
        eapply (StronglySorted_fst_split _ _ pe (p, e)) in Hs; [|done|by left].
        specialize (Hval eq_refl). cbn in Hs. lia.
      * apply list_elem_of_singleton in Hpe as ->. by apply Hval.
  - destruct Hk as [-> ->]. done.
  - destruct Hk as [-> ->]. split; [done|]. split; [done|]. split; [done|]. intros _.
    destruct (Hstop eq_refl). lia.
  - destruct Hk as [-> ->]. done.
Qed.

Lemma drainGap_inv base from through w r w' :
  projected base w → gate w = false →
  (∀ pe, pe ∈ numbered (journal w) → pe.1 ≤ from → pe.1 ≤ checkpoint w) →
  drainGap c E from through w = (r, w') →
  moves w w' ∧ projected base w' ∧ r ≠ Stop ∧
  (r = Val tt → through ≤ Head (journal w) → through ≤ checkpoint w').
Proof.
  intros Hp Hg Hfrom. unfold drainGap. assert (Hok := pj_ok _ _ Hp).
  rewrite ReplaySince_spec by done.
  destruct (filter_above from (numbered (journal w))) as (pre&Hn&Hpre); [by apply numbered_sorted|].
  destruct (replay_loop _ _ _ w) as [rl wl] eqn:Hl. intros Hr.
  eapply (drain_loop_inv base through (journal w) pre) in Hl as (Hm&Hp'&Hval&Hstop);
    [|done|done|apply grows_refl|done|done|].
  2:{ intros pe Hpe. apply Hfrom; [rewrite Hn; apply elem_of_app; by left|by apply Hpre]. }
  destruct rl as [[]|er| |]; simplify_eq; (split; [done|]); (split; [done|]); (split; [done|]);
    [|done|by intros; apply Hstop|done].
  intros _ ?. specialize (Hval eq_refl). lia.
Qed.

Lemma projected_db base w w' :
  offsets w' = offsets w → model w' = model w → journal w' = journal w →
  projected base w → projected base w'.
Proof.
  intros Ho Hm Hj []. constructor; unfold checkpoint in *; rewrite ?Ho, ?Hj, ?Hm; done.
Qed.

Lemma captureHead_inv w r w' :
  gate w = false → captureHead E w = (r, w') →
  keeps w w' ∧ ((∃ h, r = Val h ∧ h = Head (journal w')) ∨ ∃ e, r = Fail e).
Proof.
  intros Hg (ry&w1&Hy&Hk)%bind_inv. apply yield_inv in Hy as [Hk1 Hry]; [|by apply Hrely].
  destruct Hry as [->|[er ->]]; [|destruct Hk as [-> ->]; eauto].
  apply wrapf_inv in Hk as (rh&(ro&w2&[-> Hro]%outside_inv&Hk)%bind_inv&Hr).
  destruct Hro as [->|[er ->]]; [|destruct Hk as [-> ->]; split; [|right; eauto]].
  2:{ eapply keeps_trans; [done|by apply quiet_keeps]. }
  injection Hk as <- <-. subst r. split; [|left; eexists; split; [done|]; done].
  eapply keeps_trans; [done|by apply quiet_keeps].
Qed.

Lemma reset_tx_inv w r w' :
  reset_tx c E w = (r, w') →
  frame w w' ∧ r ≠ Stop ∧ (r = Val tt → checkpoint w' = 0 ∧ resets (model w) (model w')).
Proof.
  intros (rb&w1&Hb&Hs)%bind_inv.
  assert (Hb' : frame w w1 ∧ rb ≠ Stop ∧ (rb = Val tt → resets (model w) (model w1))).
  { unfold resets. destruct (onReset c) as [f|]; [|by injection Hb as <- <-].
    apply wrapf_inv in Hb as (rb'&Hb&Hrb). apply business_inv in Hb as (Hfr&_&Hb).
    destruct (f (model w)) as [[[[]|er]|] m]; subst; [|done..].
    destruct Hb as [-> <-]. by subst rb. }
  destruct Hb' as (Hfr&Hns&Hres).
  destruct rb as [[]|er| |]; [|by destruct Hs as [-> ->]|done|by destruct Hs as [-> ->]].
  apply wrapf_inv in Hs as (rs&Hs&Hrs). apply save_offset_inv in Hs as [Hfr' Hs].
  split; [by eapply frame_trans|].
  destruct Hs as [(->&Hm&Hc)|[er ->]]; subst r; [|done]. split; [done|]. intros _.
  split; [done|]. rewrite Hm. by apply Hres.
Qed.

Lemma resetPhase_inv w r w' :
  source_ok (journal w) → gate w = false → resetPhase c E w = (r, w') →
  moves w w' ∧ r ≠ Stop ∧
  (r = Val tt → ∃ base, resets (model w) base ∧ projected base w') ∧
  (r ≠ Val tt → keeps w w').
Proof.
  intros Hok Hg (ry&w1&Hy&Hk)%bind_inv. apply yield_inv in Hy as [Hk1 Hry]; [|by apply Hrely].
  destruct Hry as [->|[er ->]]; [|destruct Hk as [-> ->]; split; [by apply keeps_moves|done]].
  assert (Hg1 : gate w1 = false) by (destruct Hk1 as (_&_&->&_); done).
  apply RunInTx_inv in Hk as (Hm&Hns&Hfail&Hval); [|by apply Hrely|].
  2:{ intros w2 r2 w3 _ Hf. by destruct (reset_tx_inv _ _ _ Hf) as (?&?&_). }
  split; [by eapply moves_trans; [apply keeps_moves|]|]. split; [done|]. split.
  - intros Hr. destruct (Hval Hr) as (w2&w3&Hk2&Hf&Hq). destruct (reset_tx_inv _ _ _ Hf) as (Hfr&_&Hres).
    destruct (Hres eq_refl) as [Hc Hrst]. assert (Hk02 := keeps_trans _ _ _ Hk1 Hk2).
    exists (model w3). split.
    { destruct Hk02 as (_&Hm2&_). by rewrite <- Hm2. }
    assert (Hok3 : source_ok (journal w3)).
    { destruct Hfr as (->&_). by apply Hk02. }
    eapply projected_keeps; [by apply quiet_keeps|].
    constructor; [done|lia|rewrite Hc; by apply Head_nonneg|]. rewrite Hc. unfold own, own_upto.
    rewrite filter_none; [done|]. apply Forall_forall. intros [q e] Hq' [_ Hle]. cbn in Hle.
    pose proof (numbered_pos _ _ _ Hok3 Hq'). lia.
  - intros Hr. eapply keeps_trans; [done|by apply Hfail].
Qed.

Lemma catchupPhase_inv base head0 w r w' :
  projected base w → gate w = false → head0 ≤ checkpoint w →
  catchupPhase c E head0 w = (r, w') →
  moves w w' ∧ projected base w' ∧ r ≠ Stop ∧
  (∀ b, r = Val b → head0 ≤ checkpoint w').
Proof.
  intros Hp Hg Hh (ry&w1&Hy&Hk)%bind_inv. apply yield_inv in Hy as [Hk1 Hry]; [|by apply Hrely].
  assert (Hp1 := projected_keeps _ _ _ Hk1 Hp).
  destruct Hry as [->|[er ->]]; [|by destruct Hk as [-> ->]; split; [apply keeps_moves|]].
  apply bind_inv in Hk as (rh&w2&(rh'&Hh'&Hrh)%caught_inv&Hk).
  apply bind_inv in Hh' as (ro&w3&[-> Hro]%outside_inv&Hh').
  assert (Hq : quiet w1 (advance_tick w1)) by done.
  assert (Hp2 := projected_keeps _ _ _ (quiet_keeps _ _ Hq) Hp1).
  assert (Hm2 : moves w (advance_tick w1)).
  { eapply moves_trans; [by apply keeps_moves|by apply frame_moves]. }
  assert (Hc2 : checkpoint (advance_tick w1) = checkpoint w).
  { destruct Hk1 as (Ho&_). unfold checkpoint. cbn. by rewrite Ho. }
  destruct Hro as [->|[er ->]].
  2:{ destruct Hh' as [-> ->]. subst rh. injection Hk as <- <-. split; [done|]. split; [done|].
      split; [done|]. intros b _. lia. }
  injection Hh' as <- <-. subst rh. apply bind_inv in Hk as (rd&w4&Hd&Hk).
  eapply drainGap_inv in Hd as (Hm4&Hp4&Hns&Hval); [|done|..].
  2:{ destruct Hm2 as (->&_). done. }
  2:{ intros pe Hpe ?. lia. }
  assert (Hm := moves_trans _ _ _ Hm2 Hm4).
  destruct rd as [[]|er| |]; [|by destruct Hk as [-> ->]|done|by destruct Hk as [-> ->]].
  injection Hk as <- <-. split; [done|]. split; [done|]. split; [done|]. intros b _.
  specialize (Hval eq_refl (Z.le_refl _)). pose proof (pj_high _ _ Hp2). cbn in *. lia.
Qed.

Lemma or_fail_inv {A} name (x : go W A) k w r w' rx w1 :
  x w = (rx, w1) → rx ≠ Stop → or_fail name x k w = (r, w') →
  (∃ a, rx = Val a ∧ k a w1 = (r, w')) ∨
  (∀ a, rx ≠ Val a) ∧ w' = set_phase PhaseLive (set_gate true w1) ∧ ∃ n e, r = Val (RebuildFailed n e).
Proof.
  unfold or_fail. intros -> Hns Hr. destruct rx as [a|e| |]; [left; eauto|right..]; [|done|];
    injection Hr as <- <-; eauto.
Qed.

(** What the end of a rebuild looks like from its start [w]. *)
Definition rebuilt w (r : flow rebuild_result) w' : Prop :=
  gate w' = true ∧ phase w' = PhaseLive ∧ grows (journal w) (journal w') ∧
  ∃ res, r = Val res ∧
    match res with
    | RebuildFailed _ _ =>
        offsets w' = offsets w ∧ model w' = model w ∨
        ∃ base, resets (model w) base ∧ projected base w'
    | RebuildCompleted | RebuildDegraded =>
        ∃ base, resets (model w) base ∧ projected base w' ∧ Head (journal w) ≤ checkpoint w'
    end.

Lemma replay_and_catchup_inv base head0 w r w' :
  projected base w → gate w = false → head0 ≤ Head (journal w) →
  replay_and_catchup c E head0 w = (r, w') →
  gate w' = true ∧ phase w' = PhaseLive ∧ grows (journal w) (journal w') ∧ projected base w' ∧
  ∃ res, r = Val res ∧
    match res with RebuildFailed _ _ => True | _ => head0 ≤ checkpoint w' end.
Proof.
  intros Hp Hg Hh (r0&w0&[= <- <-]&Hk)%bind_inv.
  destruct (drainGap c E 0 head0 (set_phase PhaseReplay w)) as [rd w1] eqn:Hd.
  pose proof Hd as Hd'. apply (drainGap_inv base) in Hd' as ((Hg1&_&Hj1)&Hp1&Hns1&Hv1);
    [|by eapply projected_db, Hp|done|].
  2:{ intros [q eq] Hq Hle. pose proof (numbered_pos _ _ _ (pj_ok _ _ Hp) Hq). cbn in Hle. lia. }
  cbn in Hg1, Hj1, Hv1. rewrite Hg in Hg1.
  destruct (or_fail_inv _ _ _ _ _ _ _ _ Hd Hns1 Hk) as [([]&->&Hk')|(_&->&n&e&->)].
  2:{ split_and!; [done..|by eapply projected_db, Hp1|by exists (RebuildFailed n e)]. }
  apply bind_inv in Hk' as (r1&w1'&[= <- <-]&Hk').
  destruct (catchupPhase c E head0 (set_phase PhaseCatchup w1)) as [rc w2] eqn:Hc.
  pose proof Hc as Hc'. apply (catchupPhase_inv base) in Hc' as ((_&_&Hj2)&Hp2&Hns2&Hv2);
    [|by eapply projected_db, Hp1|done|by apply Hv1].
  assert (Hj := grows_trans _ _ _ Hj1 Hj2).
  destruct (or_fail_inv _ _ _ _ _ _ _ _ Hc Hns2 Hk') as [(b&->&Hk2)|(_&->&n&e&->)].
  2:{ split_and!; [done..|by eapply projected_db, Hp2|by exists (RebuildFailed n e)]. }
  injection Hk2 as <- <-. specialize (Hv2 b eq_refl).
  split_and!; [done..|by eapply projected_db, Hp2|eexists; split; [done|by destruct b]].
Qed.

Lemma runRebuild_inv w r w' :
  source_ok (journal w) → runRebuild c E w = (r, w') → rebuilt w r w'.
Proof.
  intros Hok (r0&w0&[= <- <-]&Hk)%bind_inv.
  destruct (captureHead E (set_gate false w)) as [rh w1] eqn:Hh.
  pose proof Hh as Hh'. apply captureHead_inv in Hh' as [(Ho1&Hm1&Hg1&Hph1&Hj1) Hrh]; [|done].
  cbn in Ho1, Hm1, Hg1, Hj1. destruct (Hj1 Hok) as [Hok1 _].
  assert (Hns1 : rh ≠ Stop) by (by destruct Hrh as [(?&->&_)|[? ->]]).
  destruct (or_fail_inv _ _ _ _ _ _ _ _ Hh Hns1 Hk) as [(head0&->&Hk')|(_&->&n&e&->)].
  2:{ split_and!; [done..|exists (RebuildFailed n e); split; [done|by left]]. }
  destruct Hrh as [(?&[= <-]&Hhead)|[? [=]]].
  apply bind_inv in Hk' as (r1&w1'&[= <- <-]&Hk').
  destruct (resetPhase c E (set_phase PhaseReset w1)) as [rr w2] eqn:Hr.
  pose proof Hr as Hr'. apply resetPhase_inv in Hr' as ((Hg2&_&Hj2)&Hns2&Hv2&Hf2); [|done|done].
  assert (Hj02 := grows_trans _ _ _ Hj1 Hj2). cbn in Hg2.
  destruct (or_fail_inv _ _ _ _ _ _ _ _ Hr Hns2 Hk') as [([]&->&Hk2)|(Hnv&->&n&e&->)].
  2:{ destruct (Hf2 (Hnv tt)) as (Ho2&Hm2&_). cbn in Ho2, Hm2. rewrite Ho1 in Ho2. rewrite Hm1 in Hm2.
      split_and!; [done..|exists (RebuildFailed n e); split; [done|by left]]. }
  destruct (Hv2 eq_refl) as (base&Hbase&Hp2). cbn in Hbase. rewrite Hm1 in Hbase.
  assert (Hg02 : gate w2 = false) by congruence.
  assert (Hle : head0 ≤ Head (journal w2)) by (rewrite Hhead; by apply grows_Head).
  destruct (replay_and_catchup_inv base _ _ _ _ Hp2 Hg02 Hle Hk2) as (Hg'&Hph'&Hj'&Hp'&res&->&Hres).
  split_and!; [done..|by eapply grows_trans|]. exists res. split; [done|].
  pose proof (grows_Head _ _ Hj1 Hok).
  destruct res; [exists base; split_and!; try done; lia..|right; eauto].
Qed.
End drain.

(** A live delivery of the journaled event [e], once past the gate: acknowledged only
    when it is reflected, and otherwise without effect on the database. *)
Lemma handle_inv p e w r w' :
  source_ok (journal w) → keeps w (interfere E (tick w) w) → (p, e) ∈ numbered (journal w) →
  handle c E (bare e) w = (r, w') →
  r ≠ Stop ∧ (r = Val Ack → p ≤ checkpoint w') ∧
  (keeps w w' ∨
   moves w w' ∧ checkpoint w < p ∧ checkpoint w' = p ∧ apply c e (model w) = (Some (Ok tt), model w')).
Proof.
  intros Hok Hi Hin (rt&w1&(rt'&Ht&Hrt)%caught_inv&Hk)%bind_inv.
  assert (Hbody : ∀ w2 r2 w3, keeps w w2 →
    (ev ← (λ w, lift (ResolveCarrier (journal w) (bare e)) w); applyOne c E ev) w2 = (r2, w3) →
    applyOne c E e w2 = (r2, w3) ∧ source_ok (journal w2) ∧ (p, e) ∈ numbered (journal w2)).
  { intros w2 r2 w3 (_&_&_&_&Hg) (re&w4&He&Hb)%bind_inv. unfold lift in He.
    assert (Hin2 := grows_elem _ _ _ Hg Hok Hin). assert (Hok2 : source_ok (journal w2)) by (by apply Hg).
    rewrite (ResolveCarrier_spec _ p e) in He by done. by injection He as <- <-. }
  apply RunInTx_inv in Ht as (Hm&Hns&Hfail&Hval); [|done|].
  2:{ intros w2 r2 w3 Hk2 (Ha&Hok2&Hin2)%(Hbody _ _ _ Hk2).
      by apply (applyOne_inv p) in Ha as (?&?&_). }
  destruct rt' as [[]|er| |]; subst rt; [|injection Hk as <- <-|done|destruct Hk as [-> ->]].
  - injection Hk as <- <-. destruct (Hval eq_refl) as (w2&w3&Hk2&(Ha&Hok2&Hin2)%(Hbody _ _ _ Hk2)&Hq).
    apply (applyOne_inv p) in Ha as (_&_&Ha); [|done..].
    assert (Hc2 : checkpoint w2 = checkpoint w) by (unfold checkpoint; by rewrite (proj1 Hk2)).
    assert (Hc3 : checkpoint w1 = checkpoint w3) by (unfold checkpoint; by rewrite (proj1 Hq)).
    split; [done|]. destruct (Ha eq_refl) as [[Hle Hq3]|(Hlt&Hc&Hmod)].
    + assert (checkpoint w3 = checkpoint w2) by (unfold checkpoint; by rewrite (proj1 Hq3)). split; [lia|]. left.
      eapply keeps_trans; [done|]. eapply keeps_trans; by apply quiet_keeps.
    + split; [lia|]. right. split_and!; [done|lia|lia|].
      destruct Hk2 as (_&<-&_), Hq as (_&->&_). done.
  - split; [done|]. split; [|by left; apply Hfail]. unfold classify. by destruct (IsPermanent er).
  - split; [done|]. split; [done|]. left. by apply Hfail.
Qed.
End ops.

(** ** Histories

    The bus hands own events to the handler one at a time, in any order and as
    often as it likes, and rebuilds run with no handler in flight.  Anything may fail
    at any point.  [missed] collects the events that were overtaken: the handler
    moved the checkpoint past them while they were not reflected.  A rebuild that
    completes puts an end to them. *)
Definition overtaken w w' : list Z :=
  (filter (λ pe, own_event pe ∧ checkpoint w < pe.1 ∧ pe.1 < checkpoint w') (numbered (journal w'))).*1.

Inductive running (m0 : M) : list Z → W → Prop :=
  | running_start j o :
      source_ok j → LoadOffset o (cellID c) (projectionID c) = 0 → running m0 [] (init_world m0 j o)
  | running_append missed w j :
      running m0 missed w → grows (journal w) j → running m0 missed (set_journal j w)
  | running_deliver E ctx pick p e missed w r w' :
      running m0 missed w → (∀ n w1, keeps w1 (interfere E n w1)) →
      (p, e) ∈ numbered (journal w) → own_event (p, e) →
      buildHandler c E ctx pick (bare e) w = (r, w') → running m0 (missed ++ overtaken w w') w'
  | running_rebuild E missed w w1 r w' :
      running m0 missed w → rely E → Rebuild true w = (Ok tt, w1) → runRebuild c E w1 = (r, w') →
      running m0 (match r with Val (RebuildFailed _ _) => missed | _ => [] end) w'.

(** Every own event up to the checkpoint is applied at most once and in journal
    order, and exactly once unless it is one of [missed]. *)
Definition reflects base (missed : list Z) w : Prop :=
  ∃ applied, applied `sublist_of` own_upto (journal w) (checkpoint w) ∧
    (∀ pe, pe ∈ own_upto (journal w) (checkpoint w) → pe.1 ∉ missed → pe ∈ applied) ∧
    fold_model applied.*2 base = Some (model w).

Lemma projected_reflects base missed w : projected base w → reflects base missed w.
Proof. intros []. by exists (own_upto (journal w) (checkpoint w)). Qed.

Lemma reflects_keeps base missed more w w' :
  keeps w w' → source_ok (journal w) → checkpoint w ≤ Head (journal w) →
  reflects base missed w → reflects base (missed ++ more) w'.
Proof.
  intros (Ho&Hm&_&_&Hg) Hok Hh (applied&Hsub&Hall&Hf). exists applied.
  assert (checkpoint w' = checkpoint w) as -> by (unfold checkpoint; by rewrite Ho).
  rewrite (own_upto_grows _ _ _ Hg), Hm by done. split_and!; [done| |done].
  intros pe Hpe Hn. apply Hall; [done|]. intros ?. apply Hn, elem_of_app. by left.
Qed.

Lemma sublist_filter_impl {A} (P Q : A → Prop) `{!∀ x, Decision (P x), !∀ x, Decision (Q x)} l :
  (∀ x, P x → Q x) → filter P l `sublist_of` filter Q l.
Proof.
  intros HPQ. induction l as [|x l IH]; [done|]. rewrite !filter_cons.
  repeat case_decide; [by apply sublist_skip|naive_solver|by apply sublist_cons|done].
Qed.

Lemma sublist_eq {A} (l1 l2 : list A) : l1 `sublist_of` l2 → (length l2 ≤ length l1)%nat → l1 = l2.
Proof.
  induction 1 as [|x l1 l2 _ IH|x l1 l2 Hs _]; cbn; intros Hl; [done|f_equal; apply IH; lia|].
  apply sublist_length in Hs. lia.
Qed.

Lemma reflects_advance base missed p e w w' :
  moves w w' → source_ok (journal w) → checkpoint w ≤ Head (journal w) →
  (p, e) ∈ numbered (journal w) → own_event (p, e) → checkpoint w < p → checkpoint w' = p →
  apply c e (model w) = (Some (Ok tt), model w') →
  reflects base missed w → reflects base (missed ++ overtaken w w') w'.
Proof.
  intros (_&_&Hg) Hok Hh Hin Hown Hlt Hc Hm (applied&Hsub&Hall&Hf). exists (applied ++ [(p, e)]).
  assert (Hin' := grows_elem _ _ _ Hg Hok Hin). assert (Hok' : source_ok (journal w')) by (by apply Hg).
  rewrite <- (own_upto_grows _ _ _ Hg) in Hsub, Hall by done. split_and!.
  - rewrite Hc. etrans; [by apply sublist_app, (reflexivity [(p, e)])|].
    destruct (numbered_split _ p e Hok' Hin') as (l1&l2&Heq&H1&H2). unfold own_upto. rewrite Heq.
    rewrite !filter_app, !filter_cons. cbn [fst].
    rewrite (decide_True (P := own_event (p, e) ∧ p ≤ p)), (decide_False (P := own_event (p, e) ∧ _)) by (done || lia).
    rewrite (filter_none _ l2), app_nil_r.
    2: apply Forall_forall; intros x Hx; specialize (H2 x Hx); lia.
    apply sublist_app; [apply sublist_filter_impl; intros x [? ?]; split; [done|lia]|].
    apply sublist_skip, sublist_nil_l.
  - intros [q eq] [[Ho Hle] Hq]%list_elem_of_filter Hn. cbn [fst] in *. apply elem_of_app.
    destruct (decide (q = p)) as [->|].
    { right. apply list_elem_of_singleton. f_equal.
      by eapply numbered_functional. }
    left. apply Hall.
    + apply list_elem_of_filter. cbn [fst]. split; [split; [done|]|done]. apply Znot_gt_le. intros Hgt.
      apply Hn, elem_of_app. right. apply (list_elem_of_fmap_2 fst _ (q, eq)), list_elem_of_filter.
      split; [split; [done|]; cbn; lia|done].
    + intros ?. apply Hn, elem_of_app. by left.
  - rewrite fmap_app, fold_model_app, Hf. cbn. by rewrite Hm.
Qed.

(** What holds between operations. *)
Record settled m0 missed w : Prop := {
  st_ok : source_ok (journal w);
  st_cp : 0 ≤ checkpoint w ≤ Head (journal w);
  st_model : reflects m0 missed w;
  st_open : gate w = true ∧ phase w = PhaseLive;
}.

Lemma settled_keeps m0 missed more w w' :
  keeps w w' → settled m0 missed w → settled m0 (missed ++ more) w'.
Proof.
  intros Hk []. pose proof Hk as (Ho&_&Hgt&Hph&Hg). pose proof (grows_Head _ _ Hg st_ok0).
  assert (checkpoint w' = checkpoint w) by (unfold checkpoint; by rewrite Ho).
  split; [by apply Hg|lia| |destruct st_open0; split; congruence]. eapply reflects_keeps; [done|done|lia|done].
Qed.

Lemma projected_settled m0 missed w :
  projected m0 w → gate w = true → phase w = PhaseLive → settled m0 missed w.
Proof. intros Hp ??. split; [apply Hp|destruct Hp; lia|by apply projected_reflects|done]. Qed.

Lemma deliver_settled E m0 ctx pick p e missed w r w' :
  settled m0 missed w → (∀ n w1, keeps w1 (interfere E n w1)) →
  (p, e) ∈ numbered (journal w) → own_event (p, e) →
  buildHandler c E ctx pick (bare e) w = (r, w') → settled m0 (missed ++ overtaken w w') w'.
Proof.
  intros Hs Hi Hin Hown Hb. unfold buildHandler in Hb.
  destruct (select_gate (gate w) ctx pick) as [[[]|er]|]; [|by injection Hb as _ <-; eapply settled_keeps, Hs; apply keeps_refl..].
  apply bind_inv in Hb as (rh&w1&Hh&Hb).
  destruct (handle_inv E p e w rh w1 (st_ok _ _ _ Hs) (Hi _ _) Hin Hh) as (Hns&_&Heff).
  assert (w' = w1) as -> by (destruct rh; [by injection Hb|by destruct Hb as [_ ->]..]).
  destruct Heff as [Hk|(Hm&Hlt&Hc&Ha)]; [by eapply settled_keeps|]. destruct Hs. pose proof Hm as (Hgt&Hph&Hg).
  split; [by apply Hg| | |destruct st_open0; split; congruence].
  - rewrite Hc. split; [lia|]. eapply Head_max; [by apply Hg|by eapply grows_elem].
  - eapply reflects_advance; [done|done|lia|done..].
Qed.

(** An event delivered when every earlier own event is reflected overtakes none. *)
Lemma covered_overtakes_none E ctx pick p e w r w' :
  source_ok (journal w) → (∀ n w1, keeps w1 (interfere E n w1)) → (p, e) ∈ numbered (journal w) → covered p w →
  buildHandler c E ctx pick (bare e) w = (r, w') → overtaken w w' = [].
Proof.
  intros Hok Hi Hin Hcov Hb. unfold overtaken. rewrite filter_none; [done|].
  apply Forall_forall. intros [q eq] Hq (Hown&Hlo&Hhi). cbn in *. unfold buildHandler in Hb.
  destruct (select_gate (gate w) ctx pick) as [[[]|er]|]; [|simplify_eq; lia..].
  apply bind_inv in Hb as (rh&w1&Hh&Hb).
  destruct (handle_inv E p e w rh w1 Hok (Hi _ _) Hin Hh) as (_&_&Heff).
  assert (w' = w1) as -> by (destruct rh; [by injection Hb|by destruct Hb as [_ ->]..]).
  destruct Heff as [(Ho&_)|((_&_&Hg)&_&Hc&_)].
  - unfold checkpoint in *. rewrite Ho in Hhi. lia.
  - assert (q ≤ checkpoint w); [|lia]. apply (Hcov q eq); [|done|lia].
    eapply grows_old; [done|done|done|rewrite Hc in Hhi; apply Z.lt_le_incl, Hhi|done].
Qed.

Lemma running_settled m0 missed w :
  (∀ m base, resets m base → base = m0) → running m0 missed w → settled m0 missed w.
Proof.
  intros Hreset. induction 1 as [j o Hok Ho|missed w j _ IH Hg|E ctx pick p e missed w r w' _ IH Hi Hin Hown Hb
                                |E missed w w1 r w' _ IH Hi HR Hrun].
  - apply projected_settled; [|done..]. assert (checkpoint (init_world m0 j o) = 0) as Hc by done.
    constructor; rewrite ?Hc; [done|done|by apply Head_nonneg|]. unfold own, own_upto. rewrite filter_none; [done|].
    apply Forall_forall. intros [q e] Hq [_ Hle]. cbn in Hle.
    pose proof (numbered_pos _ _ _ Hok Hq). lia.
  - rewrite <- (app_nil_r missed). eapply settled_keeps, IH. by unfold keeps.
  - by eapply deliver_settled.
  - pose proof (st_ok _ _ _ IH) as Hok. pose proof (st_open _ _ _ IH) as [Hgt Hph].
    unfold Rebuild in HR. cbn in HR. rewrite bool_decide_true in HR by done. cbn in HR. injection HR as <-.
    destruct (runRebuild_inv E Hi _ _ _ (Hok : source_ok (journal (set_phase PhaseStopped w))) Hrun)
      as (?&?&Hg&res&->&Hres).
    destruct res; [destruct Hres as (base&Hb&Hpb&_); rewrite <- (Hreset _ _ Hb); by apply projected_settled..|].
    destruct Hres as [[Ho Hm]|(base&Hb&Hpb)]; [|rewrite <- (Hreset _ _ Hb); by apply projected_settled].
    rewrite <- (app_nil_r missed). eapply settled_keeps, IH. unfold keeps. split_and!; [done|done|congruence|congruence|done].
Qed.

Lemma own_upto_NoDup j o : source_ok j → NoDup (own_upto j o).
Proof.
  intros Hok. apply NoDup_filter, (NoDup_fmap_1 fst).
  induction (numbered_sorted j Hok) as [|q l _ IH Hall]; [apply NoDup_nil_2|].
  apply NoDup_cons. split; [|done]. intros Hq. rewrite Forall_forall in Hall. specialize (Hall _ Hq). lia.
Qed.

Lemma reflects_exact base w :
  source_ok (journal w) → reflects base [] w → fold_model (own (journal w) (checkpoint w)) base = Some (model w).
Proof.
  intros Hok (applied&Hsub&Hall&Hf). unfold own.
  assert (own_upto (journal w) (checkpoint w) = applied) as ->; [|done]. symmetry. apply sublist_eq; [done|].
  apply submseteq_length, NoDup_submseteq; [by apply own_upto_NoDup|].
  intros pe Hpe. apply Hall; [done|]. by apply not_elem_of_nil.
Qed.
End spec.

(** ** A sample projection: the read model is the list of applied event ids *)

Module ProjectionSample.
Import MemProjectionEventSource.

Definition append_id (e : ProjectionEvent) (m : list string) : option (outcome unit) * list string :=
  if EventID e ==s "bad" then (Some (Err (Permanent (ErrorsNew "cannot decode"))), m)
  else (Some (Ok tt), m ++ [EventID e]).

Definition c : Coordinator (list string) :=
  MkCoordinator "orders" "totals" "order.placed" append_id (Some (λ _, (Some (Ok tt), []))).

Definition order (id : string) : ProjectionEvent := OutboxEntry (MkOutboxEntry id "" "order.placed" "" (unix_epoch + 5 * Second)).
Definition other (id : string) : ProjectionEvent := OutboxEntry (MkOutboxEntry id "" "user.created" "" (unix_epoch + 9 * Second)).

Definition seed (l : list ProjectionEvent) : source :=
  foldl (λ j e, (Append j e).2) NewMemProjectionEventSource l.

(** Nothing fails and nobody interferes. *)
Definition calm : env (list string) source := MkEnv (λ _, None) (λ _ w, w).

Definition deliver (id : string) (w : world (list string) source) : world (list string) source :=
  (buildHandler c calm None true (order id) w).2.

Definition abc : source := seed [order "a"; other "x"; order "b"; order "c"].

Lemma abc_ok : source_ok abc.
Proof.
  split; [done|]. split; [|repeat constructor].
  change (NoDup ["a"; "x"; "b"; "c"]). apply (bool_decide_unpack _). by vm_compute.
Qed.

Lemma calm_keeps n w : keeps w (interfere calm n w).
Proof. apply keeps_refl. Qed.

Lemma covered_sample p w :
  Forall (λ pe, Stream pe.2 = "order.placed" → pe.1 < p → pe.1 ≤ checkpoint c w) (numbered (journal w)) →
  covered c p w.
Proof. rewrite Forall_forall. intros Hf q e Hq. by apply (Hf _ Hq). Qed.

(** The bus delivers "a", the projection is rebuilt, the bus delivers "b". *)
Definition w_a : world (list string) source := deliver "a" (init_world [] abc ∅).
Definition w_rebuilt : world (list string) source := (runRebuild c calm (set_phase PhaseStopped w_a)).2.

Lemma running_deliver_sample p id missed missed' w :
  running c [] missed w → (p, JournalEvent (order id) p) ∈ numbered (journal w) →
  missed ++ overtaken c w (deliver id w) = missed' → running c [] missed' (deliver id w).
Proof.
  intros Hw Hin <-. eapply (running_deliver c [] calm None true p (JournalEvent (order id) p) missed w);
    [done|exact calm_keeps|done|done|apply surjective_pairing].
Qed.

Lemma running_a : running c [] [] w_a.
Proof.
  apply (running_deliver_sample 1 "a" []); [|by left|by vm_compute].
  apply running_start; [exact abc_ok|done].
Qed.

Lemma running_rebuild_sample missed missed' w :
  running c [] missed w → phase w = PhaseLive →
  match (runRebuild c calm (set_phase PhaseStopped w)).1 with
  | Val (RebuildFailed _ _) => missed | _ => [] end = missed' →
  running c [] missed' (runRebuild c calm (set_phase PhaseStopped w)).2.
Proof.
  intros Hw Hph <-. eapply (running_rebuild c [] calm missed w);
    [done|by intros ???; apply keeps_refl| |apply surjective_pairing].
  unfold Rebuild. cbn. by rewrite Hph.
Qed.

Lemma running_rebuilt : running c [] [] w_rebuilt.
Proof. by eapply (running_rebuild_sample [] [] w_a); [apply running_a|vm_compute..]. Qed.

(** The handler of "c" has passed the gate when the rebuild starts, and its
    transaction runs right after the reset committed. *)
Definition w_ab : world (list string) source := deliver "b" w_a.
Definition race : env (list string) source :=
  MkEnv (λ _, None)
    (λ n w, if (n =? tick w_ab + 6)%nat then (handle c calm (order "c") w).2 else w).

(** An event no run of [apply] accepts sits between two good ones. *)
Definition with_bad : source := seed [order "a"; order "bad"; order "b"; order "c"].
Definition w_bad : world (list string) source :=
  deliver "b" (deliver "bad" (deliver "a" (init_world [] with_bad ∅))).

Lemma with_bad_ok : source_ok with_bad.
Proof.
  split; [done|]. split; [|repeat constructor].
  change (NoDup ["a"; "bad"; "b"; "c"]). apply (bool_decide_unpack _). by vm_compute.
Qed.

(** In order, with the rejected event overtaken by "b"; then a rebuild fails at it, and
    the delivery of "c" overtakes "b", which the rebuild had taken back. *)
Definition w_gap : world (list string) source :=
  deliver "c" (runRebuild c calm (set_phase PhaseStopped w_bad)).2.

Lemma running_bad : running c [] [2] w_bad.
Proof.
  apply (running_deliver_sample 3 "b" []); [|by right; right; left|by vm_compute].
  apply (running_deliver_sample 2 "bad" []); [|by right; left|by vm_compute].
  apply (running_deliver_sample 1 "a" []); [|by left|by vm_compute].
  apply running_start; [exact with_bad_ok|done].
Qed.

Lemma running_gap : running c [] [2; 2; 3] w_gap.
Proof.
  apply (running_deliver_sample 4 "c" [2]); [|by right; right; right; left|by vm_compute].
  by eapply (running_rebuild_sample [2] [2] w_bad); [apply running_bad|vm_compute..].
Qed.
End ProjectionSample.

(** ** Properties *)

(** C17: a projection applies no event twice, and exactly which events it can miss.
    Whatever fails and whenever it fails (a begin, a commit, a store or journal
    call, the business code, a cancellation, a panic), however often the projection
    is rebuilt, and in whatever order and number the bus delivers own events, one at
    a time and none during a rebuild: the read model always equals the freshly reset
    one with own events up to the checkpoint applied in journal order, each at most
    once; the only ones left out were overtaken since the last rebuild that completed:
    a later event was applied while they were not reflected, because the bus skipped
    them, the handler had rejected them or a failed rebuild had taken them back.
    If none was overtaken, in particular if each own event is delivered when every
    earlier one is reflected, the model holds every own event up to the checkpoint
    exactly once.  Between operations the gate is open and the phase is live. *)
Theorem projection_exactly_once {M J} `{JournalLaws J} (c : Coordinator M) m0 missed (w : world M J) :
  (∀ m base, resets c m base → base = m0) → running c m0 missed w →
  (∃ applied, applied `sublist_of` own_upto c (journal w) (checkpoint c w) ∧
     NoDup (own_upto c (journal w) (checkpoint c w)) ∧
     (∀ pe, pe ∈ own_upto c (journal w) (checkpoint c w) → pe.1 ∉ missed → pe ∈ applied) ∧
     fold_model c applied.*2 m0 = Some (model w)) ∧
  (missed = [] → fold_model c (own c (journal w) (checkpoint c w)) m0 = Some (model w)) ∧
  0 ≤ checkpoint c w ≤ Head (journal w) ∧ gate w = true ∧ phase w = PhaseLive.
Proof.
  intros Hr Hrun. destruct (running_settled c m0 missed w Hr Hrun) as [Hok Hcp Hm Ho]. split_and!; try apply Hcp; try apply Ho.
  - destruct Hm as (applied&Hsub&Hall&Hf). exists applied. split_and!; try done. by apply own_upto_NoDup.
  - intros ->. by apply reflects_exact.
Qed.

Lemma projection_exactly_once_witness :
  running ProjectionSample.c [] [] ProjectionSample.w_rebuilt ∧
  fold_model ProjectionSample.c (own ProjectionSample.c ProjectionSample.abc 4) [] = Some ["a"; "b"; "c"] ∧
  running ProjectionSample.c [] [2; 2; 3] ProjectionSample.w_gap ∧
  model ProjectionSample.w_gap = ["a"; "c"] ∧ phase ProjectionSample.w_gap = PhaseLive.
Proof.
  assert (Hr : ∀ m base, resets ProjectionSample.c m base → base = []) by (by intros m base [= <-]).
  split; [exact ProjectionSample.running_rebuilt|].
  split; [exact (proj1 (proj2 (projection_exactly_once ProjectionSample.c [] [] _ Hr ProjectionSample.running_rebuilt)) eq_refl)|].
  split; [exact ProjectionSample.running_gap|]. split; [by vm_compute|].
  exact (proj2 (proj2 (proj2 (proj2 (projection_exactly_once ProjectionSample.c [] _ _ Hr ProjectionSample.running_gap))))).
Defined.

(** C18: while no handler that passed the gate before it was shut is still in flight,
    so that during the rebuild others only append to the journal, a rebuild always
    ends, with the gate open and the phase live.  (The code does not wait for such a
    handler; see inflight_handler_loses_events below.)  Unless it failed, the read
    model is the reset one with every own event up to the checkpoint applied exactly
    once in order, and the checkpoint is past everything journaled before the rebuild
    began.  If it failed, either nothing was touched or the read model is exact up to
    an earlier checkpoint. *)
Theorem rebuild_exact {M J} `{JournalLaws J} (c : Coordinator M) (E : env M J) (w : world M J) :
  rely E → source_ok (journal w) →
  ∃ res w', runRebuild c E w = (Val res, w') ∧ gate w' = true ∧ phase w' = PhaseLive ∧
  match res with
  | RebuildFailed _ _ =>
      offsets w' = offsets w ∧ model w' = model w ∨
      ∃ base, resets c (model w) base ∧
        fold_model c (own c (journal w') (checkpoint c w')) base = Some (model w')
  | RebuildCompleted | RebuildDegraded =>
      ∃ base, resets c (model w) base ∧
        fold_model c (own c (journal w') (checkpoint c w')) base = Some (model w') ∧
        Head (journal w) ≤ checkpoint c w' ≤ Head (journal w')
  end.
Proof.
  intros HE Hok. destruct (runRebuild c E w) as [r w'] eqn:Hrun.
  destruct (runRebuild_inv c E HE _ _ _ Hok Hrun) as (Hg&Hph&_&res&->&Hres).
  exists res, w'. split_and!; [done..|].
  destruct res; [destruct Hres as (base&?&[]&?); by exists base..|].
  destruct Hres as [?|(base&?&[])]; [by left|right; by exists base].
Qed.

Lemma rebuild_exact_witness :
  ∃ res w', runRebuild ProjectionSample.c ProjectionSample.calm ProjectionSample.w_a = (Val res, w') ∧
    gate w' = true ∧ res = RebuildCompleted ∧ model w' = ["a"; "b"; "c"].
Proof.
  destruct (rebuild_exact ProjectionSample.c ProjectionSample.calm ProjectionSample.w_a)
    as (res&w'&Hrun&Hg&_).
  - intros n w1 _. apply keeps_refl.
  - exact ProjectionSample.abc_ok.
  - exists res, w'. split; [exact Hrun|]. split; [exact Hg|].
    assert (Hv : (runRebuild ProjectionSample.c ProjectionSample.calm ProjectionSample.w_a).1 = Val RebuildCompleted)
      by (by vm_compute).
    assert (Hm : model (runRebuild ProjectionSample.c ProjectionSample.calm ProjectionSample.w_a).2 = ["a"; "b"; "c"])
      by (by vm_compute).
    rewrite Hrun in Hv, Hm. cbn [fst snd] in Hv, Hm. clear Hrun. injection Hv as ->. split; [reflexivity|exact Hm].
Defined.

Lemma own_prefix {M J} `{JournalLaws J} (c : Coordinator M) (j j' : J) o :
  grows j j' → source_ok j → Head j ≤ o → own c j (Head j) `prefix_of` own c j' o.
Proof.
  intros Hg Hok Ho. destruct (Hg Hok) as [_ [k Hk]]. unfold own, own_upto. rewrite Hk, filter_app, fmap_app.
  erewrite filter_ext_in; [by apply prefix_app_r|]. apply Forall_forall. intros [q e] Hq. cbn.
  pose proof (Head_max j q e Hok Hq). split; intros [? ?]; split; (done || lia).
Qed.

(** an own event that [Apply] never accepts, which live delivery rejects to
    the dead-letter queue and steps over, makes every rebuild fail: no rebuild
    skips it. *)
Theorem poison_blocks_rebuild {M J} `{JournalLaws J} (c : Coordinator M) (E : env M J) (w : world M J) :
  rely E → source_ok (journal w) →
  (∀ base, resets c (model w) base → fold_model c (own c (journal w) (Head (journal w))) base = None) →
  ∃ name err w', runRebuild c E w = (Val (RebuildFailed name err), w') ∧ phase w' = PhaseLive.
Proof.
  intros HE Hok Hpoison. destruct (runRebuild c E w) as [r w'] eqn:Hrun.
  destruct (runRebuild_inv c E HE _ _ _ Hok Hrun) as (_&Hph&Hg&res&->&Hres).
  assert (Hno : ∀ base, resets c (model w) base → projected c base w' →
    Head (journal w) ≤ checkpoint c w' → False).
  { intros base Hb [] Hle. destruct (own_prefix c _ _ _ Hg Hok Hle) as [k Hk].
    rewrite Hk, fold_model_app, (Hpoison _ Hb) in pj_fold0. done. }
  destruct res as [| |name err]; [destruct Hres as (base&?&?&?); by destruct (Hno base)..|].
  by exists name, err, w'.
Qed.

Lemma poison_blocks_rebuild_witness :
  model ProjectionSample.w_bad = ["a"; "b"] ∧
  ∃ name err w', runRebuild ProjectionSample.c ProjectionSample.calm ProjectionSample.w_bad
                   = (Val (RebuildFailed name err), w') ∧ phase w' = PhaseLive.
Proof.
  split; [by vm_compute|].
  apply (poison_blocks_rebuild ProjectionSample.c ProjectionSample.calm ProjectionSample.w_bad).
  - intros n w1 _. apply keeps_refl.
  - exact ProjectionSample.with_bad_ok.
  - intros base [= <-]. by vm_compute.
Defined.

(** after such a failure the phase says live although the read model has lost
    events it held before: live delivery had applied "a" and "b" around the
    rejected event; the rebuild fails and leaves "a"; the next delivery moves the
    checkpoint past "b", which is then never applied again. *)
Theorem failed_rebuild_gap :
  model ProjectionSample.w_bad = ["a"; "b"] ∧
  let w1 := (runRebuild ProjectionSample.c ProjectionSample.calm ProjectionSample.w_bad).2 in
  let w2 := ProjectionSample.deliver "c" w1 in
  phase w1 = PhaseLive ∧ model w1 = ["a"] ∧
  model w2 = ["a"; "c"] ∧ checkpoint ProjectionSample.c w2 = 4 ∧
  model (ProjectionSample.deliver "b" w2) = ["a"; "c"].
Proof. vm_compute. done. Qed.

(** Shutting the gate does not wait for a handler that has already passed
    it.  The bus has delivered "a" and "b" and the handler of "c" is past the
    gate; a rebuild starts, and the handler's transaction runs after the reset.
    The rebuild reports completion with the checkpoint at the head, and "a" and
    "b" are missing from the read model. *)
Theorem inflight_handler_loses_events :
  model ProjectionSample.w_ab = ["a"; "b"] ∧ gate ProjectionSample.w_ab = true ∧
  covered ProjectionSample.c 4 ProjectionSample.w_ab ∧
  (∀ n w, interfere ProjectionSample.race n w = w ∨
          interfere ProjectionSample.race n w
          = (handle ProjectionSample.c ProjectionSample.calm (ProjectionSample.order "c") w).2) ∧
  let '(r, w) := runRebuild ProjectionSample.c ProjectionSample.race
                   (Rebuild true ProjectionSample.w_ab).2 in
  r = Val RebuildCompleted ∧ phase w = PhaseLive ∧
  checkpoint ProjectionSample.c w = Head (journal w) ∧ model w = ["c"].
Proof.
  split; [by vm_compute|]. split; [by vm_compute|]. split.
  { apply ProjectionSample.covered_sample. repeat constructor; vm_compute; intros; done. }
  split; [|by vm_compute]. intros n w. cbn. destruct (_ =? _)%nat; auto.
Qed.

(** ** Identifiers and probes *)

Lemma is_ok_true {A} (r : outcome A) : is_ok r = true ↔ ∃ a, r = Ok a.
Proof. destruct r; cbn; split; try done; [by eexists|by intros [? [=]]]. Qed.

Lemma probe_name_length cid pid suffix :
  byte_len (cid ++ projectionProbeNameInfix ++ pid ++ suffix) = byte_len cid + 12 + byte_len pid + byte_len suffix.
Proof. unfold byte_len. rewrite !length_append. cbn. lia. Qed.

Lemma NewCoordinator_Ok cid pid :
  NewCoordinator cid pid = Ok tt ↔
  cid ≠ EmptyString ∧ pid ≠ EmptyString ∧ byte_len cid + byte_len pid ≤ 48 ∧
  probeNamePattern (cid ++ projectionProbeNameInfix ++ pid ++ projectionLagSuffix) = true.
Proof.
  unfold NewCoordinator, ProjectionLagProbeName, str_eqb.
  destruct (bool_decide (cid = "")) eqn:?; bools; [naive_solver|].
  destruct (bool_decide (pid = "")) eqn:?; bools; [naive_solver|]. cbn [orb].
  destruct (is_ok (NewProbeName _)) eqn:Hn.
  - apply is_ok_true in Hn as [n Hn]. apply NewProbeName_Ok in Hn as (_&Hl&Hpat).
    rewrite probe_name_length in Hl. change (byte_len projectionLagSuffix) with 4 in Hl.
    unfold probeNameMaxLen in Hl. split; [intros _; split_and!; (done || lia)|done].
  - split; [done|]. intros (_&_&Hl&Hpat). exfalso.
    rewrite NewProbeName_accept in Hn; [done| |done].
    rewrite probe_name_length. change (byte_len projectionLagSuffix) with 4. lia.
Qed.

(** of the identifiers the constructor accepts, exactly those of at most 40
    bytes together can build their probes: between 41 and 48 bytes the
    constructor succeeds and [Probes] fails.  And accepted identifiers name one
    checkpoint row: two projections share a key only if they are the same. *)
Theorem coordinator_identifiers {M} (c : Coordinator M) cid' pid' :
  NewCoordinator (cellID c) (projectionID c) = Ok tt → NewCoordinator cid' pid' = Ok tt →
  (is_ok (Probes c) = true ↔ byte_len (cellID c) + byte_len (projectionID c) ≤ 40) ∧
  (checkpointKey (cellID c) (projectionID c) = checkpointKey cid' pid' →
   cellID c = cid' ∧ projectionID c = pid').
Proof.
  intros (Hc&Hp&Hl&Hpat)%NewCoordinator_Ok (_&_&_&Hpat')%NewCoordinator_Ok. split.
  - unfold Probes, ProjectionStoreReadyProbeName, ProjectionLagProbeName, str_eqb.
    rewrite !bool_decide_false by done. cbn [orb].
    rewrite (NewProbeName_accept (_ ++ _ ++ _ ++ projectionLagSuffix));
      [|rewrite probe_name_length; change (byte_len projectionLagSuffix) with 4; lia|done]. set (name := (_ ++ projectionStoreReadySuffix)%string).
    assert (Hname : probeNamePattern (cellID c ++ projectionProbeNameInfix ++ name) = true).
    { revert Hpat. unfold name. rewrite <- !append_assoc. apply probe_shape_suffix; [|done..].
      by destruct (cellID c). }
    assert (Hlen : byte_len (cellID c ++ projectionProbeNameInfix ++ name)
                   = byte_len (cellID c) + byte_len (projectionID c) + 24).
    { unfold name. rewrite probe_name_length. change (byte_len projectionStoreReadySuffix) with 12. lia. }
    destruct (NewProbeName (cellID c ++ _ ++ name)) as [n|e] eqn:Hn; cbn.
    + apply NewProbeName_Ok in Hn as (_&Hle&_). rewrite Hlen in Hle. unfold probeNameMaxLen in Hle. split; [intros _; lia|done].
    + split; [done|]. intros Hle. exfalso.
      rewrite NewProbeName_accept in Hn; [done| |done]. rewrite Hlen. lia.
  - apply probeNamePattern_no_slash in Hpat, Hpat'. rewrite no_slash_app in Hpat, Hpat'.
    apply andb_prop in Hpat as [? _], Hpat' as [? _]. by apply slash_split.
Qed.

Lemma coordinator_identifiers_witness :
  NewCoordinator "orders_fulfillment_x" "customer_lifetime_value" = Ok tt ∧
  is_ok (Probes (MkCoordinator "orders_fulfillment_x" "customer_lifetime_value" "t"
                   ProjectionSample.append_id None)) = false.
Proof.
  split; [by vm_compute|].
  destruct (is_ok _) eqn:Hok; [|done].
  destruct (coordinator_identifiers (MkCoordinator "orders_fulfillment_x" "customer_lifetime_value" "t"
              ProjectionSample.append_id None) "orders" "totals") as [[Hlen _] _].
  - by vm_compute.
  - by vm_compute.
  - apply Hlen in Hok. exfalso. revert Hok. vm_compute. by intros Hle; apply Hle.
Defined.

(** The verdict of the lag probe when the stores answer. *)
Lemma checkLag_calm {M J} `{!JournalSource J} (c : Coordinator M) (E : env M J) now (w : world M J) :
  (∀ n, weather E n = None) → int64_range (Head (journal w) - checkpoint c w) →
  (checkLag c E now w).1 =
    if (Head (journal w) - checkpoint c w <=? 0) || (lastAppliedUnixNano w =? 0) then Val tt
    else if projectionLagThresholdSeconds * Second <? Sub now (unix_epoch + lastAppliedUnixNano w)
    then Fail errLag else Val tt.
Proof.
  intros HE Hr. unfold checkLag, computeLagPending, head, load_offset, wrapf, mbind, go_bind, outside, read.
  cbn [tick advance_tick journal offsets]. rewrite !HE. cbn [tick advance_tick journal offsets lastAppliedUnixNano].
  fold (checkpoint c w). rewrite (wrap64_id _ Hr).
  destruct (Head (journal w) - checkpoint c w <=? 0) eqn:?; [done|]. bools. cbn [orb].
  change (lastAppliedUnixNano (advance_tick (advance_tick w))) with (lastAppliedUnixNano w).
  destruct (lastAppliedUnixNano w =? 0); unfold mret, go_ret; cbn beta iota;
    (destruct (Head (journal w) - checkpoint c w =? 0) eqn:?; bools; [lia|]); [done|].
  cbn [negb]. rewrite Z.gtb_ltb. by destruct (_ <? _).
Qed.

(** the lag probe counts the entries of other streams as pending.  A
    projection that has caught up is healthy; one entry of another stream is
    journaled, which leaves its own events as they were; and from 300 seconds
    after its last own event the probe is unhealthy. *)
Theorem lag_probe_counts_foreign {M J} `{JournalLaws J} (c : Coordinator M) (E : env M J) now (w : world M J) j p e :
  (∀ n, weather E n = None) → source_ok (journal w) → source_ok j →
  checkpoint c w = Head (journal w) →
  numbered j = numbered (journal w) ++ [(p, e)] → Stream e ≠ spec_Topic c → p ≤ MaxInt64 →
  lastAppliedUnixNano w ≠ 0 →
  projectionLagThresholdSeconds * Second < now - (unix_epoch + lastAppliedUnixNano w) →
  (checkLag c E now w).1 = Val tt ∧
  own c j p = own c (journal w) (checkpoint c w) ∧
  (checkLag c E now (set_journal j w)).1 = Fail errLag.
Proof.
  intros HE Hok Hok' Hcp Hn Hf Hmax Hlast Hlag.
  assert (Hh : Head j = p) by (rewrite Head_spec, Hn, fmap_app by done; cbn; by rewrite last_snoc).
  assert (Hg : grows (journal w) j) by (intros _; split; [done|]; rewrite Hn; by apply prefix_app_r).
  assert (Hin : (p, e) ∈ numbered j) by (rewrite Hn; apply elem_of_app; right; by apply list_elem_of_singleton).
  pose proof (Head_nonneg _ Hok) as H0.
  assert (Hlt : Head (journal w) < p).
  { destruct (decide (0 < Head (journal w))) as [Hp|]; [|pose proof (numbered_pos _ _ _ Hok' Hin); lia].
    destruct (Head_elem _ Hok Hp) as [eh Heh]. pose proof (numbered_sorted j Hok') as Hs. rewrite Hn in Hs.
    by apply (StronglySorted_fst_split _ _ (_, eh) (p, e) Hs Heh), list_elem_of_singleton. }
  split.
  { rewrite checkLag_calm; [|done|unfold int64_range, MinInt64, MaxInt64; lia].
    by destruct (Head (journal w) - checkpoint c w <=? 0) eqn:?; bools; [|lia]. }
  split.
  { rewrite (own_advance c j p e (checkpoint c w)); [|done|done|lia|].
    - rewrite decide_False, app_nil_r by done. apply own_grows; [done|done|lia].
    - intros q eq Hq _ Hqp. rewrite Hn in Hq. apply elem_of_app in Hq as [Hq|Hq].
      + rewrite Hcp. by eapply Head_max.
      + apply list_elem_of_singleton in Hq as [= -> _]. lia. }
  change (checkpoint c w) with (checkpoint c (set_journal j w)) in *.
  rewrite checkLag_calm; [|done|cbn; unfold int64_range, MinInt64; lia]. cbn [journal set_journal lastAppliedUnixNano].
  destruct (Head j - _ <=? 0) eqn:?; bools; [lia|]. destruct (lastAppliedUnixNano w =? 0) eqn:?; bools; [lia|]. cbn [orb].
  destruct (_ <? Sub _ _) eqn:Hs; bools; [done|]. exfalso. revert Hs Hlag.
  unfold Sub, projectionLagThresholdSeconds, Second, Millisecond, MinInt64, MaxInt64. lia.
Qed.

Lemma lag_probe_counts_foreign_witness :
  let j := ProjectionSample.seed [ProjectionSample.order "a"] in
  let w := ProjectionSample.deliver "a" (init_world [] j ∅) in
  let j' := ProjectionSample.seed [ProjectionSample.order "a"; ProjectionSample.other "x"] in
  (checkLag ProjectionSample.c ProjectionSample.calm (unix_epoch + 306 * Second) (set_journal j' w)).1 = Fail errLag.
Proof.
  intros j w j'.
  apply (lag_probe_counts_foreign ProjectionSample.c ProjectionSample.calm (unix_epoch + 306 * Second) w j'
           2 (JournalEvent (ProjectionSample.other "x") 2)); try (by vm_compute).
  - split; [done|]. split; [apply NoDup_singleton|repeat constructor].
  - split; [done|]. split; [|repeat constructor].
    change (NoDup ["a"; "x"]). apply (bool_decide_unpack _). by vm_compute.
Defined.
