(* ===== verification/SagaProjection.v ===== *)
(** * kernel/saga/sagaprojection/source.go: the saga journal as a projection source

    [SagaJournalSource] turns the events of the saga journal into projection
    carriers and pages through them.  The envelope a carrier's payload holds is
    marshalled as [encoding/json] does: the raw step payload is validated,
    stripped of insignificant white space and HTML-escaped.  The event id is
    printed and parsed ([strconv.ParseInt], [strings.LastIndex]). *)

From Stdlib Require Import Ascii String.
From S2P Require Import Prelude GoJson Base64 JsonText IdUtil Saga SagaEvent SagaJournal ProjectionStore GoFlow.

(** ** encoding/json: a RawMessage inside a struct *)

Definition in_string (s : scanner) : bool :=
  match sc_step s with stateInString | stateInStringEsc | stateInStringEscU _ => true | _ => false end.

Definition unicode_escape (hex : string) : string := String "\" (String "u" hex).

(** [appendCompact] with HTML escaping: bytes outside strings that are white
    space are dropped; [None] is the scanner's error. *)
Fixpoint compact_from (s : scanner) (b : bytes) : option (bytes * scanner) :=
  match b with
  | EmptyString => Some (EmptyString, s)
  | String c b1 =>
      s1 ← scan_byte c s;
      let keep (text : string) : option (bytes * scanner) :=
        '(out, s') ← compact_from s1 b1; Some ((text ++ out)%string, s') in
      if is_json_space c && negb (in_string s) then keep EmptyString
      else if (c =? "<")%char then keep (unicode_escape "003c")
      else if (c =? ">")%char then keep (unicode_escape "003e")
      else if (c =? "&")%char then keep (unicode_escape "0026")
      else
        match b1 with
        | String c1 (String c2 b3) =>
            if line_separator c c1 c2
            then
              s2 ← scan_byte c1 s1; s3 ← scan_byte c2 s2;
              '(out, s') ← compact_from s3 b3;
              Some ((unicode_escape (if (c2 =? "168")%char then "2028" else "2029") ++ out)%string, s')
            else keep (String c EmptyString)
        | _ => keep (String c EmptyString)
        end
  end.

Definition compact (b : bytes) : option bytes :=
  match compact_from (Scanner stateBeginValue [] false) b with
  | None => None
  | Some (out, s) =>
      if endTop s || match scan_byte " " s with Some s' => endTop s' | None => false end
      then Some out else None
  end.

(** ** SagaEventEnvelope *)

Record SagaEventEnvelope := MkEnvelope {
  env_Kind : string;
  env_StepName : string;     (* omitempty *)
  env_Payload : bytes;       (* omitempty *)
}.

Definition member (name value : string) : string := (json_string name ++ ":" ++ value)%string.

Definition json_Marshal (e : SagaEventEnvelope) : outcome bytes :=
  let front := ("{" ++ member "kind" (json_string (env_Kind e)) ++
    (if env_StepName e ==s "" then "" else "," ++ member "stepName" (json_string (env_StepName e))))%string in
  if byte_len (env_Payload e) =? 0 then Ok (front ++ "}")%string
  else
    match compact (env_Payload e) with
    | Some p => Ok (front ++ "," ++ member "payload" p ++ "}")%string
    | None => Err (ErrorsNew "json: error calling MarshalJSON for type json.RawMessage")
    end.

Definition toCarrier (ge : GlobalEvent) : outcome ProjectionEvent :=
  let ev := ge_Event ge in
  match json_Marshal (MkEnvelope (EventKind_String (ev_Kind ev)) (StepName ev) (Payload ev)) with
  | Err err =>
      Err (Permanent (Errorf ("sagaprojection: marshal envelope for globalSeq=" ++ pretty (GlobalSeq ge)
                              ++ " kind=" ++ EventKind_String (ev_Kind ev)) err))
  | Ok raw => Ok (sagaProjectionEvent (GlobalSeq ge) (InstanceID ge) raw (CreatedAt ev))
  end.

(** ** Event ids *)

Fixpoint HasPrefix (s prefix : string) : option string :=
  match prefix, s with
  | EmptyString, _ => Some s
  | String p prefix', String c s' => if (c =? p)%char then HasPrefix s' prefix' else None
  | _, EmptyString => None
  end.

(** What stands before and after the last [@]. *)
Fixpoint split_last_at (s : string) : option (string * string) :=
  match s with
  | EmptyString => None
  | String c s' =>
      match split_last_at s' with
      | Some (before, after) => Some (String c before, after)
      | None => if (c =? "@")%char then Some (EmptyString, s') else None
      end
  end.

Definition ParseSagaJournalEventID (eventID : string) : outcome (Z * string) :=
  match HasPrefix eventID SagaJournalEventIDPrefix with
  | None => Err (invalid "sagaprojection.ParseSagaJournalEventID: missing saga-journal EventID prefix")
  | Some rest =>
      match split_last_at rest with
      | None => Err (invalid "sagaprojection.ParseSagaJournalEventID: missing @ separator")
      | Some (seq, instanceID) =>
          if instanceID ==s ""
          then Err (invalid "sagaprojection.ParseSagaJournalEventID: empty instanceID suffix")
          else
            match ParseInt seq with
            | None => Err (invalid "sagaprojection.ParseSagaJournalEventID: globalSeq is not a base-10 int64")
            | Some globalSeq =>
                if globalSeq <=? 0
                then Err (invalid "sagaprojection.ParseSagaJournalEventID: globalSeq must be positive")
                else Ok (globalSeq, instanceID)
            end
      end
  end.

(** ** SagaJournalSource *)

Definition batchSize : Z := 256.

Definition source_Head (m : MemJournal) : Z := HeadSeq m.

Definition source_Position (entry : ProjectionEvent) : outcome Z :=
  match entry with
  | sagaProjectionEvent seq _ _ _ =>
      if seq <=? 0
      then Err (Permanent (ErrorsNew ("sagaprojection: Position received unseeded sentinel (globalSeq=" ++ pretty seq
                                      ++ "); saga journal events always have GlobalSeq >= 1 (Cursor invariant #4: unresolvable entry is permanent)")))
      else Ok seq
  | _ => Err (Permanent (ErrorsNew "sagaprojection: Position received unknown carrier type; SagaJournalSource.Cursor only resolves *sagaProjectionEvent carriers (Cursor invariant #4: unresolvable entry is permanent)"))
  end.

Definition source_ResolveCarrier (entry : ProjectionEvent) : outcome ProjectionEvent :=
  match entry with
  | sagaProjectionEvent _ _ _ _ => Ok entry
  | _ => Err (Permanent (invalid "sagaprojection: ResolveCarrier resolves only intrinsic *sagaProjectionEvent carriers (produced by Replay/LoadSince); the saga journal has no live bare-entry push path, so a non-sagaProjectionEvent carrier is unresolvable (permanent)"))
  end.

Section source.
Context {W : Type} (journal_of : W → MemJournal) (ctxErr outside : go W unit).

(** [gr.LoadSince]: the journal as it is at the time of the call, unless the
    backend fails. *)
Definition page_at (cursor : Z) : go W (list GlobalEvent) := λ w,
  match LoadSince (journal_of w) cursor batchSize with
  | None => (Panic, w)
  | Some r => lift r w
  end.

Definition load_since (cursor : Z) : go W (list GlobalEvent) := outside ≫= λ _, page_at cursor.

(** The inner loop; the cursor of the last event delivered is returned. *)
Fixpoint replay_batch (fn : ProjectionEvent → go W unit) (cursor : Z) (batch : list GlobalEvent) : go W Z :=
  match batch with
  | [] => mret cursor
  | ge :: rest =>
      e ← lift (toCarrier ge);
      fn e ≫= λ _, replay_batch fn (GlobalSeq ge) rest
  end.

(** [Replay]: one page per unit of fuel; [None] is out of fuel. *)
Fixpoint source_Replay (fuel : nat) (cursor : Z) (fn : ProjectionEvent → go W unit) : go W (option unit) :=
  match fuel with
  | O => mret None
  | S fuel' =>
      ctxErr ≫= λ _,
      batch ← wrapf ("sagaprojection: LoadSince(after=" ++ pretty cursor ++ ", limit=" ++ pretty batchSize ++ ")")
                (load_since cursor);
      cursor' ← replay_batch fn cursor batch;
      if Z.of_nat (length batch) <? batchSize then mret (Some tt)
      else source_Replay fuel' cursor' fn
  end.
End source.

(** ** Compaction accepts exactly the valid texts *)

Lemma compact_from_scan n b s :
  (String.length b ≤ n)%nat → snd <$> compact_from s b = scan_bytes b s.
Proof.
  revert b s. induction n as [|n IH]; intros b s Hn; (destruct b as [|c b1]; [done|]); cbn in Hn; [lia|].
  cbn [compact_from scan_bytes]. destruct (scan_byte c s) as [s1|]; [|done]. cbn [mbind option_bind].
  assert (Hkeep : ∀ text, snd <$> ('(out, s') ← compact_from s1 b1; Some ((text ++ out)%string, s'))
                          = scan_bytes b1 s1).
  { intros text. rewrite <- IH by lia. by destruct (compact_from s1 b1) as [[]|]. }
  do 4 (case_match; [apply Hkeep|]). destruct b1 as [|c1 [|c2 b3]]; [apply Hkeep..|].
  case_match; [|apply Hkeep]. cbn [scan_bytes].
  destruct (scan_byte c1 s1) as [s2|]; [|done]. cbn. destruct (scan_byte c2 s2) as [s3|]; [|done]. cbn.
  rewrite <- IH by (cbn in Hn; lia). by destruct (compact_from s3 b3) as [[]|].
Qed.

Lemma compact_valid b : is_Some (compact b) ↔ json_Valid b = true.
Proof.
  unfold compact, json_Valid. rewrite <- (compact_from_scan (String.length b)) by lia.
  destruct (compact_from _ b) as [[out s]|]; cbn; [|by split; [intros []|]].
  destruct (endTop s || _); [by split; [|eexists]|by split; [intros []|]].
Qed.

Definition payload_ok (p : bytes) : Prop := byte_len p = 0 ∨ json_Valid p = true.

Lemma toCarrier_ok ge :
  payload_ok (Payload (ge_Event ge)) →
  ∃ raw, toCarrier ge = Ok (sagaProjectionEvent (GlobalSeq ge) (InstanceID ge) raw (CreatedAt (ge_Event ge))).
Proof.
  unfold toCarrier, json_Marshal. cbn. intros Hp.
  destruct (byte_len (Payload (ge_Event ge)) =? 0) eqn:?; bools; [eauto|].
  destruct Hp as [?|[p ->]%compact_valid]; [done|eauto].
Qed.

(** ** What the journal stores *)

Definition event_ok (g : GlobalEvent) : Prop :=
  valid_name (InstanceID g) ∧ payload_ok (Payload (ge_Event g)).

Definition log_ok (m : MemJournal) : Prop :=
  (∀ id, id ∈ dom (instances m) → valid_name id) ∧ Forall event_ok (globalLog m).

Lemma ValidateForAppend_payload e : ValidateForAppend e = Ok tt → payload_ok (Payload e).
Proof.
  unfold ValidateForAppend, payload_ok. intros Hv. repeat (case_match; [done|]).
  apply bind_Ok in Hv as ([]&_&Hv). unfold validateObjectOrNull in Hv.
  destruct (byte_len (Payload e) =? 0) eqn:?; bools; [by left|].
  destruct (json_Valid (Payload e)); [by right|done].
Qed.

Lemma exec_log_ok m op : log_ok m → log_ok (exec m op).
Proof.
  intros [Hdom Hlog]. destruct op as [i|now id l e|now en b d|now id l d|now id l s]; cbn.
  - destruct (Enqueue m i) as [r m'] eqn:HE. cbn.
    apply Enqueue_cases in HE as [[-> _]|(_&_&Hv&->)]; [done|]. split; [|done]. cbn.
    intros id. rewrite dom_insert_L, elem_of_union, elem_of_singleton.
    intros [->|?]; [|by apply Hdom]. by apply ValidateNew_Ok in Hv as (_&_&_&_&_&?&_).
  - destruct (Append m now id l e) as [r m'] eqn:HE. cbn.
    apply Append_cases in HE as [[-> _]|(row&i&Hrow&_&Hv&_&[= _ ->])]; [done|].
    assert (Hid : valid_name id) by (by apply Hdom, elem_of_dom). split; cbn.
    + intros id'. rewrite dom_insert_L, elem_of_union, elem_of_singleton. intros [->|?]; [done|by apply Hdom].
    + apply Forall_snoc. split; [done|]. split; [done|]. cbn. by apply ValidateForAppend_payload.
  - destruct (ClaimPending m now en b d) as [r m'] eqn:HE. cbn.
    apply ClaimPending_cases in HE as [[-> _]|(l&_&_&_&_&_&->)]; [done|]. split; [|done]. cbn.
    by rewrite claim_dom.
  - destruct (Heartbeat m now id l d) as [r m'] eqn:HE. cbn.
    apply Heartbeat_cases in HE as [[-> _]|(row&Hrow&_&_&_&->)]; [done|]. split; [|done]. cbn.
    intros id'. rewrite dom_insert_L, elem_of_union, elem_of_singleton.
    intros [->|?]; [by apply Hdom, elem_of_dom|by apply Hdom].
  - destruct (MarkTerminal m now id l s) as [r m'] eqn:HE. cbn.
    apply MarkTerminal_cases in HE as [[-> _]|(row&i&k&Hrow&_&_&_&_&->)]; [done|].
    assert (Hid : valid_name id) by (by apply Hdom, elem_of_dom). split; cbn.
    + intros id'. rewrite !dom_insert_L, !elem_of_union, !elem_of_singleton.
      intros [->|[->|?]]; [done..|by apply Hdom].
    + apply Forall_snoc. split; [done|]. split; [done|]. by left.
Qed.

Lemma reachable_log_ok m : reachable m → log_ok m.
Proof. induction 1 as [|m op _ IH]; [by split; [intros ? ?%elem_of_empty|]|by apply exec_log_ok]. Qed.

(** ** Printing and parsing event ids *)

Lemma HasPrefix_app p s : HasPrefix (p ++ s) p = Some s.
Proof.
  induction p as [|c p IH]; [by destruct s|]. rewrite append_String. cbn. by rewrite Ascii.eqb_refl.
Qed.

Fixpoint has_at (s : string) : bool :=
  match s with EmptyString => false | String c s' => (c =? "@")%char || has_at s' end.

Lemma split_last_at_None s : split_last_at s = None ↔ has_at s = false.
Proof.
  induction s as [|c s IH]; [done|]. cbn. destruct (split_last_at s) as [[]|].
  - destruct (has_at s); [by rewrite orb_true_r|]. by destruct IH as [_ IH]; specialize (IH eq_refl).
  - destruct IH as [IH _]. rewrite (IH eq_refl), orb_false_r. by destruct (c =? "@")%char.
Qed.

Lemma split_last_at_app a b : has_at b = false → split_last_at (a ++ "@" ++ b) = Some (a, b).
Proof.
  intros Hb. induction a as [|c a IH].
  - change ("" ++ "@" ++ b)%string with (String "@" b). cbn [split_last_at].
    apply split_last_at_None in Hb. by rewrite Hb.
  - rewrite append_String. cbn [split_last_at]. by rewrite IH.
Qed.

(** The last [@] is the last one of the suffix. *)
Lemma split_last_at_suffix a b :
  has_at b = true → ∃ b1 b2, split_last_at b = Some (b1, b2) ∧ split_last_at (a ++ b) = Some ((a ++ b1)%string, b2).
Proof.
  intros Hb. destruct (split_last_at b) as [[b1 b2]|] eqn:Hs; [|apply split_last_at_None in Hs; congruence].
  exists b1, b2. split; [done|]. induction a as [|c a IH]; [done|]. rewrite !append_String. cbn. by rewrite IH.
Qed.

Lemma safe_no_at s : all_safe s = true → has_at s = false.
Proof.
  induction s as [|c s IH]; [done|]. cbn. destruct (safe_byte c) eqn:Hc; [|done]. intros ->%IH.
  rewrite orb_false_r. destruct (Ascii.eqb c "@") eqn:He; [|done].
  apply Ascii.eqb_eq in He as ->. by vm_compute in Hc.
Qed.

(** ** Properties *)

(** every event of a reachable saga journal becomes a carrier whose cursor
    position is its [GlobalSeq] and whose event id parses back to that position
    and to the saga instance.  The round trip rests on instance ids being free of
    [@]: for an id that contains one, the parser does not return it. *)
Theorem saga_event_id_roundtrip m g :
  reachable m → g ∈ globalLog m → Z.of_nat (length (globalLog m)) ≤ MaxInt64 →
  (∃ ev, toCarrier g = Ok ev ∧ source_Position ev = Ok (GlobalSeq g) ∧
         ParseSagaJournalEventID (EventID ev) = Ok (GlobalSeq g, InstanceID g)) ∧
  ∀ seq inst p t, has_at inst = true →
    ParseSagaJournalEventID (EventID (sagaProjectionEvent seq inst p t)) ≠ Ok (seq, inst).
Proof.
  intros Hr Hg Hlen. split.
  - destruct (reachable_log_ok m Hr) as [_ Hlog]. rewrite Forall_forall in Hlog.
    destruct (Hlog g Hg) as [(Hne&_&Hsafe) Hp]. destruct (toCarrier_ok g Hp) as [raw Hc].
    apply list_elem_of_lookup in Hg as [i Hi].
    pose proof (proj1 (ji_dense _ (reachable_inv _ Hr) _ _ Hi)) as Hseq.
    apply lookup_lt_Some in Hi. eexists. split; [exact Hc|]. cbn [source_Position EventID].
    destruct (GlobalSeq g <=? 0) eqn:?; bools; [lia|]. split; [done|].
    unfold ParseSagaJournalEventID. rewrite HasPrefix_app, split_last_at_app.
    2:{ apply safe_no_at. unfold IsSafeID in Hsafe. by destruct (_ =? 0). }
    unfold str_eqb. rewrite bool_decide_false by done. rewrite ParseInt_pretty by (unfold int64_range, MinInt64; lia).
    by destruct (GlobalSeq g <=? 0) eqn:?; bools; [lia|].
  - intros seq inst p t Hat. cbn [EventID]. unfold ParseSagaJournalEventID. rewrite HasPrefix_app.
    destruct (split_last_at_suffix (pretty seq ++ "@") inst Hat) as (b1&b2&Hb&Hs).
    rewrite append_assoc in Hs. rewrite Hs. destruct (b2 ==s ""); [done|].
    destruct (ParseInt _) as [n|]; [|done]. destruct (n <=? 0); [done|]. intros [= _ Hb2].
    assert (Hl : (String.length b2 < String.length inst)%nat); [|subst; lia].
    clear -Hb. revert b1 Hb. induction inst as [|c s IH]; intros b1; [done|]. cbn.
    destruct (split_last_at s) as [[x y]|]; [intros [= _ <-]; specialize (IH _ eq_refl); lia|].
    destruct (c =? "@")%char; [|done]. intros [= _ <-]. lia.
Qed.

Lemma saga_event_id_roundtrip_witness :
  ∃ ev, toCarrier (MkGlobalEvent 2 "s2" (MkEvent 2 2 KindStepCompleted "charge" "" 12)) = Ok ev ∧
        ParseSagaJournalEventID (EventID ev) = Ok (2, "s2").
Proof.
  destruct (saga_event_id_roundtrip demo (MkGlobalEvent 2 "s2" (MkEvent 2 2 KindStepCompleted "charge" "" 12)))
    as [(ev&Hev&_&Hp) _].
  - exact reachable_demo.
  - apply (list_elem_of_lookup_2 _ 1). by vm_compute.
  - by vm_compute.
  - exists ev. split; [exact Hev|exact Hp].
Defined.
