(* ===== verification/SagaTailer.v ===== *)
(** * runtime/saga/tailer: the live driver of a saga-journal projection

    Every tick acquires the projection's lock, mints an owner token and drains
    the journal from the checkpoint to the head read at the start, applying each
    event and advancing the fenced checkpoint in one transaction; an event whose
    [Apply] fails for good is recorded as a dead letter and stepped over.

    A [tworld] is the database (checkpoints with owners, dead letters, the read
    model), the saga journal, and what the Tailer keeps itself; two fields are
    the variables [commitEvent] shares with its transaction closure.  What the
    surroundings answer and what other processes do in between is a [tenv], as
    in Projection.v.  Observers and logs are left out. *)

From Stdlib Require Import Ascii String.
From S2P Require Import Prelude GoJson IdUtil JsonText Saga SagaEvent SagaJournal ConsumerBase ProjectionStore GoFlow Projection SagaProjection.

(** ** options.go *)

Record Config := MkTailerConfig { PollInterval : Duration; cfg_LeaseTTL : Duration }.

Definition DefaultConfig : Config := MkTailerConfig (1 * Second) (30 * Second).

Definition Config_Validate (c : Config) : outcome unit :=
  if PollInterval c <=? 0 then Err (invalid "tailer: Config.PollInterval must be positive")
  else if cfg_LeaseTTL c <=? 0 then Err (invalid "tailer: Config.LeaseTTL must be positive")
  else Ok tt.

Definition distlock_MinTTL : Duration := Millisecond.

(** The checks of [NewTailer] after the nil guards. *)
Definition NewTailer (cellID projectionID : string) (cfg : Config) : outcome string :=
  if (cellID ==s "") || (projectionID ==s "")
  then Err (invalid "tailer.NewTailer: cellID and projectionID must be non-empty")
  else
    _ ← Config_Validate cfg;
    if cfg_LeaseTTL cfg <? distlock_MinTTL
    then Err (invalid "tailer.NewTailer: Config.LeaseTTL must be ≥ distlock.MinTTL (it doubles as the distlock TTL)")
    else wrap_err "tailer.NewTailer: readiness probe name" (SagaTailerReadyProbeName cellID projectionID).

Definition tailerLockKey (cellID projectionID : string) : string :=
  ("saga-journal-tailer:" ++ pretty (byte_len cellID) ++ ":" ++ cellID ++ ":"
   ++ pretty (byte_len projectionID) ++ ":" ++ projectionID)%string.

(** ** State *)

Inductive tailerState : Type := tailerStopped | tailerStarting | tailerRunning | tailerStopping.

Record tworld (M : Type) := MkTWorld {
  owners : OwnerStore.store;
  deadLetters : DeadLetters.MemDeadLetterStore;
  read_model : M;
  saga : MemJournal;
  tstate : tailerState;
  lockBackendErrUnixNano : Z;
  lastSuccessUnixNano : Z;
  reachedAdvance : bool;
  applyErr : option goerror;
  ttick : nat;
}.
Arguments MkTWorld {M} _ _ _ _ _ _ _ _ _ _.
Arguments owners {M} _.
Arguments deadLetters {M} _.
Arguments read_model {M} _.
Arguments saga {M} _.
Arguments tstate {M} _.
Arguments lockBackendErrUnixNano {M} _.
Arguments lastSuccessUnixNano {M} _.
Arguments reachedAdvance {M} _.
Arguments applyErr {M} _.
Arguments ttick {M} _.

Record Tailer (M : Type) := MkTailer {
  t_cellID : string;
  t_projectionID : string;
  t_apply : ProjectionEvent → M → option (outcome unit) * M;
  redacted : goerror → string;   (* redaction.RedactError(err).Error() *)
}.
Arguments MkTailer {M} _ _ _ _.
Arguments t_cellID {M} _.
Arguments t_projectionID {M} _.
Arguments t_apply {M} _ _ _.
Arguments redacted {M} _ _.

Record tenv (M : Type) := MkTEnv {
  tweather : nat → option goerror;
  tinterfere : nat → tworld M → tworld M;
}.
Arguments MkTEnv {M} _ _.
Arguments tweather {M} _ _.
Arguments tinterfere {M} _ _ _.

Section tailer.
Context {M : Type} (t : Tailer M) (E : tenv M).
Abbreviation W := (tworld M).
Implicit Type w : W.

Definition put_db (o : OwnerStore.store) (d : DeadLetters.MemDeadLetterStore) (m : M) w : W :=
  MkTWorld o d m (saga w) (tstate w) (lockBackendErrUnixNano w) (lastSuccessUnixNano w)
    (reachedAdvance w) (applyErr w) (ttick w).
Definition put_saga (j : MemJournal) w : W :=
  MkTWorld (owners w) (deadLetters w) (read_model w) j (tstate w) (lockBackendErrUnixNano w)
    (lastSuccessUnixNano w) (reachedAdvance w) (applyErr w) (ttick w).
Definition put_vars (reached : bool) (err : option goerror) w : W :=
  MkTWorld (owners w) (deadLetters w) (read_model w) (saga w) (tstate w) (lockBackendErrUnixNano w)
    (lastSuccessUnixNano w) reached err (ttick w).
Definition put_health (lockErr lastSuccess : Z) w : W :=
  MkTWorld (owners w) (deadLetters w) (read_model w) (saga w) (tstate w) lockErr lastSuccess
    (reachedAdvance w) (applyErr w) (ttick w).
Definition next_tick w : W :=
  MkTWorld (owners w) (deadLetters w) (read_model w) (saga w) (tstate w) (lockBackendErrUnixNano w)
    (lastSuccessUnixNano w) (reachedAdvance w) (applyErr w) (S (ttick w)).

(** ** Calls into the surroundings *)

Definition toutside : go W unit := λ w,
  match tweather E (ttick w) with
  | Some e => (Fail e, next_tick w)
  | None => (Val tt, next_tick w)
  end.

Definition tyield : go W unit := λ w, toutside (tinterfere E (ttick w) w).

Definition tRunInTx (fn : go W unit) : go W unit :=
  tx tyield toutside (λ w1 w2, put_db (owners w1) (deadLetters w1) (read_model w1) w2) fn.

Definition apply_event (evt : ProjectionEvent) : go W unit := λ w,
  match t_apply t evt (read_model w) with
  | (Some (Ok _), m) => (Val tt, put_db (owners w) (deadLetters w) m w)
  | (Some (Err e), m) => (Fail e, put_vars (reachedAdvance w) (Some e) (put_db (owners w) (deadLetters w) m w))
  | (None, m) => (Panic, put_db (owners w) (deadLetters w) m w)
  end.

Definition advance_if_owner (ownerToken : string) (pos : Z) : go W unit := λ w,
  match OwnerStore.AdvanceIfOwner (owners w) (t_cellID t) (t_projectionID t) ownerToken pos with
  | (Ok _, o) => (Val tt, put_db o (deadLetters w) (read_model w) w)
  | (Err e, o) => (Fail e, put_db o (deadLetters w) (read_model w) w)
  end.

Definition record_dead_letter (dl : DeadLetters.DeadLetter) : go W unit :=
  modify (λ w, put_db (owners w) (DeadLetters.Record_ (deadLetters w) dl) (read_model w) w).

Definition thead : go W Z := toutside ≫= λ _, read (λ w, source_Head (saga w)).
Definition tload_offset : go W Z :=
  toutside ≫= λ _, read (λ w, OwnerStore.LoadOffset (owners w) (t_cellID t) (t_projectionID t)).

(** ** tailer.go *)

Definition errcodeOf (err : goerror) : string := default "" (error_code err).

Definition dead_letter (evt : ProjectionEvent) (pos : Z) (err : goerror) : DeadLetters.DeadLetter :=
  DeadLetters.MkDeadLetter (t_cellID t) (t_projectionID t) pos (EventID evt) (Stream evt)
    (errcodeOf err) (redacted t err) (OccurredAt evt).

Definition skipPoisonEvent (ownerToken : string) (evt : ProjectionEvent) (pos : Z) (err : goerror) : go W unit :=
  tRunInTx
    (wrapf ("tailer poison: record dead-letter event_id=" ++ EventID evt ++ " position=" ++ pretty pos)
       (toutside ≫= λ _, record_dead_letter (dead_letter evt pos err)) ≫= λ _,
     toutside ≫= λ _, advance_if_owner ownerToken pos).

(** The closure of [commitEvent]'s transaction. *)
Definition commit_body (ownerToken : string) (evt : ProjectionEvent) (pos : Z) : go W unit :=
  wrapf ("tailer commit: apply event_id=" ++ EventID evt ++ " stream=" ++ Stream evt ++ " position=" ++ pretty pos)
    (apply_event evt) ≫= λ _,
  modify (λ w, put_vars true (applyErr w) w) ≫= λ _,
  toutside ≫= λ _, advance_if_owner ownerToken pos.

Definition after_commit (ownerToken : string) (evt : ProjectionEvent) (pos : Z) (txErr : outcome unit) : go W unit := λ w,
  match txErr with
  | Ok _ => (Val tt, w)
  | Err e =>
      if reachedAdvance w then (Fail e, w)
      else
        match applyErr w with
        | Some ae => if IsPermanent ae then skipPoisonEvent ownerToken evt pos ae w else (Fail e, w)
        | None => (Fail e, w)
        end
  end.

Definition commitEvent (ownerToken : string) (evt : ProjectionEvent) (pos : Z) : go W unit :=
  modify (put_vars false None) ≫= λ _,
  r ← caught (tRunInTx (commit_body ownerToken evt pos));
  after_commit ownerToken evt pos r.

Definition drain_event (ownerToken : string) (head : Z) (evt : ProjectionEvent) : go W unit :=
  pos ← wrapf "tailer drain: cursor position" (lift (source_Position evt));
  if pos >? head then stop else commitEvent ownerToken evt pos.

(** The drain reads a page per unit of fuel; with [head - checkpoint + 1] pages
    it never runs out ([None]). *)
Definition drain_fuel (head checkpoint : Z) : nat := S (Z.to_nat (head - checkpoint)).

(** The switch on [replayErr]. *)
Definition drain_outcome (x : go W (option unit)) : go W (option unit) := λ w,
  match x w with
  | (Stop, w') => (Val (Some tt), w')
  | (Fail e, w') =>
      if errors_Is e OwnerStore.ErrStaleOwner then (Val (Some tt), w')
      else (Fail (Errorf "tailer drain: replay" e), w')
  | r => r
  end.

Definition drain (ownerToken : string) : go W (option unit) :=
  head ← wrapf "tailer drain: head" thead;
  checkpoint ← wrapf "tailer drain: load checkpoint" tload_offset;
  drain_outcome (source_Replay saga tyield toutside (drain_fuel head checkpoint) checkpoint
                   (drain_event ownerToken head)).

Inductive LockAcquireResult : Type := LockContended | LockCtxCanceled | LockBackendError.

Definition ErrDistlockTimeout : string := "ERR_DISTLOCK_TIMEOUT".

Definition classifyLockSkip (err : goerror) : LockAcquireResult :=
  if bool_decide (error_code err = Some ErrDistlockTimeout) then LockContended
  else if errors_Is err context_Canceled || errors_Is err context_DeadlineExceeded then LockCtxCanceled
  else LockBackendError.

Definition recordLockAcquireOutcome (now : Time) (reason : LockAcquireResult) w : W :=
  match reason with
  | LockBackendError => put_health (UnixNano now) (lastSuccessUnixNano w) w
  | _ => put_health 0 (lastSuccessUnixNano w) w
  end.

(** The leader gate and the drain behind it: [acquired] is what the lock service
    answered and [entropy] what the owner token is made of. *)
Definition gated_drain (now : Time) (acquired : outcome unit) (entropy : list Z) : go W (option unit) := λ w,
  match acquired with
  | Err e => (Val (Some tt), recordLockAcquireOutcome now (classifyLockSkip e) w)
  | Ok _ =>
      let w := put_health 0 (lastSuccessUnixNano w) w in
      match newUUID entropy with
      | Err e => (Fail (Errorf "tailer: mint owner token" e), w)
      | Ok ownerToken =>
          (r ← drain ownerToken;
           match r with
           | None => mret None
           | Some _ => modify (λ w, put_health (lockBackendErrUnixNano w) (UnixNano now) w) ≫= λ _, mret (Some tt)
           end) w
      end
  end.

(** One tick. *)
Definition pollOnce (now : Time) (acquired : outcome unit) (entropy : list Z) : go W (option unit) := λ w,
  match tstate w with
  | tailerStopping => (Val (Some tt), w)
  | _ => gated_drain now acquired entropy w
  end.

(** ** probe.go *)

Definition computePending : go W Z :=
  head ← wrapf "tailer: Head" thead;
  cp ← wrapf "tailer: LoadOffset" tload_offset;
  let pending := wrap64 (head - cp) in
  if pending >? 0 then mret pending else mret 0.

Definition unavailable (msg : string) : goerror := Errcode KindUnavailable "ERR_SERVICE_UNAVAILABLE" msg.

Definition checkReady : go W unit := λ w,
  match tstate w with
  | tailerRunning =>
      if negb (lockBackendErrUnixNano w =? 0)
      then (Fail (unavailable "tailer.probe: leader-gate distlock backend unreachable"), w)
      else
        (r ← caught computePending;
         match r with
         | Err _ => fail (unavailable "tailer.probe: journal/checkpoint storage unreachable")
         | Ok _ => mret tt
         end) w
  | _ => (Fail (unavailable "tailer.probe: not ready"), w)
  end.

End tailer.

(** ** What the Tailer promises *)

Section tspec.
Context {M : Type} (t : Tailer M).
Abbreviation W := (tworld M).
Implicit Types (w : W) (base m : M).

Definition committed w : Z := OwnerStore.LoadOffset (owners w) (t_cellID t) (t_projectionID t).

Definition own_letters w : list DeadLetters.DeadLetter :=
  filter (λ dl, DeadLetters.CellID dl = t_cellID t ∧ DeadLetters.ProjectionID dl = t_projectionID t)
    (DeadLetters.records (deadLetters w)).

(** The events one after the other: applied, or left out with a dead letter when
    [Apply] fails for good. *)
Fixpoint fold_skip (gs : list GlobalEvent) m (dls : list DeadLetters.DeadLetter)
    : option (M * list DeadLetters.DeadLetter) :=
  match gs with
  | [] => Some (m, dls)
  | g :: rest =>
      match toCarrier g with
      | Err _ => None
      | Ok evt =>
          match t_apply t evt m with
          | (Some (Ok _), m') => fold_skip rest m' dls
          | (Some (Err e), _) =>
              if IsPermanent e then fold_skip rest m (dls ++ [dead_letter t evt (GlobalSeq g) e]) else None
          | (None, _) => None
          end
      end
  end.

Record journal_good (j : MemJournal) : Prop := {
  jg_inv : journal_inv j;
  jg_log : log_ok j;
  jg_size : Z.of_nat (length (globalLog j)) ≤ MaxInt64;
}.

Definition sgrows (j j' : MemJournal) : Prop :=
  journal_good j → journal_good j' ∧ globalLog j `prefix_of` globalLog j'.

(** The read model and the dead letters are what the events up to the checkpoint
    make of [base], each event once. *)
Record tailed base w : Prop := {
  tl_good : journal_good (saga w);
  tl_low : 0 ≤ committed w;
  tl_high : committed w ≤ HeadSeq (saga w);
  tl_fold : fold_skip (take (Z.to_nat (committed w)) (globalLog (saga w))) base []
            = Some (read_model w, own_letters w);
  tl_seen pos : (t_cellID t, t_projectionID t, pos) ∈ DeadLetters.seen (deadLetters w) → pos ≤ committed w;
}.

(** What others may do during a tick of the leader: the sagas move on. *)
Definition tkeeps w w' : Prop :=
  owners w' = owners w ∧ deadLetters w' = deadLetters w ∧ read_model w' = read_model w ∧
  reachedAdvance w' = reachedAdvance w ∧ applyErr w' = applyErr w ∧ sgrows (saga w) (saga w').

Definition trely (E : tenv M) : Prop := ∀ n w, tkeeps w (tinterfere E n w).

Definition not_stale (e : goerror) : Prop := errors_Is e OwnerStore.ErrStaleOwner = false.

(** Only [AdvanceIfOwner] itself reports a stale owner. *)
Definition no_other_stale (E : tenv M) : Prop :=
  (∀ evt m e m', t_apply t evt m = (Some (Err e), m') → not_stale e) ∧
  (∀ n e, tweather E n = Some e → not_stale e).

(** ** Lemmas *)

Lemma fold_skip_app gs ks m dls :
  fold_skip (gs ++ ks) m dls = fold_skip gs m dls ≫= λ '(m', dls'), fold_skip ks m' dls'.
Proof.
  revert m dls. induction gs as [|g gs IH]; intros m dls; [done|]. cbn.
  destruct (toCarrier g) as [evt|]; [|done].
  destruct (t_apply t evt m) as [[[u|e]|] m']; [apply IH| |done].
  destruct (IsPermanent e); [apply IH|done].
Qed.

Lemma sgrows_refl j : sgrows j j.
Proof. by intros ?. Qed.

Lemma sgrows_trans j1 j2 j3 : sgrows j1 j2 → sgrows j2 j3 → sgrows j1 j3.
Proof.
  intros H1 H2 Hg. destruct (H1 Hg) as [Hg2 Hp]. destruct (H2 Hg2) as [Hg3 Hp'].
  split; [done|by etrans].
Qed.

Lemma sgrows_head j j' : sgrows j j' → journal_good j → HeadSeq j ≤ HeadSeq j'.
Proof.
  intros Hg Hj. destruct (Hg Hj) as [Hj' Hp]. unfold HeadSeq.
  rewrite (ji_seq _ (jg_inv _ Hj)), (ji_seq _ (jg_inv _ Hj')). apply prefix_length in Hp. lia.
Qed.

Lemma tkeeps_trans w1 w2 w3 : tkeeps w1 w2 → tkeeps w2 w3 → tkeeps w1 w3.
Proof.
  intros (?&?&?&?&?&?) (?&?&?&?&?&?). unfold tkeeps. split_and!; [congruence..|by eapply sgrows_trans].
Qed.

(** The database is untouched and the sagas may have moved on. *)
Definition tsame w w' : Prop :=
  owners w' = owners w ∧ deadLetters w' = deadLetters w ∧ read_model w' = read_model w ∧
  sgrows (saga w) (saga w').

Lemma tkeeps_same w w' : tkeeps w w' → tsame w w'.
Proof. by intros (?&?&?&_&_&?). Qed.

Lemma tsame_trans w1 w2 w3 : tsame w1 w2 → tsame w2 w3 → tsame w1 w3.
Proof. intros (?&?&?&?) (?&?&?&?). unfold tsame. split_and!; [congruence..|by eapply sgrows_trans]. Qed.

Lemma tsame_committed w w' : tsame w w' → committed w' = committed w.
Proof. intros (Ho&_). unfold committed. by rewrite Ho. Qed.

Lemma take_prefix {A} n (l k : list A) : l `prefix_of` k → (n ≤ length l)%nat → take n k = take n l.
Proof. intros [r ->] Hn. by rewrite take_app_le. Qed.

Lemma tailed_same base w w' : tsame w w' → tailed base w → tailed base w'.
Proof.
  intros Hs []. pose proof (tsame_committed _ _ Hs) as Hc. destruct Hs as (Ho&Hd&Hm&Hg).
  pose proof (sgrows_head _ _ Hg tl_good0). destruct (Hg tl_good0) as [Hg' Hp].
  constructor; rewrite ?Hc; [done|done|lia| |].
  - rewrite (take_prefix _ _ _ Hp), Hm; [unfold own_letters; by rewrite Hd|].
    unfold HeadSeq in tl_high0. rewrite (ji_seq _ (jg_inv _ tl_good0)) in tl_high0. lia.
  - by rewrite Hd.
Qed.

Section tops.
Context (E : tenv M) (Hrely : trely E) (Hstale : no_other_stale E).

Lemma toutside_inv w r w' :
  toutside E w = (r, w') → w' = next_tick w ∧ (r = Val tt ∨ ∃ e, r = Fail e ∧ not_stale e).
Proof.
  unfold toutside. destruct (tweather E (ttick w)) as [e|] eqn:He; intros [= <- <-]; [|by eauto].
  split; [done|]. right. exists e. split; [done|]. by eapply Hstale.
Qed.

Lemma next_tick_keeps w : tkeeps w (next_tick w).
Proof. unfold tkeeps. split_and!; [done..|apply sgrows_refl]. Qed.

Lemma tyield_inv w r w' :
  tyield E w = (r, w') → tkeeps w w' ∧ (r = Val tt ∨ ∃ e, r = Fail e ∧ not_stale e).
Proof.
  intros [-> ?]%toutside_inv. split; [|done].
  eapply tkeeps_trans; [apply Hrely|apply next_tick_keeps].
Qed.

(** A transaction: committed as a whole, or nothing of the database changed. *)
Lemma tRunInTx_inv fn w r w' :
  (∀ w1 r1 w2, tkeeps w w1 → fn w1 = (r1, w2) →
     saga w2 = saga w1 ∧ r1 ≠ Stop ∧ (∀ e, r1 = Fail e → not_stale e)) →
  tRunInTx E fn w = (r, w') →
  r ≠ Stop ∧ (∀ e, r = Fail e → not_stale e) ∧
  ((r = Val tt ∧ ∃ w1 w2, tkeeps w w1 ∧ fn w1 = (Val tt, w2) ∧ w' = next_tick w2) ∨
   (r ≠ Val tt ∧ tsame w w' ∧
    ((reachedAdvance w' = reachedAdvance w ∧ applyErr w' = applyErr w) ∨
     ∃ w1 r1 w2, tkeeps w w1 ∧ fn w1 = (r1, w2) ∧
       reachedAdvance w' = reachedAdvance w2 ∧ applyErr w' = applyErr w2))).
Proof.
  unfold tRunInTx, tx. intros Hfn. destruct (tyield E w) as [ry w1] eqn:Hy.
  apply tyield_inv in Hy as [Hk [->|(e&->&He)]].
  2:{ intros [= <- <-]. split; [done|]. split; [by intros ? [= <-]|]. right.
      split; [done|]. split; [by apply tkeeps_same|]. left. by destruct Hk as (_&_&_&?&?&_). }
  destruct ((fn ≫= λ _, toutside E) w1) as [rf w2] eqn:Hf.
  apply bind_inv in Hf as (r1&w2'&Hf&Hr). destruct (Hfn _ _ _ Hk Hf) as (Hsg&Hns&Hst).
  assert (Hrb : ∀ w3, saga w3 = saga w1 →
    tsame w (put_db (owners w1) (deadLetters w1) (read_model w1) w3)).
  { intros w3 Hs3. eapply tsame_trans; [by apply tkeeps_same|]. unfold tsame. cbn. rewrite Hs3.
    split_and!; [done..|apply sgrows_refl]. }
  destruct r1 as [[]|e| |]; [|destruct Hr as [-> ->]..]; [|intros [= <- <-]..]; [| |done|].
  - apply toutside_inv in Hr as [-> [->|(e&->&He)]]; intros [= <- <-].
    + split; [done|]. split; [done|]. left. split; [done|]. by exists w1, w2'.
    + split; [done|]. split; [by intros ? [= <-]|]. right. split; [done|]. split; [by apply Hrb|].
      right. by exists w1, (Val tt), w2'.
  - split; [done|]. split; [done|]. right. split; [done|]. split; [by apply Hrb|]. right.
    by exists w1, (Fail e), w2'.
  - split; [done|]. split; [done|]. right. split; [done|]. split; [by apply Hrb|]. right.
    by exists w1, Panic, w2'.
Qed.

Lemma not_stale_wrap p e : not_stale e → not_stale (Errorf p e).
Proof. intros He. unfold not_stale. cbn [errors_Is]. by rewrite He. Qed.

Lemma AdvanceIfOwner_ahead (o : OwnerStore.store) cid pid tok pos :
  tok ≠ "" → OwnerStore.LoadOffset o cid pid < pos →
  OwnerStore.AdvanceIfOwner o cid pid tok pos
  = (Ok tt, <[checkpointKey cid pid := OwnerStore.MkOwner tok pos]> o).
Proof.
  intros Ht Hlt. unfold OwnerStore.AdvanceIfOwner, str_eqb. rewrite bool_decide_false by done.
  unfold OwnerStore.LoadOffset in Hlt. rewrite Z.gtb_ltb.
  destruct (OwnerStore.offset _ <? pos) eqn:?; bools; [by rewrite orb_true_r|lia].
Qed.

Lemma LoadOffset_insert (o : OwnerStore.store) cid pid e :
  OwnerStore.LoadOffset (<[checkpointKey cid pid := e]> o) cid pid = OwnerStore.offset e.
Proof.
  exact (f_equal (OwnerStore.offset ∘ default OwnerStore.zero)
           (lookup_insert_eq (o : gmap string OwnerStore.ownerEntry) _ e)).
Qed.

Section one_event.
Context (tok : string) (evt : ProjectionEvent) (pos : Z) (Htok : tok ≠ "").

Lemma advance_inv w r w' :
  committed w < pos → (toutside E ≫= λ _, advance_if_owner t tok pos) w = (r, w') →
  saga w' = saga w ∧ reachedAdvance w' = reachedAdvance w ∧ applyErr w' = applyErr w ∧
  ((r = Val tt ∧ committed w' = pos ∧ read_model w' = read_model w ∧ deadLetters w' = deadLetters w) ∨
   ∃ e, r = Fail e ∧ not_stale e).
Proof.
  intros Hlt (ro&w1&[-> Hro]%toutside_inv&Hk)%bind_inv.
  destruct Hro as [->|(e&->&He)]; [|destruct Hk as [-> ->]; split_and!; [done..|right; by exists e]].
  unfold advance_if_owner in Hk. cbn [owners next_tick] in Hk.
  rewrite AdvanceIfOwner_ahead in Hk by done. injection Hk as <- <-. split_and!; [done..|].
  left. split_and!; try done. unfold committed. cbn. by rewrite LoadOffset_insert.
Qed.

Lemma commit_body_inv w r w' :
  committed w < pos → reachedAdvance w = false → applyErr w = None →
  commit_body t E tok evt pos w = (r, w') →
  saga w' = saga w ∧ r ≠ Stop ∧ (∀ e, r = Fail e → not_stale e) ∧
  match t_apply t evt (read_model w) with
  | (Some (Ok _), m) =>
      reachedAdvance w' = true ∧
      (r = Val tt → committed w' = pos ∧ read_model w' = m ∧ deadLetters w' = deadLetters w)
  | (Some (Err e), _) => r ≠ Val tt ∧ reachedAdvance w' = false ∧ applyErr w' = Some e
  | (None, _) => r = Panic ∧ reachedAdvance w' = false ∧ applyErr w' = None
  end.
Proof.
  intros Hlt Hv1 Hv2 (ra&w1&(ra'&Ha&Hra)%wrapf_inv&Hk)%bind_inv. unfold apply_event in Ha.
  destruct (t_apply t evt (read_model w)) as [[[[]|e]|] m] eqn:Happ; injection Ha as <- <-; subst ra.
  - apply bind_inv in Hk as (r1&w1'&[= <- <-]&Hk). apply advance_inv in Hk as (Hsg&Hr1&_&Hk); [|done].
    cbn in Hsg, Hr1, Hk. split; [done|]. destruct Hk as [(->&?&?&?)|(e&->&He)].
    + done.
    + split; [done|]. split; [by intros ? [= <-]|]. done.
  - destruct Hk as [-> ->]. split; [done|]. split; [done|]. split; [|done].
    intros ? [= <-]. apply not_stale_wrap. by eapply (proj1 Hstale).
  - destruct Hk as [-> ->]. done.
Qed.

Lemma skip_inv ae w r w' :
  committed w < pos → skipPoisonEvent t E tok evt pos ae w = (r, w') →
  r ≠ Stop ∧ (∀ e, r = Fail e → not_stale e) ∧
  ((r = Val tt ∧ sgrows (saga w) (saga w') ∧ committed w' = pos ∧ read_model w' = read_model w ∧
    deadLetters w' = DeadLetters.Record_ (deadLetters w) (dead_letter t evt pos ae)) ∨
   (r ≠ Val tt ∧ tsame w w')).
Proof.
  intros Hlt Hr. unfold skipPoisonEvent in Hr.
  set (fn := _ ≫= _) in Hr.
  assert (Hfn : ∀ w1 r1 w2, tkeeps w w1 → fn w1 = (r1, w2) →
    saga w2 = saga w1 ∧ r1 ≠ Stop ∧ (∀ e, r1 = Fail e → not_stale e) ∧
    (r1 = Val tt → committed w2 = pos ∧ read_model w2 = read_model w1 ∧
       deadLetters w2 = DeadLetters.Record_ (deadLetters w1) (dead_letter t evt pos ae))).
  { intros w1 r1 w2 Hk (rd&w3&(rd'&Hd&Hrd)%wrapf_inv&Hk2)%bind_inv.
    apply bind_inv in Hd as (ro&w4&[-> Hro]%toutside_inv&Hd).
    destruct Hro as [->|(e&->&He)].
    2:{ destruct Hd as [-> ->]. subst rd. destruct Hk2 as [-> ->]. split_and!; [done..| |done].
        intros ? [= <-]. by apply not_stale_wrap. }
    injection Hd as <- <-. subst rd. apply advance_inv in Hk2 as (Hsg&_&_&Hk2).
    2:{ unfold committed. cbn. rewrite (proj1 Hk). exact Hlt. }
    split; [done|]. destruct Hk2 as [(->&?&?&?)|(e&->&He)]; [done|].
    split; [done|]. split; [by intros ? [= <-]|done]. }
  apply tRunInTx_inv in Hr as (Hns&Hst&Hcase).
  2:{ intros w1 r1 w2 Hk Hf. by destruct (Hfn _ _ _ Hk Hf) as (?&?&?&_). }
  split; [done|]. split; [done|].
  destruct Hcase as [(->&w1&w2&Hk&Hf&->)|(Hr&Hs&_)]; [left|by right].
  destruct (Hfn _ _ _ Hk Hf) as (Hsg&_&_&Hv). destruct (Hv eq_refl) as (?&?&?).
  destruct Hk as (_&Hd&Hm&_&_&Hg). cbn. rewrite Hsg.
  split_and!; [done..|congruence|congruence].
Qed.

(** One event, with everything that can go wrong: handled (applied or
    dead-lettered) with the checkpoint on it, or nothing happened. *)
Lemma commitEvent_inv w r w' :
  committed w < pos → commitEvent t E tok evt pos w = (r, w') →
  r ≠ Stop ∧ (∀ e, r = Fail e → not_stale e) ∧
  ((r = Val tt ∧ sgrows (saga w) (saga w') ∧ committed w' = pos ∧
    ((∃ u, t_apply t evt (read_model w) = (Some (Ok u), read_model w') ∧ deadLetters w' = deadLetters w) ∨
     (∃ ae m, t_apply t evt (read_model w) = (Some (Err ae), m) ∧ IsPermanent ae = true ∧
        read_model w' = read_model w ∧
        deadLetters w' = DeadLetters.Record_ (deadLetters w) (dead_letter t evt pos ae)))) ∨
   (r ≠ Val tt ∧ tsame w w')).
Proof.
  intros Hlt (r0&w0&[= <- <-]&Hk)%bind_inv. set (w0 := put_vars false None w) in *.
  apply bind_inv in Hk as (rc&w1&(rt&Ht&Hrc)%caught_inv&Hk).
  assert (Hbody : ∀ w2 r2 w3, tkeeps w0 w2 → commit_body t E tok evt pos w2 = (r2, w3) → _)
    by (intros w2 r2 w3 (Ho&_&_&Hv1&Hv2&_); apply commit_body_inv; [|done|done]; unfold committed; by rewrite Ho).
  pose proof Ht as Ht'. apply tRunInTx_inv in Ht' as (Hns&Hst&Hcase).
  2:{ intros w2 r2 w3 Hk2 Hf. destruct (Hbody _ _ _ Hk2 Hf) as (?&?&?&_). done. }
  destruct Hcase as [(->&w2&w3&Hk2&Hf&->)|(Hr&Hs&Hvars)].
  { subst rc. injection Hk as <- <-. split; [done|]. split; [done|]. left.
    destruct (Hbody _ _ _ Hk2 Hf) as (Hsg&_&_&Hb). destruct Hk2 as (_&Hd&Hm&_&_&Hg). rewrite Hm in Hb.
    cbn in Hb, Hd, Hg. destruct (t_apply t evt (read_model w)) as [[[u|e]|] m]; [|by destruct Hb..].
    destruct Hb as [_ Hb]. destruct (Hb eq_refl) as (Hc&Hm'&Hd'). cbn. rewrite Hsg, Hd', Hd.
    split_and!; [done..|left]. exists u. rewrite Hm'. done. }
  assert (Hs' : tsame w w1) by (destruct Hs as (?&?&?&?); done).
  destruct rt as [[]|e| |]; subst rc; [done| |done|].
  2:{ destruct Hk as [-> ->]. split; [done|]. split; [done|]. by right. }
  unfold after_commit in Hk. destruct (reachedAdvance w1) eqn:Hv1.
  { injection Hk as <- <-. split; [done|]. split; [done|]. by right. }
  destruct (applyErr w1) as [ae|] eqn:Hv2.
  2:{ injection Hk as <- <-. split; [done|]. split; [done|]. by right. }
  destruct (IsPermanent ae) eqn:Hperm.
  2:{ injection Hk as <- <-. split; [done|]. split; [done|]. by right. }
  apply skip_inv in Hk as (Hns2&Hst2&Hcase2); [|by rewrite (tsame_committed _ _ Hs')].
  split; [done|]. split; [done|].
  destruct Hcase2 as [(->&Hg2&Hc2&Hm2&Hd2)|[Hr2 Hs2]]; [left|right; split; [done|by eapply tsame_trans]].
  destruct Hs' as (_&Hd1&Hm1&Hg1).
  split; [done|]. split; [by eapply sgrows_trans|]. split; [done|]. right.
  destruct Hvars as [[_ Hv2']|(w2&r2&w3&Hk2&Hf&Hv1'&Hv2')]; [by rewrite Hv2' in Hv2|].
  destruct (Hbody _ _ _ Hk2 Hf) as (_&_&_&Hb). destruct Hk2 as (_&_&Hm&_&_&_). rewrite Hm in Hb. cbn in Hb.
  destruct (t_apply t evt (read_model w)) as [[[u|e']|] m].
  - destruct Hb as [Hb _]. congruence.
  - destruct Hb as (_&_&Hb). assert (ae = e') as -> by congruence.
    exists e', m. split_and!; try done; congruence.
  - destruct Hb as (_&_&Hb). congruence.
Qed.
End one_event.

Lemma record_fresh w evt pos ae :
  (∀ p, (t_cellID t, t_projectionID t, p) ∈ DeadLetters.seen (deadLetters w) → p < pos) →
  let d := DeadLetters.Record_ (deadLetters w) (dead_letter t evt pos ae) in
  (filter (λ dl, DeadLetters.CellID dl = t_cellID t ∧ DeadLetters.ProjectionID dl = t_projectionID t)
     (DeadLetters.records d) = own_letters w ++ [dead_letter t evt pos ae]) ∧
  ∀ p, (t_cellID t, t_projectionID t, p) ∈ DeadLetters.seen d → p ≤ pos.
Proof.
  intros Hseen. unfold DeadLetters.Record_. rewrite decide_False.
  2:{ intros Hin. apply Hseen in Hin. cbn in Hin. lia. }
  cbn [DeadLetters.records DeadLetters.seen]. split.
  - rewrite filter_snoc, decide_True by done. done.
  - intros p [Hp|Hp]%elem_of_union; [|apply Hseen in Hp; lia].
    apply elem_of_singleton in Hp. cbn in Hp. by injection Hp as ->.
Qed.

Lemma good_carrier j i g :
  journal_good j → globalLog j !! i = Some g →
  GlobalSeq g = Z.of_nat i + 1 ∧
  ∃ raw, toCarrier g = Ok (sagaProjectionEvent (GlobalSeq g) (InstanceID g) raw (CreatedAt (ge_Event g))).
Proof.
  intros [Hinv [_ Hlog] _] Hg. split; [by apply (ji_dense _ Hinv) in Hg as [? _]|].
  apply toCarrier_ok. eapply Forall_lookup_1 in Hlog; [|exact Hg]. apply Hlog.
Qed.

(** The step of the invariant: the event after the checkpoint. *)
Lemma tailed_commit base tok w g evt r w' :
  tok ≠ "" → tailed base w → globalLog (saga w) !! Z.to_nat (committed w) = Some g → toCarrier g = Ok evt →
  commitEvent t E tok evt (GlobalSeq g) w = (r, w') →
  tailed base w' ∧ sgrows (saga w) (saga w') ∧ r ≠ Stop ∧ (∀ e, r = Fail e → not_stale e) ∧
  (r = Val tt → committed w' = committed w + 1) ∧ (r ≠ Val tt → committed w' = committed w).
Proof.
  intros Htok Hw Hg Hc Hr. pose proof Hw as [Hgood Hlow Hhigh Hfold Hseen].
  assert (Hpos : GlobalSeq g = committed w + 1).
  { apply (ji_dense _ (jg_inv _ Hgood)) in Hg as [-> _]. lia. }
  apply commitEvent_inv in Hr as (Hns&Hst&Hcase); [|done|lia].
  destruct Hcase as [(->&Hgr&Hcm&Hcase)|[Hr Hs]].
  2:{ split; [by eapply tailed_same|]. split; [by destruct Hs as (_&_&_&?)|]. split_and!; [done..|].
      intros _. by apply tsame_committed. }
  split; [|split_and!; [done|done|done|intros _; lia|done]].
  destruct (Hgr Hgood) as [Hgood' Hp]. pose proof (lookup_lt_Some _ _ _ Hg) as Hlt.
  assert (Htake : take (Z.to_nat (committed w')) (globalLog (saga w'))
                  = take (Z.to_nat (committed w)) (globalLog (saga w)) ++ [g]).
  { replace (Z.to_nat (committed w')) with (S (Z.to_nat (committed w))) by lia.
    rewrite (take_prefix _ _ _ Hp) by lia. by apply take_S_r. }
  assert (Hh : committed w' ≤ HeadSeq (saga w')).
  { unfold HeadSeq. rewrite (ji_seq _ (jg_inv _ Hgood')). apply prefix_length in Hp. lia. }
  destruct Hcase as [(u&Ha&Hd)|(ae&m&Ha&Hperm&Hm&Hd)].
  - constructor; [done|lia|done| |].
    + rewrite Htake, fold_skip_app, Hfold. cbn. rewrite Hc, Ha. unfold own_letters. by rewrite Hd.
    + rewrite Hd. intros p Hin. apply Hseen in Hin. lia.
  - destruct (record_fresh w evt (GlobalSeq g) ae) as [Hrec Hseen']; [intros p Hin; apply Hseen in Hin; lia|].
    constructor; [done|lia|done| |].
    + rewrite Htake, fold_skip_app, Hfold. cbn. rewrite Hc, Ha, Hperm, Hm.
      unfold own_letters at 2. by rewrite Hd, Hrec.
    + rewrite Hd. intros p Hin. apply Hseen' in Hin. lia.
Qed.

Section tdrain.
Context (base : M) (tok : string) (head : Z) (Htok : tok ≠ "").

Definition drained (r : flow unit) w w' : Prop :=
  tailed base w' ∧ sgrows (saga w) (saga w') ∧ committed w ≤ committed w' ∧
  (∀ e, r = Fail e → not_stale e) ∧ (r = Stop → head ≤ committed w').

Lemma drain_event_inv w g evt r w' :
  tailed base w → globalLog (saga w) !! Z.to_nat (committed w) = Some g → toCarrier g = Ok evt →
  drain_event t E tok head evt w = (r, w') →
  drained r w w' ∧ (r = Val tt → committed w' = committed w + 1 ∧ committed w < head).
Proof.
  intros Hw Hg Hc Hr.
  destruct (good_carrier _ _ _ (tl_good _ _ Hw) Hg) as (Hpos&raw&Hc'). rewrite Hc in Hc'. injection Hc' as ->.
  apply bind_inv in Hr as (rp&w1&(rp'&Hp&Hrp)%wrapf_inv&Hk). unfold lift in Hp. cbn in Hp.
  pose proof (tl_low _ _ Hw).
  destruct (GlobalSeq g <=? 0) eqn:?; bools; [lia|]. injection Hp as <- <-. subst rp.
  rewrite Z.gtb_ltb in Hk. destruct (head <? GlobalSeq g) eqn:Hh; bools.
  { injection Hk as <- <-. split; [|done]. split_and!; [done|apply sgrows_refl|lia|done|intros _; lia]. }
  eapply tailed_commit in Hk as (Hw'&Hgr&Hns&Hst&Hv&Hf); [|done|done|done|done].
  split; [split_and!; [done|done| |done|done]|intros Hr; split; [by apply Hv|lia]].
  destruct (decide (r = Val tt)) as [Hr|Hr]; [rewrite Hv by done; lia|rewrite Hf by done; lia].
Qed.

(** A page that starts right after the checkpoint. *)
Lemma replay_batch_inv batch w r w' :
  tailed base w → (∀ i g, batch !! i = Some g → globalLog (saga w) !! (Z.to_nat (committed w) + i)%nat = Some g) →
  replay_batch (drain_event t E tok head) (committed w) batch w = (r, w') →
  drained (match r with Val _ => Val tt | Fail e => Fail e | Stop => Stop | Panic => Panic end) w w' ∧
  ∀ cur, r = Val cur → cur = committed w' ∧ committed w' = committed w + Z.of_nat (length batch) ∧
    (batch ≠ [] → committed w' ≤ head).
Proof.
  revert w. induction batch as [|g rest IH]; intros w Hw Hb.
  { intros [= <- <-]. split; [split_and!; [done|apply sgrows_refl|lia|done|done]|].
    intros cur [= <-]. cbn. split_and!; [done|lia|done]. }
  pose proof (Hb 0%nat g eq_refl) as Hg. rewrite Nat.add_0_r in Hg.
  destruct (good_carrier _ _ _ (tl_good _ _ Hw) Hg) as (Hpos&raw&Hc). pose proof (tl_low _ _ Hw) as Hlow.
  intros (re&w1&He&Hk)%bind_inv. unfold lift in He. rewrite Hc in He. injection He as <- <-.
  apply bind_inv in Hk as (rd&w2&Hd&Hk).
  destruct (drain_event_inv _ _ _ _ _ Hw Hg Hc Hd) as [(Hw2&Hg2&Hle2&Hst2&Hsp2) Hv2].
  destruct rd as [[]|e| |].
  2-4: destruct Hk as [-> ->]; (split; [by split_and!|done]).
  destruct (Hv2 eq_refl) as [Hcm Hlt].
  assert (Hseq : GlobalSeq g = committed w2) by lia. rewrite Hseq in Hk. destruct (Hg2 (tl_good _ _ Hw)) as [_ Hpre].
  apply IH in Hk as [(Hw'&Hg'&Hle'&Hst'&Hsp') Hv']; [|done|].
  2:{ intros i g' Hi. specialize (Hb (S i) g' Hi).
      replace (Z.to_nat (committed w2) + i)%nat with (Z.to_nat (committed w) + S i)%nat by lia.
      by eapply prefix_lookup_Some. }
  split; [split_and!; [done|by eapply sgrows_trans|lia|done|done]|].
  intros cur Hcur. destruct (Hv' _ Hcur) as (->&Hlen&Hhd). split; [done|]. cbn. split; [lia|].
  intros _. destruct rest; [cbn in Hlen; lia|by apply Hhd].
Qed.

Lemma page_at_committed w :
  tailed base w →
  page_at saga (committed w) w =
    (Val (take (Z.to_nat batchSize) (drop (Z.to_nat (committed w)) (globalLog (saga w)))), w).
Proof.
  intros [[Hinv _ Hsize] Hlow Hhigh _ _]. unfold HeadSeq in Hhigh. rewrite (ji_seq _ Hinv) in Hhigh.
  unfold page_at. rewrite LoadSince_total; [done|done|done| |done|done].
  unfold int64_range, MinInt64. lia.
Qed.

Lemma load_since_inv w r w' :
  tailed base w → load_since saga (toutside E) (committed w) w = (r, w') →
  w' = next_tick w ∧
  (r = Val (take (Z.to_nat batchSize) (drop (Z.to_nat (committed w)) (globalLog (saga w)))) ∨
   ∃ e, r = Fail e ∧ not_stale e).
Proof.
  intros Hw (ro&w1&[-> Hro]%toutside_inv&Hk)%bind_inv.
  destruct Hro as [->|(e&->&He)]; [|destruct Hk as [-> ->]; split; [done|right; by exists e]].
  apply (tailed_same _ _ _ (tkeeps_same _ _ (next_tick_keeps w))) in Hw.
  rewrite (page_at_committed (next_tick w) Hw : page_at saga (committed w) (next_tick w) = _) in Hk.
  injection Hk as <- <-. split; [done|by left].
Qed.

(** The paged replay: it reaches the head, or fails part way; it does not run out
    of fuel. *)
Lemma source_Replay_inv fuel w r w' :
  tailed base w → head ≤ HeadSeq (saga w) → (Z.to_nat (head - committed w) < fuel)%nat →
  source_Replay saga (tyield E) (toutside E) fuel (committed w) (drain_event t E tok head) w = (r, w') →
  tailed base w' ∧ sgrows (saga w) (saga w') ∧ committed w ≤ committed w' ∧
  match r with
  | Val (Some _) | Stop => head ≤ committed w'
  | Val None => False
  | Fail e => not_stale e
  | Panic => True
  end.
Proof.
  revert w. induction fuel as [|fuel IH]; intros w Hw Hhd Hfuel; [lia|].
  intros (ry&w1&Hy&Hk)%bind_inv. apply tyield_inv in Hy as [Hk1%tkeeps_same Hry].
  assert (Hw1 := tailed_same _ _ _ Hk1 Hw). pose proof (tsame_committed _ _ Hk1) as Hc1.
  destruct Hk1 as (_&_&_&Hg1).
  destruct Hry as [->|(e&->&He)]; [|destruct Hk as [-> ->]; split_and!; [done|done|lia|done]].
  apply bind_inv in Hk as (rb&w2&(rb'&Hb&Hrb)%wrapf_inv&Hk). rewrite <- Hc1 in Hb, Hk.
  apply load_since_inv in Hb as [-> Hrb']; [|done].
  assert (Hs2 := tkeeps_same _ _ (next_tick_keeps w1)). assert (Hw2 := tailed_same _ _ _ Hs2 Hw1).
  destruct Hrb' as [->|(e&->&He)]; subst rb.
  2:{ destruct Hk as [-> ->]. split_and!; [done|done|unfold committed in *; cbn; lia|by apply not_stale_wrap]. }
  set (batch := take _ _) in Hk. apply bind_inv in Hk as (rc&w3&Hc&Hk).
  assert (Hbatch : ∀ i g, batch !! i = Some g → globalLog (saga w1) !! (Z.to_nat (committed w1) + i)%nat = Some g).
  { intros i g [Hi _]%lookup_take_Some. by rewrite lookup_drop in Hi. }
  apply (replay_batch_inv batch (next_tick w1)) in Hc as [(Hw3&Hg3&Hle3&Hst3&Hsp3) Hv3]; [|done|done].
  change (committed (next_tick w1)) with (committed w1) in *. cbn [saga next_tick] in Hg3.
  assert (Hg03 := sgrows_trans _ _ _ Hg1 Hg3).
  destruct rc as [cur|e| |].
  2:{ destruct Hk as [-> ->]. split_and!; [done|done|lia|by apply Hst3]. }
  2:{ destruct Hk as [-> ->]. split_and!; [done|done|lia|by apply Hsp3]. }
  2:{ destruct Hk as [-> ->]. split_and!; [done|done|lia|done]. }
  destruct (Hv3 cur eq_refl) as (->&Hlen&Hmax). pose proof (tl_low _ _ Hw1) as Hlow.
  pose proof (sgrows_head _ _ Hg1 (tl_good _ _ Hw)) as Hhd1.
  assert (Hsz : HeadSeq (saga w1) = Z.of_nat (length (globalLog (saga w1)))) by apply Hw1.
  destruct (Z.of_nat (length batch) <? batchSize) eqn:Hshort; bools.
  - injection Hk as <- <-. split_and!; [done|done|lia|]. revert Hshort Hlen. unfold batch.
    rewrite length_take, length_drop. pose proof (tl_high _ _ Hw1). unfold batchSize. lia.
  - assert (batch ≠ []) as Hne by (intros Hb; rewrite Hb in Hshort; cbn in Hshort; unfold batchSize in Hshort; lia).
    specialize (Hmax Hne). unfold batchSize in Hshort.
    apply IH in Hk as (Hw'&Hg'&Hle'&Hr'); [|done|pose proof (sgrows_head _ _ Hg03 (tl_good _ _ Hw)); lia|lia].
    split_and!; [done|by eapply sgrows_trans|lia|done].
Qed.
End tdrain.

Lemma drain_inv base tok w r w' :
  tok ≠ "" → tailed base w → drain t E tok w = (r, w') →
  tailed base w' ∧ sgrows (saga w) (saga w') ∧ committed w ≤ committed w' ∧
  match r with
  | Val (Some _) => HeadSeq (saga w) ≤ committed w'
  | Val None | Stop => False
  | _ => True
  end.
Proof.
  intros Htok Hw (rh&w1&(rh'&Hh&Hrh)%wrapf_inv&Hk)%bind_inv.
  apply bind_inv in Hh as (ro&w1'&[-> Hro]%toutside_inv&Hh).
  assert (Hs1 := tkeeps_same _ _ (next_tick_keeps w)). assert (Hw1 := tailed_same _ _ _ Hs1 Hw).
  destruct Hro as [->|(e&->&He)].
  2:{ destruct Hh as [-> ->]. subst rh. destruct Hk as [-> ->]. split_and!; [done|apply sgrows_refl|done|done]. }
  injection Hh as <- <-. subst rh. cbn [saga next_tick] in Hk.
  apply bind_inv in Hk as (rl&w2&(rl'&Hl&Hrl)%wrapf_inv&Hk).
  apply bind_inv in Hl as (ro&w2'&[-> Hro]%toutside_inv&Hl).
  assert (Hs2 := tkeeps_same _ _ (next_tick_keeps (next_tick w))). assert (Hw2 := tailed_same _ _ _ Hs2 Hw1).
  destruct Hro as [->|(e&->&He)].
  2:{ destruct Hl as [-> ->]. subst rl. destruct Hk as [-> ->]. split_and!; [done|apply sgrows_refl|done|done]. }
  injection Hl as <- <-. subst rl. set (w2 := next_tick (next_tick w)) in *.
  unfold drain_outcome in Hk.
  destruct (source_Replay _ _ _ _ _ _ w2) as [rr w3] eqn:Hr.
  change (OwnerStore.LoadOffset (owners w) (t_cellID t) (t_projectionID t)) with (committed w2) in Hr.
  apply (source_Replay_inv base) in Hr as (Hw3&Hg3&Hle3&Hr3); [|done|done|done|unfold drain_fuel; lia].
  destruct rr as [[[]|]|e| |]; try done; try (injection Hk as <- <-; by split_and!).
  destruct (errors_Is e OwnerStore.ErrStaleOwner) eqn:He; [unfold not_stale in Hr3; congruence|].
  injection Hk as <- <-. by split_and!.
Qed.

Lemma gated_drain_inv base now acquired entropy w r w' :
  tailed base w → gated_drain t E now acquired entropy w = (r, w') →
  tailed base w' ∧ sgrows (saga w) (saga w') ∧ r ≠ Val None ∧ r ≠ Stop ∧
  (r = Val (Some tt) → acquired = Ok tt → HeadSeq (saga w) ≤ committed w').
Proof.
  intros Hw. unfold gated_drain.
  assert (Hput : ∀ a b w1, tailed base w1 → tailed base (put_health a b w1)).
  { intros a b w1. apply tailed_same. unfold tsame. split_and!; [done..|apply sgrows_refl]. }
  destruct acquired as [[]|e].
  2:{ intros [= <- <-]. unfold recordLockAcquireOutcome.
      destruct (classifyLockSkip e); split_and!; try done; try apply Hput; (done || apply sgrows_refl). }
  destruct (newUUID entropy) as [tok|e] eqn:Htok.
  2:{ intros [= <- <-]. split_and!; [by apply Hput|apply sgrows_refl|done..]. }
  apply newUUID_nonempty in Htok. intros (rd&w2&Hd&Hk)%bind_inv.
  apply (drain_inv base) in Hd as (Hw2&Hg2&_&Hr2); [|done|by apply Hput]. cbn [saga put_health] in Hr2, Hg2.
  destruct rd as [[[]|]|e| |]; try done; [|destruct Hk as [-> ->]; by split_and!..].
  injection Hk as <- <-. by split_and!; [apply Hput|..].
Qed.


(** *** Progress: nothing fails outside and [Apply] either succeeds or fails for good *)

Section calm.
Context (base : M) (Hcalm : ∀ n, tweather E n = None).
Context (Happly : ∀ evt m, ∃ m', t_apply t evt m = (Some (Ok tt), m') ∨
                   ∃ e, t_apply t evt m = (Some (Err e), m') ∧ IsPermanent e = true).

Lemma toutside_calm w : toutside E w = (Val tt, next_tick w).
Proof. unfold toutside. by rewrite Hcalm. Qed.

Lemma tRunInTx_calm fn w :
  ∃ w1, tkeeps w w1 ∧
  tRunInTx E fn w = match fn w1 with
                    | (Val _, w2) => (Val tt, next_tick w2)
                    | (r, w2) => (r, put_db (owners w1) (deadLetters w1) (read_model w1) w2)
                    end.
Proof.
  exists (next_tick (tinterfere E (ttick w) w)). split.
  { eapply tkeeps_trans; [apply Hrely|apply next_tick_keeps]. }
  unfold tRunInTx, tx, tyield. rewrite toutside_calm. unfold mbind, go_bind.
  destruct (fn _) as [[[]|e| |] w2]; [|done..]. by rewrite toutside_calm.
Qed.

Lemma advance_calm tok pos w :
  tok ≠ "" → committed w < pos →
  ∃ w', (toutside E ≫= λ _, advance_if_owner t tok pos) w = (Val tt, w').
Proof.
  intros Htok Hlt. unfold mbind, go_bind. rewrite toutside_calm. unfold advance_if_owner.
  cbn [owners next_tick]. rewrite AdvanceIfOwner_ahead by done. by eexists.
Qed.

Lemma skip_calm tok evt pos ae w :
  tok ≠ "" → committed w < pos → (skipPoisonEvent t E tok evt pos ae w).1 = Val tt.
Proof.
  intros Htok Hlt. unfold skipPoisonEvent. set (fn := _ ≫= _).
  destruct (tRunInTx_calm fn w) as (w1&Hk&->). unfold fn.
  erewrite bind_Val by (apply wrapf_Val; by erewrite bind_Val by apply toutside_calm).
  edestruct (advance_calm tok pos) as [w' Hw']; [done| |by rewrite Hw'].
  unfold committed. cbn. rewrite (proj1 Hk). exact Hlt.
Qed.

Lemma commitEvent_calm tok evt pos w :
  tok ≠ "" → committed w < pos → (commitEvent t E tok evt pos w).1 = Val tt.
Proof.
  intros Htok Hlt. unfold commitEvent. erewrite bind_Val by done.
  set (w0 := put_vars false None w). unfold mbind, go_bind, caught.
  destruct (tRunInTx_calm (commit_body t E tok evt pos) w0) as (w1&Hk&->).
  destruct Hk as (Ho&Hd&Hm&Hv1&Hv2&Hg).
  destruct (commit_body t E tok evt pos w1) as [rb w2] eqn:Hb. pose proof Hb as Hb'.
  assert (Hlt1 : committed w1 < pos) by (unfold committed; rewrite Ho; exact Hlt).
  destruct (Happly evt (read_model w1)) as [m' [Ha|(e&Ha&Hperm)]].
  - unfold commit_body in Hb.
    erewrite bind_Val in Hb by (apply wrapf_Val; unfold apply_event; by rewrite Ha).
    erewrite bind_Val in Hb by done.
    edestruct (advance_calm tok pos) as [w3 Hw3]; [done| |rewrite Hw3 in Hb]; [exact Hlt1|].
    by injection Hb as <- <-.
  - apply commit_body_inv in Hb' as (Hsg&Hns&_&Hcase); [|done|done|done|done].
    rewrite Ha in Hcase. destruct Hcase as (Hne&Hr&Hae).
    assert (Hfail : ∃ e', rb = Fail e').
    { unfold commit_body, wrapf, apply_event in Hb. unfold mbind at 1, go_bind at 1 in Hb. rewrite Ha in Hb.
      injection Hb as <- _. by eexists. }
    destruct Hfail as [e' ->]. unfold after_commit. cbn [reachedAdvance applyErr put_db]. rewrite Hr, Hae, Hperm.
    by apply skip_calm.
Qed.

Section calm_drain.
Context (tok : string) (head : Z) (Htok : tok ≠ "").

Lemma drain_event_calm w g evt :
  tailed base w → globalLog (saga w) !! Z.to_nat (committed w) = Some g → toCarrier g = Ok evt →
  (drain_event t E tok head evt w).1 = Val tt ∨ (drain_event t E tok head evt w).1 = Stop.
Proof.
  intros Hw Hg Hc. destruct (good_carrier _ _ _ (tl_good _ _ Hw) Hg) as (Hpos&raw&Hc').
  rewrite Hc in Hc'. injection Hc' as ->. pose proof (tl_low _ _ Hw).
  unfold drain_event, wrapf, lift, mbind, go_bind. cbn [source_Position].
  destruct (GlobalSeq g <=? 0) eqn:?; bools; [lia|]. rewrite Z.gtb_ltb.
  destruct (head <? GlobalSeq g); [by right|left]. apply commitEvent_calm; [done|lia].
Qed.

Lemma replay_batch_calm batch w :
  tailed base w → (∀ i g, batch !! i = Some g → globalLog (saga w) !! (Z.to_nat (committed w) + i)%nat = Some g) →
  (∃ cur, (replay_batch (drain_event t E tok head) (committed w) batch w).1 = Val cur) ∨
  (replay_batch (drain_event t E tok head) (committed w) batch w).1 = Stop.
Proof.
  revert w. induction batch as [|g rest IH]; intros w Hw Hb; [left; by eexists|].
  pose proof (Hb 0%nat g eq_refl) as Hg. rewrite Nat.add_0_r in Hg.
  destruct (good_carrier _ _ _ (tl_good _ _ Hw) Hg) as (Hpos&raw&Hc). pose proof (tl_low _ _ Hw) as Hlow.
  cbn [replay_batch]. erewrite bind_Val by (unfold lift; by rewrite Hc). unfold mbind, go_bind.
  destruct (drain_event t E tok head _ w) as [rd w1] eqn:Hd.
  destruct (drain_event_calm w g _ Hw Hg Hc) as [Hr|Hr]; rewrite Hd in Hr; cbn in Hr; subst rd; [|by right].
  destruct (drain_event_inv base tok head Htok _ _ _ _ _ Hw Hg Hc Hd) as [(Hw1&Hg1&_) Hv].
  destruct (Hv eq_refl) as [Hcm _]. assert (Hseq : GlobalSeq g = committed w1) by lia. rewrite Hseq.
  apply IH; [done|]. intros i g' Hi. specialize (Hb (S i) g' Hi).
  replace (Z.to_nat (committed w1) + i)%nat with (Z.to_nat (committed w) + S i)%nat by lia.
  destruct (Hg1 (tl_good _ _ Hw)) as [_ Hpre]. by eapply prefix_lookup_Some.
Qed.

Lemma source_Replay_calm fuel w :
  tailed base w →
  (∃ o, (source_Replay saga (tyield E) (toutside E) fuel (committed w) (drain_event t E tok head) w).1 = Val o) ∨
  (source_Replay saga (tyield E) (toutside E) fuel (committed w) (drain_event t E tok head) w).1 = Stop.
Proof.
  revert w. induction fuel as [|fuel IH]; intros w Hw; [left; by eexists|].
  cbn [source_Replay]. destruct (tyield E w) as [ry w1] eqn:Hy.
  pose proof Hy as Hy'. apply tyield_inv in Hy' as [Hk1%tkeeps_same _].
  assert (ry = Val tt) as -> by (unfold tyield in Hy; rewrite toutside_calm in Hy; by injection Hy).
  assert (Hw1 := tailed_same _ _ _ Hk1 Hw). rewrite <- (tsame_committed _ _ Hk1).
  erewrite bind_Val by exact Hy.
  assert (Hs2 := tkeeps_same _ _ (next_tick_keeps w1)). assert (Hw2 := tailed_same _ _ _ Hs2 Hw1).
  erewrite bind_Val by (apply wrapf_Val; unfold load_since; erewrite bind_Val by apply toutside_calm;
    exact (page_at_committed base (next_tick w1) Hw2)).
  set (batch := take _ _).
  assert (Hbatch : ∀ i g, batch !! i = Some g → globalLog (saga w1) !! (Z.to_nat (committed w1) + i)%nat = Some g).
  { intros i g [Hi _]%lookup_take_Some. by rewrite lookup_drop in Hi. }
  change (committed w1) with (committed (next_tick w1)). unfold mbind, go_bind.
  destruct (replay_batch _ _ batch (next_tick w1)) as [rb w3] eqn:Hb.
  destruct (replay_batch_calm batch (next_tick w1) Hw2 Hbatch) as [[cur Hr]|Hr];
    rewrite Hb in Hr; cbn in Hr; subst rb; [|by right].
  apply (replay_batch_inv base tok head Htok) in Hb as [(Hw3&_) Hv]; [|done|done].
  destruct (Hv cur eq_refl) as (->&_). destruct (_ <? batchSize); [left; by eexists|by apply IH].
Qed.
End calm_drain.

Lemma drain_calm tok w : tok ≠ "" → tailed base w → (drain t E tok w).1 = Val (Some tt).
Proof.
  intros Htok Hw. destruct (drain t E tok w) as [r w'] eqn:Hd. cbn.
  pose proof Hd as Hd'. apply (drain_inv base) in Hd' as (_&_&_&Hr); [|done|done].
  assert (Hs := tkeeps_same _ _ (next_tick_keeps w)). assert (Hw1 := tailed_same _ _ _ Hs Hw).
  assert (Hs2 := tkeeps_same _ _ (next_tick_keeps (next_tick w))). assert (Hw2 := tailed_same _ _ _ Hs2 Hw1).
  unfold drain, thead, tload_offset, wrapf, mbind, go_bind, read in Hd. rewrite !toutside_calm in Hd.
  unfold drain_outcome in Hd.
  change (OwnerStore.LoadOffset _ _ _) with (committed (next_tick (next_tick w))) in Hd.
  destruct (source_Replay _ _ _ _ _ _ _) as [rs ws] eqn:Hrs.
  match type of Hrs with source_Replay _ _ _ ?f _ (drain_event _ _ _ ?h) _ = _ =>
    destruct (source_Replay_calm tok h Htok f _ Hw2) as [[o Ho]|Ho] end;
    rewrite Hrs in Ho; cbn in Ho; subst rs; injection Hd as <- <-; [|done].
  by destruct o as [[]|].
Qed.
End calm.
End tops.

(** ** Histories: ticks, while the sagas append to their journal *)

Inductive tailing base : W → Prop :=
  | tailing_start w :
      journal_good (saga w) → committed w = 0 → own_letters w = [] → read_model w = base →
      (∀ pos, (t_cellID t, t_projectionID t, pos) ∉ DeadLetters.seen (deadLetters w)) → tailing base w
  | tailing_saga w j : tailing base w → sgrows (saga w) j → tailing base (put_saga j w)
  | tailing_tick E now acquired entropy w r w' :
      tailing base w → trely E → no_other_stale E →
      pollOnce t E now acquired entropy w = (r, w') → tailing base w'.

Lemma tailing_tailed base w : tailing base w → tailed base w.
Proof.
  induction 1 as [w Hj Hc Hl Hm Hs|w j _ IH Hg|E now acquired entropy w r w' _ IH HE Hst Hp].
  - pose proof (ji_seq _ (jg_inv _ Hj)). constructor; [done|lia|unfold HeadSeq; lia| |].
    + rewrite Hc. cbn. by rewrite Hl, Hm.
    + intros pos Hin. by apply Hs in Hin.
  - eapply tailed_same, IH. by unfold tsame.
  - unfold pollOnce in Hp. destruct (tstate w); [| | |by injection Hp as <- <-];
      by eapply gated_drain_inv in Hp as [? _].
Qed.
End tspec.

(** ** Leader handoff

    Several processes may believe that they lead.  Each holds an owner token and
    works through the events after the checkpoint it loaded when it started; its
    transactions interleave with those of the others in any order.  Positions
    applied are logged in the read model itself, so that a rollback takes them
    back. *)

Section handoff.
Context {M : Type} (t0 : Tailer M).

Definition seq_of (evt : ProjectionEvent) : Z :=
  match evt with sagaProjectionEvent seq _ _ _ => seq | _ => 0 end.

Definition logged : Tailer (M * list Z) :=
  MkTailer (t_cellID t0) (t_projectionID t0)
    (λ evt ml, let '(r, m') := t_apply t0 evt ml.1 in
       (r, (m', match r with Some (Ok _) => ml.2 ++ [seq_of evt] | _ => ml.2 end)))
    (redacted t0).

Abbreviation W := (tworld (M * list Z)).
Implicit Type w : W.

(** The positions handled so far: applied, or recorded in a dead letter. *)
Definition handled w : list Z := (read_model w).2 ++ (DeadLetters.dl_GlobalSeq <$> own_letters logged w).

Definition owner_of w : string :=
  OwnerStore.owner (OwnerStore.entry_of (owners w) (t_cellID t0) (t_projectionID t0)).

(** Transactions of other leaders come before or after, not inside. *)
Definition alone (weather : nat → option goerror) : tenv (M * list Z) := MkTEnv weather (λ _ w, w).

(** The transaction a leader runs for an event: apply and advance, or, after a
    permanent error [ae], record and advance. *)
Definition leader_tx weather (tok : string) (evt : ProjectionEvent) (pos : Z) (ae : option goerror) : go W unit :=
  match ae with
  | None => tRunInTx (alone weather) (commit_body logged (alone weather) tok evt pos)
  | Some e => skipPoisonEvent logged (alone weather) tok evt pos e
  end.

(** The world and, per token, the position up to which its holder has come. *)
Record cluster := MkCluster { cw : W; progress : gmap string Z }.

Inductive cstep : cluster → cluster → Prop :=
  | cs_start tok w pr :
      tok ≠ "" → pr !! tok = None → owner_of w ≠ tok →
      cstep (MkCluster w pr) (MkCluster w (<[tok := committed logged w]> pr))
  | cs_commit weather ae tok p g evt w pr w' :
      pr !! tok = Some p → globalLog (saga w) !! Z.to_nat p = Some g → toCarrier g = Ok evt →
      leader_tx weather tok evt (GlobalSeq g) ae w = (Val tt, w') →
      cstep (MkCluster w pr) (MkCluster w' (<[tok := p + 1]> pr))
  | cs_fail weather ae tok evt pos w pr r w' :
      leader_tx weather tok evt pos ae w = (r, w') → r ≠ Val tt →
      cstep (MkCluster w pr) (MkCluster w' pr)
  | cs_leave tok w pr : cstep (MkCluster w pr) (MkCluster w (delete tok pr))
  | cs_saga w pr j : sgrows (saga w) j → cstep (MkCluster w pr) (MkCluster (put_saga j w) pr).

Record cluster_ok (c : cluster) : Prop := {
  co_good : journal_good (saga (cw c));
  co_low : 0 ≤ committed logged (cw c);
  co_done : handled (cw c) ≡ₚ seqZ 1 (committed logged (cw c));
  co_seen pos : (t_cellID t0, t_projectionID t0, pos) ∈ DeadLetters.seen (deadLetters (cw c)) →
    pos ≤ committed logged (cw c);
  co_progress tok p : progress c !! tok = Some p → 0 ≤ p ≤ committed logged (cw c);
  co_owner tok p : progress c !! tok = Some p → owner_of (cw c) = tok → committed logged (cw c) = p;
}.

Definition tframe w w' : Prop :=
  owners w' = owners w ∧ deadLetters w' = deadLetters w ∧ read_model w' = read_model w ∧ saga w' = saga w.

Lemma alone_outside weather w r w' : toutside (alone weather) w = (r, w') → tframe w w'.
Proof. unfold toutside. by destruct (tweather _ _); intros [= <- <-]. Qed.

Lemma tframe_trans w1 w2 w3 : tframe w1 w2 → tframe w2 w3 → tframe w1 w3.
Proof. intros (?&?&?&?) (?&?&?&?). unfold tframe. split_and!; congruence. Qed.

(** The fence: the token owns the row or is strictly ahead. *)
Lemma fence_inv weather tok pos w w' :
  (toutside (alone weather) ≫= λ _, advance_if_owner logged tok pos) w = (Val tt, w') →
  saga w' = saga w ∧ read_model w' = read_model w ∧ deadLetters w' = deadLetters w ∧
  (owner_of w = tok ∨ committed logged w < pos) ∧ committed logged w' = pos ∧ owner_of w' = tok.
Proof.
  intros (ro&w1&Ho&Hk)%bind_inv. apply alone_outside in Ho as Hf. destruct Hf as (Hf1&Hf2&Hf3&Hf4).
  destruct ro as [[]|e| |]; [|by destruct Hk..].
  unfold advance_if_owner, OwnerStore.AdvanceIfOwner in Hk. rewrite Hf1 in Hk.
  destruct (tok ==s ""); [done|]. destruct (_ || _) eqn:Hor; [|done]. injection Hk as <-.
  split; [done|]. split; [done|]. split; [done|]. split.
  - apply orb_prop in Hor as [Hor|Hor]; [left|right].
    + by apply bool_decide_eq_true in Hor as ->.
    + unfold committed, OwnerStore.LoadOffset. rewrite Z.gtb_ltb in Hor. by bools.
  - unfold committed, owner_of, OwnerStore.entry_of. cbn. rewrite LoadOffset_insert. split; [done|].
    exact (f_equal (OwnerStore.owner ∘ default OwnerStore.zero)
             (lookup_insert_eq (owners w : gmap string OwnerStore.ownerEntry) _ _)).
Qed.

Lemma handled_frame w w' : tframe w w' → handled w' = handled w.
Proof. intros (_&Hd&Hm&_). unfold handled, own_letters. by rewrite Hd, Hm. Qed.

Lemma committed_frame w w' : tframe w w' → committed logged w' = committed logged w ∧ owner_of w' = owner_of w.
Proof. intros (Ho&_). unfold committed, owner_of. by rewrite Ho. Qed.

Lemma commit_body_Val weather tok evt pos w w' :
  commit_body logged (alone weather) tok evt pos w = (Val tt, w') →
  saga w' = saga w ∧ (owner_of w = tok ∨ committed logged w < pos) ∧
  committed logged w' = pos ∧ owner_of w' = tok ∧
  deadLetters w' = deadLetters w ∧ (read_model w').2 = (read_model w).2 ++ [seq_of evt].
Proof.
  intros (ra&w1&(ra'&Ha&Hra)%wrapf_inv&Hk)%bind_inv. unfold apply_event in Ha. cbn in Ha.
  destruct (t_apply t0 evt (read_model w).1) as [[[[]|e]|] m]; injection Ha as <- <-; subst ra;
    [|by destruct Hk..].
  apply bind_inv in Hk as (r1&w1'&[= <- <-]&Hk). apply fence_inv in Hk as (Hs&Hm&Hd&Hf&Hc&Ho).
  split_and!; try done. by rewrite Hm.
Qed.

Lemma skip_body_Val weather tok pos w w' name evt ae :
  (wrapf name (toutside (alone weather) ≫= λ _, record_dead_letter (dead_letter logged evt pos ae)) ≫= λ _,
   toutside (alone weather) ≫= λ _, advance_if_owner logged tok pos) w = (Val tt, w') →
  saga w' = saga w ∧ (owner_of w = tok ∨ committed logged w < pos) ∧
  committed logged w' = pos ∧ owner_of w' = tok ∧
  deadLetters w' = DeadLetters.Record_ (deadLetters w) (dead_letter logged evt pos ae) ∧
  read_model w' = read_model w.
Proof.
  intros (rd&w1&(rd'&Hd&Hrd)%wrapf_inv&Hk)%bind_inv.
  apply bind_inv in Hd as (ro&w2&Ho%alone_outside&Hd).
  destruct ro as [[]|e| |]; [|destruct Hd as [-> ->]; subst rd; by destruct Hk..].
  injection Hd as <- <-. subst rd. destruct (committed_frame _ _ Ho) as [Hc2 Ho2]. destruct Ho as (?&Hd2&Hm2&Hs2).
  apply fence_inv in Hk as (Hs&Hm&Hd&Hf&Hc&Ho). cbn in Hs, Hm, Hd.
  split_and!; [congruence| |done|done|by rewrite Hd, Hd2|congruence].
  destruct Hf as [Hf|Hf]; [left; by rewrite <- Ho2|right; by rewrite <- Hc2].
Qed.

(** A committed transaction of a leader. *)
Lemma leader_tx_Val weather tok evt pos ae w w' :
  seq_of evt = pos → leader_tx weather tok evt pos ae w = (Val tt, w') →
  saga w' = saga w ∧ (owner_of w = tok ∨ committed logged w < pos) ∧
  committed logged w' = pos ∧ owner_of w' = tok ∧
  match ae with
  | None => deadLetters w' = deadLetters w ∧ (read_model w').2 = (read_model w).2 ++ [pos]
  | Some e => deadLetters w' = DeadLetters.Record_ (deadLetters w) (dead_letter logged evt pos e) ∧
              read_model w' = read_model w
  end.
Proof.
  intros Hseq Hr.
  assert (Htx : ∃ fn w1 w2, tframe w w1 ∧ fn w1 = (Val tt, w2) ∧ tframe w2 w' ∧
    fn = match ae with
         | None => commit_body logged (alone weather) tok evt pos
         | Some e => wrapf ("tailer poison: record dead-letter event_id=" ++ EventID evt ++ " position=" ++ pretty pos)
             (toutside (alone weather) ≫= λ _, record_dead_letter (dead_letter logged evt pos e)) ≫= λ _,
             toutside (alone weather) ≫= λ _, advance_if_owner logged tok pos
         end).
  { destruct ae; apply tx_inv in Hr as [(_&w1&w2&Hy&Hf&Ho)|[? _]]; try done;
      eexists _, w1, w2; (split; [by apply alone_outside in Hy|]); (split; [exact Hf|]);
      (split; [by apply alone_outside in Ho|done]). }
  destruct Htx as (fn&w1&w2&Hw1&Hf&Hw2&->).
  destruct (committed_frame _ _ Hw1) as [Hc1 Ho1], (committed_frame _ _ Hw2) as [Hc2 Ho2].
  rewrite Hc2, Ho2, <- Hc1, <- Ho1.
  destruct Hw1 as (_&Hd1&Hm1&Hs1), Hw2 as (_&Hd2&Hm2&Hs2). rewrite Hs2, Hd2, Hm2, <- Hd1, <- Hm1.
  destruct ae as [ae|].
  - apply skip_body_Val in Hf as (Hs&Hfence&Hc&Ho&Hd&Hm). split_and!; try done; congruence.
  - apply commit_body_Val in Hf as (Hs&Hfence&Hc&Ho&Hd&Hm). rewrite Hseq in Hm. split_and!; try done; congruence.
Qed.

(** What it adds to the positions handled. *)
Lemma leader_tx_handled weather tok evt pos ae w w' :
  seq_of evt = pos → leader_tx weather tok evt pos ae w = (Val tt, w') →
  (∀ q, (t_cellID t0, t_projectionID t0, q) ∈ DeadLetters.seen (deadLetters w) → q < pos) →
  handled w' ≡ₚ handled w ++ [pos] ∧
  ∀ q, (t_cellID t0, t_projectionID t0, q) ∈ DeadLetters.seen (deadLetters w') → q ≤ pos.
Proof.
  intros Hseq Hr Hseen. apply leader_tx_Val in Hr as (_&_&_&_&Hae); [|done].
  unfold handled. destruct ae as [e|]; destruct Hae as [Hd Hm].
  - destruct (record_fresh logged w evt pos e Hseen) as [Hrec Hle].
    unfold own_letters. rewrite Hd, Hm, Hrec, fmap_app, (assoc_L (++)). by split.
  - unfold own_letters. rewrite Hd, Hm. split; [by rewrite <- !(assoc_L (++)), (comm (++) [pos])|].
    intros q Hin%Hseen. lia.
Qed.

(** Nothing in a transaction touches the saga journal. *)
Definition saga_stable {A} (x : go W A) : Prop := ∀ w r w', x w = (r, w') → saga w' = saga w.

Lemma stable_bind {A B} (x : go W A) (f : A → go W B) :
  saga_stable x → (∀ a, saga_stable (f a)) → saga_stable (x ≫= f).
Proof.
  intros Hx Hf w r w' (rx&w1&H1&Hk)%bind_inv. apply Hx in H1 as <-.
  destruct rx; [by eapply Hf|by destruct Hk as [_ ->]..].
Qed.

Lemma stable_wrapf {A} p (x : go W A) : saga_stable x → saga_stable (wrapf p x).
Proof. intros Hx w r w' (rx&H1&_)%wrapf_inv. by apply Hx in H1. Qed.

Lemma stable_outside weather : saga_stable (toutside (alone weather)).
Proof. by intros w r w' (_&_&_&?)%alone_outside. Qed.

Lemma stable_advance tok pos : saga_stable (advance_if_owner logged tok pos).
Proof.
  intros w r w'. unfold advance_if_owner. by destruct (OwnerStore.AdvanceIfOwner _ _ _ _ _) as [[] o]; intros [= <- <-].
Qed.

Lemma stable_apply evt : saga_stable (apply_event logged evt).
Proof.
  intros w r w'. unfold apply_event. by destruct (t_apply _ _ _) as [[[]|] m]; intros [= <- <-].
Qed.

Lemma stable_tx weather fn w r w' :
  saga_stable fn → tRunInTx (alone weather) fn w = (r, w') → r ≠ Val tt → tframe w w'.
Proof.
  intros Hfn Htx Hne. apply tx_inv in Htx as [[? _]|[_ [Hy|(w1&w2&Hy&Hf&->)]]];
    [done|by apply (alone_outside _ w) in Hy|].
  apply (alone_outside _ w) in Hy as (?&?&?&?).
  apply (stable_bind fn) in Hf; [|done|intros _; apply stable_outside].
  unfold tframe. cbn. split_and!; congruence.
Qed.

Lemma leader_tx_fail weather tok evt pos ae w r w' :
  leader_tx weather tok evt pos ae w = (r, w') → r ≠ Val tt → tframe w w'.
Proof.
  destruct ae; apply stable_tx;
    repeat (apply stable_bind; [|intros ?]); try apply stable_wrapf;
    try apply stable_apply; try apply stable_outside; try apply stable_advance.
  - apply stable_bind; [apply stable_outside|]. by intros _ w1 r1 w2 [= <- <-].
  - by intros w1 r1 w2 [= <- <-].
Qed.

Lemma cstep_ok c c' :
  cstep c c' → cluster_ok c →
  cluster_ok c' ∧ committed logged (cw c) ≤ committed logged (cw c').
Proof.
  intros Hstep. destruct Hstep as [tok w pr Htok Hnew Hown|weather ae tok p g evt w pr w' Hp Hg Hc Htx
    |weather ae tok evt pos w pr r w' Htx Hne|tok w pr|w pr j Hj]; intros [Hgood Hlow Hdone Hseen Hprog Howner]; cbn in *.
  - split; [|done]. constructor; cbn; try done.
    + intros tok' p. rewrite lookup_insert_Some. intros [[<- <-]|[_ Hp]]; [lia|by eapply Hprog].
    + intros tok' p. rewrite lookup_insert_Some. intros [[<- <-]|[_ Hp]]; [done|by eapply Howner].
  - pose proof (Hprog _ _ Hp) as Hp0.
    destruct (good_carrier _ _ _ Hgood Hg) as (Hseq&raw&Hc'). rewrite Hc in Hc'. injection Hc' as ->.
    pose proof Htx as Htx'. apply leader_tx_Val in Htx as (Hs&Hfence&Hcm&Ho&_); [|done].
    assert (Hnew : GlobalSeq g = p + 1) by lia.
    assert (Hat : committed logged w = p).
    { destruct Hfence as [Hf|?]; [by rewrite (Howner _ _ Hp Hf)|lia]. }
    apply leader_tx_handled in Htx' as [Hh Hs']; [|done|intros q Hq%Hseen; lia].
    split; [|lia]. constructor; cbn; rewrite ?Hcm, ?Hs; try done.
    + lia.
    + rewrite Hh, Hdone, Hat, Hnew. by rewrite seqZ_app, Z.add_comm by lia.
    + intros tok' p'. rewrite lookup_insert_Some. intros [[<- <-]|[_ Hp']]; [lia|].
      pose proof (Hprog _ _ Hp'). lia.
    + intros tok' p'. rewrite lookup_insert_Some. intros [[<- <-]|[Hne _]]; [lia|]. by rewrite Ho.
  - apply leader_tx_fail in Htx as Hf; [|done]. destruct (committed_frame _ _ Hf) as [Hcm Ho].
    pose proof (handled_frame _ _ Hf) as Hh. destruct Hf as (_&Hd&_&Hs).
    split; [|lia]. constructor; cbn; rewrite ?Hcm, ?Ho, ?Hs, ?Hh, ?Hd; done.
  - split; [|done]. constructor; cbn; try done.
    + intros tok' p [_ Hp]%lookup_delete_Some. by eapply Hprog.
    + intros tok' p [_ Hp]%lookup_delete_Some. by eapply Howner.
  - split; [|done]. constructor; cbn; try done. by apply Hj.
Qed.

Lemma csteps_ok c c' :
  rtc cstep c c' → cluster_ok c →
  cluster_ok c' ∧ committed logged (cw c) ≤ committed logged (cw c').
Proof.
  induction 1 as [c|c1 c2 c3 Hs _ IH]; intros Hok; [done|].
  destruct (cstep_ok _ _ Hs Hok) as [Hok2 ?]. destruct (IH Hok2). split; [done|lia].
Qed.

(** Before the first leader. *)
Definition untouched w : Prop :=
  journal_good (saga w) ∧ committed logged w = 0 ∧ handled w = [] ∧
  ∀ pos, (t_cellID t0, t_projectionID t0, pos) ∉ DeadLetters.seen (deadLetters w).

Lemma untouched_ok w : untouched w → cluster_ok (MkCluster w ∅).
Proof.
  intros (Hg&Hc&Hh&Hs). constructor; cbn; rewrite ?Hc, ?Hh; try done.
  intros pos Hin. by apply Hs in Hin.
Qed.
End handoff.

(** ** The lock key *)

Lemma length_prefix_split a b ra rb :
  (pretty (byte_len a) ++ ":" ++ a ++ ra)%string = (pretty (byte_len b) ++ ":" ++ b ++ rb)%string →
  a = b ∧ ra = rb.
Proof.
  intros Heq. apply int_split in Heq as [Hlen Heq]; [|done..]. injection Heq as Heq. unfold byte_len in Hlen.
  assert (String.length a = String.length b) as Hl by lia. clear Hlen.
  revert b Hl Heq. induction a as [|c a IH]; intros [|d b] Hl; try done; cbn in Hl.
  rewrite !append_String. intros [= -> Heq]. destruct (IH b ltac:(lia) Heq) as [-> ->]. done.
Qed.

(** ** A run *)

Module TailerSample.
(** The first event of the journal is poison. *)
Definition apply_ids (evt : ProjectionEvent) (m : list string) : option (outcome unit) * list string :=
  if decide (seq_of evt = 1) then (Some (Err (Permanent (ErrorsNew "unknown step"))), m)
  else (Some (Ok tt), m ++ [EventID evt]).

Definition ids : Tailer (list string) := MkTailer "orders" "order_view" apply_ids error_text.
Definition calm : tenv (list string) := MkTEnv (λ _, None) (λ _ w, w).
Definition world0 {M} (m : M) : tworld M :=
  MkTWorld ∅ DeadLetters.NewMemDeadLetterStore m demo tailerRunning 0 0 false None 0.
Definition tok (n : Z) : list Z := replicate 16 n.
Definition tick (w : tworld (list string)) := pollOnce ids calm 50 (Ok tt) (tok 7) w.

Lemma demo_good : journal_good demo.
Proof. constructor; [apply reachable_inv|apply reachable_log_ok|by vm_compute]; apply reachable_demo. Qed.

Lemma calm_rely : trely calm.
Proof. intros n w. unfold tkeeps. split_and!; [done..|apply sgrows_refl]. Qed.

Lemma apply_ids_total evt m :
  ∃ m', apply_ids evt m = (Some (Ok tt), m') ∨ ∃ e, apply_ids evt m = (Some (Err e), m') ∧ IsPermanent e = true.
Proof. unfold apply_ids. case_decide; eexists; [right; by eexists|by left]. Qed.

Lemma ids_not_stale : no_other_stale ids calm.
Proof.
  split; [|done]. intros evt m e m'. cbn. unfold apply_ids. case_decide; [|done]. by intros [= <- <-].
Qed.

Lemma world0_tailing : tailing ids [] (world0 []).
Proof. by apply tailing_start; [apply demo_good|..]. Qed.

(** Two leaders at once: [a] skips the poison event, [b], that started from the
    same checkpoint, is refused its own attempt, and [a] applies the second. *)
Definition fair (n : nat) : option goerror := None.
Definition event_at (seq : Z) (t : Time) (raw : string) : ProjectionEvent := sagaProjectionEvent seq "s2" raw t.
Definition first_event : ProjectionEvent :=
  match globalLog demo with g :: _ => match toCarrier g with Ok e => e | Err _ => event_at 0 0 "" end | [] => event_at 0 0 "" end.
Definition second_event : ProjectionEvent :=
  match globalLog demo with _ :: g :: _ => match toCarrier g with Ok e => e | Err _ => event_at 0 0 "" end | _ => event_at 0 0 "" end.
Definition poison : goerror := Permanent (ErrorsNew "unknown step").
Definition c0 : tworld (list string * list Z) := world0 ([], []).
Definition c1 := (leader_tx ids fair "a" first_event 1 (Some poison) c0).2.
Definition c2 := (leader_tx ids fair "b" first_event 1 (Some poison) c1).2.
Definition c3 := (leader_tx ids fair "a" second_event 2 None c2).2.

Lemma two_leaders :
  ∃ pr, rtc (cstep ids) (MkCluster c0 ∅) (MkCluster c3 pr).
Proof.
  eexists. eapply rtc_l; [by apply (cs_start ids "a" c0 ∅)|].
  eapply rtc_l; [by apply (cs_start ids "b")|].
  eapply rtc_l.
  { eapply (cs_commit ids fair (Some poison) "a" 0 (MkGlobalEvent 1 "s2" (MkEvent 1 1 KindStepStarted "charge" "" 11))
      first_event _ _ c1); by vm_compute. }
  eapply rtc_l.
  { eapply (cs_fail ids fair (Some poison) "b" first_event 1 c1 _ _ c2); [apply surjective_pairing|by vm_compute]. }
  eapply rtc_l; [|apply rtc_refl].
  eapply (cs_commit ids fair None "a" 1 (MkGlobalEvent 2 "s2" (MkEvent 2 2 KindStepCompleted "charge" "" 12))
    second_event _ _ c3); by vm_compute.
Qed.
End TailerSample.

(** ** Claims *)

(** C6: however ticks of a sole leader, journal appends, backend failures, panics
    of [Apply] and lost commits follow each other, the checkpoint stays between 0
    and the head of the journal, and the read model and the dead letters are
    what the events up to the checkpoint make of the initial model, in order and
    each exactly once: applied, or recorded when [Apply] failed permanently. *)
Theorem tailer_exactly_once {M} (t : Tailer M) base w :
  tailing t base w →
  0 ≤ committed t w ≤ HeadSeq (saga w) ∧
  fold_skip t (take (Z.to_nat (committed t w)) (globalLog (saga w))) base [] = Some (read_model w, own_letters t w).
Proof. intros []%tailing_tailed. done. Qed.

Lemma tailer_exactly_once_witness :
  let w := (TailerSample.tick (TailerSample.world0 [])).2 in
  committed TailerSample.ids w = 2 ∧ read_model w = ["saga-journal:2@s2"] ∧
  length (own_letters TailerSample.ids w) = 1%nat ∧
  fold_skip TailerSample.ids (globalLog demo) [] [] = Some (read_model w, own_letters TailerSample.ids w).
Proof.
  intros w.
  assert (Hw : tailing TailerSample.ids [] w).
  { eapply (tailing_tick _ _ TailerSample.calm 50 (Ok tt) (TailerSample.tok 7) (TailerSample.world0 []));
      [apply TailerSample.world0_tailing|apply TailerSample.calm_rely|apply TailerSample.ids_not_stale
      |apply surjective_pairing]. }
  destruct (tailer_exactly_once _ _ _ Hw) as [_ Hf].
  split; [by vm_compute|]. split; [by vm_compute|]. split; [by vm_compute|].
  replace (globalLog demo) with (take (Z.to_nat (committed TailerSample.ids w)) (globalLog (saga w)))
    by (by vm_compute). exact Hf.
Defined.

(** C7: a tick of the leader always ends (its paged replay does not run out of
    pages, however the journal grows meanwhile); when it reports no error the
    checkpoint has reached what was the head when the tick began; and it reports
    none if no backend call fails and [Apply] only ever succeeds or fails
    permanently, so poison events do not stop a projection. *)
Theorem tailer_tick_catches_up {M} (t : Tailer M) (E : tenv M) base now entropy w r w' :
  tailing t base w → trely E → no_other_stale t E → tstate w ≠ tailerStopping →
  pollOnce t E now (Ok tt) entropy w = (r, w') →
  r ≠ Val None ∧ r ≠ Stop ∧
  (r = Val (Some tt) → HeadSeq (saga w) ≤ committed t w') ∧
  ((∀ n, tweather E n = None) → length entropy = 16%nat →
   (∀ evt m, ∃ m', t_apply t evt m = (Some (Ok tt), m') ∨
      ∃ e, t_apply t evt m = (Some (Err e), m') ∧ IsPermanent e = true) →
   r = Val (Some tt)).
Proof.
  intros Hw%tailing_tailed HE Hst Hstate Hp.
  replace (pollOnce t E now (Ok tt) entropy w) with (gated_drain t E now (Ok tt) entropy w) in Hp
    by (unfold pollOnce; by destruct (tstate w)).
  pose proof Hp as Hp'. eapply gated_drain_inv in Hp' as (_&_&Hn&Hs&Hh); [|done..].
  split_and!; [done|done|auto|]. intros Hcalm Hlen Happly. unfold gated_drain in Hp.
  destruct (newUUID entropy) as [tk|e] eqn:Htok.
  2:{ unfold newUUID in Htok. by rewrite bool_decide_true in Htok. }
  apply newUUID_nonempty in Htok. set (w1 := put_health 0 (lastSuccessUnixNano w) w) in Hp.
  assert (Hw1 : tailed t base w1).
  { eapply tailed_same, Hw. unfold tsame. split_and!; [done..|apply sgrows_refl]. }
  pose proof (drain_calm t E HE Hst base Hcalm Happly tk w1 Htok Hw1) as Hd.
  destruct (drain t E tk w1) as [rd w2] eqn:Hdr. cbn in Hd. subst rd.
  erewrite bind_Val in Hp by exact Hdr. by injection Hp as <- _.
Qed.

Lemma tailer_tick_catches_up_witness :
  (TailerSample.tick (TailerSample.world0 [])).1 = Val (Some tt) ∧
  HeadSeq demo ≤ committed TailerSample.ids (TailerSample.tick (TailerSample.world0 [])).2.
Proof.
  destruct (TailerSample.tick (TailerSample.world0 [])) as [r w'] eqn:Hp. cbn [fst snd].
  destruct (tailer_tick_catches_up TailerSample.ids TailerSample.calm [] 50 (TailerSample.tok 7)
    (TailerSample.world0 []) r w') as (_&_&Hh&Hr); [apply TailerSample.world0_tailing
    |apply TailerSample.calm_rely|apply TailerSample.ids_not_stale|done|exact Hp|].
  assert (r = Val (Some tt)) as -> by (apply Hr; [done|done|apply TailerSample.apply_ids_total]).
  split; [done|]. by apply Hh.
Defined.

(** C5: two processes that both believe to be the leader (a lock lease that ran
    out, a paused process) do no harm to what [Apply] writes in its transaction, under
    a transaction runner that rolls back and serialises.  However their transactions
    interleave with each other and with journal appends, and whichever of them fail,
    the positions whose effects are applied or dead-lettered are exactly 1 to the
    checkpoint, none missing and none twice, and the checkpoint never goes back.
    The comment on [Tailer] promises less, at-least-once with bounded duplicates: a
    deposed leader may call [Apply] for an event another has committed, but its
    advance is refused in the same transaction, which takes the call's writes back.
    Only effects outside the transaction, or a runner that does not roll back (as in
    the repository's own handoff test), can be doubled. *)
Theorem leader_handoff_exactly_once {M} (t : Tailer M) w c c' :
  untouched t w → rtc (cstep t) (MkCluster w ∅) c → rtc (cstep t) c c' →
  handled t (cw c) ≡ₚ seqZ 1 (committed (logged t) (cw c)) ∧
  committed (logged t) (cw c) ≤ committed (logged t) (cw c').
Proof.
  intros Hu%untouched_ok Hc Hc'. destruct (csteps_ok _ _ _ Hc Hu) as [Hok _].
  split; [apply Hok|]. by eapply csteps_ok.
Qed.

Lemma leader_handoff_exactly_once_witness :
  handled TailerSample.ids TailerSample.c3 ≡ₚ [1; 2] ∧
  (leader_tx TailerSample.ids TailerSample.fair "b" TailerSample.first_event 1 (Some TailerSample.poison) TailerSample.c1).1
    = Fail OwnerStore.ErrStaleOwner.
Proof.
  split; [|by vm_compute]. destruct TailerSample.two_leaders as [pr Hrun].
  destruct (leader_handoff_exactly_once TailerSample.ids TailerSample.c0 _ _
    ltac:(split; [apply TailerSample.demo_good|]; split; [by vm_compute|]; split; [by vm_compute|]; cbn; set_solver)
    Hrun (rtc_refl _ _)) as [Hh _].
  cbn [cw] in Hh.
  assert (committed (logged TailerSample.ids) TailerSample.c3 = 2) as Hc by (by vm_compute).
  rewrite Hc in Hh. exact Hh.
Defined.

(** the leader lock of a projection is its own: two (cell, projection) pairs
    have the same distributed-lock key only if they are the same pair, whatever
    characters the ids contain. *)
Theorem tailer_lock_key_injective c1 p1 c2 p2 :
  tailerLockKey c1 p1 = tailerLockKey c2 p2 ↔ c1 = c2 ∧ p1 = p2.
Proof.
  split; [|by intros [-> ->]]. intros Heq. unfold tailerLockKey in Heq. apply (inj (append _)) in Heq.
  apply length_prefix_split in Heq as [-> Heq]. split; [done|]. injection Heq as Heq.
  apply (length_prefix_split p1 p2 "" ""). by rewrite !append_nil.
Qed.
