(* ===== verification/HttpWriter.v ===== *)
(** * The response writer of the HTTP idempotency middleware

    What the code uses of net/http (headers with canonical keys, the response
    writer of the server) and runtime/http/idempotency/buffer_writer.go, the tee
    that keeps a copy of what a handler writes.

    A handler is seen through the calls it makes ([rw_op]).  A call that sends
    bytes carries how many of them the connection takes, so that a client that
    went away is a value of the model; [None] is a panic.  Of the optional
    interfaces the tee lets through, [Flush] and [ReadFrom] are calls of the model;
    [Hijack], after which there is no response to speak of, and [Push], which does
    not touch this one, are not. *)

From Stdlib Require Import Ascii String.
From S2P Require Import Prelude GoJson.

(** ** net/http headers *)

Abbreviation header := (gmap string (list string)).

(** [validHeaderFieldByte]: the token characters of RFC 7230. *)
Definition token_char (c : ascii) : bool :=
  in_range "a" "z" c || in_range "A" "Z" c || in_range "0" "9" c ||
  bool_decide (c ∈ ["!"; "#"; "$"; "%"; "&"; "'"; "*"; "+"; "-"; "."; "^"; "_"; "`"; "|"; "~"]%char).

Definition to_upper (c : ascii) : ascii := if in_range "a" "z" c then ascii_of_N (N_of_ascii c - 32) else c.
Definition to_lower (c : ascii) : ascii := if in_range "A" "Z" c then ascii_of_N (N_of_ascii c + 32) else c.

Fixpoint canon (upper : bool) (s : string) : string :=
  match s with
  | EmptyString => EmptyString
  | String c s' => String (if upper then to_upper c else to_lower c) (canon (c =? "-")%char s')
  end.

Definition CanonicalMIMEHeaderKey (s : string) : string := if all_chars token_char s then canon true s else s.

Definition values (h : header) (k : string) : list string := default [] (h !! k).
Definition header_Get (h : header) (k : string) : string :=
  match values h (CanonicalMIMEHeaderKey k) with v :: _ => v | [] => "" end.
Definition header_Set (k v : string) (h : header) : header := <[CanonicalMIMEHeaderKey k := [v]]> h.
Definition header_Add (k v : string) (h : header) : header :=
  let k := CanonicalMIMEHeaderKey k in <[k := values h k ++ [v]]> h.
Definition header_Del (k : string) (h : header) : header := delete (CanonicalMIMEHeaderKey k) h.

(** ** The writer of net/http *)

(** [sent] is the status and the headers as they were when the status was
    written, [out] the body bytes the connection took. *)
Record rw := MkRW { rw_header : header; sent : option (Z * header); out : bytes }.

Inductive rw_op : Type :=
  | OpSet (k v : string)
  | OpAdd (k v : string)
  | OpDel (k : string)
  | OpRaw (k : string) (vs : list string)            (* w.Header()[k] = vs *)
  | OpWriteHeader (code : Z)
  | OpWrite (b : bytes) (takes : nat)
  | OpReadFrom (chunks : list bytes) (takes : nat)   (* io.Copy; one chunk per Read *)
  | OpFlush.                                         (* http.Flusher, where the server's writer has it *)

Definition edit_header (f : header → header) (w : rw) : rw := MkRW (f (rw_header w)) (sent w) (out w).

Definition bodyAllowed (status : Z) : bool :=
  negb (((100 <=? status) && (status <=? 199)) || (status =? 204) || (status =? 304)).

Definition rw_WriteHeader (code : Z) (w : rw) : option rw :=
  if bool_decide (is_Some (sent w)) then Some w
  else if (code <? 100) || (999 <? code) then None
  else if (100 <=? code) && (code <=? 199) && negb (code =? 101) then Some w
  else Some (MkRW (rw_header w) (Some (code, rw_header w)) (out w)).

Definition begin_body (w : rw) : rw :=
  if bool_decide (is_Some (sent w)) then w else MkRW (rw_header w) (Some (200, rw_header w)) (out w).

Definition byte_take (n : nat) (b : bytes) : bytes := String.substring 0 n b.

(** The number of bytes taken, with the writer. *)
Definition rw_Write (b : bytes) (takes : nat) (w : rw) : nat * rw :=
  let w1 := begin_body w in
  let allowed := match sent w1 with Some (status, _) => bodyAllowed status | None => true end in
  let n := if allowed then Nat.min takes (String.length b) else 0%nat in
  (n, MkRW (rw_header w1) (sent w1) (out w1 ++ byte_take n b)%string).

Definition concat_bytes (l : list bytes) : bytes := foldr (λ a b, (a ++ b)%string) EmptyString l.

(** One call; the flag says that every byte it was given was taken. *)
Definition rw_step (op : rw_op) (w : rw) : option (rw * bool) :=
  match op with
  | OpSet k v => Some (edit_header (header_Set k v) w, true)
  | OpAdd k v => Some (edit_header (header_Add k v) w, true)
  | OpDel k => Some (edit_header (header_Del k) w, true)
  | OpRaw k vs => Some (edit_header (insert k vs) w, true)
  | OpWriteHeader code => match rw_WriteHeader code w with Some w' => Some (w', true) | None => None end
  | OpWrite b takes =>
      let '(n, w') := rw_Write b takes w in Some (w', bool_decide (n = String.length b))
  | OpReadFrom chunks takes =>
      let b := concat_bytes chunks in
      let '(n, w') := rw_Write b takes w in Some (w', bool_decide (n = String.length b))
  | OpFlush => Some (begin_body w, true)
  end.

Fixpoint rw_run (ops : list rw_op) (w : rw) : option (rw * bool) :=
  match ops with
  | [] => Some (w, true)
  | op :: rest =>
      match rw_step op w with
      | None => None
      | Some (w1, full) =>
          match rw_run rest w1 with None => None | Some (w2, full') => Some (w2, full && full') end
      end
  end.

(** ** bufferingWriter *)

Record bufferingState := MkBuffering {
  statusCode : Z;
  buf : bytes;
  headerSnap : option header;
  oversized : bool;
  didCommit : bool;
}.

Record bufferingWriter := MkBW { under : rw; bs : bufferingState; maxBody : Z }.

Definition newBufferingWriter (w : rw) (maxBody : Z) : bufferingWriter :=
  MkBW w (MkBuffering 200 "" None false false) maxBody.

Definition appendToBuffer (p : bytes) (maxBody : Z) (s : bufferingState) : bufferingState :=
  if oversized s then s
  else
    let available := maxBody - byte_len (buf s) in
    if available <=? 0 then MkBuffering (statusCode s) (buf s) (headerSnap s) true (didCommit s)
    else if byte_len p <=? available
    then MkBuffering (statusCode s) (buf s ++ p)%string (headerSnap s) (oversized s) (didCommit s)
    else MkBuffering (statusCode s) (buf s ++ byte_take (Z.to_nat available) p)%string (headerSnap s) true (didCommit s).

(** The first commit: the status and a copy of the headers. *)
Definition commit (code : Z) (h : header) (s : bufferingState) : bufferingState :=
  if didCommit s then s else MkBuffering code (buf s) (Some h) (oversized s) true.

Definition writeHeaderHook (code : Z) (bw : bufferingWriter) : option bufferingWriter :=
  if code <? 200
  then match rw_WriteHeader code (under bw) with Some w => Some (MkBW w (bs bw) (maxBody bw)) | None => None end
  else
    let s := commit code (rw_header (under bw)) (bs bw) in
    if code =? statusCode s
    then match rw_WriteHeader code (under bw) with Some w => Some (MkBW w s (maxBody bw)) | None => None end
    else Some (MkBW (under bw) s (maxBody bw)).

Definition writeHook (b : bytes) (takes : nat) (bw : bufferingWriter) : bufferingWriter :=
  let s := commit (statusCode (bs bw)) (rw_header (under bw)) (bs bw) in
  let '(n, w) := rw_Write b takes (under bw) in
  MkBW w (appendToBuffer (byte_take n b) (maxBody bw) s) (maxBody bw).

(** The tee buffers what is read from the source, chunk by chunk. *)
Definition readFromHook (chunks : list bytes) (takes : nat) (bw : bufferingWriter) : bufferingWriter :=
  let s := commit (statusCode (bs bw)) (rw_header (under bw)) (bs bw) in
  let available := maxBody bw - byte_len (buf s) in
  let s := if oversized s || (available <=? 0)
           then MkBuffering (statusCode s) (buf s) (headerSnap s) true (didCommit s)
           else foldl (λ s p, if byte_len p =? 0 then s else appendToBuffer p (maxBody bw) s) s chunks in
  MkBW (rw_Write (concat_bytes chunks) takes (under bw)).2 s (maxBody bw).

Definition bw_step (op : rw_op) (bw : bufferingWriter) : option bufferingWriter :=
  let edit f := Some (MkBW (edit_header f (under bw)) (bs bw) (maxBody bw)) in
  match op with
  | OpSet k v => edit (header_Set k v)
  | OpAdd k v => edit (header_Add k v)
  | OpDel k => edit (header_Del k)
  | OpRaw k vs => edit (insert k vs)
  | OpWriteHeader code => writeHeaderHook code bw
  | OpWrite b takes => Some (writeHook b takes bw)
  | OpReadFrom chunks takes => Some (readFromHook chunks takes bw)
  | OpFlush => Some (MkBW (begin_body (under bw)) (bs bw) (maxBody bw))  (* no hook *)
  end.

Fixpoint bw_run (ops : list rw_op) (bw : bufferingWriter) : option bufferingWriter :=
  match ops with
  | [] => Some bw
  | op :: rest => match bw_step op bw with Some bw1 => bw_run rest bw1 | None => None end
  end.

(** Calls the tee follows: the handler does not switch protocols, and flushes only
    when it has sent a status. *)
Fixpoint orderly (ops : list rw_op) (w : rw) : bool :=
  match ops with
  | [] => true
  | op :: rest =>
      match op with
      | OpWriteHeader code => negb (code =? 101)
      | OpFlush => bool_decide (is_Some (sent w))
      | _ => true
      end &&
      match rw_step op w with Some (w1, _) => orderly rest w1 | None => true end
  end.

Definition capturedHeader (s : bufferingState) : header := default ∅ (headerSnap s).

(** ** Lemmas *)

Lemma byte_take_all b : byte_take (String.length b) b = b.
Proof. unfold byte_take. induction b as [|c b IH]; [done|]. cbn. by rewrite IH. Qed.

Lemma byte_take_len n b : (n ≤ String.length b)%nat → byte_len (byte_take n b) = Z.of_nat n.
Proof.
  unfold byte_take, byte_len. intros Hn. f_equal. revert n Hn.
  induction b as [|c b IH]; intros [|n] Hn; cbn in *; [done|lia|done|]. f_equal. apply IH. lia.
Qed.

Lemma byte_len_append (a b : bytes) : byte_len (a ++ b)%string = byte_len a + byte_len b.
Proof. unfold byte_len. rewrite length_append. lia. Qed.

Lemma append_empty_l (b : bytes) : ("" ++ b)%string = b.
Proof. done. Qed.

(** What the buffer knows of the bytes [o] it was to hold. *)
Definition holds (m : Z) (s : bufferingState) (o : bytes) : Prop :=
  if oversized s then m ≤ byte_len o else buf s = o.

Definition same_commit (s s' : bufferingState) : Prop :=
  statusCode s' = statusCode s ∧ headerSnap s' = headerSnap s ∧ didCommit s' = didCommit s.

Lemma appendToBuffer_spec p m s o :
  0 < m → byte_len (buf s) ≤ m → 
  let s' := appendToBuffer p m s in
  same_commit s s' ∧ byte_len (buf s') ≤ m ∧ (holds m s o → holds m s' (o ++ p)%string).
Proof.
  intros Hm Hb. unfold appendToBuffer, holds. destruct (oversized s) eqn:Ho.
  { split; [done|]. split; [done|]. rewrite Ho, byte_len_append. unfold byte_len. lia. }
  destruct (m - byte_len (buf s) <=? 0) eqn:Ha; bools; cbn.
  { split; [done|]. split; [done|]. intros <-. rewrite byte_len_append. unfold byte_len in *. lia. }
  destruct (byte_len p <=? m - byte_len (buf s)) eqn:Hp; bools; cbn; rewrite ?Ho.
  { split; [done|]. rewrite byte_len_append. split; [lia|]. by intros <-. }
  assert (Hlen : byte_len (byte_take (Z.to_nat (m - byte_len (buf s))) p) = m - byte_len (buf s)).
  { rewrite byte_take_len; [lia|]. unfold byte_len in *. lia. }
  split; [done|]. rewrite !byte_len_append, Hlen. split; [lia|]. intros <-. rewrite ?byte_len_append. lia.
Qed.

Lemma same_commit_trans s1 s2 s3 : same_commit s1 s2 → same_commit s2 s3 → same_commit s1 s3.
Proof. intros (?&?&?) (?&?&?). unfold same_commit. split_and!; congruence. Qed.

Lemma append_chunks_spec chunks m s o :
  0 < m → byte_len (buf s) ≤ m →
  let s' := foldl (λ s p, if byte_len p =? 0 then s else appendToBuffer p m s) s chunks in
  same_commit s s' ∧ byte_len (buf s') ≤ m ∧ (holds m s o → holds m s' (o ++ concat_bytes chunks)%string).
Proof.
  intros Hm. revert s o. induction chunks as [|p chunks IH]; intros s o Hb; cbn [foldl concat_bytes foldr].
  { split; [done|]. split; [done|]. by rewrite append_nil. }
  destruct (byte_len p =? 0) eqn:Hp; bools.
  - assert (p = "") as -> by (destruct p; [done|unfold byte_len in Hp; cbn in Hp; lia]). by apply IH.
  - destruct (appendToBuffer_spec p m s o Hm Hb) as (H1&H2&H3).
    destruct (IH (appendToBuffer p m s) (o ++ p)%string H2) as (H1'&H2'&H3').
    split; [by eapply same_commit_trans|]. split; [done|]. intros Ho.
    rewrite <- append_assoc. by apply H3', H3.
Qed.

(** The tee and the writer below it, after the same calls. *)
Record tees (m : Z) (bw : bufferingWriter) (w : rw) (full : bool) : Prop := {
  te_under : under bw = w;
  te_max : maxBody bw = m;
  te_len : byte_len (buf (bs bw)) ≤ m;
  te_commit : match sent w with
              | Some (c, h) => didCommit (bs bw) = true ∧ statusCode (bs bw) = c ∧ headerSnap (bs bw) = Some h
              | None => didCommit (bs bw) = false ∧ statusCode (bs bw) = 200
              end;
  te_holds : full = true → holds m (bs bw) (out w);
}.

Lemma rw_WriteHeader_sent code w w' :
  rw_WriteHeader code w = Some w' → code ≠ 101 →
  out w' = out w ∧
  (w' = w ∧ (is_Some (sent w) ∨ code < 200) ∨ sent w = None ∧ 200 ≤ code ∧ sent w' = Some (code, rw_header w)).
Proof.
  unfold rw_WriteHeader. case_bool_decide as Hs; [intros [= <-] _; split; [done|left; by split; [|left]]|].
  destruct (_ || _) eqn:Hbad; [done|]. apply orb_false_iff in Hbad as [Hbad1 Hbad2].
  destruct (_ && _) eqn:Hinfo; intros [= <-] Hne; (split; [done|]).
  - left. split; [done|]. right. bools. lia.
  - right. apply eq_None_not_Some in Hs. split; [done|]. split; [|done]. bools.
    apply andb_false_iff in Hinfo as [Hinfo|Hinfo]; bools; [|done].
    apply andb_false_iff in Hinfo as [Hinfo|Hinfo]; bools; lia.
Qed.

Lemma tees_header m bw w full f :
  tees m bw w full →
  tees m (MkBW (edit_header f (under bw)) (bs bw) (maxBody bw)) (edit_header f w) full.
Proof. intros []. constructor; cbn; try done. by subst. Qed.

Lemma commit_spec code h s :
  buf (commit code h s) = buf s ∧ oversized (commit code h s) = oversized s ∧
  didCommit (commit code h s) = true ∧
  (didCommit s = true → commit code h s = s) ∧
  (didCommit s = false → statusCode (commit code h s) = code ∧ headerSnap (commit code h s) = Some h).
Proof. unfold commit. destruct (didCommit s) eqn:Hd; cbn; by rewrite ?Hd. Qed.

Lemma tees_writeHeader m code bw w full :
  code ≠ 101 → tees m bw w full →
  match rw_WriteHeader code w with
  | None => writeHeaderHook code bw = None
  | Some w' => ∃ bw', writeHeaderHook code bw = Some bw' ∧ tees m bw' w' full
  end.
Proof.
  intros Hne [Hu Hm Hl Hc Hh]. unfold writeHeaderHook. rewrite Hu.
  destruct (rw_WriteHeader code w) as [w'|] eqn:Hw.
  2:{ destruct (code <? 200) eqn:?; bools; [done|]. unfold rw_WriteHeader in Hw.
      case_bool_decide as Hs; [done|]. apply eq_None_not_Some in Hs. rewrite Hs in Hc. destruct Hc as [Hc _].
      unfold commit. rewrite Hc. cbn. by rewrite Z.eqb_refl. }
  pose proof Hw as Hw'. apply rw_WriteHeader_sent in Hw' as [Hout Hcase]; [|done].
  destruct (code <? 200) eqn:Hlow; bools.
  { destruct Hcase as [[-> _]|(_&?&_)]; [|lia]. eexists. split; [done|]. by constructor. }
  destruct (commit_spec code (rw_header w) (bs bw)) as (Hb&Ho&Hd&Hkeep&Hnew).
  destruct Hcase as [[-> [[[c h] Hs]|?]]|(Hs&_&Hs')]; [|lia|].
  - rewrite Hs in Hc. destruct Hc as (Hdc&Hsc&Hsn). rewrite (Hkeep Hdc).
    assert (Hkept : tees m (MkBW w (bs bw) (maxBody bw)) w full) by (constructor; cbn; [done..|by rewrite Hs|done]).
    destruct (code =? _); by eexists.
  - rewrite Hs in Hc. destruct Hc as (Hdc&Hsc). destruct (Hnew Hdc) as [Hnc Hnh]. rewrite Hnc, Z.eqb_refl.
    eexists. split; [done|]. constructor; cbn; [done|done|by rewrite Hb|by rewrite Hs'|].
    intros Hf. specialize (Hh Hf). unfold holds in *. by rewrite Ho, Hb, Hout.
Qed.

Lemma begin_body_sent w : ∃ c h, sent (begin_body w) = Some (c, h) ∧ out (begin_body w) = out w ∧
  (sent w = None ∧ c = 200 ∧ h = rw_header w ∨ sent w = Some (c, h)).
Proof.
  unfold begin_body. case_bool_decide as Hs; [destruct Hs as [[c h] Hs]; exists c, h; rewrite Hs; by auto|].
  apply eq_None_not_Some in Hs. exists 200, (rw_header w). split; [done|]. split; [done|by left].
Qed.

(** The state after a write, in terms of what the buffer became. *)
Lemma tees_write m b takes bw w full s' :
  tees m bw w full →
  let s := commit (statusCode (bs bw)) (rw_header w) (bs bw) in
  same_commit s s' → byte_len (buf s') ≤ m →
  (full = true → (rw_Write b takes w).1 = String.length b → holds m s' (out w ++ b)%string) →
  tees m (MkBW (rw_Write b takes w).2 s' (maxBody bw)) (rw_Write b takes w).2
    (full && bool_decide ((rw_Write b takes w).1 = String.length b)).
Proof.
  intros [Hu Hm Hl Hc Hh] s (Hs1&Hs2&Hs3) Hl' Hh'.
  destruct (commit_spec (statusCode (bs bw)) (rw_header w) (bs bw)) as (_&_&Hd&Hkeep&Hnew). fold s in Hd, Hkeep, Hnew.
  destruct (begin_body_sent w) as (c&h&Hsent&Hout&Hcase).
  constructor; cbn [under maxBody bs rw_Write fst snd sent out]; try done.
  - rewrite Hsent, Hs1, Hs2, Hs3. split; [done|].
    destruct Hcase as [(Hw&->&->)|Hw]; rewrite Hw in Hc; destruct Hc as [Hdc Hc].
    + destruct (Hnew Hdc) as [-> ->]. by rewrite Hc.
    + rewrite (Hkeep Hdc). by destruct Hc.
  - intros [Hf Hn]%andb_prop. apply bool_decide_eq_true in Hn. specialize (Hh' Hf Hn).
    cbn [rw_Write fst] in Hn. rewrite Hn, Hout, byte_take_all. done.
Qed.

Lemma tees_step m op bw w full :
  0 < m → op ≠ OpWriteHeader 101 → (op = OpFlush → is_Some (sent w)) → tees m bw w full →
  match rw_step op w with
  | None => bw_step op bw = None
  | Some (w', f) => ∃ bw', bw_step op bw = Some bw' ∧ tees m bw' w' (full && f)
  end.
Proof.
  intros Hm0 Hop Hflush Ht. pose proof (te_max _ _ _ _ Ht) as Hmx. subst m.
  destruct op as [k v|k v|k|k vs|code|b takes|chunks takes|]; cbn [rw_step bw_step];
    rewrite ?andb_true_r; try (eexists; split; [done|]; by apply tees_header).
  - assert (code ≠ 101) by congruence. pose proof (tees_writeHeader _ code bw w full ltac:(done) Ht) as H1.
    destruct (rw_WriteHeader code w); [|done]. by rewrite andb_true_r.
  - assert (Hu := te_under _ _ _ _ Ht). unfold writeHook. rewrite Hu.
    pose proof (commit_spec (statusCode (bs bw)) (rw_header w) (bs bw)) as (Hb&Ho&_).
    destruct (appendToBuffer_spec (byte_take (rw_Write b takes w).1 b) (maxBody bw)
      (commit (statusCode (bs bw)) (rw_header w) (bs bw)) (out w) Hm0) as (H1&H2&H3);
      [rewrite Hb; apply Ht|].
    eexists. split; [reflexivity|]. eapply tees_write; [done|exact H1|done|].
    intros Hf Hn. rewrite Hn, byte_take_all in H3.
    assert (Hs : appendToBuffer (byte_take (rw_Write b takes w).1 b) = appendToBuffer b) by (by rewrite Hn, byte_take_all).
    cbn [rw_Write fst] in Hs. rewrite Hs. apply H3. unfold holds. rewrite Ho, Hb. by apply (te_holds _ _ _ _ Ht).
  - assert (Hu := te_under _ _ _ _ Ht). unfold readFromHook. rewrite Hu.
    pose proof (commit_spec (statusCode (bs bw)) (rw_header w) (bs bw)) as (Hb&Ho&_).
    set (s := commit _ _ _) in *.
    assert (Hold : full = true → holds (maxBody bw) s (out w)).
    { intros Hf. unfold holds. rewrite Ho, Hb. by apply (te_holds _ _ _ _ Ht). }
    eexists. split; [reflexivity|]. eapply tees_write; [done|..].
    all: destruct (oversized s || _) eqn:Hov.
    all: try (destruct (append_chunks_spec chunks (maxBody bw) s (out w) Hm0 ltac:(rewrite Hb; apply Ht)) as (H1&H2&H3)).
    + done.
    + exact H1.
    + cbn. rewrite Hb. apply Ht.
    + done.
    + intros Hf _. specialize (Hold Hf). unfold holds in *. cbn. rewrite byte_len_append.
      apply orb_prop in Hov as [Hov|Hov]; [rewrite Hov in Hold; unfold byte_len in *; lia|]. bools.
      destruct (oversized s); [unfold byte_len in *; lia|]. rewrite <- Hold. unfold byte_len in *. lia.
    + intros Hf _. by apply H3, Hold.
  - assert (Hb : begin_body w = w) by (unfold begin_body; by rewrite bool_decide_true by auto).
    eexists. split; [done|]. destruct Ht as [Hu Hmx Hl Hc Hh]. rewrite Hu, Hb. by split.
Qed.

Lemma tees_run m ops bw w full :
  0 < m → orderly ops w = true → tees m bw w full →
  match rw_run ops w with
  | None => bw_run ops bw = None
  | Some (w', f) => ∃ bw', bw_run ops bw = Some bw' ∧ tees m bw' w' (full && f)
  end.
Proof.
  intros Hm. revert bw w full. induction ops as [|op ops IH]; intros bw w full Hops Ht; cbn.
  { exists bw. by rewrite andb_true_r. }
  cbn [orderly] in Hops. apply andb_prop in Hops as [Hop Hops].
  assert (Hne : op ≠ OpWriteHeader 101) by (by intros ->).
  assert (Hfl : op = OpFlush → is_Some (sent w)) by (intros ->; by apply bool_decide_eq_true in Hop).
  pose proof (tees_step m op bw w full Hm Hne Hfl Ht) as H1.
  destruct (rw_step op w) as [[w1 f1]|]; [|by rewrite H1].
  destruct H1 as (bw1&->&Ht1). specialize (IH bw1 w1 _ Hops Ht1).
  destruct (rw_run ops w1) as [[w2 f2]|]; [|done]. destruct IH as (bw2&->&Ht2).
  exists bw2. split; [done|]. by rewrite andb_assoc.
Qed.

Lemma tees_new m w : 0 < m → sent w = None → out w = "" → tees m (newBufferingWriter w m) w true.
Proof. intros Hm Hs Ho. constructor; cbn; [done|done|unfold byte_len; cbn; lia|by rewrite Hs|by rewrite Ho]. Qed.

(** the tee is invisible to the client and remembers what the client saw.
    Whatever calls a handler makes that does not switch protocols and flushes only
    after it has sent a status, the connection below receives exactly what it
    would have received without the tee; the tee has committed exactly when a
    status was sent, and holds that status and the headers sent with it; its
    buffer never exceeds the limit; and unless a write was cut short it holds
    exactly the body sent, or has noticed a body that reached the limit. *)
Theorem tee_writer_faithful ops w m :
  0 < m → sent w = None → out w = "" → orderly ops w = true →
  match rw_run ops w with
  | None => bw_run ops (newBufferingWriter w m) = None
  | Some (w', full) =>
      ∃ bw, bw_run ops (newBufferingWriter w m) = Some bw ∧ under bw = w' ∧
        byte_len (buf (bs bw)) ≤ m ∧
        sent w' = (if didCommit (bs bw) then Some (statusCode (bs bw), capturedHeader (bs bw)) else None) ∧
        (full = true → if oversized (bs bw) then m ≤ byte_len (out w') else buf (bs bw) = out w')
  end.
Proof.
  intros Hm Hs Ho Hops. pose proof (tees_run m ops _ w true Hm Hops (tees_new m w Hm Hs Ho)) as Hrun.
  destruct (rw_run ops w) as [[w' full]|]; [|done]. destruct Hrun as (bw&Hbw&[Hu Hmx Hl Hc Hh]).
  exists bw. split_and!; [done..| |done]. unfold capturedHeader.
  destruct (sent w') as [[c h]|]; [by destruct Hc as (->&->&->)|by destruct Hc as [-> _]].
Qed.

Lemma tee_writer_faithful_witness :
  let ops := [OpWriteHeader 103; OpSet "content-type" "text/plain"; OpWriteHeader 201; OpWrite "ab" 2;
              OpFlush; OpReadFrom ["c"; "d"] 2] in
  ∃ bw, bw_run ops (newBufferingWriter (MkRW ∅ None "") 10) = Some bw ∧ buf (bs bw) = "abcd" ∧
    sent (under bw) = Some (201, {["Content-Type" := ["text/plain"]]}).
Proof.
  intros ops.
  pose proof (tee_writer_faithful ops (MkRW ∅ None "") 10 ltac:(lia) eq_refl eq_refl
    eq_refl) as H.
  set (r := rw_run ops _) in H. vm_compute in r. subst r. cbn iota in H.
  destruct H as (bw&Hbw&Hu&_&_&Hfull). exists bw. split; [exact Hbw|]. rewrite Hu. split; [|by vm_compute].
  specialize (Hfull eq_refl). injection Hbw as <-. by vm_compute.
Defined.

(** A body of exactly the limit followed by an empty write counts as too large. *)
Lemma exact_limit_oversized w b h :
  sent w = None → b ≠ "" →
  bw_run [OpWrite b (String.length b); OpWrite "" h] (newBufferingWriter w (byte_len b))
  = Some (MkBW (MkRW (rw_header w) (Some (200, rw_header w)) (out w ++ b ++ "")%string)
            (MkBuffering 200 b (Some (rw_header w)) true true) (byte_len b)).
Proof.
  intros Hs Hb. assert (0 < byte_len b) by (destruct b; [done|unfold byte_len; cbn; lia]).
  unfold bw_run, bw_step, writeHook, newBufferingWriter, rw_Write, begin_body, commit, appendToBuffer.
  cbn. rewrite Hs. cbn. rewrite Nat.min_id, byte_take_all, Nat.min_0_r. unfold byte_take. cbn.
  change (byte_len "") with 0. rewrite Z.sub_0_r.
  destruct (byte_len b <=? 0) eqn:?; bools; [lia|]. rewrite Z.leb_refl. cbn.
  rewrite Z.sub_diag. cbn. by rewrite append_assoc.
Qed.
