(* ===== verification/HttpIdemStore.v ===== *)
(** * runtime/http/idempotency: keys, recorded responses and the in-memory store

    [MemStore] maps a key to a lease with its fencing token or to a recorded
    response; each method is one atomic operation.  Receipts live in a list next
    to the map and are named by their position.  The middleware sees the store
    through the class [IdemStore]. *)

From Stdlib Require Import Ascii String.
From S2P Require Import Prelude GoJson IdUtil Idempotency HttpWriter.

(** ** key.go *)

Definition NUL : ascii := "000".

Record IdempotencyKey := MkKey { Namespace : string; Key : string }.

Definition noTenantSentinel : string := "_notenant".

Definition Flat (k : IdempotencyKey) : string := (Namespace k ++ String NUL (Key k))%string.

Definition DeriveKey (tenantID subject method path idemKey : string) : IdempotencyKey :=
  let ns := if tenantID ==s "" then noTenantSentinel else tenantID in
  MkKey ns (subject ++ String NUL (method ++ String NUL (path ++ String NUL idemKey)))%string.

Definition DeriveCommandKey (tenantID subject commandID : string) : IdempotencyKey :=
  let ns := if tenantID ==s "" then noTenantSentinel else tenantID in
  MkKey ns (subject ++ String NUL commandID)%string.

(** ** recorded_response.go *)

Record RecordedResponse := MkRecorded {
  rr_status : Z;
  rr_body : bytes;
  rr_header : header;
  rr_recordedAt : Time;
}.

Definition newRecordedResponse (now : Time) (status : Z) (body : bytes) (h : header) : RecordedResponse :=
  MkRecorded status body h now.

(** ** The store as the middleware sees it *)

(** The errors of [Claim]: a [FingerprintMismatchError] with the stored
    fingerprint, or any other. *)
Inductive claim_error : Type :=
  | FingerprintMismatch (stored : string)
  | ClaimFailed (err : goerror).

Inductive receipt : Type := noopReceipt | memReceipt (i : nat).

Class IdemStore (S : Type) := {
  st_Claim : S → Time → list Z → IdempotencyKey → string → Duration →
             (claim_error + ClaimState * option RecordedResponse * receipt) * S;
  st_Record : S → receipt → Time → Time → RecordedResponse → Duration → outcome unit * S;
  st_Release : S → receipt → outcome unit * S;
}.

(** ** mem_store.go *)

Module MemStore.
Record memEntry := MkMemEntry {
  leaseToken : string;
  leaseExpiry : Time;
  recorded : option RecordedResponse;
  doneExpiry : Time;
  fingerprint : string;
}.

Record memReceiptState := MkReceiptState { composed : string; rc_token : string; settled : bool }.

Record store := MkStore { entries : gmap string memEntry; receipts : list memReceiptState }.

Definition NewMemStore : store := MkStore ∅ [].

Definition fpMismatch (stored incoming : string) : bool :=
  negb (stored ==s "") && negb (incoming ==s "") && negb (stored ==s incoming).

Definition done_at (e : memEntry) (now : Time) : bool :=
  bool_decide (is_Some (recorded e)) && Before now (doneExpiry e).
Definition leased_at (e : memEntry) (now : Time) : bool :=
  negb (leaseToken e ==s "") && Before now (leaseExpiry e).

Definition checkFingerprintEntry (e : memEntry) (incoming : string) (now : Time) : option claim_error :=
  if (done_at e now || leased_at e now) && fpMismatch (fingerprint e) incoming
  then Some (FingerprintMismatch (fingerprint e)) else None.

(** [io.ReadFull] on 16 bytes of the random source. *)
Definition generateToken (entropy : list Z) : outcome string :=
  if bool_decide (length entropy = 16%nat) then Ok (hex_bytes entropy)
  else Err (Errorf "rand read" (ErrorsNew "unexpected EOF")).

(** A fresh lease. *)
Definition acquire (ms : store) (now : Time) (entropy : list Z) (c fp : string) (leaseTTL : Duration)
    : (claim_error + ClaimState * option RecordedResponse * receipt) * store :=
  match generateToken entropy with
  | Err e => (inl (ClaimFailed (Errorf "idempotency.MemStore: generate token" e)), ms)
  | Ok tok =>
      (inr (ClaimAcquired, None, memReceipt (length (receipts ms))),
       MkStore (<[c := MkMemEntry tok (now + leaseTTL) None 0 fp]> (entries ms))
         (receipts ms ++ [MkReceiptState c tok false]))
  end.

Definition Claim (ms : store) (now : Time) (entropy : list Z) (k : IdempotencyKey) (fp : string) (leaseTTL : Duration)
    : (claim_error + ClaimState * option RecordedResponse * receipt) * store :=
  if (Namespace k ==s "") || (Key k ==s "")
  then (inl (ClaimFailed (Assertion "idempotency.MemStore: IdempotencyKey namespace and key must be non-empty")), ms)
  else
    let c := (Namespace k ++ String NUL (Key k))%string in
    match entries ms !! c with
    | None => acquire ms now entropy c fp leaseTTL
    | Some e =>
        match checkFingerprintEntry e fp now with
        | Some err => (inl err, ms)
        | None =>
            if done_at e now then (inr (ClaimDone, recorded e, noopReceipt), ms)
            else if leased_at e now then (inr (ClaimBusy, None, noopReceipt), ms)
            else acquire (MkStore (delete c (entries ms)) (receipts ms)) now entropy c fp leaseTTL
        end
    end.

Definition settle_receipt (ms : store) (i : nat) (r : memReceiptState) : list memReceiptState :=
  <[i := MkReceiptState (composed r) (rc_token r) true]> (receipts ms).

Definition Record_ (ms : store) (rc : receipt) (now now' : Time) (resp : RecordedResponse) (doneTTL : Duration)
    : outcome unit * store :=
  match rc with
  | noopReceipt => (Err ErrNoClaimLease, ms)
  | memReceipt i =>
      match receipts ms !! i with
      | None => (Err ErrNoClaimLease, ms)
      | Some r =>
          if settled r then (Err ErrLeaseExpired, ms)
          else
            let rs := settle_receipt ms i r in
            match entries ms !! composed r with
            | None => (Err ErrLeaseExpired, MkStore (entries ms) rs)
            | Some e =>
                if negb (leaseToken e ==s rc_token r) then (Err ErrLeaseExpired, MkStore (entries ms) rs)
                else
                  let stored := newRecordedResponse now' (rr_status resp) (rr_body resp) (rr_header resp) in
                  (Ok tt, MkStore (<[composed r := MkMemEntry "" 0 (Some stored) (now + doneTTL) (fingerprint e)]>
                                     (entries ms)) rs)
            end
      end
  end.

Definition Release (ms : store) (rc : receipt) : outcome unit * store :=
  match rc with
  | noopReceipt => (Err ErrNoClaimLease, ms)
  | memReceipt i =>
      match receipts ms !! i with
      | None => (Err ErrNoClaimLease, ms)
      | Some r =>
          if settled r then (Ok tt, ms)
          else
            let rs := settle_receipt ms i r in
            match entries ms !! composed r with
            | None => (Err ErrLeaseExpired, MkStore (entries ms) rs)
            | Some e =>
                if negb (leaseToken e ==s rc_token r) then (Err ErrLeaseExpired, MkStore (entries ms) rs)
                else (Ok tt, MkStore (delete (composed r) (entries ms)) rs)
            end
      end
  end.
End MemStore.

#[global] Instance MemStore_IdemStore : IdemStore MemStore.store := {
  st_Claim := MemStore.Claim;
  st_Record := MemStore.Record_;
  st_Release := MemStore.Release;
}.

(** ** Keys do not collide *)

Abbreviation no_nul := (lacks NUL).

(** What identity providers grant: no NUL, and no tenant of the reserved name. *)
Definition clean_scope (tenantID subject : string) : bool :=
  no_nul tenantID && no_nul subject && negb (tenantID ==s noTenantSentinel).

Lemma namespace_inj t t' k k' :
  no_nul t = true → no_nul t' = true → t ≠ noTenantSentinel → t' ≠ noTenantSentinel →
  Flat (MkKey (if t ==s "" then noTenantSentinel else t) k) = Flat (MkKey (if t' ==s "" then noTenantSentinel else t') k') →
  t = t' ∧ k = k'.
Proof.
  intros Ht Ht' Hs Hs' He.
  assert (Hn : ∀ t, no_nul t = true → no_nul (if t ==s "" then noTenantSentinel else t) = true) by (intros u Hu; by destruct (u ==s "")).
  unfold Flat in He. cbn [Namespace Key] in He. apply split_first in He as [He ->]; [|by apply Hn..]. split; [|done]. unfold str_eqb in He.
  repeat case_bool_decide; congruence.
Qed.

Lemma DeriveKey_inj t s m p k t' s' m' p' k' :
  clean_scope t s = true → clean_scope t' s' = true → no_nul m = true → no_nul m' = true →
  no_nul k = true → no_nul k' = true →
  Flat (DeriveKey t s m p k) = Flat (DeriveKey t' s' m' p' k') → t = t' ∧ s = s' ∧ m = m' ∧ p = p' ∧ k = k'.
Proof.
  intros [[Ht Hs]%andb_prop Hr]%andb_prop [[Ht' Hs']%andb_prop Hr']%andb_prop Hm Hm' Hk Hk' He. bools.
  unfold DeriveKey in He. apply namespace_inj in He as [-> He]; [|done..].
  apply split_first in He as [-> He]; [|done..]. apply split_first in He as [-> He]; [|done..].
  by apply split_last in He as [-> ->].
Qed.

Lemma DeriveCommandKey_apart t s m p k t' s' id :
  clean_scope t s = true → clean_scope t' s' = true → no_nul id = true →
  Flat (DeriveKey t s m p k) ≠ Flat (DeriveCommandKey t' s' id).
Proof.
  intros [[Ht Hs]%andb_prop Hr]%andb_prop [[Ht' Hs']%andb_prop Hr']%andb_prop Hid He. bools.
  unfold DeriveKey, DeriveCommandKey in He. apply namespace_inj in He as [-> He]; [|done..].
  apply split_first in He as [-> <-]; [|done..]. by rewrite lacks_sep in Hid.
Qed.
