(* ===== verification/HttpFingerprint.v ===== *)
(** * runtime/http/idempotency: request fingerprints

    The fingerprint of a request body (its hash and the hashes of its top-level
    JSON fields) and the field-by-field difference of two of them, from
    middleware.go, with what it uses of [json.Unmarshal]: the fields of an object
    in the order of the text, with the text of each value, and Go's unquoting of
    strings.  SHA-256 is an argument. *)

From Stdlib Require Import Ascii String.
From S2P Require Import Prelude GoJson Base64 JsonText IdUtil.

(** ** json.Unmarshal of an object *)

Definition hex4 (h1 h2 h3 h4 : ascii) : option Z :=
  match hex_val h1, hex_val h2, hex_val h3, hex_val h4 with
  | Some a, Some b, Some c, Some d => Some (4096 * a + 256 * b + 16 * c + d)
  | _, _, _, _ => None
  end.

Definition in_block (lo hi r : Z) : bool := (lo <=? r) && (r <? hi).

(** [utf8.AppendRune]; a surrogate half becomes U+FFFD. *)
Definition encode_rune (r : Z) : string :=
  if in_block 55296 57344 r then utf8_encode 65533
  else if r <? 65536 then utf8_encode r
  else String (chr (240 + r / 262144))
         (String (chr (128 + (r / 4096) mod 64))
            (String (chr (128 + (r / 64) mod 64)) (String (chr (128 + r mod 64)) EmptyString))).

(** A pair of surrogate halves is one character; [utf16.DecodeRune]. *)
Definition surrogate_pair (r r1 : Z) : option Z :=
  if in_block 55296 56320 r && in_block 56320 57344 r1
  then Some ((r - 55296) * 1024 + (r1 - 56320) + 65536) else None.

(** [unquoteBytes] after the opening quote: the string and the text after the
    closing quote.  Bytes outside well-formed UTF-8 become U+FFFD. *)
Fixpoint unquote (s : string) : option (string * string) :=
  match s with
  | EmptyString => None
  | String c s1 =>
      if (c =? quote)%char then Some (EmptyString, s1)
      else if (c =? "\")%char then
        match s1 with
        | String e s2 =>
            if (e =? "u")%char then
              match s2 with
              | String h1 (String h2 (String h3 (String h4 s3))) =>
                  match hex4 h1 h2 h3 h4 with
                  | None => None
                  | Some r =>
                      let single := push (encode_rune r) (unquote s3) in
                      match s3 with
                      | String b1 (String u1 (String k1 (String k2 (String k3 (String k4 s4))))) =>
                          if (b1 =? "\")%char && (u1 =? "u")%char then
                            match hex4 k1 k2 k3 k4 with
                            | Some r1 =>
                                match surrogate_pair r r1 with
                                | Some dec => push (encode_rune dec) (unquote s4)
                                | None => single
                                end
                            | None => single
                            end
                          else single
                      | _ => single
                      end
                  end
              | _ => None
              end
            else match simple_escape e with
                 | Some b => push (String b EmptyString) (unquote s2)
                 | None => None
                 end
        | EmptyString => None
        end
      else if byte_val c <? 128 then push (String c EmptyString) (unquote s1)
      else
        match rune_size c s1, s1 with
        | 2%nat, String c1 s2 => push (String c (String c1 EmptyString)) (unquote s2)
        | 3%nat, String c1 (String c2 s3) => push (String c (String c1 (String c2 EmptyString))) (unquote s3)
        | 4%nat, String c1 (String c2 (String c3 s4)) =>
            push (String c (String c1 (String c2 (String c3 EmptyString)))) (unquote s4)
        | _, _ => push (utf8_encode 65533) (unquote s1)
        end
  end.

Fixpoint skip_spaces (s : string) : string :=
  match s with
  | String c s1 => if is_json_space c then skip_spaces s1 else s
  | EmptyString => s
  end.

Definition push_char (c : ascii) (r : string * string) : string * string := (String c r.1, r.2).

(** The rest of a string literal, closing quote included. *)
Fixpoint take_string (escaped : bool) (s : string) : string * string :=
  match s with
  | EmptyString => (EmptyString, EmptyString)
  | String c s1 =>
      if escaped then push_char c (take_string false s1)
      else if (c =? "\")%char then push_char c (take_string true s1)
      else if (c =? quote)%char then (String c EmptyString, s1)
      else push_char c (take_string false s1)
  end.

(** A number or a literal ends before a separator. *)
Fixpoint take_scalar (s : string) : string * string :=
  match s with
  | EmptyString => (EmptyString, EmptyString)
  | String c s1 =>
      if is_json_space c || bool_decide (c ∈ [","; "}"; "]"]%char) then (EmptyString, s)
      else push_char c (take_scalar s1)
  end.

(** The rest of an object or array at nesting [depth], outside or inside a
    string. *)
Fixpoint take_compound (depth : nat) (in_string escaped : bool) (s : string) : string * string :=
  match s with
  | EmptyString => (EmptyString, EmptyString)
  | String c s1 =>
      if in_string then
        push_char c (take_compound depth (escaped || negb (c =? quote)%char) (negb escaped && (c =? "\")%char) s1)
      else if (c =? quote)%char then push_char c (take_compound depth true false s1)
      else if bool_decide (c ∈ ["{"; "["]%char) then push_char c (take_compound (S depth) false false s1)
      else if bool_decide (c ∈ ["}"; "]"]%char) then
        match depth with
        | O => (String c EmptyString, s1)
        | S d => push_char c (take_compound d false false s1)
        end
      else push_char c (take_compound depth false false s1)
  end.

(** The text of the value at the start of [s], as a [json.RawMessage] keeps it,
    and what follows it. *)
Definition take_value (s : string) : string * string :=
  match s with
  | EmptyString => (EmptyString, EmptyString)
  | String c s1 =>
      if (c =? quote)%char then push_char c (take_string false s1)
      else if bool_decide (c ∈ ["{"; "["]%char) then push_char c (take_compound 0 false false s1)
      else take_scalar s
  end.

(** The fields after the opening brace or after a comma, one per unit of fuel. *)
Fixpoint object_fields (fuel : nat) (s : string) : list (string * bytes) :=
  match fuel with
  | O => []
  | S fuel' =>
      match skip_spaces s with
      | String c s1 =>
          if (c =? quote)%char then
            match unquote s1 with
            | Some (name, s2) =>
                match skip_spaces s2 with
                | String _ s3 =>                       (* the colon *)
                    let '(raw, s4) := take_value (skip_spaces s3) in
                    (name, raw) ::
                    match skip_spaces s4 with
                    | String d s5 => if (d =? ",")%char then object_fields fuel' s5 else []
                    | EmptyString => []
                    end
                | EmptyString => []
                end
            | None => []
            end
          else []
      | EmptyString => []
      end
  end.

(** [json.Unmarshal] into a map or a struct: the fields in order, [None] for an
    error.  JSON null leaves the target as it is.  A field takes more than one
    byte, so the length is fuel enough. *)
Definition unmarshal_fields (b : bytes) : option (list (string * bytes)) :=
  if negb (json_Valid b) then None
  else
    match skip_spaces b with
    | String c s1 =>
        if (c =? "{")%char then Some (object_fields (String.length s1) s1)
        else if (c =? "n")%char then Some []
        else None
    | EmptyString => None
    end.

(** Into [map[string]T]: the last of several fields with one name counts. *)
Definition fields_map {A} (l : list (string * A)) : gmap string A :=
  foldl (λ m kv, <[kv.1 := kv.2]> m) ∅ l.

(** A string value: [None] is a type error, [Some None] is null. *)
Definition decode_string (raw : bytes) : option (option string) :=
  match raw with
  | String c s1 =>
      if (c =? quote)%char then match unquote s1 with Some (t, _) => Some (Some t) | None => None end
      else if (c =? "n")%char then Some None
      else None
  | EmptyString => None
  end.

Section fingerprint.
Context (hashHex : bytes → string).

Definition hashHexLen : Z := 64.
Definition maxFingerprintFieldsBytes : Z := 8192.

Record fingerprintBlob := MkBlob { Body : string; Fields : gmap string string }.

(** The loop of [fieldHashes] over the map, in the order [kvs] Go picks. *)
Fixpoint range_fields (kvs : list (string * bytes)) (size : Z) (acc : gmap string string)
    : option (gmap string string) :=
  match kvs with
  | [] => Some acc
  | (k, raw) :: rest =>
      let size := size + (byte_len k + hashHexLen) in
      if size >? maxFingerprintFieldsBytes then None
      else range_fields rest size (<[k := hashHex raw]> acc)
  end.

(** [None] is the nil map. *)
Definition fieldHashes (body : bytes) : option (gmap string string) :=
  match unmarshal_fields body with
  | None => None
  | Some l => range_fields (map_to_list (fields_map l)) 0 ∅
  end.

(** [json.Marshal]: map keys sorted, an empty map left out. *)
Fixpoint json_fields (l : list (string * string)) : string :=
  match l with
  | [] => ""
  | [(k, v)] => (json_string k ++ ":" ++ json_string v)%string
  | (k, v) :: rest => (json_string k ++ ":" ++ json_string v ++ "," ++ json_fields rest)%string
  end.

Definition sorted_fields (m : gmap string string) : list (string * string) :=
  sort_Slice (λ a b, String.ltb a.1 b.1) (map_to_list m).

Definition encode_blob (b : fingerprintBlob) : string :=
  ("{" ++ json_string "b" ++ ":" ++ json_string (Body b) ++
   (if bool_decide (Fields b = ∅) then "}"
    else "," ++ json_string "f" ++ ":{" ++ json_fields (sorted_fields (Fields b)) ++ "}}"))%string.

Definition computeFingerprint (body : bytes) : string :=
  encode_blob (MkBlob (hashHex body) (default ∅ (fieldHashes body))).

(** The fields of a [map[string]string]; null values are empty strings. *)
Fixpoint decode_strings (l : list (string * bytes)) : option (list (string * string)) :=
  match l with
  | [] => Some []
  | (k, raw) :: rest =>
      match decode_string raw, decode_strings rest with
      | Some v, Some r => Some ((k, default "" v) :: r)
      | _, _ => None
      end
  end.

(** One field of the struct; names match without regard to case. *)
Definition decode_field (blob : fingerprintBlob) (kv : string * bytes) : option fingerprintBlob :=
  let '(k, raw) := kv in
  if (k ==s "b") || (k ==s "B") then
    match decode_string raw with
    | Some (Some s) => Some (MkBlob s (Fields blob))
    | Some None => Some blob
    | None => None
    end
  else if (k ==s "f") || (k ==s "F") then
    match skip_spaces raw with
    | String c s1 =>
        if (c =? "{")%char then
          match decode_strings (object_fields (String.length s1) s1) with
          | Some l => Some (MkBlob (Body blob) (foldl (λ m kv, <[kv.1 := kv.2]> m) (Fields blob) l))
          | None => None
          end
        else if (c =? "n")%char then Some (MkBlob (Body blob) ∅)
        else None
    | EmptyString => None
    end
  else Some blob.

Definition decode_blob (l : list (string * bytes)) : option fingerprintBlob :=
  foldl (λ r kv, match r with Some b => decode_field b kv | None => None end) (Some (MkBlob "" ∅)) l.

(** An undecodable text is an empty blob. *)
Definition parseFingerprint (s : string) : fingerprintBlob :=
  default (MkBlob "" ∅) (match unmarshal_fields s with Some l => decode_blob l | None => None end).

Definition diffFields (storedBlob incomingBlob : string) : list string :=
  let stored := Fields (parseFingerprint storedBlob) in
  let incoming := Fields (parseFingerprint incomingBlob) in
  let changed := filter (λ kv, default "" (stored !! kv.1) ≠ kv.2) (map_to_list incoming) in
  let removed := filter (λ kv, incoming !! kv.1 = None) (map_to_list stored) in
  sort_Slice String.ltb (changed.*1 ++ removed.*1).

Definition maxMismatchedFields : nat := 20.
Definition maxFieldNameLen : nat := 128.

(** [utf8.RuneStart]. *)
Definition RuneStart (c : ascii) : bool := negb (cont_byte c).

(** The loop that backs up to a rune boundary. *)
Fixpoint cut_at (name : string) (cut : nat) : nat :=
  match cut with
  | O => O
  | S cut' => match String.get cut name with
              | Some c => if RuneStart c then cut else cut_at name cut'
              | None => cut
              end
  end.

Definition ellipsis : string := utf8_encode 8230.

Definition truncateFieldName (name : string) : string :=
  if (String.length name <=? maxFieldNameLen)%nat then name
  else (String.substring 0 (cut_at name maxFieldNameLen) name ++ ellipsis)%string.

Inductive PublicDetail : Type :=
  | PublicString (k v : string)
  | PublicBool (k : string) (b : bool).

(** The public details of the 422 answer to a reused key. *)
Definition keyReusedDetailOpts (stored incoming : string) : list PublicDetail :=
  let fields := diffFields stored incoming in
  let details := (λ f, PublicString "mismatchedField" (truncateFieldName f)) <$> take maxMismatchedFields fields in
  if (maxMismatchedFields <? length fields)%nat
  then details ++ [PublicBool "mismatchedFieldsTruncated" true] else details.
End fingerprint.

(** ** Reading back what the encoder wrote *)

Lemma rune_size_2 c c1 s t : rune_size c (String c1 s) = 2%nat → rune_size c (String c1 t) = 2%nat.
Proof.
  cbn. destruct (byte_between 194 223 c); [done|]. destruct s as [|c2 [|c3 s]]; [done|..]; repeat case_match; done.
Qed.

Lemma rune_size_3 c c1 c2 s t :
  rune_size c (String c1 (String c2 s)) = 3%nat → rune_size c (String c1 (String c2 t)) = 3%nat.
Proof.
  cbn. destruct (byte_between 194 223 c); [by destruct (cont_byte c1)|]. destruct (byte_between 224 239 c); [done|].
  destruct s; [done|]. by destruct (_ && _).
Qed.

Lemma rune_size_4 c c1 c2 c3 s t :
  rune_size c (String c1 (String c2 (String c3 s))) = 4%nat → rune_size c (String c1 (String c2 (String c3 t))) = 4%nat.
Proof. done. Qed.

Lemma unquote_byte c t : high c → unquote (String c t) =
  match rune_size c t, t with
  | 2%nat, String c1 s2 => push (String c (String c1 EmptyString)) (unquote s2)
  | 3%nat, String c1 (String c2 s3) => push (String c (String c1 (String c2 EmptyString))) (unquote s3)
  | 4%nat, String c1 (String c2 (String c3 s4)) =>
      push (String c (String c1 (String c2 (String c3 EmptyString)))) (unquote s4)
  | _, _ => push (utf8_encode 65533) (unquote t)
  end.
Proof. unfold high. intros Hc. destruct c as [[] [] [] [] [] [] [] []]; done. Qed.

Lemma unquote_u h1 h2 h3 h4 r t :
  hex4 h1 h2 h3 h4 = Some r → in_block 55296 56320 r = false →
  unquote (String "\" (String "u" (String h1 (String h2 (String h3 (String h4 t))))))
  = push (encode_rune r) (unquote t).
Proof.
  intros Hr Hs. cbn [unquote]. change ("\" =? quote)%char with false. change ("\" =? "\")%char with true.
  change ("u" =? "u")%char with true. cbv iota. rewrite Hr.
  assert (Hn : ∀ r1, surrogate_pair r r1 = None) by (intros r1; unfold surrogate_pair; by rewrite Hs).
  destruct t as [|b1 [|u1 [|k1 [|k2 [|k3 [|k4 s4]]]]]]; try done.
  destruct (_ && _); [|done]. destruct (hex4 k1 k2 k3 k4); [|done]. by rewrite Hn.
Qed.

Lemma unquote_escaped c t : (byte_val c <? 128) = true →
  unquote (escape_ascii c ++ t)%string = push (String c EmptyString) (unquote t).
Proof.
  destruct c as [[] [] [] [] [] [] [] []]; try done; intros _;
    first [done
      |match goal with |- unquote (?a ++ t)%string = _ => let v := eval vm_compute in a in change a with v end;
       rewrite !append_String, append_Empty; erewrite unquote_u by (vm_compute; reflexivity); reflexivity].
Qed.

Lemma unquote_line_separator c c1 c2 t : line_separator c c1 c2 = true →
  unquote ("\u202" ++ String (lower_hex (byte_val c2 mod 16)) EmptyString ++ t)%string =
  push (String c (String c1 (String c2 EmptyString))) (unquote t).
Proof.
  unfold line_separator, byte_between. intros Hl.
  apply andb_prop in Hl as [[H H1]%andb_prop [Hlo Hhi]%andb_prop].
  rewrite <- (chr_val c), <- (chr_val c1), <- (chr_val c2).
  replace (byte_val c) with 226 by lia. replace (byte_val c1) with 128 by lia.
  assert (byte_val c2 = 168 ∨ byte_val c2 = 169) as [->| ->] by lia;
    rewrite !append_String, !append_Empty; by erewrite unquote_u by (vm_compute; reflexivity).
Qed.

Definition prep (p : string) (r : string * string) : string * string := ((p ++ r.1)%string, r.2).

Lemma prep_prep a b r : prep a (prep b r) = prep (a ++ b)%string r.
Proof. unfold prep. cbn. by rewrite append_assoc. Qed.

(** Text inside a string literal: no quote ends it. *)
Definition inside (o : string) : Prop :=
  ∀ t, take_string false (o ++ t)%string = prep o (take_string false t) ∧
       ∀ d, take_compound d true false (o ++ t)%string = prep o (take_compound d true false t).

Lemma inside_app a b : inside a → inside b → inside (a ++ b)%string.
Proof.
  intros Ha Hb t. rewrite append_assoc. destruct (Ha (b ++ t)%string) as [Ha1 Ha2], (Hb t) as [Hb1 Hb2].
  split; [by rewrite Ha1, Hb1, prep_prep|]. intros d. by rewrite Ha2, Hb2, prep_prep.
Qed.

Lemma inside_ascii c : (byte_val c <? 128) = true → inside (escape_ascii c).
Proof. intros Hc t. destruct c as [[] [] [] [] [] [] [] []]; done. Qed.

Lemma inside_high c o : high c → inside o → inside (String c o).
Proof.
  intros Hc Ho. change (String c o) with (String c EmptyString ++ o)%string. apply inside_app; [|done].
  intros t. unfold high in Hc. destruct c as [[] [] [] [] [] [] [] []]; done.
Qed.

Lemma inside_nil : inside EmptyString.
Proof. intros t. unfold prep. cbn. split; [by destruct (take_string _ _)|intros d; by destruct (take_compound _ _ _ _)]. Qed.

(** One step of the encoder, seen by the decoder and by the two skippers. *)
Lemma escape_step s :
  s = EmptyString ∨
  ∃ out p rest, json_escape s = (out ++ json_escape rest)%string ∧ to_valid s = (p ++ to_valid rest)%string ∧
    (String.length rest < String.length s)%nat ∧
    (∀ t, unquote (out ++ t)%string = push p (unquote t)) ∧ inside out.
Proof.
  destruct s as [|c s1]; [by left|]. right. cbn [json_escape to_valid].
  destruct (byte_val c <? 128) eqn:Hc.
  { exists (escape_ascii c), (String c EmptyString), s1.
    split_and!; [done|done|cbn; lia|intros; by apply unquote_escaped|by apply inside_ascii]. }
  assert (Hrep : ∃ out p rest, ("\ufffd" ++ json_escape s1)%string = (out ++ json_escape rest)%string ∧
    (utf8_encode 65533 ++ to_valid s1)%string = (p ++ to_valid rest)%string ∧
    (String.length rest < String.length (String c s1))%nat ∧
    (∀ t, unquote (out ++ t)%string = push p (unquote t)) ∧ inside out).
  { exists "\ufffd"%string, (utf8_encode 65533), s1. split_and!; [done|done|cbn; lia| |by intros t].
    intros t. rewrite !append_String, append_Empty. by erewrite unquote_u by (vm_compute; reflexivity). }
  pose proof (rune_size_high c s1) as Hh.
  destruct (rune_size c s1) as [|[|[|[|[|n]]]]] eqn:Hr; try apply Hrep.
  - destruct s1 as [|c1 s2]; [apply Hrep|].
    exists (String c (String c1 EmptyString)), (String c (String c1 EmptyString)), s2.
    split_and!; [done|done|cbn; lia| |by repeat apply inside_high, inside_high, inside_nil].
    intros t. rewrite !append_String, append_Empty, unquote_byte by done. by rewrite (rune_size_2 _ _ _ _ Hr).
  - destruct s1 as [|c1 [|c2 s3]]; [apply Hrep..|]. destruct Hh as [Hh1 Hh2].
    destruct (line_separator c c1 c2) eqn:Hl.
    + exists ("\u202" ++ String (lower_hex (byte_val c2 mod 16)) EmptyString)%string,
        (String c (String c1 (String c2 EmptyString))), s3.
      split_and!; [done|done|cbn; lia|intros t; rewrite append_assoc; by apply unquote_line_separator|].
      unfold line_separator, byte_between in Hl. apply andb_prop in Hl as [_ Hl].
      assert (byte_val c2 = 168 ∨ byte_val c2 = 169) as [->| ->] by lia; by intros t.
    + exists (String c (String c1 (String c2 EmptyString))), (String c (String c1 (String c2 EmptyString))), s3.
      split_and!; [done|done|cbn; lia| |by repeat apply inside_high; try apply inside_nil].
      intros t. rewrite !append_String, append_Empty, unquote_byte by done. by rewrite (rune_size_3 _ _ _ _ _ Hr).
  - destruct s1 as [|c1 [|c2 [|c3 s4]]]; [apply Hrep..|]. destruct Hh as (?&?&?).
    exists (String c (String c1 (String c2 (String c3 EmptyString)))),
      (String c (String c1 (String c2 (String c3 EmptyString)))), s4.
    split_and!; [done|done|cbn; lia| |by repeat apply inside_high; try apply inside_nil].
    intros t. rewrite !append_String, append_Empty, unquote_byte by done. by rewrite (rune_size_4 _ _ _ _ _ _ Hr).
Qed.

Lemma escape_ind (P : string → Prop) :
  P EmptyString →
  (∀ s out p rest, json_escape s = (out ++ json_escape rest)%string → to_valid s = (p ++ to_valid rest)%string →
     (∀ t, unquote (out ++ t)%string = push p (unquote t)) → inside out → P rest → P s) →
  ∀ s, P s.
Proof.
  intros H0 Hstep s. remember (String.length s) as n eqn:Hn. revert s Hn. induction (lt_wf n) as [n _ IH]. intros s ->.
  destruct (escape_step s) as [->|(out&p&rest&H1&H2&Hlt&H3&H4)]; [done|]. by eapply Hstep, IH.
Qed.

Lemma unquote_escape s rest : unquote (json_escape s ++ String quote rest)%string = Some (to_valid s, rest).
Proof.
  revert s. apply escape_ind; [done|]. intros s out p tl -> -> Hu _ IH. by rewrite append_assoc, Hu, IH.
Qed.

Lemma inside_escape s : inside (json_escape s).
Proof. revert s. apply escape_ind; [apply inside_nil|]. intros s out p tl -> _ _ Ho IH. by apply inside_app. Qed.

Lemma json_string_app s t : (json_string s ++ t)%string = String quote (json_escape s ++ String quote t)%string.
Proof. unfold json_string. by rewrite append_String, append_assoc. Qed.

Lemma take_value_string s t : take_value (json_string s ++ t)%string = (json_string s, t).
Proof.
  rewrite json_string_app. cbn [take_value]. change (quote =? quote)%char with true. cbv iota.
  destruct (inside_escape s (String quote t)) as [-> _]. done.
Qed.

Lemma compound_string d s t :
  take_compound d false false (json_string s ++ t)%string = prep (json_string s) (take_compound d false false t).
Proof.
  rewrite json_string_app. cbn [take_compound]. change (quote =? quote)%char with true. cbv iota.
  destruct (inside_escape s (String quote t)) as [_ Hi]. rewrite Hi. unfold json_string, prep, push_char.
  cbn [take_compound]. change (quote =? quote)%char with true. change (quote =? "\")%char with false. cbn [negb orb andb].
  unfold push_char. cbn [fst snd]. by rewrite append_String, append_assoc, append_String, append_Empty.
Qed.

Lemma decode_json_string s : decode_string (json_string s) = Some (Some (to_valid s)).
Proof.
  unfold json_string. cbn [decode_string]. change (quote =? quote)%char with true. cbv iota. by rewrite unquote_escape.
Qed.

(** A field whose value the decoder takes whole. *)
Lemma object_fields_step n k raw c t :
  skip_spaces raw = raw → skip_spaces (raw ++ String c t)%string = (raw ++ String c t)%string →
  take_value (raw ++ String c t)%string = (raw, String c t) → is_json_space c = false →
  object_fields (S n) (json_string k ++ ":" ++ raw ++ String c t)%string =
  (to_valid k, raw) :: (if (c =? ",")%char then object_fields n t else []).
Proof.
  intros _ Hsk Htv Hc. rewrite json_string_app. cbn [object_fields skip_spaces].
  change (is_json_space quote) with false. cbv iota. change (quote =? quote)%char with true. cbv iota.
  rewrite unquote_escape. rewrite append_String, append_Empty. cbn [skip_spaces].
  change (is_json_space ":") with false. cbv iota. rewrite Hsk, Htv. cbn [skip_spaces]. by rewrite Hc.
Qed.

Lemma object_fields_string n k v c t :
  is_json_space c = false →
  object_fields (S n) (json_string k ++ ":" ++ json_string v ++ String c t)%string =
  (to_valid k, json_string v) :: (if (c =? ",")%char then object_fields n t else []).
Proof.
  intros Hc. apply object_fields_step; [done| |apply take_value_string|done]. by rewrite json_string_app.
Qed.

Definition enc (kv : string * string) : string * bytes := (to_valid kv.1, json_string kv.2).

Lemma json_fields_cons k v l :
  json_fields ((k, v) :: l) =
  (json_string k ++ ":" ++ json_string v ++ match l with [] => "" | _ => "," ++ json_fields l end)%string.
Proof. destruct l; [|done]. cbn [json_fields]. f_equal. f_equal. by rewrite append_nil. Qed.

Lemma object_fields_json n l t :
  (length l ≤ n)%nat → object_fields n (json_fields l ++ String "}" t)%string = enc <$> l.
Proof.
  revert n. induction l as [|[k v] l IH]; intros n Hn.
  { destruct n; [done|]. by rewrite append_Empty. }
  destruct n as [|n]; [cbn in Hn; lia|]. rewrite json_fields_cons, !append_assoc. cbn [fmap list_fmap].
  destruct l as [|kv l]; [apply (object_fields_string n k v "}" t); done|].
  rewrite append_assoc. etrans; [apply (object_fields_string n k v ","); done|]. cbv iota. f_equal. apply IH. cbn in *. lia.
Qed.

Lemma compound_plain d c t :
  (c =? quote)%char = false → c ∉ ["{"; "["; "}"; "]"]%char →
  take_compound d false false (String c t) = push_char c (take_compound d false false t).
Proof.
  intros Hq Hc. cbn [take_compound]. rewrite Hq, !bool_decide_false; [done|set_solver..].
Qed.

Lemma push_char_prep c r : push_char c r = prep (String c EmptyString) r.
Proof. done. Qed.

Lemma compound_json l t :
  take_compound 0 false false (json_fields l ++ String "}" t)%string = ((json_fields l ++ "}")%string, t).
Proof.
  induction l as [|[k v] l IH]; [done|]. rewrite json_fields_cons, !append_assoc, compound_string.
  rewrite append_String, append_Empty, compound_plain, push_char_prep, compound_string by (done || set_solver).
  destruct l as [|kv l]; [unfold prep; cbn; by rewrite ?append_assoc|].
  rewrite append_assoc, append_String, append_Empty, compound_plain, push_char_prep, IH by (done || set_solver).
  unfold prep. cbn [fst snd]. by rewrite !append_assoc.
Qed.

(** Scanning what the encoder wrote. *)
Lemma scan_json_string s st e step :
  step = stateBeginValue ∨ step = stateBeginString ∨ step = stateBeginStringOrEmpty →
  scan_bytes (json_string s) (Scanner step st e) = Some (Scanner stateEndValue st e).
Proof.
  intros Hs. unfold json_string. cbn [scan_bytes].
  assert (Hq : scan_byte quote (Scanner step st e) = Some (Scanner stateInString st e)) by (by destruct Hs as [->|[->| ->]]).
  rewrite Hq. cbn [mbind option_bind]. rewrite scan_bytes_app, (proj2 (json_escape_spec s)). done.
Qed.

Lemma scan_char c t s s' : scan_byte c s = Some s' → scan_bytes (String c t) s = scan_bytes t s'.
Proof. intros Hc. cbn [scan_bytes]. by rewrite Hc. Qed.

Lemma scan_json_fields l st e step :
  l ≠ [] → step = stateBeginString ∨ step = stateBeginStringOrEmpty →
  scan_bytes (json_fields l) (Scanner step (parseObjectKey :: st) e)
  = Some (Scanner stateEndValue (parseObjectValue :: st) e).
Proof.
  revert step. induction l as [|[k v] l IH]; intros step Hl Hs; [done|].
  rewrite json_fields_cons, scan_bytes_app, scan_json_string by (by destruct Hs; auto). cbn [mbind option_bind].
  rewrite append_String, append_Empty. erewrite scan_char by reflexivity.
  rewrite scan_bytes_app, scan_json_string by auto. cbn [mbind option_bind].
  destruct l as [|kv l]; [done|]. rewrite append_String, append_Empty. erewrite scan_char by reflexivity.
  apply IH; [done|by left].
Qed.

Lemma sorted_fields_perm m : sorted_fields m ≡ₚ map_to_list m.
Proof. apply sort_Slice_perm. Qed.

Lemma sorted_fields_nil m : m ≠ ∅ → sorted_fields m ≠ [].
Proof.
  intros Hm He. apply Hm. apply map_to_list_empty_iff, Permutation_nil_r. rewrite <- sorted_fields_perm. by rewrite He.
Qed.

Lemma encode_blob_valid b : json_Valid (encode_blob b) = true.
Proof.
  unfold json_Valid, encode_blob. rewrite append_String, append_Empty. erewrite scan_char by reflexivity.
  rewrite scan_bytes_app, scan_json_string by auto. cbn [mbind option_bind].
  rewrite append_String, append_Empty. erewrite scan_char by reflexivity.
  rewrite scan_bytes_app, scan_json_string by auto. cbn [mbind option_bind].
  case_bool_decide as Hf; [done|]. rewrite append_String, append_Empty. erewrite scan_char by reflexivity.
  rewrite scan_bytes_app, scan_json_string by auto. cbn [mbind option_bind].
  rewrite !append_String, append_Empty. do 2 (erewrite scan_char by reflexivity).
  rewrite scan_bytes_app, scan_json_fields by (auto using sorted_fields_nil). done.
Qed.

Lemma length_json_fields l : (length l ≤ String.length (json_fields l))%nat.
Proof.
  induction l as [|[k v] l IH]; [done|]. rewrite json_fields_cons, !length_append. cbn [length].
  destruct l as [|kv l]; [cbn; lia|]. rewrite !length_append. cbn [String.length]. lia.
Qed.

(** The blob with every string repaired. *)
Definition valid_blob (b : fingerprintBlob) : Prop :=
  valid_utf8 (Body b) ∧ map_Forall (λ k v, valid_utf8 k ∧ valid_utf8 v) (Fields b).

Lemma decode_strings_enc l :
  Forall (λ kv, valid_utf8 kv.1 ∧ valid_utf8 kv.2) l → decode_strings (enc <$> l) = Some l.
Proof.
  induction 1 as [|[k v] l [Hk Hv] _ IH]; [done|]. cbn [fmap list_fmap enc decode_strings fst snd] in *.
  change (list_fmap _ _ enc l) with (enc <$> l). rewrite decode_json_string, IH. cbn. by rewrite Hk, Hv.
Qed.

Lemma fields_map_perm {A} (l : list (string * A)) (m : gmap string A) :
  l ≡ₚ map_to_list m → foldl (λ m kv, <[kv.1 := kv.2]> m) ∅ l = m.
Proof.
  intros Hp. assert (Hnd : NoDup l.*1) by (rewrite Hp; apply NoDup_fst_map_to_list).
  assert (Hm : (list_to_map l : gmap string A) = m).
  { rewrite <- (list_to_map_to_list m). by apply list_to_map_proper. }
  rewrite <- Hm. clear Hm Hp m.
  assert (Hgen : ∀ acc, (∀ k, k ∈ l.*1 → acc !! k = None) → foldl (λ m kv, <[kv.1 := kv.2]> m) acc l = (list_to_map l : gmap string A) ∪ acc).
  { induction l as [|[k v] l IH]; intros acc Hacc; cbn; [by rewrite (left_id_L ∅ (∪))|].
    cbn in Hnd. apply NoDup_cons in Hnd as [Hk Hnd]. rewrite IH; [|done|].
    - rewrite <- insert_union_r by (by apply not_elem_of_list_to_map_1). by rewrite insert_union_l.
    - intros k' Hk'. rewrite lookup_insert_ne by (intros <-; done). apply Hacc. cbn. by right. }
  rewrite Hgen by (intros; apply lookup_empty). by rewrite (right_id_L ∅ (∪)).
Qed.

Lemma unmarshal_encode b :
  unmarshal_fields (encode_blob b) =
  Some (("b", json_string (Body b)) ::
        (if bool_decide (Fields b = ∅) then [] else [("f", ("{" ++ json_fields (sorted_fields (Fields b)) ++ "}")%string)])).
Proof.
  unfold unmarshal_fields. rewrite encode_blob_valid. cbn [negb]. unfold encode_blob. rewrite append_String, append_Empty.
  cbn [skip_spaces]. change (is_json_space "{") with false. cbv iota. change ("{" =? "{")%char with true. cbv iota. f_equal.
  set (tl := if bool_decide _ then _ else _).
  assert (Hlen : ∃ n, String.length (json_string "b" ++ ":" ++ json_string (Body b) ++ tl)%string = S (S n)).
  { rewrite length_append. cbn. by eexists. }
  destruct Hlen as [n ->]. subst tl. case_bool_decide as Hf; [by apply object_fields_string|].
  rewrite append_String, append_Empty. etrans; [by apply object_fields_string|]. cbv iota. f_equal.
  set (fs := json_fields _). change (":{" ++ ?x)%string with (":" ++ String "{" x)%string.
  assert (Heq : (json_string "f" ++ ":" ++ String "{" (fs ++ "}}"))%string
    = (json_string "f" ++ ":" ++ (String "{" (fs ++ "}")) ++ String "}" EmptyString)%string).
  { f_equal. f_equal. by rewrite append_String, append_assoc. }
  rewrite Heq. apply object_fields_step; [done|done| |done].
  rewrite !append_assoc, append_String, append_Empty. cbn [take_value]. change ("{" =? quote)%char with false. cbv iota.
  rewrite bool_decide_true by set_solver. change ("}" ++ ?x)%string with (String "}" x). unfold fs. by rewrite compound_json.
Qed.

(** A fingerprint is read back as it was written. *)
Lemma parse_encode b : valid_blob b → parseFingerprint (encode_blob b) = b.
Proof.
  intros [Hb Hf]. unfold parseFingerprint. rewrite unmarshal_encode. unfold decode_blob. cbn [foldl decode_field].
  change (str_eqb "b" "b") with true. cbn [orb]. rewrite decode_json_string, Hb. cbn [Fields].
  case_bool_decide as He; [destruct b as [bd fs]; cbn in *; by rewrite He|]. cbn [foldl decode_field Body].
  change (str_eqb "f" "b" || str_eqb "f" "B") with false. change (str_eqb "f" "f" || str_eqb "f" "F") with true. cbv iota.
  rewrite append_String, append_Empty. cbn [skip_spaces]. change (is_json_space "{") with false. cbv iota.
  change ("{" =? "{")%char with true. cbv iota.
  rewrite object_fields_json by (rewrite length_append; pose proof (length_json_fields (sorted_fields (Fields b))); lia).
  rewrite decode_strings_enc.
  - cbn [default from_option Fields]. rewrite (fields_map_perm _ (Fields b)) by apply sorted_fields_perm. by destruct b.
  - rewrite sorted_fields_perm. apply Forall_forall. intros [k v] Hkv%elem_of_map_to_list. by apply Hf.
Qed.

(** ** Decoded strings are well-formed *)

Definition whole_rune (p : string) : Prop := ∀ t, to_valid (p ++ t)%string = (p ++ to_valid t)%string.

Lemma whole_ascii c : (byte_val c <? 128) = true → whole_rune (String c EmptyString).
Proof. intros Hc t. rewrite append_String, append_Empty. cbn [to_valid]. by rewrite Hc. Qed.

Lemma whole_2 c c1 s : high c → rune_size c (String c1 s) = 2%nat → whole_rune (String c (String c1 EmptyString)).
Proof.
  intros Hc Hr t. rewrite !append_String, append_Empty. cbn [to_valid]. rewrite Hc.
  by rewrite (rune_size_2 _ _ _ _ Hr).
Qed.

Lemma whole_3 c c1 c2 s :
  high c → rune_size c (String c1 (String c2 s)) = 3%nat → whole_rune (String c (String c1 (String c2 EmptyString))).
Proof.
  intros Hc Hr t. rewrite !append_String, append_Empty. cbn [to_valid]. rewrite Hc.
  by rewrite (rune_size_3 _ _ _ _ _ Hr).
Qed.

Lemma whole_4 c c1 c2 c3 s :
  high c → rune_size c (String c1 (String c2 (String c3 s))) = 4%nat →
  whole_rune (String c (String c1 (String c2 (String c3 EmptyString)))).
Proof.
  intros Hc Hr t. rewrite !append_String, append_Empty. cbn [to_valid]. rewrite Hc.
  by rewrite (rune_size_4 _ _ _ _ _ _ Hr).
Qed.

Lemma between_chr lo hi n : 0 ≤ n < 256 → byte_between lo hi (chr n) = (lo <=? n) && (n <=? hi).
Proof. intros Hn. unfold byte_between. by rewrite val_chr. Qed.


Ltac eucl := Z.to_euclidean_division_equations; lia.

Lemma whole_utf8_3 r : 2048 ≤ r < 65536 → in_block 55296 57344 r = false → whole_rune (utf8_encode r).
Proof.
  intros Hr Hs. unfold utf8_encode. rewrite (proj2 (Z.ltb_ge r 128)), (proj2 (Z.ltb_ge r 2048)) by lia.
  assert (Hc : 0 ≤ 224 + r / 4096 < 256) by eucl.
  assert (Hc1 : 0 ≤ 128 + (r / 64) mod 64 < 256) by eucl.
  assert (Hc2 : 0 ≤ 128 + r mod 64 < 256) by eucl.
  apply (whole_3 _ _ _ EmptyString); [unfold high; rewrite val_chr by lia; apply Z.ltb_ge; lia|].
  unfold rune_size, cont_byte. rewrite !between_chr, !val_chr by done.
  unfold in_block in Hs. apply andb_false_iff in Hs.
  rewrite (proj2 (Z.leb_gt (224 + r / 4096) 223)) by eucl. rewrite andb_false_r.
  rewrite (proj2 (Z.leb_le 224 (224 + r / 4096))), (proj2 (Z.leb_le (224 + r / 4096) 239)) by eucl.
  rewrite (proj2 (Z.leb_le 128 (128 + r mod 64))), (proj2 (Z.leb_le (128 + r mod 64) 191)) by eucl.
  cbn [andb]. rewrite andb_true_r.
  assert (Hok : (if 224 + r / 4096 =? 224 then (160 <=? 128 + (r / 64) mod 64) && (128 + (r / 64) mod 64 <=? 191)
    else if 224 + r / 4096 =? 237 then (128 <=? 128 + (r / 64) mod 64) && (128 + (r / 64) mod 64 <=? 159)
    else if 224 + r / 4096 =? 240 then (144 <=? 128 + (r / 64) mod 64) && (128 + (r / 64) mod 64 <=? 191)
    else if 224 + r / 4096 =? 244 then (128 <=? 128 + (r / 64) mod 64) && (128 + (r / 64) mod 64 <=? 143)
    else (128 <=? 128 + (r / 64) mod 64) && (128 + (r / 64) mod 64 <=? 191)) = true); [|by rewrite Hok].
  destruct (224 + r / 4096 =? 224) eqn:E1; bools; [apply andb_true_intro; split; apply Z.leb_le; eucl|].
  destruct (224 + r / 4096 =? 237) eqn:E2; bools.
  { apply andb_true_intro; split; apply Z.leb_le; destruct Hs as [Hs|Hs]; bools; eucl. }
  rewrite (proj2 (Z.eqb_neq (224 + r / 4096) 240)), (proj2 (Z.eqb_neq (224 + r / 4096) 244)) by eucl.
  apply andb_true_intro; split; apply Z.leb_le; eucl.
Qed.

Lemma whole_utf8_2 r : 128 ≤ r < 2048 → whole_rune (utf8_encode r).
Proof.
  intros Hr. unfold utf8_encode. rewrite (proj2 (Z.ltb_ge r 128)), (proj2 (Z.ltb_lt r 2048)) by lia.
  apply (whole_2 _ _ EmptyString); [unfold high; rewrite val_chr by eucl; apply Z.ltb_ge; eucl|].
  unfold rune_size, cont_byte. rewrite !between_chr by eucl.
  rewrite (proj2 (Z.leb_le 194 _)), (proj2 (Z.leb_le (192 + r / 64) _)), (proj2 (Z.leb_le 128 _)),
    (proj2 (Z.leb_le (128 + r mod 64) _)) by eucl. done.
Qed.

Lemma whole_replacement : whole_rune (utf8_encode 65533).
Proof. by apply whole_utf8_3. Qed.

Lemma whole_rune_4 r : 65536 ≤ r < 1114112 → whole_rune (encode_rune r).
Proof.
  intros Hr. unfold encode_rune. destruct (in_block 55296 57344 r); [apply whole_replacement|].
  rewrite (proj2 (Z.ltb_ge r 65536)) by lia.
  assert (Hc : 240 ≤ 240 + r / 262144 ≤ 244) by eucl.
  assert (Hc1 : 0 ≤ 128 + (r / 4096) mod 64 < 256) by eucl.
  apply (whole_4 _ _ _ _ EmptyString); [unfold high; rewrite val_chr by lia; apply Z.ltb_ge; lia|].
  unfold rune_size, cont_byte. rewrite !between_chr, !val_chr by eucl.
  rewrite (proj2 (Z.leb_gt (240 + r / 262144) 223)), (proj2 (Z.leb_gt (240 + r / 262144) 239)) by lia. rewrite !andb_false_r.
  rewrite (proj2 (Z.leb_le 240 _)), (proj2 (Z.leb_le (240 + r / 262144) 244)) by lia.
  rewrite (proj2 (Z.leb_le 128 (128 + (r / 64) mod 64))), (proj2 (Z.leb_le (128 + (r / 64) mod 64) _)) by eucl.
  rewrite (proj2 (Z.leb_le 128 (128 + r mod 64))), (proj2 (Z.leb_le (128 + r mod 64) _)) by eucl. cbn [andb].
  rewrite !andb_true_r, (proj2 (Z.eqb_neq (240 + r / 262144) 224)), (proj2 (Z.eqb_neq (240 + r / 262144) 237)) by lia.
  destruct (_ =? 240) eqn:E1; bools.
  { rewrite (proj2 (Z.leb_le 144 _)), (proj2 (Z.leb_le (128 + (r / 4096) mod 64) _)) by eucl. done. }
  destruct (_ =? 244) eqn:E2; bools;
    rewrite (proj2 (Z.leb_le 128 (128 + (r / 4096) mod 64))), (proj2 (Z.leb_le (128 + (r / 4096) mod 64) _)) by eucl; done.
Qed.

Lemma whole_encode_rune r : 0 ≤ r < 1114112 → whole_rune (encode_rune r).
Proof.
  intros Hr. destruct (Z.lt_ge_cases r 65536) as [Hlt|Hge]; [|apply whole_rune_4; lia].
  unfold encode_rune. destruct (in_block 55296 57344 r) eqn:Hs; [apply whole_replacement|]. rewrite (proj2 (Z.ltb_lt r 65536)) by lia.
  destruct (Z.lt_ge_cases r 2048) as [Hlt'|]; [|apply whole_utf8_3; [lia|done]].
  destruct (Z.lt_ge_cases r 128) as [Hlt''|]; [|apply whole_utf8_2; lia].
  unfold utf8_encode. rewrite (proj2 (Z.ltb_lt r 128)) by lia. apply whole_ascii. rewrite val_chr by lia. by apply Z.ltb_lt.
Qed.

Lemma hex4_range h1 h2 h3 h4 r : hex4 h1 h2 h3 h4 = Some r → 0 ≤ r < 65536.
Proof.
  unfold hex4. destruct (hex_val h1) eqn:H1, (hex_val h2) eqn:H2, (hex_val h3) eqn:H3, (hex_val h4) eqn:H4; try done.
  apply hex_val_range in H1, H2, H3, H4. intros [= <-]. lia.
Qed.

Lemma surrogate_pair_range r r1 d : surrogate_pair r r1 = Some d → 0 ≤ d < 1114112.
Proof.
  unfold surrogate_pair, in_block. destruct (_ && _) eqn:H; [|done]. intros [= <-].
  apply andb_prop in H as [[H1 H2]%andb_prop [H3 H4]%andb_prop]. bools. lia.
Qed.

Lemma simple_escape_ascii e b : simple_escape e = Some b → (byte_val b <? 128) = true.
Proof. destruct e as [[] [] [] [] [] [] [] []]; intros H; vm_compute in H; try discriminate; injection H as <-; done. Qed.

(** One step of the decoder. *)
Lemma unquote_step s t rest :
  unquote s = Some (t, rest) →
  t = EmptyString ∨ ∃ p t' s', t = (p ++ t')%string ∧ whole_rune p ∧ unquote s' = Some (t', rest) ∧
    (String.length s' < String.length s)%nat.
Proof.
  assert (Hpush : ∀ p s1 s', whole_rune p → (String.length s' < String.length s1)%nat → push p (unquote s') = Some (t, rest) →
    t = EmptyString ∨ ∃ p t' s', t = (p ++ t')%string ∧ whole_rune p ∧ unquote s' = Some (t', rest) ∧
      (String.length s' < String.length s1)%nat).
  { intros p s1 s' Hp Hl Hu. destruct (unquote s') as [[t' r']|] eqn:Hs'; [|done]. injection Hu as <- <-.
    right. by exists p, t', s'. }
  destruct s as [|c s1]; [done|]. cbn [unquote].
  destruct (c =? quote)%char; [intros [= <- _]; by left|]. destruct (c =? "\")%char.
  - destruct s1 as [|e s2]; [done|]. destruct (e =? "u")%char.
    + destruct s2 as [|h1 [|h2 [|h3 [|h4 s3]]]]; try done.
      destruct (hex4 h1 h2 h3 h4) as [r|] eqn:Hr; [|done]. apply hex4_range in Hr.
      assert (Hsingle : push (encode_rune r) (unquote s3) = Some (t, rest) → _) by
        (apply (Hpush _ (String c (String e (String h1 (String h2 (String h3 (String h4 s3)))))) s3);
           [apply whole_encode_rune; lia|cbn; lia]).
      destruct s3 as [|b1 [|u1 [|k1 [|k2 [|k3 [|k4 s4]]]]]]; try exact Hsingle.
      destruct (_ && _); [|exact Hsingle]. destruct (hex4 k1 k2 k3 k4) as [r1|]; [|exact Hsingle].
      destruct (surrogate_pair r r1) as [d|] eqn:Hd; [|exact Hsingle].
      apply Hpush; [by eapply whole_encode_rune, surrogate_pair_range|cbn; lia].
    + destruct (simple_escape e) as [b|] eqn:He; [|done]. apply Hpush; [by eapply whole_ascii, simple_escape_ascii|cbn; lia].
  - destruct (byte_val c <? 128) eqn:Hc; [apply Hpush; [by apply whole_ascii|cbn; lia]|].
    assert (Hbad : push (utf8_encode 65533) (unquote s1) = Some (t, rest) → _) by
      (apply (Hpush _ (String c s1) s1); [apply whole_replacement|cbn; lia]).
    destruct (rune_size c s1) as [|[|[|[|[|n]]]]] eqn:Hr; try exact Hbad.
    + destruct s1 as [|c1 s2]; [exact Hbad|]. apply Hpush; [by eapply whole_2|cbn; lia].
    + destruct s1 as [|c1 [|c2 s3]]; try exact Hbad. apply Hpush; [by eapply whole_3|cbn; lia].
    + destruct s1 as [|c1 [|c2 [|c3 s4]]]; try exact Hbad. apply Hpush; [by eapply whole_4|cbn; lia].
Qed.

Lemma unquote_valid s t rest : unquote s = Some (t, rest) → valid_utf8 t.
Proof.
  remember (String.length s) as n eqn:Hn. revert s t Hn. induction (lt_wf n) as [n _ IH]. intros s t -> Hu.
  destruct (unquote_step s t rest Hu) as [->|(p&t'&s'&->&Hp&Hu'&Hl)]; [done|].
  unfold valid_utf8. rewrite Hp. f_equal. by eapply IH.
Qed.

Lemma object_fields_valid n s : Forall (λ kv, valid_utf8 kv.1) (object_fields n s).
Proof.
  revert s. induction n as [|n IH]; intros s; cbn [object_fields]; [constructor|].
  destruct (skip_spaces s) as [|c s1]; [constructor|]. destruct (c =? quote)%char; [|constructor].
  destruct (unquote s1) as [[name s2]|] eqn:Hu; [|constructor]. destruct (skip_spaces s2) as [|c2 s3]; [constructor|].
  destruct (take_value _) as [raw s4]. constructor; [by eapply unquote_valid|].
  destruct (skip_spaces s4) as [|d s5]; [constructor|]. destruct (d =? ",")%char; [apply IH|constructor].
Qed.

(** ** The difference of two fingerprints *)

Section differences.
Context (hashHex : bytes → string).

(** The fields of a JSON object, or none. *)
Definition fields_of (body : bytes) : gmap string bytes :=
  match unmarshal_fields body with Some l => fields_map l | None => ∅ end.

(** What the size limit counts. *)
Definition hashed_size (m : gmap string bytes) : Z :=
  foldr (λ kv n, byte_len kv.1 + hashHexLen + n) 0 (map_to_list m).

Lemma range_fields_spec kvs n acc :
  range_fields hashHex kvs n acc =
  let total := foldr (λ kv n, byte_len kv.1 + hashHexLen + n) 0 kvs in
  if bool_decide (kvs = []) || (n + total <=? maxFingerprintFieldsBytes)
  then Some (foldl (λ m kv, <[kv.1 := hashHex kv.2]> m) acc kvs) else None.
Proof.
  revert n acc. induction kvs as [|[k raw] kvs IH]; intros n acc; [done|]. cbn [range_fields foldr foldl fst snd].
  rewrite bool_decide_false by done. cbn [orb].
  assert (0 ≤ foldr (λ kv n, byte_len kv.1 + hashHexLen + n) 0 kvs).
  { clear. induction kvs as [|[k raw] kvs IH]; cbn; [lia|]. unfold byte_len, hashHexLen in *. lia. }
  rewrite Z.gtb_ltb. destruct (maxFingerprintFieldsBytes <? n + (byte_len k + hashHexLen)) eqn:Hc; bools.
  { rewrite (proj2 (Z.leb_gt _ _)) by lia. done. }
  rewrite IH. cbv zeta. case_bool_decide as Hn.
  - subst kvs. cbn [orb foldr]. by rewrite (proj2 (Z.leb_le _ _)) by lia.
  - cbn [orb]. by rewrite <- !Z.add_assoc.
Qed.

Lemma hashed_fields (m : gmap string bytes) l :
  l ≡ₚ map_to_list m → foldl (λ h kv, <[kv.1 := hashHex kv.2]> h) ∅ l = hashHex <$> m.
Proof.
  intros Hp. rewrite <- (fields_map_perm (prod_map id hashHex <$> l) (hashHex <$> m)).
  - generalize (∅ : gmap string string) as acc. clear Hp.
    induction l as [|kv l IH]; intros acc; [done|]. cbn. apply IH.
  - by rewrite map_to_list_fmap, Hp.
Qed.

(** Whatever order Go ranges in: the hash of every field, or nothing if they are
    too large. *)
Lemma fieldHashes_spec body :
  default ∅ (fieldHashes hashHex body) =
  if hashed_size (fields_of body) <=? maxFingerprintFieldsBytes then hashHex <$> fields_of body else ∅.
Proof.
  unfold fieldHashes, fields_of. destruct (unmarshal_fields body) as [l|]; [|by rewrite fmap_empty].
  rewrite range_fields_spec. cbv zeta. rewrite Z.add_0_l. fold (hashed_size (fields_map l)).
  rewrite (hashed_fields (fields_map l)) by done. case_bool_decide as Hn.
  - cbn. assert (fields_map l = ∅) as -> by (by apply map_to_list_empty_iff). done.
  - cbn [orb]. by destruct (_ <=? _).
Qed.

Lemma fields_map_valid {A} (l : list (string * A)) :
  Forall (λ kv, valid_utf8 kv.1) l → map_Forall (λ k _, valid_utf8 k) (fields_map l).
Proof.
  unfold fields_map. assert (H0 : map_Forall (λ k (_ : A), valid_utf8 k) ∅) by apply map_Forall_empty.
  revert H0. generalize (∅ : gmap string A) as acc. induction l as [|[k v] l IH]; intros acc Ha Hl; [done|].
  apply Forall_cons in Hl as [Hk Hl]. cbn. apply IH; [|done]. by apply map_Forall_insert_2.
Qed.

Lemma fields_of_valid body : map_Forall (λ k _, valid_utf8 k) (fields_of body).
Proof.
  unfold fields_of, unmarshal_fields. destruct (negb _); [apply map_Forall_empty|].
  destruct (skip_spaces body) as [|c s1]; [apply map_Forall_empty|].
  destruct (c =? "{")%char; [apply fields_map_valid, object_fields_valid|].
  destruct (c =? "n")%char; apply map_Forall_empty.
Qed.

(** A hash in hexadecimal. *)
Definition hex_hash : Prop := ∀ b, ascii_text (hashHex b) = true ∧ hashHex b ≠ "".

Context (Hhash : hex_hash).

Lemma fingerprint_blob_valid body :
  valid_blob (MkBlob (hashHex body) (default ∅ (fieldHashes hashHex body))).
Proof.
  split; cbn [Body Fields]; [by apply ascii_valid, Hhash|]. rewrite fieldHashes_spec.
  destruct (_ <=? _); [|apply map_Forall_empty]. intros k v. rewrite lookup_fmap.
  destruct (fields_of body !! k) as [raw|] eqn:Hk; [|done]. cbn. intros [= <-].
  split; [by eapply (fields_of_valid body)|by apply ascii_valid, Hhash].
Qed.

(** The stored fingerprint is read back as computed. *)
Lemma parse_computeFingerprint body :
  parseFingerprint (computeFingerprint hashHex body) =
  MkBlob (hashHex body) (default ∅ (fieldHashes hashHex body)).
Proof. apply parse_encode, fingerprint_blob_valid. Qed.

(** Equal fingerprints, equal hashes. *)
Lemma computeFingerprint_hash a b :
  computeFingerprint hashHex a = computeFingerprint hashHex b → hashHex a = hashHex b.
Proof. intros H%(f_equal parseFingerprint). rewrite !parse_computeFingerprint in H. by injection H. Qed.
End differences.

#[global] Instance ltb_total : Total (not_after String.ltb).
Proof. intros x y. unfold not_after. rewrite !string_ltb_false. apply (total String.le). Qed.

#[global] Instance ltb_trans : Transitive (not_after String.ltb).
Proof. intros x y z. unfold not_after. rewrite !string_ltb_false. apply transitivity. Qed.

(** Sorting without duplicates. *)
Lemma sort_strings l : NoDup l → StronglySorted (λ x y, String.ltb x y = true) (sort_Slice String.ltb l).
Proof.
  intros Hnd. rewrite <- (sort_Slice_perm String.ltb l) in Hnd. pose proof (sort_Slice_sorted String.ltb l) as Hs.
  induction Hs as [|x l' _ IH Hx]; [constructor|]. apply NoDup_cons in Hnd as [Hni Hnd]. constructor; [by apply IH|].
  rewrite Forall_forall in *. intros y Hy. specialize (Hx y Hy). unfold not_after in Hx.
  destruct (String.ltb x y) eqn:Hlt; [done|]. exfalso. apply Hni. apply string_ltb_false in Hx, Hlt.
  by rewrite (anti_symm String.le x y Hx Hlt).
Qed.

Lemma elem_of_diff stored incoming k :
  k ∈ diffFields stored incoming ↔
  (∃ v, Fields (parseFingerprint incoming) !! k = Some v ∧ default "" (Fields (parseFingerprint stored) !! k) ≠ v) ∨
  (is_Some (Fields (parseFingerprint stored) !! k) ∧ Fields (parseFingerprint incoming) !! k = None).
Proof.
  unfold diffFields. rewrite sort_Slice_elem, elem_of_app, !list_elem_of_fmap. f_equiv; split.
  - intros ([k' v]&->&[Hne Hin%elem_of_map_to_list]%list_elem_of_filter). by exists v.
  - intros (v&Hv&Hne). exists (k, v). split; [done|]. apply list_elem_of_filter. by rewrite elem_of_map_to_list.
  - intros ([k' v]&->&[Hn Hin%elem_of_map_to_list]%list_elem_of_filter). by split; [exists v|].
  - intros ([v Hv]&Hn). exists (k, v). split; [done|]. apply list_elem_of_filter. by rewrite elem_of_map_to_list.
Qed.

Lemma NoDup_diff stored incoming : NoDup (diffFields stored incoming).
Proof.
  unfold diffFields. rewrite sort_Slice_perm. apply NoDup_app. split_and!.
  - eapply sublist_NoDup; [|apply fmap_sublist, sublist_filter]. apply NoDup_fst_map_to_list.
  - intros k ([k' v]&->&[_ Hin%elem_of_map_to_list]%list_elem_of_filter)%list_elem_of_fmap.
    intros ([k'' v']&Hk&[Hn _]%list_elem_of_filter)%list_elem_of_fmap. cbn in *. congruence.
  - eapply sublist_NoDup; [|apply fmap_sublist, sublist_filter]. apply NoDup_fst_map_to_list.
Qed.

Lemma length_substring n s : (String.length (String.substring 0 n s) ≤ n)%nat.
Proof. revert n. induction s as [|c s IH]; intros [|n]; cbn; [lia..|]. specialize (IH n). lia. Qed.

Lemma cut_at_le name n : (cut_at name n ≤ n)%nat.
Proof. induction n as [|n IH]; cbn [cut_at]; [lia|]. destruct (String.get _ _) as [c|]; [|lia]. destruct (RuneStart c); lia. Qed.

Lemma truncateFieldName_len name : (String.length (truncateFieldName name) ≤ maxFieldNameLen + 3)%nat.
Proof.
  unfold truncateFieldName. destruct (_ <=? _)%nat eqn:Hl; [apply Nat.leb_le in Hl; lia|].
  rewrite length_append. pose proof (length_substring (cut_at name maxFieldNameLen) name).
  pose proof (cut_at_le name maxFieldNameLen). change (String.length ellipsis) with 3%nat. lia.
Qed.

Definition detail_name (d : PublicDetail) : option string :=
  match d with PublicString _ v => Some v | PublicBool _ _ => None end.

(** the 422 answer to a reused key tells what changed.  For two request
    bodies whose fields fit the limit, the differing fields are computed from
    the stored fingerprints exactly: in order and without repetition the names
    of the top-level JSON fields whose values have different hashes or that only
    one of the bodies has.  This reads back what [json.Marshal] wrote, whatever
    characters the names hold.  The answer names at most 20 of them, and no name
    with more than 131 bytes. *)
Theorem mismatch_details hashHex a b :
  hex_hash hashHex →
  hashed_size (fields_of a) ≤ maxFingerprintFieldsBytes → hashed_size (fields_of b) ≤ maxFingerprintFieldsBytes →
  let d := diffFields (computeFingerprint hashHex a) (computeFingerprint hashHex b) in
  let details := keyReusedDetailOpts (computeFingerprint hashHex a) (computeFingerprint hashHex b) in
  StronglySorted (λ x y, String.ltb x y = true) d ∧
  (∀ k, k ∈ d ↔ hashHex <$> fields_of a !! k ≠ hashHex <$> fields_of b !! k) ∧
  omap detail_name details = truncateFieldName <$> take maxMismatchedFields d ∧
  Forall (λ name, (String.length name ≤ maxFieldNameLen + 3)%nat) (omap detail_name details).
Proof.
  intros Hh Ha Hb d details.
  assert (Hf : omap detail_name details = truncateFieldName <$> take maxMismatchedFields d).
  { unfold details, keyReusedDetailOpts. fold d. generalize (take maxMismatchedFields d) as l. intros l.
    assert (Hm : ∀ l l', omap detail_name (((λ f, PublicString "mismatchedField" (truncateFieldName f)) <$> l) ++ l')
      = (truncateFieldName <$> l) ++ omap detail_name l') by (intros l0 l'; induction l0; cbn; congruence).
    destruct (_ <? _)%nat; [by rewrite Hm, app_nil_r|]. by rewrite <- (app_nil_r (_ <$> l)), Hm, app_nil_r. }
  split; [apply sort_strings|split; [|split; [done|]]].
  - pose proof (NoDup_diff (computeFingerprint hashHex a) (computeFingerprint hashHex b)) as Hn.
    unfold diffFields in Hn. by rewrite sort_Slice_perm in Hn.
  - intros k. unfold d. rewrite elem_of_diff, !parse_computeFingerprint by done. cbn [Fields].
    rewrite !fieldHashes_spec, !(proj2 (Z.leb_le _ _)), !lookup_fmap by done.
    destruct (fields_of a !! k) as [x|], (fields_of b !! k) as [y|]; cbn.
    + split; [intros [(v&[= <-]&?)|[_ ?]]; congruence|]. intros Hne. left. exists (hashHex y). split; congruence.
    + split; [done|]. intros _. by right.
    + split; [done|]. intros _. left. exists (hashHex y). split; [done|]. intros Hy. by destruct (proj2 (Hh y)).
    + split; [intros [(v&?&_)|[[v ?] _]]; done|done].
  - rewrite Hf. apply Forall_fmap, Forall_forall. intros name _. apply truncateFieldName_len.
Qed.

Module FingerprintSample.
Definition hash (b : bytes) : string := if byte_len b =? 1 then "d1"%string else "d2"%string.
Definition stored : bytes := requote "{'qty': 1, 'sku': 'x', 'note': null}".
Definition incoming : bytes := requote "{'qty': 10, 'sku': 'x', 'gift': true}".
End FingerprintSample.

Lemma mismatch_details_witness :
  "qty"%string ∈ diffFields (computeFingerprint FingerprintSample.hash FingerprintSample.stored)
                   (computeFingerprint FingerprintSample.hash FingerprintSample.incoming).
Proof.
  apply (mismatch_details FingerprintSample.hash FingerprintSample.stored FingerprintSample.incoming).
  - intros s. unfold FingerprintSample.hash. by destruct (_ =? _).
  - by vm_compute.
  - by vm_compute.
  - by vm_compute.
Defined.
