(* ===== verification/HttpIdempotency.v ===== *)
(** * runtime/http/idempotency/middleware.go: one execution per key

    The middleware between authentication and the handlers: it claims the key of a
    request, runs the handler behind the tee of HttpWriter.v, and records the
    response or releases the claim; later requests with the key get the recorded
    response.

    A request goes through two parts.  [ServeHTTP_claim] decides; when it says
    [Run] the handler runs, and [settle] finishes.  [ServeHTTP] is the whole for
    a request that runs alone; the histories below interleave the parts of many
    requests.  Logs and metrics are left out; the clock and the random source are
    arguments, SHA-256 is an argument. *)

From Stdlib Require Import Ascii String.
From S2P Require Import Prelude GoJson Base64 JsonText IdUtil Idempotency Tenant HttpWriter HttpIdemStore HttpFingerprint.

(** ** Configuration *)

Record middlewareConfig := MkHConfig {
  maxBodyBytes : Z;
  leaseTTL : Duration;
  doneTTL : Duration;
}.

Definition defaultMaxBodyBytes : Z := 256 * 1024.
Definition DefaultLeaseTTL : Duration := 5 * Minute.
Definition DefaultTTL : Duration := 24 * Hour.

Definition defaultConfig : middlewareConfig := MkHConfig defaultMaxBodyBytes DefaultLeaseTTL DefaultTTL.

Inductive HOption : Type :=
  | WithMaxBodyBytes (n : Z)
  | WithLeaseTTL (d : Duration)
  | WithDoneTTL (d : Duration).

Definition apply_option (c : middlewareConfig) (o : HOption) : middlewareConfig :=
  match o with
  | WithMaxBodyBytes n => MkHConfig (if n <=? 0 then defaultMaxBodyBytes else n) (leaseTTL c) (doneTTL c)
  | WithLeaseTTL d => MkHConfig (maxBodyBytes c) (if d <=? 0 then DefaultLeaseTTL else d) (doneTTL c)
  | WithDoneTTL d => MkHConfig (maxBodyBytes c) (leaseTTL c) (if d <=? 0 then DefaultTTL else d)
  end.

Definition configure (opts : list HOption) : middlewareConfig := foldl apply_option defaultConfig opts.

(** ** The Idempotency-Key *)

Definition headerIdempotencyKey : string := "Idempotency-Key".
Definition headerIdempotencyReplayed : string := "Idempotency-Replayed".
Definition maxIdempotencyKeyLen : Z := 256.

Definition msgKeyEmpty : string := "Idempotency-Key header value must not be empty".
Definition msgKeyTooLong : string := "Idempotency-Key header value exceeds maximum length".
Definition msgKeyInvalidChars : string := "Idempotency-Key header value contains invalid characters".
Definition msgBodyReadFailed : string := "idempotency: failed to read request body".
Definition msgKeyReused : string := "idempotency key reused with a different request body".
Definition msgStoreUnavailable : string := "idempotency store unavailable".
Definition msgInProgress : string := "a request with this Idempotency-Key is already in progress".

(** Printable ASCII; a byte that is not ASCII is part of a rune above
    [unicode.MaxASCII] or of an encoding error, which is U+FFFD. *)
Definition key_char (c : ascii) : bool :=
  negb ((c =? "{")%char || (c =? "}")%char) && byte_between 32 126 c.

Definition isValidIdempotencyKey (key : string) : bool := all_chars key_char key.

Definition validateKeyValue (idemKey : string) : outcome unit :=
  if idemKey ==s "" then Err (invalid msgKeyEmpty)
  else if byte_len idemKey >? maxIdempotencyKeyLen then Err (invalid msgKeyTooLong)
  else if negb (isValidIdempotencyKey idemKey) then Err (invalid msgKeyInvalidChars)
  else Ok tt.

(** ** request_identity.go *)

Record RequestIdentity := MkIdentity { ri_caller : string; ri_fingerprint : string; ri_key : string }.

Definition NewRequestIdentity (caller fingerprint key : string) : outcome RequestIdentity :=
  match validateKeyValue key with
  | Err e => Err e
  | Ok _ => Ok (MkIdentity caller fingerprint key)
  end.

Definition CommandDedupToken (hashHex : bytes → string) (i : RequestIdentity) : string :=
  hashHex (ri_caller i ++ String NUL (ri_fingerprint i ++ String NUL (ri_key i)))%string.

(** ** Requests and answers *)

(** [r_body] is what [io.ReadAll] gives, [exempt] what the matcher says, and
    [r_outer] the response headers the outer middlewares have set. *)
Record request := MkRequest {
  r_method : string;
  r_path : string;
  r_header : header;
  r_body : outcome bytes;
  r_principal : option Principal;
  exempt : bool;
  r_outer : header;
}.

Definition idempotentMethods : list string := ["POST"; "PUT"; "PATCH"; "DELETE"].

Definition shouldIntercept (r : request) : bool :=
  bool_decide (r_method r ∈ idempotentMethods) && negb (header_Get (r_header r) headerIdempotencyKey ==s "").

(** [auth.FromContext] hides a principal of unknown kind. *)
Definition extractIdentity (r : request) : option Principal :=
  match r_principal r with
  | None => None
  | Some p =>
      if bool_decide (p_Kind p = PrincipalUser) && negb (p_Subject p ==s "") then Some p else None
  end.

(** [WriteError]: the error, its public details and the response headers. *)
Inductive reply : Type :=
  | ErrorReply (err : goerror) (details : list PublicDetail) (h : header)
  | Replay (w : rw).

Inductive decision : Type :=
  | Next                                                   (* the request is passed on *)
  | Answer (a : reply)
  | Run (k : IdempotencyKey) (fp : string) (rc : receipt).

Definition errInProgress : goerror := Errcode KindConflict "ERR_IDEMPOTENCY_IN_PROGRESS" msgInProgress.

Definition retryAfterHintSeconds : Z := 5.

Definition header_add_all (h : header) (recorded : header) : header :=
  foldl (λ h kv, foldl (λ h v, header_Add kv.1 v h) h kv.2) h (map_to_list recorded).

(** The recorded headers are added to those already set; a client that takes every
    byte. *)
Definition replayResponse (outer : header) (rec : RecordedResponse) : option rw :=
  let h := header_Set headerIdempotencyReplayed "true" (header_add_all outer (rr_header rec)) in
  match rw_WriteHeader (rr_status rec) (MkRW h None "") with
  | None => None
  | Some w => Some (rw_Write (rr_body rec) (String.length (rr_body rec)) w).2
  end.

Section middleware.
Context {S : Type} `{!IdemStore S} (hashHex : bytes → string) (cfg : middlewareConfig).

(** [handle] up to the switch on the claim state.  The last case is a
    [ClaimDone] without a response, a nil dereference. *)
Definition handle_claim (st : S) (now : Time) (entropy : list Z) (r : request) (k : IdempotencyKey) (fp : string)
    : option decision * S :=
  match st_Claim st now entropy k fp (leaseTTL cfg) with
  | (inl (FingerprintMismatch stored), st') =>
      (Some (Answer (ErrorReply (Errcode KindUnprocessable "ERR_IDEMPOTENCY_KEY_REUSED" msgKeyReused)
                       (keyReusedDetailOpts stored fp) (r_outer r))), st')
  | (inl (ClaimFailed _), st') =>
      (Some (Answer (ErrorReply (Errcode KindInternal ErrInternal msgStoreUnavailable) [] (r_outer r))), st')
  | (inr (ClaimDone, Some rec, _), st') =>
      (match replayResponse (r_outer r) rec with Some w => Some (Answer (Replay w)) | None => None end, st')
  | (inr (ClaimDone, None, _), st') => (None, st')
  | (inr (ClaimBusy, _, _), st') =>
      (Some (Answer (ErrorReply errInProgress []
                       (header_Set "Retry-After" (pretty retryAfterHintSeconds) (r_outer r)))), st')
  | (inr (_, _, rc), st') => (Some (Run k fp rc), st')
  end.

Definition ServeHTTP_claim (st : S) (now : Time) (entropy : list Z) (r : request) : option decision * S :=
  if exempt r then (Some Next, st)
  else if negb (shouldIntercept r) then (Some Next, st)
  else
    match extractIdentity r with
    | None => (Some Next, st)
    | Some p =>
        let idemKey := header_Get (r_header r) headerIdempotencyKey in
        match validateKeyValue idemKey with
        | Err e => (Some (Answer (ErrorReply e [] (r_outer r))), st)
        | Ok _ =>
            let k := DeriveKey (p_TenantID p) (p_Subject p) (r_method r) (r_path r) idemKey in
            match r_body r with
            | Err _ =>
                (Some (Answer (ErrorReply (Errcode KindUnavailable "ERR_SERVICE_UNAVAILABLE" msgBodyReadFailed)
                                 [] (r_outer r))), st)
            | Ok body =>
                let fp := computeFingerprint hashHex body in
                match NewRequestIdentity (p_Subject p) fp idemKey with
                | Err e => (Some (Answer (ErrorReply e [] (r_outer r))), st)
                | Ok _ => handle_claim st now entropy r k fp
                end
            end
        end
    end.

Definition shouldRecord (status : Z) : bool := (status >=? 200) && (status <? 400).

Definition sensitiveResponseHeaders : list string :=
  ["set-cookie"; "set-cookie2"; "authorization"; "www-authenticate"; "proxy-authenticate"; "clear-site-data"].

Definition filterSensitiveHeaders (h : header) : header := foldl (λ h name, header_Del name h) h sensitiveResponseHeaders.

(** [recordOrRelease] after the handler: [None] when it panicked.  The deferred
    [Release] runs unless the response was recorded. *)
Definition settle (st : S) (now now' now'' : Time) (rc : receipt) (res : option bufferingState)
    : option RecordedResponse * S :=
  let release st := (None, (st_Release st rc).2) in
  match res with
  | None => release st
  | Some s =>
      if didCommit s && shouldRecord (statusCode s) && negb (oversized s) then
        let resp := newRecordedResponse now (statusCode s) (buf s) (filterSensitiveHeaders (capturedHeader s)) in
        match st_Record st rc now' now'' resp (doneTTL cfg) with
        | (Ok _, st') => (Some resp, st')
        | (Err _, st') => release st'
        end
      else release st
  end.

(** A handler makes calls on the response writer and changes the application
    state; the flag says that it panicked after them. *)
Definition handler (M : Type) : Type := request → M → list rw_op * bool * M.

(** The handler behind the tee: the connection and what the tee kept. *)
Definition run_handler {M} (next : handler M) (r : request) (m : M) : option bufferingWriter * M :=
  let '(ops, panics, m') := next r m in
  match bw_run ops (newBufferingWriter (MkRW (r_outer r) None "") (maxBodyBytes cfg)) with
  | Some bw => (if panics : bool then None else Some bw, m')
  | None => (None, m')
  end.

(** A request that nothing interrupts. *)
Definition ServeHTTP {M} (next : handler M) (st : S) (m : M) (now now' now'' now''' : Time) (entropy : list Z)
    (r : request) : option decision * option bufferingWriter * option RecordedResponse * S * M :=
  match ServeHTTP_claim st now entropy r with
  | (Some (Run k fp rc), st1) =>
      let '(bw, m') := run_handler next r m in
      let '(rec, st2) := settle st1 now' now'' now''' rc (bs <$> bw) in
      (Some (Run k fp rc), bw, rec, st2, m')
  | (d, st1) => (d, None, None, st1, m)
  end.
End middleware.

(** ** Histories: the parts of many requests, interleaved *)

(** A request whose handler is to run, is running or has run ([run_out]). *)
Record run := MkRun {
  run_req : request;
  run_key : string;
  run_fp : string;
  run_start : Time;
  run_out : option (option bufferingState);
}.

Inductive hevent : Type :=
  | EStart (i : nat) (key : string) (t : Time) (fp : string)
  | ERecord (i : nat) (key : string) (start t : Time) (fp : string) (resp : RecordedResponse)
  | EAnswer (r : request) (t : Time) (a : reply).

Record sys (M : Type) := MkSys {
  hs_store : MemStore.store;
  hs_app : M;
  hs_live : gmap nat run;
  hs_clock : Time;
  hs_log : list hevent;
}.
Arguments MkSys {M} _ _ _ _ _.
Arguments hs_store {M} _.
Arguments hs_app {M} _.
Arguments hs_live {M} _.
Arguments hs_clock {M} _.
Arguments hs_log {M} _.

Section history.
Context {M : Type} (hashHex : bytes → string) (cfg : middlewareConfig) (next : handler M).

(** The random source does not repeat a token. *)
Definition fresh_token (ms : MemStore.store) (entropy : list Z) : Prop :=
  ∀ tok, MemStore.generateToken entropy = Ok tok → Forall (λ r, MemStore.rc_token r ≠ tok) (MemStore.receipts ms).

(** The key a request is tracked under. *)
Definition tracked_key (r : request) : option string :=
  match extractIdentity r with
  | Some p => Some (Flat (DeriveKey (p_TenantID p) (p_Subject p) (r_method r) (r_path r)
                            (header_Get (r_header r) headerIdempotencyKey)))
  | None => None
  end.

Inductive hstep : sys M → sys M → Prop :=
  | hs_answer r now en a ms ms' m live clock log :
      clock ≤ now → fresh_token ms en →
      ServeHTTP_claim hashHex cfg ms now en r = (Some (Answer a), ms') →
      hstep (MkSys ms m live clock log) (MkSys ms' m live now (log ++ [EAnswer r now a]))
  | hs_claim r now en k fp i ms ms' m live clock log :
      clock ≤ now → fresh_token ms en →
      ServeHTTP_claim hashHex cfg ms now en r = (Some (Run k fp (memReceipt i)), ms') →
      hstep (MkSys ms m live clock log)
        (MkSys ms' m (<[i := MkRun r (Flat k) fp now None]> live) now (log ++ [EStart i (Flat k) now fp]))
  | hs_pass r now en ms ms' m live clock log :
      ServeHTTP_claim hashHex cfg ms now en r = (Some Next, ms') →
      hstep (MkSys ms m live clock log) (MkSys ms' (next r m).2 live clock log)
  | hs_run i r key fp s ms m bw m' live clock log :
      live !! i = Some (MkRun r key fp s None) → run_handler cfg next r m = (bw, m') →
      hstep (MkSys ms m live clock log) (MkSys ms m' (<[i := MkRun r key fp s (Some (bs <$> bw))]> live) clock log)
  | hs_settle i r key fp s res now now' now'' ms rec ms' m live clock log :
      live !! i = Some (MkRun r key fp s (Some res)) → clock ≤ now → now ≤ now' → now' ≤ now'' →
      settle cfg ms now now' now'' (memReceipt i) res = (rec, ms') →
      hstep (MkSys ms m live clock log)
        (MkSys ms' m (delete i live) now''
           (log ++ match rec with Some resp => [ERecord i key s now' fp resp] | None => [] end))
  | hs_crash i ms m live clock log :
      hstep (MkSys ms m live clock log) (MkSys ms m (delete i live) clock log).

Definition hs_init (m : M) (t : Time) : sys M := MkSys MemStore.NewMemStore m ∅ t [].
End history.

(** ** The invariant *)

Lemma configure_pos opts :
  0 < maxBodyBytes (configure opts) ∧ 0 < leaseTTL (configure opts) ∧ 0 < doneTTL (configure opts).
Proof.
  unfold configure. assert (Hd : 0 < maxBodyBytes defaultConfig ∧ 0 < leaseTTL defaultConfig ∧ 0 < doneTTL defaultConfig)
    by (by vm_compute). revert Hd. generalize defaultConfig as c.
  induction opts as [|o opts IH]; intros c (Hm&Hl&Hdn); [done|]. apply IH.
  destruct o as [n|d|d]; cbn; destruct (_ <=? 0) eqn:Hn; bools; split_and!; done.
Qed.

Section invariant.
Context (cfg : middlewareConfig) (Hlease : 0 < leaseTTL cfg) (Hdone : 0 < doneTTL cfg).
Import MemStore.
Implicit Types (ms : store) (live : gmap nat run) (clock now : Time) (log : list hevent).

Definition event_time (e : hevent) : Time :=
  match e with EStart _ _ t _ | ERecord _ _ _ t _ _ | EAnswer _ t _ => t end.

(** Nothing recorded under [c] is still to be replayed at [t]. *)
Definition expired_by log (c : string) (t : Time) : Prop :=
  ∀ i s t0 fp resp, ERecord i c s t0 fp resp ∈ log → t0 + doneTTL cfg ≤ t.

Definition same_response (a b : RecordedResponse) : Prop :=
  rr_status a = rr_status b ∧ rr_body a = rr_body b ∧ rr_header a = rr_header b.

Definition entry_ok ms log (c : string) (e : memEntry) : Prop :=
  fingerprint e ≠ "" ∧
  match recorded e with
  | None => ∃ i x s, receipts ms !! i = Some x ∧ composed x = c ∧ rc_token x = leaseToken e ∧
              EStart i c s (fingerprint e) ∈ log ∧ leaseExpiry e = s + leaseTTL cfg ∧ expired_by log c s
  | Some stored => leaseToken e = "" ∧
              ∃ i s t resp, ERecord i c s t (fingerprint e) resp ∈ log ∧ same_response resp stored ∧
                doneExpiry e = t + doneTTL cfg ∧
                ∀ i' s' t' fp' resp', ERecord i' c s' t' fp' resp' ∈ log → t' ≤ t
  end.

(** An earlier recording has run out when the same key starts again. *)
Definition apart (x y : hevent) : Prop :=
  match x, y with
  | ERecord _ c _ t _ _, ERecord _ c' s _ _ _ => c = c' → t + doneTTL cfg ≤ s
  | ERecord _ c _ t _ _, EStart _ c' s _ => c = c' → t + doneTTL cfg ≤ s
  | _, _ => True
  end.

(** The answer is the replay of what an earlier run with the same key and the same
    body recorded less than [doneTTL] ago. *)
Definition replay_ok (past : list hevent) (r : request) (fp : string) (t : Time) (w : rw) : Prop :=
  ∃ i c s t0 resp, ERecord i c s t0 fp resp ∈ past ∧ tracked_key r = Some c ∧
    t0 ≤ t < t0 + doneTTL cfg ∧ replayResponse (r_outer r) resp = Some w.

Record hinv ms live clock log : Prop := {
  hi_tokens i j x y : receipts ms !! i = Some x → receipts ms !! j = Some y → rc_token x = rc_token y → i = j;
  hi_nonempty i x : receipts ms !! i = Some x → rc_token x ≠ "";
  hi_live i r : live !! i = Some r →
    ∃ x, receipts ms !! i = Some x ∧ composed x = run_key r ∧ settled x = false ∧
         EStart i (run_key r) (run_start r) (run_fp r) ∈ log;
  hi_starts i c t fp c' t' fp' : EStart i c t fp ∈ log → EStart i c' t' fp' ∈ log → c = c' ∧ t = t' ∧ fp = fp';
  hi_index i c t fp : EStart i c t fp ∈ log → (i < length (receipts ms))%nat;
  hi_clock : Forall (λ e, event_time e ≤ clock) log;
  hi_entry c e : entries ms !! c = Some e → entry_ok ms log c e;
  hi_none c : entries ms !! c = None → expired_by log c clock;
  hi_lease i r : live !! i = Some r →
    (∃ e x, entries ms !! run_key r = Some e ∧ receipts ms !! i = Some x ∧ leaseToken e = rc_token x) ∨
    run_start r + leaseTTL cfg ≤ clock;
  hi_apart p q x y : (p < q)%nat → log !! p = Some x → log !! q = Some y → apart x y;
  hi_overlap i j r r' : (i < j)%nat → live !! i = Some r → live !! j = Some r' → run_key r = run_key r' →
    run_start r + leaseTTL cfg ≤ run_start r';
}.

Lemma expired_by_le log c t t' : expired_by log c t → t ≤ t' → expired_by log c t'.
Proof. intros H Hle i s t0 fp resp Hin. specialize (H _ _ _ _ _ Hin). lia. Qed.

Lemma hinv_init t : hinv NewMemStore ∅ t [].
Proof.
  constructor; cbn; try done; try (by intros *; rewrite lookup_nil); try (by intros *; rewrite lookup_empty);
    try (by intros * ?%elem_of_nil).
  intros c _ i s t0 fp resp ?%elem_of_nil. done.
Qed.

Lemma hinv_clock ms live clock now log : clock ≤ now → hinv ms live clock log → hinv ms live now log.
Proof.
  intros Hle []. constructor; try done.
  - eapply Forall_impl; [done|]. intros e He. cbn in He. lia.
  - intros c Hc. eapply expired_by_le; [by apply hi_none0|done].
  - intros i r Hr. destruct (hi_lease0 i r Hr); [by left|right; lia].
Qed.

(** Forgetting a request in flight. *)
Lemma hinv_drop ms live clock log i : hinv ms live clock log → hinv ms (delete i live) clock log.
Proof.
  intros []. constructor; try done.
  - intros j r [_ Hr]%lookup_delete_Some. by apply hi_live0.
  - intros j r [_ Hr]%lookup_delete_Some. by apply hi_lease0.
  - intros j k r r' Hlt [_ Hr]%lookup_delete_Some [_ Hr']%lookup_delete_Some. by eapply hi_overlap0.
Qed.

(** Running a handler changes nothing the invariant speaks of. *)
Lemma hinv_out ms live clock log i r key fp s o o' :
  live !! i = Some (MkRun r key fp s o) → hinv ms live clock log →
  hinv ms (<[i := MkRun r key fp s o']> live) clock log.
Proof.
  intros Hi [].
  assert (Hback : ∀ j x, <[i := MkRun r key fp s o']> live !! j = Some x →
    ∃ y, live !! j = Some y ∧ run_key y = run_key x ∧ run_fp y = run_fp x ∧ run_start y = run_start x).
  { intros j x [[<- <-]|[Hne Hx]]%lookup_insert_Some; [by eexists|by exists x]. }
  constructor; try done.
  - intros j x (y&Hy&<-&<-&<-)%Hback. by apply hi_live0.
  - intros j x (y&Hy&<-&_&<-)%Hback. by apply hi_lease0.
  - intros j k x x' Hlt (y&Hy&<-&_&<-)%Hback (y'&Hy'&<-&_&<-)%Hback. by eapply hi_overlap0.
Qed.

Lemma elem_of_snoc {A} (l : list A) x y : x ∈ l ++ [y] ↔ x ∈ l ∨ x = y.
Proof. rewrite elem_of_app, list_elem_of_singleton. done. Qed.

Lemma apart_snoc log y :
  (∀ p q x z, (p < q)%nat → log !! p = Some x → log !! q = Some z → apart x z) →
  (∀ x, x ∈ log → apart x y) →
  ∀ p q x z, (p < q)%nat → (log ++ [y]) !! p = Some x → (log ++ [y]) !! q = Some z → apart x z.
Proof.
  intros Hlog Hy p q x z Hlt Hp Hq. apply list_lookup_snoc in Hq as [Hq|[-> ->]].
  - apply lookup_lt_Some in Hq as Hql. rewrite lookup_app_l in Hp by lia. exact (Hlog p q x z Hlt Hp Hq).
  - rewrite lookup_app_l in Hp by lia. apply Hy. by apply list_elem_of_lookup_2 in Hp.
Qed.

Lemma hinv_answer ms live clock log r t a :
  t ≤ clock → hinv ms live clock log → hinv ms live clock (log ++ [EAnswer r t a]).
Proof.
  intros Ht [].
  assert (Hs : ∀ i c t0 fp, EStart i c t0 fp ∈ log ++ [EAnswer r t a] ↔ EStart i c t0 fp ∈ log).
  { intros. rewrite elem_of_snoc. split; [by intros [?|?]|by left]. }
  assert (Hr : ∀ i c s t0 fp resp, ERecord i c s t0 fp resp ∈ log ++ [EAnswer r t a] ↔ ERecord i c s t0 fp resp ∈ log).
  { intros. rewrite elem_of_snoc. split; [by intros [?|?]|by left]. }
  assert (He : ∀ c t0, expired_by log c t0 → expired_by (log ++ [EAnswer r t a]) c t0).
  { intros c t0 H1 i s t1 fp resp Hin%Hr. by eapply H1. }
  constructor; try done.
  - intros i x Hi. destruct (hi_live0 i x Hi) as (y&?&?&?&?). exists y. by rewrite Hs.
  - intros i c t0 fp c' t' fp'. rewrite !Hs. apply hi_starts0.
  - intros i c t0 fp. rewrite Hs. apply hi_index0.
  - rewrite Forall_snoc. done.
  - intros c e Hc. destruct (hi_entry0 c e Hc) as [Hf Hok]. split; [done|]. destruct (recorded e).
    + destruct Hok as (?&i&s&t0&resp&Hin&?&?&Hmax). split; [done|]. exists i, s, t0, resp. rewrite Hr.
      split_and!; [done..|]. intros i' s' t' fp' resp' Hin'%Hr. by eapply Hmax.
    + destruct Hok as (i&x&s&?&?&?&?&?&?). exists i, x, s. rewrite Hs. split_and!; [done..|by apply He].
  - intros c Hc. by apply He, hi_none0.
  - apply apart_snoc; [done|]. by intros [] _.
Qed.

(** The lease entry of a receipt, with its start. *)
Lemma lease_owner ms live clock log c e i x :
  hinv ms live clock log → entries ms !! c = Some e → receipts ms !! i = Some x → leaseToken e = rc_token x →
  recorded e = None ∧ ∃ s, EStart i c s (fingerprint e) ∈ log ∧ leaseExpiry e = s + leaseTTL cfg ∧
    expired_by log c s ∧ s ≤ clock.
Proof.
  intros Hinv Hc Hx Htok. destruct (hi_entry _ _ _ _ Hinv c e Hc) as [_ Hok]. destruct (recorded e).
  { destruct Hok as [Hemp _]. exfalso. apply (hi_nonempty _ _ _ _ Hinv i x Hx). congruence. }
  destruct Hok as (j&y&s&Hy&Hcy&Hty&Hs&Hl&Hexp). split; [done|].
  assert (j = i) as -> by (eapply (hi_tokens _ _ _ _ Hinv); [done..|congruence]).
  exists s. split_and!; [done..|]. pose proof (hi_clock _ _ _ _ Hinv) as Hcl. rewrite Forall_forall in Hcl.
  by apply Hcl in Hs.
Qed.

Lemma live_owner ms live clock log i r e x :
  hinv ms live clock log → live !! i = Some r → entries ms !! run_key r = Some e → receipts ms !! i = Some x →
  leaseToken e = rc_token x →
  recorded e = None ∧ fingerprint e = run_fp r ∧ leaseExpiry e = run_start r + leaseTTL cfg ∧
  expired_by log (run_key r) (run_start r) ∧ run_start r ≤ clock.
Proof.
  intros Hinv Hi Hc Hx Htok. destruct (lease_owner _ _ _ _ _ _ _ _ Hinv Hc Hx Htok) as (Hn&s&Hs&Hl&He&Hle).
  destruct (hi_live _ _ _ _ Hinv i r Hi) as (_&_&_&_&Hr).
  destruct (hi_starts _ _ _ _ Hinv _ _ _ _ _ _ _ Hs Hr) as (_&->&->). done.
Qed.

(** Entries stay right when receipts keep their tokens and the log gains nothing
    recorded under their key. *)
Lemma entry_ok_mono ms ms' log log' c e :
  (∀ i x, receipts ms !! i = Some x → ∃ x', receipts ms' !! i = Some x' ∧ composed x' = composed x ∧ rc_token x' = rc_token x) →
  (∀ i t fp, EStart i c t fp ∈ log → EStart i c t fp ∈ log') →
  (∀ i s t fp resp, ERecord i c s t fp resp ∈ log' ↔ ERecord i c s t fp resp ∈ log) →
  entry_ok ms log c e → entry_ok ms' log' c e.
Proof.
  intros Hrc Hst Hrec [Hf Hok]. split; [done|]. destruct (recorded e).
  - destruct Hok as (?&i&s&t&resp&Hin&?&?&Hmax). split; [done|]. exists i, s, t, resp. rewrite Hrec.
    split_and!; [done..|]. intros i' s' t' fp' resp' Hin'%Hrec. by eapply Hmax.
  - destruct Hok as (i&x&s&Hx&Hcx&Htx&Hs&?&He). destruct (Hrc i x Hx) as (x'&Hx'&Hc'&Ht').
    exists i, x', s. split_and!; [done|congruence|congruence|by apply Hst|done|].
    intros i' s' t' fp' resp' Hin'%Hrec. by eapply He.
Qed.

(** An entry that has run out is removed. *)
Lemma hinv_evict ms live clock log c e :
  entries ms !! c = Some e → done_at e clock = false → leased_at e clock = false →
  hinv ms live clock log → hinv (MkStore (delete c (entries ms)) (receipts ms)) live clock log.
Proof.
  intros Hc Hd Hl Hinv. pose proof Hinv as [].
  constructor; cbn; try done.
  - intros c' e' [_ He']%lookup_delete_Some. by apply hi_entry0.
  - intros c' [<-|Hn]%lookup_delete_None; [|by apply hi_none0].
    destruct (hi_entry0 c e Hc) as [_ Hok]. unfold done_at in Hd. destruct (recorded e) as [stored|] eqn:Hrec.
    + destruct Hok as (_&i&s&t&resp&_&_&Hexp&Hmax). rewrite bool_decide_true in Hd by done. cbn in Hd. bools.
      intros i' s' t' fp' resp' Hin. specialize (Hmax _ _ _ _ _ Hin). lia.
    + destruct Hok as (i&x&s&_&_&_&Hs&_&Hexp). eapply expired_by_le; [done|].
      rewrite Forall_forall in hi_clock0. by apply hi_clock0 in Hs.
  - intros i r Hr. destruct (hi_lease0 i r Hr) as [(e'&x&He'&Hx&Htok)|?]; [|by right].
    destruct (decide (run_key r = c)) as [Hk|Hk].
    + right. rewrite Hk, Hc in He'. injection He' as <-. rewrite <- Hk in Hc.
      destruct (live_owner _ _ _ _ _ _ _ _ Hinv Hr Hc Hx Htok) as (_&_&Hle&_).
      assert (Hx' := hi_nonempty0 i x Hx).
      unfold leased_at, str_eqb in Hl. rewrite Htok, bool_decide_false in Hl by done. cbn in Hl. bools. lia.
    + left. exists e', x. by rewrite lookup_delete_ne.
Qed.

Lemma lookup_app_end {A} (l : list A) x i y :
  (l ++ [x]) !! i = Some y → l !! i = Some y ∨ (i = length l ∧ y = x).
Proof. by intros ?%list_lookup_snoc. Qed.

(** A new lease. *)
Lemma hinv_acquire ms live clock log r c fp tok :
  entries ms !! c = None → tok ≠ "" → fp ≠ "" → Forall (λ x, rc_token x ≠ tok) (receipts ms) →
  hinv ms live clock log →
  let n := length (receipts ms) in
  hinv (MkStore (<[c := MkMemEntry tok (clock + leaseTTL cfg) None 0 fp]> (entries ms))
          (receipts ms ++ [MkReceiptState c tok false]))
    (<[n := MkRun r c fp clock None]> live) clock (log ++ [EStart n c clock fp]).
Proof.
  intros Hc Htok Hfp Hfresh Hinv n. pose proof Hinv as []. rewrite Forall_forall in Hfresh.
  assert (Hlt : ∀ i x, live !! i = Some x → (i < n)%nat).
  { intros i x Hx. destruct (hi_live0 i x Hx) as (y&Hy&_). by apply lookup_lt_Some in Hy. }
  assert (Hold : ∀ i x, receipts ms !! i = Some x → (receipts ms ++ [MkReceiptState c tok false]) !! i = Some x).
  { intros i x Hx. apply lookup_lt_Some in Hx as Hl. by rewrite lookup_app_l. }
  assert (Hnew : (receipts ms ++ [MkReceiptState c tok false]) !! n = Some (MkReceiptState c tok false)).
  { apply list_lookup_snoc. by right. }
  assert (Hrec : ∀ i c' s t fp' resp, ERecord i c' s t fp' resp ∈ log ++ [EStart n c clock fp] ↔ ERecord i c' s t fp' resp ∈ log).
  { intros. rewrite elem_of_snoc. split; [by intros [?|?]|by left]. }
  assert (Hexp : ∀ c' t, expired_by log c' t → expired_by (log ++ [EStart n c clock fp]) c' t).
  { intros c' t H1 i s t1 fp' resp Hin%Hrec. by eapply H1. }
  assert (Hrun : ∀ i x, live !! i = Some x → run_key x = c → run_start x + leaseTTL cfg ≤ clock).
  { intros i x Hx Hk. destruct (hi_lease0 i x Hx) as [(e&y&He&_)|?]; [congruence|done]. }
  constructor; cbn [receipts entries].
  - intros i j x y [Hx|[-> ->]]%lookup_app_end [Hy|[-> ->]]%lookup_app_end; cbn.
    + by eapply hi_tokens0.
    + intros Ht. exfalso. apply (Hfresh x); [by apply list_elem_of_lookup_2 in Hx|done].
    + intros Ht. exfalso. apply (Hfresh y); [by apply list_elem_of_lookup_2 in Hy|done].
    + done.
  - intros i x [Hx|[-> ->]]%lookup_app_end; [by eapply hi_nonempty0|done].
  - intros i x [[<- <-]|[Hne Hx]]%lookup_insert_Some.
    + exists (MkReceiptState c tok false). split_and!; try done. apply elem_of_snoc. by right.
    + destruct (hi_live0 i x Hx) as (y&Hy&?&?&?). exists y. split_and!; [by apply Hold|done..|].
      apply elem_of_snoc. by left.
  - intros i c1 t1 f1 c2 t2 f2 [H1|[= -> -> -> ->]]%elem_of_snoc [H2|H2]%elem_of_snoc.
    + by eapply hi_starts0.
    + injection H2 as -> -> -> ->. apply hi_index0 in H1. lia.
    + apply hi_index0 in H2. lia.
    + by injection H2 as -> -> ->.
  - intros i c1 t1 f1. rewrite length_app. cbn. intros [H1|[= -> _ _ _]]%elem_of_snoc; [apply hi_index0 in H1|]; lia.
  - rewrite Forall_snoc. done.
  - intros c' e [[<- <-]|[Hne He]]%lookup_insert_Some.
    + split; [done|]. exists n, (MkReceiptState c tok false), clock. split_and!; try done.
      * apply elem_of_snoc. by right.
      * by apply Hexp, hi_none0.
    + eapply entry_ok_mono; [| | |by apply hi_entry0].
      * intros i x Hx. exists x. split; [by apply Hold|done].
      * intros i t f Hin. apply elem_of_snoc. by left.
      * intros *. apply Hrec.
  - intros c' [Hn Hne]%lookup_insert_None. by apply Hexp, hi_none0.
  - intros i x [[<- <-]|[Hne Hx]]%lookup_insert_Some.
    + left. eexists _, _. cbn. rewrite lookup_insert_eq. by split.
    + destruct (decide (run_key x = c)) as [Hk|Hk]; [right; by eapply Hrun|].
      destruct (hi_lease0 i x Hx) as [(e&y&He&Hy&?)|?]; [left|by right].
      exists e, y. rewrite lookup_insert_ne by done. split_and!; [done|by apply Hold|done].
  - apply apart_snoc; [done|]. intros [i c' t f|i c' s t f resp|] Hin; try done. cbn. intros ->.
    by eapply (hi_none0 _ Hc).
  - intros i j x x' Hij [[<- <-]|[Hne Hx]]%lookup_insert_Some [[<- <-]|[Hne' Hx']]%lookup_insert_Some; cbn.
    + lia.
    + apply Hlt in Hx'. lia.
    + intros Hk. by eapply Hrun.
    + by eapply hi_overlap0.
Qed.

(** ** Settling a receipt whose request is no longer in flight *)

Section settling.
Context ms live clock log (i : nat) (x : memReceiptState).
Context (Hinv : hinv ms live clock log) (Hi : live !! i = None) (Hx : receipts ms !! i = Some x).

Lemma settle_lookup j y :
  settle_receipt ms i x !! j = Some y →
  ∃ y0, receipts ms !! j = Some y0 ∧ composed y = composed y0 ∧ rc_token y = rc_token y0 ∧ (j ≠ i → y = y0).
Proof.
  unfold settle_receipt. intros [(->&<-&_)|[Hne Hy]]%list_lookup_insert_Some; [|by exists y].
  exists x. split_and!; [done..|]. by intros [].
Qed.

Lemma settle_lookup' j y0 :
  receipts ms !! j = Some y0 →
  ∃ y, settle_receipt ms i x !! j = Some y ∧ composed y = composed y0 ∧ rc_token y = rc_token y0 ∧ (j ≠ i → y = y0).
Proof.
  intros Hy. unfold settle_receipt. destruct (decide (j = i)) as [->|Hne].
  - rewrite Hx in Hy. injection Hy as <-. eexists. split; [apply list_lookup_insert_eq; by apply lookup_lt_Some in Hx|].
    split_and!; [done..|]. by intros [].
  - exists y0. by rewrite list_lookup_insert_ne.
Qed.

(** The entries and the log may change as well, under one key. *)
Lemma hinv_settled es log' c :
  composed x = c →
  (∀ c', c' ≠ c → es !! c' = entries ms !! c') →
  (∀ j c' t fp, EStart j c' t fp ∈ log' ↔ EStart j c' t fp ∈ log) →
  (∀ j c' s t fp resp, c' ≠ c → ERecord j c' s t fp resp ∈ log' ↔ ERecord j c' s t fp resp ∈ log) →
  Forall (λ e, event_time e ≤ clock) log' →
  (∀ e, es !! c = Some e → entry_ok (MkStore es (settle_receipt ms i x)) log' c e) →
  (es !! c = None → expired_by log' c clock) →
  (∀ j r, live !! j = Some r → run_key r = c →
     (∃ e y, es !! c = Some e ∧ receipts ms !! j = Some y ∧ leaseToken e = rc_token y) ∨ run_start r + leaseTTL cfg ≤ clock) →
  (∀ p q y z, (p < q)%nat → log' !! p = Some y → log' !! q = Some z → apart y z) →
  hinv (MkStore es (settle_receipt ms i x)) live clock log'.
Proof.
  intros Hcx Hes Hst Hrec Hcl Hent Hnone Hle Hap. pose proof Hinv as [].
  assert (Hother : ∀ c' t, c' ≠ c → expired_by log c' t → expired_by log' c' t).
  { intros c' t Hne H1 j s t1 fp resp Hin%Hrec; [|done]. by eapply H1. }
  constructor; cbn [receipts entries]; try done.
  - intros j k y z (y0&Hy&_&Hty&_)%settle_lookup (z0&Hz&_&Htz&_)%settle_lookup. rewrite Hty, Htz. by eapply hi_tokens0.
  - intros j y (y0&Hy&_&->&_)%settle_lookup. by eapply hi_nonempty0.
  - intros j r Hr. destruct (hi_live0 j r Hr) as (y&Hy&?&?&?).
    assert (j ≠ i) as Hne by congruence. destruct (settle_lookup' j y Hy) as (y'&Hy'&_&_&Heq).
    rewrite (Heq Hne) in Hy'. exists y. rewrite Hst. done.
  - intros j c1 t1 f1 c2 t2 f2. rewrite !Hst. apply hi_starts0.
  - intros j c1 t1 f1. rewrite Hst. unfold settle_receipt. rewrite length_insert. apply hi_index0.
  - intros c' e He. destruct (decide (c' = c)) as [->|Hne]; [by apply Hent|]. rewrite Hes in He by done.
    eapply entry_ok_mono; [| | |by apply hi_entry0].
    + intros j y Hy. destruct (settle_lookup' j y Hy) as (y'&?&?&?&_). by exists y'.
    + intros j t f Hin. by apply Hst.
    + intros *. by apply Hrec.
  - intros c' Hn. destruct (decide (c' = c)) as [->|Hne]; [by apply Hnone|]. rewrite Hes in Hn by done.
    by apply Hother, hi_none0.
  - intros j r Hr. assert (j ≠ i) as Hne by congruence.
    assert (Hkeep : ∀ e y, es !! run_key r = Some e → receipts ms !! j = Some y → leaseToken e = rc_token y →
      ∃ e y, es !! run_key r = Some e ∧ settle_receipt ms i x !! j = Some y ∧ leaseToken e = rc_token y).
    { intros e y He Hy Ht. destruct (settle_lookup' j y Hy) as (y'&Hy'&_&Hty&_). exists e, y'. by rewrite Hty. }
    destruct (decide (run_key r = c)) as [Hk|Hk].
    + destruct (Hle j r Hr Hk) as [(e&y&He&Hy&Ht)|?]; [left|by right]. rewrite <- Hk in He. by eapply Hkeep.
    + destruct (hi_lease0 j r Hr) as [(e&y&He&Hy&Ht)|?]; [left|by right]. rewrite <- Hes in He by done. by eapply Hkeep.
Qed.

Lemma hinv_settle_only : hinv (MkStore (entries ms) (settle_receipt ms i x)) live clock log.
Proof.
  pose proof Hinv as []. eapply (hinv_settled _ _ (composed x)); try done.
  - intros e He. eapply entry_ok_mono; [| | |by apply hi_entry0]; [|done..].
    intros j y Hy. destruct (settle_lookup' j y Hy) as (y'&?&?&?&_). by exists y'.
  - apply hi_none0.
  - intros j r Hr <-. apply hi_lease0. done.
Qed.

(** The owner of a lease is not any other request in flight. *)
Lemma not_owner e j r :
  entries ms !! composed x = Some e → leaseToken e = rc_token x →
  live !! j = Some r → run_key r = composed x → run_start r + leaseTTL cfg ≤ clock.
Proof.
  intros He Ht Hr Hk. destruct (hi_lease _ _ _ _ Hinv j r Hr) as [(e'&y&He'&Hy&Ht')|?]; [|done].
  exfalso. rewrite Hk, He in He'. injection He' as <-.
  assert (j = i) by (eapply (hi_tokens _ _ _ _ Hinv); [done..|congruence]). congruence.
Qed.

Lemma hinv_release e :
  entries ms !! composed x = Some e → leaseToken e = rc_token x →
  hinv (MkStore (delete (composed x) (entries ms)) (settle_receipt ms i x)) live clock log.
Proof.
  intros He Ht. destruct (lease_owner _ _ _ _ _ _ _ _ Hinv He Hx Ht) as (_&s&_&_&Hexp&Hs).
  pose proof Hinv as []. eapply (hinv_settled _ _ (composed x)); try done.
  - intros c' Hne. by rewrite lookup_delete_ne.
  - intros e'. by rewrite lookup_delete_eq.
  - intros _. by eapply expired_by_le.
  - intros j r Hr Hk. right. by eapply not_owner.
Qed.

Lemma hinv_record e s t fp resp stored :
  entries ms !! composed x = Some e → leaseToken e = rc_token x → EStart i (composed x) s fp ∈ log →
  s ≤ t → t ≤ clock → same_response resp stored →
  hinv (MkStore (<[composed x := MkMemEntry "" 0 (Some stored) (t + doneTTL cfg) (fingerprint e)]> (entries ms))
          (settle_receipt ms i x)) live clock (log ++ [ERecord i (composed x) s t fp resp]).
Proof.
  intros He Ht Hst Hst' Htc Hsame.
  destruct (lease_owner _ _ _ _ _ _ _ _ Hinv He Hx Ht) as (_&s'&Hs'&_&Hexp&_). pose proof Hinv as [].
  destruct (hi_starts0 _ _ _ _ _ _ _ Hst Hs') as (_&<-&->).
  destruct (hi_entry0 _ _ He) as [Hfp _].
  eapply (hinv_settled _ _ (composed x)); try done.
  - intros c' Hne. by rewrite lookup_insert_ne.
  - intros *. rewrite elem_of_snoc. split; [by intros [?|?]|by left].
  - intros * Hne. rewrite elem_of_snoc. split; [|by left]. intros [?|[= _ -> _ _ _ _]]; done.
  - by rewrite Forall_snoc.
  - intros e'. rewrite lookup_insert_eq. intros [= <-]. split; [done|]. cbn. split; [done|].
    exists i, s, t, resp. split_and!; try done; [apply elem_of_snoc; by right|].
    intros i' s' t' fp' resp' [Hin|[= _ _ -> _ _]]%elem_of_snoc; [|lia]. specialize (Hexp _ _ _ _ _ Hin). lia.
  - by rewrite lookup_insert_eq.
  - intros j r Hr Hk. right. by eapply not_owner.
  - apply apart_snoc; [done|]. intros [j c' t' f|j c' s1 t' f resp'|] Hin; try done. cbn. intros ->. by eapply Hexp.
Qed.
End settling.

(** ** Claiming *)

Lemma fpMismatch_false a b : a ≠ "" → b ≠ "" → fpMismatch a b = false → a = b.
Proof.
  intros Ha Hb. unfold fpMismatch, str_eqb. rewrite !bool_decide_false by done. cbn. intros ?. bools. done.
Qed.

Lemma generateToken_nonempty en tok : generateToken en = Ok tok → tok ≠ "".
Proof.
  unfold generateToken. case_bool_decide as Hl; [|done]. intros [= <-]. destruct en as [|b en]; [done|]. cbn.
  unfold hex_byte. by rewrite append_String.
Qed.

Lemma acquire_inv ms live clock log en c fp res ms' :
  hinv ms live clock log → fresh_token ms en → fp ≠ "" → entries ms !! c = None →
  acquire ms clock en c fp (leaseTTL cfg) = (res, ms') →
  match res with
  | inl (ClaimFailed _) => hinv ms' live clock log
  | inr (ClaimAcquired, None, memReceipt i) =>
      ∀ r, hinv ms' (<[i := MkRun r c fp clock None]> live) clock (log ++ [EStart i c clock fp])
  | _ => False
  end.
Proof.
  intros Hinv Hfresh Hfp Hc. unfold acquire. destruct (generateToken en) as [tok|e] eqn:Htok; intros [= <- <-]; [|done].
  intros r. apply hinv_acquire; [done|by eapply generateToken_nonempty|done|by apply Hfresh|done].
Qed.

Lemma Claim_inv ms live clock now log en k fp res ms' :
  hinv ms live clock log → clock ≤ now → fresh_token ms en → fp ≠ "" →
  Claim ms now en k fp (leaseTTL cfg) = (res, ms') →
  match res with
  | inl _ | inr (ClaimBusy, None, _) => hinv ms' live now log
  | inr (ClaimDone, Some stored, _) =>
      hinv ms' live now log ∧
      ∃ i s t resp, ERecord i (Flat k) s t fp resp ∈ log ∧ same_response resp stored ∧ t ≤ now < t + doneTTL cfg
  | inr (ClaimAcquired, None, memReceipt i) =>
      ∀ r, hinv ms' (<[i := MkRun r (Flat k) fp now None]> live) now (log ++ [EStart i (Flat k) now fp])
  | _ => False
  end.
Proof.
  intros Hinv Hle Hfresh Hfp. apply (hinv_clock _ _ _ now) in Hinv; [|done]. unfold Claim. fold (Flat k).
  destruct (_ || _); [intros [= <- <-]; done|].
  destruct (entries ms !! Flat k) as [e|] eqn:He.
  2:{ intros Ha. eapply acquire_inv in Ha; [|done..]. by destruct res as [[]|[[[] []] []]]. }
  unfold checkFingerprintEntry. destruct ((done_at e now || leased_at e now) && _) eqn:Hmis; [intros [= <- <-]; done|].
  destruct (done_at e now) eqn:Hd.
  - intros [= <- <-]. cbn in Hmis. destruct (hi_entry _ _ _ _ Hinv _ _ He) as [Hf Hok].
    unfold done_at in Hd. bools. match goal with H : is_Some _ |- _ => destruct H as [stored Hrec] end.
    rewrite Hrec in *. split; [done|]. destruct Hok as (_&i&s&t&resp&Hin&Hsame&Hexp&_).
    apply fpMismatch_false in Hmis as <-; [|done..]. exists i, s, t, resp.
    pose proof (hi_clock _ _ _ _ Hinv) as Hcl. rewrite Forall_forall in Hcl. apply Hcl in Hin as Ht. cbn in Ht.
    split_and!; [done..|lia].
  - destruct (leased_at e now) eqn:Hl; [intros [= <- <-]; done|].
    intros Ha. eapply acquire_inv in Ha; [|by eapply hinv_evict|done|done|apply lookup_delete_eq].
    by destruct res as [[]|[[[] []] []]].
Qed.
End invariant.

(** ** The system *)

Section system.
Context {M : Type} (hashHex : bytes → string) (opts : list HOption) (next : handler M).
Abbreviation cfg := (configure opts).

Definition body_fp (r : request) : option string :=
  match r_body r with Ok b => Some (computeFingerprint hashHex b) | Err _ => None end.

(** A response the handler made of a request with this key and body. *)
Definition genuine (c fp : string) (resp : RecordedResponse) : Prop :=
  ∃ r m bw m', run_handler cfg next r m = (Some bw, m') ∧ tracked_key r = Some c ∧ body_fp r = Some fp ∧
    didCommit (bs bw) = true ∧ shouldRecord (statusCode (bs bw)) = true ∧ oversized (bs bw) = false ∧
    same_response resp (MkRecorded (statusCode (bs bw)) (buf (bs bw))
                          (filterSensitiveHeaders (capturedHeader (bs bw))) 0).

Record sys_ok (s : sys M) : Prop := {
  so_inv : hinv cfg (hs_store s) (hs_live s) (hs_clock s) (hs_log s);
  so_runs i r : hs_live s !! i = Some r →
    tracked_key (run_req r) = Some (run_key r) ∧ body_fp (run_req r) = Some (run_fp r) ∧
    ∀ b, run_out r = Some (Some b) → ∃ m bw m', run_handler cfg next (run_req r) m = (Some bw, m') ∧ bs bw = b;
  so_genuine i c st t fp resp : ERecord i c st t fp resp ∈ hs_log s → genuine c fp resp;
  so_replays p r t w : hs_log s !! p = Some (EAnswer r t (Replay w)) →
    ∃ fp, body_fp r = Some fp ∧ replay_ok cfg (take p (hs_log s)) r fp t w;
}.

Lemma computeFingerprint_nonempty b : computeFingerprint hashHex b ≠ "".
Proof. unfold computeFingerprint, encode_blob. by rewrite append_String. Qed.

(** The requests that reach the claim. *)
Lemma ServeHTTP_claim_inv {S} `{!IdemStore S} (st : S) now en r d st' :
  ServeHTTP_claim hashHex cfg st now en r = (Some d, st') →
  (st' = st ∧ (d = Next ∨ ∃ e, d = Answer (ErrorReply e [] (r_outer r)))) ∨
  ∃ k fp, tracked_key r = Some (Flat k) ∧ body_fp r = Some fp ∧ fp ≠ "" ∧
    handle_claim cfg st now en r k fp = (Some d, st').
Proof.
  unfold ServeHTTP_claim, tracked_key, body_fp.
  destruct (exempt r); [intros [= <- <-]; left; by auto|].
  destruct (negb _); [intros [= <- <-]; left; by auto|].
  destruct (extractIdentity r) as [p|]; [|intros [= <- <-]; left; by auto].
  destruct (validateKeyValue _) as [u|e]; [|intros [= <- <-]; left; by eauto].
  destruct (r_body r) as [body|e]; [|intros [= <- <-]; left; by eauto].
  destruct (NewRequestIdentity _ _ _) as [u'|e]; [|intros [= <- <-]; left; by eauto].
  intros Hh. right. eexists _, _. split_and!; [done..|apply computeFingerprint_nonempty|exact Hh].
Qed.

Lemma replayResponse_same outer a b :
  same_response a b → replayResponse outer a = replayResponse outer b.
Proof. intros (H1&H2&H3). unfold replayResponse. by rewrite H1, H2, H3. Qed.

Lemma take_app_last {A} (l : list A) x : take (length l) (l ++ [x]) = l.
Proof. by rewrite take_app_length. Qed.

Lemma sys_ok_answer ms m live clock log r now a :
  sys_ok (MkSys ms m live clock log) →
  (∀ w, a = Replay w → ∃ fp, body_fp r = Some fp ∧ replay_ok cfg log r fp now w) →
  ∀ ms', hinv cfg ms' live now log → sys_ok (MkSys ms' m live now (log ++ [EAnswer r now a])).
Proof.
  intros [Hi Hr Hg Hp] Ha ms' Hinv. constructor; cbn in *.
  - by apply hinv_answer.
  - done.
  - intros i c st t fp resp [Hin|?]%elem_of_snoc; [by eapply Hg|done].
  - intros p r' t w [Hin|[-> [= -> -> <-]]]%list_lookup_snoc.
    + apply lookup_lt_Some in Hin as Hl. rewrite take_app_le by lia. by apply Hp.
    + rewrite take_app_last. by apply Ha.
Qed.

(** What the claim decides, and the invariant after it. *)
Lemma handle_claim_inv ms live clock log now en r k fp d ms' :
  hinv cfg ms live clock log → clock ≤ now → fresh_token ms en → fp ≠ "" →
  tracked_key r = Some (Flat k) → handle_claim cfg ms now en r k fp = (Some d, ms') →
  match d with
  | Next => False
  | Answer a => hinv cfg ms' live now log ∧ ∀ w, a = Replay w → replay_ok cfg log r fp now w
  | Run k' fp' rc => k' = k ∧ fp' = fp ∧ ∃ i, rc = memReceipt i ∧
      ∀ r', hinv cfg ms' (<[i := MkRun r' (Flat k) fp now None]> live) now (log ++ [EStart i (Flat k) now fp])
  end.
Proof.
  intros Hinv Hle Hfresh Hfp Hk. unfold handle_claim. cbn [st_Claim MemStore_IdemStore].
  destruct (MemStore.Claim ms now en k fp (leaseTTL cfg)) as [res ms1] eqn:HC.
  destruct (configure_pos opts) as (_&Hl&Hdn).
  apply (Claim_inv cfg ms live clock now log en k fp res ms1 Hinv Hle Hfresh Hfp) in HC.
  destruct res as [[stored|e]|[[[] rec] rc]].
  - intros [= <- <-]. by split.
  - intros [= <- <-]. by split.
  - destruct rec, rc as [|i]; try done. intros [= <- <-]. split; [done|]. split; [done|]. by exists i.
  - destruct rec as [stored|]; [|done]. destruct HC as [Hinv' (i&s&t&resp&Hin&Hsame&Ht)].
    destruct (replayResponse (r_outer r) stored) as [w|] eqn:Hw; [|done]. intros [= <- <-]. split; [done|].
    intros w' [= <-]. exists i, (Flat k), s, t, resp. split_and!; [done|done|lia|lia|].
    by rewrite (replayResponse_same _ _ _ Hsame).
  - destruct rec; [done|]. intros [= <- <-]. by split.
  - done.
Qed.

Lemma settle_Record ms now now' now'' i s rec ms' :
  settle cfg ms now now' now'' (memReceipt i) (Some s) = (Some rec, ms') →
  didCommit s = true ∧ shouldRecord (statusCode s) = true ∧ oversized s = false ∧
  rec = newRecordedResponse now (statusCode s) (buf s) (filterSensitiveHeaders (capturedHeader s)) ∧
  MemStore.Record_ ms (memReceipt i) now' now'' rec (doneTTL cfg) = (Ok tt, ms').
Proof.
  unfold settle. destruct (_ && _) eqn:Hb; [|done].
  apply andb_prop in Hb as [[H1 H2]%andb_prop H3%negb_true_iff].
  cbn [st_Record MemStore_IdemStore]. destruct (MemStore.Record_ _ _ _ _ _ _) as [[[]|e] ms1] eqn:HR; [|done].
  intros [= <- <-]. done.
Qed.

(** Settling keeps the invariant, whether it records or not. *)
Lemma settle_inv ms live clock log i r key fp st b now now' now'' rec ms' :
  hinv cfg ms live clock log → live !! i = Some (MkRun r key fp st (Some b)) →
  clock ≤ now → now ≤ now' → now' ≤ now'' →
  settle cfg ms now now' now'' (memReceipt i) b = (rec, ms') →
  hinv cfg ms' (delete i live) now''
    (log ++ match rec with Some resp => [ERecord i key st now' fp resp] | None => [] end).
Proof.
  intros Hinv Hi H1 H2 H3 Hs. destruct (configure_pos opts) as (_&Hl&Hdn).
  destruct (hi_live _ _ _ _ _ Hinv i _ Hi) as (x&Hx&Hcx&Hsx&Hst). cbn in Hcx, Hst.
  assert (Hcl : st ≤ clock).
  { pose proof (hi_clock _ _ _ _ _ Hinv) as Hc. rewrite Forall_forall in Hc. by apply Hc in Hst. }
  assert (Hd : hinv cfg ms (delete i live) now'' log).
  { apply hinv_drop. eapply hinv_clock; [|done]. lia. }
  assert (Hnone : delete i live !! i = None) by apply lookup_delete_eq.
  assert (Hrel : ∀ ms1, (MemStore.Release ms (memReceipt i)).2 = ms1 → hinv cfg ms1 (delete i live) now'' log).
  { intros ms1 <-. unfold MemStore.Release. rewrite Hx, Hsx. cbn.
    destruct (MemStore.entries ms !! MemStore.composed x) as [e|] eqn:He; [|by eapply hinv_settle_only].
    destruct (_ ==s _) eqn:Ht; cbn; [|by eapply hinv_settle_only]. bools. by eapply hinv_release. }
  destruct b as [b|].
  2:{ cbn in Hs. injection Hs as <- <-. rewrite app_nil_r. by apply Hrel. }
  destruct rec as [rec|].
  - apply settle_Record in Hs as (_&_&_&_&HR). unfold MemStore.Record_ in HR. rewrite Hx, Hsx in HR.
    destruct (MemStore.entries ms !! MemStore.composed x) as [e|] eqn:He; [|done].
    destruct (_ ==s _) eqn:Ht; cbn in HR; [|done]. injection HR as <-. bools. subst key.
    eapply hinv_record; try done. lia.
  - rewrite app_nil_r. unfold settle in Hs. cbn [st_Record st_Release MemStore_IdemStore] in Hs.
    destruct (_ && _); [|injection Hs as <-; by apply Hrel].
    destruct (MemStore.Record_ _ _ _ _ _ _) as [[u|e] ms1] eqn:HR; [done|]. injection Hs as <-.
    unfold MemStore.Record_ in HR. rewrite Hx, Hsx in HR.
    assert (ms1 = MemStore.MkStore (MemStore.entries ms) (MemStore.settle_receipt ms i x)) as ->.
    { destruct (MemStore.entries ms !! _); [|by injection HR]. destruct (negb _); by injection HR. }
    cbn. unfold MemStore.settle_receipt at 1. rewrite list_lookup_insert_eq by (by apply lookup_lt_Some in Hx).
    cbn. by eapply hinv_settle_only.
Qed.

Lemma hstep_ok s s' : hstep hashHex cfg next s s' → sys_ok s → sys_ok s'.
Proof.
  intros Hstep Hok. pose proof Hok as [Hinv Hruns Hgen Hrep]. destruct Hstep as
    [r now en a ms ms' m live clock log Hle Hfresh HS|r now en k fp i ms ms' m live clock log Hle Hfresh HS
    |r now en ms ms' m live clock log HS|i r key fp st ms m bw m' live clock log Hi Hrun
    |i r key fp st b now now' now'' ms rec ms' m live clock log Hi H1 H2 H3 Hs|i ms m live clock log]; cbn in *.
  - apply ServeHTTP_claim_inv in HS as [(->&[?|(e&[= ->])])|(k&fp&Hk&Hf&Hne&HS)]; [done| |].
    + eapply sys_ok_answer; [done|done|by eapply hinv_clock].
    + eapply handle_claim_inv in HS as [Hinv' Hw]; [|done..]. eapply sys_ok_answer; [done| |done].
      intros w Ha. exists fp. split; [done|by apply Hw].
  - apply ServeHTTP_claim_inv in HS as [(_&[?|(e&?)])|(k'&fp'&Hk&Hf&Hne&HS)]; [done..|].
    eapply handle_claim_inv in HS as (<-&<-&i'&[= <-]&Hnew); [|done..].
    constructor; cbn; [by apply Hnew| | |].
    + intros j x [[<- <-]|[_ Hx]]%lookup_insert_Some; [done|by eapply Hruns].
    + intros j c st t f resp [Hin|?]%elem_of_snoc; [by eapply Hgen|done].
    + intros p r' t w [Hin|[_ ?]]%list_lookup_snoc; [|done].
      apply lookup_lt_Some in Hin as Hl. rewrite take_app_le by lia. by apply Hrep.
  - apply ServeHTTP_claim_inv in HS as [(->&_)|(k'&fp'&Hk&Hf&Hne&HS)].
    + by constructor.
    + unfold handle_claim in HS. exfalso.
      destruct (st_Claim _ _ _ _ _ _) as [[[]|[[[] []] []]] ?]; simplify_eq/=; try done;
        by destruct (replayResponse _ _).
  - constructor; cbn; [by eapply hinv_out| |done|done].
    intros j x [[<- <-]|[_ Hx]]%lookup_insert_Some; [|by eapply Hruns].
    destruct (Hruns _ _ Hi) as (Hk&Hf&_). split_and!; [done..|]. intros b. cbn.
    destruct bw as [bw|]; [|done]. intros [= <-]. by exists m, bw, m'.
  - constructor; cbn.
    + by eapply settle_inv.
    + intros j x [_ Hx]%lookup_delete_Some. by eapply Hruns.
    + intros j c st' t f resp [Hin|Hin]%elem_of_app; [by eapply Hgen|].
      destruct rec as [rec|]; [|by apply elem_of_nil in Hin]. apply list_elem_of_singleton in Hin as [= -> -> -> -> -> ->].
      destruct b as [b|]; [|done]. apply settle_Record in Hs as (Hc&Hr&Ho&->&_).
      destruct (Hruns _ _ Hi) as (Hk&Hf&Hout). destruct (Hout b eq_refl) as (m0&bw&m'&Hrun&<-).
      by exists r, m0, bw, m'.
    + intros p r' t w Hp. destruct rec as [rec|]; [|rewrite app_nil_r in *; by apply Hrep].
      apply list_lookup_snoc in Hp as [Hin|[_ ?]]; [|done].
      apply lookup_lt_Some in Hin as Hl. rewrite take_app_le by lia. by apply Hrep.
  - constructor; cbn; [by apply hinv_drop| |done|done]. intros j x [_ Hx]%lookup_delete_Some. by eapply Hruns.
Qed.

Lemma reachable_ok m t s : rtc (hstep hashHex cfg next) (hs_init m t) s → sys_ok s.
Proof.
  intros Hr. cut (sys_ok (hs_init m t)).
  { induction Hr as [|s1 s2 s3 H1 _ IH]; [done|]. intros ?. by eapply IH, hstep_ok. }
  constructor; cbn; [apply hinv_init|by intros i r; rewrite lookup_empty|by intros * ?%elem_of_nil|].
  by intros p r t' w; rewrite lookup_nil.
Qed.
End system.

(** ** What a replay looks like *)

Definition canonical_keys (h : header) : Prop := ∀ k, is_Some (h !! k) → CanonicalMIMEHeaderKey k = k.

Lemma values_Add k v h k' :
  CanonicalMIMEHeaderKey k = k →
  values (header_Add k v h) k' = if decide (k' = k) then values h k' ++ [v] else values h k'.
Proof.
  intros Hk. unfold header_Add, values. cbv zeta. rewrite Hk. case_decide as Hd; [subst; by rewrite lookup_insert_eq|].
  by rewrite lookup_insert_ne.
Qed.

Lemma values_Add_list k vs h k' :
  CanonicalMIMEHeaderKey k = k →
  values (foldl (λ h v, header_Add k v h) h vs) k' = if decide (k' = k) then values h k' ++ vs else values h k'.
Proof.
  intros Hk. revert h. induction vs as [|v vs IH]; intros h; cbn; [case_decide; by rewrite ?app_nil_r|].
  rewrite IH, values_Add by done. case_decide; [|done]. by rewrite <- (assoc_L (++)).
Qed.

Lemma values_add_list l h k :
  NoDup l.*1 → (∀ kv, kv ∈ l → CanonicalMIMEHeaderKey kv.1 = kv.1) →
  values (foldl (λ h kv, foldl (λ h v, header_Add kv.1 v h) h kv.2) h l) k =
  values h k ++ match list_find (λ kv, kv.1 = k) l with Some (_, kv) => kv.2 | None => [] end.
Proof.
  revert h. induction l as [|[k1 vs] l IH]; intros h Hnd Hc; cbn; [by rewrite app_nil_r|].
  apply NoDup_cons in Hnd as [Hk1 Hnd]. rewrite IH; [|done|intros kv Hkv; apply Hc; by right].
  rewrite values_Add_list by (apply (Hc (k1, vs)); by left). destruct (decide (k = k1)) as [->|Hne].
  - rewrite decide_True by done. destruct (list_find _ l) as [[i kv]|] eqn:Hf; cbn; [|by rewrite app_nil_r].
    apply list_find_Some in Hf as (Hi&Heq&_). exfalso. apply Hk1, list_elem_of_fmap. exists kv.
    split; [done|]. by apply list_elem_of_lookup_2 in Hi.
  - rewrite decide_False by done. by destruct (list_find _ l) as [[i kv]|].
Qed.

(** The values recorded follow those already set. *)
Lemma values_add_all outer h k :
  canonical_keys h → values (header_add_all outer h) k = values outer k ++ values h k.
Proof.
  intros Hc. unfold header_add_all. rewrite values_add_list.
  - f_equal. unfold values. destruct (h !! k) as [vs|] eqn:Hk; cbn.
    + destruct (list_find _ _) as [[i [k' vs']]|] eqn:Hf.
      * apply list_find_Some in Hf as (Hi&Heq&_). cbn in *. subst k'.
        apply list_elem_of_lookup_2, elem_of_map_to_list in Hi. congruence.
      * exfalso. eapply list_find_None in Hf. rewrite Forall_forall in Hf.
        apply (Hf (k, vs)); [by apply elem_of_map_to_list|done].
    + destruct (list_find _ _) as [[i [k' vs']]|] eqn:Hf; [|done].
      apply list_find_Some in Hf as (Hi&Heq&_). cbn in *. subst k'.
      apply list_elem_of_lookup_2, elem_of_map_to_list in Hi. congruence.
  - apply NoDup_fst_map_to_list.
  - intros [k' vs] Hin%elem_of_map_to_list. apply Hc. by eexists.
Qed.

Lemma replayResponse_spec outer rec :
  shouldRecord (rr_status rec) = true →
  ∃ w h, replayResponse outer rec = Some w ∧ sent w = Some (rr_status rec, h) ∧
    out w = (if bodyAllowed (rr_status rec) then rr_body rec else "") ∧
    values h headerIdempotencyReplayed = ["true"] ∧
    (canonical_keys (rr_header rec) →
     ∀ k, k ≠ headerIdempotencyReplayed → values h k = values outer k ++ values (rr_header rec) k).
Proof.
  intros [Hlo Hhi]%andb_prop. unfold replayResponse.
  set (h := header_Set _ _ _). rewrite Z.geb_leb in Hlo. bools.
  assert (Hw : rw_WriteHeader (rr_status rec) (MkRW h None "") = Some (MkRW h (Some (rr_status rec, h)) "")).
  { unfold rw_WriteHeader. cbn [sent]. rewrite bool_decide_false by (by intros [? ?]).
    destruct (_ || _) eqn:Hb; [apply orb_prop in Hb as [Hb|Hb]; bools; lia|].
    destruct (_ && _) eqn:Hi; [bools; lia|done]. }
  rewrite Hw. eexists _, h. split; [done|]. unfold rw_Write, begin_body. cbn [sent].
  rewrite bool_decide_true by done. cbn [sent out fst snd]. split; [done|]. split; [|split].
  - destruct (bodyAllowed _); [by rewrite Nat.min_id, byte_take_all|]. by destruct (rr_body rec).
  - unfold h, header_Set, values. by rewrite lookup_insert_eq.
  - intros Hc k Hk. rewrite <- values_add_all by done. unfold h, header_Set, values.
    by rewrite lookup_insert_ne by (intros <-; by apply Hk).
Qed.

(** A sensitive header set through the header's methods is not recorded. *)
Lemma filter_sensitive h name :
  name ∈ sensitiveResponseHeaders → filterSensitiveHeaders h !! CanonicalMIMEHeaderKey name = None.
Proof.
  unfold filterSensitiveHeaders. generalize sensitiveResponseHeaders as l. intros l. revert h.
  assert (Hkeep : ∀ l (h : header) k, h !! k = None → foldl (λ h name, header_Del name h) h l !! k = None).
  { induction l0 as [|n l0 IH]; intros h k Hk; [done|]. cbn. apply IH. unfold header_Del.
    apply lookup_delete_None. by right. }
  induction l as [|n l IH]; intros h Hin; [by apply elem_of_nil in Hin|].
  apply elem_of_cons in Hin as [->|Hin]; cbn; [|by apply IH].
  apply Hkeep. unfold header_Del. apply lookup_delete_eq.
Qed.

Lemma filter_sensitive_sub h k vs : filterSensitiveHeaders h !! k = Some vs → h !! k = Some vs.
Proof.
  unfold filterSensitiveHeaders. generalize sensitiveResponseHeaders as l. intros l. revert h.
  induction l as [|n l IH]; intros h; cbn; [done|]. intros H%IH. unfold header_Del in H. by apply lookup_delete_Some in H as [_ H].
Qed.

(** ** The guarantees *)

(** A body is sent only after a status that allows one. *)
Definition body_ok (w : rw) : Prop :=
  out w = "" ∨ ∃ c h, sent w = Some (c, h) ∧ bodyAllowed c = true.

Lemma body_ok_begin w : body_ok w → body_ok (begin_body w).
Proof.
  intros [Ho|(c&h&Hs&Hb)]; [left; by destruct (begin_body_sent w) as (_&_&_&->&_)|].
  unfold begin_body. rewrite bool_decide_true by eauto. right. eauto.
Qed.

Lemma body_ok_Write b takes w : body_ok w → body_ok (rw_Write b takes w).2.
Proof.
  intros Hw. destruct (begin_body_sent w) as (c&h&Hs&Ho&Hcase). unfold body_ok, rw_Write. cbn [sent out snd]. rewrite Hs, Ho.
  destruct (bodyAllowed c) eqn:Hb; [right; by eauto|]. left.
  assert (out w = "") as ->; [|by destruct b].
  destruct Hw as [?|(c'&h'&Hs'&Hb')]; [done|]. destruct Hcase as [(?&_)|?]; [congruence|]. exfalso. congruence.
Qed.

Lemma body_ok_run ops w w' full : rw_run ops w = Some (w', full) → body_ok w → body_ok w'.
Proof.
  revert w full. induction ops as [|op ops IH]; intros w full; cbn [rw_run]; [by intros [= <- <-]|].
  destruct (rw_step op w) as [[w1 f1]|] eqn:Hop; [|done].
  destruct (rw_run ops w1) as [[w2 f2]|] eqn:Hrun; [|done]. intros [= <- _] Hw. eapply IH; [done|].
  destruct op as [k v|k v|k|k vs|code|b takes|chunks takes|]; cbn in Hop;
    try (injection Hop as <- _; first [exact Hw|by apply body_ok_Write|by apply body_ok_begin]).
  unfold rw_WriteHeader in Hop. case_bool_decide as Hsent; [by injection Hop as <- _|].
  destruct (_ || _); [done|]. destruct (_ && _); injection Hop as <- _; [done|].
  destruct Hw as [?|(c&h&Hs&_)]; [by left|]. by destruct Hsent; rewrite Hs.
Qed.

Lemma run_handler_inv {M} cfg (next : handler M) r m bw m' :
  run_handler cfg next r m = (Some bw, m') →
  ∃ ops, next r m = (ops, false, m') ∧ bw_run ops (newBufferingWriter (MkRW (r_outer r) None "") (maxBodyBytes cfg)) = Some bw.
Proof.
  unfold run_handler. destruct (next r m) as [[ops panics] m1]. intros Hr. exists ops. revert Hr.
  destruct (bw_run _ _) as [bw'|]; [|done]. by destruct panics; intros [= <- <-].
Qed.

Lemma values_filter h k :
  values (filterSensitiveHeaders h) k =
  if bool_decide (k ∈ CanonicalMIMEHeaderKey <$> sensitiveResponseHeaders) then [] else values h k.
Proof.
  case_bool_decide as Hk.
  - apply list_elem_of_fmap in Hk as (n&->&Hn). unfold values. by rewrite filter_sensitive.
  - revert Hk. unfold filterSensitiveHeaders. generalize sensitiveResponseHeaders as l. intros l. revert h.
    induction l as [|n l IH]; intros h Hk; [done|]. cbn. rewrite fmap_cons, not_elem_of_cons in Hk. destruct Hk as [Hne Hk].
    rewrite IH by done. unfold values, header_Del. by rewrite lookup_delete_ne.
Qed.

Lemma canonical_filter h : canonical_keys h → canonical_keys (filterSensitiveHeaders h).
Proof. intros Hc k [vs Hvs]. apply Hc. exists vs. by apply filter_sensitive_sub. Qed.

Lemma elem_of_take_sub {A} (l : list A) n x : x ∈ take n l → x ∈ l.
Proof. intros Hx. rewrite <- (take_drop n l). apply elem_of_app. by left. Qed.

(** What the tee keeps of a handler's response is what the connection was sent. *)
Lemma recorded_as_sent ops h m bw :
  0 < m → orderly ops (MkRW h None "") = true →
  bw_run ops (newBufferingWriter (MkRW h None "") m) = Some bw → didCommit (bs bw) = true →
  ∃ w0 full, rw_run ops (MkRW h None "") = Some (w0, full) ∧
    sent w0 = Some (statusCode (bs bw), capturedHeader (bs bw)) ∧ body_ok w0 ∧
    (full = true → if oversized (bs bw) then m ≤ byte_len (out w0) else buf (bs bw) = out w0).
Proof.
  intros Hm Hops Hbw Hd. pose proof (tees_run m ops _ (MkRW h None "") true Hm Hops (tees_new m (MkRW h None "") Hm eq_refl eq_refl)) as Ht.
  destruct (rw_run ops (MkRW h None "")) as [[w0 full]|] eqn:Hrun; [|by rewrite Hbw in Ht].
  destruct Ht as (bw'&Hbw'&[Hu _ _ Hc Hh]). rewrite Hbw in Hbw'. injection Hbw' as <-.
  exists w0, full. split; [done|]. split; [|split; [eapply body_ok_run; [done|by left]|done]]. unfold capturedHeader.
  destruct (sent w0) as [[c h0]|]; [by destruct Hc as (_&->&->)|]. destruct Hc as [Hc _]. congruence.
Qed.

(** ** A request and its retry *)

Section retry.
Context {M : Type} (hashHex : bytes → string) (opts : list HOption) (next : handler M).
Abbreviation cfg := (configure opts).
Import MemStore.

(** The key and the fingerprint of a request that is tracked. *)
Definition claim_of (r : request) : option (IdempotencyKey * string) :=
  if exempt r || negb (shouldIntercept r) then None
  else
    match extractIdentity r, r_body r with
    | Some p, Ok body =>
        let idemKey := header_Get (r_header r) headerIdempotencyKey in
        match validateKeyValue idemKey with
        | Ok _ => Some (DeriveKey (p_TenantID p) (p_Subject p) (r_method r) (r_path r) idemKey, computeFingerprint hashHex body)
        | Err _ => None
        end
    | _, _ => None
    end.

(** The response of this run is kept. *)
Definition recordable (bw : option bufferingWriter) : bool :=
  match bw with
  | Some bw => didCommit (bs bw) && shouldRecord (statusCode (bs bw)) && negb (oversized (bs bw))
  | None => false
  end.

Lemma claim_of_spec (st : store) now en r k fp :
  claim_of r = Some (k, fp) →
  ServeHTTP_claim hashHex cfg st now en r = handle_claim cfg st now en r k fp ∧
  Namespace k ≠ "" ∧ Key k ≠ "" ∧ fp ≠ "".
Proof.
  unfold claim_of, ServeHTTP_claim, NewRequestIdentity. destruct (exempt r); [done|]. cbn [orb].
  destruct (negb (shouldIntercept r)); [done|]. destruct (extractIdentity r) as [p|]; [|done].
  destruct (r_body r) as [body|]; [|done]. cbn zeta. destruct (validateKeyValue _); [|done]. intros [= <- <-].
  split; [done|]. cbn [Namespace Key DeriveKey]. split_and!; [| |apply computeFingerprint_nonempty].
  - destruct (p_TenantID p ==s "") eqn:Ht; bools; done.
  - by destruct (p_Subject p).
Qed.

(** Settling a lease nobody has taken over. *)
Lemma settle_held es rs c tok fp t now now1 now2 bw :
  let ms := MkStore (<[c := MkMemEntry tok t None 0 fp]> es) (rs ++ [MkReceiptState c tok false]) in
  let ms' := (settle cfg ms now now1 now2 (memReceipt (length rs)) (bs <$> bw)).2 in
  if recordable bw
  then ∃ stored, entries ms' !! c = Some (MkMemEntry "" 0 (Some stored) (now1 + doneTTL cfg) fp) ∧
         shouldRecord (rr_status stored) = true
  else entries ms' !! c = None.
Proof.
  intros ms ms'.
  assert (Hlast : receipts ms !! length rs = Some (MkReceiptState c tok false)) by (by apply list_lookup_middle).
  assert (Hrel : entries (Release ms (memReceipt (length rs))).2 !! c = None).
  { unfold Release. rewrite Hlast. cbn. rewrite lookup_insert_eq. cbn. unfold str_eqb. rewrite bool_decide_true by done.
    cbn. apply lookup_delete_eq. }
  subst ms'. unfold settle, recordable. cbn [st_Record st_Release MemStore_IdemStore].
  destruct bw as [[u b mx]|]; cbn [fmap option_fmap option_map bs]; [|done].
  destruct (didCommit b && _ && _) eqn:Hgood; [|done].
  unfold Record_. rewrite Hlast. cbn. rewrite lookup_insert_eq. cbn. unfold str_eqb. rewrite bool_decide_true by done.
  cbn. rewrite lookup_insert_eq. eexists. split; [done|]. by apply andb_prop in Hgood as [[_ Hg]%andb_prop _].
Qed.

Lemma handle_claim_free ms now en r k fp :
  Namespace k ≠ "" → Key k ≠ "" → entries ms !! Flat k = None → length en = 16%nat →
  handle_claim cfg ms now en r k fp =
  (Some (Run k fp (memReceipt (length (receipts ms)))),
   MkStore (<[Flat k := MkMemEntry (hex_bytes en) (now + leaseTTL cfg) None 0 fp]> (entries ms))
     (receipts ms ++ [MkReceiptState (Flat k) (hex_bytes en) false])).
Proof.
  intros Hn Hk Hfree Hen. unfold handle_claim. cbn [st_Claim MemStore_IdemStore]. unfold Claim, acquire. fold (Flat k).
  unfold str_eqb. rewrite !bool_decide_false by done. cbn [orb]. rewrite Hfree. unfold generateToken.
  by rewrite bool_decide_true by done.
Qed.

(** A request whose key is free. *)
Lemma first_request ms m now now1 now2 now3 en r k fp :
  claim_of r = Some (k, fp) → entries ms !! Flat k = None → length en = 16%nat →
  let run := run_handler cfg next r m in
  ∃ i rec ms1, ServeHTTP hashHex cfg next ms m now now1 now2 now3 en r = (Some (Run k fp (memReceipt i)), run.1, rec, ms1, run.2) ∧
    if recordable run.1
    then ∃ stored, entries ms1 !! Flat k = Some (MkMemEntry "" 0 (Some stored) (now2 + doneTTL cfg) fp) ∧
           shouldRecord (rr_status stored) = true
    else entries ms1 !! Flat k = None.
Proof.
  intros Hc Hfree Hen. destruct (claim_of_spec ms now en r k fp Hc) as (Hclaim&Hn&Hk&Hf).
  unfold ServeHTTP. rewrite Hclaim, handle_claim_free by done.
  destruct (run_handler cfg next r m) as [bw m1]. cbn [fst snd].
  pose proof (settle_held (entries ms) (receipts ms) (Flat k) (hex_bytes en) fp (now + leaseTTL cfg) now1 now2 now3 bw) as Hs.
  cbn zeta in Hs. destruct (settle _ _ _ _ _ _ _) as [rec ms1]. by exists (length (receipts ms)), rec, ms1.
Qed.

(** A request whose key has a response. *)
Lemma recorded_request ms m now now1 now2 now3 en r k fp fp0 stored exp :
  claim_of r = Some (k, fp) → entries ms !! Flat k = Some (MkMemEntry "" 0 (Some stored) exp fp0) →
  now < exp → fp0 ≠ "" → shouldRecord (rr_status stored) = true →
  ∃ a, ServeHTTP hashHex cfg next ms m now now1 now2 now3 en r = (Some (Answer a), None, None, ms, m) ∧
    if decide (fp = fp0) then ∃ w, a = Replay w ∧ replayResponse (r_outer r) stored = Some w
    else ∃ details, a = ErrorReply (Errcode KindUnprocessable "ERR_IDEMPOTENCY_KEY_REUSED" msgKeyReused) details (r_outer r).
Proof.
  intros Hc He Hexp Hfp0 Hsr. destruct (claim_of_spec ms now en r k fp Hc) as (Hclaim&Hn&Hk&Hf).
  unfold ServeHTTP. rewrite Hclaim. unfold handle_claim. cbn [st_Claim MemStore_IdemStore]. unfold Claim. fold (Flat k).
  unfold str_eqb at 1 2. rewrite !bool_decide_false by done. cbn [orb]. rewrite He.
  assert (Hd : done_at (MkMemEntry "" 0 (Some stored) exp fp0) now = true).
  { unfold done_at, Before. cbn. by apply Z.ltb_lt. }
  unfold checkFingerprintEntry. rewrite Hd. cbn [orb andb fingerprint].
  destruct (replayResponse_spec (r_outer r) stored Hsr) as (w&h&Hw&_).
  unfold fpMismatch, str_eqb. rewrite (bool_decide_false (fp0 = "")), (bool_decide_false (fp = "")) by done. cbn [negb andb].
  case_bool_decide as Hfp; cbn [negb recorded].
  - rewrite Hw. eexists. split; [done|]. rewrite decide_True by done. by exists w.
  - eexists. split; [done|]. rewrite decide_False by done. by eexists.
Qed.
End retry.

(** ** Samples *)

Module HttpSample.
Definition alice : Principal := MkPrincipal PrincipalUser "alice" [] "" "" 0 false.
Definition post (id body : string) : request :=
  MkRequest "POST" "/orders" {["Idempotency-Key" := ["k1"]]} (Ok body) (Some alice) false
    {["X-Request-Id" := [id]]}.
Definition hash (b : bytes) : string := ("h" ++ b)%string.

(** A handler that counts its runs and answers with the number. *)
Definition counting : handler nat := λ r n,
  ([OpSet "content-type" "text/plain"; OpWriteHeader 201; OpWrite (pretty (S n)) 9], false, S n).
(** One that changes its state and writes nothing. *)
Definition silent : handler nat := λ r n, ([], false, S n).
(** One whose client goes away after four bytes. *)
Definition cut : handler nat := λ r n, ([OpWriteHeader 200; OpWrite "complete" 4], false, S n).

(** One that flushes to start streaming and only then sets its status. *)
Definition eager : handler nat := λ r n, ([OpFlush; OpWriteHeader 201; OpWrite "made" 4], false, S n).

Definition tok (n : Z) : list Z := replicate 16 n.
Definition cfg : middlewareConfig := configure [].
Definition once (h : handler nat) (n : Z) (id : string) (st : MemStore.store) (m : nat) :=
  ServeHTTP hash cfg h st m (100 * n) (100 * n + 1) (100 * n + 2) (100 * n + 3) (tok n) (post id "b").
Definition twice (h : handler nat) :=
  let '(d, bw, rec, st, m) := once h 1 "r1" MemStore.NewMemStore 0%nat in once h 2 "r2" st m.

Definition claimed : MemStore.store := (ServeHTTP_claim hash cfg MemStore.NewMemStore 100 (tok 1) (post "r1" "b")).2.
Definition run1 (o : option (option bufferingState)) : run :=
  MkRun (post "r1" "b") (Flat (DeriveKey "" "alice" "POST" "/orders" "k1")) (computeFingerprint hash "b") 100 o.
Definition out1 : option bufferingState := bs <$> (run_handler cfg counting (post "r1" "b") 0%nat).1.
Definition settled1 := settle cfg claimed 101 102 103 (memReceipt 0) out1.
Definition rec1 : RecordedResponse := default (MkRecorded 0 "" ∅ 0) settled1.1.
Definition log1 : list hevent :=
  [EStart 0 (run_key (run1 None)) 100 (run_fp (run1 None));
   ERecord 0 (run_key (run1 None)) 100 102 (run_fp (run1 None)) rec1].
Definition answer2 : reply :=
  match (ServeHTTP_claim hash cfg settled1.2 200 (tok 2) (post "r2" "b")).1 with
  | Some (Answer a) => a
  | _ => ErrorReply errInProgress [] ∅
  end.

(** A request, its handler, its recording, and a second request. *)
Definition sys2 : sys nat :=
  MkSys settled1.2 1%nat ∅ 200 (log1 ++ [EAnswer (post "r2" "b") 200 answer2]).

(** Past the time to live the key can be used again. *)
Definition later : Time := 102 + doneTTL cfg.
Definition sys3 : sys nat :=
  MkSys (ServeHTTP_claim hash cfg settled1.2 later (tok 3) (post "r3" "c")).2 1%nat
    {[1%nat := MkRun (post "r3" "c") (run_key (run1 None)) (computeFingerprint hash "c") later None]} later
    (hs_log sys2 ++ [EStart 1 (run_key (run1 None)) later (computeFingerprint hash "c")]).

Lemma fresh_all ms en :
  bool_decide (Forall (λ r, Ok (MemStore.rc_token r) ≠ MemStore.generateToken en) (MemStore.receipts ms)) = true →
  fresh_token ms en.
Proof.
  intros H%bool_decide_eq_true tok Htok. rewrite Htok in H. eapply Forall_impl; [exact H|]. cbn. congruence.
Qed.

Lemma sys2_reachable : rtc (hstep hash cfg counting) (hs_init 0%nat 50) sys2.
Proof.
  eapply rtc_l.
  { eapply (hs_claim hash cfg counting (post "r1" "b") 100 (tok 1) _ _ 0 MemStore.NewMemStore claimed);
      [lia|by apply fresh_all|vm_compute; reflexivity]. }
  eapply rtc_l.
  { eapply (hs_run hash cfg counting 0 (post "r1" "b")); [apply lookup_insert_eq|by vm_compute]. }
  eapply rtc_l.
  { eapply (hs_settle hash cfg counting 0 (post "r1" "b") _ _ 100 out1 101 102 103 claimed (Some rec1) settled1.2);
      [apply lookup_insert_eq|lia..|by vm_compute]. }
  eapply rtc_l; [|apply rtc_refl].
  replace (delete 0%nat (<[0%nat:=_]> (<[0%nat:=_]> ∅))) with (∅ : gmap nat run) by (by vm_compute).
  eapply (hs_answer hash cfg counting (post "r2" "b") 200 (tok 2) answer2 settled1.2 settled1.2);
    [lia|apply fresh_all; by vm_compute|by vm_compute].
Qed.
Lemma sys3_reachable : rtc (hstep hash cfg counting) (hs_init 0%nat 50) sys3.
Proof.
  eapply rtc_r; [exact sys2_reachable|].
  eapply (hs_claim hash cfg counting (post "r3" "c") later (tok 3) _ _ 1 settled1.2 _ 1%nat ∅);
    [by vm_compute|apply fresh_all; by vm_compute|by vm_compute].
Qed.

(** A handler that writes nothing runs again, with nothing to tell it from the
    first time; a response cut short is replayed as it was cut; and the headers
    of the outer middlewares come twice. *)
Example silent_runs_twice : (twice silent).2 = 2%nat.
Proof. by vm_compute. Qed.

Example cut_is_replayed :
  match twice cut with (Some (Answer (Replay w)), _, _, _, m) => (fst <$> sent w, out w, m) = (Some 200, "comp", 1%nat) | _ => False end.
Proof. by vm_compute. Qed.

Example outer_headers_doubled :
  match twice counting with
  | (Some (Answer (Replay w)), _, _, _, _) => (λ h, values h "X-Request-Id") ∘ snd <$> sent w = Some ["r2"; "r1"]
  | _ => False
  end.
Proof. by vm_compute. Qed.
End HttpSample.

(** What started at an event: the key and the time. *)
Definition started (e : hevent) : option (string * Time) :=
  match e with
  | EStart _ c t _ => Some (c, t)
  | ERecord _ c st _ _ _ => Some (c, st)
  | EAnswer _ _ _ => None
  end.

(** C12: one execution per key.  In every history of requests on one store, with
    their claims, handlers, settlements and crashes interleaved in any way: once
    the response of a handler is recorded at time [t0], no handler starts for the
    same key before [t0 + doneTTL]; a handler that started earlier does not
    record after that either; and when two handlers of one key are in flight at
    once, the earlier one has outlived its lease. *)
Theorem one_execution_per_key {M} (hashHex : bytes → string) opts (next : handler M) m0 clock0 s :
  rtc (hstep hashHex (configure opts) next) (hs_init m0 clock0) s →
  (∀ p q i c st t0 fp resp e t, (p < q)%nat →
     hs_log s !! p = Some (ERecord i c st t0 fp resp) → hs_log s !! q = Some e → started e = Some (c, t) →
     t0 + doneTTL (configure opts) ≤ t) ∧
  (∀ i j r r', (i < j)%nat → hs_live s !! i = Some r → hs_live s !! j = Some r' → run_key r = run_key r' →
     run_start r + leaseTTL (configure opts) ≤ run_start r').
Proof.
  intros [Hinv _ _ _]%reachable_ok. split; [|apply (hi_overlap _ _ _ _ _ Hinv)].
  intros p q i c st t0 fp resp e t Hlt Hp Hq He. pose proof (hi_apart _ _ _ _ _ Hinv _ _ _ _ Hlt Hp Hq) as Ha.
  destruct e; cbn in *; simplify_eq; by apply Ha.
Qed.

Lemma one_execution_per_key_witness :
  (∃ i c st t0 fp resp j t fp', hs_log HttpSample.sys3 !! 1%nat = Some (ERecord i c st t0 fp resp) ∧
     hs_log HttpSample.sys3 !! 3%nat = Some (EStart j c t fp') ∧ t0 + doneTTL HttpSample.cfg ≤ t).
Proof.
  destruct (one_execution_per_key HttpSample.hash [] HttpSample.counting 0%nat 50 HttpSample.sys3 HttpSample.sys3_reachable) as [H _].
  eexists _, _, _, _, _, _, _, _, _. split; [reflexivity|]. split; [reflexivity|].
  eapply (H 1%nat 3%nat); [lia|reflexivity..].
Defined.

(** C13: a replay is the first response again.  Every replay in a history answers
    a request for whose key and body fingerprint a handler ran, and recorded less
    than [doneTTL] ago.  Unless that handler switched protocols (status 101) or
    flushed before it had sent a status, the replay has the status the first
    client was sent; the same body, if the connection took all of it; and of the
    headers sent then all but the credentials, after those the outer middlewares set
    for this request.  (The tee has no hook on [Flush]: after an early one the client
    has 200 and the record says what the handler asked for later, see
    early_flush_replays_another_status.) *)
Theorem replay_faithful {M} (hashHex : bytes → string) opts (next : handler M) m0 clock0 s p r t w :
  rtc (hstep hashHex (configure opts) next) (hs_init m0 clock0) s →
  hs_log s !! p = Some (EAnswer r t (Replay w)) →
  ∃ i c st t0 fp resp r0 m ops m',
    ERecord i c st t0 fp resp ∈ take p (hs_log s) ∧ t0 ≤ t < t0 + doneTTL (configure opts) ∧
    tracked_key r = Some c ∧ tracked_key r0 = Some c ∧ body_fp hashHex r = Some fp ∧ body_fp hashHex r0 = Some fp ∧
    next r0 m = (ops, false, m') ∧
    (orderly ops (MkRW (r_outer r0) None "") = true →
     ∃ w0 full code h0 h, rw_run ops (MkRW (r_outer r0) None "") = Some (w0, full) ∧
       sent w0 = Some (code, h0) ∧ sent w = Some (code, h) ∧ 200 ≤ code < 400 ∧ (full = true → out w = out w0) ∧
       values h headerIdempotencyReplayed = ["true"] ∧
       (canonical_keys h0 → ∀ k, k ≠ headerIdempotencyReplayed →
          values h k = values (r_outer r) k ++
            (if bool_decide (k ∈ CanonicalMIMEHeaderKey <$> sensitiveResponseHeaders) then [] else values h0 k))).
Proof.
  intros [_ _ Hgen Hrep]%reachable_ok Hp.
  destruct (Hrep _ _ _ _ Hp) as (fp&Hfp&i&c&st&t0&resp&Hin&Hk&Ht&Hw).
  destruct (Hgen i c st t0 fp resp) as (r0&m&bw&m'&Hrun&Hk0&Hfp0&Hd&Hsr&Hov&Hsame); [by eapply elem_of_take_sub|].
  destruct (run_handler_inv _ _ _ _ _ _ Hrun) as (ops&Hnext&Hbw).
  exists i, c, st, t0, fp, resp, r0, m, ops, m'. split_and!; try done; [lia..|]. intros Hops.
  destruct (recorded_as_sent _ _ _ _ (proj1 (configure_pos opts)) Hops Hbw Hd) as (w0&full&Hr0&Hs0&Hb0&Hfull).
  destruct Hsame as (E1&E2&E3). cbn [rr_status rr_body rr_header] in E1, E2, E3.
  destruct (replayResponse_spec (r_outer r) resp) as (w'&h&Hw'&Hs&Ho&Hv&Hh); [by rewrite E1|].
  rewrite Hw in Hw'. injection Hw' as <-. rewrite E1 in Hs, Ho. rewrite E2 in Ho. rewrite E3 in Hh.
  exists w0, full, (statusCode (bs bw)), (capturedHeader (bs bw)), h.
  apply andb_prop in Hsr as [Hlo Hhi]. rewrite Z.geb_leb in Hlo. bools.
  split_and!; try done; try lia.
  - intros Hf. rewrite Ho. specialize (Hfull Hf). rewrite Hov in Hfull. rewrite Hfull.
    destruct (bodyAllowed _) eqn:Hba; [done|]. destruct Hb0 as [->|(c'&h'&Hs'&?)]; [done|]. congruence.
  - intros Hc k Hne. rewrite Hh, values_filter by (done || by apply canonical_filter). done.
Qed.

Lemma replay_faithful_witness :
  ∃ r t w r0 m w0 full code h0 h, hs_log HttpSample.sys2 !! 2%nat = Some (EAnswer r t (Replay w)) ∧
    rw_run (HttpSample.counting r0 m).1.1 (MkRW (r_outer r0) None "") = Some (w0, full) ∧
    sent w0 = Some (code, h0) ∧ sent w = Some (code, h) ∧ tracked_key r0 = tracked_key r.
Proof.
  destruct (hs_log HttpSample.sys2 !! 2%nat) as [[| |r t [|w]]|] eqn:Hp; try (by vm_compute in Hp).
  destruct (replay_faithful HttpSample.hash [] HttpSample.counting 0%nat 50 HttpSample.sys2 2 r t w
              HttpSample.sys2_reachable Hp)
    as (i&c&st&t0&fp&resp&r0&m&ops&m'&_&_&Hk&Hk0&_&_&Hnext&H).
  destruct H as (w0&full&code&h0&h&Hrun&Hs0&Hs&_).
  { injection Hnext as <- _. repeat constructor; done. }
  exists r, t, w, r0, m, w0, full, code, h0, h. split; [done|]. rewrite Hnext. split; [exact Hrun|]. split; [done|].
  split; [done|]. by rewrite Hk, Hk0.
Defined.

(** A flush before the status is not seen by the tee: the first client was sent
    200, its retry is answered 201. *)
Theorem early_flush_replays_another_status :
  (sent ∘ under) <$> (run_handler HttpSample.cfg HttpSample.eager (HttpSample.post "r1" "b") 0%nat).1
    = Some (Some (200, {["X-Request-Id" := ["r1"]]})) ∧
  ∃ w bw rec st, HttpSample.twice HttpSample.eager = (Some (Answer (Replay w)), bw, rec, st, 1%nat) ∧
    fst <$> sent w = Some 201.
Proof. split; [by vm_compute|]. do 4 eexists. split; by vm_compute. Qed.

(** A request and its retry.  A tracked request with a free key runs the
    handler once.  If the handler returned after committing a 2xx or 3xx response
    within the size limit, every later request with this key within [doneTTL]
    leaves the application and the store alone: it is a replay if the body is the
    same, and a 422 if it is not.  Otherwise (a panic, an error status, a body too
    large, or nothing written) the key is free again, and the retry runs the
    handler on the state the first run left. *)
Theorem retry_spec {M} (hashHex : bytes → string) opts (next : handler M) ms m r r' k fp fp'
    t0 t1 t2 t3 en u0 u1 u2 u3 en' :
  claim_of hashHex r = Some (k, fp) → claim_of hashHex r' = Some (k, fp') →
  MemStore.entries ms !! Flat k = None → length en = 16%nat → length en' = 16%nat →
  u0 < t2 + doneTTL (configure opts) →
  let run := run_handler (configure opts) next r m in
  let run' := run_handler (configure opts) next r' run.2 in
  ∃ d rec ms1 d' bw' rec' ms2 m2,
    ServeHTTP hashHex (configure opts) next ms m t0 t1 t2 t3 en r = (Some d, run.1, rec, ms1, run.2) ∧
    ServeHTTP hashHex (configure opts) next ms1 run.2 u0 u1 u2 u3 en' r' = (Some d', bw', rec', ms2, m2) ∧
    if recordable run.1
    then m2 = run.2 ∧ ms2 = ms1 ∧
         if decide (fp' = fp) then ∃ w, d' = Answer (Replay w)
         else ∃ details, d' = Answer (ErrorReply (Errcode KindUnprocessable "ERR_IDEMPOTENCY_KEY_REUSED" msgKeyReused)
                                        details (r_outer r'))
    else m2 = run'.2 ∧ bw' = run'.1 ∧ ∃ i, d' = Run k fp' (memReceipt i).
Proof.
  intros Hr Hr' Hfree Hen Hen' Hu run run'.
  destruct (first_request hashHex opts next ms m t0 t1 t2 t3 en r k fp Hr Hfree Hen) as (i&rec&ms1&H1&Hms1).
  fold run in H1, Hms1. destruct (claim_of_spec hashHex opts ms t0 en r k fp Hr) as (_&_&_&Hfp).
  destruct (recordable run.1).
  - destruct Hms1 as (stored&He&Hsr).
    destruct (recorded_request hashHex opts next ms1 run.2 u0 u1 u2 u3 en' r' k fp' fp stored _ Hr' He Hu Hfp Hsr)
      as (a&H2&Ha). eexists _, _, _, _, _, _, _, _. split; [exact H1|]. split; [exact H2|]. split; [done|]. split; [done|].
    destruct (decide (fp' = fp)); [destruct Ha as (w&->&_); by exists w|destruct Ha as (ds&->); by exists ds].
  - destruct (first_request hashHex opts next ms1 run.2 u0 u1 u2 u3 en' r' k fp' Hr' Hms1 Hen') as (j&rec'&ms2&H2&_).
    eexists _, _, _, _, _, _, _, _. split; [exact H1|]. split; [exact H2|]. split; [done|]. split; [done|]. by exists j.
Qed.

Lemma retry_spec_witness :
  ∃ d rec ms1 d' bw' rec' ms2,
    HttpSample.once HttpSample.counting 1 "r1" MemStore.NewMemStore 0%nat
    = (Some d, (run_handler HttpSample.cfg HttpSample.counting (HttpSample.post "r1" "b") 0%nat).1, rec, ms1, 1%nat) ∧
    HttpSample.once HttpSample.counting 2 "r2" ms1 1%nat = (Some d', bw', rec', ms2, 1%nat).
Proof.
  destruct (retry_spec HttpSample.hash [] HttpSample.counting MemStore.NewMemStore 0%nat
    (HttpSample.post "r1" "b") (HttpSample.post "r2" "b") (DeriveKey "" "alice" "POST" "/orders" "k1")
    (computeFingerprint HttpSample.hash "b") (computeFingerprint HttpSample.hash "b")
    100 101 102 103 (HttpSample.tok 1) 200 201 202 203 (HttpSample.tok 2)) as (d&rec&ms1&d'&bw'&rec'&ms2&m2&H1&H2&H).
  1-6: by vm_compute.
  exists d, rec, ms1, d', bw', rec', ms2. split; [exact H1|].
  assert (Hm : m2 = 1%nat) by (revert H; by intros (->&_)). rewrite Hm in H2. exact H2.
Defined.

Lemma key_no_nul k : validateKeyValue k = Ok tt → no_nul k = true.
Proof.
  unfold validateKeyValue. destruct (k ==s ""); [done|]. destruct (_ >? _); [done|].
  destruct (isValidIdempotencyKey k) eqn:Hv; [|done]. intros _. revert Hv. unfold isValidIdempotencyKey, lacks.
  induction k as [|c k IH]; [done|]. cbn. intros [Hc Hk]%andb_prop. rewrite IH by done. rewrite andb_true_r.
  destruct (Ascii.eqb_spec c NUL) as [->|]; [by vm_compute in Hc|done].
Qed.

Lemma method_no_nul r : shouldIntercept r = true → no_nul (r_method r) = true.
Proof.
  intros [Hm _]%andb_prop. bools. unfold idempotentMethods in Hm. repeat apply elem_of_cons in Hm as [->|Hm]; [done..|].
  by apply elem_of_nil in Hm.
Qed.

Lemma claim_of_key hashHex r k fp p :
  r_principal r = Some p → claim_of hashHex r = Some (k, fp) →
  k = DeriveKey (p_TenantID p) (p_Subject p) (r_method r) (r_path r) (header_Get (r_header r) headerIdempotencyKey) ∧
  no_nul (header_Get (r_header r) headerIdempotencyKey) = true ∧ no_nul (r_method r) = true.
Proof.
  intros Hp. unfold claim_of, extractIdentity. rewrite Hp. destruct (exempt r); [done|]. cbn [orb].
  destruct (shouldIntercept r) eqn:Hi; [|done]. cbn [negb]. destruct (_ && _); [|done]. destruct (r_body r); [|done].
  cbn zeta. destruct (validateKeyValue _) as [[]|] eqn:Hv; [|done]. intros [= <- _].
  split_and!; [done|by apply key_no_nul|by apply method_no_nul].
Qed.

(** One token, one identity, unless the hash collides. *)
Lemma CommandDedupToken_inj hashHex i j :
  CommandDedupToken hashHex i = CommandDedupToken hashHex j →
  no_nul (ri_caller i) = true → no_nul (ri_caller j) = true → no_nul (ri_key i) = true → no_nul (ri_key j) = true →
  i = j ∨ ∃ x y, x ≠ y ∧ hashHex x = hashHex y.
Proof.
  destruct i as [c f k], j as [c' f' k']. unfold CommandDedupToken. cbn. intros Ht Hc Hc' Hk Hk'.
  destruct (decide ((c ++ String NUL (f ++ String NUL k))%string = (c' ++ String NUL (f' ++ String NUL k'))%string)) as [He|Hne].
  - left. apply split_first in He as [-> He]; [|done..]. by apply split_last in He as [-> ->].
  - right. by eexists _, _.
Qed.

(** C31: records are isolated.  Two requests that are tracked under one key come
    from the same tenant and the same subject, have the same method and the same
    path, whatever bytes a path holds, and carry the same Idempotency-Key; the key
    of a command never is that of a request; and the two requests lead to one
    command token only if subject, body fingerprint and Idempotency-Key agree, or
    the hash collides.  This needs that tenants and subjects hold no NUL and that
    no tenant is called like the sentinel. *)
Theorem key_isolation hashHex r r' k k' fp fp' p p' :
  claim_of hashHex r = Some (k, fp) → claim_of hashHex r' = Some (k', fp') →
  r_principal r = Some p → r_principal r' = Some p' →
  clean_scope (p_TenantID p) (p_Subject p) = true → clean_scope (p_TenantID p') (p_Subject p') = true →
  (Flat k = Flat k' →
     p_TenantID p = p_TenantID p' ∧ p_Subject p = p_Subject p' ∧ r_method r = r_method r' ∧ r_path r = r_path r' ∧
     header_Get (r_header r) headerIdempotencyKey = header_Get (r_header r') headerIdempotencyKey) ∧
  (∀ tenantID subject commandID, clean_scope tenantID subject = true → no_nul commandID = true →
    Flat k ≠ Flat (DeriveCommandKey tenantID subject commandID)) ∧
  let idem r := header_Get (r_header r) headerIdempotencyKey in
  (CommandDedupToken hashHex (MkIdentity (p_Subject p) fp (idem r))
   = CommandDedupToken hashHex (MkIdentity (p_Subject p') fp' (idem r')) →
   p_Subject p = p_Subject p' ∧ fp = fp' ∧ idem r = idem r' ∨ ∃ x y, x ≠ y ∧ hashHex x = hashHex y).
Proof.
  intros Hr Hr' Hp Hp' Hc Hc'. apply (claim_of_key _ _ _ _ _ Hp) in Hr as (->&Hk&Hm).
  apply (claim_of_key _ _ _ _ _ Hp') in Hr' as (->&Hk'&Hm'). split; [by apply DeriveKey_inj|].
  split; [intros t s id Hts Hid; by apply DeriveCommandKey_apart|]. cbv zeta. intros Ht.
  unfold clean_scope in Hc, Hc'. bools. destruct (CommandDedupToken_inj _ _ _ Ht) as [He|]; [done..| |by right].
  left. by injection He.
Qed.

Lemma key_isolation_witness :
  ∃ k fp, claim_of HttpSample.hash (HttpSample.post "r1" "b") = Some (k, fp) ∧
    Flat k ≠ Flat (DeriveCommandKey "" "alice" "k1").
Proof.
  destruct (claim_of HttpSample.hash (HttpSample.post "r1" "b")) as [[k fp]|] eqn:He; [|by vm_compute in He].
  exists k, fp. split; [done|].
  by apply (key_isolation HttpSample.hash _ _ k k fp fp HttpSample.alice HttpSample.alice He He eq_refl eq_refl eq_refl eq_refl).
Defined.
