(* ===== verification/WebhookSign.v ===== *)
(** * kernel/webhook: identifiers, sources, signing and verifying

    A delivery is signed with HMAC-SHA256 over its identifier, its timestamp and
    its payload, joined by dots (signer.go), and verified within a tolerance of
    the clock (verifier.go).  HMAC is an argument.  From the standard library the
    file models [strings.Fields], [strings.Cut], [base64.StdEncoding] and
    [time.Unix]. *)

From Stdlib Require Import Ascii String.
From S2P Require Import Prelude GoJson Base64 JsonText HttpWriter.

(** ** The standard library *)

(** The bytes of the white-space rune at the start: [unicode.IsSpace]. *)
Definition space_len (s : string) : nat :=
  match s with
  | EmptyString => 0%nat
  | String c s1 =>
      if in_range "009" "013" c || (c =? " ")%char then 1%nat
      else
        match s1 with
        | EmptyString => 0%nat
        | String c1 s2 =>
            if (byte_val c =? 194) && ((byte_val c1 =? 133) || (byte_val c1 =? 160)) then 2%nat
            else
              match s2 with
              | EmptyString => 0%nat
              | String c2 _ =>
                  let two a b := (byte_val c =? a) && (byte_val c1 =? b) in
                  if two 225 154 && (byte_val c2 =? 128)
                     || two 226 128 && (byte_between 128 138 c2 || byte_between 168 169 c2 || (byte_val c2 =? 175))
                     || two 226 129 && (byte_val c2 =? 159)
                     || two 227 128 && (byte_val c2 =? 128)
                  then 3%nat else 0%nat
              end
        end
  end.

Definition flush (cur : string) (l : list string) : list string := if cur ==s "" then l else cur :: l.

(** [strings.Fields]; [cur] is the field being read. *)
Fixpoint fields_from (cur : string) (s : string) : list string :=
  match s with
  | EmptyString => flush cur []
  | String c s1 =>
      match space_len s, s1 with
      | 1%nat, _ => flush cur (fields_from "" s1)
      | 2%nat, String _ s2 => flush cur (fields_from "" s2)
      | 3%nat, String _ (String _ s3) => flush cur (fields_from "" s3)
      | _, _ => fields_from (cur ++ String c EmptyString)%string s1
      end
  end.

Definition Fields (s : string) : list string := fields_from "" s.

(** [strings.Cut] at a one-byte separator. *)
Fixpoint Cut (sep : ascii) (s : string) : option (string * string) :=
  match s with
  | EmptyString => None
  | String c s1 =>
      if (c =? sep)%char then Some (EmptyString, s1)
      else match Cut sep s1 with Some (a, b) => Some (String c a, b) | None => None end
  end.

Definition std_val (c : ascii) : option Z :=
  if (c =? "-")%char || (c =? "_")%char then None else b64_val (from_std c).

(** [base64.StdEncoding.DecodeString]: padding is required, spare bits are
    ignored. *)
Fixpoint std_quanta (s : string) : option bytes :=
  match s with
  | EmptyString => Some EmptyString
  | String a (String b (String c (String d rest))) =>
      x ← std_val a; y ← std_val b;
      if (c =? "=")%char then
        if (d =? "=")%char && (rest ==s "") then Some (String (chr (x * 4 + y / 16)) EmptyString) else None
      else
        z ← std_val c;
        if (d =? "=")%char then
          let v := x * 1024 + y * 16 + z / 4 in
          if rest ==s "" then Some (String (chr (v / 256)) (String (chr (v mod 256)) EmptyString)) else None
        else
          t ← std_val d; more ← std_quanta rest;
          let v := x * 262144 + y * 4096 + z * 64 + t in
          Some (String (chr (v / 65536)) (String (chr (v / 256 mod 256)) (String (chr (v mod 256)) more)))
  | _ => None
  end.

Definition std_decode (s : string) : option bytes := std_quanta (drop_newlines s).

(** [time.Unix(sec, 0)] and [Time.Unix]. *)
Definition time_Unix (sec : Z) : Time := wrap64 (sec + 62135596800) * Second.
Definition Unix (t : Time) : Z := (t - unix_epoch) / Second.

(** ** Identifiers and sources *)

Definition ErrWebhookConfigInvalid : string := "ERR_WEBHOOK_CONFIG_INVALID".
Definition ErrWebhookInvalidHeader : string := "ERR_WEBHOOK_INVALID_HEADER".
Definition ErrWebhookInvalidSignature : string := "ERR_WEBHOOK_INVALID_SIGNATURE".
Definition ErrWebhookTimestampExpired : string := "ERR_WEBHOOK_TIMESTAMP_EXPIRED".
Definition config_invalid (msg : string) : goerror := Errcode KindInvalid ErrWebhookConfigInvalid msg.

Definition sourceIDMaxLen : Z := 64.
Definition deliveryIDMaxLen : Z := 128.

(** The regular expressions: a first character, then any number of others. *)
Definition sourceIDPattern (s : string) : bool :=
  match s with
  | EmptyString => false
  | String c rest =>
      in_range "a" "z" c &&
      all_chars (λ c, in_range "a" "z" c || in_range "0" "9" c || (c =? "_")%char || (c =? "-")%char) rest
  end.

Definition alnum (c : ascii) : bool := in_range "A" "Z" c || in_range "a" "z" c || in_range "0" "9" c.

Definition deliveryIDPattern (s : string) : bool :=
  match s with
  | EmptyString => false
  | String c rest =>
      alnum c &&
      all_chars (λ c, alnum c || (c =? "_")%char || (c =? ".")%char || (c =? ":")%char || (c =? "-")%char) rest
  end.

Definition SourceID_Validate (id : string) : outcome unit :=
  if id ==s "" then Err (config_invalid "webhook: source ID must not be empty")
  else if byte_len id >? sourceIDMaxLen then Err (config_invalid "webhook: source ID exceeds length budget")
  else if negb (sourceIDPattern id) then Err (config_invalid "webhook: source ID must match [a-z][a-z0-9_-]* regex")
  else Ok tt.

Definition DeliveryID_Validate (id : string) : outcome unit :=
  let bad msg := Err (Errcode KindInvalid ErrWebhookInvalidHeader msg) in
  if id ==s "" then bad "webhook: delivery ID must not be empty"
  else if byte_len id >? deliveryIDMaxLen then bad "webhook: delivery ID exceeds length budget"
  else if negb (deliveryIDPattern id) then bad "webhook: delivery ID contains forbidden characters"
  else Ok tt.

Record Source := MkSource { src_id : string; secret : bytes }.

Definition minSecretLen : Z := 24.

Definition NewSource (id : string) (sec : bytes) : outcome Source :=
  match SourceID_Validate id with
  | Err e => Err e
  | Ok _ =>
      if byte_len sec <? minSecretLen
      then Err (config_invalid "webhook: source secret is shorter than the minimum length")
      else Ok (MkSource id sec)
  end.

(** [SourceRegistry]. *)
Definition Register (r : gmap string Source) (src : Source) : outcome unit * gmap string Source :=
  if secret src ==s "" then (Err (config_invalid "webhook: cannot register a source with an empty secret"), r)
  else (Ok tt, <[src_id src := src]> r).
Definition Lookup (r : gmap string Source) (id : string) : option Source := r !! id.

(** ** Signer and verifier *)

Record Headers := MkHeaders { DeliveryID : string; Timestamp : string; Signature : string }.

Record SignedHeaders := MkSigned { sg_deliveryID : string; sg_timestamp : string; sg_signature : string; valid : bool }.

Definition HeaderID : string := "webhook-id".
Definition HeaderTimestamp : string := "webhook-timestamp".
Definition HeaderSignature : string := "webhook-signature".

Definition Apply (h : SignedHeaders) (hd : header) : header :=
  if negb (valid h) then hd
  else header_Set HeaderSignature (sg_signature h)
         (header_Set HeaderTimestamp (sg_timestamp h) (header_Set HeaderID (sg_deliveryID h) hd)).

Section hmac.
Context (hmac : bytes → bytes → bytes).

Definition signed_content (deliveryID timestamp : string) (payload : bytes) : bytes :=
  (deliveryID ++ String "." (timestamp ++ String "." payload))%string.

Definition computeMAC (sec : bytes) (deliveryID timestamp : string) (payload : bytes) : bytes :=
  hmac sec (signed_content deliveryID timestamp payload).

Definition Sign (src : Source) (payload : bytes) (ts : Time) (deliveryID : string) : outcome SignedHeaders :=
  match DeliveryID_Validate deliveryID with
  | Err e => Err e
  | Ok _ =>
      let timestamp := pretty (Unix ts) in
      let mac := computeMAC (secret src) deliveryID timestamp payload in
      Ok (MkSigned deliveryID timestamp ("v1" ++ "," ++ b64_std mac)%string true)
  end.

Definition NewHMACSigner (src : Source) : outcome Source :=
  if secret src ==s "" then Err (config_invalid "webhook: signer requires a source with a non-empty secret") else Ok src.

Definition defaultTolerance : Duration := 5 * Minute.

Definition NewHMACVerifier (tolerances : list Duration) : outcome Duration :=
  let tolerance := default defaultTolerance (last tolerances) in
  if tolerance <=? 0 then Err (config_invalid "webhook: verifier tolerance must be positive") else Ok tolerance.

(** The absolute value is taken in int64. *)
Definition validateTimestamp (now : Time) (tolerance : Duration) (timestamp : string) : outcome unit :=
  match ParseInt timestamp with
  | None => Err (Errcode KindInvalid ErrWebhookInvalidHeader "webhook: timestamp header is not a unix-seconds integer")
  | Some tsInt =>
      let skew := Sub now (time_Unix tsInt) in
      let skew := if skew <? 0 then wrap64 (- skew) else skew in
      if skew >? tolerance
      then Err (Errcode KindUnauthenticated ErrWebhookTimestampExpired
                  "webhook: signature timestamp is outside the tolerance window")
      else Ok tt
  end.

Definition match_token (expected : bytes) (token : string) : bool :=
  match Cut "," token with
  | Some (scheme, encoded) =>
      (scheme ==s "v1") && match std_decode encoded with Some raw => bool_decide (expected = raw) | None => false end
  | None => false
  end.

Definition matchAnySignature (h : string) (expected : bytes) : bool := existsb (match_token expected) (Fields h).

Definition MsgSignatureVerificationFailed : string := "webhook: signature verification failed".
Definition errSignature : goerror := Errcode KindUnauthenticated ErrWebhookInvalidSignature MsgSignatureVerificationFailed.

Definition Verify (now : Time) (tolerance : Duration) (rawBody : bytes) (h : Headers) (src : Source) : outcome unit :=
  if secret src ==s "" then Err (config_invalid "webhook: verify requires a source with a non-empty secret")
  else
    match DeliveryID_Validate (DeliveryID h) with
    | Err e => Err e
    | Ok _ =>
        match validateTimestamp now tolerance (Timestamp h) with
        | Err e => Err e
        | Ok _ =>
            let expected := computeMAC (secret src) (DeliveryID h) (Timestamp h) rawBody in
            if negb (matchAnySignature (Signature h) expected) then Err errSignature else Ok tt
        end
    end.
End hmac.

(** ** Lemmas *)

(** The characters of the alphabet: read back, not padding, ASCII and printable. *)
Definition std_char (c : ascii) : bool := negb (c =? "=")%char && byte_between 33 126 c.

Lemma std_val_char v : 0 ≤ v < 64 →
  std_val (to_std (b64_char v)) = Some v ∧ std_char (to_std (b64_char v)) = true.
Proof.
  apply (sextet_ind (λ v, std_val (to_std (b64_char v)) = Some v ∧ std_char (to_std (b64_char v)) = true)).
  vm_compute. reflexivity.
Qed.

Lemma not_padding c : std_char c = true → (c =? "=")%char = false.
Proof. intros [H _]%andb_prop. by apply negb_true_iff. Qed.

Lemma std_padding_4 n : std_padding (S (S (S (S n)))) = std_padding n.
Proof.
  unfold std_padding. replace (S (S (S (S n)))) with (n + 1 * 4)%nat by lia. by rewrite Nat.Div0.mod_add.
Qed.

Lemma std_quanta_encode s : std_quanta (b64_std s) = Some s.
Proof.
  assert (Hv : ∀ v, 0 ≤ v < 64 → std_val (to_std (b64_char v)) = Some v) by (intros v Hv; by apply std_val_char).
  assert (Hp : ∀ v, 0 ≤ v < 64 → (to_std (b64_char v) =? "=")%char = false) by (intros v Hr; by apply not_padding, std_val_char).
  unfold b64_std. induction s as [|a|a b|a b c s IH] using string_ind3; [done|..];
    pose proof (byte_val_range a); try pose proof (byte_val_range b); try pose proof (byte_val_range c);
    cbn [b64_encode std_alphabet String.length]; rewrite ?std_padding_4, ?append_String;
    try (change (std_padding 2) with "=="%string); try (change (std_padding 3) with "="%string);
    rewrite ?append_Empty; cbn [std_quanta];
    rewrite !Hv by lia; cbn [mbind option_bind]; rewrite ?Hp by lia; change ("=" =? "=")%char with true; cbv iota;
    rewrite ?Hv by lia; cbn [mbind option_bind]; rewrite ?IH; cbn [mbind option_bind andb str_eqb];
    try (change (str_eqb "" "") with true; cbv iota); repeat f_equal;
    match goal with |- chr ?e = ?x => trans (chr (byte_val x)); [f_equal; lia|apply chr_val] end.
Qed.

Definition visible (s : string) : bool := all_chars (byte_between 33 126) s.

Lemma visible_app a b : visible (a ++ b)%string = visible a && visible b.
Proof. unfold visible. induction a as [|c a IH]; [done|]. rewrite append_String. cbn. by rewrite IH, andb_assoc. Qed.

Lemma space_len_visible c s : byte_between 33 126 c = true → space_len (String c s) = 0%nat.
Proof.
  intros Hc. destruct c as [[] [] [] [] [] [] [] []]; vm_compute in Hc; try discriminate;
    (destruct s as [|c1 [|c2 s]]; reflexivity).
Qed.

Lemma fields_visible cur s : visible s = true → (cur ++ s)%string ≠ "" → fields_from cur s = [(cur ++ s)%string].
Proof.
  revert cur. induction s as [|c s IH]; intros cur Hv Hne.
  - rewrite append_nil in *. cbn. unfold flush, str_eqb. by rewrite bool_decide_false.
  - apply andb_prop in Hv as [Hc Hv]. cbn [fields_from]. rewrite space_len_visible by done.
    rewrite IH; rewrite ?append_assoc, ?append_String, ?append_Empty; done.
Qed.

Lemma visible_newlines s : visible s = true → drop_newlines s = s.
Proof.
  induction s as [|c s IH]; [done|]. intros [Hc Hs]%andb_prop. cbn [drop_newlines].
  destruct (c =? "010")%char eqn:E1; [apply Ascii.eqb_eq in E1 as ->; by vm_compute in Hc|].
  destruct (c =? "013")%char eqn:E2; [apply Ascii.eqb_eq in E2 as ->; by vm_compute in Hc|]. cbn. by rewrite IH.
Qed.

Lemma visible_std s : visible (b64_std s) = true.
Proof.
  unfold b64_std. rewrite visible_app. apply andb_true_intro. split.
  - pose proof (b64_encode_plain s) as Hp. revert Hp. generalize (b64_encode s) as t.
    induction t as [|c t IH]; [done|]. intros [[v Hc] Ht]. cbn [std_alphabet]. unfold visible in *. cbn [all_chars].
    rewrite IH by done. apply b64_val_Some in Hc as [Hv ->]. destruct (std_val_char v Hv) as [_ [_ ->]%andb_prop]. done.
  - unfold std_padding. by destruct (_ mod 4)%nat as [|[|[|[|]]]].
Qed.

(** What [Sign] writes, [matchAnySignature] accepts. *)
Lemma match_own_signature mac : matchAnySignature ("v1" ++ "," ++ b64_std mac)%string mac = true.
Proof.
  unfold matchAnySignature, Fields. rewrite fields_visible; [|by rewrite !visible_app, visible_std|done].
  rewrite append_Empty. cbn [existsb]. rewrite orb_false_r. unfold match_token.
  change ("v1" ++ "," ++ b64_std mac)%string with (String "v" (String "1" (String "," (b64_std mac)))). cbn [Cut].
  change ("v" =? ",")%char with false. change ("1" =? ",")%char with false. change ("," =? ",")%char with true. cbv iota.
  change (str_eqb "v1" "v1") with true. cbn [andb]. unfold std_decode.
  rewrite visible_newlines, std_quanta_encode by apply visible_std. by apply bool_decide_eq_true.
Qed.

Lemma match_token_spec expected token :
  match_token expected token = true ↔ ∃ encoded, Cut "," token = Some ("v1"%string, encoded) ∧ std_decode encoded = Some expected.
Proof.
  unfold match_token. split.
  - destruct (Cut "," token) as [[scheme encoded]|]; [|done]. intros [Hs Hd]%andb_prop. bools. subst scheme.
    exists encoded. split; [done|]. destruct (std_decode encoded); [|done]. by bools; subst.
  - intros (encoded&->&->). change (str_eqb "v1" "v1") with true. cbn. by apply bool_decide_eq_true.
Qed.

(** The signatures a header carries. *)
Definition carries (h : string) (mac : bytes) : Prop :=
  ∃ token encoded, token ∈ Fields h ∧ Cut "," token = Some ("v1"%string, encoded) ∧ std_decode encoded = Some mac.

Lemma matchAnySignature_spec h expected : matchAnySignature h expected = true ↔ carries h expected.
Proof.
  unfold matchAnySignature, carries. rewrite existsb_exists. split.
  - intros (token&Hin&(encoded&?&?)%match_token_spec). exists token, encoded. by rewrite list_elem_of_In.
  - intros (token&encoded&Hin%list_elem_of_In&?&?). exists token. split; [done|]. apply match_token_spec. by exists encoded.
Qed.

(** ** The timestamp window *)

(** The time a header claims is within the tolerance. *)
Definition within (now : Time) (tolerance : Duration) (sec : Z) : Prop :=
  Z.abs (now - (unix_epoch + sec * Second)) ≤ tolerance.

(** So far ahead that the skew is not a [Duration]. *)
Definition far_ahead (now : Time) (sec : Z) : Prop :=
  sec + 62135596800 ≤ MaxInt64 ∧ now - (unix_epoch + sec * Second) ≤ MinInt64.

Lemma time_Unix_small sec : MinInt64 ≤ sec + 62135596800 ≤ MaxInt64 → time_Unix sec = unix_epoch + sec * Second.
Proof. intros Hs. unfold time_Unix. rewrite wrap64_id by (unfold int64_range; lia). unfold unix_epoch. lia. Qed.

Lemma ParseInt_range s n : ParseInt s = Some n → MinInt64 ≤ n ≤ MaxInt64.
Proof.
  unfold ParseInt. generalize (match s with
    | String "+" s' => digits_of s' | String "-" s' => Z.opp <$> digits_of s' | _ => digits_of s end) as o.
  intros [m|]; cbn; [|done]. destruct (_ && _) eqn:Hn; [|done]. intros [= <-]. apply andb_prop in Hn as [? ?]. lia.
Qed.

(** The skew as the code computes it. *)
Lemma skew_spec d tolerance :
  0 < tolerance < MaxInt64 →
  let skew := Z.max MinInt64 (Z.min MaxInt64 d) in
  (if skew <? 0 then wrap64 (- skew) else skew) ≤ tolerance ↔ Z.abs d ≤ tolerance ∨ d ≤ MinInt64.
Proof.
  intros Htol. cbv zeta. destruct (Z.max MinInt64 (Z.min MaxInt64 d) <? 0) eqn:Hs; bools.
  - destruct (Z.le_gt_cases d MinInt64) as [Hd|Hd].
    + rewrite Z.min_r, Z.max_l by (unfold MinInt64, MaxInt64 in *; lia).
      change (wrap64 (- MinInt64)) with MinInt64. unfold MinInt64 in *. lia.
    + rewrite wrap64_id; unfold int64_range, MinInt64, MaxInt64 in *; lia.
  - unfold MinInt64, MaxInt64 in *. lia.
Qed.

Lemma validateTimestamp_spec now tolerance timestamp :
  0 ≤ now ≤ 2 ^ 62 * Second → 0 < tolerance < MaxInt64 →
  validateTimestamp now tolerance timestamp = Ok tt ↔
  ∃ sec, ParseInt timestamp = Some sec ∧ (within now tolerance sec ∨ far_ahead now sec).
Proof.
  intros Hnow Htol. unfold validateTimestamp.
  destruct (ParseInt timestamp) as [sec|] eqn:Hp; [|naive_solver]. apply ParseInt_range in Hp.
  assert (Hiff : (if Sub now (time_Unix sec) <? 0 then wrap64 (- Sub now (time_Unix sec)) else Sub now (time_Unix sec)) ≤ tolerance
    ↔ within now tolerance sec ∨ far_ahead now sec).
  { unfold Sub. rewrite skew_spec by done. unfold within, far_ahead.
    destruct (Z.le_gt_cases (sec + 62135596800) MaxInt64) as [Hs|Hs].
    - rewrite time_Unix_small by (unfold MinInt64 in *; lia). tauto.
    - assert (time_Unix sec = (sec + 62135596800 - 2 ^ 64) * Second) as ->.
      { unfold time_Unix. f_equal. unfold wrap64, MaxInt64, MinInt64 in *.
        symmetry. apply Zplus_minus_eq. symmetry. rewrite Z.add_comm.
        apply (Z.mod_unique _ _ 1); lia. }
      unfold unix_epoch, Second, Millisecond, MinInt64, MaxInt64 in *. lia. }
  rewrite Z.gtb_ltb. destruct (tolerance <? _) eqn:Ht; bools.
  - split; [done|]. intros (n&[= <-]&H%Hiff). lia.
  - split; [|done]. intros _. exists sec. split; [done|]. by apply Hiff.
Qed.

(** ** What a signature says *)

Section signatures.
Context (hmac : bytes → bytes → bytes).

Lemma Verify_spec now tolerance body h src :
  Verify hmac now tolerance body h src = Ok tt ↔
  secret src ≠ "" ∧ DeliveryID_Validate (DeliveryID h) = Ok tt ∧
  validateTimestamp now tolerance (Timestamp h) = Ok tt ∧
  carries (Signature h) (computeMAC hmac (secret src) (DeliveryID h) (Timestamp h) body).
Proof.
  unfold Verify, str_eqb. rewrite <- matchAnySignature_spec. case_bool_decide as Hs; [naive_solver|].
  destruct (DeliveryID_Validate _) as [[]|]; [|naive_solver].
  destruct (validateTimestamp _ _ _) as [[]|]; [|naive_solver].
  destruct (matchAnySignature _ _); cbn; naive_solver.
Qed.

Lemma Sign_Ok src payload ts id sh :
  Sign hmac src payload ts id = Ok sh →
  DeliveryID_Validate id = Ok tt ∧ sg_deliveryID sh = id ∧ sg_timestamp sh = pretty (Unix ts) ∧ valid sh = true ∧
  carries (sg_signature sh) (computeMAC hmac (secret src) id (pretty (Unix ts)) payload).
Proof.
  unfold Sign. destruct (DeliveryID_Validate id) as [[]|]; [|done]. intros [= <-]. cbn. split_and!; try done.
  apply matchAnySignature_spec, match_own_signature.
Qed.

(** A signed delivery is accepted while its timestamp is fresh. *)
Lemma sign_then_verify src payload ts id sh now tolerance :
  Sign hmac src payload ts id = Ok sh → secret src ≠ "" → int64_range (Unix ts) →
  0 ≤ now ≤ 2 ^ 62 * Second → 0 < tolerance < MaxInt64 → within now tolerance (Unix ts) →
  Verify hmac now tolerance payload (MkHeaders (sg_deliveryID sh) (sg_timestamp sh) (sg_signature sh)) src = Ok tt.
Proof.
  intros (Hid&->&->&_&Hc)%Sign_Ok Hs Hr Hnow Htol Hw. apply Verify_spec. cbn. split_and!; try done.
  apply validateTimestamp_spec; [done..|]. exists (Unix ts). split; [by apply ParseInt_pretty|by left].
Qed.
End signatures.

Lemma digits_lack_dot acc s n : parse_digits acc s = Some n → lacks "." s = true.
Proof.
  revert acc. induction s as [|c s IH]; intros acc; [done|]. cbn [parse_digits]. destruct (is_digit c) eqn:Hc; [|done].
  intros H%IH. unfold lacks in *. cbn. rewrite H, andb_true_r.
  destruct (Ascii.eqb_spec c ".") as [->|]; [by vm_compute in Hc|done].
Qed.

(** A timestamp that parses has no dot. *)
Lemma ParseInt_lacks_dot s n : ParseInt s = Some n → lacks "." s = true.
Proof.
  assert (Hd : ∀ s n, digits_of s = Some n → lacks "." s = true) by (intros [|c t] m; [done|apply digits_lack_dot]).
  unfold ParseInt. destruct s as [|c s]; [done|].
  assert (Hc : (∃ m, digits_of (String c s) = Some m) ∨ ((c = "+"%char ∨ c = "-"%char) ∧ ∃ m, digits_of s = Some m) → lacks "." (String c s) = true).
  { intros [[m Hm]|[Hsign [m Hm]]]; [by eapply Hd|].
    change (negb (c =? ".")%char && lacks "." s = true). rewrite (Hd _ _ Hm), andb_true_r.
    by destruct Hsign as [->| ->]. }
  intros Hp. apply Hc.
  destruct (decide (c = "+"%char)) as [->|Hplus]; [right; split; [by left|]; destruct (digits_of s) as [m|]; [by exists m|done]|].
  destruct (decide (c = "-"%char)) as [->|Hminus]; [right; split; [by right|]; destruct (digits_of s) as [m|]; [by exists m|done]|].
  left. destruct (digits_of (String c s)) as [m|] eqn:Hm; [by exists m|]. exfalso. revert Hp.
  destruct c as [[] [] [] [] [] [] [] []]; try (by rewrite Hm); done.
Qed.

Lemma int_lacks_dot s : int_text s = true → lacks "." s = true.
Proof.
  induction s as [|c s IH]; [done|]. cbn [int_text]. intros [Hc Hs]%andb_prop. unfold lacks in *. cbn.
  rewrite IH, andb_true_r by done. destruct (Ascii.eqb_spec c ".") as [->|]; [by vm_compute in Hc|done].
Qed.

Lemma signed_content_inj id ts p id' ts' p' :
  lacks "." id = true → lacks "." id' = true → lacks "." ts = true → lacks "." ts' = true →
  signed_content id ts p = signed_content id' ts' p' → id = id' ∧ ts = ts' ∧ p = p'.
Proof.
  intros Hi Hi' Ht Ht' He. unfold signed_content in He. apply split_first in He as [-> He]; [|done..].
  by apply split_first in He as [-> ->].
Qed.

(** C27: a signature binds the delivery.  If no signature can be made without the
    secret, that is, every HMAC a request carries is that of something the source
    signed, then an accepted request carries the content of one signed delivery,
    with a timestamp within the tolerance of the clock or so far ahead that the
    skew overflows; and if neither identifier has a dot, its identifier, timestamp
    and body are exactly those signed. *)
Theorem signature_binds_delivery hmac src (signed : list (string * Time * bytes)) now tolerance body h :
  (∀ content, carries (Signature h) (hmac (secret src) content) →
     ∃ id ts p, (id, ts, p) ∈ signed ∧ content = signed_content id (pretty (Unix ts)) p) →
  0 ≤ now ≤ 2 ^ 62 * Second → 0 < tolerance < MaxInt64 →
  Verify hmac now tolerance body h src = Ok tt →
  ∃ id ts p sec, (id, ts, p) ∈ signed ∧
    signed_content (DeliveryID h) (Timestamp h) body = signed_content id (pretty (Unix ts)) p ∧
    ParseInt (Timestamp h) = Some sec ∧ (within now tolerance sec ∨ far_ahead now sec) ∧
    (lacks "." (DeliveryID h) = true → lacks "." id = true →
     DeliveryID h = id ∧ Timestamp h = pretty (Unix ts) ∧ body = p).
Proof.
  intros Hmac Hnow Htol (Hs&Hid&Hts&Hc)%Verify_spec.
  destruct (Hmac _ Hc) as (id&ts&p&Hin&He). apply validateTimestamp_spec in Hts as (sec&Hsec&Hw); [|done..].
  exists id, ts, p, sec. split_and!; try done. intros Hd Hd'. apply signed_content_inj in He; [done..| |].
  - by eapply ParseInt_lacks_dot.
  - apply int_lacks_dot, pretty_Z_int.
Qed.

Module SignSample.
Definition mac (k m : bytes) : bytes := (k ++ "|" ++ m)%string.
Definition src : Source := MkSource "shop" "0123456789abcdefghijklmn".
Definition at_ (sec : Z) : Time := unix_epoch + sec * Second.
Definition signed (id : string) : SignedHeaders :=
  match Sign mac src "{}" (at_ 1700000000) id with Ok sh => sh | Err _ => MkSigned "" "" "" false end.
Definition request (id : string) : Headers := MkHeaders id "1700000000" (sg_signature (signed id)).
End SignSample.

Lemma signature_binds_delivery_witness :
  Verify SignSample.mac (SignSample.at_ 1700000100) defaultTolerance "{}" (SignSample.request "msg_1") SignSample.src = Ok tt ∧
  ∃ id ts p, (id, ts, p) ∈ [("msg_1"%string, SignSample.at_ 1700000000, "{}"%string)] ∧ "msg_1"%string = id ∧ "{}"%string = p.
Proof.
  assert (Hv : Verify SignSample.mac (SignSample.at_ 1700000100) defaultTolerance "{}" (SignSample.request "msg_1") SignSample.src = Ok tt)
    by (by vm_compute).
  split; [exact Hv|].
  destruct (signature_binds_delivery SignSample.mac SignSample.src [("msg_1"%string, SignSample.at_ 1700000000, "{}"%string)]
    (SignSample.at_ 1700000100) defaultTolerance "{}" (SignSample.request "msg_1")) as (id&ts&p&sec&Hin&_&_&_&Hsame).
  - intros content (token&encoded&Hin&Hcut&Hdec). exists "msg_1"%string, (SignSample.at_ 1700000000), "{}"%string.
    split; [by left|]. vm_compute in Hin. apply list_elem_of_singleton in Hin as ->. vm_compute in Hcut.
    injection Hcut as <-. vm_compute in Hdec. injection Hdec as Hdec. rewrite <- Hdec. by vm_compute.
  - unfold SignSample.at_, unix_epoch, Second, Millisecond. lia.
  - unfold defaultTolerance, Minute, Second, Millisecond, MaxInt64. lia.
  - exact Hv.
  - assert (Hid : lacks "." id = true) by (apply list_elem_of_singleton in Hin; by injection Hin as ->).
    destruct (Hsame eq_refl Hid) as (Hi&_&Hp). exists id, ts, p. split; [exact Hin|]. split; [exact Hi|exact Hp].
Defined.

(** dots in delivery identifiers let one signature pass for another delivery.
    Whatever HMAC and secret, a delivery whose identifier ends in a dot and a
    timestamp is also accepted, with the same signature, as the delivery with the
    shorter identifier, that timestamp, and a body that starts with the timestamp
    really signed; it has another identifier, so no claim on the first one stops
    it. *)
Theorem dotted_identifier_spliced hmac src p t id ts0 sh now tolerance :
  Sign hmac src p t (id ++ String "." ts0)%string = Ok sh → secret src ≠ "" →
  DeliveryID_Validate id = Ok tt → validateTimestamp now tolerance ts0 = Ok tt →
  Verify hmac now tolerance (sg_timestamp sh ++ String "." p)%string (MkHeaders id ts0 (sg_signature sh)) src = Ok tt ∧
  id ≠ sg_deliveryID sh.
Proof.
  intros (_&Hid'&Hts&_&Hc)%Sign_Ok Hs Hid Hw. split.
  - apply Verify_spec. cbn. split_and!; try done. unfold computeMAC, signed_content in *.
    rewrite Hts. rewrite append_assoc, append_String in Hc. exact Hc.
  - rewrite Hid'. intros H%(f_equal String.length). rewrite length_append in H. cbn in H. lia.
Qed.

Lemma dotted_identifier_spliced_witness :
  Verify SignSample.mac (SignSample.at_ 1700000100) defaultTolerance "1700000000.{}"
    (MkHeaders "evt" "1699999999" (sg_signature (SignSample.signed "evt.1699999999"))) SignSample.src = Ok tt.
Proof.
  apply (dotted_identifier_spliced SignSample.mac SignSample.src "{}" (SignSample.at_ 1700000000) "evt" "1699999999"
    (SignSample.signed "evt.1699999999") (SignSample.at_ 1700000100) defaultTolerance); by vm_compute.
Defined.
