(* ===== verification/WebhookReceiver.v ===== *)
(** * runtime/webhook: the receiver

    The pipeline of receiver.go for one inbound delivery: read the body within
    its limit, verify the signature, claim the delivery, run the handler, commit
    or release the claim.  The claimer is any [Claimer]; the request is what the
    connection yields. *)

From Stdlib Require Import Ascii String.
From S2P Require Import Prelude GoJson JsonText IdUtil Idempotency HttpWriter WebhookSign.

Record ReceiverSpec := MkSpec {
  ContractID : string;
  SourceID : string;
  CellID : string;
  PathPattern : string;
  DeliveryIDHeader : string;
  TimestampHeader : string;
  SignatureHeader : string;
  ToleranceSeconds : Z;
  MaxBodyBytes : Z;
}.

Definition validateSpecFields (contractID sourceID cellID : string) : outcome unit :=
  if contractID ==s "" then Err (config_invalid "webhook: spec requires a non-empty ContractID")
  else
    match SourceID_Validate sourceID with
    | Err _ => Err (config_invalid "webhook: spec SourceID invalid")
    | Ok _ => if cellID ==s "" then Err (config_invalid "webhook: spec requires a non-empty CellID") else Ok tt
    end.

Definition Spec_Validate (s : ReceiverSpec) : outcome unit :=
  match validateSpecFields (ContractID s) (SourceID s) (CellID s) with
  | Err e => Err e
  | Ok _ =>
      if PathPattern s ==s "" then Err (config_invalid "webhook: ReceiverSpec requires a non-empty PathPattern")
      else if DeliveryIDHeader s ==s "" then Err (config_invalid "webhook: ReceiverSpec requires a non-empty DeliveryIDHeader")
      else if TimestampHeader s ==s "" then Err (config_invalid "webhook: ReceiverSpec requires a non-empty TimestampHeader")
      else if SignatureHeader s ==s "" then Err (config_invalid "webhook: ReceiverSpec requires a non-empty SignatureHeader")
      else if ToleranceSeconds s <=? 0 then Err (config_invalid "webhook: ReceiverSpec ToleranceSeconds must be positive")
      else if MaxBodyBytes s <=? 0 then Err (config_invalid "webhook: ReceiverSpec MaxBodyBytes must be positive")
      else Ok tt
  end.

(** [buildRouteGroup]: the tolerance is converted in int64, then checked. *)
Definition buildVerifier (s : ReceiverSpec) : outcome Duration :=
  match NewHMACVerifier [wrap64 (ToleranceSeconds s * Second)] with
  | Err e => Err (Errorf "build verifier" e)
  | Ok tolerance =>
      match Spec_Validate s with Err e => Err (Errorf "build receiver" e) | Ok _ => Ok tolerance end
  end.

Definition receiverLeaseTTL : Duration := 30 * Second.
Definition receiverDoneTTL : Duration := 24 * Hour.

Record Delivery := MkDelivery { d_DeliveryID : string; d_SourceID : string; d_Headers : Headers; d_Payload : bytes }.

(** The announced length, and the body with the error that ends it, if any. *)
Record request := MkRequest { ContentLength : Z; rq_body : bytes; rq_err : option goerror; rq_header : header }.

Inductive SignatureFailureReason : Type :=
  | ReasonMissingHeader | ReasonInvalidHeader | ReasonUnknownSource | ReasonBadSignature | ReasonTimestampExpired.

Definition errBodyTooLarge : goerror :=
  Errcode KindPayloadTooLarge "ERR_WEBHOOK_BODY_TOO_LARGE" "webhook receiver: request body too large".
Definition ErrServiceUnavailable : string := "ERR_SERVICE_UNAVAILABLE".

(** [MaxBytesReader] fails on the first byte past the limit. *)
Definition readBody (spec : ReceiverSpec) (req : request) : outcome bytes :=
  if ContentLength req >? MaxBodyBytes spec then Err errBodyTooLarge
  else if byte_len (rq_body req) >? MaxBodyBytes spec then Err errBodyTooLarge
  else
    match rq_err req with
    | Some _ => Err (Errcode KindUnavailable ErrServiceUnavailable "webhook receiver: failed to read request body")
    | None => Ok (rq_body req)
    end.

Definition verifyErrReason (err : goerror) : SignatureFailureReason :=
  match errors_As_errcode err with
  | Some (_, code, _) =>
      if code ==s ErrWebhookTimestampExpired then ReasonTimestampExpired
      else if code ==s ErrWebhookInvalidHeader then ReasonInvalidHeader
      else ReasonBadSignature
  | None => ReasonBadSignature
  end.

(** What the client is answered; [Accepted] is [writeAccepted], [Silent] an empty
    response. *)
Inductive response : Type :=
  | Failed (err : goerror)
  | Accepted
  | Silent
  | Panicked.

(** A handler returns an error or nil, or panics. *)
Definition WebhookReceiveHandler (M : Type) : Type := Delivery → M → option (option goerror) * M.

Section receiver.
Context (hmac : bytes → bytes → bytes) (spec : ReceiverSpec) (tolerance : Duration) (store : gmap string Source).

Definition verify (now : Time) (body : bytes) (req : request) : (SignatureFailureReason * goerror) + Delivery :=
  let deliveryIDRaw := header_Get (rq_header req) (DeliveryIDHeader spec) in
  let timestampRaw := header_Get (rq_header req) (TimestampHeader spec) in
  let signatureRaw := header_Get (rq_header req) (SignatureHeader spec) in
  if (deliveryIDRaw ==s "") || (timestampRaw ==s "") || (signatureRaw ==s "")
  then inl (ReasonMissingHeader, Errcode KindInvalid ErrWebhookInvalidHeader
              "webhook receiver: one or more required signature headers are missing")
  else
    match DeliveryID_Validate deliveryIDRaw with
    | Err e => inl (ReasonInvalidHeader, e)
    | Ok _ =>
        let headers := MkHeaders deliveryIDRaw timestampRaw signatureRaw in
        match Lookup store (SourceID spec) with
        | None => inl (ReasonUnknownSource, errSignature)
        | Some src =>
            match Verify hmac now tolerance body headers src with
            | Err e => inl (verifyErrReason e, e)
            | Ok _ => inr (MkDelivery deliveryIDRaw (SourceID spec) headers body)
            end
        end
    end.

Definition claim_key (d : Delivery) : string := ("webhook:" ++ SourceID spec ++ ":" ++ d_DeliveryID d)%string.

(** [ServeHTTP] up to the handler: a response, or a delivery with its receipt. *)
Definition receive {C} `{!Claimer C} (c : C) (now now' : Time) (entropy : list Z) (req : request)
    : (response + Delivery * option nat) * C :=
  match readBody spec req with
  | Err e => (inl (Failed e), c)
  | Ok body =>
      match verify now body req with
      | inl (_, e) => (inl (Failed e), c)
      | inr d =>
          match cl_Claim c now' entropy (claim_key d) receiverLeaseTTL receiverDoneTTL with
          | ((_, _, Some _), c') =>
              (inl (Failed (Errcode KindUnavailable ErrServiceUnavailable "webhook receiver: idempotency service unavailable")), c')
          | ((ClaimDone, _, None), c') => (inl Accepted, c')
          | ((ClaimBusy, _, None), c') =>
              (inl (Failed (Errcode KindConflict "ERR_WEBHOOK_DUPLICATE_DELIVERY"
                              "webhook receiver: delivery is already being processed")), c')
          | ((ClaimAcquired, rcpt, None), c') => (inr (d, rcpt), c')
          | ((ClaimStateOther _, _, None), c') => (inl Silent, c')
          end
      end
  end.

(** A receipt that holds no lease does nothing. *)
Definition on_receipt {C} (f : nat → outcome unit * C) (c : C) (rcpt : option nat) : C :=
  match rcpt with Some i => (f i).2 | None => c end.

(** [dispatch] after the handler: the receipt is released when it fails or panics;
    errors of the receipt are logged. *)
Definition settle {C} `{!Claimer C} (c : C) (now : Time) (rcpt : option nat) (o : option (option goerror)) : response * C :=
  let release := on_receipt (cl_Release c) c rcpt in
  match o with
  | None => (Panicked, release)
  | Some (Some err) => (Failed err, release)
  | Some None => (Accepted, on_receipt (λ i, cl_Commit c i now) c rcpt)
  end.

Definition dispatch {C} `{!Claimer C} {M} (handler : WebhookReceiveHandler M) (c : C) (m : M) (now : Time)
    (d : Delivery) (rcpt : option nat) : response * C * M :=
  let '(o, m') := handler d m in
  let '(r, c') := settle c now rcpt o in
  (r, c', m').

Definition ServeHTTP {C} `{!Claimer C} {M} (handler : WebhookReceiveHandler M) (c : C) (m : M) (now now' now'' : Time)
    (entropy : list Z) (req : request) : response * C * M :=
  match receive c now now' entropy req with
  | (inl r, c') => (r, c', m)
  | (inr (d, rcpt), c') => dispatch handler c' m now'' d rcpt
  end.
End receiver.

(** ** Deliveries and the in-memory claimer *)

Section once.
Context (hmac : bytes → bytes → bytes) (spec : ReceiverSpec) (tolerance : Duration) (store : gmap string Source).

(** At [now] the request passes the size limit and the verification. *)
Definition presents (now : Time) (req : request) (d : Delivery) : Prop :=
  ∃ body, readBody spec req = Ok body ∧ verify hmac spec tolerance store now body req = inr d.

Lemma receive_presents (c : InMemClaimer) now now' en req d :
  presents now req d →
  receive hmac spec tolerance store c now now' en req =
  match Claim c now' en (claim_key spec d) receiverLeaseTTL receiverDoneTTL with
  | ((_, _, Some _), c') =>
      (inl (Failed (Errcode KindUnavailable ErrServiceUnavailable "webhook receiver: idempotency service unavailable")), c')
  | ((ClaimDone, _, None), c') => (inl Accepted, c')
  | ((ClaimBusy, _, None), c') =>
      (inl (Failed (Errcode KindConflict "ERR_WEBHOOK_DUPLICATE_DELIVERY"
                      "webhook receiver: delivery is already being processed")), c')
  | ((ClaimAcquired, rcpt, None), c') => (inr (d, rcpt), c')
  | ((ClaimStateOther _, _, None), c') => (inl Silent, c')
  end.
Proof. intros (body&Hb&Hv). unfold receive. rewrite Hb, Hv. reflexivity. Qed.

Lemma receive_acquired (c : InMemClaimer) now now' en req d i c1 :
  receive hmac spec tolerance store c now now' en req = (inr (d, Some i), c1) →
  presents now req d ∧
  Claim c now' en (claim_key spec d) receiverLeaseTTL receiverDoneTTL = ((ClaimAcquired, Some i, None), c1).
Proof.
  unfold receive, presents. destruct (readBody spec req) as [body|]; [|done].
  destruct (verify _ _ _ _ _ _ _) as [[]|d'] eqn:Hv; [done|]. cbn [cl_Claim InMemClaimer_Claimer].
  destruct (Claim _ _ _ _ _ _) as [[[st rcpt] err] c'] eqn:Hc. intros Hr.
  destruct st, err; try done. injection Hr as -> -> ->. split; [by exists body|exact Hc].
Qed.

Lemma presents_Verify now req d :
  presents now req d →
  ∃ src, Lookup store (SourceID spec) = Some src ∧ Verify hmac now tolerance (d_Payload d) (d_Headers d) src = Ok tt ∧
    DeliveryID (d_Headers d) = d_DeliveryID d ∧ d_SourceID d = SourceID spec.
Proof.
  intros (body&_&Hv). unfold verify in Hv. destruct (_ || _); [done|].
  destruct (DeliveryID_Validate _); [|done]. destruct (Lookup _ _) as [src|]; [|done]. exists src. split; [done|].
  destruct (Verify _ _ _ _ _ _) as [[]|] eqn:Hok; [|done]. by injection Hv as <-.
Qed.

(** A timestamp that is not a number tells whether the source is registered,
    although an unregistered source is answered like a wrong signature. *)
Lemma unregistered_source_shows now body req :
  let id := header_Get (rq_header req) (DeliveryIDHeader spec) in
  let ts := header_Get (rq_header req) (TimestampHeader spec) in
  ts ≠ "" → header_Get (rq_header req) (SignatureHeader spec) ≠ "" → DeliveryID_Validate id = Ok tt → ParseInt ts = None →
  match Lookup store (SourceID spec) with
  | None => verify hmac spec tolerance store now body req = inl (ReasonUnknownSource, errSignature)
  | Some src => secret src ≠ "" → ∃ reason err, verify hmac spec tolerance store now body req = inl (reason, err) ∧
      error_code err = Some ErrWebhookInvalidHeader
  end.
Proof.
  intros id ts Hts Hsig Hid Hp. assert (Hne : id ≠ "") by (intros He; by rewrite He in Hid).
  destruct (Lookup store (SourceID spec)) as [src|] eqn:Hl; [intros Hs|]; unfold verify; rewrite Hl; fold id ts;
    unfold str_eqb at 1 2 3; rewrite !bool_decide_false by done; cbn [orb]; rewrite Hid; [|done].
  unfold Verify. unfold str_eqb at 1. rewrite bool_decide_false by done. cbn [DeliveryID Timestamp].
  rewrite Hid. unfold validateTimestamp. rewrite Hp. by eexists _, _.
Qed.

Lemma same_key d d' : d_DeliveryID d = d_DeliveryID d' → claim_key spec d = claim_key spec d'.
Proof. unfold claim_key. by intros ->. Qed.

(** What is left of a claim that was released. *)
Lemma Release_frees c i r e :
  receipts c !! i = Some r → rcp_err r = None → owned c r = Some e → entries (Release c i).2 !! rcp_key r = None.
Proof. intros Hr He Ho. unfold Release, use_once. rewrite Hr, He, Ho. cbn. apply lookup_delete_eq. Qed.

Lemma Claim_free c now en key l d :
  entries c !! key = None → length en = 8%nat → ∃ i c', Claim c now en key l d = ((ClaimAcquired, Some i, None), c').
Proof.
  intros Hk He. unfold Claim. rewrite Hk. unfold newToken. rewrite bool_decide_true by done. by eexists _, _.
Qed.

(** A commit leaves a done marker with the token of the receipt. *)
Lemma Commit_done c i t r e :
  tokens_distinct c → receipts c !! i = Some r → rcp_err r = None → owned c r = Some e →
  let c' := (Commit c i t).2 in
  tokens_distinct c' ∧ ∃ r' e', receipts c' !! i = Some r' ∧ rcp_key r' = rcp_key r ∧ owned c' r' = Some e' ∧
    ent_state e' = ClaimDone ∧ expiresAt e' = t + doneTTL r.
Proof.
  intros Hd Hr He Ho c'. pose proof (exec_distinct c (OpCommit i t) I Hd) as Hd'. split; [exact Hd'|].
  unfold c', Commit, use_once. rewrite Hr, He, Ho. cbn [snd].
  eexists _, _. split; [apply list_lookup_insert_eq; by eapply lookup_lt_Some|]. cbn [rcp_key]. split; [done|].
  apply owned_Some in Ho as [_ Ht]. split; [apply owned_Some; cbn; by rewrite lookup_insert_eq|]. by split.
Qed.
End once.

(** A delivery is handled once.  Let a request be verified and its delivery
    claimed, and let other requests use the claimer in any way, but not this
    receipt, until the handler of the first returns.  Meanwhile another request
    for the delivery is answered 409.  If the handler succeeds, for 24 hours from
    the commit every request for the delivery is answered 200 and runs no handler.
    If it fails or panics, the next request for the delivery runs the handler. *)
Theorem delivery_handled_once {M} hmac spec tolerance store (handler : WebhookReceiveHandler M)
    ops0 c now now' en req d i c1 ops c2 m t :
  claimer_run NewInMemClaimer ops0 c →
  fresh_tokens c (OpClaim now' en (claim_key spec d) receiverLeaseTTL receiverDoneTTL) →
  receive hmac spec tolerance store c now now' en req = (inr (d, Some i), c1) →
  claimer_run c1 ops c2 →
  Forall (λ op, ¬ by_receipt i op ∧ claims_before (claim_key spec d) (now' + receiverLeaseTTL) op) ops →
  (∀ u u' en' req' d', presents hmac spec tolerance store u req' d' → d_DeliveryID d' = d_DeliveryID d →
     u' < now' + receiverLeaseTTL →
     receive hmac spec tolerance store c2 u u' en' req' =
     (inl (Failed (Errcode KindConflict "ERR_WEBHOOK_DUPLICATE_DELIVERY"
                     "webhook receiver: delivery is already being processed")), c2)) ∧
  let '(r, c3, m') := dispatch handler c2 m t d (Some i) in
  m' = (handler d m).2 ∧
  match (handler d m).1 with
  | Some None =>
      r = Accepted ∧
      ∀ ops' c4, claimer_run c3 ops' c4 →
        Forall (λ op, ¬ by_receipt i op ∧ claims_before (claim_key spec d) (t + receiverDoneTTL) op) ops' →
        ∀ (M' : Type) (handler' : WebhookReceiveHandler M') m'' u u' u'' en' req' d',
          presents hmac spec tolerance store u req' d' → d_DeliveryID d' = d_DeliveryID d → u' < t + receiverDoneTTL →
          ServeHTTP hmac spec tolerance store handler' c4 m'' u u' u'' en' req' = (Accepted, c4, m'')
  | _ =>
      r ≠ Accepted ∧
      ∀ u u' en' req' d', presents hmac spec tolerance store u req' d' → d_DeliveryID d' = d_DeliveryID d →
        length en' = 8%nat → ∃ i' c4, receive hmac spec tolerance store c3 u u' en' req' = (inr (d', Some i'), c4)
  end.
Proof.
  intros Hrun0 Hf Hrec Hrun Hops. apply receive_acquired in Hrec as [_ Hc].
  pose proof (reachable_distinct _ _ Hrun0) as Hd.
  destruct (Claim_acquired _ _ _ _ _ _ _ _ Hc) as (tok & Hr & Ho).
  assert (Hd1 : tokens_distinct c1).
  { pose proof (exec_distinct c _ Hf Hd) as H. cbn in H. by rewrite Hc in H. }
  destruct (owner_run c1 ops c2 i _ _ Hrun Hd1 Hr Ho) as [Hr2 Ho2].
  { eapply Forall_impl; [exact Hops|]. intros op [Hnot Hb]. split; [|done]. destruct op; cbn in *; try done; by intros ->. }
  pose proof (run_distinct _ _ _ Hrun Hd1) as Hd2. split.
  { intros u u' en' req' d' Hp Hid Hu. rewrite (receive_presents _ _ _ _ _ _ _ _ _ _ Hp), (same_key _ _ _ Hid).
    by erewrite Claim_held by (done || exact Ho2). }
  unfold dispatch, settle. cbn [on_receipt cl_Release cl_Commit InMemClaimer_Claimer].
  assert (Hfail : ∀ u u' en' req' d', presents hmac spec tolerance store u req' d' → d_DeliveryID d' = d_DeliveryID d →
    length en' = 8%nat → ∃ i' c4, receive hmac spec tolerance store (Release c2 i).2 u u' en' req' = (inr (d', Some i'), c4)).
  { intros u u' en' req' d' Hp Hid He. rewrite (receive_presents _ _ _ _ _ _ _ _ _ _ Hp), (same_key _ _ _ Hid).
    destruct (Claim_free (Release c2 i).2 u' en' (claim_key spec d) receiverLeaseTTL receiverDoneTTL) as (i'&c4&->);
      [by eapply (Release_frees c2 i _ _ Hr2)|done|]. by exists i', c4. }
  destruct (handler d m) as [[[err|]|] m']; cbn [fst snd]; (split; [done|]); [by split| |by split].
  split; [done|]. intros ops' c4 Hrun' Hops' M' handler' m'' u u' u'' en' req' d' Hp Hid Hu.
  destruct (Commit_done c2 i t _ _ Hd2 Hr2 eq_refl Ho2) as (Hd3&r3&e3&Hr3&Hk3&Ho3&Hst&Hexp).
  destruct (owner_run _ ops' c4 i _ _ Hrun' Hd3 Hr3 Ho3) as [_ Ho4].
  { eapply Forall_impl; [exact Hops'|]. intros op [Hnot Hb]. rewrite Hk3, Hexp. split; [|done].
    destruct op; cbn in *; try done; by intros ->. }
  unfold ServeHTTP. rewrite (receive_presents _ _ _ _ _ _ _ _ _ _ Hp), (same_key _ _ _ Hid).
  erewrite Claim_held; [|exact Ho4|done|by rewrite Hexp]. by rewrite bool_decide_true.
Qed.

Module ReceiverSample.
Definition spec : ReceiverSpec :=
  MkSpec "http.hook.v1" "shop" "cell" "/hook" HeaderID HeaderTimestamp HeaderSignature 300 1000.
Definition store : gmap string Source := {["shop"%string := SignSample.src]}.
Definition inbound (id : string) : request :=
  MkRequest (-1) "{}" None (Apply (SignSample.signed id) ∅).
Definition now : Time := SignSample.at_ 1700000100.
Definition entropy : list Z := replicate 8 7.
Definition counting : WebhookReceiveHandler nat := λ d n, (Some None, S n).
Definition first := receive SignSample.mac spec defaultTolerance store NewInMemClaimer now now entropy (inbound "msg_1").
Definition delivery : Delivery := MkDelivery "msg_1" "shop" (SignSample.request "msg_1") "{}".
End ReceiverSample.

Lemma delivery_handled_once_witness :
  ∃ c1 c3, ReceiverSample.first = (inr (ReceiverSample.delivery, Some 0%nat), c1) ∧
    dispatch ReceiverSample.counting c1 0%nat ReceiverSample.now ReceiverSample.delivery (Some 0%nat) = (Accepted, c3, 1%nat) ∧
    ServeHTTP SignSample.mac ReceiverSample.spec defaultTolerance ReceiverSample.store ReceiverSample.counting c3 1%nat
      ReceiverSample.now ReceiverSample.now ReceiverSample.now ReceiverSample.entropy (ReceiverSample.inbound "msg_1")
    = (Accepted, c3, 1%nat).
Proof.
  set (c1 := ReceiverSample.first.2). set (c3 := (Commit c1 0%nat ReceiverSample.now).2).
  assert (Hfirst : ReceiverSample.first = (inr (ReceiverSample.delivery, Some 0%nat), c1)) by (by vm_compute).
  destruct (delivery_handled_once SignSample.mac ReceiverSample.spec defaultTolerance ReceiverSample.store ReceiverSample.counting
    [] NewInMemClaimer ReceiverSample.now ReceiverSample.now ReceiverSample.entropy (ReceiverSample.inbound "msg_1")
    ReceiverSample.delivery 0%nat c1 [] c1 0%nat ReceiverSample.now) as [_ (_&_&Hdone)];
    [apply run_nil|intros tok r _ Hr; destruct (not_elem_of_nil r Hr)|unfold ReceiverSample.first in Hfirst; exact Hfirst|apply run_nil|apply Forall_nil; exact I|].
  exists c1, c3. split; [exact Hfirst|]. split; [reflexivity|].
  apply (Hdone [] c3) with (d' := ReceiverSample.delivery); [apply run_nil|apply Forall_nil; exact I| |reflexivity|].
  - exists "{}"%string. split; by vm_compute.
  - unfold receiverDoneTTL, Hour, Minute, Second, Millisecond. lia.
Defined.
