(* ===== verification/WebhookEgress.v ===== *)
(** * kernel/webhook: the addresses a delivery may reach

    ssrf.go: every address a target resolves to is checked against a list of
    reserved networks before one of them is dialled.  From package net the file
    models [SplitHostPort], [ParseIP], [ParseCIDR], [To4] and [Contains], on
    addresses as byte slices; the resolver and [url.Parse] are arguments. *)

From Stdlib Require Import Ascii String.
From S2P Require Import Prelude GoJson JsonText HttpWriter WebhookSign.

(** ** Package net *)

Definition IP : Type := list Z.

Definition v4InV6Prefix : IP := [0; 0; 0; 0; 0; 0; 0; 0; 0; 0; 255; 255].

(** The four-byte form, nil if there is none. *)
Definition To4 (ip : IP) : option IP :=
  if (length ip =? 4)%nat then Some ip
  else if (length ip =? 16)%nat && bool_decide (take 12 ip = v4InV6Prefix) then Some (drop 12 ip)
  else None.

Definition IPv6loopback : IP := [0; 0; 0; 0; 0; 0; 0; 0; 0; 0; 0; 0; 0; 0; 0; 1].

Definition IsLoopback (ip : IP) : bool :=
  match To4 ip with
  | Some ip4 => match ip4 with b :: _ => b =? 127 | [] => false end
  | None => bool_decide (ip = IPv6loopback)
  end.

(** [parseIPv4Fields]: the fields read, the value of the current one and the
    number of its digits. *)
Fixpoint parseIPv4Fields (fields : list Z) (val : Z) (digLen : nat) (s : string) : option IP :=
  match s with
  | EmptyString => if (length fields <? 3)%nat then None else Some (fields ++ [val])
  | String c s1 =>
      if in_range "0" "9" c then
        if (digLen =? 1)%nat && (val =? 0) then None
        else
          let val := val * 10 + (byte_val c - 48) in
          if val >? 255 then None else parseIPv4Fields fields val (S digLen) s1
      else if (c =? ".")%char then
        if (digLen =? 0)%nat || (s1 ==s "") then None
        else if (length fields =? 3)%nat then None
        else parseIPv4Fields (fields ++ [val]) 0 0 s1
      else None
  end.

(** The hexadecimal digits at the start: their number, their value, the rest. *)
Fixpoint hex_group (off : nat) (acc : Z) (s : string) : option (nat * Z * string) :=
  match s with
  | EmptyString => Some (off, acc, s)
  | String c s1 =>
      match hex_val c with
      | None => Some (off, acc, s)
      | Some v => if (3 <? off)%nat then None else hex_group (S off) (acc * 16 + v) s1
      end
  end.

(** The loop of [parseIPv6]: [groups] more 16-bit groups fit after the bytes
    [ip]; the position of the ellipsis. *)
Fixpoint parse_groups (groups : nat) (ip : IP) (ellipsis : option nat) (s : string) : option (IP * option nat) :=
  match groups with
  | O => if s ==s "" then Some (ip, ellipsis) else None
  | S groups =>
      match hex_group 0 0 s with
      | None | Some (O, _, _) => None
      | Some (_, acc, rest) =>
          let ip' := ip ++ [acc / 256; acc mod 256] in
          match rest with
          | EmptyString => Some (ip', ellipsis)
          | String c s1 =>
              if (c =? ".")%char then
                if bool_decide (ellipsis = None) && negb (length ip =? 12)%nat then None
                else if (16 <? length ip + 4)%nat then None
                else match parseIPv4Fields [] 0 0 s with Some ip4 => Some (ip ++ ip4, ellipsis) | None => None end
              else if negb (c =? ":")%char then None
              else
                match s1 with
                | EmptyString => None
                | String c1 s2 =>
                    if (c1 =? ":")%char then
                      if bool_decide (ellipsis ≠ None) then None
                      else if s2 ==s "" then Some (ip', Some (length ip'))
                      else parse_groups groups ip' (Some (length ip')) s2
                    else parse_groups groups ip' ellipsis s1
                end
          end
      end
  end.

(** [netip.Addr]: four bytes, or sixteen and a zone. *)
Inductive Addr : Type := Addr4 (ip : IP) | Addr16 (ip : IP) (zone : string).

Definition parseIPv6 (s : string) : option Addr :=
  match (match Cut "%" s with Some (s, zone) => if zone ==s "" then None else Some (s, zone) | None => Some (s, "") end) with
  | None => None
  | Some (s, zone) =>
      let '(s, ellipsis) := match s with String ":" (String ":" s') => (s', Some 0%nat) | _ => (s, None) end in
      if (s ==s "") && bool_decide (ellipsis ≠ None) then Some (Addr16 (replicate 16 0) zone)
      else
        match parse_groups 8 [] ellipsis s with
        | None => None
        | Some (ip, ellipsis) =>
            match (length ip <? 16)%nat, ellipsis with
            | true, None => None
            | true, Some e => Some (Addr16 (take e ip ++ replicate (16 - length ip) 0 ++ drop e ip) zone)
            | false, Some _ => None
            | false, None => Some (Addr16 ip zone)
            end
        end
  end.

Fixpoint parse_kind (s : string) : option ascii :=
  match s with
  | EmptyString => None
  | String c s1 => if (c =? ".")%char || (c =? ":")%char || (c =? "%")%char then Some c else parse_kind s1
  end.

Definition ParseAddr (s : string) : option Addr :=
  match parse_kind s with
  | Some "."%char => Addr4 <$> parseIPv4Fields [] 0 0 s
  | Some ":"%char => parseIPv6 s
  | _ => None
  end.

Definition As16 (a : Addr) : IP := match a with Addr4 ip => v4InV6Prefix ++ ip | Addr16 ip _ => ip end.
Definition Zone (a : Addr) : string := match a with Addr4 _ => "" | Addr16 _ zone => zone end.
Definition BitLen (a : Addr) : Z := match a with Addr4 _ => 32 | Addr16 _ _ => 128 end.

Definition ParseIP (s : string) : option IP :=
  match ParseAddr s with
  | Some a => if Zone a ==s "" then Some (As16 a) else None
  | None => None
  end.

Record IPNet := MkNet { net_IP : IP; net_Mask : list Z }.

(** [n] ones in [l] bytes. *)
Fixpoint CIDRMask (l : nat) (n : Z) : list Z :=
  match l with
  | O => []
  | S l => if n >=? 8 then 255 :: CIDRMask l (n - 8) else (255 - Z.shiftr 255 n) :: CIDRMask l 0
  end.

Definition IP_Mask (ip : IP) (mask : list Z) : IP :=
  let ip := if (length mask =? 4)%nat && (length ip =? 16)%nat && bool_decide (take 12 ip = v4InV6Prefix)
            then drop 12 ip else ip in
  zip_with Z.land ip mask.

Fixpoint dtoi (n : Z) (s : string) : option Z :=
  match s with
  | EmptyString => Some n
  | String c s1 =>
      if in_range "0" "9" c then
        let n := n * 10 + (byte_val c - 48) in if n >=? 16777215 then None else dtoi n s1
      else None
  end.

Definition ParseCIDR (s : string) : option IPNet :=
  match Cut "/" s with
  | None => None
  | Some (addr, mask) =>
      match ParseAddr addr with
      | None => None
      | Some a =>
          if negb (Zone a ==s "") then None
          else
            match (if mask ==s "" then None else dtoi 0 mask) with
            | None => None
            | Some n =>
                if n >? BitLen a then None
                else
                  let m := CIDRMask (Z.to_nat (BitLen a / 8)) n in
                  Some (MkNet (IP_Mask (As16 a) m) m)
            end
      end
  end.

Definition Contains (n : IPNet) (ip : IP) : bool :=
  let nn := default (net_IP n) (To4 (net_IP n)) in
  let ip := default ip (To4 ip) in
  (length ip =? length nn)%nat &&
  forallb (λ '(a, b, m), Z.land a m =? Z.land b m) (zip (zip nn ip) (net_Mask n)).

Fixpoint index_byte (c : ascii) (s : string) : option nat :=
  match s with
  | EmptyString => None
  | String d s1 => if (d =? c)%char then Some 0%nat else S <$> index_byte c s1
  end.

Fixpoint last_index_byte (c : ascii) (s : string) : option nat :=
  match s with
  | EmptyString => None
  | String d s1 =>
      match last_index_byte c s1 with
      | Some i => Some (S i)
      | None => if (d =? c)%char then Some 0%nat else None
      end
  end.

Definition from_pos (n : nat) (s : string) : string := String.substring n (String.length s - n) s.

(** [SplitHostPort]; all its errors are one here. *)
Definition SplitHostPort (hostport : string) : option (string * string) :=
  match last_index_byte ":" hostport with
  | None => None
  | Some i =>
      match
        match hostport with
        | String "[" _ =>
            match index_byte "]" hostport with
            | None => None
            | Some e => if bool_decide (S e = i) then Some (String.substring 1 (e - 1) hostport, 1%nat, S e) else None
            end
        | _ =>
            let host := String.substring 0 i hostport in
            if bool_decide (index_byte ":" host = None) then Some (host, 0%nat, 0%nat) else None
        end
      with
      | None => None
      | Some (host, j, k) =>
          if negb (bool_decide (index_byte "[" (from_pos j hostport) = None)) then None
          else if negb (bool_decide (index_byte "]" (from_pos k hostport) = None)) then None
          else Some (host, from_pos (S i) hostport)
      end
  end.

(** ** ssrf.go *)

Definition ErrWebhookSSRFBlocked : string := "ERR_WEBHOOK_SSRF_BLOCKED".
Definition ErrWebhookDeliveryFailed : string := "ERR_WEBHOOK_DELIVERY_FAILED".
Definition ssrf_blocked (msg : string) : goerror := Errcode KindPermissionDenied ErrWebhookSSRFBlocked msg.

Definition ssrfBlockedCIDRStrings : list string :=
  ["0.0.0.0/8"; "10.0.0.0/8"; "100.64.0.0/10"; "127.0.0.0/8"; "169.254.0.0/16"; "172.16.0.0/12"; "192.0.0.0/24";
   "192.0.2.0/24"; "192.88.99.0/24"; "192.168.0.0/16"; "198.18.0.0/15"; "198.51.100.0/24"; "203.0.113.0/24";
   "224.0.0.0/4"; "240.0.0.0/4"; "255.255.255.255/32";
   "::/128"; "::1/128"; "64:ff9b::/96"; "64:ff9b:1::/48"; "100::/64"; "2001::/23"; "2001:2::/48"; "2001:db8::/32";
   "2001:10::/28"; "2001:20::/28"; "2002::/16"; "fc00::/7"; "fe80::/10"; "ff00::/8"]%string.

(** [None] is the panic on a malformed literal. *)
Definition ssrfBlockedCIDRs : option (list IPNet) := mapM ParseCIDR ssrfBlockedCIDRStrings.

Record SafePolicy := MkPolicy { allowLoopback : bool; blockedNets : list IPNet }.

(** [NewSafePolicy] with or without [WithAllowLoopback]. *)
Definition NewSafePolicy (allow : bool) : option SafePolicy := MkPolicy allow <$> ssrfBlockedCIDRs.

Definition normalizeIP (ip : IP) : IP := match To4 ip with Some v4 => v4 | None => ip end.

Definition vet (p : SafePolicy) (ip : IP) : outcome unit :=
  let norm := normalizeIP ip in
  if allowLoopback p && IsLoopback norm then Ok tt
  else if existsb (λ n, Contains n norm) (blockedNets p)
  then Err (ssrf_blocked "webhook: target address is blocked by SSRF policy")
  else Ok tt.

(** The error of the first address that is refused. *)
Fixpoint vet_all (p : SafePolicy) (addrs : list IP) : outcome unit :=
  match addrs with
  | [] => Ok tt
  | a :: rest => match vet p a with Err e => Err e | Ok _ => vet_all p rest end
  end.

(** [DialContext]: the address and port handed to the dialer. *)
Definition DialContext (p : SafePolicy) (LookupIPAddr : string → outcome (list IP)) (address : string) : outcome (IP * string) :=
  match SplitHostPort address with
  | None => Err (ssrf_blocked "webhook: malformed dial address")
  | Some (host, port) =>
      match ParseIP host with
      | Some ip => match vet p ip with Err e => Err e | Ok _ => Ok (ip, port) end
      | None =>
          match LookupIPAddr host with
          | Err _ => Err (Errcode KindUnavailable ErrWebhookDeliveryFailed "webhook: dial host resolution failed")
          | Ok [] => Err (Errcode KindUnavailable ErrWebhookDeliveryFailed "webhook: dial host resolved to no addresses")
          | Ok (vetted :: rest) => match vet_all p (vetted :: rest) with Err e => Err e | Ok _ => Ok (vetted, port) end
          end
      end
  end.

(** What [url.Parse] finds: whether there is userinfo, the scheme, the host name
    alone and with its port, the URL printed again, and the address its host
    and port, or the port of the scheme, are dialled at. *)
Record URL := MkURL {
  u_User : bool; u_Scheme : string; u_Hostname : string; u_Host : string; u_String : string; canonicalAddr : string;
}.

Fixpoint ToLower (s : string) : string :=
  match s with EmptyString => EmptyString | String c s' => String (to_lower c) (ToLower s') end.

Definition ValidateTargetURL (p : SafePolicy) (url_Parse : string → outcome URL) (rawURL : string) : outcome unit :=
  match url_Parse rawURL with
  | Err _ => Err (ssrf_blocked "webhook: dispatch target URL is not parseable")
  | Ok u =>
      if u_User u then Err (ssrf_blocked "webhook: dispatch target URL must not embed userinfo credentials")
      else
        let scheme := ToLower (u_Scheme u) in
        if negb ((scheme ==s "http") || (scheme ==s "https"))
        then Err (ssrf_blocked "webhook: dispatch target scheme is not allowed")
        else if u_Hostname u ==s "" then Err (ssrf_blocked "webhook: dispatch target URL has no host")
        else match ParseIP (u_Hostname u) with Some ip => vet p ip | None => Ok tt end
  end.

Definition DenyRedirect : goerror := ssrf_blocked "webhook: redirects are not permitted on outbound delivery".

(** ** Reserved addresses *)

Definition special4 (a b c : Z) : Prop :=
  a = 0 ∨ a = 10 ∨ a = 127 ∨ 224 ≤ a ∨ (a = 100 ∧ 64 ≤ b < 128) ∨ (a = 169 ∧ b = 254) ∨ (a = 172 ∧ 16 ≤ b < 32) ∨
  (a = 192 ∧ b = 168) ∨ (a = 192 ∧ b = 0 ∧ (c = 0 ∨ c = 2)) ∨ (a = 192 ∧ b = 88 ∧ c = 99) ∨
  (a = 198 ∧ 18 ≤ b < 20) ∨ (a = 198 ∧ b = 51 ∧ c = 100) ∨ (a = 203 ∧ b = 0 ∧ c = 113).

(** The groups of an IPv6 address. *)
Definition special6 (g0 g1 g2 g3 g4 g5 g6 g7 : Z) : Prop :=
  (g0 = 0 ∧ g1 = 0 ∧ g2 = 0 ∧ g3 = 0 ∧ g4 = 0 ∧ g5 = 0 ∧ g6 = 0 ∧ (g7 = 0 ∨ g7 = 1)) ∨
  (g0 = 0x64 ∧ g1 = 0xff9b ∧ (g2 = 1 ∨ (g2 = 0 ∧ g3 = 0 ∧ g4 = 0 ∧ g5 = 0))) ∨
  (g0 = 0x100 ∧ g1 = 0 ∧ g2 = 0 ∧ g3 = 0) ∨
  (g0 = 0x2001 ∧ (g1 < 0x200 ∨ g1 = 0xdb8)) ∨ g0 = 0x2002 ∨
  0xfc00 ≤ g0 < 0xfe00 ∨ 0xfe80 ≤ g0 < 0xfec0 ∨ 0xff00 ≤ g0.

Definition public (ip : IP) : Prop :=
  match normalizeIP ip with
  | [a; b; c; _] => ¬ special4 a b c
  | [a0; b0; a1; b1; a2; b2; a3; b3; a4; b4; a5; b5; a6; b6; a7; b7] =>
      ¬ special6 (a0 * 256 + b0) (a1 * 256 + b1) (a2 * 256 + b2) (a3 * 256 + b3)
                 (a4 * 256 + b4) (a5 * 256 + b5) (a6 * 256 + b6) (a7 * 256 + b7)
  | _ => False
  end.

Definition wf_ip (ip : IP) : Prop := (length ip = 4%nat ∨ length ip = 16%nat) ∧ Forall (λ b, 0 ≤ b < 256) ip.

Lemma blocked_nets_parse : ∃ nets, ssrfBlockedCIDRs = Some nets ∧ length nets = 30%nat.
Proof. eexists. split; vm_compute; reflexivity. Qed.

Definition nets : list IPNet := Eval vm_compute in default [] ssrfBlockedCIDRs.

Lemma NewSafePolicy_nets allow : NewSafePolicy allow = Some (MkPolicy allow nets).
Proof. unfold NewSafePolicy. assert (ssrfBlockedCIDRs = Some nets) as -> by (vm_compute; reflexivity). done. Qed.

(** [Contains] on an address that is normalized already. *)
Definition matches (n : IPNet) (ip : IP) : bool :=
  (length ip =? length (net_IP n))%nat &&
  forallb (λ '(a, b, m), Z.land a m =? Z.land b m) (zip (zip (net_IP n) ip) (net_Mask n)).

Lemma nets_normalized : forallb (λ n, bool_decide (default (net_IP n) (To4 (net_IP n)) = net_IP n)) nets = true.
Proof. vm_compute. reflexivity. Qed.

Lemma blocked_matches ip :
  default ip (To4 ip) = ip → existsb (λ n, Contains n ip) nets = existsb (λ n, matches n ip) nets.
Proof.
  intros Hn. pose proof nets_normalized as Hf. induction nets as [|n ns IH]; [done|].
  cbn in Hf |- *. apply andb_prop in Hf as [H1 H2]. rewrite IH by done. f_equal.
  unfold Contains, matches. apply bool_decide_eq_true in H1. by rewrite Hn, H1.
Qed.

(** The same in terms of ranges: equal up to the end of the prefix, the last
    byte of which may be fixed in part. *)
Fixpoint covers (nn mask ip : list Z) : Prop :=
  match mask, nn, ip with
  | m :: mask, b :: nn, x :: ip =>
      if m =? 0 then True else if m =? 255 then x = b ∧ covers nn mask ip else b ≤ x < b + (256 - m)
  | _, _, _ => True
  end.

(** A mask byte is one of those that occur, and nothing follows a partial one. *)
Fixpoint prefix_net (nn mask : list Z) : bool :=
  match nn, mask with
  | b :: nn, m :: mask =>
      (Z.land b m =? b) && (0 <=? b) && (b <? 256) && bool_decide (m ∈ [255; 254; 240; 192; 0]) &&
      ((m =? 255) || forallb (λ m, m =? 0) mask) && prefix_net nn mask
  | [], [] => true
  | _, _ => false
  end.

Lemma mask_byte m b x :
  m ∈ [255; 254; 240; 192; 0] → 0 ≤ b < 256 → Z.land b m = b → 0 ≤ x < 256 →
  Z.land b m = Z.land x m ↔ b ≤ x < b + (256 - m).
Proof.
  intros Hm Hb Hbm Hx. rewrite Hbm.
  set (ok b x m := implb (Z.land b m =? b) (Bool.eqb (b =? Z.land x m) ((b <=? x) && (x <? b + (256 - m))))).
  set (bs := Z.of_nat <$> seq 0 256).
  assert (H : forallb (λ m, forallb (λ b, forallb (λ x, ok b x m) bs) bs) [255; 254; 240; 192; 0] = true) by (vm_compute; reflexivity).
  assert (Hin : ∀ z, 0 ≤ z < 256 → In z bs).
  { intros z Hz. apply list_elem_of_In, list_elem_of_fmap. exists (Z.to_nat z). rewrite elem_of_seq. lia. }
  rewrite forallb_forall in H. specialize (H m ltac:(by apply list_elem_of_In)).
  rewrite forallb_forall in H. specialize (H b (Hin b Hb)). rewrite forallb_forall in H. specialize (H x (Hin x Hx)).
  unfold ok in H. lia.
Qed.

Lemma matches_covers nn mask ip :
  prefix_net nn mask = true → length ip = length nn → Forall (λ b, 0 ≤ b < 256) ip →
  forallb (λ '(a, b, m), Z.land a m =? Z.land b m) (zip (zip nn ip) mask) = true ↔ covers nn mask ip.
Proof.
  revert mask ip. induction nn as [|b nn IH]; intros [|m mask] [|x ip] Hp Hl Hf; try done.
  cbn in Hp, Hl |- *. apply Forall_cons in Hf as [Hx Hf]. injection Hl as Hl. apply andb_prop in Hp as [Hp Hrest].
  apply andb_prop in Hp as [Hp Htail]. bools. rewrite andb_true_iff, Z.eqb_eq, (mask_byte m b x), (IH mask ip) by (done || lia).
  assert (Hzero : forallb (λ m, m =? 0) mask = true → covers nn mask ip).
  { intros Hz. destruct mask as [|m' mask'], nn, ip; try done. cbn in Hz |- *. by apply andb_prop in Hz as [-> _]. }
  destruct (m =? 0) eqn:Hm0; [bools; subst m|destruct (m =? 255) eqn:Hm1].
  - rewrite Z.land_0_r in *. split; [done|]. intros _. split; [lia|by apply Hzero].
  - bools. subst m. split; intros []; (split; [lia|done]).
  - cbn in Htail. split; [by intros []|]. intros. split; [done|by apply Hzero].
Qed.

Lemma nets_prefix : forallb (λ n, prefix_net (net_IP n) (net_Mask n)) nets = true.
Proof. vm_compute. reflexivity. Qed.

(** The networks with addresses of [l] bytes. *)
Definition nets_of (l : nat) : list IPNet := base.filter (λ n, length (net_IP n) = l) nets.
Definition covered (ns : list IPNet) (ip : IP) : Prop := foldr (λ n P, covers (net_IP n) (net_Mask n) ip ∨ P) False ns.

Lemma blocked_covered ip :
  default ip (To4 ip) = ip → Forall (λ b, 0 ≤ b < 256) ip →
  existsb (λ n, Contains n ip) nets = true ↔ covered (nets_of (length ip)) ip.
Proof.
  intros Hn Hb. rewrite blocked_matches by done. unfold covered, nets_of. pose proof nets_prefix as Hp.
  induction nets as [|n ns IH]; [done|]. cbn [existsb forallb] in Hp |- *. apply andb_prop in Hp as [Hp1 Hp2].
  rewrite orb_true_iff, IH by done. unfold matches. destruct (length ip =? length (net_IP n))%nat eqn:Hl; [apply Nat.eqb_eq in Hl|apply Nat.eqb_neq in Hl].
  - rewrite filter_cons_True by done. cbn [foldr andb]. rewrite matches_covers by (done || lia). done.
  - rewrite filter_cons_False by done. cbn. naive_solver.
Qed.

(** One range of one description lies in one range of the other. *)
Local Ltac some_range := lazymatch goal with |- _ ∨ _ => first [left; lia | right; some_range] | |- _ => lia end.
Local Ltac pick_range := intros Hs; destruct_and?; destruct_or?; destruct_and?; destruct_or?; first [exfalso; lia | some_range].

Definition nets4 : list IPNet := Eval vm_compute in nets_of 4.
Definition nets6 : list IPNet := Eval vm_compute in nets_of 16.

Lemma covered4 a b c d :
  Forall (λ b, 0 ≤ b < 256) [a; b; c; d] → covered nets4 [a; b; c; d] ↔ special4 a b c.
Proof.
  intros Hb. rewrite !Forall_cons in Hb. destruct Hb as (Ha&Hb&Hc&Hd&_). pose proof (Z.lt_ge_cases a 240).
  unfold covered, nets4, special4. cbn [foldr net_IP net_Mask covers Z.eqb Pos.eqb]. split; pick_range.
Qed.

Lemma covered6 a0 b0 a1 b1 a2 b2 a3 b3 a4 b4 a5 b5 a6 b6 a7 b7 :
  let ip := [a0; b0; a1; b1; a2; b2; a3; b3; a4; b4; a5; b5; a6; b6; a7; b7] in
  Forall (λ b, 0 ≤ b < 256) ip →
  covered nets6 ip ↔
  special6 (a0 * 256 + b0) (a1 * 256 + b1) (a2 * 256 + b2) (a3 * 256 + b3)
           (a4 * 256 + b4) (a5 * 256 + b5) (a6 * 256 + b6) (a7 * 256 + b7).
Proof.
  intros ip Hb. unfold ip in *. rewrite !Forall_cons in Hb. destruct_and! Hb.
  unfold covered, nets6, special6. cbn [foldr net_IP net_Mask covers Z.eqb Pos.eqb]. split; pick_range.
Qed.

(** ** Vetting *)

Definition loopback (ip : IP) : Prop := (∃ b c d, normalizeIP ip = [127; b; c; d]) ∨ normalizeIP ip = IPv6loopback.

(** What the policy lets through. *)
Definition admissible (allow : bool) (ip : IP) : Prop := public ip ∨ (allow = true ∧ loopback ip).

Lemma To4_length ip v4 : To4 ip = Some v4 → length v4 = 4%nat.
Proof.
  unfold To4. destruct (length ip =? 4)%nat eqn:H4; [intros [= <-]; by apply Nat.eqb_eq|].
  destruct (length ip =? 16)%nat eqn:H16; [|done]. apply Nat.eqb_eq in H16. case_bool_decide; [|done].
  cbn. intros [= <-]. rewrite length_drop. lia.
Qed.

Lemma To4_bytes ip v4 : To4 ip = Some v4 → Forall (λ b, 0 ≤ b < 256) ip → Forall (λ b, 0 ≤ b < 256) v4.
Proof.
  unfold To4. intros H Hf. destruct (_ =? 4)%nat; [by simplify_eq|]. destruct (_ && _); [|done]. simplify_eq. by apply Forall_drop.
Qed.

Lemma normalizeIP_spec ip :
  wf_ip ip →
  let norm := normalizeIP ip in
  Forall (λ b, 0 ≤ b < 256) norm ∧ default norm (To4 norm) = norm ∧
  (length norm = 4%nat ∧ To4 norm = Some norm ∨ length norm = 16%nat ∧ To4 norm = None).
Proof.
  intros [Hl Hf]. unfold normalizeIP. destruct (To4 ip) as [v4|] eqn:H4; cbv zeta.
  - pose proof (To4_length _ _ H4) as Hl4. assert (To4 v4 = Some v4) as H by (unfold To4; by rewrite Hl4).
    rewrite H. split; [exact (To4_bytes _ _ H4 Hf)|]. split; [done|]. by left.
  - rewrite H4. split; [done|]. split; [done|]. right. split; [|done]. destruct Hl as [Hl|]; [|done].
    unfold To4 in H4. by rewrite Hl in H4.
Qed.

Lemma IsLoopback_spec ip : wf_ip ip → IsLoopback (normalizeIP ip) = true ↔ loopback ip.
Proof.
  intros Hw. destruct (normalizeIP_spec ip Hw) as (_&_&[[Hl Hn]|[Hl Hn]]); unfold IsLoopback, loopback; rewrite Hn.
  - destruct (normalizeIP ip) as [|a [|b [|c [|d [|]]]]]; try done. rewrite Z.eqb_eq. split; [intros ->; left; eauto|].
    intros [(?&?&?&[= -> _ _ _])|[=]]. done.
  - rewrite bool_decide_eq_true. split; [by right|]. intros [(?&?&?&H)|?]; [by rewrite H in Hl|done].
Qed.

Lemma blocked_public ip : wf_ip ip → existsb (λ n, Contains n (normalizeIP ip)) nets = false ↔ public ip.
Proof.
  intros Hw. destruct (normalizeIP_spec ip Hw) as (Hf&Hd&Hl). rewrite <- not_true_iff_false, blocked_covered by done. unfold public.
  assert (nets_of 4 = nets4) as E4 by (vm_compute; reflexivity). assert (nets_of 16 = nets6) as E6 by (vm_compute; reflexivity).
  generalize dependent (normalizeIP ip). intros norm Hf Hd [[Hl _]|[Hl _]]; rewrite Hl, ?E4, ?E6.
  - destruct norm as [|a [|b [|c [|d [|]]]]]; try done. by rewrite covered4.
  - do 16 (destruct norm as [|? norm]; [done|]). destruct norm; [|done]. by rewrite covered6.
Qed.

Lemma vet_spec allow p ip :
  NewSafePolicy allow = Some p → wf_ip ip →
  (vet p ip = Ok tt ↔ admissible allow ip) ∧
  (¬ admissible allow ip → vet p ip = Err (ssrf_blocked "webhook: target address is blocked by SSRF policy")).
Proof.
  rewrite NewSafePolicy_nets. intros [= <-] Hw. unfold vet, admissible. cbn [allowLoopback blockedNets].
  pose proof (IsLoopback_spec ip Hw) as Hlo. pose proof (blocked_public ip Hw) as Hpub.
  revert Hlo Hpub. generalize (IsLoopback (normalizeIP ip)) (existsb (λ n, Contains n (normalizeIP ip)) nets).
  generalize (loopback ip) (public ip). intros L P [] [] Hlo Hpub; destruct allow; cbn [andb]; naive_solver.
Qed.

(** ** Addresses from text *)

Lemma digit_range c : in_range "0" "9" c = true → 0 ≤ byte_val c - 48 ≤ 9.
Proof. destruct c as [[] [] [] [] [] [] [] []]; vm_compute; intros; try discriminate; split; discriminate. Qed.

Lemma parseIPv4Fields_wf s : ∀ fields val n ip,
  parseIPv4Fields fields val n s = Some ip → (length fields ≤ 3)%nat → Forall (λ b, 0 ≤ b < 256) fields → 0 ≤ val < 256 →
  length ip = 4%nat ∧ Forall (λ b, 0 ≤ b < 256) ip.
Proof.
  induction s as [|c s IH]; intros fields val n ip; cbn [parseIPv4Fields].
  - destruct (length fields <? 3)%nat eqn:Hl; [done|]. intros [= <-] ? Hf Hv. apply Nat.ltb_ge in Hl.
    rewrite length_app, Forall_snoc. cbn. split; [lia|done].
  - destruct (in_range "0" "9" c) eqn:Hc.
    + apply digit_range in Hc. destruct (_ && _); [done|]. cbv zeta. destruct (_ >? 255) eqn:Hg; [done|].
      intros Hp Hl Hf Hv. eapply IH; [exact Hp|done|done|lia].
    + destruct (c =? ".")%char; [|done]. destruct (_ || _); [done|]. destruct (length fields =? 3)%nat eqn:Hl; [done|].
      apply Nat.eqb_neq in Hl. intros Hp Hl' Hf Hv. eapply IH; [exact Hp| |by apply Forall_snoc|done].
      rewrite length_app. cbn. lia.
Qed.

Lemma hex_group_range s : ∀ off acc off' acc' rest,
  hex_group off acc s = Some (off', acc', rest) → (off ≤ 4)%nat → 0 ≤ acc < 16 ^ Z.of_nat off → 0 ≤ acc' < 65536.
Proof.
  assert (Hle : ∀ off acc, (off ≤ 4)%nat → 0 ≤ acc < 16 ^ Z.of_nat off → 0 ≤ acc < 65536).
  { intros off acc Ho Ha. pose proof (Z.pow_le_mono_r 16 (Z.of_nat off) 4). lia. }
  induction s as [|c s IH]; intros off acc off' acc' rest; cbn [hex_group]; [intros [= <- <- <-]; apply Hle|].
  destruct (hex_val c) as [v|] eqn:Hv; [|intros [= <- <- <-]; apply Hle].
  destruct (3 <? off)%nat eqn:Ho; [done|]. apply Nat.ltb_ge in Ho. apply hex_val_range in Hv.
  intros Hg _ Ha. eapply IH; [exact Hg|lia|]. rewrite Nat2Z.inj_succ, Z.pow_succ_r; lia.
Qed.

Lemma parse_groups_wf groups : ∀ ip ell s ip' ell',
  parse_groups groups ip ell s = Some (ip', ell') → (length ip + 2 * groups = 16)%nat → Forall (λ b, 0 ≤ b < 256) ip →
  (length ip' ≤ 16)%nat ∧ Forall (λ b, 0 ≤ b < 256) ip'.
Proof.
  induction groups as [|g IH]; intros ip ell s ip' ell'; cbn [parse_groups].
  { destruct (s ==s ""); [|done]. intros [= <- <-] ??. split; [lia|done]. }
  destruct (hex_group 0 0 s) as [[[[|off] acc] rest]|] eqn:Hg; [done| |done].
  apply hex_group_range in Hg; [|lia|cbn; lia].
  intros Hp Hl Hf. assert (Hf' : Forall (λ b, 0 ≤ b < 256) (ip ++ [acc / 256; acc mod 256])).
  { apply Forall_app. split; [done|]. repeat constructor; lia. }
  assert (Hl' : length (ip ++ [acc / 256; acc mod 256]) = (length ip + 2)%nat) by (rewrite length_app; done).
  revert Hp. destruct rest as [|c s1]; [intros [= <- <-]; split; [lia|done]|].
  destruct (c =? ".")%char.
  { destruct (_ && _); [done|]. destruct (_ <? _)%nat eqn:Hr; [done|]. apply Nat.ltb_ge in Hr.
    destruct (parseIPv4Fields _ _ _ _) as [ip4|] eqn:H4; [|done]. intros [= <- <-].
    apply parseIPv4Fields_wf in H4 as [H4l H4f]; [|cbn; lia|constructor|lia].
    rewrite length_app, Forall_app. split; [lia|done]. }
  destruct (negb _); [done|]. destruct s1 as [|c1 s2]; [done|]. destruct (c1 =? ":")%char.
  - case_bool_decide; [done|]. destruct (s2 ==s ""); [intros [= <- <-]; split; [lia|done]|].
    intros Hp. eapply IH; [exact Hp|lia|done].
  - intros Hp. eapply IH; [exact Hp|lia|done].
Qed.

Lemma ParseIP_wf s ip : ParseIP s = Some ip → wf_ip ip.
Proof.
  unfold ParseIP. destruct (ParseAddr s) as [a|] eqn:Ha; [|done]. destruct (Zone a ==s ""); [|done]. intros [= <-].
  unfold ParseAddr in Ha. assert (Hz : ∀ n, Forall (λ b, 0 ≤ b < 256) (replicate n 0)) by (intros; apply Forall_replicate; lia).
  assert (H4 : Addr4 <$> parseIPv4Fields [] 0 0 s = Some a → wf_ip (As16 a)).
  { intros (ip&Hp&->)%fmap_Some. apply parseIPv4Fields_wf in Hp as [Hl Hf]; [|cbn; lia|constructor|lia]. cbn [As16].
    split; [right; rewrite length_app, Hl; done|]. apply Forall_app. split; [|done]. repeat constructor; lia. }
  assert (H6 : parseIPv6 s = Some a → wf_ip (As16 a)).
  { unfold parseIPv6. destruct (match Cut "%" s with Some _ => _ | None => _ end) as [[s' zone]|]; [|done].
    destruct (match s' with String ":" (String ":" _) => _ | _ => _ end) as [s'' ell].
    destruct (_ && _); [intros [= <-]; split; [by right|apply (Hz 16%nat)]|].
    destruct (parse_groups 8 [] ell s'') as [[ip ell']|] eqn:Hp; [|done].
    apply parse_groups_wf in Hp as [Hl Hf]; [|done|constructor]. destruct (length ip <? 16)%nat eqn:Hs, ell' as [e|]; try done.
    - intros [= <-]. apply Nat.ltb_lt in Hs. cbn [As16]. split.
      + right. rewrite !length_app, length_take, length_replicate, length_drop. lia.
      + rewrite !Forall_app. split; [by apply Forall_take|]. split; [apply Hz|by apply Forall_drop].
    - intros [= <-]. apply Nat.ltb_ge in Hs. split; [right; cbn [As16]; lia|done]. }
  destruct (parse_kind s) as [c|]; [|done].
  destruct c as [[] [] [] [] [] [] [] []]; (discriminate Ha || exact (H4 Ha) || exact (H6 Ha)).
Qed.

(** ** What is dialled *)

(** The addresses a host stands for. *)
Definition targets (LookupIPAddr : string → outcome (list IP)) (host : string) : outcome (list IP) :=
  match ParseIP host with Some ip => Ok [ip] | None => LookupIPAddr host end.

Section egress.
Context (allow : bool) (p : SafePolicy) (Hp : NewSafePolicy allow = Some p).
Context (LookupIPAddr : string → outcome (list IP)).
Context (Hres : ∀ host addrs, LookupIPAddr host = Ok addrs → Forall wf_ip addrs).

Lemma targets_wf host addrs : targets LookupIPAddr host = Ok addrs → Forall wf_ip addrs.
Proof.
  unfold targets. destruct (ParseIP host) as [ip|] eqn:Hip; [|apply Hres].
  intros [= <-]. by apply Forall_singleton, (ParseIP_wf host).
Qed.

Lemma vet_all_spec addrs :
  Forall wf_ip addrs →
  (vet_all p addrs = Ok tt ↔ Forall (admissible allow) addrs) ∧
  (∀ e, vet_all p addrs = Err e → error_code e = Some ErrWebhookSSRFBlocked).
Proof.
  induction 1 as [|ip addrs Hw _ [IH1 IH2]]; cbn [vet_all]; [by split; [rewrite Forall_nil|]|].
  rewrite Forall_cons. destruct (vet_spec allow p ip Hp Hw) as [Hv Hb].
  destruct (vet p ip) as [[]|e] eqn:Hvet.
  - rewrite IH1. split; [tauto|exact IH2].
  - assert (¬ admissible allow ip) as Hno by (intros H%Hv; done). split; [naive_solver|].
    intros e' [= ->]. by injection (Hb Hno) as ->.
Qed.

(** [DialContext] on the addresses of the host, however they were found. *)
Lemma DialContext_targets address :
  DialContext p LookupIPAddr address =
  match SplitHostPort address with
  | None => Err (ssrf_blocked "webhook: malformed dial address")
  | Some (host, port) =>
      match targets LookupIPAddr host with
      | Err _ => Err (Errcode KindUnavailable ErrWebhookDeliveryFailed "webhook: dial host resolution failed")
      | Ok [] => Err (Errcode KindUnavailable ErrWebhookDeliveryFailed "webhook: dial host resolved to no addresses")
      | Ok (ip :: rest) => match vet_all p (ip :: rest) with Err e => Err e | Ok _ => Ok (ip, port) end
      end
  end.
Proof.
  unfold DialContext, targets. destruct (SplitHostPort address) as [[host port]|]; [|done].
  destruct (ParseIP host); [cbn [vet_all]|done]. by destruct (vet p _).
Qed.
End egress.

(** C15: a delivery only reaches public addresses.  The dialer is handed an
    address exactly when the host of the target is that address or resolves to it
    first, and every address it stands for is admissible: outside the reserved
    ranges of IPv4 and IPv6, an IPv4 address embedded in IPv6 being judged as the
    former, or a loopback address if the policy was built to allow that.  A host
    with one reserved address is refused with the SSRF code even if its other
    addresses are public; only a host without addresses is refused with the code
    of a delivery that may be retried. *)
Theorem egress_public allow p LookupIPAddr address :
  NewSafePolicy allow = Some p →
  (∀ host addrs, LookupIPAddr host = Ok addrs → Forall wf_ip addrs) →
  (∀ ip port, DialContext p LookupIPAddr address = Ok (ip, port) ↔
     ∃ host rest, SplitHostPort address = Some (host, port) ∧ targets LookupIPAddr host = Ok (ip :: rest) ∧
       Forall (admissible allow) (ip :: rest)) ∧
  (∀ e, DialContext p LookupIPAddr address = Err e →
     error_code e = Some ErrWebhookSSRFBlocked ∨
     error_code e = Some ErrWebhookDeliveryFailed ∧
     ∃ host port, SplitHostPort address = Some (host, port) ∧ ∀ ip rest, targets LookupIPAddr host ≠ Ok (ip :: rest)).
Proof.
  intros Hp Hres. rewrite DialContext_targets.
  assert (Hnone : ∀ e, (∀ host port ip rest, SplitHostPort address = Some (host, port) → targets LookupIPAddr host ≠ Ok (ip :: rest)) →
    ∀ ip port, Err e = Ok (ip, port) ↔ ∃ host rest, SplitHostPort address = Some (host, port) ∧
      targets LookupIPAddr host = Ok (ip :: rest) ∧ Forall (admissible allow) (ip :: rest)).
  { intros e Hno ip port. split; [done|]. intros (host&rest&Hs&Ht&_). by destruct (Hno host port ip rest Hs). }
  destruct (SplitHostPort address) as [[host port]|] eqn:Hs.
  2: { split; [apply Hnone; by intros|]. intros e [= <-]. by left. }
  destruct (targets LookupIPAddr host) as [[|ip rest]|e] eqn:Ht.
  1,3: (split; [apply Hnone; intros ???? [= <- <-]; congruence|]); intros e' [= <-]; right; split; [done|];
    exists host, port; split; [done|]; intros; congruence.
  destruct (vet_all_spec allow p Hp (ip :: rest) (targets_wf _ Hres _ _ Ht)) as [Hok Herr].
  destruct (vet_all p (ip :: rest)) as [[]|e] eqn:Hv; (split; [intros ip' port'; split|]).
  - intros [= <- <-]. exists host, rest. split; [done|]. split; [done|]. by apply Hok.
  - intros (host'&rest'&[= <- <-]&Ht'&_). rewrite Ht in Ht'. by injection Ht' as -> ->.
  - done.
  - done.
  - intros (host'&rest'&[= <- <-]&Ht'&Ha). rewrite Ht in Ht'. injection Ht' as -> ->. by apply Hok in Ha.
  - intros e' [= <-]. left. by apply Herr.
Qed.

Lemma egress_public_witness :
  ∃ p, NewSafePolicy false = Some p ∧
    let resolve host := if str_eqb host "hook.example" then Ok [[93; 184; 216; 34]] else Ok [[93; 184; 216; 34]; [10; 0; 0; 1]] in
    DialContext p resolve "hook.example:443" = Ok ([93; 184; 216; 34], "443"%string) ∧
    (∃ e, DialContext p resolve "rebind.example:80" = Err e) ∧
    ∀ e, DialContext p resolve "[::ffff:169.254.169.254]:80" = Err e →
      error_code e = Some ErrWebhookSSRFBlocked ∨
      error_code e = Some ErrWebhookDeliveryFailed ∧
      ∃ host port, SplitHostPort "[::ffff:169.254.169.254]:80" = Some (host, port) ∧ ∀ ip rest, targets resolve host ≠ Ok (ip :: rest).
Proof.
  exists (MkPolicy false nets). split; [apply NewSafePolicy_nets|].
  set (resolve host := if str_eqb host "hook.example" then Ok [[93; 184; 216; 34]] else Ok [[93; 184; 216; 34]; [10; 0; 0; 1]]).
  split; [by vm_compute|]. split; [eexists; by vm_compute|].
  apply (egress_public false (MkPolicy false nets) resolve "[::ffff:169.254.169.254]:80" (NewSafePolicy_nets false)).
  intros host addrs. unfold resolve. destruct (str_eqb host "hook.example"); intros [= <-]; repeat constructor; lia.
Defined.
