(* ===== verification/WebhookDispatch.v ===== *)
(** * kernel/webhook: the dispatcher

    For each outbox entry the dispatcher selects and vets a target, signs the
    payload, passes the circuit breaker of its tenant and endpoint, posts, and
    tells the consumer what to do with the entry (retry.go, circuit.go,
    dispatcher.go).  [Handle] is split where it waits for the network, so that
    deliveries can overlap.  HMAC, [url.Parse], the resolver, the selector and
    the remote host are arguments; a Go map is evicted at a position that is an
    argument. *)

From Stdlib Require Import Ascii String.
From S2P Require Import Prelude GoJson JsonText IdUtil Idempotency ConsumerBase OutboxStore CircuitBreaker HttpWriter WebhookSign WebhookEgress WebhookReceiver.

(** ** retry.go *)

Definition DefaultSvixSchedule : list Duration :=
  [5 * Second; 5 * Minute; 30 * Minute; 2 * Hour; 5 * Hour; 10 * Hour; 10 * Hour].

Definition DelayFor (delays : list Duration) (n : Z) : option Duration :=
  if (n <? 1) || (n >? Z.of_nat (length delays)) then None else delays !! Z.to_nat (n - 1).

Definition ssrf_error (err : goerror) : bool := bool_decide (error_code err = Some ErrWebhookSSRFBlocked).

Definition Classify (statusCode : Z) (transportErr : option goerror) : Disposition :=
  match transportErr with
  | Some err => if ssrf_error err then DispositionReject else DispositionRequeue
  | None => if (statusCode >=? 200) && (statusCode <? 300) then DispositionAck else DispositionRequeue
  end.

(** ** circuit.go *)

Record circuitEndpointKey := MkEndpoint { key_tenant : string; key_endpoint : string }.

Definition noTenantSentinel : string := "_notenant".

Definition newCircuitEndpointKey (tenant endpoint : string) : circuitEndpointKey :=
  MkEndpoint (if tenant ==s "" then noTenantSentinel else tenant) endpoint.

Definition registryKey (k : circuitEndpointKey) : string := (key_tenant k ++ String "000" (key_endpoint k))%string.

(** FNV-1a, 32 bits, as eight hexadecimal digits. *)
Fixpoint fnv32a (h : Z) (s : string) : Z :=
  match s with EmptyString => h | String c s' => fnv32a (wrap_u32 (Z.lxor h (byte_val c) * 16777619)) s' end.

Fixpoint hex_digits (n : nat) (v : Z) : string :=
  match n with O => EmptyString | S n => (hex_digits n (v / 16) ++ String (lower_hex (v mod 16)) EmptyString)%string end.

Definition circuitFingerprint (s : string) : string := hex_digits 8 (fnv32a 2166136261 s).

Definition logName (url_Parse : string → outcome URL) (k : circuitEndpointKey) : string :=
  let host := match url_Parse (key_endpoint k) with
              | Ok u => if u_Host u ==s "" then key_endpoint k else u_Host u
              | Err _ => key_endpoint k
              end in
  (host ++ "#" ++ circuitFingerprint (registryKey k))%string.

Definition circuitGateMaxEndpoints : nat := 1024.
Definition cbMaxTripThreshold : Z := 1000.
Definition cbMaxOpenTimeout : Duration := Hour.
Definition cbMaxHalfOpenProbes : Z := 100.

Record CircuitBreakerSettings := MkCB { TripThreshold : Z; OpenTimeout : Duration; HalfOpenProbes : Z }.

Definition DefaultCircuitBreakerSettings : CircuitBreakerSettings := MkCB 5 (60 * Second) 1.

Definition CB_Validate (s : CircuitBreakerSettings) : outcome unit :=
  if TripThreshold s <=? 0 then Err (config_invalid "webhook circuit breaker: TripThreshold must be > 0")
  else if TripThreshold s >? cbMaxTripThreshold then Err (config_invalid "webhook circuit breaker: TripThreshold exceeds maximum")
  else if OpenTimeout s <=? 0 then Err (config_invalid "webhook circuit breaker: OpenTimeout must be > 0")
  else if OpenTimeout s >? cbMaxOpenTimeout then Err (config_invalid "webhook circuit breaker: OpenTimeout exceeds maximum")
  else if HalfOpenProbes s <=? 0 then Err (config_invalid "webhook circuit breaker: HalfOpenProbes must be > 0")
  else if HalfOpenProbes s >? cbMaxHalfOpenProbes then Err (config_invalid "webhook circuit breaker: HalfOpenProbes exceeds maximum")
  else Ok tt.

Definition makeCircuitReadyToTrip (tripThreshold : Z) (c : Counts) : bool := ConsecutiveFailures c >? wrap_u32 tripThreshold.

Definition errCircuitProbeFailure : goerror := ErrorsNew "webhook: endpoint health failure".

Definition circuitProbeOutcome (statusCode : Z) (transportErr : option goerror) : option goerror :=
  match transportErr with
  | Some err => if ssrf_error err then None else Some errCircuitProbeFailure
  | None => if (statusCode >=? 500) || (statusCode =? 429) then Some errCircuitProbeFailure else None
  end.

(** The registry maps keys to breakers, which outlive their entry while a
    delivery still has to report to them. *)
Record circuitGate := MkGate {
  cg_settings : CircuitBreakerSettings;
  breakers : gmap string nat;
  store_of : list (settings * breaker);
}.

Definition newCircuitGate (s : CircuitBreakerSettings) : circuitGate := MkGate s ∅ [].

(** Deletes the entry the iteration meets first, which may be any. *)
Definition evict (n : nat) (m : gmap string nat) : gmap string nat :=
  match map_to_list m !! (n mod size m)%nat with Some (k, _) => delete k m | None => m end.

Section gate.
Context (url_Parse : string → outcome URL).

Definition breaker_config (s : CircuitBreakerSettings) (key : circuitEndpointKey) : Config :=
  MkConfig (logName url_Parse key) (wrap_u32 (HalfOpenProbes s)) 0 (OpenTimeout s)
    (Some (makeCircuitReadyToTrip (TripThreshold s))) None.

Definition breakerFor (g : circuitGate) (now : Time) (n : nat) (key : circuitEndpointKey) : option nat * circuitGate :=
  let rk := registryKey key in
  match breakers g !! rk with
  | Some b => (Some b, g)
  | None =>
      let m := if (circuitGateMaxEndpoints <=? size (breakers g))%nat then evict n (breakers g) else breakers g in
      match New (breaker_config (cg_settings g) key) now with
      | Err _ => (None, MkGate (cg_settings g) m (store_of g))
      | Ok b => (Some (length (store_of g)), MkGate (cg_settings g) (<[rk := length (store_of g)]> m) (store_of g ++ [b]))
      end
  end.

Definition set_breaker (g : circuitGate) (i : nat) (b : settings * breaker) : circuitGate :=
  MkGate (cg_settings g) (breakers g) (<[i := b]> (store_of g)).

(** [done]: the breaker and the generation to report to; [None] reports nothing. *)
Definition done_t : Type := option (nat * Z).

Definition gate_Allow (g : circuitGate) (now : Time) (n : nat) (key : circuitEndpointKey) : (bool * done_t) * circuitGate :=
  match breakerFor g now n key with
  | (None, g) => ((true, None), g)
  | (Some i, g) =>
      match store_of g !! i with
      | None => ((true, None), g)
      | Some (cf, b) =>
          match Allow cf b now with
          | (Permitted, gen, b') => ((true, Some (i, gen)), set_breaker g i (cf, b'))
          | (_, _, b') => ((false, None), set_breaker g i (cf, b'))
          end
      end
  end.

Definition gate_done (g : circuitGate) (d : done_t) (err : option goerror) (now : Time) : circuitGate :=
  match d with
  | None => g
  | Some (i, gen) =>
      match store_of g !! i with
      | None => g
      | Some (cf, b) => set_breaker g i (cf, done_cb cf b gen err now)
      end
  end.
End gate.

(** ** dispatcher.go *)

Definition ErrWebhookPermanentFailure : string := "ERR_WEBHOOK_PERMANENT_FAILURE".
Definition Reject (err : option goerror) : HandleResult := MkResult DispositionReject err.

Inductive DispatcherOption : Type :=
  | WithDeliveryTimeout (d : Duration)
  | WithCircuitBreakerSettings (s : CircuitBreakerSettings).

Definition defaultDeliveryTimeout : Duration := 30 * Second.

(** The target selected for a payload. *)
Definition WebhookDispatchSelector : Type := bytes → outcome string.

Record Dispatcher := MkDispatcher {
  signer : Source;
  policy : SafePolicy;
  selector : WebhookDispatchSelector;
  dp_timeout : Duration;
  cbSettings : option CircuitBreakerSettings;
}.

Definition apply_option (d : Dispatcher) (o : DispatcherOption) : Dispatcher :=
  match o with
  | WithDeliveryTimeout t =>
      if t >? 0 then MkDispatcher (signer d) (policy d) (selector d) t (cbSettings d) else d
  | WithCircuitBreakerSettings s => MkDispatcher (signer d) (policy d) (selector d) (dp_timeout d) (Some s)
  end.

(** The dispatcher and its circuit gate; nil arguments are [None]. *)
Definition NewDispatcher (sg : option Source) (p : option SafePolicy) (sel : option WebhookDispatchSelector)
    (opts : list DispatcherOption) : outcome (Dispatcher * circuitGate) :=
  match sg, p, sel with
  | None, _, _ => Err (config_invalid "webhook dispatcher: signer must not be nil")
  | _, None, _ => Err (config_invalid "webhook dispatcher: SSRF policy must not be nil")
  | _, _, None => Err (config_invalid "webhook dispatcher: target selector must not be nil")
  | Some sg, Some p, Some sel =>
      let d := foldl apply_option (MkDispatcher sg p sel defaultDeliveryTimeout None) opts in
      match cbSettings d with
      | None => Ok (d, newCircuitGate DefaultCircuitBreakerSettings)
      | Some s => match CB_Validate s with Err e => Err e | Ok _ => Ok (d, newCircuitGate s) end
      end
  end.

Record http_request := MkHTTP { req_URL : URL; req_header : header; req_body : bytes }.

(** What a host does with a request: no answer, or a status, with or without a
    [Location] that can be followed. *)
Inductive reply : Type :=
  | Broken (err : goerror)
  | Status (code : Z) (location : bool).

Definition is_redirect (code : Z) : bool := existsb (Z.eqb code) [301; 302; 303; 307; 308].

(** [client.Do] on a new connection: the policy chooses the address, and is asked
    about redirects. *)
Definition client_Do (p : SafePolicy) (LookupIPAddr : string → outcome (list IP)) (remote : IP → http_request → reply)
    (req : http_request) : goerror + Z :=
  match DialContext p LookupIPAddr (canonicalAddr (req_URL req)) with
  | Err e => inl (Errorf "Post" e)
  | Ok (ip, _) =>
      match remote ip req with
      | Broken e => inl (Errorf "Post" e)
      | Status code location => if is_redirect code && location then inl (Errorf "Post" DenyRedirect) else inr code
      end
  end.

Definition mapDisposition (disp : Disposition) (reason : goerror) : HandleResult :=
  match disp with
  | DispositionAck => Ack
  | DispositionReject => Reject (Some reason)
  | _ => Requeue (Some reason)
  end.

(** The [*errcode.Error] in a chain, as a value. *)
Definition as_errcode (err : goerror) : goerror :=
  match errors_As_errcode err with Some (k, c, m) => Errcode k c m | None => err end.

Definition transportReason (err : goerror) : goerror :=
  if ssrf_error err then as_errcode err
  else Errcode KindUnavailable ErrWebhookDeliveryFailed "webhook dispatcher: delivery transport error".

Definition selectorReason (err : goerror) : HandleResult :=
  if bool_decide (error_code err = Some ErrWebhookPermanentFailure) then Reject (Some (as_errcode err))
  else Requeue (Some (Errcode KindUnavailable ErrWebhookDeliveryFailed "webhook dispatcher: target selector failed")).

Definition statusReason : goerror :=
  Errcode KindUnavailable ErrWebhookDeliveryFailed "webhook dispatcher: non-success delivery response".

Section dispatcher.
Context (hmac : bytes → bytes → bytes) (url_Parse : string → outcome URL).

Definition prepare (d : Dispatcher) (now : Time) (e : Entry) : HandleResult + http_request :=
  let permanent msg := inl (Reject (Some (Errcode KindInvalid ErrWebhookPermanentFailure msg))) in
  match selector d (payload e) with
  | Err err => inl (selectorReason err)
  | Ok target =>
      match ValidateTargetURL (policy d) url_Parse target with
      | Err err => inl (Reject (Some err))
      | Ok _ =>
          match DeliveryID_Validate (ent_id e) with
          | Err _ => permanent "webhook dispatcher: outbox entry id is not a valid delivery id"
          | Ok _ =>
              match Sign hmac (signer d) (payload e) now (ent_id e) with
              | Err _ => permanent "webhook dispatcher: signing failed"
              | Ok signed =>
                  match url_Parse target with
                  | Err _ => permanent "webhook dispatcher: build request failed"
                  | Ok u => inr (MkHTTP u (Apply signed (header_Set "Content-Type" "application/json" ∅)) (payload e))
                  end
              end
          end
      end
  end.

(** Until the request is sent: a result, or the request and where to report. *)
Definition Handle_start (d : Dispatcher) (g : circuitGate) (now now' : Time) (n : nat) (e : Entry)
    : (HandleResult + http_request * done_t) * circuitGate :=
  match prepare d now e with
  | inl fail => (inl fail, g)
  | inr req =>
      let key := newCircuitEndpointKey (tenantID e) (u_String (req_URL req)) in
      match gate_Allow url_Parse g now' n key with
      | ((false, _), g) =>
          (inl (Requeue (Some (Errcode KindUnavailable "ERR_CIRCUIT_OPEN" "webhook dispatcher: endpoint circuit open"))), g)
      | ((true, dn), g) => (inr (req, dn), g)
      end
  end.

Definition Handle_finish (g : circuitGate) (dn : done_t) (res : goerror + Z) (now : Time) : HandleResult * circuitGate :=
  match res with
  | inl err =>
      (mapDisposition (Classify 0 (Some err)) (transportReason err), gate_done g dn (circuitProbeOutcome 0 (Some err)) now)
  | inr status =>
      let disp := Classify status None in
      (if bool_decide (disp = DispositionAck) then Ack else mapDisposition disp statusReason,
       gate_done g dn (circuitProbeOutcome status None) now)
  end.

Definition Handle (d : Dispatcher) (g : circuitGate) (now now' now'' : Time) (n : nat)
    (LookupIPAddr : string → outcome (list IP)) (remote : IP → http_request → reply) (e : Entry) : HandleResult * circuitGate :=
  match Handle_start d g now now' n e with
  | (inl r, g) => (r, g)
  | (inr (req, dn), g) => Handle_finish g dn (client_Do (policy d) LookupIPAddr remote req) now''
  end.
End dispatcher.

(** ** What becomes of an entry *)

Section fate.
Context (hmac : bytes → bytes → bytes) (url_Parse : string → outcome URL) (allow : bool) (d : Dispatcher).
Context (LookupIPAddr : string → outcome (list IP)) (remote : IP → http_request → reply) (g : circuitGate) (now now' : Time) (n : nat) (e : Entry).

(** The request is built for [u], and goes to the first of its addresses. *)
Definition request_for (u : URL) (sh : SignedHeaders) : http_request :=
  MkHTTP u (Apply sh (header_Set "Content-Type" "application/json" ∅)) (payload e).

Definition built (req : http_request) : Prop :=
  ∃ target sh, selector d (payload e) = Ok target ∧ ValidateTargetURL (policy d) url_Parse target = Ok tt ∧
    url_Parse target = Ok (req_URL req) ∧ Sign hmac (signer d) (payload e) now (ent_id e) = Ok sh ∧
    req = request_for (req_URL req) sh.

Definition resolves (u : URL) (addrs : list IP) : Prop :=
  ∃ host port, SplitHostPort (canonicalAddr u) = Some (host, port) ∧ targets LookupIPAddr host = Ok addrs.

Definition answered (req : http_request) (code : Z) (location : bool) : Prop :=
  ∃ ip rest, resolves (req_URL req) (ip :: rest) ∧ Forall (admissible allow) (ip :: rest) ∧ remote ip req = Status code location.

Inductive fate : Disposition → Prop :=
  | fate_delivered req code location :
      built req → answered req code location → 200 ≤ code < 300 → fate DispositionAck
  | fate_no_subscription err :
      selector d (payload e) = Err err → error_code err = Some ErrWebhookPermanentFailure → fate DispositionReject
  | fate_bad_target target err :
      selector d (payload e) = Ok target → ValidateTargetURL (policy d) url_Parse target = Err err → fate DispositionReject
  | fate_bad_id err : DeliveryID_Validate (ent_id e) = Err err → fate DispositionReject
  | fate_bad_address req :
      built req → SplitHostPort (canonicalAddr (req_URL req)) = None → fate DispositionReject
  | fate_reserved req addrs :
      built req → resolves (req_URL req) addrs → ¬ Forall (admissible allow) addrs → fate DispositionReject
  | fate_redirected req code : built req → answered req code true → is_redirect code = true → fate DispositionReject
  | fate_selector_down err :
      selector d (payload e) = Err err → error_code err ≠ Some ErrWebhookPermanentFailure → fate DispositionRequeue
  | fate_circuit_open req :
      built req → (gate_Allow url_Parse g now' n (newCircuitEndpointKey (tenantID e) (u_String (req_URL req)))).1.1 = false →
      fate DispositionRequeue
  | fate_unresolved req host port :
      built req → SplitHostPort (canonicalAddr (req_URL req)) = Some (host, port) →
      (∀ ip rest, targets LookupIPAddr host ≠ Ok (ip :: rest)) → fate DispositionRequeue
  | fate_unreachable req ip rest err :
      built req → resolves (req_URL req) (ip :: rest) → Forall (admissible allow) (ip :: rest) →
      remote ip req = Broken err → fate DispositionRequeue
  | fate_refused req code location :
      built req → answered req code location → ¬ (200 ≤ code < 300) → is_redirect code && location = false →
      fate DispositionRequeue.

Lemma prepare_spec :
  match prepare hmac url_Parse d now e with
  | inl r => fate (hr_Disposition r)
  | inr req => built req
  end.
Proof.
  unfold prepare. destruct (selector d (payload e)) as [target|err] eqn:Hs.
  2: { unfold selectorReason. case_bool_decide; cbn; [by eapply fate_no_subscription|by eapply fate_selector_down]. }
  destruct (ValidateTargetURL _ _ _) as [[]|err] eqn:Hv; [|by eapply fate_bad_target].
  destruct (DeliveryID_Validate (ent_id e)) as [[]|err] eqn:Hid; [|by eapply fate_bad_id].
  destruct (Sign _ _ _ _ _) as [sh|err] eqn:Hsg; [|unfold Sign in Hsg; by rewrite Hid in Hsg].
  destruct (url_Parse target) as [u|err] eqn:Hu; [|unfold ValidateTargetURL in Hv; by rewrite Hu in Hv].
  exists target, sh. by cbn.
Qed.

Context (Hp : NewSafePolicy allow = Some (policy d)).
Context (Hres : ∀ host addrs, LookupIPAddr host = Ok addrs → Forall wf_ip addrs).
Context (Hnet : ∀ ip req err, remote ip req = Broken err → error_code err = None).

Lemma client_Do_spec req :
  built req →
  match client_Do (policy d) LookupIPAddr remote req with
  | inl err => fate (Classify 0 (Some err))
  | inr code => fate (Classify code None)
  end.
Proof.
  intros Hb. unfold client_Do. rewrite DialContext_targets.
  destruct (SplitHostPort _) as [[host port]|] eqn:Hs; [|by eapply fate_bad_address].
  assert (Hdown : (∀ ip rest, targets LookupIPAddr host ≠ Ok (ip :: rest)) → fate DispositionRequeue)
    by (by eapply fate_unresolved).
  destruct (targets LookupIPAddr host) as [[|ip rest]|] eqn:Ht; [apply Hdown; congruence| |apply Hdown; congruence].
  assert (Hr : resolves (req_URL req) (ip :: rest)) by (by exists host, port).
  destruct (vet_all_spec allow (policy d) Hp (ip :: rest) (targets_wf _ Hres _ _ Ht)) as [Hok Herr].
  destruct (vet_all (policy d) (ip :: rest)) as [[]|err].
  2: { unfold Classify, ssrf_error. change (error_code (Errorf _ err)) with (error_code err). rewrite bool_decide_true by (by apply Herr).
       eapply fate_reserved; [done..|]. intros H%Hok. done. }
  destruct Hok as [Hok _]. specialize (Hok eq_refl).
  destruct (remote ip req) as [err|code location] eqn:Hrem.
  { unfold Classify, ssrf_error. rewrite bool_decide_false; [by eapply fate_unreachable|].
    change (error_code (Errorf "Post" err)) with (error_code err). by rewrite (Hnet _ _ _ Hrem). }
  assert (Ha : answered req code location) by (by exists ip, rest).
  destruct (is_redirect code && location) eqn:Hred.
  { apply andb_prop in Hred as [? ->]. by eapply fate_redirected. }
  cbn [Classify]. destruct ((code >=? 200) && _) eqn:Hc; [eapply fate_delivered|eapply fate_refused]; try done; bools; lia.
Qed.
End fate.

(** C25: what becomes of an entry.  It is acknowledged only if the signed payload
    was posted to an admissible address of a vetted target and answered with a
    2xx status.  It is rejected for good only if the selector says so, the target
    or the entry's identifier is malformed, one of the target's addresses is
    reserved, or the target redirects.  Everything else, such as a selector that
    is down, an open circuit, a host without addresses, a broken connection or
    any other status, leaves it to be delivered again. *)
Theorem dispatch_disposition hmac url_Parse allow d LookupIPAddr remote g now now' now'' n e :
  NewSafePolicy allow = Some (policy d) →
  (∀ host addrs, LookupIPAddr host = Ok addrs → Forall wf_ip addrs) →
  (∀ ip req err, remote ip req = Broken err → error_code err = None) →
  fate hmac url_Parse allow d LookupIPAddr remote g now now' n e
    (hr_Disposition (Handle hmac url_Parse d g now now' now'' n LookupIPAddr remote e).1).
Proof.
  intros Hp Hres Hnet. unfold Handle, Handle_start.
  pose proof (prepare_spec hmac url_Parse allow d LookupIPAddr remote g now now' n e) as Hprep.
  destruct (prepare hmac url_Parse d now e) as [fail|req]; [exact Hprep|].
  destruct (gate_Allow _ _ _ _ _) as [[[] dn] g'] eqn:Hg.
  2: { eapply fate_circuit_open; [exact Hprep|]. by rewrite Hg. }
  pose proof (client_Do_spec hmac url_Parse allow d LookupIPAddr remote g now now' n e Hp Hres Hnet req Hprep) as Hdo.
  unfold Handle_finish. destruct (client_Do _ _ _ req) as [err|code]; cbn [fst].
  - unfold Classify in *. by destruct (ssrf_error err).
  - unfold Classify in *. destruct (_ && _); done.
Qed.

Module DispatchSample.
Definition url : URL := MkURL false "https" "hook.example" "hook.example" "https://hook.example/in" "hook.example:443".
Definition parse (s : string) : outcome URL :=
  if str_eqb s "https://hook.example/in" then Ok url else Err (ErrorsNew "invalid").
Definition resolve (host : string) : outcome (list IP) := Ok [[93; 184; 216; 34]].
Definition pol : SafePolicy := MkPolicy false nets.
Definition dispatcher : Dispatcher :=
  MkDispatcher SignSample.src pol (λ _, Ok "https://hook.example/in"%string) defaultDeliveryTimeout None.
Definition gate : circuitGate := newCircuitGate DefaultCircuitBreakerSettings.
Definition remote (ip : IP) (req : http_request) : reply := Status 204 false.
Definition at0 : Time := SignSample.at_ 1700000000.
Definition entry (tenant : string) : Entry := OutboxStore.MkEntry "msg_1" "a" "t" "t" "{}" at0 ∅ tenant.
End DispatchSample.

Lemma dispatch_disposition_witness :
  hr_Disposition (Handle SignSample.mac DispatchSample.parse DispatchSample.dispatcher DispatchSample.gate DispatchSample.at0
    DispatchSample.at0 DispatchSample.at0 0%nat DispatchSample.resolve DispatchSample.remote (DispatchSample.entry "")).1 = DispositionAck ∧
  fate SignSample.mac DispatchSample.parse false DispatchSample.dispatcher DispatchSample.resolve DispatchSample.remote
    DispatchSample.gate DispatchSample.at0 DispatchSample.at0 0%nat (DispatchSample.entry "") DispositionAck.
Proof.
  set (r := Handle _ _ _ _ _ _ _ _ _ _ _). assert (Hr : hr_Disposition r.1 = DispositionAck) by (vm_compute; reflexivity).
  split; [exact Hr|]. rewrite <- Hr.
  apply (dispatch_disposition SignSample.mac DispatchSample.parse false DispatchSample.dispatcher DispatchSample.resolve
    DispatchSample.remote DispatchSample.gate DispatchSample.at0 DispatchSample.at0 DispatchSample.at0 0%nat (DispatchSample.entry "")).
  - apply NewSafePolicy_nets.
  - intros host addrs [= <-]. repeat constructor; lia.
  - intros ip req err [=].
Defined.

(** ** Breakers of different tenants *)

(** The gate, and the deliveries that still have to report, each with its key. *)
Record gworld := MkGW { gw_gate : circuitGate; gw_out : list (circuitEndpointKey * done_t) }.

Section isolation.
Context (url_Parse : string → outcome URL).

(** A delivery asks for admission, or an admitted one reports. *)
Inductive gstep : circuitEndpointKey → gworld → gworld → Prop :=
  | gs_allow g os now n key ok dn g' :
      gate_Allow url_Parse g now n key = ((ok, dn), g') →
      gstep key (MkGW g os) (MkGW g' (if ok then (key, dn) :: os else os))
  | gs_done g os1 key dn os2 err now :
      gstep key (MkGW g (os1 ++ (key, dn) :: os2)) (MkGW (gate_done g dn err now) (os1 ++ os2)).

Inductive gsteps : gworld → list circuitEndpointKey → gworld → Prop :=
  | gsteps_nil w : gsteps w [] w
  | gsteps_cons key w w1 keys w2 : gstep key w w1 → gsteps w1 keys w2 → gsteps w (key :: keys) w2.

Definition breaker_at (g : circuitGate) (key : circuitEndpointKey) : option (settings * breaker) :=
  i ← breakers g !! registryKey key; store_of g !! i.

Record ginv (w : gworld) : Prop := {
  gi_size : (size (breakers (gw_gate w)) ≤ circuitGateMaxEndpoints)%nat;
  gi_bound k i : breakers (gw_gate w) !! k = Some i → (i < length (store_of (gw_gate w)))%nat;
  gi_inj k k' i : breakers (gw_gate w) !! k = Some i → breakers (gw_gate w) !! k' = Some i → k = k';
  gi_out key i gen : (key, Some (i, gen)) ∈ gw_out w →
    (i < length (store_of (gw_gate w)))%nat ∧ ∀ k, breakers (gw_gate w) !! k = Some i → k = registryKey key;
}.

Lemma evict_spec n (m : gmap string nat) : m ≠ ∅ → ∃ k, is_Some (m !! k) ∧ evict n m = delete k m.
Proof.
  intros Hm. unfold evict. assert (0 < size m)%nat by (apply map_size_non_empty_iff in Hm; lia).
  destruct (lookup_lt_is_Some_2 (map_to_list m) (n mod size m)) as [[k i] Hk].
  { rewrite length_map_to_list. apply Nat.mod_upper_bound. lia. }
  rewrite Hk. exists k. split; [|done]. apply list_elem_of_lookup_2, elem_of_map_to_list in Hk. by exists i.
Qed.

(** The registry once there is room for one more. *)
Lemma room_spec n (m : gmap string nat) :
  (size m ≤ circuitGateMaxEndpoints)%nat →
  let m' := if (circuitGateMaxEndpoints <=? size m)%nat then evict n m else m in
  (size m' < circuitGateMaxEndpoints)%nat ∧ m' ⊆ m.
Proof.
  intros Hs. cbv zeta. destruct (_ <=? _)%nat eqn:Hl; [apply Nat.leb_le in Hl|apply Nat.leb_gt in Hl; by split].
  destruct (evict_spec n m) as (k&[i Hk]&->); [intros ->; rewrite map_size_empty in Hl; unfold circuitGateMaxEndpoints in Hl; lia|].
  split; [|apply delete_subseteq]. rewrite map_size_delete, Hk. cbn. unfold circuitGateMaxEndpoints in *. lia.
Qed.

Lemma breakerFor_spec g os now n key :
  ginv (MkGW g os) →
  ∃ i g', breakerFor url_Parse g now n key = (Some i, g') ∧ ginv (MkGW g' os) ∧ breakers g' !! registryKey key = Some i ∧
    (∀ key', registryKey key' ≠ registryKey key → breaker_at g' key' = breaker_at g key' ∨ breaker_at g' key' = None) ∧
    (match breaker_at g key with
     | Some b => store_of g' !! i = Some b
     | None => ∃ b, New (breaker_config url_Parse (cg_settings g) key) now = Ok b ∧ store_of g' !! i = Some b
     end).
Proof.
  intros [Hsz Hbd Hinj Hout]. cbn in *. unfold breakerFor, breaker_at.
  destruct (breakers g !! registryKey key) as [i|] eqn:Hk.
  { exists i, g. split; [done|]. split; [done|]. split; [done|]. split; [by left|]. cbn.
    destruct (lookup_lt_is_Some_2 (store_of g) i (Hbd _ _ Hk)) as [b Hb]. by rewrite Hb. }
  destruct (room_spec n (breakers g) Hsz) as [Hroom Hsub].
  set (m := if (_ <=? _)%nat then _ else _) in *.
  assert (Hm : ∀ k i, m !! k = Some i → breakers g !! k = Some i) by (intros k i Hi; exact (lookup_weaken _ _ _ _ Hi Hsub)).
  destruct (New _ now) as [b|err] eqn:Hnew.
  2: { unfold New, breaker_config in Hnew. cbn [Name] in Hnew. unfold str_eqb in Hnew. case_bool_decide as Hname; [|done].
       unfold logName in Hname. by destruct (match url_Parse _ with Ok _ => _ | Err _ => _ end). }
  eexists _, _. split; [done|]. split; [|split; [cbn; apply lookup_insert_eq|split]].
  - split; cbn.
    + rewrite map_size_insert. destruct (m !! registryKey key); cbn; lia.
    + intros k i [[<- <-]|[_ Hi%Hm]]%lookup_insert_Some; rewrite length_app; cbn; [lia|]. apply Hbd in Hi. lia.
    + intros k k' i [[<- <-]|[? Hi%Hm]]%lookup_insert_Some [[<- E]|[? Hi'%Hm]]%lookup_insert_Some; [done|..|by eapply Hinj].
      * apply Hbd in Hi'. lia.
      * apply Hbd in Hi. lia.
    + intros key' i gen Hin. destruct (Hout _ _ _ Hin) as [Hlt Hk']. rewrite length_app. split; [cbn; lia|].
      intros k [[<- <-]|[_ Hi%Hm]]%lookup_insert_Some; [lia|by apply Hk'].
  - intros key' Hne. cbn [breakers store_of]. rewrite lookup_insert_ne by done. destruct (m !! registryKey key') as [j|] eqn:Hj; [|by right]. left.
    apply Hm in Hj. rewrite Hj. cbn. rewrite lookup_app_l; [done|by eapply Hbd].
  - exists b. split; [done|]. cbn. rewrite lookup_app_r, Nat.sub_diag by lia. done.
Qed.

Lemma set_breaker_frame g os i b :
  ginv (MkGW g os) →
  ginv (MkGW (set_breaker g i b) os) ∧
  ∀ key, breakers g !! registryKey key ≠ Some i → breaker_at (set_breaker g i b) key = breaker_at g key.
Proof.
  intros [Hsz Hbd Hinj Hout]. split.
  - split; cbn in *; rewrite ?length_insert; auto.
  - intros key Hne. unfold breaker_at. cbn [breakers store_of set_breaker].
    destruct (breakers g !! registryKey key) as [j|]; [|done]. cbn. rewrite list_lookup_insert_ne; [done|congruence].
Qed.

(** Whether the breaker of the key, or a new one, admits a request. *)
Definition admits (b : option (settings * breaker)) (now : Time) : bool :=
  match b with
  | Some (cf, b) => match (Allow cf b now).1.1 with Permitted => true | _ => false end
  | None => true
  end.

Lemma new_breaker_admits s key now cf b :
  New (breaker_config url_Parse s key) now = Ok (cf, b) → admits (Some (cf, b)) now = true.
Proof.
  unfold New. destruct (_ ==s ""); [done|]. intros [= <- <-]. unfold admits, Allow, currentState, toNewGeneration, commitRequest.
  cbn. by rewrite Z.eqb_refl.
Qed.

Lemma gate_Allow_spec g os now n key ok dn g' :
  ginv (MkGW g os) → gate_Allow url_Parse g now n key = ((ok, dn), g') →
  ginv (MkGW g' (if ok then (key, dn) :: os else os)) ∧ ok = admits (breaker_at g key) now ∧
  (∀ key', registryKey key' ≠ registryKey key → breaker_at g' key' = breaker_at g key' ∨ breaker_at g' key' = None).
Proof.
  intros Hi. unfold gate_Allow. destruct (breakerFor_spec g os now n key Hi) as (i&g1&->&Hi1&Hk&Hframe&Hb).
  destruct (lookup_lt_is_Some_2 (store_of g1) i (gi_bound _ Hi1 _ _ Hk)) as [[cf b] Hcf]. rewrite Hcf.
  assert (Hadm : admits (Some (cf, b)) now = admits (breaker_at g key) now).
  { destruct (breaker_at g key) as [x|]; [congruence|]. destruct Hb as ([cf' b']&Hnew&?).
    rewrite Hcf in *. simplify_eq. by rewrite (new_breaker_admits _ _ _ _ _ Hnew). }
  intros Hal. assert (Hset : ∃ b', g' = set_breaker g1 i (cf, b')).
  { destruct (Allow cf b now) as [[[] ?] ?]; simplify_eq; by eexists. }
  destruct Hset as [b' ->]. destruct (set_breaker_frame g1 os i (cf, b') Hi1) as [Hi2 Hf2].
  assert (Hok : ok = admits (Some (cf, b)) now ∧ ∀ j gen, dn = Some (j, gen) → j = i).
  { cbn [admits]. destruct (Allow cf b now) as [[[] ?] ?]; simplify_eq; naive_solver. }
  destruct Hok as [Hok Hdn]. split; [|split; [congruence|]].
  - destruct ok; [|exact Hi2]. destruct Hi2 as [H1 H2 H3 H4]. split; [done..|]. cbn in *.
    intros key' j gen [[= -> <-]|Hin]%elem_of_cons; [|by eapply H4]. rewrite (Hdn j gen eq_refl). split; [by eapply H2|].
    intros k Hk'. by eapply H3.
  - intros key' Hne. rewrite Hf2; [by apply Hframe|]. intros Hk'. apply Hne. by eapply (gi_inj _ Hi1).
Qed.

Lemma gate_done_spec g os1 key dn os2 err now :
  ginv (MkGW g (os1 ++ (key, dn) :: os2)) →
  ginv (MkGW (gate_done g dn err now) (os1 ++ os2)) ∧
  (∀ key', registryKey key' ≠ registryKey key → breaker_at (gate_done g dn err now) key' = breaker_at g key').
Proof.
  intros [H1 H2 H3 H4]. assert (Hi : ginv (MkGW g (os1 ++ os2))).
  { split; [done..|]. cbn in *. intros key' i gen Hin. apply (H4 key' i gen). set_solver. }
  unfold gate_done. destruct dn as [[i gen]|]; [|by split]. destruct (store_of g !! i) as [[cf b]|]; [|by split].
  destruct (set_breaker_frame g (os1 ++ os2) i (cf, done_cb cf b gen err now) Hi) as [Hi' Hf]. split; [done|].
  intros key' Hne. apply Hf. intros Hk. apply Hne. apply (H4 key i gen) in Hk; [done|]. cbn. set_solver.
Qed.

Lemma gsteps_spec w keys w' :
  gsteps w keys w' → ginv w →
  ginv w' ∧ ∀ key, Forall (λ k, registryKey key ≠ registryKey k) keys →
    breaker_at (gw_gate w') key = breaker_at (gw_gate w) key ∨ breaker_at (gw_gate w') key = None.
Proof.
  induction 1 as [w|key w w1 keys w2 Hs _ IH]; intros Hi; [by split; [|left]|].
  assert (Hstep : ginv w1 ∧ ∀ key', registryKey key' ≠ registryKey key →
    breaker_at (gw_gate w1) key' = breaker_at (gw_gate w) key' ∨ breaker_at (gw_gate w1) key' = None).
  { destruct Hs as [g os now n key ok dn g' Ha|g os1 key dn os2 err now].
    - destruct (gate_Allow_spec _ _ _ _ _ _ _ _ Hi Ha) as (?&_&?). by split.
    - destruct (gate_done_spec _ _ _ _ _ err now Hi) as [? Hf]. split; [done|]. intros. left. by apply Hf. }
  destruct Hstep as [Hi1 Hf1]. destruct (IH Hi1) as [Hi2 Hf2]. split; [done|].
  intros key' [Hne Hks]%Forall_cons. destruct (Hf2 key' Hks) as [->|]; [by apply Hf1|by right].
Qed.

(** With room for the key in the registry nothing is evicted. *)
Lemma gate_Allow_roomy g now n key r g' :
  (size (dom (breakers g) ∪ {[registryKey key]}) ≤ circuitGateMaxEndpoints)%nat →
  gate_Allow url_Parse g now n key = (r, g') →
  dom (breakers g') ⊆ dom (breakers g) ∪ {[registryKey key]} ∧ dom (breakers g) ⊆ dom (breakers g').
Proof.
  intros Hroom. unfold gate_Allow. destruct (breakerFor url_Parse g now n key) as [oi g1] eqn:Hb. intros Ha.
  assert (breakers g' = breakers g1) as -> by (repeat case_match; simplify_eq; done). clear Ha.
  unfold breakerFor in Hb. destruct (breakers g !! registryKey key) as [i|] eqn:Hk; [simplify_eq; set_solver|].
  assert (Hsz : (size (breakers g) < circuitGateMaxEndpoints)%nat).
  { rewrite size_union, size_singleton, size_dom in Hroom by (apply not_elem_of_dom in Hk; set_solver). lia. }
  apply Nat.leb_gt in Hsz. rewrite Hsz in Hb. destruct (New _ now); simplify_eq; cbn; set_solver.
Qed.

Lemma gsteps_roomy w keys w' :
  gsteps w keys w' → ginv w →
  (size (dom (breakers (gw_gate w)) ∪ list_to_set (registryKey <$> keys) : gset string) ≤ circuitGateMaxEndpoints)%nat →
  ∀ key, Forall (λ k, registryKey key ≠ registryKey k) keys → breaker_at (gw_gate w') key = breaker_at (gw_gate w) key.
Proof.
  induction 1 as [w|key w w1 keys w2 Hs _ IH]; intros Hi Hroom; [done|]. cbn in Hroom.
  assert (Hstep : dom (breakers (gw_gate w1)) ⊆ dom (breakers (gw_gate w)) ∪ {[registryKey key]} ∧
    dom (breakers (gw_gate w)) ⊆ dom (breakers (gw_gate w1)) ∧ ginv w1 ∧ ∀ key', registryKey key' ≠ registryKey key →
    breaker_at (gw_gate w1) key' = breaker_at (gw_gate w) key' ∨ breaker_at (gw_gate w1) key' = None).
  { destruct Hs as [g os now n key ok dn g' Ha|g os1 key dn os2 err now]; cbn in *.
    - assert (Hone : (size (dom (breakers g) ∪ {[registryKey key]}) ≤ circuitGateMaxEndpoints)%nat)
        by (etrans; [|exact Hroom]; apply subseteq_size; set_solver).
      destruct (gate_Allow_roomy _ _ _ _ _ _ Hone Ha).
      by destruct (gate_Allow_spec _ _ _ _ _ _ _ _ Hi Ha) as (?&_&?).
    - destruct (gate_done_spec _ _ _ _ _ err now Hi) as [? Hf]. unfold gate_done in *.
      split_and!; [repeat case_match; cbn; set_solver..|done|]. intros. left. by apply Hf. }
  destruct Hstep as (Hup & Hdown & Hi1 & Hf). intros key' [Hne Hks]%Forall_cons.
  rewrite (IH Hi1) by (done || (etrans; [|exact Hroom]; apply subseteq_size; set_solver)).
  destruct (Hf key' Hne) as [?|Hnone]; [done|]. rewrite Hnone. unfold breaker_at in *.
  destruct (breakers (gw_gate w) !! registryKey key') as [i|] eqn:Hk; [|done].
  assert (is_Some (breakers (gw_gate w1) !! registryKey key')) as [j Hj] by (apply elem_of_dom, Hdown, elem_of_dom; eauto).
  rewrite Hj in Hnone. cbn in Hnone. destruct (lookup_lt_is_Some_2 _ _ (gi_bound _ Hi1 _ _ Hj)) as [b Hb]. congruence.
Qed.

Lemma ginv_new s : ginv (MkGW (newCircuitGate s) []).
Proof.
  split; cbn; [rewrite map_size_empty; unfold circuitGateMaxEndpoints; lia|..].
  - intros k i Hk. by rewrite lookup_empty in Hk.
  - intros k k' i Hk. by rewrite lookup_empty in Hk.
  - intros key i gen Hin. by apply elem_of_nil in Hin.
Qed.
End isolation.

(** A tenant identifier in an entry: no NUL, and not the name that stands for its
    absence. *)
Definition tenant_ok (t : string) : Prop := lacks "000" t = true ∧ t ≠ noTenantSentinel.

Lemma tenant_keys t ep t' ep' :
  tenant_ok t → tenant_ok t' → registryKey (newCircuitEndpointKey t ep) = registryKey (newCircuitEndpointKey t' ep') →
  t = t' ∧ ep = ep'.
Proof.
  intros [Hl Hs] [Hl' Hs']. unfold registryKey, newCircuitEndpointKey, str_eqb. cbn [key_tenant key_endpoint]. intros Heq.
  assert (Hn : ∀ t, lacks "000" t = true → lacks "000" (if bool_decide (t = "") then noTenantSentinel else t) = true)
    by (intros u Hu; destruct (bool_decide (u = "")); [reflexivity|exact Hu]).
  destruct (split_first _ _ _ _ _ (Hn t Hl) (Hn t' Hl') Heq) as [He ->]. split; [|done].
  do 2 case_bool_decide; congruence.
Qed.

(** C26: tenants do not share a breaker.  In every interleaving of deliveries that
    ask for admission and report, the registry keeps at most 1024 breakers.  As long
    as the endpoints registered and those delivered to are at most 1024 together,
    deliveries of other tenants, to the same endpoint or to others, leave the breaker
    of a tenant and endpoint as it is.  Beyond that the registry may evict it, and a
    circuit that was open is closed again; but other tenants never change its state
    nor close the circuit to it: a delivery that would have been admitted before
    theirs is admitted after them. *)
Theorem breaker_isolation url_Parse s keys0 w keys w' t ep now n n' :
  gsteps url_Parse (MkGW (newCircuitGate s) []) keys0 w →
  gsteps url_Parse w ((λ '(t', ep'), newCircuitEndpointKey t' ep') <$> keys) w' →
  tenant_ok t → Forall (λ k, tenant_ok k.1 ∧ k.1 ≠ t) keys →
  let key := newCircuitEndpointKey t ep in
  let others := list_to_set ((λ '(t', ep'), registryKey (newCircuitEndpointKey t' ep')) <$> keys) : gset string in
  (size (breakers (gw_gate w')) ≤ 1024)%nat ∧
  ((size (dom (breakers (gw_gate w)) ∪ others) ≤ 1024)%nat → breaker_at (gw_gate w') key = breaker_at (gw_gate w) key) ∧
  (breaker_at (gw_gate w') key = breaker_at (gw_gate w) key ∨ breaker_at (gw_gate w') key = None) ∧
  ((gate_Allow url_Parse (gw_gate w) now n key).1.1 = true → (gate_Allow url_Parse (gw_gate w') now n' key).1.1 = true).
Proof.
  intros H0 Hk Ht Hks key others. destruct (gsteps_spec _ _ _ _ H0 (ginv_new s)) as [Hi _].
  destruct (gsteps_spec _ _ _ _ Hk Hi) as [Hi' Hf].
  assert (Hne : Forall (λ k, registryKey key ≠ registryKey k) ((λ '(t', ep'), newCircuitEndpointKey t' ep') <$> keys)).
  { apply Forall_fmap. eapply Forall_impl; [exact Hks|]. intros [t' ep'] [Hok Hne] Heq.
    apply tenant_keys in Heq as [-> _]; done. }
  specialize (Hf key Hne). split; [apply (gi_size _ Hi')|]. split; [|split; [exact Hf|]].
  - intros Hroom. eapply gsteps_roomy; [exact Hk|exact Hi| |exact Hne].
    assert (registryKey <$> ((λ '(t', ep'), newCircuitEndpointKey t' ep') <$> keys)
      = (λ '(t', ep'), registryKey (newCircuitEndpointKey t' ep')) <$> keys) as -> by
      (rewrite <-list_fmap_compose; by apply list_fmap_ext; intros ? []). exact Hroom.
  - destruct w as [g os], w' as [g' os']. cbn [gw_gate] in *.
    destruct (gate_Allow url_Parse g now n key) as [[ok dn] g1] eqn:H1, (gate_Allow url_Parse g' now n' key) as [[ok' dn'] g1'] eqn:H2.
    destruct (gate_Allow_spec _ _ _ _ _ _ _ _ _ Hi H1) as (_&->&_), (gate_Allow_spec _ _ _ _ _ _ _ _ _ Hi' H2) as (_&->&_).
    cbn. by destruct Hf as [->| ->].
Qed.

(** Tenants t2 and then t1 deliver to the same endpoint. *)
Lemma breaker_isolation_witness :
  ∃ w w', gsteps DispatchSample.parse (MkGW DispatchSample.gate []) [newCircuitEndpointKey "t2" "https://hook.example/in"] w ∧
    gsteps DispatchSample.parse w [newCircuitEndpointKey "t1" "https://hook.example/in"] w' ∧
    is_Some (breaker_at (gw_gate w) (newCircuitEndpointKey "t2" "https://hook.example/in")) ∧
    breaker_at (gw_gate w') (newCircuitEndpointKey "t2" "https://hook.example/in")
      = breaker_at (gw_gate w) (newCircuitEndpointKey "t2" "https://hook.example/in").
Proof.
  set (k1 := newCircuitEndpointKey "t1" "https://hook.example/in"). set (k2 := newCircuitEndpointKey "t2" "https://hook.example/in").
  set (a2 := gate_Allow DispatchSample.parse DispatchSample.gate 100 0 k2). set (w := MkGW a2.2 [(k2, a2.1.2)]).
  set (a1 := gate_Allow DispatchSample.parse a2.2 101 0 k1). set (w' := MkGW a1.2 [(k1, a1.1.2); (k2, a2.1.2)]).
  assert (Ha2 : gate_Allow DispatchSample.parse DispatchSample.gate 100 0 k2 = ((true, a2.1.2), a2.2)) by (vm_compute; reflexivity).
  assert (Ha1 : gate_Allow DispatchSample.parse a2.2 101 0 k1 = ((true, a1.1.2), a1.2)) by (vm_compute; reflexivity).
  assert (Hrun2 : gsteps DispatchSample.parse (MkGW DispatchSample.gate []) [k2] w).
  { eapply gsteps_cons; [exact (gs_allow _ _ [] _ _ _ _ _ _ Ha2)|apply gsteps_nil]. }
  assert (Hrun1 : gsteps DispatchSample.parse w [k1] w').
  { eapply gsteps_cons; [exact (gs_allow _ _ _ _ _ _ _ _ _ Ha1)|apply gsteps_nil]. }
  exists w, w'. split; [exact Hrun2|]. split; [exact Hrun1|]. split; [vm_compute; by eexists|].
  apply (breaker_isolation DispatchSample.parse DefaultCircuitBreakerSettings [k2] w
    [("t1", "https://hook.example/in")]%string w' "t2" "https://hook.example/in" 200 0 0).
  - exact Hrun2.
  - exact Hrun1.
  - split; [reflexivity|discriminate].
  - apply Forall_singleton. split; [split; [reflexivity|discriminate]|discriminate].
  - apply Nat.leb_le. vm_compute. reflexivity.
Defined.
