(* ===== verification/WebhookDelivery.v ===== *)
(** * Webhook deliveries from dispatcher to receiver

    The request the dispatcher of one assembly builds for an outbox entry, as the
    receiver of another sees it, and what repeated attempts to deliver the entry
    add up to.  A request at the receiver is three steps: [arrive] takes it up to
    the claim, [handle] runs its handler and [finish] settles the claim and answers;
    those of several requests interleave. *)

From Stdlib Require Import Ascii String.
From S2P Require Import Prelude GoJson JsonText IdUtil Idempotency ConsumerBase OutboxStore HttpWriter WebhookSign WebhookEgress WebhookReceiver WebhookDispatch.

Record DispatchSpec := MkDispatchSpec { ds_ContractID : string; ds_SourceID : string; ds_CellID : string }.

(** [buildConsumer] up to the dispatcher it wires in. *)
Definition buildDispatcher (spec : DispatchSpec) (sel : option WebhookDispatchSelector) (store : gmap string Source)
    (p : SafePolicy) (cb : CircuitBreakerSettings) : outcome (Dispatcher * circuitGate) :=
  match validateSpecFields (ds_ContractID spec) (ds_SourceID spec) (ds_CellID spec), sel with
  | Err e, _ => Err e
  | Ok _, None => Err (config_invalid "webhook dispatch: target selector must not be nil")
  | Ok _, Some sel =>
      match SourceID_Validate (ds_SourceID spec) with
      | Err e => Err e
      | Ok _ =>
          match Lookup store (ds_SourceID spec) with
          | None => Err (config_invalid "webhook dispatch: signing source not registered")
          | Some src =>
              match NewHMACSigner src with
              | Err e => Err e
              | Ok src => NewDispatcher (Some src) (Some p) (Some sel) [WithCircuitBreakerSettings cb]
              end
          end
      end
  end.

(** The request at the receiver. *)
Definition arriving (req : http_request) : request :=
  MkRequest (byte_len (req_body req)) (req_body req) None (req_header req).

(** One attempt: when it was signed, verified and claimed, the random bytes of its
    claim, and whether the request reached the receiver. *)
Record attempt := MkAttempt {
  at_sent : Time; at_received : Time; at_claimed : Time; at_entropy : list Z; at_reached : bool;
}.

(** A request that holds a claim: its handler is to run or has ended. *)
Inductive stage : Type :=
  | Running (d : Delivery)
  | Ran (o : option (option goerror)).

Record run := MkRun { rn_receipt : option nat; rn_claimed : Time; rn_stage : stage }.

(** The receiver: the claimer, the application with the number of times its handler
    succeeded, and the requests in flight. *)
Record receiving (M : Type) := MkReceiving {
  rs_claimer : InMemClaimer; rs_app : M; rs_succeeded : nat; rs_runs : gmap nat run;
}.
Arguments MkReceiving {M} _ _ _ _.
Arguments rs_claimer {M} _.
Arguments rs_app {M} _.
Arguments rs_succeeded {M} _.
Arguments rs_runs {M} _.

(** [op] is about another delivery. *)
Definition elsewhere (key : string) (c : InMemClaimer) (op : claimer_op) : Prop :=
  match op with
  | OpClaim _ _ k _ _ => k ≠ key
  | OpCommit i _ | OpRelease i | OpExtend i _ _ => ∀ r, receipts c !! i = Some r → rcp_key r ≠ key
  end.

Section delivery.
Context (hmac : bytes → bytes → bytes) (url_Parse : string → outcome URL) (d : Dispatcher) (e : Entry).
Context (spec : ReceiverSpec) (tolerance : Duration) (store : gmap string Source).
Context {M : Type} (handler : WebhookReceiveHandler M).

(** Request [q]: the attempt to deliver the entry, up to its claim. *)
Definition arrive (q : nat) (a : attempt) (s : receiving M) : option response * receiving M :=
  match prepare hmac url_Parse d (at_sent a) e with
  | inl _ => (None, s)
  | inr req =>
      if at_reached a then
        match receive hmac spec tolerance store (rs_claimer s) (at_received a) (at_claimed a) (at_entropy a) (arriving req) with
        | (inl r, c) => (Some r, MkReceiving c (rs_app s) (rs_succeeded s) (rs_runs s))
        | (inr (dl, rcpt), c) =>
            (None, MkReceiving c (rs_app s) (rs_succeeded s) (<[q := MkRun rcpt (at_claimed a) (Running dl)]> (rs_runs s)))
        end
      else (None, s)
  end.

Definition handle (q : nat) (s : receiving M) : receiving M :=
  match rs_runs s !! q with
  | Some (MkRun rcpt t (Running dl)) =>
      let '(o, m) := handler dl (rs_app s) in
      MkReceiving (rs_claimer s) m (match o with Some None => S (rs_succeeded s) | _ => rs_succeeded s end)
        (<[q := MkRun rcpt t (Ran o)]> (rs_runs s))
  | _ => s
  end.

Definition finish (q : nat) (now : Time) (s : receiving M) : option response * receiving M :=
  match rs_runs s !! q with
  | Some (MkRun rcpt _ (Ran o)) =>
      let '(r, c) := settle (rs_claimer s) now rcpt o in
      (Some r, MkReceiving c (rs_app s) (rs_succeeded s) (delete q (rs_runs s)))
  | _ => (None, s)
  end.

Definition delivery_key : string := ("webhook:" ++ SourceID spec ++ ":" ++ ent_id e)%string.

(** The two ends agree on the headers and the secret, and the payload fits. *)
Record paired : Prop := {
  pr_headers : DeliveryIDHeader spec = HeaderID ∧ TimestampHeader spec = HeaderTimestamp ∧ SignatureHeader spec = HeaderSignature;
  pr_source : Lookup store (SourceID spec) = Some (signer d);
  pr_secret : secret (signer d) ≠ "";
  pr_tolerance : 0 < tolerance < MaxInt64;
  pr_size : byte_len (payload e) ≤ MaxBodyBytes spec;
}.

(** An attempt within the tolerance, claimed less than 24 hours after [T]. *)
Definition in_window (T : Time) (a : attempt) : Prop :=
  0 ≤ at_sent a ≤ 2 ^ 62 * Second ∧ 0 ≤ at_received a ≤ 2 ^ 62 * Second ∧
  within (at_received a) tolerance (Unix (at_sent a)) ∧ at_claimed a < T + receiverDoneTTL.

(** When the attempt claims, no request in flight has overstayed its lease. *)
Definition punctual (a : attempt) (s : receiving M) : Prop :=
  ∀ q rn, rs_runs s !! q = Some rn → at_claimed a < rn_claimed rn + receiverLeaseTTL.

(** Attempts, each with its three steps, in any interleaving and with other
    deliveries between them; none is settled before [T]. *)
Inductive history (T : Time) (s : receiving M) : receiving M → Prop :=
  | history_start : history T s s
  | history_arrive q a r s1 s2 :
      history T s s1 → rs_runs s1 !! q = None → in_window T a → punctual a s1 → arrive q a s1 = (r, s2) → history T s s2
  | history_handle q s1 : history T s s1 → history T s (handle q s1)
  | history_finish q t r s1 s2 : history T s s1 → T ≤ t → finish q t s1 = (r, s2) → history T s s2
  | history_other op c m n rs :
      history T s (MkReceiving c m n rs) → elsewhere delivery_key c op →
      history T s (MkReceiving (claimer_exec c op) m n rs).

Lemma Unix_range t : 0 ≤ t ≤ 2 ^ 62 * Second → int64_range (Unix t).
Proof.
  intros Ht. unfold int64_range, Unix, unix_epoch, Second, Millisecond, MinInt64, MaxInt64 in *.
  split; [apply Z.div_le_lower_bound|apply Z.div_le_upper_bound]; lia.
Qed.

(** Both ends built from one store of sources are paired. *)
Lemma built_paired dspec sel p cb g :
  buildDispatcher dspec sel store p cb = Ok (d, g) → buildVerifier spec = Ok tolerance → SourceID spec = ds_SourceID dspec →
  DeliveryIDHeader spec = HeaderID → TimestampHeader spec = HeaderTimestamp → SignatureHeader spec = HeaderSignature →
  byte_len (payload e) ≤ MaxBodyBytes spec → tolerance < MaxInt64 → paired.
Proof.
  intros Hd Hv Hsid H1 H2 H3 Hsz Hmax. unfold buildDispatcher in Hd. destruct (validateSpecFields _ _ _), sel as [sel|]; try done.
  destruct (SourceID_Validate _); [|done]. destruct (Lookup _ _) as [src|] eqn:Hl; [|done].
  unfold NewHMACSigner, str_eqb in Hd. case_bool_decide as Hne; [done|].
  unfold NewDispatcher in Hd. cbn [foldl apply_option cbSettings] in Hd. destruct (CB_Validate cb); [|done]. injection Hd as Hd _.
  assert (Hsg : signer d = src) by by rewrite <- Hd.
  unfold buildVerifier, NewHMACVerifier in Hv. cbn [last default] in Hv. destruct (_ <=? 0) eqn:Ht; [done|].
  destruct (Spec_Validate spec); [|done]. injection Hv as Hv. unfold id in *. split; rewrite ?Hsg; [done|by rewrite Hsid|done|lia|done].
Qed.

Lemma header_names (sh : SignedHeaders) (h : header) :
  valid sh = true →
  header_Get (Apply sh h) HeaderID = sg_deliveryID sh ∧ header_Get (Apply sh h) HeaderTimestamp = sg_timestamp sh ∧
  header_Get (Apply sh h) HeaderSignature = sg_signature sh.
Proof.
  intros Hv. unfold Apply. rewrite Hv. cbn [negb]. unfold header_Get, header_Set, values.
  assert (CanonicalMIMEHeaderKey HeaderID = "Webhook-Id"%string) as -> by (vm_compute; reflexivity).
  assert (CanonicalMIMEHeaderKey HeaderTimestamp = "Webhook-Timestamp"%string) as -> by (vm_compute; reflexivity).
  assert (CanonicalMIMEHeaderKey HeaderSignature = "Webhook-Signature"%string) as -> by (vm_compute; reflexivity).
  split_and!; repeat (rewrite lookup_insert_eq || rewrite lookup_insert_ne by done); done.
Qed.

(** What is prepared is accepted by the receiver, under the identifier of the
    entry. *)
Lemma prepared_presents T a req :
  paired → in_window T a → prepare hmac url_Parse d (at_sent a) e = inr req →
  ∃ dl, presents hmac spec tolerance store (at_received a) (arriving req) dl ∧ claim_key spec dl = delivery_key ∧
    d_DeliveryID dl = ent_id e ∧ d_Payload dl = payload e.
Proof.
  intros [(H1&H2&H3) Hsrc Hsec Htol Hsz] (Hs&Hr&Hw&_) Hp. unfold prepare in Hp.
  destruct (selector d (payload e)) as [target|]; [|done]. destruct (ValidateTargetURL _ _ _); [|done].
  destruct (DeliveryID_Validate (ent_id e)) as [[]|] eqn:Hid; [|done].
  destruct (Sign _ _ _ _ _) as [sh|] eqn:Hsg; [|done]. destruct (url_Parse target) as [u|]; [|done].
  injection Hp as <-. destruct (Sign_Ok _ _ _ _ _ _ Hsg) as (_&Hsid&Hsts&Hv&_).
  destruct (header_names sh (header_Set "Content-Type" "application/json" ∅) Hv) as (G1&G2&G3).
  pose proof (sign_then_verify hmac (signer d) (payload e) (at_sent a) (ent_id e) sh (at_received a) tolerance Hsg Hsec
    (Unix_range _ Hs) Hr Htol Hw) as Hver.
  exists (MkDelivery (ent_id e) (SourceID spec) (MkHeaders (sg_deliveryID sh) (sg_timestamp sh) (sg_signature sh)) (payload e)).
  split; [|done]. exists (payload e). split.
  { unfold readBody. cbn. destruct (_ >? _) eqn:Hb; [lia|done]. }
  unfold verify. cbn [arriving rq_header req_header]. rewrite H1, H2, H3, G1, G2, G3, Hsrc, Hver, Hsid, Hid.
  assert (Hne : ent_id e ≠ "" ∧ sg_timestamp sh ≠ "" ∧ sg_signature sh ≠ "").
  { split_and!.
    - intros He. by rewrite He in Hid.
    - rewrite Hsts. intros He. pose proof (ParseInt_pretty _ (Unix_range _ Hs)) as Hpi. by rewrite He in Hpi.
    - unfold Sign in Hsg. rewrite Hid in Hsg. by injection Hsg as <-. }
  destruct Hne as (N1&N2&N3). unfold str_eqb. rewrite !bool_decide_false by done. done.
Qed.

(** Nothing is remembered and nobody is at work; or one request holds the lease; or
    the handler has succeeded once and that is remembered for the window. *)
Inductive once_inv (T : Time) (s : receiving M) : Prop :=
  | once_free : rs_runs s = ∅ → rs_succeeded s = 0%nat → entries (rs_claimer s) !! delivery_key = None → once_inv T s
  | once_held q i t st tok :
      rs_runs s = {[q := MkRun (Some i) t st]} →
      receipts (rs_claimer s) !! i = Some (MkReceipt delivery_key tok receiverDoneTTL None) →
      entries (rs_claimer s) !! delivery_key = Some (Idempotency.MkEntry ClaimAcquired tok (t + receiverLeaseTTL)) →
      match st with
      | Running dl => d_DeliveryID dl = ent_id e ∧ d_Payload dl = payload e ∧ rs_succeeded s = 0%nat
      | Ran o => rs_succeeded s = (if bool_decide (o = Some None) then 1 else 0)%nat
      end → once_inv T s
  | once_done ent :
      rs_runs s = ∅ → rs_succeeded s = 1%nat → entries (rs_claimer s) !! delivery_key = Some ent →
      ent_state ent = ClaimDone → T + receiverDoneTTL ≤ expiresAt ent → once_inv T s.

Definition already_processing : response :=
  Failed (Errcode KindConflict "ERR_WEBHOOK_DUPLICATE_DELIVERY" "webhook receiver: delivery is already being processed").

(** Undisturbed, the three steps are [ServeHTTP]. *)
Lemma steps_ServeHTTP q a t s req :
  prepare hmac url_Parse d (at_sent a) e = inr req → at_reached a = true → rs_runs s !! q = None →
  let '(r, c, m) := ServeHTTP hmac spec tolerance store handler (rs_claimer s) (rs_app s) (at_received a)
                      (at_claimed a) t (at_entropy a) (arriving req) in
  let '(r1, s1) := arrive q a s in
  let '(r2, s2) := finish q t (handle q s1) in
  match r1 with Some _ => r1 | None => r2 end = Some r ∧ rs_claimer s2 = c ∧ rs_app s2 = m ∧ rs_runs s2 = rs_runs s.
Proof.
  intros Hp Hr Hq. unfold ServeHTTP, arrive. rewrite Hp, Hr.
  destruct (receive _ _ _ _ _ _ _ _ _) as [[r|[dl rcpt]] c].
  - unfold handle, finish. cbn [rs_runs]. rewrite !Hq. cbn [rs_runs]. by rewrite Hq.
  - unfold handle, dispatch. cbn [rs_runs rs_app]. rewrite lookup_insert_eq.
    destruct (handler dl (rs_app s)) as [o m]. unfold finish. cbn [rs_runs rs_claimer]. rewrite lookup_insert_eq.
    destruct (settle c t rcpt o) as [r c2]. cbn. by rewrite insert_insert_eq, delete_insert_id.
Qed.

(** What an attempt that arrives does, and what becomes of the invariant. *)
Lemma arrive_spec T q a r s s' :
  paired → in_window T a → punctual a s → once_inv T s → arrive q a s = (r, s') →
  once_inv T s' ∧
  (at_reached a = true → (∃ req, prepare hmac url_Parse d (at_sent a) e = inr req) →
   (rs_runs s ≠ ∅ → r = Some already_processing ∧ s' = s) ∧
   (rs_runs s = ∅ → rs_succeeded s = 1%nat → r = Some Accepted ∧ s' = s) ∧
   (rs_runs s = ∅ → rs_succeeded s = 0%nat → length (at_entropy a) = 8%nat →
      r = None ∧ ∃ rcpt dl, rs_runs s' = {[q := MkRun rcpt (at_claimed a) (Running dl)]} ∧
        d_DeliveryID dl = ent_id e ∧ d_Payload dl = payload e)).
Proof.
  intros Hpair Hwin Hpunct Hinv. unfold arrive. destruct (prepare _ _ _ _ _) as [|req] eqn:Hprep.
  { intros [= <- <-]. split; [done|]. by intros _ [? [=]]. }
  destruct (at_reached a); [|intros [= <- <-]; by split].
  destruct (prepared_presents T a req Hpair Hwin Hprep) as (dl&Hpres&Hkey&Hid&Hpl).
  destruct Hwin as (_&_&_&Hcl). rewrite (receive_presents _ _ _ _ _ _ _ _ _ _ Hpres), Hkey.
  assert (Hsame : MkReceiving (rs_claimer s) (rs_app s) (rs_succeeded s) (rs_runs s) = s) by (by destruct s).
  destruct Hinv as [Hruns Hn Hent|q0 i t st tok Hruns Hrc Hent Hst|ent Hruns Hn Hent Hdone Hex].
  - unfold Claim. rewrite Hent. destruct (newToken (at_entropy a)) as [tok|err] eqn:Htok.
    2: { rewrite Hsame. intros [= <- <-]. split; [by apply once_free|]. intros _ _. split_and!; [done|by rewrite Hn|].
         intros _ _ Hlen. unfold newToken in Htok. by rewrite bool_decide_true in Htok. }
    rewrite Hruns, insert_empty. intros [= <- <-]. split.
    + eapply (once_held _ _ q (length (receipts (rs_claimer s))) (at_claimed a) (Running dl) tok); cbn; [done| | |done].
      * by apply list_lookup_middle.
      * by rewrite lookup_insert_eq.
    + intros _ _. split_and!; [done|by rewrite Hn|]. intros _ _ _. split; [done|]. by eexists _, dl.
  - assert (Hlt : at_claimed a < t + receiverLeaseTTL).
    { apply (Hpunct q0 (MkRun (Some i) t st)). by rewrite Hruns, lookup_singleton_eq. }
    unfold Claim. rewrite Hent. cbn [expiresAt ent_state]. unfold Before. replace (_ <? _) with true by lia.
    rewrite bool_decide_false by done. rewrite Hsame. intros [= <- <-]. split; [by eapply once_held|].
    intros _ _. split; [done|]. rewrite Hruns. split; intros Habs; by apply map_non_empty_singleton in Habs.
  - unfold Claim. rewrite Hent. unfold Before. replace (_ <? _) with true by lia.
    rewrite Hdone, bool_decide_true, Hsame by done. intros [= <- <-]. split; [by eapply once_done|].
    intros _ _. split_and!; [done|done|]. intros _ Hz. congruence.
Qed.

(** A handler that runs in the protection of the lease. *)
Lemma handle_spec T q s : once_inv T s → once_inv T (handle q s).
Proof.
  intros [Hruns Hn Hent|q0 i t st tok Hruns Hrc Hent Hst|ent Hruns Hn Hent Hdone Hex]; unfold handle; rewrite Hruns.
  - by apply once_free.
  - destruct (decide (q = q0)) as [->|]; [|rewrite lookup_singleton_ne by done; by eapply once_held].
    rewrite lookup_singleton_eq. destruct st as [dl|o]; [|by eapply once_held].
    destruct (handler dl (rs_app s)) as [o m] eqn:Hh. destruct Hst as (_&_&Hn).
    eapply (once_held _ _ q0 i t (Ran o) tok); cbn; [by rewrite insert_singleton_eq|done|done|].
    rewrite Hn. by destruct o as [[|]|].
  - by eapply once_done.
Qed.

(** The answer of a request whose handler ended, and the claim it leaves. *)
Lemma finish_spec T q t r s s' :
  once_inv T s → T ≤ t → finish q t s = (r, s') →
  once_inv T s' ∧ (is_Some r → rs_runs s' = ∅ ∧ (r = Some Accepted ↔ rs_succeeded s' = 1%nat)).
Proof.
  intros [Hruns Hn Hent|q0 i tc st tok Hruns Hrc Hent Hst|ent Hruns Hn Hent Hdone Hex] Ht; unfold finish; rewrite Hruns.
  1: rewrite lookup_empty; intros [= <- <-]; split; [by apply once_free|by intros [? [=]]].
  2: rewrite lookup_empty; intros [= <- <-]; split; [by eapply once_done|by intros [? [=]]].
  destruct (decide (q = q0)) as [->|].
  2: { rewrite lookup_singleton_ne by done. intros [= <- <-]. split; [by eapply once_held|by intros [? [=]]]. }
  rewrite lookup_singleton_eq. destruct st as [dl|o]; [intros [= <- <-]; split; [by eapply once_held|by intros [? [=]]]|].
  assert (Hown : owned (rs_claimer s) (MkReceipt delivery_key tok receiverDoneTTL None)
    = Some (Idempotency.MkEntry ClaimAcquired tok (tc + receiverLeaseTTL))) by (by apply owned_Some).
  pose proof (Release_frees _ _ _ _ Hrc eq_refl Hown) as Hrel.
  assert (Hcom : entries (Commit (rs_claimer s) i t).2 !! delivery_key
    = Some (Idempotency.MkEntry ClaimDone tok (t + receiverDoneTTL))).
  { unfold Commit, use_once. rewrite Hrc. cbn [rcp_err]. rewrite Hown. cbn. by rewrite lookup_insert_eq. }
  unfold settle. cbn [on_receipt cl_Release cl_Commit InMemClaimer_Claimer].
  destruct o as [[err|]|]; intros [= <- <-]; cbn [rs_runs rs_succeeded] in *; rewrite delete_singleton_eq.
  - split; [by apply once_free|]. rewrite Hst. done.
  - split; [|by rewrite Hst]. eapply once_done; [done|done|exact Hcom|done|]. cbn. by apply Z.add_le_mono_r.
  - split; [by apply once_free|]. rewrite Hst. done.
Qed.

Lemma elsewhere_frame c op : elsewhere delivery_key c op → entries (claimer_exec c op) !! delivery_key = entries c !! delivery_key.
Proof.
  intros Ho. destruct (op_cases op) as [[i Hby]|(now&en&key&l&dt&->)].
  - destruct (receipts c !! i) as [rc|] eqn:Hr; [|by rewrite (receipt_op_missing _ _ i)].
    destruct (receipt_op_frame c op i rc Hby Hr) as (Hk&_). apply Hk.
    assert (rcp_key rc ≠ delivery_key); [|done]. destruct op; cbn in Hby; [done|subst i..]; by apply Ho.
  - destruct (claim_frame c now en key l dt) as (Hk&_). apply Hk. cbn in Ho. congruence.
Qed.

Lemma elsewhere_receipt c op i tok dt res :
  elsewhere delivery_key c op → receipts c !! i = Some (MkReceipt delivery_key tok dt res) →
  receipts (claimer_exec c op) !! i = Some (MkReceipt delivery_key tok dt res).
Proof.
  intros Ho Hi. destruct (op_cases op) as [[j Hby]|(now&en&key&l&d'&->)].
  - destruct (receipts c !! j) as [rc|] eqn:Hr; [|by rewrite (receipt_op_missing _ _ j)].
    destruct (receipt_op_frame c op j rc Hby Hr) as (_&_&Hk&_).
    rewrite Hk; [done|]. intros ->. simplify_eq. destruct op; cbn in Hby; [done|subst..]; by destruct (Ho _ Hi).
  - destruct (claim_frame c now en key l d') as (_&_&[[Heq _]|(tok'&_&Heq&_)]); cbn; rewrite Heq; [done|].
    by apply lookup_app_l_Some.
Qed.

Lemma history_inv T s s' : paired → history T s s' → once_inv T s → once_inv T s'.
Proof.
  intros Hp Hh Hi. induction Hh as [|q a r s1 s2 _ IH _ Hw Hpu Ha|q s1 _ IH|q t r s1 s2 _ IH Ht Hf|op c m n rs _ IH Ho].
  - done.
  - by eapply arrive_spec.
  - by apply handle_spec.
  - by eapply finish_spec.
  - pose proof (elsewhere_frame c op Ho) as Hf.
    destruct IH as [Hruns Hn Hent|q i t st tok Hruns Hrc Hent Hst|ent Hruns Hn Hent Hdone Hex]; cbn in *.
    + apply once_free; cbn; congruence.
    + eapply once_held; cbn; [done|by apply elsewhere_receipt|by rewrite Hf|done].
    + eapply once_done; cbn; [done|done|by rewrite Hf|done|done].
Qed.
End delivery.

(** C14: a webhook is handled once however often it is sent.  Let an entry be
    dispatched again and again to a receiver that knows the source, each attempt
    signed anew, some requests lost, their claims, handlers and answers
    interleaved in any way and with other deliveries between them; all claims fall
    within 24 hours, and no attempt claims while a handler has been at work
    for longer than its lease of 30 seconds.  Then the handler succeeds at most once.
    An attempt that arrives while another is in flight is refused with a conflict
    and changes nothing; once the handler has succeeded it is accepted, runs nothing
    and changes nothing; otherwise it starts the handler, on the entry's identifier
    and payload.  A request whose handler has ended is accepted exactly if it
    succeeded. *)
Theorem redelivery_handled_once hmac url_Parse d e spec tolerance store {M} (handler : WebhookReceiveHandler M) T c0 m0 s :
  paired d e spec tolerance store →
  entries c0 !! delivery_key e spec = None →
  history hmac url_Parse d e spec tolerance store handler T (MkReceiving c0 m0 0 ∅) s →
  (rs_succeeded s ≤ 1)%nat ∧
  (∀ q a r s', in_window tolerance T a → punctual a s → length (at_entropy a) = 8%nat → at_reached a = true →
    (∃ req, prepare hmac url_Parse d (at_sent a) e = inr req) →
    arrive hmac url_Parse d e spec tolerance store q a s = (r, s') →
    (rs_runs s ≠ ∅ → r = Some already_processing ∧ s' = s) ∧
    (rs_runs s = ∅ → rs_succeeded s = 1%nat → r = Some Accepted ∧ s' = s) ∧
    (rs_runs s = ∅ → rs_succeeded s = 0%nat →
       r = None ∧ ∃ rcpt dl, rs_runs s' = {[q := MkRun rcpt (at_claimed a) (Running dl)]} ∧
         d_DeliveryID dl = ent_id e ∧ d_Payload dl = payload e)) ∧
  (∀ q t r s', T ≤ t → finish q t s = (Some r, s') → rs_runs s' = ∅ ∧ (r = Accepted ↔ rs_succeeded s' = 1%nat)).
Proof.
  intros Hp H0 Hh. apply history_inv in Hh as Hi; [|done|by apply once_free]. split_and!.
  - destruct Hi as [_ -> _|q i t [dl|o] tok _ _ _ Hst|ent _ -> _ _ _]; [lia| | |lia].
    + destruct Hst as (_&_&->). lia.
    + rewrite Hst. case_bool_decide; lia.
  - intros q a r s' Hw Hpu He Hre Hprep Ha.
    destruct (arrive_spec _ _ _ _ _ _ _ T q a r s s' Hp Hw Hpu Hi Ha) as (_&Hspec).
    destruct (Hspec Hre Hprep) as (H1&H2&H3). split_and!; [done|done|]. intros Hr Hn. by apply H3.
  - intros q t r s' Ht Hf. edestruct finish_spec as (_&Hspec); [exact Hi|exact Ht|exact Hf|].
    destruct Hspec as [H1 H2]; [by eexists|]. split; [done|]. rewrite <- H2. split; [by intros ->|by intros [= ->]].
Qed.

(** The default schedule of the dispatcher outlives the memory of the receiver:
    the last of the eight attempts is made 27 hours and 35 minutes after the
    first. *)
Lemma schedule_outlives_memory :
  foldr Z.add 0 (take 6 DefaultSvixSchedule) < receiverDoneTTL < foldr Z.add 0 DefaultSvixSchedule.
Proof. vm_compute. by split. Qed.

Module DeliverySample.
(** Three attempts at one entry: the second arrives while the first is at work, the
    third an hour later. *)
Definition at_time (t : Time) (n : Z) : attempt :=
  MkAttempt DispatchSample.at0 ReceiverSample.now t (replicate 8 n) true.
Definition first : attempt := at_time ReceiverSample.now 7.
Definition second : attempt := at_time (ReceiverSample.now + 29 * Second) 8.
Definition third : attempt := at_time (ReceiverSample.now + Hour) 9.

Abbreviation arrives := (arrive SignSample.mac DispatchSample.parse DispatchSample.dispatcher (DispatchSample.entry "")
  ReceiverSample.spec defaultTolerance ReceiverSample.store).
Definition start : receiving nat := MkReceiving NewInMemClaimer 0%nat 0%nat ∅.
Definition claimed : receiving nat := (arrives 0%nat first start).2.
Definition handled : receiving nat := handle ReceiverSample.counting 0%nat claimed.
Definition settled : receiving nat := (finish 0%nat (ReceiverSample.now + 30 * Second) handled).2.

Lemma runs_handled : rs_runs handled = {[0%nat := MkRun (Some 0%nat) ReceiverSample.now (Ran (Some None))]}.
Proof. vm_compute. reflexivity. Qed.

Lemma windows a : a ∈ [first; second; third] → in_window defaultTolerance ReceiverSample.now a.
Proof.
  intros Ha. unfold in_window, within, Unix, receiverDoneTTL, defaultTolerance.
  rewrite !elem_of_cons in Ha. destruct Ha as [->|[->|[->|[]%not_elem_of_nil]]]; vm_compute; repeat split; discriminate.
Qed.

Lemma ends_paired : paired DispatchSample.dispatcher (DispatchSample.entry "") ReceiverSample.spec defaultTolerance ReceiverSample.store.
Proof. split; [vm_compute; by repeat split|vm_compute; reflexivity|discriminate|vm_compute; by split|vm_compute; discriminate]. Qed.

Lemma history_handled :
  history SignSample.mac DispatchSample.parse DispatchSample.dispatcher (DispatchSample.entry "") ReceiverSample.spec
    defaultTolerance ReceiverSample.store ReceiverSample.counting ReceiverSample.now start handled.
Proof.
  apply history_handle. eapply (history_arrive _ _ _ _ _ _ _ _ _ _ 0 first); [apply history_start|done| | |apply surjective_pairing].
  - apply windows. left.
  - intros q rn Hq. cbn in Hq. by rewrite lookup_empty in Hq.
Qed.
End DeliverySample.

(** The second attempt finds the first in flight; the third is accepted. *)
Lemma redelivery_handled_once_witness :
  arrive SignSample.mac DispatchSample.parse DispatchSample.dispatcher (DispatchSample.entry "") ReceiverSample.spec
    defaultTolerance ReceiverSample.store 1%nat DeliverySample.second DeliverySample.handled
  = (Some already_processing, DeliverySample.handled) ∧
  arrive SignSample.mac DispatchSample.parse DispatchSample.dispatcher (DispatchSample.entry "") ReceiverSample.spec
    defaultTolerance ReceiverSample.store 2%nat DeliverySample.third DeliverySample.settled
  = (Some Accepted, DeliverySample.settled) ∧
  rs_succeeded DeliverySample.settled = 1%nat.
Proof.
  assert (Hprep : ∃ req, prepare SignSample.mac DispatchSample.parse DispatchSample.dispatcher DispatchSample.at0
    (DispatchSample.entry "") = inr req) by (eexists; vm_compute; reflexivity).
  assert (Hs : rs_succeeded DeliverySample.settled = 1%nat) by (by vm_compute).
  split_and!; [| |exact Hs].
  - destruct (redelivery_handled_once SignSample.mac DispatchSample.parse DispatchSample.dispatcher (DispatchSample.entry "")
      ReceiverSample.spec defaultTolerance ReceiverSample.store ReceiverSample.counting ReceiverSample.now NewInMemClaimer 0%nat
      DeliverySample.handled DeliverySample.ends_paired eq_refl DeliverySample.history_handled) as (_&Harr&_).
    destruct (arrive _ _ _ _ _ _ _ 1%nat DeliverySample.second DeliverySample.handled) as [r s'] eqn:Ha.
    destruct (Harr 1%nat DeliverySample.second r s') as [H1 _];
      [apply DeliverySample.windows; right; left|intros q rn Hq|reflexivity|reflexivity|exact Hprep|exact Ha|].
    + rewrite DeliverySample.runs_handled in Hq. apply lookup_singleton_Some in Hq as [_ <-]. vm_compute. reflexivity.
    + destruct H1 as [-> ->]; [by vm_compute|reflexivity].
  - destruct (redelivery_handled_once SignSample.mac DispatchSample.parse DispatchSample.dispatcher (DispatchSample.entry "")
      ReceiverSample.spec defaultTolerance ReceiverSample.store ReceiverSample.counting ReceiverSample.now NewInMemClaimer 0%nat
      DeliverySample.settled DeliverySample.ends_paired eq_refl) as (_&Harr&_).
    { eapply (history_finish _ _ _ _ _ _ _ _ _ _ 0%nat (ReceiverSample.now + 30 * Second));
        [exact DeliverySample.history_handled|vm_compute; discriminate|apply surjective_pairing]. }
    destruct (arrive _ _ _ _ _ _ _ 2%nat DeliverySample.third DeliverySample.settled) as [r s'] eqn:Ha.
    destruct (Harr 2%nat DeliverySample.third r s') as (_&H2&_);
      [apply DeliverySample.windows; right; right; left|intros q rn Hq|reflexivity|reflexivity|exact Hprep|exact Ha|].
    + vm_compute in Hq. discriminate.
    + destruct H2 as [-> ->]; [by vm_compute|exact Hs|reflexivity].
Defined.

(** A handler that takes longer than the lease is not protected: an attempt 30
    seconds after the first runs the handler too, and both requests are accepted. *)
Theorem late_handler_runs_twice :
  let s1 := (DeliverySample.arrives 0%nat DeliverySample.first DeliverySample.start).2 in
  let s2 := (DeliverySample.arrives 1%nat (DeliverySample.at_time (ReceiverSample.now + 30 * Second) 8) s1).2 in
  let s3 := handle ReceiverSample.counting 1%nat (handle ReceiverSample.counting 0%nat s2) in
  let '(r0, s4) := finish 0%nat (ReceiverSample.now + 31 * Second) s3 in
  let '(r1, s5) := finish 1%nat (ReceiverSample.now + 32 * Second) s4 in
  r0 = Some Accepted ∧ r1 = Some Accepted ∧ rs_app s5 = 2%nat.
Proof. vm_compute. done. Qed.
