(* ===== verification/Reconcile.v ===== *)
(** * kernel/reconcile: errors, backoff and configuration

    result.go, recovery.go and backoff.go: which errors end an entity's retries, and
    how long a transient one delays the next attempt.  The backoff tracker is a
    least-recently-used list of entries shared with an index by entity, as
    container/list and the map keep them; the delay is computed in float64. *)

From S2P Require Import Prelude.

(** ** Errors a reconciler returns *)

(** An error and what it unwraps to: a [*permanentError] with its cause, one whose
    cause is nil because reflection forged it, an error with [Unwrap() error] (and
    one whose [Unwrap] returns nil), one with [Unwrap() []error] (whose nil entries
    both walks below pass over), and one that wraps nothing. *)
Inductive rerror : Type :=
| permanentError (err : rerror)
| forgedPermanent
| Wrapping (cause : rerror)
| WrappingNil
| Joining (causes : list rerror)
| Leaf (e : goerror).

Definition ErrFencedWriteStale : goerror :=
  Errcode KindConflict "ERR_FENCED_WRITE_STALE" "reconcile: fenced write rejected (stale epoch)".

Definition PermanentError (err : option rerror) : option rerror :=
  match err with None => None | Some e => Some (permanentError e) end.

Fixpoint permanent_in (e : rerror) : bool :=
  match e with
  | permanentError _ => true
  | forgedPermanent => false
  | Wrapping c => permanent_in c
  | WrappingNil => false
  | Joining cs => existsb permanent_in cs
  | Leaf _ => false
  end.

Definition IsPermanent (err : option rerror) : bool := from_option permanent_in false err.

(** [errors.Is] with a sentinel that wraps nothing. *)
Fixpoint errors_Is_leaf (target : goerror) (e : rerror) : bool :=
  match e with
  | permanentError c | Wrapping c => errors_Is_leaf target c
  | forgedPermanent | WrappingNil => false
  | Joining cs => existsb (errors_Is_leaf target) cs
  | Leaf e => bool_decide (e = target)
  end.

Inductive resultLabel : Type := resultSuccess | resultTransient | resultPermanent | resultSkipped.

Definition classify (err : option rerror) : resultLabel :=
  match err with
  | None => resultSuccess
  | Some e =>
      if errors_Is_leaf ErrFencedWriteStale e then resultPermanent
      else if IsPermanent err then resultPermanent
      else resultTransient
  end.

Record Result : Type := { RequeueAfter : Duration }.

Definition normalizedRequeueAfter (r : Result) : Duration :=
  if RequeueAfter r <? 0 then 0 else RequeueAfter r.

(** What a call of Reconcile does: it returns, or it panics with a value (shown as text). *)
Inductive reconciled : Type :=
| Returns (res : Result) (err : option rerror)
| Panics (value : string).

Definition recoverReconcile (entityID : string) (r : reconciled) : Result * option rerror :=
  match r with
  | Returns res err => (res, err)
  | Panics v =>
      (Build_Result 0,
       Some (Leaf (ErrorsNew ("reconcile: recovered panic in Reconcile(entity=" ++ entityID ++ "): " ++ v))))
  end.

(** ** The per-entity backoff *)

Definition defaultBackoffBase : Duration := 5 * Millisecond.
Definition defaultBackoffMax : Duration := 1000 * Second.
Definition maxBackoffEntries : nat := 4096.

Record backoffEntry : Type := Entry { entityID : string; failures : Z }.

(** The list elements, front first, the memory they live in, and the index. *)
Record entityBackoff : Type := Backoff {
  entries : list backoffEntry;
  ll : list nat;
  items : gmap string nat;
  base : Duration;
  max : Duration;
  maxEntries : nat
}.

Definition newEntityBackoff (b m : Duration) : entityBackoff :=
  let b := if b <=? 0 then defaultBackoffBase else b in
  let m := if m <=? 0 then defaultBackoffMax else m in
  let b := if m <? b then m else b in
  Backoff [] [] ∅ b m maxBackoffEntries.

(** [float64(x)] for a non-negative integer: to 53 bits, ties to even. *)
Definition float64_of (x : Z) : Z :=
  if x <? 2 ^ 53 then x
  else
    let s := Z.log2 x - 52 in
    let q := x / 2 ^ s in
    let r := x mod 2 ^ s in
    let half := 2 ^ (s - 1) in
    let q := if (half <? r) || ((r =? half) && Z.odd q) then q + 1 else q in
    q * 2 ^ s.

Section conversion.
(** [time.Duration(f)] for a float outside the int64 range, which the language
    leaves to the implementation. *)
Context (out_of_range : Z → Z).

Definition Duration_of_float (f : Z) : Duration := if MaxInt64 <? f then out_of_range f else f.

(** [base * 2^n]: multiplying by a power of two is exact, and a product too large
    for a float64 is +Inf, which the first comparison rejects as it does the exact
    product.  [math.MaxInt64] as a float64 is [2^63]. *)
Definition backoff_delay (base max : Duration) (n : Z) : Duration :=
  let ns := float64_of base * 2 ^ n in
  if (float64_of MaxInt64 <? ns) || (max <? Duration_of_float ns) then max else Duration_of_float ns.

Definition remove_elem (el : nat) (l : list nat) : list nat := filter (λ x, x ≠ el) l.

Definition evictOldest (b : entityBackoff) : entityBackoff :=
  match last (ll b) with
  | None => b
  | Some el =>
      Backoff (entries b) (remove_elem el (ll b))
              (from_option (λ ent, delete (entityID ent) (items b)) (items b) (entries b !! el))
              (base b) (max b) (maxEntries b)
  end.

Definition bump (ent : backoffEntry) : backoffEntry := Entry (entityID ent) (wrap64 (failures ent + 1)).

Definition When (b : entityBackoff) (id : string) : entityBackoff * Duration :=
  let '(b', n) :=
    match el ← items b !! id; (λ ent, (el, ent)) <$> entries b !! el with
    | Some (el, ent) =>
        (Backoff (alter bump el (entries b)) (el :: remove_elem el (ll b)) (items b) (base b) (max b) (maxEntries b),
         failures ent)
    | None =>
        let el := length (entries b) in
        let b' := Backoff (entries b ++ [Entry id 1]) (el :: ll b) (<[id := el]> (items b))
                          (base b) (max b) (maxEntries b) in
        (if (maxEntries b' <? length (ll b'))%nat then evictOldest b' else b', 0)
    end in
  (b', backoff_delay (base b) (max b) n).

Definition Forget (b : entityBackoff) (id : string) : entityBackoff :=
  match items b !! id with
  | Some el => Backoff (entries b) (remove_elem el (ll b)) (delete id (items b)) (base b) (max b) (maxEntries b)
  | None => b
  end.
End conversion.

(** ** Configuration *)

Definition maxReconcilerIDLen : Z := 48.

Definition id_char_ok (first : bool) (c : Ascii.ascii) : bool :=
  let r := Z.of_nat (Ascii.nat_of_ascii c) in
  (r =? 95) || ((97 <=? r) && (r <=? 122)) || (negb first && (48 <=? r) && (r <=? 57)).

Fixpoint id_chars_ok (first : bool) (s : string) : bool :=
  match s with
  | EmptyString => true
  | String c s => id_char_ok first c && id_chars_ok false s
  end.

(** A byte above 127 starts a rune that is none of the accepted ones, so looking at
    bytes accepts what looking at runes does. *)
Definition validateReconcilerID (id : string) : outcome unit :=
  if str_eqb id "" then Ok tt
  else if maxReconcilerIDLen <? byte_len id then
    Err (ErrorsNew ("reconcile: ReconcilerID exceeds 48 bytes"))
  else if id_chars_ok true id then Ok tt
  else Err (ErrorsNew "reconcile: ReconcilerID has illegal character (allowed: leading [a-z_], then [a-z0-9_])").

(** An interface value: nil, a nil pointer of some type, or a value. *)
Inductive iface : Type := NilInterface | TypedNil | Present.

Definition IsNilInterface (v : iface) : bool := match v with Present => false | _ => true end.

Inductive tenancyMode : Type := tenancyUnset | tenancySingle | tenancyScoped.

Definition IsUnset (t : tenancyMode) : bool := match t with tenancyUnset => true | _ => false end.

(** The fields of Builder, which Build copies to those of Loop, but for the metrics.
    [ready] is what the reconciler's Validate returns, when it has one. *)
Record config : Type := Config {
  c_reconciler : iface;
  c_ready : option goerror;
  c_tenancy : tenancyMode;
  c_trigger : iface;
  c_leader : iface;
  c_fencedRepo : iface;
  c_name : string;
  c_reconcilerID : string;
  c_interval : Duration;
  c_maxConcurrentReconciles : Z;
  c_baseDelay : Duration;
  c_maxDelay : Duration;
  c_renewInterval : Duration;
  c_noDefaultRequeue : bool
}.

Definition Build (b : config) : outcome config :=
  if IsNilInterface (c_reconciler b) then
    Err (ErrorsNew "reconcile: Builder requires a non-nil Reconciler; pass it to reconcile.New(reconciler, tenancy)")
  else if IsUnset (c_tenancy b) then
    Err (ErrorsNew "reconcile: Builder requires a declared Tenancy stance")
  else if IsNilInterface (c_trigger b) then
    Err (ErrorsNew "reconcile: Builder requires a Trigger (a Loop with no trigger never receives work); use WithTrigger")
  else if negb (IsNilInterface (c_fencedRepo b)) && IsNilInterface (c_leader b) then
    Err (ErrorsNew "reconcile: WithFencedRepo requires WithLeader (fencing needs a leadership epoch source)")
  else Ok b.

Definition applyDefaults (l : config) : config :=
  Config (c_reconciler l) (c_ready l) (c_tenancy l) (c_trigger l) (c_leader l) (c_fencedRepo l)
    (if str_eqb (c_name l) "" then "reconcile.loop" else c_name l)
    (if str_eqb (c_reconcilerID l) "" then "_runtime" else c_reconcilerID l)
    (if c_interval l <=? 0 then 30 * Second else c_interval l)
    (if c_maxConcurrentReconciles l <=? 0 then 1 else c_maxConcurrentReconciles l)
    (c_baseDelay l) (c_maxDelay l) (c_renewInterval l) (c_noDefaultRequeue l).

(** [preflight] is the registration of the metrics under the reconciler's id. *)
Definition preStartValidate (preflight : string → outcome unit) (l : config) : outcome config :=
  if IsNilInterface (c_reconciler l) then Err (ErrorsNew "reconcile: Loop requires non-nil Reconciler")
  else
    match c_ready l with
    | Some e => Err (Errorf "reconcile: reconciler not ready" e)
    | None =>
        _ ← validateReconcilerID (c_reconcilerID l);
        if (0 <? c_baseDelay l) && (0 <? c_maxDelay l) && (c_maxDelay l <? c_baseDelay l) then
          Err (ErrorsNew "reconcile: BaseDelay must not exceed MaxDelay")
        else
          match c_leader l, c_fencedRepo l with
          | TypedNil, _ =>
              Err (ErrorsNew "reconcile: Loop.Leader is a typed-nil LeaderElector; leave it nil for single-process mode")
          | _, TypedNil =>
              Err (ErrorsNew "reconcile: Loop.FencedRepo is a typed-nil FencedRepository; leave it nil when no fenced write surface is wired")
          | _, _ =>
              let l := applyDefaults l in
              _ ← preflight (c_reconcilerID l);
              Ok l
          end
    end.

(** ** What the backoff promises *)

Inductive backoff_op : Type := Fails (id : string) | Recovers (id : string).

Section history.
Context (out_of_range : Z → Z).

Fixpoint backoff_run (b : entityBackoff) (ops : list backoff_op) : list Duration * entityBackoff :=
  match ops with
  | [] => ([], b)
  | Fails id :: ops =>
      let '(b, d) := When out_of_range b id in let '(ds, b) := backoff_run b ops in (d :: ds, b)
  | Recovers id :: ops => backoff_run (Forget b id) ops
  end.
End history.

(** The failures of each entity remembered, most recently failed first. *)
Notation lru := (list (string * Z)).

Fixpoint lru_count (v : lru) (id : string) : option Z :=
  match v with
  | [] => None
  | (e, n) :: v => if decide (e = id) then Some n else lru_count v id
  end.

Definition lru_drop (id : string) (v : lru) : lru := filter (λ x, x.1 ≠ id) v.

Definition lru_fail (v : lru) (id : string) : lru :=
  match lru_count v id with
  | Some n => (id, n + 1) :: lru_drop id v
  | None => take maxBackoffEntries ((id, 1) :: v)
  end.

(** The delay after [n] failures in a row. *)
Definition doubling (base max : Duration) (n : Z) : Duration := Z.min max (base * 2 ^ n).

Fixpoint promised_delays (base max : Duration) (v : lru) (ops : list backoff_op) : list Duration :=
  match ops with
  | [] => []
  | Fails id :: ops => doubling base max (default 0 (lru_count v id)) :: promised_delays base max (lru_fail v id) ops
  | Recovers id :: ops => promised_delays base max (lru_drop id v) ops
  end.

(** ** The errors that end the retries *)

(** What the walks reach from an error. *)
Inductive reaches : rerror → rerror → Prop :=
| reaches_refl e : reaches e e
| reaches_cause e c : reaches c e → reaches (Wrapping c) e
| reaches_permanent e c : reaches c e → reaches (permanentError c) e
| reaches_joined e c cs : c ∈ cs → reaches c e → reaches (Joining cs) e.

Section rerror_ind.
Context (P : rerror → Prop).
Context (Hp : ∀ c, P c → P (permanentError c)) (Hf : P forgedPermanent) (Hw : ∀ c, P c → P (Wrapping c))
  (Hn : P WrappingNil) (Hj : ∀ cs, Forall P cs → P (Joining cs)) (Hl : ∀ e, P (Leaf e)).

Fixpoint rerror_tree_ind (e : rerror) : P e :=
  match e with
  | permanentError c => Hp c (rerror_tree_ind c)
  | forgedPermanent => Hf
  | Wrapping c => Hw c (rerror_tree_ind c)
  | WrappingNil => Hn
  | Joining cs => Hj cs ((fix all l : Forall P l :=
      match l with [] => List.Forall_nil P | c :: l => List.Forall_cons P c l (rerror_tree_ind c) (all l) end) cs)
  | Leaf e => Hl e
  end.
End rerror_ind.

Lemma permanent_in_spec e : permanent_in e = true ↔ ∃ c, reaches e (permanentError c).
Proof.
  induction e as [c IH| |c IH| |cs IH|x] using rerror_tree_ind; cbn.
  - split; [|done]. intros _. exists c. constructor.
  - split; [done|]. intros [c H]. inversion H.
  - rewrite IH. split; [intros [x Hx]; exists x; by constructor|]. intros [x Hx]. inversion Hx; subst; eauto.
  - split; [done|]. intros [c H]. inversion H.
  - rewrite existsb_exists. split.
    + intros (c & Hc & Hp). rewrite Forall_forall in IH. apply list_elem_of_In in Hc.
      apply (IH c Hc) in Hp as [x Hx]. exists x. by eapply reaches_joined.
    + intros [x Hx]. inversion Hx; subst. rewrite Forall_forall in IH. exists c. split; [by apply list_elem_of_In|].
      apply IH; eauto.
  - split; [done|]. intros [c H]. inversion H.
Qed.

Lemma errors_Is_leaf_spec target e : errors_Is_leaf target e = true ↔ reaches e (Leaf target).
Proof.
  induction e as [c IH| |c IH| |cs IH|x] using rerror_tree_ind; cbn.
  - rewrite IH. split; [by constructor|]. by inversion 1.
  - split; [done|]. by inversion 1.
  - rewrite IH. split; [by constructor|]. by inversion 1.
  - split; [done|]. by inversion 1.
  - rewrite existsb_exists. rewrite Forall_forall in IH. split.
    + intros (c & Hc%list_elem_of_In & Hp). eapply reaches_joined; [done|]. by apply IH.
    + inversion 1; subst. exists c. split; [by apply list_elem_of_In|]. by apply IH.
  - rewrite bool_decide_eq_true. split; [intros ->; constructor|]. by inversion 1.
Qed.

(** Retries end for an error that a [PermanentError] or the stale-epoch sentinel is
    part of, and for no other; forging the marker's type does not end them. *)
Lemma classify_permanent e :
  classify (Some e) = resultPermanent ↔
  reaches e (Leaf ErrFencedWriteStale) ∨ ∃ c, reaches e (permanentError c).
Proof.
  rewrite <-errors_Is_leaf_spec, <-permanent_in_spec. unfold classify. cbn.
  destruct (errors_Is_leaf _ e), (permanent_in e); naive_solver.
Qed.

Lemma panic_is_transient id v : classify (recoverReconcile id (Panics v)).2 = resultTransient.
Proof. done. Qed.

(** ** The tracker is the list it stands for *)

Arguments remove_elem : simpl never.
Arguments lru_drop : simpl never.

Definition view_at (m : list backoffEntry) (el : nat) : option (string * Z) :=
  (λ ent, (entityID ent, failures ent)) <$> m !! el.
Definition view (b : entityBackoff) : lru := omap (view_at (entries b)) (ll b).

Record tracked (b : entityBackoff) : Prop := {
  tracked_nodup : NoDup (ll b);
  tracked_index : ∀ id el, items b !! id = Some el ↔ el ∈ ll b ∧ entityID <$> entries b !! el = Some id;
  tracked_live : ∀ el, el ∈ ll b → is_Some (entries b !! el);
  tracked_bound : (length (ll b) ≤ maxEntries b)%nat
}.

(** The element of entity [id]. *)
Lemma tracked_other b id el x :
  tracked b → items b !! id = Some el → x ∈ ll b → x ≠ el ↔ entityID <$> entries b !! x ≠ Some id.
Proof.
  intros Hb Hid Hx. split; [|intros Hne ->; apply Hne; by apply (tracked_index b Hb) in Hid as []].
  intros Hne He. assert (items b !! id = Some x) by (by apply (tracked_index b Hb)). congruence.
Qed.

Lemma view_remove m m' l el id :
  (∀ x, x ∈ l → is_Some (m !! x)) → (∀ x, x ∈ l → x ≠ el ↔ entityID <$> m !! x ≠ Some id) →
  (∀ x, x ≠ el → m' !! x = m !! x) →
  omap (view_at m') (remove_elem el l) = lru_drop id (omap (view_at m) l).
Proof.
  intros Hl He Hm. induction l as [|x l IH]; [done|]. unfold remove_elem, lru_drop in *.
  rewrite filter_cons. destruct (Hl x) as [ent Hent]; [by left|].
  assert (IH' : omap (view_at m') (filter (λ y, y ≠ el) l) = filter (λ y, y.1 ≠ id) (omap (view_at m) l))
    by (apply IH; set_solver).
  assert (x ≠ el ↔ entityID <$> m !! x ≠ Some id) as Hx by (apply He; by left). rewrite Hent in Hx. cbn in Hx.
  assert (Hv : view_at m x = Some (entityID ent, failures ent)) by (unfold view_at; by rewrite Hent).
  cbn [omap list_omap]. rewrite Hv. cbn match. fold (omap (M := list) (view_at m) l).
  rewrite filter_cons. cbn [fst]. destruct (decide (x ≠ el)) as [Hne|Heq], (decide (entityID ent ≠ id)) as [Hi|Hi].
  - cbn [omap list_omap]. assert (view_at m' x = view_at m x) as -> by (unfold view_at; by rewrite Hm).
    rewrite Hv. cbn match. by rewrite <-IH'.
  - exfalso. apply Hi. intros Hid. apply (proj1 Hx Hne). congruence.
  - exfalso. apply Heq, Hx. congruence.
  - done.
Qed.

Lemma lru_count_view b id :
  tracked b → lru_count (view b) id = el ← items b !! id; failures <$> entries b !! el.
Proof.
  intros Hb. destruct (items b !! id) as [el|] eqn:Hid; cbn.
  - pose proof Hid as [Hin Hel]%(tracked_index b Hb). destruct (entries b !! el) as [ent|] eqn:Hent; [|done].
    unfold view. pose proof (λ x, tracked_other b id el x Hb Hid) as Hoth. pose proof (tracked_live b Hb) as Hlive.
    induction (ll b) as [|x l IH]; [set_solver|]. cbn [omap list_omap].
    destruct (Hlive x) as [ex Hx]; [by left|]. unfold view_at at 1. rewrite Hx. cbn.
    destruct (decide (x = el)) as [->|Hne].
    + simplify_eq. rewrite decide_True; [done|]. cbn in Hel. by simplify_eq.
    + rewrite decide_False; [apply IH; set_solver|]. intros He. apply (Hoth x) in Hne; [|by left]. rewrite Hx in Hne. cbn in Hne. congruence.
  - assert (Hno : ∀ x, x ∈ ll b → entityID <$> entries b !! x ≠ Some id).
    { intros x Hx He. assert (items b !! id = Some x) by (by apply (tracked_index b Hb)). congruence. }
    unfold view. induction (ll b) as [|x l IH]; [done|]. cbn [omap list_omap].
    assert (IH' := IH ltac:(set_solver)). specialize (Hno x ltac:(by left)).
    destruct (view_at (entries b) x) as [[e n]|] eqn:Hv; [|done]. cbn. rewrite decide_False; [done|].
    unfold view_at in Hv. destruct (entries b !! x); [|done]. cbn in *. intros ->. by simplify_eq.
Qed.

Lemma view_length b : tracked b → length (view b) = length (ll b).
Proof.
  intros Hb. unfold view. pose proof (tracked_live b Hb) as Hlive.
  induction (ll b) as [|x l IH]; [done|]. cbn [omap list_omap]. destruct (Hlive x) as [ex Hx]; [by left|].
  unfold view_at at 1. rewrite Hx. cbn. f_equal. apply IH. set_solver.
Qed.

(** An element leaves the list and the index. *)
Lemma remove_tracked b id el m :
  tracked b → items b !! id = Some el →
  let b' := Backoff (entries b) (remove_elem el (ll b)) (delete id (items b)) (base b) (max b) m in
  (length (remove_elem el (ll b)) ≤ m)%nat →
  tracked b' ∧ view b' = lru_drop id (view b).
Proof.
  intros Hb Hid b' Hm. split; [split; cbn|].
  - apply NoDup_filter, (tracked_nodup b Hb).
  - intros i x. rewrite lookup_delete_Some, (tracked_index b Hb). unfold remove_elem. rewrite list_elem_of_filter. split.
    + intros (Hne & Hx & He). split_and!; [|done..]. apply (tracked_other b id el x Hb Hid Hx). congruence.
    + intros ((Hne & Hx) & He). split_and!; [|done..]. intros <-. by apply (tracked_other b id el x Hb Hid Hx) in Hne.
  - intros x [_ Hx]%list_elem_of_filter. by apply (tracked_live b Hb).
  - done.
  - apply view_remove; [apply (tracked_live b Hb)| |done]. intros x. by apply tracked_other.
Qed.

Lemma Forget_ok b id : tracked b → tracked (Forget b id) ∧ view (Forget b id) = lru_drop id (view b).
Proof.
  intros Hb. unfold Forget. destruct (items b !! id) as [el|] eqn:Hid.
  - apply remove_tracked; [done..|]. etrans; [apply length_filter|apply (tracked_bound b Hb)].
  - split; [done|]. symmetry. apply filter_all. pose proof (lru_count_view b id Hb) as Hc. rewrite Hid in Hc. cbn in Hc.
    induction (view b) as [|[e n] v IH]; [done|]. cbn in Hc. case_decide; [done|]. constructor; [done|by apply IH].
Qed.

Lemma When_known b id el ent :
  tracked b → items b !! id = Some el → entries b !! el = Some ent →
  let b' := Backoff (alter bump el (entries b)) (el :: remove_elem el (ll b)) (items b) (base b) (max b) (maxEntries b) in
  tracked b' ∧ view b' = (id, wrap64 (failures ent + 1)) :: lru_drop id (view b).
Proof.
  intros Hb Hid Hent b'. pose proof Hid as [Hin Hel]%(tracked_index b Hb). rewrite Hent in Hel. cbn in Hel. injection Hel as Hel.
  assert (Hperm : el :: remove_elem el (ll b) ≡ₚ ll b).
  { unfold remove_elem. pose proof (tracked_nodup b Hb) as Hnd. apply NoDup_Permutation; [|done|].
    - apply NoDup_cons. split; [rewrite list_elem_of_filter; tauto|by apply NoDup_filter].
    - intros x. rewrite elem_of_cons, list_elem_of_filter. destruct (decide (x = el)) as [->|]; tauto. }
  assert (Hnm : ∀ x, entityID <$> alter bump el (entries b) !! x = entityID <$> entries b !! x).
  { intros x. destruct (decide (x = el)) as [->|]; [|by rewrite list_lookup_alter_ne by done].
    rewrite list_lookup_alter_eq. by destruct (entries b !! el). }
  split; [split; cbn [ll entries items maxEntries b']|].
  - by rewrite Hperm; apply (tracked_nodup b Hb).
  - intros i x. by rewrite Hperm, Hnm, (tracked_index b Hb).
  - intros x. rewrite Hperm. intros Hx%(tracked_live b Hb). apply (fmap_is_Some entityID). rewrite Hnm. by apply fmap_is_Some.
  - rewrite Hperm. apply (tracked_bound b Hb).
  - unfold view. cbn [entries ll b']. cbn [omap list_omap]. unfold view_at at 1. rewrite list_lookup_alter_eq, Hent. cbn. rewrite Hel.
    f_equal. apply view_remove; [apply (tracked_live b Hb)| |].
    + intros x. by apply tracked_other.
    + intros x Hne. by rewrite list_lookup_alter_ne.
Qed.

Lemma PushFront_tracked b id :
  tracked b → items b !! id = None →
  let el := length (entries b) in
  let b' := Backoff (entries b ++ [Entry id 1]) (el :: ll b) (<[id := el]> (items b)) (base b) (max b) (S (maxEntries b)) in
  tracked b' ∧ view b' = (id, 1) :: view b.
Proof.
  intros Hb Hid el b'. assert (Hlt : ∀ x, x ∈ ll b → (x < el)%nat).
  { intros x [ent Hx]%(tracked_live b Hb). by eapply lookup_lt_Some. }
  assert (Hnew : (entries b ++ [Entry id 1]) !! el = Some (Entry id 1)) by (by apply list_lookup_middle).
  assert (Hold : ∀ x, x ∈ ll b → (entries b ++ [Entry id 1]) !! x = entries b !! x)
    by (intros x Hx; apply lookup_app_l; by apply Hlt).
  split; [split; cbn|].
  - apply NoDup_cons. split; [intros Hin; apply Hlt in Hin; lia|apply (tracked_nodup b Hb)].
  - intros i x. rewrite lookup_insert_Some, elem_of_cons, (tracked_index b Hb). split.
    + intros [[<- <-]|(Hne & Hx & He)]; [by rewrite Hnew; auto|]. rewrite Hold by done. auto.
    + intros [[->|Hx] He].
      * rewrite Hnew in He. cbn in He. left. by simplify_eq.
      * rewrite Hold in He by done. right. split_and!; [|done..]. intros <-.
        assert (items b !! id = Some x) by (by apply (tracked_index b Hb)). congruence.
  - intros x [->|Hx]%elem_of_cons; [by rewrite Hnew|]. rewrite Hold by done. by apply (tracked_live b Hb).
  - pose proof (tracked_bound b Hb). lia.
  - unfold view. cbn [entries ll b']. cbn [omap list_omap]. unfold view_at at 1. fold el. rewrite Hnew. cbn. f_equal.
    clear -Hold. induction (ll b) as [|x l IH]; [done|]. cbn [omap list_omap].
    assert (view_at (entries b ++ [Entry id 1]) x = view_at (entries b) x) as ->
      by (unfold view_at; rewrite Hold; [done|by left]).
    assert (IH' := IH ltac:(set_solver)). by destruct (view_at (entries b) x); [f_equal|].
Qed.

(** The tracker as it is before the check of its size, with one entry too many. *)
Lemma evictOldest_ok b :
  tracked (Backoff (entries b) (ll b) (items b) (base b) (max b) (S (maxEntries b))) →
  length (ll b) = S (maxEntries b) →
  tracked (evictOldest b) ∧ view (evictOldest b) = take (maxEntries b) (view b).
Proof.
  intros Hb Hlen. set (b1 := Backoff (entries b) _ _ _ _ _) in Hb.
  destruct (ll b) as [|x0 l0] eqn:Hll using rev_ind; [done|]. clear IHl0. rename x0 into el.
  rewrite length_app in Hlen. cbn in Hlen.
  assert (Hrm : remove_elem el (l0 ++ [el]) = l0).
  { pose proof (tracked_nodup b1 Hb) as Hnd. cbn in Hnd. rewrite NoDup_snoc in Hnd. destruct Hnd as [_ Hnin].
    unfold remove_elem. rewrite filter_snoc, decide_False by tauto. rewrite app_nil_r. apply filter_all, Forall_forall. intros x Hx ->. done. }
  destruct (tracked_live b1 Hb el) as [ent Hent]; [cbn; set_solver|]. cbn in Hent.
  assert (Hid : items b1 !! entityID ent = Some el).
  { apply (tracked_index b1 Hb). cbn. rewrite Hent. split; [set_solver|done]. }
  destruct (remove_tracked b1 (entityID ent) el (maxEntries b) Hb Hid) as [Ht _]; [cbn; rewrite Hrm; lia|].
  unfold evictOldest. rewrite Hll, last_snoc, Hent. cbn in *. split; [done|].
  unfold view. cbn. rewrite Hrm, Hll, omap_app. pose proof (view_length _ Ht) as Hvl. unfold view in Hvl. cbn in Hvl. rewrite Hrm in Hvl.
  rewrite take_app_length'; [done|]. rewrite Hvl. lia.
Qed.

Lemma lru_count_drop v id i : lru_count (lru_drop id v) i = if decide (i = id) then None else lru_count v i.
Proof.
  unfold lru_drop. induction v as [|[e n] v IH]; [by case_decide|]. rewrite filter_cons. cbn [fst lru_count].
  destruct (decide (e ≠ id)) as [Hne|Heq]; cbn [lru_count].
  - rewrite IH. repeat case_decide; congruence.
  - rewrite IH. repeat case_decide; try congruence. exfalso. apply Heq. congruence.
Qed.

Lemma lru_count_take v m i n : lru_count (take m v) i = Some n → lru_count v i = Some n.
Proof.
  revert m. induction v as [|[e k] v IH]; intros [|m]; cbn; [done..|]. case_decide; [done|]. apply IH.
Qed.

(** No entity has failed more than [k] times. *)
Definition few (k : Z) (v : lru) : Prop := ∀ i n, lru_count v i = Some n → 1 ≤ n ≤ k.

Lemma few_drop k v id : few k v → few k (lru_drop id v).
Proof. intros Hf i n. rewrite lru_count_drop. case_decide; [done|apply Hf]. Qed.

Lemma few_fail k v id : 0 ≤ k → few k v → few (k + 1) (lru_fail v id).
Proof.
  intros Hk Hf i n. unfold lru_fail. destruct (lru_count v id) as [c|] eqn:Hc.
  - apply Hf in Hc. cbn. case_decide; [intros [= <-]; lia|]. intros Hn. apply (few_drop k v id Hf) in Hn. lia.
  - intros Hn%lru_count_take. cbn in Hn. case_decide; [simplify_eq; lia|]. apply Hf in Hn. lia.
Qed.

Section when.
Context (out_of_range : Z → Z) (b : entityBackoff) (id : string) (Hb : tracked b) (Hm : maxEntries b = maxBackoffEntries).
Context (k : Z) (Hk : 0 ≤ k < MaxInt64) (Hf : few k (view b)).

Lemma When_ok :
  let '(b', d) := When out_of_range b id in
  tracked b' ∧ view b' = lru_fail (view b) id ∧ base b' = base b ∧ max b' = max b ∧ maxEntries b' = maxBackoffEntries ∧
  d = backoff_delay out_of_range (base b) (max b) (default 0 (lru_count (view b) id)).
Proof.
  pose proof (lru_count_view b id Hb) as Hc. unfold When, lru_fail.
  destruct (items b !! id) as [el|] eqn:Hid; cbn [mbind option_bind] in *.
  - pose proof Hid as [Hin _]%(tracked_index b Hb). destruct (tracked_live b Hb el Hin) as [ent Hent].
    rewrite Hent in *. cbn [fmap option_fmap option_map] in *. rewrite Hc.
    destruct (When_known b id el ent Hb Hid Hent) as [Ht Hv]. split_and!; try done. rewrite Hv. f_equal. f_equal.
    apply Hf in Hc. apply wrap64_id. unfold int64_range, MinInt64, MaxInt64 in *. lia.
  - destruct (PushFront_tracked b id Hb Hid) as [Ht Hv]. rewrite Hc. pose proof (view_length b Hb) as Hvl. pose proof (tracked_bound b Hb).
    set (b1 := Backoff _ _ _ _ _ (maxEntries b)). cbv zeta. cbn [maxEntries ll b1].
    change (view _ = _) with (view b1 = (id, 1) :: view b) in Hv.
    destruct (Nat.ltb_spec (maxEntries b) (length (length (entries b) :: ll b))) as [Hlt|Hge]; cbn [length] in *.
    + destruct (evictOldest_ok b1) as [Ht' Hv']; [exact Ht|cbn; lia|]. unfold evictOldest in *.
      assert (is_Some (last (ll b1))) as [x Hx] by (apply last_is_Some; done). rewrite Hx in *. split_and!; try done.
      by rewrite Hv', Hv, <-Hm.
    + split_and!; try done; [|by rewrite Hv, take_ge by (cbn; lia)].
      destruct Ht as [? ? ? _]. by split; [..|cbn; lia].
Qed.
End when.

(** A base the doubling does not take to [2^63] exactly, and a float64 holds. *)
Definition plain_base (b : Duration) : Prop := 0 < b < 2 ^ 53 ∧ ∀ j, 0 ≤ j → b ≠ 2 ^ j.

Lemma backoff_delay_plain f b m n :
  plain_base b → 0 ≤ n → int64_range m → backoff_delay f b m n = doubling b m n.
Proof.
  intros [Hb Hpow] Hn Hm. unfold backoff_delay, doubling. replace (float64_of MaxInt64) with (2 ^ 63) by done.
  assert (float64_of b = b) as -> by (unfold float64_of; destruct (Z.ltb_spec b (2 ^ 53)); [done|lia]).
  unfold int64_range, MaxInt64 in *. assert (b * 2 ^ n ≠ 2 ^ 63) as Hne.
  { intros He. destruct (Z.le_gt_cases n 63).
    - apply (Hpow (63 - n)); [lia|]. assert (2 ^ 63 = 2 ^ (63 - n) * 2 ^ n) as Hs by (rewrite <-Z.pow_add_r by lia; f_equal; lia).
      rewrite Hs in He. apply Z.mul_reg_r in He; [done|]. pose proof (Z.pow_pos_nonneg 2 n ltac:(lia) Hn). lia.
    - assert (2 ^ 63 < 2 ^ n) by (apply Z.pow_lt_mono_r; lia). nia. }
  unfold Duration_of_float, MaxInt64. destruct (Z.ltb_spec (2 ^ 63) (b * 2 ^ n)); cbn [orb]; [lia|].
  destruct (Z.ltb_spec (2 ^ 63 - 1) (b * 2 ^ n)); [lia|]. destruct (Z.ltb_spec m (b * 2 ^ n)); lia.
Qed.

Lemma doubling_range b m n : 0 < b ≤ m → 0 ≤ n → b ≤ doubling b m n ≤ m.
Proof. intros Hb Hn. unfold doubling. pose proof (Z.pow_pos_nonneg 2 n ltac:(lia) Hn). nia. Qed.

Lemma delays_promised f ops : ∀ b k,
  tracked b → maxEntries b = maxBackoffEntries → plain_base (base b) → base b ≤ max b → int64_range (max b) →
  0 ≤ k → few k (view b) → k + Z.of_nat (length ops) < MaxInt64 →
  let '(ds, b') := backoff_run f b ops in
  ds = promised_delays (base b) (max b) (view b) ops ∧ Forall (λ d, base b ≤ d ≤ max b) ds ∧
  (length (ll b') ≤ maxBackoffEntries)%nat.
Proof.
  induction ops as [|[id|id] ops IH]; intros b k Hb Hm Hp Hle Hr Hk Hf Hlen; cbn [backoff_run promised_delays length] in *.
  - split_and!; [done..|]. rewrite <-Hm. apply (tracked_bound b Hb).
  - pose proof (When_ok f b id Hb Hm k ltac:(lia) Hf) as Hw. destruct (When f b id) as [b1 d].
    destruct Hw as (Hb1 & Hv1 & Hbase & Hmax & Hme & ->).
    assert (Hn : 0 ≤ default 0 (lru_count (view b) id)) by (destruct (lru_count (view b) id) as [n|] eqn:E; cbn; [apply Hf in E|]; lia).
    specialize (IH b1 (k + 1)). rewrite Hv1, Hbase, Hmax in IH. destruct (backoff_run f b1 ops) as [ds b'].
    destruct IH as (-> & Hall & Hl); [try done..| | | |]; [lia|by apply few_fail|lia|].
    rewrite backoff_delay_plain by done. split_and!; [done| |done]. constructor; [|done].
    apply doubling_range; [destruct Hp; lia|done].
  - destruct (Forget_ok b id Hb) as [Hb1 Hv1]. specialize (IH (Forget b id) k).
    assert (base (Forget b id) = base b ∧ max (Forget b id) = max b ∧ maxEntries (Forget b id) = maxBackoffEntries)
      as (Hbase & Hmax & Hme) by (unfold Forget; by destruct (items b !! id)).
    rewrite Hv1, Hbase, Hmax in IH. destruct (backoff_run f (Forget b id) ops) as [ds b'].
    apply IH; try done; [by apply few_drop|lia].
Qed.

Lemma newEntityBackoff_ok b m :
  int64_range m → let e := newEntityBackoff b m in
  tracked e ∧ maxEntries e = maxBackoffEntries ∧ base e ≤ max e ∧ int64_range (max e) ∧ view e = [].
Proof.
  intros Hm e. unfold e, newEntityBackoff. cbv zeta. split_and!; try done.
  - split; cbn [ll items entries maxEntries]; [constructor| |by intros ? ?%not_elem_of_nil|cbn; lia].
    intros i x. rewrite lookup_empty. split; [done|]. by intros [?%not_elem_of_nil _].
  - cbn [base max]. destruct (Z.ltb_spec (if m <=? 0 then defaultBackoffMax else m) (if b <=? 0 then defaultBackoffBase else b)); lia.
  - cbn [max]. destruct (m <=? 0); [|done]. unfold defaultBackoffMax, int64_range, MinInt64, MaxInt64, Second, Millisecond. lia.
Qed.

(** C30: in every history of failures and recoveries the tracker answers as an unbounded
    exponential backoff over a list of the 4096 entities that failed last: the delay
    is the base doubled once for each failure in a row, cut at the maximum, never
    below the base nor above the maximum, and the tracker never holds more than 4096
    entities.  The base must fit a float64 and not be a power of two. *)
Theorem backoff_history f base0 max0 ops :
  int64_range max0 → plain_base (base (newEntityBackoff base0 max0)) → Z.of_nat (length ops) < MaxInt64 →
  let b := newEntityBackoff base0 max0 in
  let '(ds, b') := backoff_run f b ops in
  ds = promised_delays (base b) (max b) [] ops ∧ Forall (λ d, base b ≤ d ≤ max b) ds ∧
  (length (ll b') ≤ maxBackoffEntries)%nat.
Proof.
  intros Hm Hp Hlen b. destruct (newEntityBackoff_ok base0 max0 Hm) as (Ht & He & Hle & Hr & Hv). fold b in Ht, He, Hle, Hr, Hv, Hp.
  rewrite <-Hv. apply (delays_promised f ops b 0); try done.
Qed.

Lemma default_base_plain : plain_base defaultBackoffBase.
Proof.
  split; [done|]. intros j Hj He. destruct (Z.le_gt_cases j 22).
  - assert (2 ^ j ≤ 2 ^ 22) by (apply Z.pow_le_mono_r; lia). unfold defaultBackoffBase, Millisecond in He. lia.
  - assert (2 ^ 23 ≤ 2 ^ j) by (apply Z.pow_le_mono_r; lia). unfold defaultBackoffBase, Millisecond in He. lia.
Qed.

Lemma backoff_history_witness :
  (backoff_run id (newEntityBackoff 0 0) [Fails "a"; Fails "b"; Fails "a"; Recovers "a"; Fails "a"; Fails "b"]).1 =
  [5 * Millisecond; 5 * Millisecond; 10 * Millisecond; 5 * Millisecond; 10 * Millisecond].
Proof.
  pose proof (backoff_history id 0 0 [Fails "a"; Fails "b"; Fails "a"; Recovers "a"; Fails "a"; Fails "b"]) as H.
  cbv zeta in H. destruct (backoff_run id (newEntityBackoff 0 0) _) as [ds b'].
  destruct H as [-> _]; [by split|exact default_base_plain|done|reflexivity].
Defined.

(** Go leaves the conversion of [2^63] to the implementation; where it gives the
    smallest int64, as on amd64, a base of [2^20]ns makes the 44th delay negative,
    and the retry immediate. *)
Lemma power_of_two_base_goes_negative :
  last (backoff_run (λ _, MinInt64) (newEntityBackoff (2 ^ 20) 0) (repeat (Fails "a") 44)).1 = Some MinInt64.
Proof. vm_compute. reflexivity. Qed.

(** ** What a loop that starts is configured with *)

Lemma defaults_id_ok id :
  validateReconcilerID id = Ok tt → validateReconcilerID (if str_eqb id "" then "_runtime" else id) = Ok tt ∧
    (if str_eqb id "" then "_runtime" else id) ≠ "".
Proof. unfold str_eqb. case_bool_decide; [subst; split; [reflexivity|done]|done]. Qed.

(** A loop that is built and started has a positive interval, at least one worker, a
    backoff whose base is not above its maximum, an identifier fit for a label, and
    a leader to take epochs from whenever its writes are fenced. *)
Lemma started_loop_configured preflight b l l' :
  Build b = Ok l → preStartValidate preflight l = Ok l' →
  0 < c_interval l' ∧ 0 < c_maxConcurrentReconciles l' ∧
  (let e := newEntityBackoff (c_baseDelay l') (c_maxDelay l') in 0 < base e ≤ max e) ∧
  validateReconcilerID (c_reconcilerID l') = Ok tt ∧ c_reconcilerID l' ≠ "" ∧
  (c_fencedRepo l' = Present → c_leader l' = Present).
Proof.
  intros Hb. assert (b = l ∧ (c_fencedRepo l = Present → IsNilInterface (c_leader l) = false)) as [-> Hfen].
  { unfold Build in Hb. destruct (IsNilInterface (c_reconciler b)), (IsUnset (c_tenancy b)), (IsNilInterface (c_trigger b)); try done.
    destruct (c_fencedRepo b) eqn:Hf, (IsNilInterface (c_leader b)) eqn:Hl; cbn in Hb; simplify_eq; rewrite ?Hf; done. }
  unfold preStartValidate. destruct (IsNilInterface (c_reconciler l)); [done|]. destruct (c_ready l); [done|].
  destruct (validateReconcilerID (c_reconcilerID l)) as [[]|] eqn:Hid; [|done]. cbn [mbind outcome_bind].
  destruct (_ && _ && _); [done|]. destruct (defaults_id_ok _ Hid) as [Hid' Hne]. intros Hp.
  assert (l' = applyDefaults l) as ->.
  { revert Hp. destruct (c_leader l), (c_fencedRepo l); try done; cbv zeta; destruct (preflight _); cbn; congruence. }
  split_and!; cbn.
  - destruct (Z.leb_spec (c_interval l) 0); [done|lia].
  - destruct (Z.leb_spec (c_maxConcurrentReconciles l) 0); [done|lia].
  - unfold newEntityBackoff. cbn. unfold defaultBackoffBase, defaultBackoffMax, Second, Millisecond.
    destruct (Z.leb_spec (c_baseDelay l) 0), (Z.leb_spec (c_maxDelay l) 0);
      match goal with |- context [?x <? ?y] => destruct (Z.ltb_spec x y) end; lia.
  - unfold newEntityBackoff. cbn. unfold defaultBackoffBase, defaultBackoffMax, Second, Millisecond.
    destruct (Z.leb_spec (c_baseDelay l) 0), (Z.leb_spec (c_maxDelay l) 0);
      match goal with |- context [?x <? ?y] => destruct (Z.ltb_spec x y) end; lia.
  - done.
  - done.
  - intros Hf%Hfen. by destruct (c_leader l).
Qed.
