(* ===== verification/ReconcileQueue.v ===== *)
(** * kernel/reconcile: the delaying queue

    loop.go's waiting heap: pending requeues ordered by the time they are due, at
    most one per entity, in a binary heap of shared items indexed by entity.  The
    items live in a store of their own, because the heap and the index point to
    the same ones; package container/heap is modelled as it is written. *)

From S2P Require Import Prelude.

(** ** Package container/heap *)

Definition parent (j : nat) : nat := Nat.div2 (pred j).

Section heap.
Context {St : Type} (less : St → nat → nat → bool) (swap : St → nat → nat → St).

Fixpoint up (fuel : nat) (s : St) (j : nat) : St :=
  match fuel with
  | O => s
  | S fuel => let i := parent j in if (i =? j)%nat || negb (less s j i) then s else up fuel (swap s i j) i
  end.

(** The state, and where the element came to rest. *)
Fixpoint down (fuel : nat) (s : St) (i n : nat) : St * nat :=
  match fuel with
  | O => (s, i)
  | S fuel =>
      let j1 := (2 * i + 1)%nat in
      if (n <=? j1)%nat then (s, i)
      else
        let j := if (S j1 <? n)%nat && less s (S j1) j1 then S j1 else j1 in
        if negb (less s j i) then (s, i) else down fuel (swap s i j) j n
  end.

(** [if !down(h, i, n) { up(h, i) }]. *)
Definition settle (s : St) (i n : nat) : St :=
  let '(s', i') := down n s i n in if (i <? i')%nat then s' else up n s' i.

(** What the two loops need to know: the keys compared, and that [swap] swaps,
    as long as an invariant holds. *)
Context (len : St → nat) (k : St → nat → Z).
Context (Inv : St → Prop) (HInv : ∀ s i j, Inv s → (i < len s)%nat → (j < len s)%nat → Inv (swap s i j)).
Context (Hless : ∀ s i j, Inv s → (i < len s)%nat → (j < len s)%nat → less s i j = (k s i <? k s j)).
Context (Hlen : ∀ s i j, len (swap s i j) = len s).
Context (Hswap : ∀ s i j x, Inv s → (i < len s)%nat → (j < len s)%nat →
  k (swap s i j) x = if (x =? i)%nat then k s j else if (x =? j)%nat then k s i else k s x).

(** Every element among the first [n] but those excused is at least its parent. *)
Definition ordered_but (P : nat → Prop) (n : nat) (s : St) : Prop :=
  ∀ c, (0 < c < n)%nat → ¬ P c → k s (parent c) ≤ k s c.
Definition ordered (n : nat) (s : St) : Prop := ordered_but (λ _, False) n s.

(** The children of [i] are at least its parent. *)
Definition skips (i n : nat) (s : St) : Prop :=
  (0 < i)%nat → ∀ c, (0 < c < n)%nat → parent c = i → k s (parent i) ≤ k s c.

Lemma parent_lt c : (0 < c)%nat → (parent c < c)%nat.
Proof. unfold parent. intros. pose proof (Nat.div2_decr (pred c) (pred c)). lia. Qed.

Lemma parent_child c i : (0 < c)%nat → parent c = i ↔ c = (2 * i + 1)%nat ∨ c = (2 * i + 2)%nat.
Proof.
  intros Hc. unfold parent. rewrite Nat.div2_div. split.
  - intros <-. pose proof (Nat.div_mod_eq (pred c) 2). pose proof (Nat.mod_upper_bound (pred c) 2). lia.
  - intros [->| ->].
    + replace (pred (2 * i + 1)) with (i * 2)%nat by lia. by rewrite Nat.div_mul.
    + replace (pred (2 * i + 2)) with (1 + i * 2)%nat by lia. rewrite Nat.div_add by lia. done.
Qed.

Lemma up_len fuel : ∀ s j, len (up fuel s j) = len s.
Proof. induction fuel as [|f IH]; intros s j; cbn; [done|]. destruct (_ || _); [done|]. by rewrite IH. Qed.

Lemma down_len fuel : ∀ s i n, len (down fuel s i n).1 = len s.
Proof.
  induction fuel as [|f IH]; intros s i n; cbn; [done|]. destruct (_ <=? _)%nat; [done|].
  destruct (negb _); [done|]. by rewrite IH.
Qed.

Lemma up_ordered fuel : ∀ s j n, Inv s →
  (j ≤ fuel)%nat → (j < n ≤ len s)%nat → ordered_but (λ c, c = j) n s → skips j n s → ordered n (up fuel s j).
Proof.
  induction fuel as [|f IH]; intros s j n HI Hf Hj Ho Hs; cbn [up].
  { intros c Hc _. apply Ho; [done|lia]. }
  destruct (Nat.eqb_spec (parent j) j) as [He|Hne]; cbn [orb].
  { intros c Hc _. apply Ho; [done|]. intros ->. pose proof (parent_lt j). lia. }
  assert (0 < j)%nat as Hj0 by (destruct j; [done|lia]). pose proof (parent_lt j Hj0) as Hp.
  rewrite Hless by (done || lia). destruct (Z.ltb_spec (k s j) (k s (parent j))) as [Hlt|Hge]; cbn [negb].
  2: { intros c Hc _. destruct (decide (c = j)) as [->|]; [done|by apply Ho]. }
  set (i := parent j) in *. set (s' := swap s i j).
  assert (Hk : ∀ x, k s' x = if (x =? i)%nat then k s j else if (x =? j)%nat then k s i else k s x) by (intros; apply Hswap; (done || lia)).
  assert (Hsib : ∀ c, (0 < c < n)%nat → c ≠ j → parent c = i → k s i ≤ k s c).
  { intros c Hc Hcj <-. by apply Ho. }
  apply IH; [apply HInv; (done || lia)|lia|unfold s'; rewrite Hlen; lia| |].
  - intros c Hc Hci. rewrite !Hk. pose proof (parent_lt c ltac:(lia)).
    destruct (Nat.eqb_spec c i) as [|_]; [done|]. destruct (Nat.eqb_spec c j) as [->|Hcj].
    + fold i. rewrite Nat.eqb_refl. lia.
    + destruct (Nat.eqb_spec (parent c) i) as [Hpi|Hpi]; [specialize (Hsib c Hc Hcj Hpi); lia|].
      destruct (Nat.eqb_spec (parent c) j) as [Hpj|Hpj]; [|by apply Ho].
      by apply (Hs Hj0 c Hc).
  - intros Hi0 c Hc Hpc. pose proof (parent_lt i Hi0). pose proof (parent_lt c ltac:(lia)). rewrite !Hk.
    destruct (Nat.eqb_spec (parent i) i); [lia|]. destruct (Nat.eqb_spec (parent i) j); [lia|].
    destruct (Nat.eqb_spec c i); [lia|]. assert (k s (parent i) ≤ k s i) by (apply Ho; lia).
    destruct (Nat.eqb_spec c j); [done|]. specialize (Hsib c Hc ltac:(done) Hpc). lia.
Qed.

Lemma smaller_child (s : St) i n : Inv s → (n ≤ len s)%nat → (2 * i + 1 < n)%nat →
  let j := if (S (2 * i + 1) <? n)%nat && less s (S (2 * i + 1)) (2 * i + 1) then S (2 * i + 1) else (2 * i + 1)%nat in
  (i < j < n)%nat ∧ parent j = i ∧ ∀ c, (0 < c < n)%nat → parent c = i → k s j ≤ k s c.
Proof.
  intros HI Hn Hi j. assert (Hj : (i < j < n)%nat ∧ parent j = i).
  { subst j. destruct (Nat.ltb_spec (S (2 * i + 1)) n); cbn [andb]; [destruct (less _ _ _)|];
      (split; [lia|]; apply parent_child; lia). }
  destruct Hj as [Hj Hpj]. split_and!; [lia..|done|]. intros c Hc Hpc.
  apply parent_child in Hpc; [|lia]. subst j.
  destruct (Nat.ltb_spec (S (2 * i + 1)) n); cbn [andb] in *.
  - rewrite Hless in * by (done || lia). destruct (Z.ltb_spec (k s (S (2 * i + 1))) (k s (2 * i + 1)%nat)).
    + destruct Hpc as [->| ->]; [lia|]. by replace (2 * i + 2)%nat with (S (2 * i + 1)) by lia.
    + destruct Hpc as [->| ->]; [done|]. by replace (2 * i + 2)%nat with (S (2 * i + 1)) by lia.
  - by replace c with (2 * i + 1)%nat by lia.
Qed.

Definition below (i : nat) (c : nat) : Prop := c = i ∨ parent c = i.

(** One exchange with the smaller child moves the excuse to where the child was. *)
Lemma sift_step (s : St) i j n : Inv s →
  (n ≤ len s)%nat → (i < j < n)%nat → parent j = i →
  (∀ c, (0 < c < n)%nat → parent c = i → k s j ≤ k s c) → k s j < k s i →
  ordered_but (below i) n s → skips i n s →
  let s' := swap s i j in
  ordered_but (below j) n s' ∧ skips j n s' ∧ k s' (parent j) ≤ k s' j.
Proof.
  intros HI Hn Hj Hpj Hmin Hlt Ho Hs s'.
  assert (Hk : ∀ x, k s' x = if (x =? i)%nat then k s j else if (x =? j)%nat then k s i else k s x) by (intros; apply Hswap; (done || lia)).
  split_and!.
  - intros c Hc Hb. pose proof (parent_lt c ltac:(lia)). rewrite !Hk. unfold below in Hb.
    destruct (Nat.eqb_spec c i) as [->|Hci].
    + destruct (Nat.eqb_spec (parent i) i); [lia|]. destruct (Nat.eqb_spec (parent i) j); [lia|].
      apply Hs; [lia..|done].
    + destruct (Nat.eqb_spec c j) as [->|]; [tauto|].
      destruct (Nat.eqb_spec (parent c) i) as [Hpc|]; [by apply Hmin|].
      destruct (Nat.eqb_spec (parent c) j); [tauto|]. apply Ho; [done|]. unfold below. tauto.
  - intros _ c Hc Hpc. pose proof (parent_lt c ltac:(lia)). rewrite Hpj, !Hk, Nat.eqb_refl.
    destruct (Nat.eqb_spec c i); [lia|]. destruct (Nat.eqb_spec c j); [lia|].
    rewrite <-Hpc. apply Ho; [lia|]. unfold below. lia.
  - rewrite Hpj, !Hk, !Nat.eqb_refl. destruct (Nat.eqb_spec j i); lia.
Qed.

Lemma down_ordered fuel : ∀ s i n, Inv s →
  (n ≤ fuel + i)%nat → (n ≤ len s)%nat → ordered_but (below i) n s → skips i n s →
  ((0 < i < n)%nat → k s (parent i) ≤ k s i) → ordered n (down fuel s i n).1.
Proof.
  induction fuel as [|f IH]; intros s i n HI Hf Hn Ho Hs Hi; cbn [down].
  { intros c Hc _. destruct (decide (c = i)) as [->|]; [lia|]. apply Ho; [done|]. intros [?|<-]; [done|].
    pose proof (parent_lt c). lia. }
  destruct (Nat.leb_spec n (2 * i + 1)) as [Hle|Hgt]; cbn [fst].
  { intros c Hc _. destruct (decide (c = i)) as [->|]; [by apply Hi|]. apply Ho; [done|]. intros [?|Hp]; [done|].
    apply parent_child in Hp; lia. }
  destruct (smaller_child s i n HI Hn Hgt) as (Hj & Hpj & Hmin). cbv zeta in *.
  match type of Hpj with parent ?e = _ => set (j := e) in * end. rewrite Hless by (done || lia).
  destruct (Z.ltb_spec (k s j) (k s i)) as [Hlt|Hge]; cbn [negb fst].
  - destruct (sift_step s i j n) as (? & ? & ?); [done..|]. apply IH; [apply HInv; (done || lia)|lia|by rewrite Hlen|done..].
  - intros c Hc _. destruct (decide (c = i)) as [->|]; [by apply Hi|].
    destruct (decide (parent c = i)) as [Hp|]; [rewrite Hp; specialize (Hmin c Hc Hp); lia|].
    apply Ho; [done|]. unfold below. tauto.
Qed.

(** [down] leaves the state alone when the element is already no larger than its
    children; otherwise the heap is ordered again, whatever its parent was. *)
Lemma down_cases fuel s i n : Inv s →
  (n ≤ fuel + i)%nat → (n ≤ len s)%nat → ordered_but (below i) n s → skips i n s →
  (down fuel s i n = (s, i) ∧ ordered_but (λ c, c = i) n s) ∨
  ((i < (down fuel s i n).2)%nat ∧ ordered n (down fuel s i n).1).
Proof.
  intros HI Hf Hn Ho Hs. destruct fuel as [|f]; cbn [down].
  { left. split; [done|]. intros c Hc Hci. apply Ho; [done|]. intros [?|<-]; [done|]. pose proof (parent_lt c). lia. }
  destruct (Nat.leb_spec n (2 * i + 1)) as [Hle|Hgt].
  { left. split; [done|]. intros c Hc Hci. apply Ho; [done|]. intros [?|Hp]; [done|]. apply parent_child in Hp; lia. }
  destruct (smaller_child s i n HI Hn Hgt) as (Hj & Hpj & Hmin). cbv zeta in *.
  match type of Hpj with parent ?e = _ => set (j := e) in * end. rewrite Hless by (done || lia).
  destruct (Z.ltb_spec (k s j) (k s i)) as [Hlt|Hge]; cbn [negb].
  - right. destruct (sift_step s i j n) as (? & ? & ?); [done..|]. split.
    + enough (∀ f s i, (i ≤ (down f s i n).2)%nat) as Hmono by (specialize (Hmono f (swap s i j) j); lia).
      clear. induction f as [|f IH]; intros s i; cbn [down]; [done|]. destruct (_ <=? _)%nat; [done|].
      destruct (negb _); [done|]. etrans; [|apply IH]. destruct (_ && _); lia.
    + apply down_ordered; [apply HInv; (done || lia)|lia|by rewrite Hlen|done..].
  - left. split; [done|]. intros c Hc Hci.
    destruct (decide (parent c = i)) as [Hp|]; [rewrite Hp; specialize (Hmin c Hc Hp); lia|].
    apply Ho; [done|]. unfold below. tauto.
Qed.

Lemma settle_ordered s i n : Inv s →
  (i < n ≤ len s)%nat → ordered_but (below i) n s → skips i n s → ordered n (settle s i n).
Proof.
  intros HI Hi Ho Hs. unfold settle.
  destruct (down_cases n s i n) as [[-> Ho']|[Hm Ho']]; [done|lia|lia|done|done| |].
  - rewrite Nat.ltb_irrefl. apply up_ordered; [done|lia|lia|done..].
  - destruct (down n s i n) as [s' i']. cbn [fst snd] in *. destruct (Nat.ltb_spec i i'); [done|lia].
Qed.

Lemma ordered_root n s : ordered n s → ∀ c, (c < n)%nat → k s 0 ≤ k s c.
Proof.
  intros Ho c. induction c as [c IH] using (well_founded_induction lt_wf). intros Hc.
  destruct (decide (c = 0%nat)) as [->|]; [done|]. pose proof (parent_lt c ltac:(lia)).
  etrans; [apply (IH (parent c)); lia|apply Ho; [lia|tauto]].
Qed.

(** What exchanges within the first [n] preserve, the loops preserve. *)
Section preserve.
Context (P : St → Prop) (n : nat).
Context (HP : ∀ s i j, (i < n)%nat → (j < n)%nat → P s → P (swap s i j)).

Lemma up_preserves fuel : ∀ s j, (j < n)%nat → P s → P (up fuel s j).
Proof.
  induction fuel as [|f IH]; intros s j Hj Hs; cbn; [done|]. destruct (_ || _) eqn:E; [done|].
  apply orb_false_iff in E as [?%Nat.eqb_neq _].
  assert (parent j < j)%nat by (apply parent_lt; destruct j; [done|lia]).
  apply IH; [lia|]. apply HP; [lia..|done].
Qed.

Lemma down_preserves fuel : ∀ s i, (i < n)%nat → P s → P (down fuel s i n).1.
Proof.
  induction fuel as [|f IH]; intros s i Hi Hs; cbn [down]; [done|].
  destruct (Nat.leb_spec n (2 * i + 1)); [done|]. destruct (negb _); [done|].
  destruct (Nat.ltb_spec (S (2 * i + 1)) n); cbn [andb]; [destruct (less _ _ _)|]; (apply IH; [lia|apply HP; [lia..|done]]).
Qed.

Lemma settle_preserves s i : (i < n)%nat → P s → P (settle s i n).
Proof.
  intros Hi Hs. unfold settle. pose proof (down_preserves n s i Hi Hs). destruct (down n s i n) as [s' i'].
  destruct (_ <? _)%nat; [done|]. by apply up_preserves.
Qed.
End preserve.
End heap.

(** ** Waiting items, and the heap of pointers to them *)

Record Request : Type := { EntityID : string }.

#[global] Instance Request_eq_dec : EqDecision Request.
Proof. solve_decision. Defined.

Record waitingItem : Type := WaitingItem { req : Request; readyAt : Time; index : Z }.

(** The slice of pointers, and the memory the pointers point into. *)
Record waitingHeap : Type := Heap { memory : list waitingItem; slots : list nat }.

Definition Len (h : waitingHeap) : nat := length (slots h).

(** [( *h)[i]]. *)
Definition item_at (h : waitingHeap) (i : nat) : option waitingItem := a ← slots h !! i; memory h !! a.

Definition Less (h : waitingHeap) (i j : nat) : bool :=
  match item_at h i, item_at h j with
  | Some x, Some y => Before (readyAt x) (readyAt y)
  | _, _ => false
  end.

Definition set_index (i : Z) (it : waitingItem) : waitingItem := WaitingItem (req it) (readyAt it) i.
Definition set_readyAt (t : Time) (it : waitingItem) : waitingItem := WaitingItem (req it) t (index it).

Definition Swap (h : waitingHeap) (i j : nat) : waitingHeap :=
  match slots h !! i, slots h !! j with
  | Some a, Some b =>
      Heap (alter (set_index (Z.of_nat j)) a (alter (set_index (Z.of_nat i)) b (memory h)))
           (<[j := a]> (<[i := b]> (slots h)))
  | _, _ => h
  end.

Definition Push (h : waitingHeap) (it : waitingItem) : waitingHeap :=
  Heap (memory h ++ [set_index (Z.of_nat (Len h)) it]) (slots h ++ [length (memory h)]).

(** [None]: the slice is empty, and indexing it panics. *)
Definition Pop (h : waitingHeap) : option (nat * waitingHeap) :=
  it ← last (slots h);
  Some (it, Heap (alter (set_index (-1)) it (memory h)) (take (Len h - 1) (slots h))).

Definition heap_Push (h : waitingHeap) (it : waitingItem) : waitingHeap :=
  let h := Push h it in up Less Swap (Len h) h (Len h - 1).

Definition heap_Pop (h : waitingHeap) : option (nat * waitingHeap) :=
  let n := (Len h - 1)%nat in
  Pop (down Less Swap n (Swap h 0 n) 0 n).1.

Definition heap_Remove (h : waitingHeap) (i : nat) : option (nat * waitingHeap) :=
  let n := (Len h - 1)%nat in
  Pop (if decide (n = i) then h else settle Less Swap (Swap h i n) i n).

Definition heap_Fix (h : waitingHeap) (i : nat) : waitingHeap := settle Less Swap h i (Len h).

(** ** waitingLoop and its operations *)

Record waiting : Type := Waiting { heap : waitingHeap; pending : gmap string nat }.

Definition addOrMergeWaiting (w : waiting) (item : waitingItem) : waiting :=
  let h := heap w in
  match a ← pending w !! EntityID (req item); (λ it, (a, it)) <$> memory h !! a with
  | Some (a, existing) =>
      if Before (readyAt item) (readyAt existing) then
        Waiting (heap_Fix (Heap (alter (set_readyAt (readyAt item)) a (memory h)) (slots h)) (Z.to_nat (index existing)))
                (pending w)
      else w
  | None => Waiting (heap_Push h item) (<[EntityID (req item) := length (memory h)]> (pending w))
  end.

Definition cancelPending (w : waiting) (entityID : string) : waiting :=
  match a ← pending w !! entityID; memory (heap w) !! a with
  | None => w
  | Some existing =>
      match heap_Remove (heap w) (Z.to_nat (index existing)) with
      | Some (_, h) => Waiting h (delete entityID (pending w))
      | None => w
      end
  end.

(** The earliest item, when it is due: taken off the heap and the index. *)
Definition pop_ready (w : waiting) (now : Time) : option (Request * waiting) :=
  top ← item_at (heap w) 0;
  if After (readyAt top) now then None
  else
    '(a, h) ← heap_Pop (heap w);
    it ← memory h !! a;
    Some (req it, Waiting h (delete (EntityID (req it)) (pending w))).

(** [stop]: the number of requests the queue takes before [runCtx] is done. *)
Fixpoint drain (fuel : nat) (w : waiting) (now : Time) (stop : option nat) : waiting * list Request * bool :=
  match fuel with
  | O => (w, [], true)
  | S fuel =>
      match pop_ready w now with
      | None => (w, [], true)
      | Some (r, w) =>
          match stop with
          | Some O => (w, [], false)
          | _ => let '(w, sent, ok) := drain fuel w now (pred <$> stop) in (w, r :: sent, ok)
          end
      end
  end.

(** One request leaves the heap per round of the loop. *)
Definition drainReadyItems (w : waiting) (now : Time) (stop : option nat) : waiting * list Request * bool :=
  drain (Len (heap w)) w now stop.

Definition waitingQueueIdleDelay : Duration := 24 * Hour.

Definition nextWaitingDelay (h : waitingHeap) (now : Time) : Duration :=
  match item_at h 0 with
  | None => waitingQueueIdleDelay
  | Some top => let d := Sub (readyAt top) now in if d <? 0 then 0 else d
  end.

(** What the select of waitingLoop receives. *)
Inductive wakeup : Type :=
| RunDone
| Added (item : waitingItem)
| Cancelled (id : string)
| TimerFired.

(** One round: the clock before draining and before arming the timer, how many
    sends the queue takes before the run ends, and what wakes the loop up. *)
Record turn : Type := Turn { drained_at : Time; room : option nat; armed_at : Time; woken_by : wakeup }.

(** What a round shows: the requests sent, and the timer armed, when it was. *)
Record shown : Type := Shown { sent : list Request; timer : option Duration }.

Definition no_items : waiting := Waiting (Heap [] []) ∅.

(** [false]: the loop has returned. *)
Definition waiting_round (w : waiting) (t : turn) : waiting * shown * bool :=
  let '(w, out, ok) := drainReadyItems w (drained_at t) (room t) in
  if negb ok then (w, Shown out None, false)
  else
    let shows := Shown out (Some (nextWaitingDelay (heap w) (armed_at t))) in
    match woken_by t with
    | RunDone => (w, shows, false)
    | Added item => (addOrMergeWaiting w item, shows, true)
    | Cancelled id => (cancelPending w id, shows, true)
    | TimerFired => (w, shows, true)
    end.

Fixpoint waitingLoop (w : waiting) (turns : list turn) : waiting * list shown :=
  match turns with
  | [] => (w, [])
  | t :: turns =>
      let '(w, shows, go) := waiting_round w t in
      if go then let '(w, rest) := waitingLoop w turns in (w, shows :: rest) else (w, [shows])
  end.

(** ** What the delaying queue promises *)

Definition earlier (x y : string * Time) : Prop := x.2 ≤ y.2.
#[global] Instance earlier_dec x y : Decision (earlier x y) := decide (x.2 ≤ y.2).
#[global] Instance earlier_total : Total earlier.
Proof. intros x y. unfold earlier. lia. Qed.

(** The requests due at [now], earliest first, leave [m]. *)
Inductive delivers (m : gmap string Time) (now : Time) : option nat → list Request → bool → gmap string Time → Prop :=
| delivers_all stop due :
    due ≡ₚ map_to_list (filter (λ kv, kv.2 ≤ now) m) →
    Sorted earlier due →
    (∀ k, stop = Some k → (length due ≤ k)%nat) →
    delivers m now stop (Build_Request <$> due.*1) true (filter (λ kv, now < kv.2) m)
| delivers_some k due x rest m' :
    due ++ x :: rest ≡ₚ map_to_list (filter (λ kv, kv.2 ≤ now) m) →
    Sorted earlier (due ++ x :: rest) →
    length due = k →
    m' = filter (λ kv, kv.1 ∉ x.1 :: due.*1) m →
    delivers m now (Some k) (Build_Request <$> due.*1) false m'.

(** The timer that is armed: for the earliest time in [m], or a day. *)
Inductive arms (m : gmap string Time) (now : Time) : Duration → Prop :=
| arms_idle : m = ∅ → arms m now waitingQueueIdleDelay
| arms_earliest e t : m !! e = Some t → map_Forall (λ _ t', t ≤ t') m → arms m now (Z.max 0 (Sub t now)).

(** An addition keeps the earlier time. *)
Definition requeue (m : gmap string Time) (e : string) (t : Time) : gmap string Time :=
  <[e := from_option (Z.min t) t (m !! e)]> m.

Inductive promised (m : gmap string Time) (t : turn) : shown → bool → gmap string Time → Prop :=
| promised_stopped out m' :
    delivers m (drained_at t) (room t) out false m' → promised m t (Shown out None) false m'
| promised_round out m' d :
    delivers m (drained_at t) (room t) out true m' → arms m' (armed_at t) d →
    promised m t (Shown out (Some d))
      (match woken_by t with RunDone => false | _ => true end)
      (match woken_by t with
       | Added item => requeue m' (EntityID (req item)) (readyAt item)
       | Cancelled id => delete id m'
       | _ => m'
       end).

Inductive kept (m : gmap string Time) : list turn → list shown → gmap string Time → Prop :=
| kept_nil : kept m [] [] m
| kept_done t turns shows m' : promised m t shows false m' → kept m (t :: turns) [shows] m'
| kept_more t turns shows m' rest m'' :
    promised m t shows true m' → kept m' turns rest m'' → kept m (t :: turns) (shows :: rest) m''.

(** The time each waiting entity is due. *)
Definition due_times (w : waiting) : gmap string Time :=
  omap (λ a, readyAt <$> memory (heap w) !! a) (pending w).

(** ** The heap of pointers is a heap *)

(** Every pointer of the heap knows its place. *)
Definition linked (h : waitingHeap) : Prop :=
  ∀ i a, slots h !! i = Some a → ∃ it, memory h !! a = Some it ∧ index it = Z.of_nat i.

Definition key (h : waitingHeap) (i : nat) : Z := from_option readyAt 0 (item_at h i).

(** What an exchange leaves alone: which items are in the heap, and all but their places. *)
Definition essence (it : waitingItem) : Request * Time := (req it, readyAt it).
Definition same (h h' : waitingHeap) : Prop :=
  slots h' ≡ₚ slots h ∧ essence <$> memory h' = essence <$> memory h.

#[global] Instance same_preorder : PreOrder same.
Proof. split; [done|]. intros ??? [H1 H2] [H3 H4]. split; [by rewrite H3|by rewrite H4]. Qed.

Lemma essence_alter f a (l : list waitingItem) :
  (∀ it, essence (f it) = essence it) → essence <$> alter f a l = essence <$> l.
Proof.
  intros Hf. apply list_eq. intros i. rewrite !list_lookup_fmap.
  destruct (decide (i = a)) as [->|]; [rewrite list_lookup_alter_eq|by rewrite list_lookup_alter_ne by done].
  destruct (l !! a); cbn; [by rewrite Hf|done].
Qed.

Lemma essence_at h h' a : same h h' → essence <$> memory h' !! a = essence <$> memory h !! a.
Proof. intros [_ Hm]. by rewrite <-!list_lookup_fmap, Hm. Qed.

Lemma essence_readyAt (x y : option waitingItem) : essence <$> x = essence <$> y → readyAt <$> x = readyAt <$> y.
Proof. unfold essence. destruct x, y; cbn; intros; congruence. Qed.

Lemma key_at h i a : slots h !! i = Some a → key h i = default 0 (readyAt <$> memory h !! a).
Proof. intros Hi. unfold key, item_at. rewrite Hi. cbn. by destruct (memory h !! a). Qed.

Lemma linked_inj h i j a : linked h → slots h !! i = Some a → slots h !! j = Some a → i = j.
Proof. intros Hl Hi Hj. destruct (Hl _ _ Hi) as (x & ? & ?), (Hl _ _ Hj) as (y & ? & ?). simplify_eq. lia. Qed.

Lemma linked_item h i : linked h → (i < Len h)%nat → is_Some (item_at h i).
Proof.
  intros Hl Hi. destruct (lookup_lt_is_Some_2 (slots h) i Hi) as [a Ha].
  destruct (Hl _ _ Ha) as (it & Hit & _). unfold item_at. rewrite Ha. cbn. by rewrite Hit.
Qed.

Section swap.
Context (h : waitingHeap) (i j : nat).

Lemma Swap_Len : Len (Swap h i j) = Len h.
Proof. unfold Swap, Len. destruct (slots h !! i), (slots h !! j); cbn; by rewrite ?length_insert. Qed.

Context (Hl : linked h) (Hi : (i < Len h)%nat) (Hj : (j < Len h)%nat).

Lemma Swap_linked : linked (Swap h i j).
Proof.
  destruct (lookup_lt_is_Some_2 _ _ Hi) as [a Ha], (lookup_lt_is_Some_2 _ _ Hj) as [b Hb].
  unfold Swap. rewrite Ha, Hb. intros p c. cbn [slots memory].
  destruct (Hl _ _ Ha) as (x & Hx & Hix), (Hl _ _ Hb) as (y & Hy & Hiy). unfold Len in Hi, Hj.
  destruct (decide (p = j)) as [->|Hpj].
  { rewrite list_lookup_insert_eq by (rewrite length_insert; done). intros [= <-].
    rewrite list_lookup_alter_eq. destruct (decide (a = b)) as [->|].
    - rewrite list_lookup_alter_eq, Hy. cbn. by eexists.
    - rewrite list_lookup_alter_ne, Hx by done. cbn. by eexists. }
  rewrite list_lookup_insert_ne by done. destruct (decide (p = i)) as [->|Hpi].
  { rewrite list_lookup_insert_eq by done. intros [= <-].
    assert (a ≠ b) by (intros ->; by pose proof (linked_inj h i j b Hl Ha Hb)).
    rewrite list_lookup_alter_ne, list_lookup_alter_eq, Hy by done. cbn. by eexists. }
  rewrite list_lookup_insert_ne by done. intros Hc. destruct (Hl _ _ Hc) as (z & Hz & Hiz).
  assert (c ≠ a) by (intros ->; by pose proof (linked_inj h i p a Hl Ha Hc)).
  assert (c ≠ b) by (intros ->; by pose proof (linked_inj h j p b Hl Hb Hc)).
  rewrite !list_lookup_alter_ne by done. by exists z.
Qed.

Lemma Swap_same : same h (Swap h i j).
Proof.
  destruct (lookup_lt_is_Some_2 _ _ Hi) as [a Ha], (lookup_lt_is_Some_2 _ _ Hj) as [b Hb].
  unfold Swap. rewrite Ha, Hb. split; cbn; [|by rewrite !essence_alter].
  destruct (decide (i = j)) as [->|Hne].
  { simplify_eq. by rewrite list_insert_insert_eq, list_insert_id. }
  apply Permutation_inj. split; [by rewrite !length_insert|].
  exists (λ p, if decide (p = i) then j else if decide (p = j) then i else p). split.
  { intros p q. repeat case_decide; congruence. }
  intros p. destruct (decide (p = i)) as [->|].
  { rewrite list_lookup_insert_ne, list_lookup_insert_eq by done. done. }
  destruct (decide (p = j)) as [->|].
  { rewrite list_lookup_insert_eq by (by rewrite length_insert). done. }
  by rewrite !list_lookup_insert_ne.
Qed.

Lemma Swap_slot x :
  slots (Swap h i j) !! x = slots h !! (if (x =? i)%nat then j else if (x =? j)%nat then i else x).
Proof.
  destruct (lookup_lt_is_Some_2 _ _ Hi) as [a Ha], (lookup_lt_is_Some_2 _ _ Hj) as [b Hb].
  unfold Swap. rewrite Ha, Hb. cbn [slots]. unfold Len in *.
  destruct (Nat.eqb_spec x j) as [->|Hxj].
  - rewrite list_lookup_insert_eq by (by rewrite length_insert).
    destruct (Nat.eqb_spec j i) as [Hji|]; congruence.
  - rewrite list_lookup_insert_ne by done. destruct (Nat.eqb_spec x i) as [->|].
    + by rewrite list_lookup_insert_eq.
    + by rewrite list_lookup_insert_ne.
Qed.

Lemma Swap_key x :
  key (Swap h i j) x = if (x =? i)%nat then key h j else if (x =? j)%nat then key h i else key h x.
Proof.
  pose proof (Swap_slot x) as Hs. pose proof Swap_same as Hm.
  assert (key (Swap h i j) x = key h (if (x =? i)%nat then j else if (x =? j)%nat then i else x)) as ->.
  { set (y := if (x =? i)%nat then _ else _) in *. destruct (slots h !! y) as [a|] eqn:Ha.
    - rewrite (key_at _ _ _ Hs), (key_at _ _ _ Ha). f_equal. apply essence_readyAt, (essence_at _ _ a Hm).
    - unfold key, item_at. by rewrite Hs, Ha. }
  by repeat destruct (_ =? _)%nat.
Qed.
End swap.

Lemma Less_key h i j : linked h → (i < Len h)%nat → (j < Len h)%nat → Less h i j = (key h i <? key h j).
Proof.
  intros Hl Hi Hj. destruct (linked_item h i Hl Hi) as [x Hx], (linked_item h j Hl Hj) as [y Hy].
  unfold Less, key. by rewrite Hx, Hy.
Qed.

Definition heap_ordered (n : nat) (h : waitingHeap) : Prop := ordered key n h.

(** What exchanges within the first [n] places cannot change. *)
Definition shuffled (h : waitingHeap) (n : nat) (h' : waitingHeap) : Prop :=
  Len h' = Len h ∧ linked h' ∧ same h h' ∧ ∀ i, (n ≤ i)%nat → slots h' !! i = slots h !! i.

Lemma shuffled_refl h n : linked h → shuffled h n h.
Proof. done. Qed.

Lemma Swap_shuffled h n h' i j :
  (n ≤ Len h)%nat → (i < n)%nat → (j < n)%nat → shuffled h n h' → shuffled h n (Swap h' i j).
Proof.
  intros Hn Hi Hj (HL & Hl & Hs & Hfix). split_and!.
  - by rewrite Swap_Len.
  - apply Swap_linked; [done|lia..].
  - etrans; [done|]. apply Swap_same; lia.
  - intros p Hp. rewrite Swap_slot by lia. destruct (Nat.eqb_spec p i), (Nat.eqb_spec p j); [lia..|by apply Hfix].
Qed.

Lemma settle_heap h i n :
  linked h → (i < n ≤ Len h)%nat → ordered_but key (below i) n h → skips key i n h →
  heap_ordered n (settle Less Swap h i n) ∧ shuffled h n (settle Less Swap h i n).
Proof.
  intros Hl Hi Ho Hs. split.
  - apply (settle_ordered Less Swap Len key linked); auto using Swap_linked, Less_key, Swap_Len, Swap_key.
  - apply settle_preserves; [|lia|by apply shuffled_refl]. intros. apply Swap_shuffled; [lia|done..].
Qed.

Lemma down_heap h n :
  linked h → (n ≤ Len h)%nat → ordered_but key (below 0) n h →
  heap_ordered n (down Less Swap n h 0 n).1 ∧ shuffled h n (down Less Swap n h 0 n).1.
Proof.
  intros Hl Hn Ho. split.
  - apply (down_ordered Less Swap Len key linked); auto using Swap_linked, Less_key, Swap_Len, Swap_key;
      [lia|intros ?; lia|lia].
  - destruct n as [|n]; [by apply shuffled_refl|]. apply down_preserves; [|lia|by apply shuffled_refl].
    intros. apply Swap_shuffled; [lia|done..].
Qed.

Lemma up_heap h n :
  linked h → Len h = S n → heap_ordered n h →
  heap_ordered (S n) (up Less Swap (Len h) h n) ∧ shuffled h (S n) (up Less Swap (Len h) h n).
Proof.
  intros Hl Hn Ho. split.
  - apply (up_ordered Less Swap Len key linked); auto using Swap_linked, Less_key, Swap_Len, Swap_key; [lia|lia| |].
    + intros c Hc Hcn. apply Ho; [lia|tauto].
    + intros _ c Hc Hp. pose proof (parent_lt c ltac:(lia)). lia.
  - apply (up_preserves Less Swap _ (S n)); [|lia|by apply shuffled_refl]. intros. apply Swap_shuffled; [lia|done..].
Qed.

Lemma key_ext h h' n :
  (∀ i, (i < n)%nat → slots h' !! i = slots h !! i) → essence <$> memory h' = essence <$> memory h →
  heap_ordered n h → heap_ordered n h'.
Proof.
  intros Hs Hm Ho c Hc Hn. pose proof (parent_lt c ltac:(lia)).
  assert (Hk : ∀ i, (i < n)%nat → key h' i = key h i).
  { intros i Hi. unfold key, item_at. rewrite Hs by done. destruct (slots h !! i) as [a|]; cbn; [|done].
    assert (essence <$> memory h' !! a = essence <$> memory h !! a) as He%essence_readyAt
      by (by rewrite <-!list_lookup_fmap, Hm).
    destruct (memory h' !! a), (memory h !! a); cbn in *; congruence. }
  rewrite !Hk by lia. by apply Ho.
Qed.

Lemma linked_bound h i a : linked h → slots h !! i = Some a → (a < length (memory h))%nat.
Proof. intros Hl Ha. destruct (Hl _ _ Ha) as (it & Hit & _). by eapply lookup_lt_Some. Qed.

Lemma Push_ordered h it : linked h → heap_ordered (Len h) h → heap_ordered (Len h) (Push h it).
Proof.
  intros Hl Ho c Hc _. pose proof (parent_lt c ltac:(lia)).
  assert (Hk : ∀ i, (i < Len h)%nat → key (Push h it) i = key h i).
  { intros i Hi. unfold key, item_at, Push. cbn. rewrite lookup_app_l by done.
    destruct (slots h !! i) as [a|] eqn:Ha; [|done]. cbn. by rewrite lookup_app_l by (by eapply linked_bound). }
  rewrite !Hk by lia. apply Ho; [done|tauto].
Qed.

Lemma Push_linked h it : linked h → linked (Push h it).
Proof.
  intros Hl i a. unfold Push. cbn. intros Ha. apply lookup_app_Some in Ha as [Ha|[Hi Ha]].
  - destruct (Hl _ _ Ha) as (x & Hx & Hix). exists x. split; [|done]. by apply lookup_app_l_Some.
  - apply list_lookup_singleton_Some in Ha as [Hi0 <-]. exists (set_index (Z.of_nat (Len h)) it).
    split; [by rewrite lookup_app_r, Nat.sub_diag by lia|]. cbn. unfold Len. lia.
Qed.

(** A heap, whole. *)
Definition heap_ok (h : waitingHeap) : Prop := linked h ∧ heap_ordered (Len h) h.

Lemma heap_Push_ok h it :
  heap_ok h → heap_ok (heap_Push h it) ∧ slots (heap_Push h it) ≡ₚ slots h ++ [length (memory h)] ∧
    essence <$> memory (heap_Push h it) = (essence <$> memory h) ++ [essence it].
Proof.
  intros [Hl Ho]. assert (HL : Len (Push h it) = S (Len h)) by (unfold Len, Push; cbn; rewrite length_app; cbn; lia).
  destruct (up_heap (Push h it) (Len h)) as [Ho' (HL' & Hl' & [Hp Hm] & _)]; [by apply Push_linked|done| |].
  { apply Push_ordered; done. }
  unfold heap_Push. cbv zeta. replace (Len (Push h it) - 1)%nat with (Len h) by lia. split_and!.
  - split; [done|]. rewrite HL', HL. by rewrite HL in Ho'.
  - done.
  - rewrite Hm. cbn. rewrite fmap_app. done.
Qed.

(** The last item, once it is in the last place. *)
Lemma Pop_ok h n a :
  linked h → Len h = S n → slots h !! n = Some a → heap_ordered n h →
  ∃ h', Pop h = Some (a, h') ∧ heap_ok h' ∧ slots h = slots h' ++ [a] ∧ essence <$> memory h' = essence <$> memory h.
Proof.
  intros Hl HL Ha Ho. unfold Len in *. assert (Hs : slots h = take n (slots h) ++ [a]).
  { rewrite <-(take_drop n (slots h)) at 1. f_equal. erewrite drop_S by done. rewrite drop_ge by lia. done. }
  unfold Pop, Len. rewrite last_lookup, HL. cbn [pred mbind option_bind].
  rewrite Ha. replace (S n - 1)%nat with n by lia. eexists. split; [done|].
  assert (Hm : essence <$> alter (set_index (-1)) a (memory h) = essence <$> memory h) by (by apply essence_alter).
  split_and!; [split| |done].
  - intros i b. cbn. intros [Hb Hi]%lookup_take_Some. destruct (Hl _ _ Hb) as (it & Hit & Hix). exists it.
    split; [|done]. rewrite list_lookup_alter_ne; [done|]. intros <-.
    pose proof (linked_inj h n i a Hl Ha Hb). lia.
  - unfold Len. cbn [slots]. rewrite length_take_le by lia.
    apply (key_ext h); [|done..]. intros i Hi. by apply lookup_take_lt.
  - done.
Qed.

(** A heap whose keys agree with an ordered one everywhere but at [i]. *)
Lemma ordered_but_one h h0 i n :
  heap_ordered n h → (i < n)%nat → (∀ c, (c < n)%nat → c ≠ i → key h0 c = key h c) →
  ordered_but key (below i) n h0 ∧ skips key i n h0.
Proof.
  intros Ho Hi Hk. split.
  - intros c Hc Hb. unfold below in Hb. pose proof (parent_lt c ltac:(lia)). rewrite !Hk by (lia || tauto).
    apply Ho; [lia|tauto].
  - intros Hi0 c Hc Hp. pose proof (parent_lt c ltac:(lia)). pose proof (parent_lt i Hi0). rewrite !Hk by lia.
    etrans; [apply Ho; [lia|tauto]|]. rewrite <-Hp. apply Ho; [lia|tauto].
Qed.

Lemma swap_last_ordered h i n :
  linked h → Len h = S n → heap_ordered (S n) h → (i < n)%nat →
  ordered_but key (below i) n (Swap h i n) ∧ skips key i n (Swap h i n).
Proof.
  intros Hl HL Ho Hi. apply (ordered_but_one h); [|done|].
  - intros c Hc Hf. apply Ho; [lia|done].
  - intros c Hc Hci. rewrite Swap_key by (done || lia). destruct (Nat.eqb_spec c i), (Nat.eqb_spec c n); [lia..|done].
Qed.

(** An item leaves the heap, and nothing else changes. *)
Definition leaves (h : waitingHeap) (a : nat) (r : option (nat * waitingHeap)) : Prop :=
  ∃ h', r = Some (a, h') ∧ heap_ok h' ∧ slots h ≡ₚ a :: slots h' ∧ essence <$> memory h' = essence <$> memory h.

Lemma leaves_last h m n a h1 :
  shuffled h m h1 → linked h → Len h = S n → slots h1 !! n = Some a → heap_ordered n h1 → leaves h a (Pop h1).
Proof.
  intros (HL1 & Hl1 & [Hp1 Hm1] & _) Hl HL Ha Ho.
  destruct (Pop_ok h1 n a) as (h' & -> & Hok & Hs & Hm); [done|by rewrite HL1|done..|].
  exists h'. split_and!; [done|done| |by rewrite Hm].
  rewrite <-Hp1, Hs. by rewrite Permutation_app_comm.
Qed.

Lemma shuffled_swap h n i h1 :
  linked h → Len h = S n → (i ≤ n)%nat → shuffled (Swap h i n) n h1 →
  shuffled h (S n) h1 ∧ slots h1 !! n = slots h !! i.
Proof.
  intros Hl HL Hi (HL1 & Hl1 & Hs1 & Hfix). rewrite Swap_Len in HL1. split.
  - split_and!; [done|done|etrans; [apply (Swap_same h i n); lia|done]|].
    intros p Hp. rewrite (lookup_ge_None_2 (slots h)), lookup_ge_None_2; unfold Len in *; [done|lia..].
  - rewrite Hfix by lia. rewrite Swap_slot by lia. rewrite Nat.eqb_refl.
    destruct (Nat.eqb_spec n i) as [->|]; done.
Qed.

Lemma shuffled_le h n m h' : (n ≤ m)%nat → shuffled h n h' → shuffled h m h'.
Proof. intros ? (? & ? & ? & Hf). split_and!; [done..|]. intros. apply Hf. lia. Qed.

Lemma heap_Remove_ok h i a : heap_ok h → slots h !! i = Some a → leaves h a (heap_Remove h i).
Proof.
  intros [Hl Ho] Ha. pose proof (lookup_lt_Some _ _ _ Ha) as Hi. fold (Len h) in Hi.
  unfold heap_Remove. cbv zeta. destruct (Len h) as [|n] eqn:HL; [lia|]. replace (S n - 1)%nat with n by lia.
  destruct (decide (n = i)) as [->|Hne].
  - eapply (leaves_last h i); [by apply shuffled_refl|done..|]. intros c Hc Hf. apply Ho; [lia|done].
  - destruct (swap_last_ordered h i n) as [Ho1 Hs1]; [done..|lia|].
    destruct (settle_heap (Swap h i n) i n) as [Ho2 Hsh]; [apply Swap_linked; [done|lia..]|rewrite Swap_Len; lia|done..|].
    destruct (shuffled_swap h n i _ Hl HL ltac:(lia) Hsh) as [Hsh' Hn].
    eapply leaves_last; [done..|by rewrite Hn|done].
Qed.

Lemma heap_Pop_ok h a : heap_ok h → slots h !! 0%nat = Some a → leaves h a (heap_Pop h).
Proof.
  intros [Hl Ho] Ha. pose proof (lookup_lt_Some _ _ _ Ha) as Hi. fold (Len h) in Hi.
  unfold heap_Pop. cbv zeta. destruct (Len h) as [|n] eqn:HL; [lia|]. replace (S n - 1)%nat with n by lia.
  destruct (down_heap (Swap h 0 n) n) as [Ho2 Hsh]; [apply Swap_linked; [done|lia..]|rewrite Swap_Len; lia| |].
  { destruct n as [|n]; [intros c; lia|]. by apply swap_last_ordered; [..|lia]. }
  destruct (shuffled_swap h n 0 _ Hl HL ltac:(lia) Hsh) as [Hsh' Hn].
  eapply leaves_last; [done..|by rewrite Hn|done].
Qed.

(** Moving an item forward, then restoring the order. *)
Lemma heap_Fix_ok h i a t :
  heap_ok h → slots h !! i = Some a →
  let h0 := Heap (alter (set_readyAt t) a (memory h)) (slots h) in
  heap_ok (heap_Fix h0 i) ∧ same h0 (heap_Fix h0 i).
Proof.
  intros [Hl Ho] Ha h0. pose proof (lookup_lt_Some _ _ _ Ha) as Hi. fold (Len h) in Hi.
  assert (Hl0 : linked h0).
  { intros p b Hb. destruct (Hl _ _ Hb) as (it & Hit & Hix). unfold h0. cbn [memory].
    destruct (decide (a = b)) as [->|]; [|by rewrite list_lookup_alter_ne; eauto].
    rewrite list_lookup_alter_eq, Hit. cbn. by eexists. }
  assert (Hk : ∀ c, (c < Len h)%nat → c ≠ i → key h0 c = key h c).
  { intros c Hc Hci. unfold key, item_at, h0. cbn [memory slots]. destruct (slots h !! c) as [b|] eqn:Hb; [|done]. cbn.
    rewrite list_lookup_alter_ne; [done|]. intros ->. by pose proof (linked_inj h c i b Hl Hb Ha). }
  destruct (ordered_but_one h h0 i (Len h) Ho Hi Hk) as [Hb Hsk].
  destruct (settle_heap h0 i (Len h)) as [Ho' (HL' & Hl' & Hs & _)]; [done..|].
  split; [|done]. split; [done|]. unfold heap_Fix. change (Len h0) with (Len h) in *. by rewrite HL'.
Qed.

(** ** The index and the heap agree *)

(** Address [a] is in the heap and holds entity [e], due at [t]. *)
Definition holds (h : waitingHeap) (a : nat) (e : string) (t : Time) : Prop :=
  a ∈ slots h ∧ essence <$> memory h !! a = Some (Build_Request e, t).

Definition queue_ok (w : waiting) : Prop :=
  heap_ok (heap w) ∧ ∀ e a, pending w !! e = Some a ↔ ∃ t, holds (heap w) a e t.

Lemma due_times_spec w e t : queue_ok w → due_times w !! e = Some t ↔ ∃ a, holds (heap w) a e t.
Proof.
  intros [_ Hidx]. unfold due_times. rewrite lookup_omap. split.
  - intros Ht. destruct (pending w !! e) as [a|] eqn:Hp; [|done]. cbn in Ht.
    apply Hidx in Hp as (t' & Hin & Hm). exists a. split; [done|]. rewrite Hm.
    destruct (memory (heap w) !! a); cbn in *; [|done]. unfold essence in *. by simplify_eq.
  - intros (a & Hin & Hm). rewrite (proj2 (Hidx e a)) by (exists t; done). cbn.
    destruct (memory (heap w) !! a) as [it|]; [|done]. unfold essence in Hm. cbn in *. by simplify_eq.
Qed.

Lemma linked_NoDup h : linked h → NoDup (slots h).
Proof. intros Hl. apply NoDup_alt. intros. by eapply linked_inj. Qed.

Lemma holds_same h h' a e t : same h h' → holds h' a e t ↔ holds h a e t.
Proof. intros Hs. unfold holds. rewrite (essence_at h h' a Hs). destruct Hs as [-> _]. done. Qed.

Lemma holds_fun h a e e' t t' : holds h a e t → holds h a e' t' → e = e' ∧ t = t'.
Proof. intros [_ H] [_ H']. rewrite H in H'. by simplify_eq. Qed.

Lemma item_holds h a it : a ∈ slots h → memory h !! a = Some it → holds h a (EntityID (req it)) (readyAt it).
Proof. intros Ha Hm. split; [done|]. rewrite Hm. unfold essence. by destruct it as [[?] ? ?]. Qed.

(** An item leaves the heap and its entity the index. *)
Lemma leave_ok w a e t h' :
  queue_ok w → holds (heap w) a e t → leaves (heap w) a (Some (a, h')) →
  let w' := Waiting h' (delete e (pending w)) in
  queue_ok w' ∧ due_times w' = delete e (due_times w) ∧ Len (heap w) = S (Len h') ∧
  essence <$> memory h' !! a = Some (Build_Request e, t).
Proof.
  intros [[Hl Ho] Hidx] Ha (h1 & [= <-] & Hok & Hperm & Hm) w'.
  pose proof (linked_NoDup _ Hl) as Hnd. rewrite Hperm in Hnd. apply NoDup_cons in Hnd as [Hna Hnd].
  assert (Hes : ∀ b, essence <$> memory h' !! b = essence <$> memory (heap w) !! b)
    by (intros b; by rewrite <-!list_lookup_fmap, Hm).
  assert (Hh : ∀ b e' t', holds h' b e' t' ↔ e' ≠ e ∧ holds (heap w) b e' t').
  { intros b e' t'. unfold holds. rewrite Hes, Hperm, elem_of_cons. split; [|intros (Hne & [->|] & Hb)].
    - intros [Hin Hb]. split; [|by auto]. intros ->. destruct Ha as [Hain Haes]. 
      assert (pending w !! e = Some a) as Hpa by (apply Hidx; eexists; by split).
      assert (pending w !! e = Some b) as Hpb.
      { apply Hidx. exists t'. split; [|done]. rewrite Hperm. by apply elem_of_cons; right. }
      by simplify_eq.
    - destruct Ha as [_ Ha]. by simplify_eq.
    - done. }
  assert (Hok' : queue_ok w').
  { split; [done|]. intros e' b. cbn. rewrite lookup_delete_Some, Hidx. setoid_rewrite Hh. naive_solver. }
  split_and!; [done| | |by rewrite Hes; apply Ha].
  - apply map_eq. intros e'. apply option_eq. intros t'.
    rewrite (due_times_spec w' _ _ Hok'), lookup_delete_Some, due_times_spec by done.
    cbn. setoid_rewrite Hh. naive_solver.
  - unfold Len. by rewrite Hperm.
Qed.

Lemma pending_slot w e a : queue_ok w → pending w !! e = Some a →
  ∃ it i, memory (heap w) !! a = Some it ∧ slots (heap w) !! i = Some a ∧ index it = Z.of_nat i ∧
    EntityID (req it) = e ∧ holds (heap w) a e (readyAt it).
Proof.
  intros [[Hl _] Hidx] Hp. apply Hidx in Hp as (t & Hin & Hm). pose proof Hin as [i Hi]%list_elem_of_lookup.
  destruct (Hl _ _ Hi) as (it & Hit & Hix). exists it, i. rewrite Hit in Hm. unfold essence in Hm. cbn in Hm.
  injection Hm as Hr Ht. split_and!; [done..|by rewrite Hr|]. split; [done|]. rewrite Hit. unfold essence. cbn. by rewrite Hr.
Qed.

Lemma due_times_None w e : queue_ok w → pending w !! e = None → due_times w !! e = None.
Proof. intros _ Hp. unfold due_times. by rewrite lookup_omap, Hp. Qed.

Lemma cancelPending_ok w id :
  queue_ok w → queue_ok (cancelPending w id) ∧ due_times (cancelPending w id) = delete id (due_times w).
Proof.
  intros Hok. unfold cancelPending. destruct (pending w !! id) as [a|] eqn:Hp; cbn [mbind option_bind].
  - destruct (pending_slot w id a Hok Hp) as (it & i & Hit & Hi & Hix & He & Hh). rewrite Hit, Hix, Nat2Z.id.
    pose proof (heap_Remove_ok (heap w) i a (proj1 Hok) Hi) as Hlv. destruct Hlv as (h' & Heq & Hlv).
    rewrite Heq. destruct (leave_ok w a id (readyAt it) h') as (? & ? & _); [done..|by exists h'|done].
  - split; [done|]. by rewrite delete_id by (by apply due_times_None).
Qed.

Lemma addOrMerge_new w item :
  queue_ok w → pending w !! EntityID (req item) = None →
  let w' := Waiting (heap_Push (heap w) item) (<[EntityID (req item) := length (memory (heap w))]> (pending w)) in
  queue_ok w' ∧ due_times w' = <[EntityID (req item) := readyAt item]> (due_times w).
Proof.
  intros [Hok Hidx] Hp w'. destruct (heap_Push_ok (heap w) item Hok) as (Hok' & Hs & Hm).
  assert (Hh : ∀ b e t, holds (heap_Push (heap w) item) b e t ↔
    (b = length (memory (heap w)) ∧ e = EntityID (req item) ∧ t = readyAt item) ∨ holds (heap w) b e t).
  { intros b e t. unfold holds. rewrite <-!list_lookup_fmap, Hs, Hm, elem_of_app, list_elem_of_singleton, lookup_snoc_Some, length_fmap.
    split.
    - intros [Hin [[Hlt Hb]|[-> Hb]]].
      + right. split; [|done]. destruct Hin as [| ->]; [done|lia].
      + left. destruct item as [[?] ? ?]. unfold essence in Hb. cbn in *. by simplify_eq.
    - intros [(-> & -> & ->)|[Hin Hb]].
      + split; [by right|]. right. split; [done|]. by destruct item as [[?] ? ?].
      + split; [by left|]. left. split; [|done]. apply lookup_lt_Some in Hb. by rewrite length_fmap in Hb. }
  assert (Hno : ∀ b t, ¬ holds (heap w) b (EntityID (req item)) t).
  { intros b t Hb. assert (pending w !! EntityID (req item) = Some b) by (apply Hidx; eauto). congruence. }
  assert (Hok2 : queue_ok w').
  { split; [done|]. intros e b. cbn. setoid_rewrite Hh. rewrite lookup_insert_Some, Hidx. naive_solver. }
  split; [done|]. apply map_eq. intros e. apply option_eq. intros t.
  rewrite due_times_spec by done. cbn. setoid_rewrite Hh. rewrite lookup_insert_Some, due_times_spec by done. naive_solver.
Qed.

Lemma addOrMerge_sooner w item a it i :
  queue_ok w → slots (heap w) !! i = Some a → memory (heap w) !! a = Some it →
  EntityID (req it) = EntityID (req item) →
  let h := Heap (alter (set_readyAt (readyAt item)) a (memory (heap w))) (slots (heap w)) in
  let w' := Waiting (heap_Fix h i) (pending w) in
  queue_ok w' ∧ due_times w' = <[EntityID (req item) := readyAt item]> (due_times w).
Proof.
  intros [Hok Hidx] Hi Hit He h w'. destruct (heap_Fix_ok (heap w) i a (readyAt item) Hok Hi) as [Hok' Hsame]. fold h in Hok', Hsame.
  assert (Hin : a ∈ slots (heap w)) by (by eapply list_elem_of_lookup_2).
  assert (Hh : ∀ b e t, holds (heap_Fix h i) b e t ↔
    (b = a ∧ e = EntityID (req item) ∧ t = readyAt item) ∨ (b ≠ a ∧ holds (heap w) b e t)).
  { intros b e t. rewrite (holds_same h) by done. unfold holds, h. cbn [slots memory].
    destruct (decide (b = a)) as [->|].
    - rewrite list_lookup_alter_eq, Hit. unfold essence. destruct it as [[?] ? ?]. cbn in *. naive_solver.
    - rewrite list_lookup_alter_ne by done. naive_solver. }
  pose proof (item_holds _ _ _ Hin Hit) as Hold. rewrite He in Hold.
  assert (Hpa : pending w !! EntityID (req item) = Some a) by (apply Hidx; eauto).
  assert (Hone : ∀ b t, holds (heap w) b (EntityID (req item)) t → b = a).
  { intros b t Hb. assert (pending w !! EntityID (req item) = Some b) by (apply Hidx; eauto). congruence. }
  assert (Hok2 : queue_ok w').
  { split; [done|]. intros e b. cbn. setoid_rewrite Hh. rewrite Hidx. split.
    - intros [t Ht]. destruct (decide (b = a)) as [->|]; [|by eauto].
      destruct (holds_fun _ _ _ _ _ _ Ht Hold) as [-> _]. eauto.
    - naive_solver. }
  split; [done|]. apply map_eq. intros e. apply option_eq. intros t.
  rewrite due_times_spec by done. cbn. setoid_rewrite Hh. rewrite lookup_insert_Some, due_times_spec by done. split.
  - intros (b & [(-> & -> & ->)|[Hb Ht]]); [by left|]. right. split; [|by eauto]. intros <-. by apply Hone in Ht.
  - intros [[<- <-]|[Hne [b Hb]]]; [by eauto|]. exists b. right. split; [|done]. intros ->.
    by destruct (holds_fun _ _ _ _ _ _ Hb Hold).
Qed.

Lemma addOrMergeWaiting_ok w item :
  queue_ok w → queue_ok (addOrMergeWaiting w item) ∧
    due_times (addOrMergeWaiting w item) = requeue (due_times w) (EntityID (req item)) (readyAt item).
Proof.
  intros Hok. unfold addOrMergeWaiting, requeue. destruct (pending w !! EntityID (req item)) as [a|] eqn:Hp; cbn [mbind option_bind].
  - destruct (pending_slot w _ a Hok Hp) as (it & i & Hit & Hi & Hix & He & Hh). rewrite Hit. cbn [fmap option_fmap option_map].
    assert (Hd : due_times w !! EntityID (req item) = Some (readyAt it)) by (apply due_times_spec; eauto).
    rewrite Hd. cbn [from_option]. unfold Before. destruct (Z.ltb_spec (readyAt item) (readyAt it)).
    + rewrite Hix, Nat2Z.id, Z.min_l by lia. by eapply addOrMerge_sooner.
    + rewrite Z.min_r by lia. split; [done|]. by rewrite insert_id.
  - rewrite (due_times_None w) by done. cbn [from_option]. by apply addOrMerge_new.
Qed.

(** ** The promise is kept *)

Lemma root_least w top :
  queue_ok w → item_at (heap w) 0 = Some top →
  ∃ a, slots (heap w) !! 0%nat = Some a ∧ holds (heap w) a (EntityID (req top)) (readyAt top) ∧
    due_times w !! EntityID (req top) = Some (readyAt top) ∧ map_Forall (λ _ t', readyAt top ≤ t') (due_times w).
Proof.
  intros Hok Htop. unfold item_at in Htop. destruct (slots (heap w) !! 0%nat) as [a|] eqn:Ha; [|done]. cbn in Htop.
  assert (Hh : holds (heap w) a (EntityID (req top)) (readyAt top)) by (apply item_holds; [by eapply list_elem_of_lookup_2|done]).
  exists a. split_and!; [done|done|apply due_times_spec; eauto|].
  intros e t (b & Hin & Hm)%due_times_spec; [|done]. apply list_elem_of_lookup in Hin as [i Hi].
  pose proof (ordered_root key (Len (heap w)) (heap w) (proj2 (proj1 Hok)) i (lookup_lt_Some _ _ _ Hi)) as Hle.
  rewrite (key_at _ _ _ Ha), (key_at _ _ _ Hi), Htop in Hle. destruct (memory (heap w) !! b) as [it|]; [|done].
  unfold essence in Hm. cbn in *. by simplify_eq.
Qed.

Lemma no_root w : queue_ok w → item_at (heap w) 0 = None → due_times w = ∅.
Proof.
  intros Hok Hn. apply map_empty. intros e. apply eq_None_not_Some. intros [t (a & Hin & _)%due_times_spec]; [|done].
  apply list_elem_of_lookup in Hin as [i Hi%lookup_lt_Some].
  destruct (linked_item (heap w) 0 (proj1 (proj1 Hok))) as [it Hit]; [unfold Len; lia|congruence].
Qed.

Lemma nextWaitingDelay_ok w now : queue_ok w → arms (due_times w) now (nextWaitingDelay (heap w) now).
Proof.
  intros Hok. unfold nextWaitingDelay. destruct (item_at (heap w) 0) as [top|] eqn:Htop.
  - destruct (root_least w top Hok Htop) as (a & _ & _ & He & Hmin).
    pose proof (arms_earliest (due_times w) now _ _ He Hmin) as Harm. cbv zeta.
    destruct (Z.ltb_spec (Sub (readyAt top) now) 0); [rewrite Z.max_l in Harm by lia|rewrite Z.max_r in Harm by lia]; done.
  - apply arms_idle. by apply no_root.
Qed.

Section delivery.
Context (m : gmap string Time) (now : Time).

Lemma delivers_none stop : map_Forall (λ _ t, now < t) m → delivers m now stop [] true m.
Proof.
  intros Hm. assert (filter (λ kv, kv.2 ≤ now) m = ∅) as He.
  { apply map_empty_filter. intros e t Ht. specialize (Hm e t Ht). cbn in *. lia. }
  assert (filter (λ kv, now < kv.2) m = m) as Hf by (apply map_filter_id; intros e t Ht; by apply (Hm e t)).
  rewrite <-Hf at 2. apply (delivers_all m now stop []); [by rewrite He, map_to_list_empty|constructor|]. intros; cbn; lia.
Qed.

Context (e : string) (t : Time) (He : m !! e = Some t) (Ht : t ≤ now) (Hmin : map_Forall (λ _ t', t ≤ t') m).

Lemma due_cons l :
  l ≡ₚ map_to_list (filter (λ kv, kv.2 ≤ now) (delete e m)) →
  (e, t) :: l ≡ₚ map_to_list (filter (λ kv, kv.2 ≤ now) m).
Proof.
  intros ->. rewrite <-(insert_delete_id m e t He) at 2. rewrite map_filter_insert_True by done.
  rewrite map_to_list_insert; [done|]. apply map_lookup_filter_None_2. left. apply lookup_delete_eq.
Qed.

Lemma due_sorted l :
  l ≡ₚ map_to_list (filter (λ kv, kv.2 ≤ now) (delete e m)) →
  Sorted earlier l → Sorted earlier ((e, t) :: l).
Proof.
  intros Hl Hs. constructor; [done|]. destruct l as [|[e' t'] l]; constructor. cbn.
  assert ((e', t') ∈ map_to_list (filter (λ kv, kv.2 ≤ now) (delete e m))) as Hin by (rewrite <-Hl; set_solver).
  apply elem_of_map_to_list, map_lookup_filter_Some in Hin as [[_ Hin]%lookup_delete_Some _]. by apply (Hmin e').
Qed.

Lemma delivers_cons stop out ok m' :
  stop ≠ Some O → delivers (delete e m) now (pred <$> stop) out ok m' → delivers m now stop (Build_Request e :: out) ok m'.
Proof.
  intros Hstop Hd. inversion Hd as [stop' due Hp Hs Hk|k due x rest m1 Hp Hs Hk Hm]; subst.
  - replace (filter (λ kv, now < kv.2) (delete e m)) with (filter (λ kv, now < kv.2) m).
    2: { apply map_eq. intros e'. apply option_eq. intros t'. rewrite !map_lookup_filter_Some, lookup_delete_Some. cbn.
         split; [|tauto]. intros [Hm Hlt]. split_and!; [|done..]. intros ->. rewrite He in Hm. simplify_eq. lia. }
    apply (delivers_all m now stop ((e, t) :: due)); [by apply due_cons|by apply due_sorted|].
    intros [|k] ->; [done|]. cbn in *. specialize (Hk k eq_refl). lia.
  - destruct stop as [[|n]|]; [done| |done]. cbn in *. simplify_eq.
    apply (delivers_some m now _ ((e, t) :: due) x rest); [by apply due_cons|by apply due_sorted|done|].
    apply map_eq. intros e'. apply option_eq. intros t'. rewrite !map_lookup_filter_Some, lookup_delete_Some. cbn.
    rewrite !not_elem_of_cons. naive_solver.
Qed.

Lemma delivers_stop : delivers m now (Some O) [] false (delete e m).
Proof.
  set (l := merge_sort earlier (map_to_list (filter (λ kv, kv.2 ≤ now) (delete e m)))).
  assert (Hl : l ≡ₚ map_to_list (filter (λ kv, kv.2 ≤ now) (delete e m))) by apply merge_sort_Permutation.
  apply (delivers_some m now O [] (e, t) l); [by apply due_cons| |done|].
  - apply due_sorted; [done|]. apply Sorted_merge_sort, _.
  - apply map_eq. intros e'. apply option_eq. intros t'. rewrite map_lookup_filter_Some, lookup_delete_Some. cbn.
    rewrite list_elem_of_singleton. naive_solver.
Qed.
End delivery.

Lemma pop_ready_None w now : queue_ok w → pop_ready w now = None → map_Forall (λ _ t, now < t) (due_times w).
Proof.
  intros Hok. unfold pop_ready. destruct (item_at (heap w) 0) as [top|] eqn:Htop; cbn [mbind option_bind].
  2: { intros _. rewrite no_root by done. by apply map_Forall_empty. }
  destruct (root_least w top Hok Htop) as (a & Ha & Hh & _ & Hmin). unfold After.
  destruct (Z.ltb_spec now (readyAt top)) as [Hlt|Hle].
  { intros _ e t Het. specialize (Hmin e t Het). cbn in *. lia. }
  destruct (heap_Pop_ok (heap w) a (proj1 Hok) Ha) as (h' & Heq & Hlv). rewrite Heq. cbn [mbind option_bind].
  destruct (leave_ok w a _ _ h' Hok Hh) as (_ & _ & _ & Hes); [by exists h'|]. by destruct (memory h' !! a).
Qed.

Lemma pop_ready_Some w now r w' :
  queue_ok w → pop_ready w now = Some (r, w') →
  queue_ok w' ∧ due_times w' = delete (EntityID r) (due_times w) ∧ Len (heap w) = S (Len (heap w')) ∧
  ∃ t, due_times w !! EntityID r = Some t ∧ t ≤ now ∧ map_Forall (λ _ t', t ≤ t') (due_times w).
Proof.
  intros Hok. unfold pop_ready. destruct (item_at (heap w) 0) as [top|] eqn:Htop; cbn [mbind option_bind]; [|done].
  destruct (root_least w top Hok Htop) as (a & Ha & Hh & He & Hmin). unfold After.
  destruct (Z.ltb_spec now (readyAt top)) as [Hlt|Hle]; [done|].
  destruct (heap_Pop_ok (heap w) a (proj1 Hok) Ha) as (h' & Heq & Hlv). rewrite Heq. cbn [mbind option_bind].
  destruct (leave_ok w a _ _ h' Hok Hh) as (Hok' & Hdue & HL & Hes); [by exists h'|].
  destruct (memory h' !! a) as [it|]; [|done]. cbn [mbind option_bind].
  assert (req it = req top) as -> by (unfold essence in Hes; cbn in Hes; destruct (req top); cbn in *; by simplify_eq).
  intros [= <- <-]. split_and!; [done..|]. exists (readyAt top). split_and!; [done|lia|done].
Qed.

Lemma drain_ok fuel : ∀ w now stop w' out ok,
  queue_ok w → (Len (heap w) ≤ fuel)%nat → drain fuel w now stop = (w', out, ok) →
  queue_ok w' ∧ delivers (due_times w) now stop out ok (due_times w').
Proof.
  induction fuel as [|f IH]; intros w now stop w' out ok Hok Hlen; cbn [drain].
  { intros [= <- <- <-]. split; [done|]. apply delivers_none. rewrite no_root; [by apply map_Forall_empty|done|].
    unfold item_at. by rewrite lookup_ge_None_2 by (unfold Len in Hlen; lia). }
  destruct (pop_ready w now) as [[r w1]|] eqn:Hp.
  2: { intros [= <- <- <-]. split; [done|]. apply delivers_none. by apply pop_ready_None. }
  destruct (pop_ready_Some w now r w1 Hok Hp) as (Hok1 & Hdue & HL & t & Ht & Hle & Hmin).
  destruct (decide (stop = Some O)) as [->|Hne].
  { intros [= <- <- <-]. split; [done|]. rewrite Hdue. by eapply delivers_stop. }
  intros Hd. assert (∃ out', drain f w1 now (pred <$> stop) = (w', out', ok) ∧ out = r :: out') as (out' & Hrec & ->).
  { destruct stop as [[|n]|]; [done| |]; destruct (drain _ _ _ _) as [[??]?]; simplify_eq; eauto. }
  apply IH in Hrec as [Hokw Hdel]; [|done|lia]. split; [done|]. rewrite Hdue in Hdel.
  destruct r as [e]. by eapply delivers_cons.
Qed.

Lemma no_items_ok : queue_ok no_items.
Proof.
  split; [split|].
  - intros i a. done.
  - intros c Hc. cbn in Hc. lia.
  - intros e a. cbn. rewrite lookup_empty. split; [done|]. intros (t & Hin & _). cbn in Hin. by apply not_elem_of_nil in Hin.
Qed.

Lemma round_ok w t w' shows go :
  queue_ok w → waiting_round w t = (w', shows, go) → queue_ok w' ∧ promised (due_times w) t shows go (due_times w').
Proof.
  intros Hok. unfold waiting_round. destruct (drainReadyItems w (drained_at t) (room t)) as [[w1 out] ok] eqn:Hd.
  apply drain_ok in Hd as [Hok1 Hdel]; [|done..]. destruct ok; cbn [negb].
  2: { intros [= <- <- <-]. split; [done|]. by constructor. }
  pose proof (promised_round (due_times w) t out _ _ Hdel (nextWaitingDelay_ok w1 (armed_at t) Hok1)) as Hp.
  destruct (woken_by t) as [|item|id|]; intros [= <- <- <-]; [done| | |done].
  - destruct (addOrMergeWaiting_ok w1 item Hok1) as [? Heq]. by rewrite Heq.
  - destruct (cancelPending_ok w1 id Hok1) as [? Heq]. by rewrite Heq.
Qed.

(** C11: the delaying queue keeps its promise whatever it is woken by.  In every run of
    waitingLoop from the empty queue (heap, shared items and index as loop.go keeps
    them) the requests sent are those due, earliest first, one for each entity; an
    addition keeps the earlier of two times; a cancelled entity is not sent; the
    timer is armed for the earliest time left, or for a day; and a run that ends in
    the middle of a delivery has sent a prefix of what was due. *)
Theorem delaying_queue_refines turns :
  let '(w, shows) := waitingLoop no_items turns in kept ∅ turns shows (due_times w).
Proof.
  assert (due_times no_items = ∅) as <- by (unfold due_times; apply omap_empty).
  pose proof no_items_ok as Hok. revert Hok. generalize no_items.
  induction turns as [|t turns IH]; intros w0 Hok; cbn [waitingLoop]; [constructor|].
  destruct (waiting_round w0 t) as [[w1 s1] go] eqn:Hr. apply round_ok in Hr as [Hok1 Hp]; [|done]. destruct go.
  - specialize (IH w1 Hok1). destruct (waitingLoop w1 turns) as [w2 rest]. by eapply kept_more.
  - by apply kept_done.
Qed.
