(* ===== verification/ReconcileLoop.v ===== *)
(** * kernel/reconcile: the scheduling loop

    One run (or one lease term) of loop.go's Loop as an interleaving of its
    goroutines: the feeder, the workers, the delaying queue and the channels between
    them.  A step is one critical section, one channel operation or one reading of
    the clock, chosen by an action, so an execution is a list of actions. *)

From S2P Require Import Prelude Reconcile ReconcileQueue.

(** ** The run *)

Definition defaultReconcileInterval : Duration := 30 * Second.
Definition queueBuffer : nat := 1024.
Definition addChBuffer : nat := 256.

(** The fields of Loop the goroutines read, with the sizes of the channels. *)
Record Loop : Type := MkLoop {
  interval : Duration;
  noDefaultRequeue : bool;
  queue_cap : nat;
  add_cap : nat
}.

(** What a worker does once it has sent its item: finish process, or return from it. *)
Inductive afterwards : Type := ToComplete (l : resultLabel) | ToIdle.

(** Where a worker is: in the select of runWorker; in Reconcile; about to read the
    clock in enqueueDelayed; at the send of enqueueDelayed; at the send of
    enqueueCancel; at the second lock of process; gone. *)
Inductive worker : Type :=
| WIdle
| WReconciling (r : Request)
| WEnqueue (r : Request) (delay : Duration) (next : afterwards)
| WSending (it : waitingItem) (next : afterwards)
| WCancelling (r : Request)
| WDispatched (r : Request) (l : resultLabel)
| WExited.

Inductive feeder_at : Type := FIdle | FHolding (r : Request) | FExited.

(** waitingLoop: before drainReadyItems; in its loop, with the time it was given; at
    its send; in the select, with the time the timer fires at; gone. *)
Inductive queue_at : Type :=
| QTop
| QDraining (now : Time)
| QSending (now : Time) (r : Request)
| QArmed (fires : Time)
| QExited.

Record run : Type := Run {
  clock : Time;
  done : bool;
  source : list Request;
  feeder : feeder_at;
  queue : list Request;
  addCh : list waitingItem;
  cancelCh : list string;
  processing : gset string;
  dirty : gmap string Request;
  workers : list worker;
  waits : waiting;
  waiter : queue_at;
  backoff : entityBackoff
}.

(** spawnActive, with [n] workers. *)
Definition spawnActive (now : Time) (n : nat) (b m : Duration) : run :=
  Run now false [] FIdle [] [] [] ∅ ∅ (replicate n WIdle) no_items QTop (newEntityBackoff b m).

Definition set_worker (i : nat) (w : worker) (s : run) : run :=
  Run (clock s) (done s) (source s) (feeder s) (queue s) (addCh s) (cancelCh s) (processing s) (dirty s)
      (<[i := w]> (workers s)) (waits s) (waiter s) (backoff s).
Definition set_queue (q : list Request) (s : run) : run :=
  Run (clock s) (done s) (source s) (feeder s) q (addCh s) (cancelCh s) (processing s) (dirty s)
      (workers s) (waits s) (waiter s) (backoff s).
Definition set_feed (q : list Request) (f : feeder_at) (s : run) : run :=
  Run (clock s) (done s) q f (queue s) (addCh s) (cancelCh s) (processing s) (dirty s)
      (workers s) (waits s) (waiter s) (backoff s).
Definition set_chans (adds : list waitingItem) (cancels : list string) (s : run) : run :=
  Run (clock s) (done s) (source s) (feeder s) (queue s) adds cancels (processing s) (dirty s)
      (workers s) (waits s) (waiter s) (backoff s).
Definition set_marks (p : gset string) (d : gmap string Request) (s : run) : run :=
  Run (clock s) (done s) (source s) (feeder s) (queue s) (addCh s) (cancelCh s) p d
      (workers s) (waits s) (waiter s) (backoff s).
Definition set_waits (w : waiting) (q : queue_at) (s : run) : run :=
  Run (clock s) (done s) (source s) (feeder s) (queue s) (addCh s) (cancelCh s) (processing s) (dirty s)
      (workers s) w q (backoff s).
Definition set_backoff (b : entityBackoff) (s : run) : run :=
  Run (clock s) (done s) (source s) (feeder s) (queue s) (addCh s) (cancelCh s) (processing s) (dirty s)
      (workers s) (waits s) (waiter s) b.
Definition set_env (t : Time) (d : bool) (s : run) : run :=
  Run t d (source s) (feeder s) (queue s) (addCh s) (cancelCh s) (processing s) (dirty s)
      (workers s) (waits s) (waiter s) (backoff s).

(** What a step shows of the requests: one accepted from the trigger, a reconcile
    begun, a reconcile ended, a trigger coalesced with a dead-lettered reconcile. *)
Inductive event : Type :=
| Triggered (e : string)
| Started (e : string)
| Ended (e : string) (l : resultLabel)
| Suppressed (e : string).

Inductive action : Type :=
| Tick (d : Duration)
| Trigger (r : Request)
| Stop
| Feed
| FeedStop
| Take (i : nat)
| Reconcile (i : nat) (out : reconciled)
| Stamp (i : nat)
| Send (i : nat)
| Abandon (i : nat)
| Complete (i : nat)
| Exit (i : nat)
| Wait
| WaitAdd
| WaitCancel
| WaitTimer
| WaitStop.

Section step.
Context (out_of_range : Z → Z) (L : Loop).

(** process, up to the call of Reconcile. *)
Definition begin_process (s : run) (i : nat) (r : Request) : run * list event :=
  if decide (EntityID r ∈ processing s) then (set_marks (processing s) (<[EntityID r := r]> (dirty s)) s, [])
  else (set_worker i (WReconciling r) (set_marks ({[EntityID r]} ∪ processing s) (dirty s) s), [Started (EntityID r)]).

(** dispatch, up to its channel operation. *)
Definition dispatch (s : run) (i : nat) (r : Request) (res : Result) (label : resultLabel) : run :=
  match label with
  | resultSuccess =>
      let s := set_backoff (Forget (backoff s) (EntityID r)) s in
      let delay := normalizedRequeueAfter res in
      if delay <=? 0 then
        if noDefaultRequeue L then set_worker i (WDispatched r label) s
        else set_worker i (WEnqueue r (interval L) (ToComplete label)) s
      else set_worker i (WEnqueue r delay (ToComplete label)) s
  | resultPermanent =>
      set_worker i (WCancelling r) (set_backoff (Forget (backoff s) (EntityID r)) s)
  | _ =>
      let '(b, delay) := When out_of_range (backoff s) (EntityID r) in
      set_worker i (WEnqueue r delay (ToComplete label)) (set_backoff b s)
  end.

(** The rest of process from the return of Reconcile to the requeue. *)
Definition reconcile (s : run) (i : nat) (r : Request) (out : reconciled) : run * list event :=
  let '(res, err) := recoverReconcile (EntityID r) out in
  let label := classify err in
  (dispatch s i r res label, [Ended (EntityID r) label]).

(** enqueueDelayed, the clock. *)
Definition stamp (s : run) (r : Request) (delay : Duration) : waitingItem :=
  WaitingItem r (if 0 <? delay then clock s + delay else clock s) 0.

(** The second critical section of process, and the decision it takes. *)
Definition complete (s : run) (i : nat) (r : Request) (label : resultLabel) : run * list event :=
  let e := EntityID r in
  let s' := set_marks (processing s ∖ {[e]}) (delete e (dirty s)) s in
  match dirty s !! e with
  | Some dirtyReq =>
      match label with
      | resultPermanent => (set_worker i WIdle s', [Suppressed e])
      | _ => (set_worker i (WEnqueue dirtyReq 0 ToIdle) s', [])
      end
  | None => (set_worker i WIdle s', [])
  end.

Definition resume (it : waitingItem) (next : afterwards) : worker :=
  match next with ToComplete l => WDispatched (req it) l | ToIdle => WIdle end.

(** [None]: the action cannot be taken.  Build makes the source channel and nothing
    in the package closes it, so feedFromSource never sees it closed. *)
Definition step (s : run) (a : action) : option (run * list event) :=
  match a with
  | Tick d => if 0 <=? d then Some (set_env (clock s + d) (done s) s, []) else None
  | Trigger r =>
      if (length (source s) <? queue_cap L)%nat then
        Some (set_feed (source s ++ [r]) (feeder s) s, [Triggered (EntityID r)])
      else None
  | Stop => Some (set_env (clock s) true s, [])
  | Feed =>
      match feeder s, source s with
      | FIdle, r :: rest => Some (set_feed rest (FHolding r) s, [])
      | FHolding r, _ =>
          if (length (queue s) <? queue_cap L)%nat then
            Some (set_feed (source s) FIdle (set_queue (queue s ++ [r]) s), [])
          else None
      | _, _ => None
      end
  | FeedStop => match feeder s, done s with
                | FExited, _ | _, false => None
                | _, true => Some (set_feed (source s) FExited s, [])
                end
  | Take i =>
      match workers s !! i, queue s with
      | Some WIdle, r :: rest => Some (begin_process (set_queue rest s) i r)
      | _, _ => None
      end
  | Reconcile i out =>
      match workers s !! i with
      | Some (WReconciling r) => Some (reconcile s i r out)
      | _ => None
      end
  | Stamp i =>
      match workers s !! i with
      | Some (WEnqueue r delay next) => Some (set_worker i (WSending (stamp s r delay) next) s, [])
      | _ => None
      end
  | Send i =>
      match workers s !! i with
      | Some (WSending it next) =>
          if (length (addCh s) <? add_cap L)%nat then
            Some (set_worker i (resume it next) (set_chans (addCh s ++ [it]) (cancelCh s) s), [])
          else None
      | Some (WCancelling r) =>
          if (length (cancelCh s) <? add_cap L)%nat then
            Some (set_worker i (WDispatched r resultPermanent) (set_chans (addCh s) (cancelCh s ++ [EntityID r]) s), [])
          else None
      | _ => None
      end
  | Abandon i =>
      if done s then
        match workers s !! i with
        | Some (WSending it next) => Some (set_worker i (resume it next) s, [])
        | Some (WCancelling r) => Some (set_worker i (WDispatched r resultPermanent) s, [])
        | _ => None
        end
      else None
  | Complete i =>
      match workers s !! i with
      | Some (WDispatched r label) => Some (complete s i r label)
      | _ => None
      end
  | Exit i =>
      match workers s !! i, done s with
      | Some WIdle, true => Some (set_worker i WExited s, [])
      | _, _ => None
      end
  | Wait =>
      match waiter s with
      | QTop => Some (set_waits (waits s) (QDraining (clock s)) s, [])
      | QDraining now =>
          match pop_ready (waits s) now with
          | Some (r, w) => Some (set_waits w (QSending now r) s, [])
          | None =>
              Some (set_waits (waits s) (QArmed (clock s + nextWaitingDelay (heap (waits s)) (clock s))) s, [])
          end
      | QSending now r =>
          if (length (queue s) <? queue_cap L)%nat then
            Some (set_waits (waits s) (QDraining now) (set_queue (queue s ++ [r]) s), [])
          else None
      | _ => None
      end
  | WaitAdd =>
      match waiter s, addCh s with
      | QArmed _, it :: rest =>
          Some (set_waits (addOrMergeWaiting (waits s) it) QTop (set_chans rest (cancelCh s) s), [])
      | _, _ => None
      end
  | WaitCancel =>
      match waiter s, cancelCh s with
      | QArmed _, id :: rest =>
          Some (set_waits (cancelPending (waits s) id) QTop (set_chans (addCh s) rest s), [])
      | _, _ => None
      end
  | WaitTimer =>
      match waiter s with
      | QArmed t => if t <=? clock s then Some (set_waits (waits s) QTop s, []) else None
      | _ => None
      end
  | WaitStop =>
      match waiter s, done s with
      | QSending _ _, true | QArmed _, true => Some (set_waits (waits s) QExited s, [])
      | _, _ => None
      end
  end.

Fixpoint exec (s : run) (acts : list action) : option (run * list event) :=
  match acts with
  | [] => Some (s, [])
  | a :: acts =>
      '(s, evs) ← step s a;
      '(s, evs') ← exec s acts;
      Some (s, evs ++ evs')
  end.
End step.

(** ** At most one reconcile of an entity at a time *)

(** The entity a worker has marked as being processed. *)
Definition held (w : worker) : option string :=
  match w with
  | WReconciling r | WEnqueue r _ (ToComplete _) | WCancelling r | WDispatched r _ => Some (EntityID r)
  | WSending it (ToComplete _) => Some (EntityID (req it))
  | _ => None
  end.

Definition held_at (s : run) (i : nat) : option string := workers s !! i ≫= held.

Record marked (s : run) : Prop := {
  marked_once : ∀ i j e, held_at s i = Some e → held_at s j = Some e → i = j;
  marked_held : ∀ e, e ∈ processing s ↔ ∃ i, held_at s i = Some e;
  marked_dirty : ∀ e, is_Some (dirty s !! e) → e ∈ processing s
}.

Lemma marked_keep s s' :
  processing s' = processing s → (∀ e, is_Some (dirty s' !! e) → is_Some (dirty s !! e) ∨ e ∈ processing s) →
  (∀ i, held_at s' i = held_at s i) → marked s → marked s'.
Proof.
  intros Hp Hd Hh [H1 H2 H3]. split.
  - intros i j e. rewrite !Hh. apply H1.
  - intros e. rewrite Hp, H2. by setoid_rewrite Hh.
  - intros e [He|He]%Hd; rewrite Hp; [by apply H3|done].
Qed.

Lemma held_at_insert s l i w :
  (i < length (workers s))%nat → workers l = <[i := w]> (workers s) →
  ∀ j, held_at l j = if decide (j = i) then held w else held_at s j.
Proof.
  intros Hi Hl j. unfold held_at. rewrite Hl. case_decide as Hj.
  - subst. by rewrite list_lookup_insert_eq.
  - by rewrite list_lookup_insert_ne.
Qed.

(** A worker moves on within process. *)
Lemma marked_move s s' i w w' :
  workers s !! i = Some w → workers s' = <[i := w']> (workers s) → held w' = held w →
  processing s' = processing s → dirty s' = dirty s → marked s → marked s'.
Proof.
  intros Hw Hw' Hh Hp Hd. apply marked_keep; [done|rewrite Hd; by left|].
  intros j. rewrite (held_at_insert s s' i w') by (done || by eapply lookup_lt_Some).
  case_decide; [subst|done]. unfold held_at. by rewrite Hw.
Qed.

Lemma begin_process_marked s i r :
  workers s !! i = Some WIdle → marked s → marked (begin_process s i r).1.
Proof.
  intros Hi Hm. pose proof (lookup_lt_Some _ _ _ Hi) as Hlt. unfold begin_process. case_decide as Hp; cbn [fst].
  - apply (marked_keep s); [done| |done|done]. cbn. intros e [<-|He]%lookup_insert_is_Some'; [by right|by left].
  - assert (Hno : ∀ j, held_at s j ≠ Some (EntityID r)) by (intros j Hj; apply Hp, (marked_held s Hm); eauto).
    set (s' := set_worker _ _ _).
    assert (Hh : ∀ j, held_at s' j = if decide (j = i) then Some (EntityID r) else held_at s j)
      by (by apply (held_at_insert s s' i (WReconciling r))).
    destruct Hm as [H1 H2 H3]. split.
    + intros j k e. rewrite !Hh. repeat case_decide; [congruence| | |apply H1]; intros; simplify_eq; by edestruct Hno.
    + intros e. cbn. rewrite elem_of_union, elem_of_singleton, H2. setoid_rewrite Hh. split.
      * intros [->|[j Hj]]; [exists i; by rewrite decide_True|]. exists j. rewrite decide_False; [done|]. intros ->.
        unfold held_at in Hj. by rewrite Hi in Hj.
      * intros [j Hj]. case_decide; [left; congruence|right; eauto].
    + intros e He. cbn in *. set_solver.
Qed.

Lemma complete_marked s i r l :
  workers s !! i = Some (WDispatched r l) → marked s → marked (complete s i r l).1.
Proof.
  intros Hi [H1 H2 H3]. pose proof (lookup_lt_Some _ _ _ Hi) as Hlt.
  assert (∃ w', workers (complete s i r l).1 = <[i := w']> (workers s) ∧ held w' = None) as (w' & Hw' & Hnone).
  { unfold complete. destruct (dirty s !! _); [destruct l|]; cbn; eauto. }
  assert (processing (complete s i r l).1 = processing s ∖ {[EntityID r]} ∧
    dirty (complete s i r l).1 = delete (EntityID r) (dirty s)) as [Hp Hd]
    by (unfold complete; destruct (dirty s !! _); [destruct l|]; done).
  set (s' := (complete s i r l).1) in *. pose proof (held_at_insert s s' i w' Hlt Hw') as Hh. rewrite Hnone in Hh.
  assert (Hie : held_at s i = Some (EntityID r)) by (unfold held_at; by rewrite Hi). split.
  - intros j k e. rewrite !Hh. repeat case_decide; try done. apply H1.
  - intros e. rewrite Hp, elem_of_difference, elem_of_singleton, H2. setoid_rewrite Hh. split.
    + intros [[j Hj] Hne]. exists j. rewrite decide_False; [done|]. intros ->. congruence.
    + intros [j Hj]. case_decide as Hji; [done|]. split; [eauto|]. intros ->. by eapply Hji, H1.
  - intros e. rewrite Hd, Hp. intros [x [Hne Hx]%lookup_delete_Some]. apply elem_of_difference. split; [|set_solver]. apply H3. eauto.
Qed.

Lemma dispatch_worker f L s i r res l :
  ∃ b w', dispatch f L s i r res l = set_worker i w' (set_backoff b s) ∧
    held w' = Some (EntityID r) ∧ ∀ r', w' ≠ WReconciling r'.
Proof. unfold dispatch. destruct l; repeat case_match; eauto 10. Qed.

(** Steps that touch neither the workers nor the marks. *)
Lemma marked_same s s' :
  workers s' = workers s → processing s' = processing s → dirty s' = dirty s → marked s → marked s'.
Proof. intros Hw Hp Hd. apply marked_keep; [done|rewrite Hd; by left|]. intros i. unfold held_at. by rewrite Hw. Qed.

Lemma held_resume it next : held (resume it next) = held (WSending it next).
Proof. by destruct next. Qed.

Lemma step_marked f L s a s' evs : step f L s a = Some (s', evs) → marked s → marked s'.
Proof.
  intros Hs Hm. destruct a; cbn in Hs; repeat case_match; simplify_eq; try done;
    try (by apply (marked_same s));
    try (by eapply (marked_move s)).
  all: try (eapply (marked_move s); [done|cbn; reflexivity|by rewrite ?held_resume|done..]).
  - apply (f_equal fst) in Hs. cbn in Hs. subst. apply begin_process_marked; [done|]. by apply (marked_same s).
  - unfold reconcile in Hs. destruct (recoverReconcile _ _) as [res err]. simplify_eq.
    destruct (dispatch_worker f L s i r res (classify err)) as (b & w' & -> & Hh & _). by eapply (marked_move s).
  - apply (f_equal fst) in Hs. cbn in Hs. subst. by apply complete_marked.
Qed.

#[global] Instance resultLabel_eq_dec : EqDecision resultLabel.
Proof. solve_decision. Defined.
#[global] Instance event_eq_dec : EqDecision event.
Proof. solve_decision. Defined.

(** The reconciles of [e] begun, ended and under way. *)
Definition begins (e : string) (ev : event) : Prop := ev = Started e.
Definition ends (e : string) (ev : event) : Prop :=
  match ev with Ended e' _ => e' = e | _ => False end.
Definition reconciles (e : string) (w : worker) : Prop :=
  match w with WReconciling r => EntityID r = e | _ => False end.
#[global] Instance begins_dec e ev : Decision (begins e ev) := decide (ev = Started e).
#[global] Instance ends_dec e ev : Decision (ends e ev).
Proof. destruct ev; cbn; apply _. Defined.
#[global] Instance reconciles_dec e w : Decision (reconciles e w).
Proof. destruct w; cbn; apply _. Defined.

Definition count {A} (P : A → Prop) `{!∀ x, Decision (P x)} (l : list A) : nat := length (filter P l).

Section counting.
Context {A} (P : A → Prop) `{!∀ x, Decision (P x)}.

Lemma count_cons x l : count P (x :: l) = ((if decide (P x) then 1 else 0) + count P l)%nat.
Proof. unfold count. rewrite filter_cons. by case_decide. Qed.

Lemma count_nil : count P [] = 0%nat.
Proof. done. Qed.

Lemma count_app l k : count P (l ++ k) = (count P l + count P k)%nat.
Proof. unfold count. by rewrite filter_app, length_app. Qed.

Lemma count_insert l i x y :
  l !! i = Some y →
  (count P (<[i := x]> l) + (if decide (P y) then 1 else 0) = count P l + (if decide (P x) then 1 else 0))%nat.
Proof.
  revert i. induction l as [|z l IH]; intros [|i] Hi; [done..| |].
  - injection Hi as ->. change (<[0%nat := x]> (y :: l)) with (x :: l). rewrite !count_cons. lia.
  - change (<[S i := x]> (z :: l)) with (z :: <[i := x]> l). rewrite !count_cons. specialize (IH i Hi). lia.
Qed.

Lemma count_le_1 l :
  (∀ i j x y, l !! i = Some x → l !! j = Some y → P x → P y → i = j) → (count P l ≤ 1)%nat.
Proof.
  induction l as [|z l IH]; intros Hu; [cbn; lia|]. rewrite count_cons. case_decide as Hz.
  - enough (count P l = 0%nat) by lia. unfold count. rewrite filter_none; [done|]. apply Forall_lookup. intros j y Hj Hy.
    by specialize (Hu 0%nat (S j) z y eq_refl Hj Hz Hy).
  - apply IH. intros i j x y Hi Hj Hx Hy. specialize (Hu (S i) (S j) x y Hi Hj Hx Hy). lia.
Qed.
End counting.

Definition under_way (e : string) (s : run) : nat := count (reconciles e) (workers s).

Lemma under_way_move e s s' i w w' :
  workers s !! i = Some w → workers s' = <[i := w']> (workers s) →
  (under_way e s' + (if decide (reconciles e w) then 1 else 0) =
   under_way e s + (if decide (reconciles e w') then 1 else 0))%nat.
Proof. intros Hw Hw'. unfold under_way. rewrite Hw'. by apply count_insert. Qed.

Lemma step_count f L s a s' evs e :
  step f L s a = Some (s', evs) →
  (count (begins e) evs + under_way e s = count (ends e) evs + under_way e s')%nat.
Proof.
  intros Hs.
  assert (Hquiet : ∀ i w w', workers s !! i = Some w → workers s' = <[i := w']> (workers s) → ¬ reconciles e w →
    ¬ reconciles e w' → under_way e s = under_way e s').
  { intros i w w' Hw Hw' H1 H2. pose proof (under_way_move e s s' i w w' Hw Hw') as Hc.
    rewrite !decide_False in Hc by done. lia. }
  destruct a; cbn in Hs; repeat case_match; simplify_eq; try done;
    try (by eapply Hquiet; [done|reflexivity|by intros []..]);
    try (by eapply Hquiet; [done|reflexivity|by intros []|destruct next; by intros []]).
  - unfold begin_process in Hs. case_decide; simplify_eq; [done|].
    set (s' := set_worker _ _ _). pose proof (under_way_move e s s' i WIdle (WReconciling r) ltac:(done) eq_refl) as Hc.
    rewrite decide_False in Hc by (cbn; tauto). rewrite !count_cons. rewrite (decide_False (P := ends _ _)) by (cbn; tauto).
    assert (begins e (Started (EntityID r)) ↔ reconciles e (WReconciling r)) as Hiff by (unfold begins; cbn; naive_solver).
    rewrite (decide_ext _ _ _ _ Hiff), !count_nil. lia.
  - unfold reconcile in Hs. destruct (recoverReconcile _ _) as [res err]. simplify_eq.
    destruct (dispatch_worker f L s i r res (classify err)) as (b & w' & Heq & _ & Hno). rewrite Heq in *.
    set (s' := set_worker _ _ _). pose proof (under_way_move e s s' i (WReconciling r) w' ltac:(done) eq_refl) as Hc.
    rewrite (decide_False (P := reconciles e w')) in Hc by (destruct w'; cbn; (tauto || naive_solver)).
    rewrite !count_cons. rewrite (decide_False (P := begins _ _)) by (unfold begins; congruence).
    change (ends e (Ended (EntityID r) (classify err))) with (reconciles e (WReconciling r)).
    rewrite !count_nil. repeat case_decide; (tauto || lia).
  - unfold complete in Hs. assert (evs = [] ∨ evs = [Suppressed (EntityID r)]) as Hev by (repeat case_match; simplify_eq; auto).
    assert (count (begins e) evs = 0%nat ∧ count (ends e) evs = 0%nat) as [-> ->] by (destruct Hev as [->| ->]; done).
    repeat case_match; simplify_eq; (eapply Hquiet; [done|reflexivity|by intros []..]).
Qed.

(** ** Executions *)

Lemma exec_cons f L s a acts s' evs :
  exec f L s (a :: acts) = Some (s', evs) ↔
  ∃ s1 e1 e2, step f L s a = Some (s1, e1) ∧ exec f L s1 acts = Some (s', e2) ∧ evs = e1 ++ e2.
Proof.
  cbn. destruct (step f L s a) as [[s1 e1]|]; cbn; [|split; [done|naive_solver]].
  destruct (exec f L s1 acts) as [[s2 e2]|] eqn:E; cbn; [|split; [done|naive_solver]].
  split; [intros [= <- <-]; by exists s1, e1, e2|]. intros (? & ? & ? & [= <- <-] & H & ->). rewrite E in H. by simplify_eq.
Qed.

Lemma exec_app f L s acts acts' s' evs :
  exec f L s (acts ++ acts') = Some (s', evs) ↔
  ∃ s1 e1 e2, exec f L s acts = Some (s1, e1) ∧ exec f L s1 acts' = Some (s', e2) ∧ evs = e1 ++ e2.
Proof.
  revert s evs. induction acts as [|a acts IH]; intros s evs; cbn [app].
  - split; [by exists s, [], evs|]. intros (? & ? & ? & [= <- <-] & ? & ->). done.
  - rewrite exec_cons. setoid_rewrite IH. setoid_rewrite exec_cons. split.
    + intros (s1 & e1 & e2 & Hs & (s2 & e3 & e4 & H1 & H2 & ->) & ->). exists s2, (e1 ++ e3), e4.
      split_and!; [by exists s1, e1, e3|done|by rewrite app_assoc].
    + intros (s2 & ? & e4 & (s1 & e1 & e3 & Hs & H1 & ->) & H2 & ->). exists s1, e1, (e3 ++ e4).
      split_and!; [done|by exists s2, e3, e4|by rewrite app_assoc].
Qed.

(** An invariant of the steps is one of the executions. *)
Lemma exec_invariant f L (P : run → Prop) :
  (∀ s a s' evs, step f L s a = Some (s', evs) → P s → P s') →
  ∀ acts s s' evs, exec f L s acts = Some (s', evs) → P s → P s'.
Proof.
  intros Hstep. induction acts as [|a acts IH]; intros s s' evs; [by intros [= <- <-]|].
  rewrite exec_cons. intros (s1 & e1 & e2 & Hs & He & ->) Hp. eauto.
Qed.

Lemma spawnActive_marked now n b m : marked (spawnActive now n b m).
Proof.
  assert (∀ i, held_at (spawnActive now n b m) i = None) as Hh.
  { intros i. unfold held_at. cbn. destruct (replicate n WIdle !! i) eqn:E; [|done]. by apply lookup_replicate in E as [-> _]. }
  split; cbn.
  - intros i j e. by rewrite Hh.
  - intros e. setoid_rewrite Hh. set_solver.
  - intros e. rewrite lookup_empty. by intros [].
Qed.

(** C10: whatever the number of workers and the interleaving, an entity is reconciled by
    at most one worker at a time: when any execution has begun [n] reconciles of
    [e], it has ended [n] of them, or all but one, which a single worker is in. *)
Theorem one_reconcile_per_entity f L now n b m acts s evs e :
  exec f L (spawnActive now n b m) acts = Some (s, evs) →
  count (begins e) evs = (count (ends e) evs + under_way e s)%nat ∧ (under_way e s ≤ 1)%nat.
Proof.
  intros He. split.
  - assert (under_way e (spawnActive now n b m) = 0%nat) as H0.
    { unfold under_way, count. cbn. rewrite filter_none; [done|]. apply Forall_replicate. cbn. tauto. }
    rewrite <-(Nat.add_0_r (count (begins e) evs)), <-H0. clear H0. revert He. generalize (spawnActive now n b m). clear.
    revert evs. induction acts as [|a acts IH]; intros evs s0; [by intros [= <- <-]|].
    rewrite exec_cons. intros (s1 & e1 & e2 & Hs & Hr & ->). apply IH in Hr. apply (step_count _ _ _ _ _ _ e) in Hs.
    rewrite !count_app. lia.
  - apply (exec_invariant f L marked) in He; [|eauto using step_marked|apply spawnActive_marked].
    apply count_le_1. intros i j x y Hi Hj Hx Hy. apply (marked_once s He i j e); unfold held_at; [rewrite Hi|rewrite Hj]; cbn;
      [destruct x|destruct y]; cbn in *; by (done || congruence).
Qed.

(** ** No trigger is lost *)

(** The places a trigger can be at before the reconcile it asks for begins. *)
Definition incoming (s : run) : list Request :=
  source s ++ match feeder s with FHolding r => [r] | _ => [] end ++ queue s.

Definition reruns (t : Time) (e : string) (w : worker) : Prop :=
  match w with
  | WEnqueue r delay ToIdle => EntityID r = e ∧ delay ≤ 0
  | WSending it ToIdle => EntityID (req it) = e ∧ readyAt it ≤ t
  | _ => False
  end.

Definition due_by (w : waiting) (e : string) (t : Time) : Prop := ∃ t', due_times w !! e = Some t' ∧ t' ≤ t.

Definition at_incoming (s : run) (e : string) : Prop := Build_Request e ∈ incoming s.
Definition at_dirty (s : run) (e : string) : Prop := is_Some (dirty s !! e).
Definition at_worker (s : run) (e : string) : Prop := ∃ i w, workers s !! i = Some w ∧ reruns (clock s) e w.
Definition at_addCh (s : run) (e : string) : Prop :=
  ∃ it, it ∈ addCh s ∧ EntityID (req it) = e ∧ readyAt it ≤ clock s.
Definition at_waiter (s : run) (e : string) : Prop :=
  match waiter s with
  | QTop => due_by (waits s) e (clock s)
  | QDraining now => due_by (waits s) e now
  | QSending now r => EntityID r = e ∨ due_by (waits s) e now
  | _ => False
  end.

Definition awaited (s : run) (e : string) : Prop :=
  at_incoming s e ∨ at_dirty s e ∨ at_worker s e ∨ at_addCh s e ∨ at_waiter s e.

Record sound (s : run) : Prop := {
  sound_waits : queue_ok (waits s);
  sound_dirty : ∀ e r, dirty s !! e = Some r → EntityID r = e
}.

Lemma step_sound f L s a s' evs : step f L s a = Some (s', evs) → sound s → sound s'.
Proof.
  intros Hs [Hw Hd]. destruct a; cbn in Hs; repeat case_match; simplify_eq; try (by split).
  - unfold begin_process in Hs. case_decide; simplify_eq; split; try done. cbn.
    intros e x [[<- <-]|[_ Hx]]%lookup_insert_Some; [done|by apply Hd].
  - unfold reconcile in Hs. destruct (recoverReconcile _ _) as [res err]. simplify_eq.
    destruct (dispatch_worker f L s i r res (classify err)) as (b & w' & -> & _). by split.
  - unfold complete in Hs. repeat case_match; simplify_eq; split; try done; cbn; intros e x [_ Hx]%lookup_delete_Some; by apply Hd.
  - split; [|done]. cbn. by eapply pop_ready_Some.
  - split; [|done]. cbn. by apply addOrMergeWaiting_ok.
  - split; [|done]. cbn. by apply cancelPending_ok.
Qed.

Lemma at_worker_move s s' i w w' e :
  clock s' = clock s → workers s !! i = Some w → workers s' = <[i := w']> (workers s) →
  at_worker s e → reruns (clock s) e w ∨ at_worker s' e.
Proof.
  intros Hc Hi Hw (j & x & Hj & Hr). destruct (decide (i = j)) as [->|Hne]; [left; by simplify_eq|].
  right. exists j, x. by rewrite Hw, Hc, list_lookup_insert_ne.
Qed.

Lemma at_worker_here s i w w' s' e :
  workers s !! i = Some w → workers s' = <[i := w']> (workers s) → reruns (clock s') e w' → at_worker s' e.
Proof.
  intros Hi Hw Hr. exists i, w'. rewrite Hw, list_lookup_insert_eq; [done|]. by eapply lookup_lt_Some.
Qed.

Lemma reruns_later t t' e w : t ≤ t' → reruns t e w → reruns t' e w.
Proof. intros Ht. destruct w as [| |? ? []|? []| | |]; cbn; intuition lia. Qed.

Lemma due_later w e t t' : t ≤ t' → due_by w e t → due_by w e t'.
Proof. intros Ht (x & Hx & Hle). exists x. split; [done|lia]. Qed.

(** Steps of the environment. *)
Lemma awaited_env s s' e :
  (∀ r, r ∈ incoming s → r ∈ incoming s') → clock s ≤ clock s' → dirty s' = dirty s → workers s' = workers s →
  addCh s' = addCh s → waits s' = waits s → waiter s' = waiter s → awaited s e → awaited s' e.
Proof.
  intros Hin Hc Hd Hw Ha Hq Hp. unfold awaited, at_incoming, at_dirty, at_worker, at_addCh, at_waiter.
  rewrite Hd, Hw, Ha, Hq, Hp. intros [?|[?|[(i & w & ? & ?)|[(it & ? & ? & ?)|Hwt]]]].
  - left. by apply Hin.
  - by right; left.
  - right; right; left. exists i, w. split; [done|by eapply reruns_later].
  - right; right; right; left. exists it. split_and!; [done..|lia].
  - right; right; right; right. destruct (waiter s); try done. by eapply due_later.
Qed.

(** A worker moves on without a dirty trigger in its hands. *)
Lemma awaited_move s s' i w w' e :
  incoming s' = incoming s → clock s' = clock s → dirty s' = dirty s → workers s !! i = Some w →
  workers s' = <[i := w']> (workers s) → (∀ it, it ∈ addCh s → it ∈ addCh s') → waits s' = waits s → waiter s' = waiter s →
  (reruns (clock s) e w → awaited s' e) → awaited s e → awaited s' e.
Proof.
  intros Hin Hc Hd Hi Hw Ha Hq Hp Hr Haw. destruct Haw as [?|[?|[Hwk|[(it & ? & ? & ?)|Hwt]]]].
  - left. unfold at_incoming. by rewrite Hin.
  - right; left. unfold at_dirty. by rewrite Hd.
  - destruct (at_worker_move s s' i w w' e Hc Hi Hw Hwk) as [?|?]; [by apply Hr|by right; right; left].
  - right; right; right; left. exists it. split_and!; [by apply Ha|done|by rewrite Hc].
  - right; right; right; right. unfold at_waiter in *. rewrite Hp, Hq, Hc. done.
Qed.

(** The delaying queue moves on. *)
Lemma awaited_wait s s' e :
  (∀ r, r ∈ incoming s → r ∈ incoming s') → clock s' = clock s → dirty s' = dirty s → workers s' = workers s →
  (at_addCh s e → awaited s' e) → (at_waiter s e → awaited s' e) → awaited s e → awaited s' e.
Proof.
  intros Hin Hc Hd Hw Ha Hq [?|[?|[(i & w & ? & ?)|[?|?]]]].
  - left. by apply Hin.
  - right; left. unfold at_dirty. by rewrite Hd.
  - right; right; left. exists i, w. by rewrite Hw, Hc.
  - by apply Ha.
  - by apply Hq.
Qed.

Lemma awaited_take s i r rest e s' evs :
  workers s !! i = Some WIdle → queue s = r :: rest → begin_process (set_queue rest s) i r = (s', evs) →
  awaited s e → Started e ∈ evs ∨ awaited s' e.
Proof.
  intros Hi Hq Hb Haw. unfold begin_process in Hb.
  assert (Hin : at_incoming s e → EntityID r = e ∨ at_incoming (set_queue rest s) e).
  { unfold at_incoming, incoming. rewrite Hq. cbn. rewrite !elem_of_app, elem_of_cons. intros [?|[?|[<-|?]]]; tauto. }
  case_decide as Hp; simplify_eq.
  - right. destruct Haw as [[<-|?]%Hin|[Hd|[?|[?|?]]]].
    + right; left. unfold at_dirty. cbn. rewrite lookup_insert_eq. by eexists.
    + by left.
    + right; left. unfold at_dirty. cbn. apply lookup_insert_is_Some'. by right.
    + by right; right; left.
    + by right; right; right; left.
    + by right; right; right; right.
  - set (s' := set_worker _ _ _). destruct Haw as [[<-|?]%Hin|[Hd|[Hw|[?|?]]]].
    + left. by apply list_elem_of_singleton.
    + right. by left.
    + right. by right; left.
    + right. destruct (at_worker_move s s' i WIdle (WReconciling r) e eq_refl Hi eq_refl Hw) as [[]|?]. by right; right; left.
    + right. by right; right; right; left.
    + right. by right; right; right; right.
Qed.

Lemma awaited_complete s i r l e s' evs :
  sound s → workers s !! i = Some (WDispatched r l) → complete s i r l = (s', evs) →
  awaited s e → Suppressed e ∈ evs ∨ awaited s' e.
Proof.
  intros Hs Hi Hc Haw.
  assert (∃ w', workers s' = <[i := w']> (workers s)) as [w' Hw'] by (unfold complete in Hc; repeat case_match; simplify_eq; cbn; eauto).
  assert (incoming s' = incoming s ∧ clock s' = clock s ∧ addCh s' = addCh s ∧ waits s' = waits s ∧ waiter s' = waiter s ∧
    dirty s' = delete (EntityID r) (dirty s)) as (Hin & Hck & Ha & Hq & Hp & Hd)
    by (unfold complete in Hc; repeat case_match; by simplify_eq).
  destruct Haw as [?|[[x Hx]|[Hwk|[?|?]]]].
  - right; left. unfold at_incoming. by rewrite Hin.
  - destruct (decide (e = EntityID r)) as [->|Hne].
    2: { right; right; left. unfold at_dirty. rewrite Hd, lookup_delete_ne by done. by eexists. }
    pose proof (sound_dirty s Hs _ _ Hx) as Hex. unfold complete in Hc. rewrite Hx in Hc.
    assert (l = resultPermanent ∧ evs = [Suppressed (EntityID r)] ∨
      s' = set_worker i (WEnqueue x 0 ToIdle) (set_marks (processing s ∖ {[EntityID r]}) (delete (EntityID r) (dirty s)) s))
      as [[_ ->]| ->] by (destruct l; simplify_eq; auto).
    + left. by apply list_elem_of_singleton.
    + right; right; right; left. eapply at_worker_here; [done|reflexivity|]. cbn. by split.
  - right. destruct (at_worker_move s s' i _ w' e Hck Hi Hw' Hwk) as [[]|?]. by right; right; left.
  - right; right; right; right; left. unfold at_addCh. by rewrite Ha, Hck.
  - right; right; right; right; right. unfold at_waiter. by rewrite Hq, Hp, Hck.
Qed.

Lemma due_by_requeue w it e t :
  queue_ok w → due_by w e t → due_by (addOrMergeWaiting w it) e t.
Proof.
  intros Hok (t' & Ht' & Hle). destruct (addOrMergeWaiting_ok w it Hok) as [_ Heq]. unfold due_by. rewrite Heq. unfold requeue.
  destruct (decide (EntityID (req it) = e)) as [<-|Hne].
  - rewrite lookup_insert_eq, Ht'. cbn. eexists. split; [done|]. lia.
  - rewrite lookup_insert_ne by done. by exists t'.
Qed.

Lemma due_by_added w it t :
  queue_ok w → readyAt it ≤ t → due_by (addOrMergeWaiting w it) (EntityID (req it)) t.
Proof.
  intros Hok Hle. destruct (addOrMergeWaiting_ok w it Hok) as [_ Heq]. unfold due_by. rewrite Heq. unfold requeue.
  rewrite lookup_insert_eq. eexists. split; [done|]. destruct (due_times w !! _); cbn; lia.
Qed.

Lemma awaited_Wait f L s s' evs e :
  sound s → step f L s Wait = Some (s', evs) → awaited s e → awaited s' e.
Proof.
  intros [Hok _] Hs. cbn [step] in Hs. destruct (waiter s) as [|now|now r| |] eqn:Hwt; try done.
  - simplify_eq. apply awaited_wait; try done; [by right; right; right; left|].
    intros Hw. right; right; right; right. unfold at_waiter in *. by rewrite Hwt in Hw.
  - destruct (pop_ready (waits s) now) as [[r w]|] eqn:Hp; simplify_eq; apply awaited_wait; try done.
    + by right; right; right; left.
    + intros Hw. right; right; right; right. unfold at_waiter in *. rewrite Hwt in Hw. cbn.
      destruct Hw as (t & Ht & Hle). destruct (pop_ready_Some _ _ _ _ Hok Hp) as (_ & Hdue & _).
      destruct (decide (EntityID r = e)) as [|Hne]; [by left|]. right. exists t. by rewrite Hdue, lookup_delete_ne.
    + by right; right; right; left.
    + intros Hw. unfold at_waiter in Hw. rewrite Hwt in Hw. destruct Hw as (t & Ht & Hle).
      pose proof (pop_ready_None _ _ Hok Hp e t Ht) as Hlt. cbn in Hlt. lia.
  - destruct (_ <? _)%nat; simplify_eq. apply awaited_wait; try done.
    + intros x. unfold incoming. cbn. rewrite !elem_of_app. intuition.
    + by right; right; right; left.
    + intros Hw. unfold at_waiter in Hw. rewrite Hwt in Hw. destruct Hw as [<-|Hw]; [|by right; right; right; right].
      left. unfold at_incoming, incoming. cbn. rewrite !elem_of_app, list_elem_of_singleton. destruct r. tauto.
Qed.

Lemma step_awaited f L s a s' evs e :
  sound s → step f L s a = Some (s', evs) → done s' = false → awaited s e →
  Started e ∈ evs ∨ Suppressed e ∈ evs ∨ awaited s' e.
Proof.
  intros Hso Hs Hdone Haw. destruct a as [d|r| | | |i|i out|i|i|i|i|i| | | | |]; cbn [step] in Hs.
  - destruct (0 <=? d) eqn:E; simplify_eq. right; right. apply (awaited_env s); try done. cbn. lia.
  - destruct (_ <? _)%nat; simplify_eq. right; right. apply (awaited_env s); try done.
    intros x. unfold incoming. cbn. rewrite !elem_of_app. tauto.
  - by simplify_eq.
  - right; right. destruct (feeder s) as [|r|] eqn:Hf; [destruct (source s) as [|r rest] eqn:Hsrc| |]; try done;
      [|destruct (_ <? _)%nat]; simplify_eq; apply (awaited_env s); try done;
      intros x; unfold incoming; rewrite Hf, ?Hsrc; cbn; set_solver.
  - repeat case_match; simplify_eq; cbn in Hdone; congruence.
  - destruct (workers s !! i) as [[]|] eqn:Hi; try done. destruct (queue s) as [|r rest] eqn:Hq; [done|]. injection Hs as Hs.
    destruct (awaited_take s i r rest e s' evs Hi Hq Hs Haw) as [?|?]; [by left|by right; right].
  - destruct (workers s !! i) as [[]|] eqn:Hi; try done. right; right. unfold reconcile in Hs.
    destruct (recoverReconcile _ _) as [res err]. injection Hs as <- _.
    destruct (dispatch_worker f L s i r res (classify err)) as (b & w' & -> & _).
    by eapply (awaited_move s).
  - destruct (workers s !! i) as [[]|] eqn:Hi; try done. simplify_eq. right; right.
    eapply (awaited_move s); try done. intros Hr. right; right; left. eapply at_worker_here; [done|reflexivity|].
    destruct next; [done|]. cbn in *. destruct Hr as [? Hd]. split; [done|]. destruct (Z.ltb_spec 0 delay); lia.
  - destruct (workers s !! i) as [[]|] eqn:Hi; try done; destruct (_ <? _)%nat; simplify_eq; right; right.
    + eapply (awaited_move s); try done; [intros x; cbn; rewrite elem_of_app; tauto|].
      intros Hr. destruct next; [done|]. destruct Hr as [? Hd]. right; right; right; left. exists it.
      split_and!; [cbn; set_solver|done..].
    + by eapply (awaited_move s).
  - repeat case_match; simplify_eq; cbn in Hdone; congruence.
  - destruct (workers s !! i) as [[]|] eqn:Hi; try done. injection Hs as Hs.
    destruct (awaited_complete s i r l e s' evs Hso Hi Hs Haw) as [?|?]; [by right; left|by right; right].
  - repeat case_match; simplify_eq; cbn in Hdone; congruence.
  - right; right. by eapply (awaited_Wait f L).
  - destruct (waiter s) eqn:Hwt; try done. destruct (addCh s) as [|it rest] eqn:Ha; [done|]. simplify_eq. right; right.
    revert Haw. apply awaited_wait; try done; [|by unfold at_waiter; rewrite Hwt].
    intros (x & Hx & <- & Hle). rewrite Ha in Hx. apply elem_of_cons in Hx as [->|Hx].
    + right; right; right; right. unfold at_waiter. cbn. apply due_by_added; [apply Hso|done].
    + right; right; right; left. by exists x.
  - destruct (waiter s) eqn:Hwt; try done. destruct (cancelCh s) as [|id rest] eqn:Ha; [done|]. simplify_eq. right; right.
    revert Haw. apply awaited_wait; try done; [by right; right; right; left|by unfold at_waiter; rewrite Hwt].
  - destruct (waiter s) eqn:Hwt; try done. destruct (_ <=? _); simplify_eq. right; right.
    revert Haw. apply awaited_wait; try done; [by right; right; right; left|by unfold at_waiter; rewrite Hwt].
  - repeat case_match; simplify_eq; cbn in Hdone; congruence.
Qed.

Lemma step_done f L s a s' evs : step f L s a = Some (s', evs) → done s' = false → done s = false.
Proof.
  intros Hs. destruct a; cbn in Hs; repeat case_match; simplify_eq; try done; try (cbn; congruence).
  - unfold begin_process in Hs. case_decide; by simplify_eq.
  - unfold reconcile in Hs. destruct (recoverReconcile _ _) as [res err]. simplify_eq.
    destruct (dispatch_worker f L s i r res (classify err)) as (b & w' & -> & _). done.
  - unfold complete in Hs. repeat case_match; by simplify_eq.
Qed.

Lemma exec_done f L acts : ∀ s s' evs, exec f L s acts = Some (s', evs) → done s' = false → done s = false.
Proof.
  induction acts as [|a acts IH]; intros s s' evs; [by intros [= <- <-]|].
  rewrite exec_cons. intros (s1 & e1 & e2 & Hs & He & ->) Hd. eauto using step_done.
Qed.

Lemma exec_awaited f L e acts : ∀ s s' evs,
  sound s → exec f L s acts = Some (s', evs) → done s' = false → awaited s e →
  Started e ∈ evs ∨ Suppressed e ∈ evs ∨ awaited s' e.
Proof.
  induction acts as [|a acts IH]; intros s s' evs Hso; [intros [= <- <-] _ Ha; auto|].
  rewrite exec_cons. intros (s1 & e1 & e2 & Hs & He & ->) Hd Ha. rewrite !elem_of_app.
  destruct (step_awaited f L s a s1 e1 e Hso Hs) as [?|[?|Ha1]]; [by eapply exec_done|done|tauto..|].
  destruct (IH s1 s' e2 (step_sound _ _ _ _ _ _ Hs Hso) He Hd Ha1) as [?|[?|?]]; tauto.
Qed.

Lemma spawnActive_sound now n b m : sound (spawnActive now n b m).
Proof. split; [apply no_items_ok|]. intros e r. cbn. by rewrite lookup_empty. Qed.

(** Nothing to do until the timer fires or a trigger arrives. *)
Record settled (s : run) : Prop := {
  settled_source : source s = [];
  settled_feeder : feeder s = FIdle;
  settled_queue : queue s = [];
  settled_workers : Forall (λ w, w = WIdle) (workers s);
  settled_chans : addCh s = [] ∧ cancelCh s = [];
  settled_waiter : ∃ t, waiter s = QArmed t
}.

Lemma idle_held s i : Forall (λ w, w = WIdle) (workers s) → held_at s i = None.
Proof.
  intros Hw. unfold held_at. destruct (workers s !! i) as [w|] eqn:Hi; [|done].
  rewrite Forall_lookup in Hw. by rewrite (Hw i w Hi).
Qed.

Lemma settled_not_awaited s e : marked s → settled s → ¬ awaited s e.
Proof.
  intros Hm [Hs Hf Hq Hw [Ha _] [t Ht]] [Hi|[Hd|[(i & w & Hi & Hr)|[(it & Hit & _)|Hwt]]]].
  - unfold at_incoming, incoming in Hi. rewrite Hs, Hf, Hq in Hi. set_solver.
  - apply (marked_dirty s Hm), (marked_held s Hm) in Hd as [i Hi]. by rewrite idle_held in Hi.
  - rewrite Forall_lookup in Hw. by rewrite (Hw i w Hi) in Hr.
  - rewrite Ha in Hit. by apply not_elem_of_nil in Hit.
  - unfold at_waiter in Hwt. by rewrite Ht in Hwt.
Qed.

(** C9: a trigger the loop has accepted is never lost.  In every interleaving, as long as
    the run is not stopped, a reconcile of the entity has begun since, or the
    trigger was coalesced with a reconcile that ended in a permanent error, or it is
    still at one of the places it passes through, and then the loop is not at rest. *)
Theorem trigger_never_lost f L now n b m acts r acts' s1 e1 s2 e2 s3 evs :
  exec f L (spawnActive now n b m) acts = Some (s1, e1) → step f L s1 (Trigger r) = Some (s2, e2) →
  exec f L s2 acts' = Some (s3, evs) → done s3 = false →
  Started (EntityID r) ∈ evs ∨ Suppressed (EntityID r) ∈ evs ∨ (awaited s3 (EntityID r) ∧ ¬ settled s3).
Proof.
  intros H1 H2 H3 Hd.
  assert (Hso : sound s2).
  { eapply step_sound; [done|]. eapply (exec_invariant f L sound); [eauto using step_sound|done|apply spawnActive_sound]. }
  assert (Hm : marked s3).
  { eapply (exec_invariant f L marked); [eauto using step_marked|done|]. eapply step_marked; [done|].
    eapply (exec_invariant f L marked); [eauto using step_marked|done|apply spawnActive_marked]. }
  assert (Ha : awaited s2 (EntityID r)).
  { left. cbn [step] in H2. destruct (_ <? _)%nat; simplify_eq. unfold at_incoming, incoming. cbn.
    rewrite !elem_of_app, list_elem_of_singleton. destruct r. tauto. }
  destruct (exec_awaited f L _ acts' s2 s3 evs Hso H3 Hd Ha) as [?|[?|Haw]]; [by left|by right; left|].
  right; right. split; [done|]. intros Hset. by eapply settled_not_awaited.
Qed.

(** ** A trigger that arrives during a reconcile *)

Module Coalesced.
Definition loop : Loop := MkLoop defaultReconcileInterval false queueBuffer addChBuffer.
Definition a : Request := Build_Request "a".
Definition success : reconciled := Returns (Build_Result 0) None.

(** Two workers; the first is in Reconcile. *)
Definition before : list action := [Wait; Wait; Trigger a; Feed; Feed; Take 0].
(** The second marks the entity dirty; the first ends and asks for the re-run. *)
Definition after : list action :=
  [Feed; Feed; Take 1; Reconcile 0 success; Stamp 0; Send 0; Complete 0; Stamp 0; Send 0;
   WaitAdd; Wait; Wait; WaitAdd; Wait; Wait; Wait; Take 1].
End Coalesced.

Lemma one_reconcile_per_entity_witness :
  ∃ s evs, exec (λ x, x) Coalesced.loop (spawnActive 0 2 0 0) (Coalesced.before ++ Trigger Coalesced.a :: Coalesced.after) = Some (s, evs) ∧
    evs = [Triggered "a"; Started "a"; Triggered "a"; Ended "a" resultSuccess; Started "a"] ∧
    count (begins "a") evs = (count (ends "a") evs + under_way "a" s)%nat ∧ (under_way "a" s ≤ 1)%nat.
Proof.
  assert (∃ s, exec (λ x, x) Coalesced.loop (spawnActive 0 2 0 0) (Coalesced.before ++ Trigger Coalesced.a :: Coalesced.after) =
    Some (s, [Triggered "a"; Started "a"; Triggered "a"; Ended "a" resultSuccess; Started "a"])) as [s Hs]
    by (eexists; vm_compute; reflexivity).
  eexists s, _. split; [exact Hs|]. split; [reflexivity|].
  exact (one_reconcile_per_entity (λ x, x) Coalesced.loop 0 2 0 0 _ s _ "a" Hs).
Defined.

Lemma trigger_never_lost_witness :
  ∃ s1 e1 s2 e2 s3 evs,
    exec (λ x, x) Coalesced.loop (spawnActive 0 2 0 0) Coalesced.before = Some (s1, e1) ∧
    step (λ x, x) Coalesced.loop s1 (Trigger Coalesced.a) = Some (s2, e2) ∧
    exec (λ x, x) Coalesced.loop s2 Coalesced.after = Some (s3, evs) ∧
    (Started "a" ∈ evs ∨ Suppressed "a" ∈ evs ∨ (awaited s3 "a" ∧ ¬ settled s3)).
Proof.
  destruct (exec (λ x, x) Coalesced.loop (spawnActive 0 2 0 0) Coalesced.before) as [[s1 e1]|] eqn:H1; [|vm_compute in H1; discriminate].
  destruct (step (λ x, x) Coalesced.loop s1 (Trigger Coalesced.a)) as [[s2 e2]|] eqn:H2.
  2: { vm_compute in H1. injection H1 as <- <-. vm_compute in H2. discriminate. }
  destruct (exec (λ x, x) Coalesced.loop s2 Coalesced.after) as [[s3 evs]|] eqn:H3.
  2: { vm_compute in H1. injection H1 as <- <-. vm_compute in H2. injection H2 as <- <-. vm_compute in H3. discriminate. }
  exists s1, e1, s2, e2, s3, evs. split; [reflexivity|]. split; [exact H2|]. split; [exact H3|].
  apply (trigger_never_lost (λ x, x) Coalesced.loop 0 2 0 0 Coalesced.before Coalesced.a Coalesced.after s1 e1 s2 e2 s3 evs H1 H2 H3).
  vm_compute in H1. injection H1 as <- <-. vm_compute in H2. injection H2 as <- <-. vm_compute in H3. injection H3 as <- <-. reflexivity.
Defined.
