(* ===== verification/ReconcileStall.v ===== *)
(** * kernel/reconcile: where the loop stops, and what its races lose

    The states the goroutines of loop.go cannot leave on their own: the one at rest,
    and the one where the workers wait for the delaying queue and the delaying queue
    for the workers.  The second is reached in a run whose trigger has long fallen
    silent.  Two shorter executions show what the order of additions and
    cancellations decides. *)

From S2P Require Import Prelude Reconcile ReconcileQueue ReconcileLoop.

(** ** The states without a step *)

(** The steps the goroutines take; the others are the clock, the trigger and Stop. *)
Definition internal (a : action) : Prop :=
  match a with Tick _ | Trigger _ | Stop => False | _ => True end.

Definition stuck (f : Z → Z) (L : Loop) (s : run) : Prop := ∀ a, internal a → step f L s a = None.

(** Every worker at a send that does not go through, and the delaying queue at its own. *)
Definition blocked (L : Loop) (s : run) (w : worker) : Prop :=
  match w with
  | WSending _ _ => (add_cap L ≤ length (addCh s))%nat
  | WCancelling _ => (add_cap L ≤ length (cancelCh s))%nat
  | _ => False
  end.

Record wedged (L : Loop) (s : run) : Prop := {
  wedged_running : done s = false;
  wedged_waiter : ∃ now r, waiter s = QSending now r;
  wedged_queue : (queue_cap L ≤ length (queue s))%nat;
  wedged_workers : Forall (blocked L s) (workers s)
}.

(** Nobody leaves a run that goes on. *)
Record staffed (s : run) : Prop := {
  staffed_feeder : done s = false → feeder s ≠ FExited;
  staffed_workers : done s = false → Forall (λ w, w ≠ WExited) (workers s);
  staffed_waiter : done s = false → waiter s ≠ QExited
}.

Lemma staffed_move s s' i w' :
  done s' = done s → feeder s' = feeder s → waiter s' = waiter s → workers s' = <[i := w']> (workers s) →
  w' ≠ WExited → staffed s → staffed s'.
Proof.
  intros Hd Hf Hq Hw Hne [H1 H2 H3]. split; rewrite Hd, ?Hf, ?Hq, ?Hw; [done| |done].
  intros Hdone. apply Forall_insert; [by apply H2|done].
Qed.

Lemma staffed_same s s' :
  (done s' = false → done s = false) → (done s' = false → feeder s' ≠ FExited) → workers s' = workers s →
  (done s' = false → waiter s' ≠ QExited) → staffed s → staffed s'.
Proof. intros Hd Hf Hw Hq [H1 H2 H3]. split; [done| |done]. rewrite Hw. auto. Qed.

Lemma step_staffed f L s a s' evs : step f L s a = Some (s', evs) → staffed s → staffed s'.
Proof.
  intros Hs Hst. pose proof Hst as [H1 H2 H3].
  destruct a; cbn [step] in Hs; repeat case_match; simplify_eq;
    try (by apply (staffed_same s); cbn; [congruence|try congruence; auto|done|try congruence; auto|done]);
    try (by eapply (staffed_move s); [done..|by try destruct next|done]).
  - unfold begin_process in Hs. case_decide; simplify_eq; [by apply (staffed_same s)|by eapply (staffed_move s)].
  - unfold reconcile in Hs. destruct (recoverReconcile _ _) as [res err]. simplify_eq.
    destruct (dispatch_worker f L s i r res (classify err)) as (b & w' & -> & Hh & _).
    eapply (staffed_move s); [done..| |done]. by intros ->.
  - unfold complete in Hs. repeat case_match; simplify_eq; by eapply (staffed_move s).
  - split; cbn; congruence.
Qed.

Lemma step_crew f L s a s' evs : step f L s a = Some (s', evs) → length (workers s') = length (workers s).
Proof.
  intros Hs. destruct a; cbn [step] in Hs; repeat case_match; simplify_eq; cbn; rewrite ?length_insert; try done.
  - unfold begin_process in Hs. case_decide; simplify_eq; cbn; by rewrite ?length_insert.
  - unfold reconcile in Hs. destruct (recoverReconcile _ _) as [res err]. simplify_eq.
    destruct (dispatch_worker f L s i r res (classify err)) as (b & w' & -> & _). cbn. by rewrite length_insert.
  - unfold complete in Hs. repeat case_match; simplify_eq; cbn; by rewrite length_insert.
Qed.

(** What a worker without a step is waiting for. *)
Lemma stuck_worker f L s i w :
  stuck f L s → workers s !! i = Some w → w ≠ WExited → w = WIdle ∧ queue s = [] ∨ blocked L s w.
Proof.
  intros Hst Hi Hne. pose proof (Hst (Take i) I) as Ht. pose proof (Hst (Reconcile i (Panics "")) I) as Hr.
  pose proof (Hst (Stamp i) I) as Hp. pose proof (Hst (Send i) I) as Hs. pose proof (Hst (Complete i) I) as Hc.
  cbn [step] in *. rewrite Hi in *. destruct w; try done.
  - left. by destruct (queue s).
  - right. cbn. destruct (Nat.ltb_spec (length (addCh s)) (add_cap L)); [done|lia].
  - right. cbn. destruct (Nat.ltb_spec (length (cancelCh s)) (add_cap L)); [done|lia].
Qed.

(** C28: the loop stops only at rest or wedged.  With at least one worker and channels
    that hold something, a state of a run that goes on in which no goroutine can
    move is either settled, with the timer still to fire, or one where every worker
    waits for room in a channel only the delaying queue empties, while the delaying
    queue waits for room in the channel only the workers empty. *)
Theorem stuck_is_settled_or_wedged f L now n b m acts s evs :
  (0 < n)%nat → (0 < queue_cap L)%nat → (0 < add_cap L)%nat →
  exec f L (spawnActive now n b m) acts = Some (s, evs) → done s = false → stuck f L s →
  (settled s ∧ ∃ t, waiter s = QArmed t ∧ clock s < t) ∨ wedged L s.
Proof.
  intros Hn Hqc Hac He Hd Hst.
  assert (Hsf : staffed s).
  { eapply (exec_invariant f L staffed); [eauto using step_staffed|done|]. split; cbn; [done| |done]. by intros _; apply Forall_replicate. }
  assert (Hcrew : length (workers s) = n).
  { eapply (exec_invariant f L (λ s, length (workers s) = n)); [|done|cbn; by rewrite length_replicate].
    intros ? ? ? ? Hs <-. by eapply step_crew. }
  assert (Hw : ∀ i w, workers s !! i = Some w → w = WIdle ∧ queue s = [] ∨ blocked L s w).
  { intros i w Hi. eapply stuck_worker; [done..|]. pose proof (staffed_workers s Hsf Hd) as Hall.
    rewrite Forall_lookup in Hall. by apply (Hall i). }
  pose proof (Hst Wait I) as H1. pose proof (Hst WaitAdd I) as H2. pose proof (Hst WaitCancel I) as H3.
  pose proof (Hst WaitTimer I) as H4. pose proof (Hst Feed I) as H5. cbn [step] in *.
  destruct (waiter s) as [|t|t r|t|] eqn:Hwt; [done|by destruct (pop_ready _ _) as [[]|]| | |by destruct (staffed_waiter s Hsf Hd)].
  - destruct (Nat.ltb_spec (length (queue s)) (queue_cap L)) as [|Hfull]; [done|]. right. split; [done|eauto|done|].
    apply Forall_lookup. intros i w Hi. destruct (Hw i w Hi) as [[_ Hq]|?]; [|done]. rewrite Hq in Hfull. cbn in Hfull. lia.
  - left. destruct (addCh s) eqn:Ha; [|done]. destruct (cancelCh s) eqn:Hc; [|done].
    destruct (Z.leb_spec t (clock s)); [done|].
    assert (Hidle : ∀ i w, workers s !! i = Some w → w = WIdle ∧ queue s = []).
    { intros i w Hi. destruct (Hw i w Hi) as [?|Hb]; [done|]. destruct w; cbn in Hb; try done; rewrite ?Ha, ?Hc in Hb; cbn in Hb; lia. }
    destruct (lookup_lt_is_Some_2 (workers s) 0) as [w0 Hw0]; [lia|]. destruct (Hidle _ _ Hw0) as [_ Hq].
    assert ((length (queue s) <? queue_cap L)%nat = true) as Hroom by (rewrite Hq; by apply Nat.ltb_lt). rewrite Hroom in H5.
    pose proof (staffed_feeder s Hsf Hd). split; [|eauto]. split; try done.
    + by destruct (feeder s), (source s).
    + by destruct (feeder s), (source s).
    + apply Forall_lookup. intros i w Hi. by apply (Hidle i).
    + by eauto.
Qed.

(** ** A wedged run stays wedged *)

Lemma wedged_step f L s a s' evs :
  (0 < queue_cap L)%nat → wedged L s → a ≠ Stop → step f L s a = Some (s', evs) →
  wedged L s' ∧ ∀ e, Started e ∉ evs.
Proof.
  intros Hc [Hd (now & r & Hw) Hq Hws] Hne Hs.
  assert (Hnew : evs = [] ∨ ∃ e, evs = [Triggered e] → ∀ e, Started e ∉ evs) by (right; by exists ""; intros ->; set_solver).
  assert (Hb : ∀ i w, workers s !! i = Some w → blocked L s w) by (by apply Forall_lookup).
  assert (Hfull : (length (queue s) <? queue_cap L)%nat = false) by (apply Nat.ltb_ge; lia).
  assert (Hkeep : ∀ s', done s' = done s → waiter s' = waiter s → queue s' = queue s → workers s' = workers s →
    addCh s' = addCh s → cancelCh s' = cancelCh s → wedged L s').
  { intros x H1 H2 H3 H4 H5 H6. split; rewrite ?H1, ?H2, ?H3, ?H4; [done|eauto|done|].
    eapply Forall_impl; [done|]. intros w. unfold blocked. by rewrite H5, H6. }
  destruct a as [d|x| | | |i|i out|i|i|i|i|i| | | | |]; cbn [step] in Hs; rewrite ?Hw, ?Hd, ?Hfull in Hs; try done.
  - destruct (0 <=? d); simplify_eq. split; [by apply Hkeep|set_solver].
  - destruct (_ <? _)%nat; simplify_eq. split; [by apply Hkeep|set_solver].
  - destruct (feeder s); [destruct (source s)| |]; simplify_eq. split; [by apply Hkeep|set_solver].
  - by destruct (feeder s).
  - destruct (workers s !! i) as [w|] eqn:Hi; [|done]. specialize (Hb i w Hi). by destruct w.
  - destruct (workers s !! i) as [w|] eqn:Hi; [|done]. specialize (Hb i w Hi). by destruct w.
  - destruct (workers s !! i) as [w|] eqn:Hi; [|done]. specialize (Hb i w Hi). by destruct w.
  - destruct (workers s !! i) as [w|] eqn:Hi; [|done]. specialize (Hb i w Hi). destruct w; try done; cbn in Hb;
      [destruct (Nat.ltb_spec (length (addCh s)) (add_cap L))|destruct (Nat.ltb_spec (length (cancelCh s)) (add_cap L))]; (done || lia).
  - destruct (workers s !! i) as [w|] eqn:Hi; [|done]. specialize (Hb i w Hi). by destruct w.
  - destruct (workers s !! i) as [w|] eqn:Hi; [|done]. specialize (Hb i w Hi). by destruct w.
Qed.

Lemma wedged_forever f L acts : ∀ s s' evs,
  (0 < queue_cap L)%nat → wedged L s → Stop ∉ acts → exec f L s acts = Some (s', evs) →
  wedged L s' ∧ ∀ e, Started e ∉ evs.
Proof.
  induction acts as [|a acts IH]; intros s s' evs Hc Hw Hno.
  { intros [= <- <-]. split; [done|set_solver]. }
  rewrite exec_cons. intros (s1 & e1 & e2 & Hs & He & ->). apply not_elem_of_cons in Hno as [Hna Hno].
  destruct (wedged_step f L s a s1 e1 Hc Hw (not_eq_sym Hna) Hs) as [Hw1 H1]. destruct (IH s1 s' e2 Hc Hw1 Hno He) as [Hw2 H2].
  split; [done|]. intros e. rewrite elem_of_app. intros [?|?]; [by eapply H1|by eapply H2].
Qed.

(** ** How the loop gets wedged *)

(** Name the fields of the state an execution goes on from. *)
Ltac tidy :=
  cbv [set_waits set_chans set_worker set_marks set_backoff set_feed set_queue set_env
       clock done source feeder queue addCh cancelCh processing dirty workers waits waiter backoff];
  cbn [app insert list_insert req].

Lemma exec_step f L s a s1 e1 acts s' e2 :
  step f L s a = Some (s1, e1) → exec f L s1 acts = Some (s', e2) → exec f L s (a :: acts) = Some (s', e1 ++ e2).
Proof. intros. apply exec_cons. by exists s1, e1, e2. Qed.

(** The only worker takes a request nobody is processing. *)
Lemma step_Take f L t src fd r qs adds cs p d w wt b :
  EntityID r ∉ p →
  step f L (Run t false src fd (r :: qs) adds cs p d [WIdle] w wt b) (Take 0) =
  Some (Run t false src fd qs adds cs ({[EntityID r]} ∪ p) d [WReconciling r] w wt b, [Started (EntityID r)]).
Proof. intros Hp. cbn. unfold begin_process. by rewrite decide_False. Qed.

Lemma step_Stamp f L t src fd r dl nx qs adds cs p d w wt b :
  0 < dl →
  step f L (Run t false src fd qs adds cs p d [WEnqueue r dl nx] w wt b) (Stamp 0) =
  Some (Run t false src fd qs adds cs p d [WSending (WaitingItem r (t + dl) 0) nx] w wt b, []).
Proof. intros Hd. cbn. unfold stamp. by destruct (Z.ltb_spec 0 dl); [|lia]. Qed.

Lemma step_Send f L t src fd it l qs adds cs p d w wt b :
  (length adds < add_cap L)%nat →
  step f L (Run t false src fd qs adds cs p d [WSending it (ToComplete l)] w wt b) (Send 0) =
  Some (Run t false src fd qs (adds ++ [it]) cs p d [WDispatched (req it) l] w wt b, []).
Proof. intros Hlt%Nat.ltb_lt. cbn -[Nat.ltb]. by rewrite Hlt. Qed.

Lemma step_Complete f L t src fd r l qs adds cs p d w wt b :
  d !! EntityID r = None →
  step f L (Run t false src fd qs adds cs p d [WDispatched r l] w wt b) (Complete 0) =
  Some (Run t false src fd qs adds cs (p ∖ {[EntityID r]}) (delete (EntityID r) d) [WIdle] w wt b, []).
Proof. intros Hd. cbn. unfold complete. cbn. by rewrite Hd. Qed.

(** The outcome of a reconcile that went well and asks for nothing. *)
Definition success : reconciled := Returns (Build_Result 0) None.

(** [acts] triggers [n] times, does not stop the run, and every reconcile succeeds. *)
Definition succeeding (a : action) : Prop :=
  match a with Stop => False | Reconcile _ out => out = success | _ => True end.
Definition triggers (a : action) : bool := match a with Trigger _ => true | _ => false end.
Definition healthy (n : nat) (acts : list action) : Prop :=
  Forall succeeding acts ∧ length (List.filter triggers acts) = n.

Lemma healthy_app n m l k : healthy n l → healthy m k → healthy (n + m) (l ++ k).
Proof.
  intros [Hl Hn] [Hk Hm]. split; [by apply Forall_app|]. by rewrite List.filter_app, length_app, Hn, Hm.
Qed.

Section wedge.
Context (f : Z → Z) (I : Duration) (HI : 0 < I) (q a : nat).
Let L := MkLoop I false (S q) (S a).

(** One worker, at rest at [t], with the items of [w] waiting. *)
Definition resting (t : Time) (w : waiting) (x : Time) (b : entityBackoff) : run :=
  Run t false [] FIdle [] [] [] ∅ ∅ [WIdle] w (QArmed x) b.

(** An entity is triggered, reconciled with success, and waits for its next turn. *)
Definition one_success (r : Request) : list action :=
  [Trigger r; Feed; Feed; Take 0; Reconcile 0 success; Stamp 0; Send 0; Complete 0; WaitAdd; Wait; Wait].

Definition waits_at (t : Time) (w : waiting) : Prop := queue_ok w ∧ map_Forall (λ _ t', t' = t) (due_times w).

Lemma armed_soon t w : waits_at (t + I) w → t + nextWaitingDelay (heap w) t ≤ t + I + waitingQueueIdleDelay.
Proof.
  intros [Hok Hall]. destruct (nextWaitingDelay_ok w t Hok) as [|e t' He _]; unfold waitingQueueIdleDelay, Hour, Minute, Second, Millisecond; [lia|].
  apply Hall in He. subst. unfold Sub, MinInt64. lia.
Qed.

Lemma unmark (e : string) : ({[e]} ∪ ∅ : gset string) ∖ {[e]} = ∅.
Proof. set_solver. Qed.

Lemma one_success_exec t w x b r :
  waits_at (t + I) w → due_times w !! EntityID r = None →
  ∃ w' x' b' evs, exec f L (resting t w x b) (one_success r) = Some (resting t w' x' b', evs) ∧
    waits_at (t + I) w' ∧ due_times w' = <[EntityID r := t + I]> (due_times w) ∧ x' ≤ t + I + waitingQueueIdleDelay.
Proof.
  intros [Hok Hall] Hnew. set (it := WaitingItem r (t + I) 0).
  destruct (addOrMergeWaiting_ok w it Hok) as [Hok' Hdue]. unfold requeue in Hdue. cbn in Hdue. rewrite Hnew in Hdue. cbn in Hdue.
  assert (Hw' : waits_at (t + I) (addOrMergeWaiting w it)).
  { split; [done|]. rewrite Hdue. by apply map_Forall_insert_2. }
  exists (addOrMergeWaiting w it), (t + nextWaitingDelay (heap (addOrMergeWaiting w it)) t), (Forget b (EntityID r)). eexists.
  split_and!; [|done|done|by apply armed_soon].
  assert (Hpop : pop_ready (addOrMergeWaiting w it) t = None).
  { destruct (pop_ready _ t) as [[r' w']|] eqn:Hp; [|done]. apply pop_ready_Some in Hp as (_ & _ & _ & t' & Ht' & Hle & _); [|done].
    apply Hw' in Ht'. lia. }
  unfold one_success, resting. do 3 (eapply exec_step; [reflexivity|tidy]).
  eapply exec_step; [apply step_Take; set_solver|].
  eapply exec_step; [reflexivity|tidy]. eapply exec_step; [by apply step_Stamp|].
  eapply exec_step; [apply step_Send; cbn; lia|].
  eapply exec_step; [apply step_Complete; apply lookup_empty|]. tidy. rewrite unmark, delete_empty.
  do 2 (eapply exec_step; [reflexivity|tidy]).
  eapply exec_step; [cbn; fold it; rewrite Hpop; reflexivity|]. reflexivity.
Qed.

(** All the entities are waiting, for the same time. *)
Lemma all_succeed t rs : ∀ w x b,
  waits_at (t + I) w → x ≤ t + I + waitingQueueIdleDelay →
  NoDup (EntityID <$> rs) → (∀ r, r ∈ rs → due_times w !! EntityID r = None) →
  ∃ acts w' x' b' evs, exec f L (resting t w x b) acts = Some (resting t w' x' b', evs) ∧ waits_at (t + I) w' ∧
    size (due_times w') = (length rs + size (due_times w))%nat ∧ x' ≤ t + I + waitingQueueIdleDelay ∧
    healthy (length rs) acts.
Proof.
  induction rs as [|r rs IH]; intros w x b Hw Hx Hnd Hnew.
  { exists [], w, x, b, []. by split_and!. }
  cbn in Hnd. apply NoDup_cons in Hnd as [Hni Hnd].
  destruct (one_success_exec t w x b r Hw (Hnew r ltac:(by left))) as (w1 & x1 & b1 & e1 & He1 & Hw1 & Hdue & Hx1).
  destruct (IH w1 x1 b1 Hw1 Hx1 Hnd) as (acts & w2 & x2 & b2 & e2 & He2 & Hw2 & Hsz & Hx2 & Hh).
  { intros r' Hr'. rewrite Hdue, lookup_insert_ne; [by apply Hnew; right|]. intros Heq. apply Hni. rewrite Heq. by apply list_elem_of_fmap_2. }
  exists (one_success r ++ acts), w2, x2, b2, (e1 ++ e2). split_and!; [apply exec_app; eauto 10|done| |done|].
  2: { apply (healthy_app 1); [|done]. by repeat constructor. }
  rewrite Hsz, Hdue, map_size_insert_None by (by apply Hnew; left). cbn. lia.
Qed.

(** The requests are due at [t] and being delivered. *)
Definition delivering (t : Time) (q : list Request) (adds : list waitingItem) (w : waiting) (b : entityBackoff) : run :=
  Run t false [] FIdle q adds [] ∅ ∅ [WIdle] w (QDraining t) b.

Definition overdue (t : Time) (n : nat) (w : waiting) : Prop :=
  queue_ok w ∧ map_Forall (λ _ t', t' ≤ t) (due_times w) ∧ size (due_times w) = n.

Lemma overdue_pop t n w : overdue t (S n) w → ∃ r w', pop_ready w t = Some (r, w') ∧ overdue t n w'.
Proof.
  intros (Hok & Hall & Hsz). destruct (pop_ready w t) as [[r w']|] eqn:Hp.
  - exists r, w'. split; [done|]. apply pop_ready_Some in Hp as (Hok' & Hdue & _ & t' & Ht' & _); [|done].
    split_and!; [done| |]; rewrite Hdue; [by apply map_Forall_delete|].
    rewrite map_size_delete_Some by eauto. by rewrite Hsz.
  - exfalso. pose proof (pop_ready_None w t Hok Hp) as Hn.
    destruct (map_choose (due_times w)) as (e & t' & He); [intros Hemp; by rewrite Hemp, map_size_empty in Hsz|].
    specialize (Hn e t' He). specialize (Hall e t' He). cbn in *. lia.
Qed.

Lemma deliver_one t qs adds w b n :
  (length qs < S q)%nat → overdue t (S n) w →
  ∃ r w' evs, exec f L (delivering t qs adds w b) [Wait; Wait] = Some (delivering t (qs ++ [r]) adds w' b, evs) ∧ overdue t n w'.
Proof.
  intros Hlt Hov. destruct (overdue_pop t n w Hov) as (r & w' & Hp & Hov'). exists r, w', []. split; [|done].
  cbn [exec]. unfold delivering at 1. cbn [step waiter waits]. rewrite Hp. cbn [mbind option_bind step waiter waits queue set_waits].
  assert ((length qs <? queue_cap L)%nat = true) as -> by (by apply Nat.ltb_lt). done.
Qed.

Lemma deliver_many t k : ∀ qs adds w b n,
  (length qs + k ≤ S q)%nat → overdue t (k + n) w →
  ∃ acts qs' w' evs, exec f L (delivering t qs adds w b) acts = Some (delivering t qs' adds w' b, evs) ∧
    length qs' = (length qs + k)%nat ∧ overdue t n w' ∧ healthy 0 acts.
Proof.
  induction k as [|k IH]; intros qs adds w b n Hle Hov; [exists [], qs, w, []; by split_and!|].
  destruct (deliver_one t qs adds w b (k + n)) as (r & w1 & e1 & He1 & Hov1); [lia|done|].
  destruct (IH (qs ++ [r]) adds w1 b n) as (acts & qs2 & w2 & e2 & He2 & Hl2 & Hov2 & Hh); [rewrite length_app; cbn; lia|done|].
  rewrite length_app in Hl2. cbn in Hl2.
  exists ([Wait; Wait] ++ acts), qs2, w2, (e1 ++ e2). split_and!; [apply exec_app; eauto 10|lia|done|].
  apply (healthy_app 0); [|done]. by repeat constructor.
Qed.

(** With the queue full, a reconcile makes room for one request and one addition. *)
Definition one_around : list action :=
  [Wait; Take 0; Reconcile 0 success; Stamp 0; Send 0; Complete 0; Wait].

Lemma around_once t r qs adds w b n :
  length (r :: qs) = S q → (length adds < S a)%nat → overdue t (S n) w →
  ∃ r' it w' b' evs, exec f L (delivering t (r :: qs) adds w b) one_around =
    Some (delivering t (qs ++ [r']) (adds ++ [it]) w' b', evs) ∧ overdue t n w'.
Proof.
  intros Hq Ha Hov. destruct (overdue_pop t n w Hov) as (r' & w' & Hp & Hov').
  exists r', (WaitingItem r (t + I) 0), w', (Forget b (EntityID r)). eexists. split; [|done].
  unfold one_around, delivering. eapply exec_step; [cbn [step waiter waits]; rewrite Hp; reflexivity|tidy].
  eapply exec_step; [apply step_Take; set_solver|].
  eapply exec_step; [reflexivity|tidy]. eapply exec_step; [by apply step_Stamp|].
  eapply exec_step; [by apply step_Send|].
  eapply exec_step; [apply step_Complete; apply lookup_empty|]. tidy. rewrite unmark, delete_empty.
  eapply exec_step; [|reflexivity]. cbn -[Nat.ltb]. destruct (Nat.ltb_spec (length qs) (S q)); [done|cbn in Hq; lia].
Qed.

Lemma around_many t k : ∀ qs adds w b n,
  length qs = S q → (length adds + k ≤ S a)%nat → overdue t (k + n) w →
  ∃ acts qs' adds' w' b' evs, exec f L (delivering t qs adds w b) acts = Some (delivering t qs' adds' w' b', evs) ∧
    length qs' = S q ∧ length adds' = (length adds + k)%nat ∧ overdue t n w' ∧ healthy 0 acts.
Proof.
  induction k as [|k IH]; intros qs adds w b n Hq Ha Hov; [exists [], qs, adds, w, b, []; by split_and!|].
  destruct qs as [|r qs]; [done|].
  destruct (around_once t r qs adds w b (k + n)) as (r' & it & w1 & b1 & e1 & He1 & Hov1); [done|lia|done|].
  destruct (IH (qs ++ [r']) (adds ++ [it]) w1 b1 n) as (acts & qs2 & adds2 & w2 & b2 & e2 & He2 & Hl2 & Ha2 & Hov2 & Hh);
    [rewrite length_app; cbn in *; lia|rewrite length_app; cbn; lia|done|].
  rewrite length_app in Ha2. cbn in Ha2.
  exists (one_around ++ acts), qs2, adds2, w2, b2, (e1 ++ e2). split_and!; [apply exec_app; eauto 10|done|lia|done|].
  apply (healthy_app 0); [|done]. by repeat constructor.
Qed.

(** Both channels full: one more reconcile, one more delivery. *)
Lemma last_turn t qs adds w b :
  length qs = S q → length adds = S a → overdue t 2 w →
  ∃ s evs, exec f L (delivering t qs adds w b) [Wait; Take 0; Reconcile 0 success; Stamp 0; Wait; Wait] = Some (s, evs) ∧ wedged L s.
Proof.
  intros Hq Ha Hov. destruct qs as [|r qs]; [done|]. injection Hq as Hq.
  destruct (overdue_pop t 1 w Hov) as (r1 & w1 & Hp1 & Hov1). destruct (overdue_pop t 0 w1 Hov1) as (r2 & w2 & Hp2 & _).
  eexists _, _. split.
  - unfold delivering. eapply exec_step; [cbn [step waiter waits]; rewrite Hp1; reflexivity|tidy].
    eapply exec_step; [apply step_Take; set_solver|].
    eapply exec_step; [reflexivity|tidy]. eapply exec_step; [by apply step_Stamp|].
    eapply exec_step.
    { cbn -[Nat.ltb]. destruct (Nat.ltb_spec (length qs) (S q)); [reflexivity|lia]. }
    tidy. eapply exec_step; [cbn [step waiter waits]; rewrite Hp2; reflexivity|reflexivity].
  - tidy. split; cbn; [done|eauto|rewrite length_app; cbn; lia|]. repeat constructor. cbn. lia.
Qed.

Lemma first_wait t n b m :
  n = 1%nat → ∃ x bk, exec f L (spawnActive t n b m) [Wait; Wait] = Some (resting t no_items x bk, []) ∧
    x ≤ t + I + waitingQueueIdleDelay.
Proof.
  intros ->. eexists _, _. split; [reflexivity|]. cbn. unfold waitingQueueIdleDelay, Hour, Minute, Second, Millisecond. lia.
Qed.

(** The clock passes the time they are all due, and the timer fires. *)
Lemma time_passes t w x b n :
  waits_at (t + I) w → size (due_times w) = n → x ≤ t + I + waitingQueueIdleDelay →
  let t' := t + (I + waitingQueueIdleDelay) in
  exec f L (resting t w x b) [Tick (I + waitingQueueIdleDelay); WaitTimer; Wait] = Some (delivering t' [] [] w b, []) ∧
  overdue t' n w.
Proof.
  intros [Hok Hall] Hsz Hx t'. assert (0 ≤ waitingQueueIdleDelay) as Hpos by done. split.
  - eapply (exec_step _ _ _ _ _ [] _ _ []).
    { cbn [step]. destruct (Z.leb_spec 0 (I + waitingQueueIdleDelay)); [reflexivity|lia]. }
    eapply (exec_step _ _ _ _ _ [] _ _ []).
    { cbn [step waiter set_env resting clock]. fold t'. destruct (Z.leb_spec x t'); [reflexivity|lia]. }
    eapply (exec_step _ _ _ _ _ [] _ _ []); reflexivity.
  - split_and!; [done| |done]. intros e t0 Ht0. apply Hall in Ht0. cbn. lia.
Qed.

Lemma wedge_reached t b m :
  ∃ acts s evs, healthy (S q + S a + 2) acts ∧ exec f L (spawnActive t 1 b m) acts = Some (s, evs) ∧ wedged L s.
Proof.
  destruct (first_wait t 1 b m eq_refl) as (x0 & b0 & He0 & Hx0).
  set (rs := (λ k : nat, Build_Request (pretty k)) <$> seq 0 (S q + (S a + 2))).
  assert (Hnd : NoDup (EntityID <$> rs)).
  { unfold rs. rewrite <-list_fmap_compose. apply NoDup_fmap_2; [|apply NoDup_seq]. intros i j Hij. by apply (inj pretty) in Hij. }
  assert (Hd0 : due_times no_items = ∅) by (unfold due_times; apply omap_empty).
  destruct (all_succeed t rs no_items x0 b0) as (acts1 & w1 & x1 & b1 & e1 & He1 & Hw1 & Hsz & Hx1 & Hh1); [|done|done| |].
  { split; [apply no_items_ok|]. rewrite Hd0. apply map_Forall_empty. }
  { intros r _. by rewrite Hd0, lookup_empty. }
  assert (Hn : size (due_times w1) = (S q + (S a + 2))%nat).
  { rewrite Hsz, Hd0, map_size_empty. unfold rs. rewrite length_fmap, length_seq. lia. }
  destruct (time_passes t w1 x1 b1 _ Hw1 Hn Hx1) as [He2 Hov]. set (t' := t + (I + waitingQueueIdleDelay)) in *.
  destruct (deliver_many t' (S q) [] [] w1 b1 (S a + 2)) as (acts3 & qs & w3 & e3 & He3 & Hl3 & Hov3 & Hh3); [cbn; lia|done|].
  destruct (around_many t' (S a) qs [] w3 b1 2) as (acts4 & qs4 & adds4 & w4 & b4 & e4 & He4 & Hl4 & Ha4 & Hov4 & Hh4); [done|cbn; lia|done|].
  destruct (last_turn t' qs4 adds4 w4 b4 Hl4 Ha4 Hov4) as (s & e5 & He5 & Hwd).
  assert (Hlen : length rs = (S q + S a + 2)%nat) by (unfold rs; rewrite length_fmap, length_seq; lia).
  eexists ([Wait; Wait] ++ acts1 ++ [Tick (I + waitingQueueIdleDelay); WaitTimer; Wait] ++ acts3 ++ acts4 ++
    [Wait; Take 0; Reconcile 0 success; Stamp 0; Wait; Wait]), s, _.
  split; [|split; [|exact Hwd]].
  { rewrite <-Hlen, <-(Nat.add_0_r (length rs)). apply (healthy_app 0 (length rs + 0)); [by repeat constructor|].
    apply (healthy_app (length rs) 0); [done|]. repeat (apply (healthy_app 0 0); [done || by repeat constructor|]). by repeat constructor. }
  do 5 (apply exec_app; do 3 eexists; split; [eassumption|split; [|reflexivity]]). eassumption.
Qed.
End wedge.

(** C29: the loop can wedge itself.  For any positive requeue interval and any positive
    sizes [q] and [a] of the work queue and of addCh, there is a run with one worker
    that is triggered for [q + a + 2] entities, is not stopped, and in which every
    reconcile succeeds, that reaches a state where the worker waits for room in addCh
    and the delaying queue for room in the work queue.  From then on, however much
    time passes and whatever is triggered, nothing is reconciled until the run is
    stopped. *)
Theorem requeue_deadlock f I q a t b m :
  0 < I → (0 < q)%nat → (0 < a)%nat →
  let L := MkLoop I false q a in
  ∃ acts s evs, healthy (q + a + 2) acts ∧ exec f L (spawnActive t 1 b m) acts = Some (s, evs) ∧ wedged L s ∧
    ∀ acts' s' evs', Stop ∉ acts' → exec f L s acts' = Some (s', evs') → wedged L s' ∧ ∀ e, Started e ∉ evs'.
Proof.
  intros HI Hq Ha L. destruct q as [|q], a as [|a]; [lia..|].
  destruct (wedge_reached f I HI q a t b m) as (acts & s & evs & Hh & He & Hw). exists acts, s, evs. split_and!; [done..|].
  intros acts' s' evs' Hno He'. eapply wedged_forever; [|done..]. cbn. lia.
Qed.

(** The sizes loop.go gives the channels. *)
Definition production : Loop := MkLoop defaultReconcileInterval false queueBuffer addChBuffer.

Lemma requeue_deadlock_witness :
  ∃ acts s evs, healthy (queueBuffer + addChBuffer + 2) acts ∧
    exec (λ x, x) production (spawnActive 0 1 0 0) acts = Some (s, evs) ∧ wedged production s ∧
    ∀ acts' s' evs', Stop ∉ acts' → exec (λ x, x) production s acts' = Some (s', evs') →
      wedged production s' ∧ ∀ e, Started e ∉ evs'.
Proof.
  apply (requeue_deadlock (λ x, x) defaultReconcileInterval queueBuffer addChBuffer 0 0 0).
  - reflexivity.
  - apply Nat.lt_0_succ.
  - apply Nat.lt_0_succ.
Defined.

(** The loop at rest, before anything is triggered. *)
Lemma stuck_is_settled_or_wedged_witness :
  ∃ s, exec (λ x, x) production (spawnActive 0 1 0 0) [Wait; Wait] = Some (s, []) ∧
    ((settled s ∧ ∃ t, waiter s = QArmed t ∧ clock s < t) ∨ wedged production s).
Proof.
  eexists. split; [reflexivity|].
  eapply (stuck_is_settled_or_wedged (λ x, x) production 0 1 0 0 [Wait; Wait]).
  - apply Nat.lt_0_succ.
  - apply Nat.lt_0_succ.
  - apply Nat.lt_0_succ.
  - reflexivity.
  - reflexivity.
  - intros a Ha. destruct a as [| | | | |[|[]]|[|[]]|[|[]]|[|[]]|[|[]]|[|[]]|[|[]]| | | | |]; try destruct Ha; reflexivity.
Defined.

(** ** What the order of two channels decides *)

Section races.
Let a : Request := Build_Request "a".
Let rejected : reconciled := Returns (Build_Result 0) (PermanentError (Some (Leaf (ErrorsNew "revoked")))).
Let failed : reconciled := Returns (Build_Result 0) (Some (Leaf (ErrorsNew "unavailable"))).

(** Triggered and reconciled, up to the requeue or the cancellation being sent. *)
Definition ends_with (out : reconciled) (sends : list action) : list action :=
  [Trigger a; Feed; Feed; Take 0; Reconcile 0 out] ++ sends ++ [Complete 0].

(** The delaying queue receives the cancellation of a dead-lettered entity before the
    requeue that was sent before it: the entity is reconciled again with no trigger
    in between. *)
Lemma dead_letter_resurrected :
  ∃ s, exec (λ x, x) production (spawnActive 0 1 0 0)
    ([Wait; Wait] ++ ends_with success [Stamp 0; Send 0] ++ ends_with rejected [Send 0] ++
     [WaitCancel; Wait; Wait; WaitAdd; Wait; Wait; Tick (30 * Second); WaitTimer; Wait; Wait; Wait; Take 0]) =
  Some (s, [Triggered "a"; Started "a"; Ended "a" resultSuccess;
            Triggered "a"; Started "a"; Ended "a" resultPermanent; Started "a"]).
Proof. eexists. vm_compute. reflexivity. Qed.

(** It receives the cancellation of an earlier dead letter after the retry of a later
    transient failure: the retry is gone, and the loop is at rest. *)
Lemma retry_cancelled :
  ∃ s, exec (λ x, x) production (spawnActive 0 1 0 0)
    ([Wait; Wait] ++ ends_with rejected [Send 0] ++ ends_with failed [Stamp 0; Send 0] ++
     [WaitAdd; Wait; Wait; WaitCancel; Wait; Wait]) =
  Some (s, [Triggered "a"; Started "a"; Ended "a" resultPermanent;
            Triggered "a"; Started "a"; Ended "a" resultTransient]) ∧
  settled s ∧ due_times (waits s) = ∅.
Proof.
  eexists. split; [vm_compute; reflexivity|]. split; [|reflexivity].
  split; try reflexivity; [repeat constructor|done|eexists; reflexivity].
Qed.
End races.
