(* ===== verification/ReconcileLease.v ===== *)
(** * kernel/reconcile: leases, epochs and fenced writes

    leader.go's interface of an elector with the two adapters that implement it, over
    the reconcile_leases table of adapters/postgres and over the scripts of
    adapters/redis; the terms of loop.go's leaderManage; and fenced.go's writer over
    the repository of reconciletest, which implements the documented comparison of
    epochs.  The clock of the lease store, lost requests and lost replies are
    arguments of each call. *)

From S2P Require Import Prelude GoJson JsonText Reconcile.

(** ** Tokens and windows *)

Record LeaseToken : Type := Token {
  ReconcilerID : string;
  HolderID : string;
  Epoch : Z;
  AcquiredAt : Time;
  ExpiresAt : Time
}.

Definition ErrReconcileLeaseLost : goerror :=
  Errcode KindConflict "ERR_RECONCILE_LEASE_LOST" "reconcile: lease lost (no longer held by this holder)".
Definition ErrLeaseHeld : goerror :=
  Errcode KindConflict "ERR_RECONCILE_LEASE_HELD" "reconcile: lease held by another holder".
Definition ErrFencedWriterUnbound : goerror :=
  Errcode KindInternal "ERR_FENCED_WRITER_UNBOUND"
    "reconcile: FencedWriter has no bound repository (not minted by the Loop)".

Record LeaseTTL : Type := TTL { ms : Z }.

Definition NewLeaseTTL (d : Duration) : outcome LeaseTTL :=
  if d <? Millisecond then
    Err (Errcode KindInternal "ERR_CELL_INVALID_CONFIG" "reconcile: lease TTL must be at least 1ms")
  else Ok (TTL (Z.quot d Millisecond)).

Definition Window (t : LeaseTTL) : Duration := wrap64 (ms t * Millisecond).

Definition defaultRenewInterval : Duration := 5 * Second.

Definition renewIntervalFor (renewInterval : Duration) (token : LeaseToken) : Duration :=
  if 0 <? renewInterval then renewInterval
  else
    let d := Z.quot (Sub (ExpiresAt token) (AcquiredAt token)) 3 in
    if 0 <? d then d else defaultRenewInterval.

(** ** The interface *)

(** What becomes of a request to the store: it is answered, or it is lost before it
    takes effect, or its answer is. *)
Inductive reply : Type := Answered | LostRequest | LostReply.

(** One call: the store's clock, the caller's, and what becomes of it. *)
Record call : Type := Call { server_now : Time; local_now : Time; fate : reply }.

Class LeaderElector (St : Type) : Type := {
  AcquireLease : LeaseTTL → call → string → string → St → outcome LeaseToken * St;
  RenewLease : LeaseTTL → call → string → string → St → outcome unit * St;
  ReleaseLease : call → string → string → St → outcome unit * St;
  (** Who holds, or held last, the lease of a reconciler, as far as the store still
      knows, and at which epoch. *)
  standing : St → string → option string * Z;
  (** What the adapter keeps true of the store. *)
  valid : St → Prop;
  (** The store has kept what a call relies on. *)
  intact : call → string → St → Prop
}.

(** Epochs grow; at one epoch the holder does not change, though it may be forgotten. *)
Definition succeeds (x y : option string * Z) : Prop :=
  x.2 < y.2 ∨ (x.2 = y.2 ∧ (y.1 = x.1 ∨ y.1 = None)).

Class ElectorLaws (St : Type) `{!LeaderElector St} : Prop := {
  acquire_law ttl c h rid s :
    valid s → intact c rid s →
    let '(r, s') := AcquireLease ttl c h rid s in
    valid s' ∧ (∀ rid', succeeds (standing s rid') (standing s' rid')) ∧
    ∀ token, r = Ok token →
      ReconcilerID token = rid ∧ HolderID token = h ∧ standing s' rid = (Some h, Epoch token) ∧ 0 < Epoch token;
  renew_law ttl c h rid s :
    valid s →
    let '(_, s') := RenewLease ttl c h rid s in valid s' ∧ ∀ rid', succeeds (standing s rid') (standing s' rid');
  release_law c h rid s :
    valid s →
    let '(_, s') := ReleaseLease c h rid s in valid s' ∧ ∀ rid', succeeds (standing s rid') (standing s' rid')
}.

(** ** The Postgres adapter *)

Record lease_row : Type := Row { holder_id : string; epoch : Z; acquired_at : Time; expires_at : Time }.

(** reconcile_leases, by reconciler_id. *)
Notation lease_table := (gmap string lease_row).

(** The statement fails ([None]) when epoch + 1 is out of range for a bigint; it
    returns no row when ON CONFLICT's WHERE rejects the row that is there. *)
Definition pgReconcileAcquireSQL (now : Time) (rid holder : string) (ms : Z) (t : lease_table)
  : option (option lease_row * lease_table) :=
  let expires := now + ms * Millisecond in
  match t !! rid with
  | None => let r := Row holder 1 now expires in Some (Some r, <[rid := r]> t)
  | Some row =>
      if (expires_at row <? now) || str_eqb (holder_id row) holder then
        let e := if str_eqb (holder_id row) holder && (now <? expires_at row) then epoch row else epoch row + 1 in
        if MaxInt64 <? e then None
        else let r := Row holder e now expires in Some (Some r, <[rid := r]> t)
      else Some (None, t)
  end.

(** The rows affected, and the table. *)
Definition pgReconcileRenewSQL (now : Time) (rid holder : string) (ms : Z) (t : lease_table) : Z * lease_table :=
  match t !! rid with
  | Some row =>
      if str_eqb (holder_id row) holder && (now <? expires_at row) then
        (1, <[rid := Row (holder_id row) (epoch row) (acquired_at row) (now + ms * Millisecond)]> t)
      else (0, t)
  | None => (0, t)
  end.

Definition pgReconcileReleaseSQL (now : Time) (rid holder : string) (t : lease_table) : lease_table :=
  match t !! rid with
  | Some row =>
      if str_eqb (holder_id row) holder then
        <[rid := Row (holder_id row) (epoch row) (acquired_at row) (now - Second)]> t
      else t
  | None => t
  end.

Definition epochToUint64 (e : Z) : Z := if e <? 0 then 0 else e.

Definition pg_error (op : string) : goerror :=
  Errcode KindInternal "ERR_ADAPTER_PG_QUERY" ("postgres reconcile elector: " ++ op)%string.

Definition pg_AcquireLease (ttl : LeaseTTL) (c : call) (holder rid : string) (t : lease_table)
  : outcome LeaseToken * lease_table :=
  match fate c with
  | LostRequest => (Err (pg_error "acquire"), t)
  | _ =>
      match pgReconcileAcquireSQL (server_now c) rid holder (ms ttl) t with
      | None => (Err (pg_error "acquire"), t)
      | Some (row, t') =>
          match fate c, row with
          | Answered, Some r => (Ok (Token rid holder (epochToUint64 (epoch r)) (acquired_at r) (expires_at r)), t')
          | Answered, None => (Err ErrLeaseHeld, t')
          | _, _ => (Err (pg_error "acquire"), t')
          end
      end
  end.

Definition pg_RenewLease (ttl : LeaseTTL) (c : call) (holder rid : string) (t : lease_table)
  : outcome unit * lease_table :=
  match fate c with
  | LostRequest => (Err (pg_error "renew"), t)
  | f =>
      let '(rows, t') := pgReconcileRenewSQL (server_now c) rid holder (ms ttl) t in
      match f with
      | Answered => (if rows =? 0 then Err ErrReconcileLeaseLost else Ok tt, t')
      | _ => (Err (pg_error "renew"), t')
      end
  end.

Definition pg_ReleaseLease (c : call) (holder rid : string) (t : lease_table) : outcome unit * lease_table :=
  match fate c with
  | LostRequest => (Err (pg_error "release"), t)
  | f =>
      let t' := pgReconcileReleaseSQL (server_now c) rid holder t in
      match f with
      | Answered => (Ok tt, t')
      | _ => (Err (pg_error "release"), t')
      end
  end.

#[global] Instance pg_elector : LeaderElector lease_table := {|
  AcquireLease := pg_AcquireLease;
  RenewLease := pg_RenewLease;
  ReleaseLease := pg_ReleaseLease;
  standing t rid := match t !! rid with Some r => (Some (holder_id r), epoch r) | None => (None, 0) end;
  valid t := map_Forall (λ _ r, 0 < epoch r) t;
  intact _ _ _ := True
|}.

(** ** The Redis adapter *)

Inductive rvalue : Type := Text (s : string) | Number (n : Z).

(** A key's value and the time it expires. *)
Notation keyspace := (gmap string (rvalue * Time)).

(** GET: a key past its time is not there. *)
Definition redis_GET (now : Time) (k : keyspace) (key : string) : option rvalue :=
  match k !! key with
  | Some (v, expires) => if now <? expires then Some v else None
  | None => None
  end.

Definition applyHashtag (ns key role : string) : string := (ns ++ ":{" ++ key ++ "}:" ++ role)%string.
Definition holderKey (ns rid : string) : string := applyHashtag ns rid "lease".
Definition epochKey (ns rid : string) : string := applyHashtag ns rid "epoch".

Definition reconcileEpochKeyTTL : Duration := 30 * 24 * Hour.

Definition reconcileEpochKeyTTLSecondsFor (ttl : Duration) : outcome Z :=
  if ttl <? Second then
    Err (Errcode KindInternal "ERR_CELL_INVALID_CONFIG" "redis reconcile elector: epoch key TTL must be at least 1s")
  else Ok (Z.quot ttl Second).
Definition reconcileEpochKeyTTLSeconds : outcome Z := reconcileEpochKeyTTLSecondsFor reconcileEpochKeyTTL.

(** PEXPIRE and EXPIRE of a key that is there. *)
Definition redis_EXPIRE (k : keyspace) (key : string) (expires : Time) : keyspace :=
  alter (λ '(v, _), (v, expires)) key k.

(** What a script replies: a table, an integer, or an error. *)
Inductive script_reply : Type := RTable (acquired epoch : Z) | RInteger (n : Z) | RMalformed | RError.

(** INCR, to the range of a 64-bit integer. *)
Definition redis_INCR (now : Time) (k : keyspace) (key : string) : option Z :=
  match redis_GET now k key with
  | None => Some 1
  | Some (Number n) => if n <? MaxInt64 then Some (n + 1) else None
  | Some (Text _) => None
  end.

(** A number passes through Lua as a float64. *)
Definition reconcileAcquireScript (now : Time) (hk ek holder : string) (lease_ms epoch_s : Z) (k : keyspace)
  : script_reply * keyspace :=
  match redis_GET now k hk with
  | None =>
      let k := <[hk := (Text holder, now + lease_ms * Millisecond)]> k in
      match redis_INCR now k ek with
      | None => (RError, k)
      | Some e => (RTable 1 (float64_of e), <[ek := (Number e, now + epoch_s * Second)]> k)
      end
  | Some cur =>
      if match cur with Text h => str_eqb h holder | Number _ => false end then
        match redis_GET now k ek with
        | None => (RError, k)
        | Some e =>
            let k := redis_EXPIRE (redis_EXPIRE k hk (now + lease_ms * Millisecond)) ek (now + epoch_s * Second) in
            match e with
            | Number n => (RTable 1 (float64_of n), k)
            | Text _ => (RMalformed, k)
            end
        end
      else (RTable 0 0, k)
  end.

Definition reconcileRenewScript (now : Time) (hk ek holder : string) (lease_ms epoch_s : Z) (k : keyspace)
  : script_reply * keyspace :=
  match redis_GET now k hk with
  | Some (Text h) =>
      if str_eqb h holder then
        match redis_GET now k ek with
        | None => (RError, k)
        | Some _ =>
            (RInteger 1, redis_EXPIRE (redis_EXPIRE k hk (now + lease_ms * Millisecond)) ek (now + epoch_s * Second))
        end
      else (RInteger 0, k)
  | _ => (RInteger 0, k)
  end.

Definition releaseLockScript (now : Time) (hk holder : string) (k : keyspace) : script_reply * keyspace :=
  match redis_GET now k hk with
  | Some (Text h) => if str_eqb h holder then (RInteger 1, delete hk k) else (RInteger 0, k)
  | _ => (RInteger 0, k)
  end.

Definition redis_error (code : string) : goerror := Errcode KindInternal code "redis: operation failed".

(** The error of a malformed reply, the flag and the epoch. *)
Definition parseAcquireResult (r : script_reply) : outcome (bool * Z) :=
  match r with
  | RTable a e =>
      if negb (a =? 1) then Ok (false, 0)
      else if e <? 0 then Err (Errcode KindInternal "ERR_ADAPTER_REDIS_CONNECT" "redis reconcile elector: malformed acquire epoch")
      else Ok (true, e)
  | _ => Err (Errcode KindInternal "ERR_ADAPTER_REDIS_CONNECT" "redis reconcile elector: malformed acquire result")
  end.

(** Eval: the script runs unless the request is lost, and its reply may be. *)
Definition eval (c : call) (script : keyspace → script_reply * keyspace) (k : keyspace) : option script_reply * keyspace :=
  match fate c with
  | LostRequest => (None, k)
  | LostReply => (None, (script k).2)
  | Answered => match script k with (RError, k) => (None, k) | (r, k) => (Some r, k) end
  end.

Section redis.
Context (ns : string).

Definition redis_AcquireLease (ttl : LeaseTTL) (c : call) (holder rid : string) (k : keyspace)
  : outcome LeaseToken * keyspace :=
  match reconcileEpochKeyTTLSeconds with
  | Err e => (Err e, k)
  | Ok s =>
      match eval c (reconcileAcquireScript (server_now c) (holderKey ns rid) (epochKey ns rid) holder (ms ttl) s) k with
      | (None, k) => (Err (redis_error "ERR_ADAPTER_REDIS_SET"), k)
      | (Some r, k) =>
          match parseAcquireResult r with
          | Err e => (Err e, k)
          | Ok (false, _) => (Err ErrLeaseHeld, k)
          | Ok (true, e) => (Ok (Token rid holder e (local_now c) (local_now c + Window ttl)), k)
          end
      end
  end.

Definition redis_RenewLease (ttl : LeaseTTL) (c : call) (holder rid : string) (k : keyspace) : outcome unit * keyspace :=
  match reconcileEpochKeyTTLSeconds with
  | Err e => (Err e, k)
  | Ok s =>
      match eval c (reconcileRenewScript (server_now c) (holderKey ns rid) (epochKey ns rid) holder (ms ttl) s) k with
      | (Some (RInteger 1), k) => (Ok tt, k)
      | (Some (RInteger _), k) => (Err ErrReconcileLeaseLost, k)
      | (_, k) => (Err (redis_error "ERR_ADAPTER_REDIS_SET"), k)
      end
  end.

Definition redis_ReleaseLease (c : call) (holder rid : string) (k : keyspace) : outcome unit * keyspace :=
  match eval c (releaseLockScript (server_now c) (holderKey ns rid) holder) k with
  | (Some (RInteger _), k) => (Ok tt, k)
  | (_, k) => (Err (redis_error "ERR_ADAPTER_REDIS_DELETE"), k)
  end.

(** The holder key as it was last written, and the epoch key, whether their time has
    passed or not. *)
Definition redis_standing (k : keyspace) (rid : string) : option string * Z :=
  (match k !! holderKey ns rid with Some (Text h, _) => Some h | _ => None end,
   match k !! epochKey ns rid with Some (Number e, _) => e | _ => 0 end).

Definition redis_elector : LeaderElector keyspace := {|
  AcquireLease := redis_AcquireLease;
  RenewLease := redis_RenewLease;
  ReleaseLease := redis_ReleaseLease;
  standing := redis_standing;
  valid k := ∀ rid v t, k !! epochKey ns rid = Some (v, t) → ∃ e, v = Number e ∧ 0 < e;
  (** The epoch key, once written, is still there and has not run out. *)
  intact c rid k := ∀ e t, k !! epochKey ns rid = Some (Number e, t) → server_now c < t ∧ e < 2 ^ 53 - 1
|}.
End redis.

(** ** Both adapters keep the interface's promise *)

Lemma succeeds_refl x : succeeds x x.
Proof. right. auto. Qed.

Lemma succeeds_insert (t t' : lease_table) rid r :
  t' = <[rid := r]> t → succeeds (standing t rid) (Some (holder_id r), epoch r) →
  ∀ rid', succeeds (standing t rid') (standing t' rid').
Proof.
  intros -> Hs rid'. cbn. destruct (decide (rid' = rid)) as [->|]; [by rewrite lookup_insert_eq|].
  rewrite lookup_insert_ne by done. apply succeeds_refl.
Qed.

Lemma str_eqb_spec a b : str_eqb a b = true → a = b.
Proof. unfold str_eqb. by intros ?%bool_decide_eq_true. Qed.

(** What the UPSERT leaves. *)
Lemma pg_acquire_row now rid h n (t : lease_table) :
  valid t →
  match pgReconcileAcquireSQL now rid h n t with
  | None => True
  | Some (None, t') => t' = t
  | Some (Some r, t') =>
      t' = <[rid := r]> t ∧ holder_id r = h ∧ 0 < epoch r ∧ succeeds (standing t rid) (Some h, epoch r)
  end.
Proof.
  intros Hv. unfold pgReconcileAcquireSQL. cbn. destruct (t !! rid) as [row|] eqn:Ht.
  - specialize (Hv rid row Ht). cbn in Hv. destruct (_ || _); [|done]. destruct (_ && _) eqn:E.
    + apply andb_true_iff in E as [E%str_eqb_spec _]. destruct (MaxInt64 <? epoch row); [done|]. cbn.
      split_and!; [done..|]. right. subst. by auto.
    + destruct (MaxInt64 <? epoch row + 1); [done|]. cbn. split_and!; [done|done|lia|]. left. cbn. lia.
  - cbn. split_and!; [done..|]. left. cbn. lia.
Qed.

#[global] Instance pg_laws : ElectorLaws lease_table.
Proof.
  split.
  - intros ttl c h rid t Hv _. cbn [AcquireLease pg_elector]. unfold pg_AcquireLease.
    assert (Hstay : ∀ (x : goerror), let '(r, s') := (Err x, t) : outcome LeaseToken * lease_table in
      valid s' ∧ (∀ rid', succeeds (standing t rid') (standing s' rid')) ∧ ∀ token, r = Ok token →
        ReconcilerID token = rid ∧ HolderID token = h ∧ standing s' rid = (Some h, Epoch token) ∧ 0 < Epoch token)
      by (intros x; split_and!; [done|intros; apply succeeds_refl|done]).
    pose proof (pg_acquire_row (server_now c) rid h (ms ttl) t Hv) as Hrow.
    destruct (pgReconcileAcquireSQL _ _ _ _ t) as [[[r|] t']|]; [| |destruct (fate c); apply Hstay].
    2: { subst t'. destruct (fate c); apply Hstay. }
    destruct Hrow as (Ht' & Hh & Hpos & Hsu).
    assert (Hv' : valid t') by (subst t'; cbn; by apply map_Forall_insert_2).
    assert (Hsu' : ∀ rid', succeeds (standing t rid') (standing t' rid')) by (eapply succeeds_insert; [done|by rewrite Hh]).
    destruct (fate c); [|apply Hstay|by split_and!]. split_and!; [done..|]. intros token [= <-]. cbn. rewrite Ht', lookup_insert_eq, Hh.
    unfold epochToUint64. destruct (Z.ltb_spec (epoch r) 0); [lia|]. done.
  - intros ttl c h rid t Hv. cbn [RenewLease pg_elector]. unfold pg_RenewLease.
    assert (Hren : let t' := (pgReconcileRenewSQL (server_now c) rid h (ms ttl) t).2 in
      valid t' ∧ ∀ rid', succeeds (standing t rid') (standing t' rid')).
    { unfold pgReconcileRenewSQL. destruct (t !! rid) as [row|] eqn:Ht; [|split; [done|intros; apply succeeds_refl]].
      destruct (_ && _); [|split; [done|intros; apply succeeds_refl]]. cbn [snd]. split.
      - cbn. apply map_Forall_insert_2; [|done]. by apply (Hv rid row).
      - eapply succeeds_insert; [done|]. cbn. rewrite Ht. apply succeeds_refl. }
    destruct (pgReconcileRenewSQL _ _ _ _ t) as [rows t']. destruct (fate c); try exact Hren.
    split; [done|]. intros. apply succeeds_refl.
  - intros c h rid t Hv. cbn [ReleaseLease pg_elector]. unfold pg_ReleaseLease.
    assert (Hrel : let t' := pgReconcileReleaseSQL (server_now c) rid h t in
      valid t' ∧ ∀ rid', succeeds (standing t rid') (standing t' rid')).
    { unfold pgReconcileReleaseSQL. destruct (t !! rid) as [row|] eqn:Ht; [|split; [done|intros; apply succeeds_refl]].
      destruct (str_eqb _ _); [|split; [done|intros; apply succeeds_refl]]. split.
      - cbn. apply map_Forall_insert_2; [|done]. by apply (Hv rid row).
      - eapply succeeds_insert; [done|]. cbn. rewrite Ht. apply succeeds_refl. }
    destruct (fate c); try exact Hrel. split; [done|]. intros. apply succeeds_refl.
Qed.

Lemma lease_epoch_ne a b : (a ++ "lease")%string ≠ (b ++ "epoch")%string.
Proof.
  revert b. induction a as [|c a IH]; intros [|d b] H.
  - done.
  - apply (f_equal String.length) in H. rewrite !length_append in H. cbn in H. lia.
  - apply (f_equal String.length) in H. rewrite !length_append in H. cbn in H. lia.
  - injection H as -> H. by eapply IH.
Qed.

Section redis_laws.
Context (ns : string).

Lemma holderKey_epochKey rid rid' : holderKey ns rid ≠ epochKey ns rid'.
Proof. unfold holderKey, epochKey, applyHashtag. rewrite <-!append_assoc. apply lease_epoch_ne. Qed.

Lemma holderKey_inj rid rid' : holderKey ns rid = holderKey ns rid' → rid = rid'.
Proof. unfold holderKey, applyHashtag. intros H. do 2 apply (inj (String.append _)) in H. by apply append_inj_r in H. Qed.

Lemma epochKey_inj rid rid' : epochKey ns rid = epochKey ns rid' → rid = rid'.
Proof. unfold epochKey, applyHashtag. intros H. do 2 apply (inj (String.append _)) in H. by apply append_inj_r in H. Qed.

Local Existing Instance redis_elector.
Local Notation elector := (redis_elector ns).

(** Only the two keys of [rid] may have changed. *)
Definition touches (rid : string) (k k' : keyspace) : Prop :=
  ∀ key, key ≠ holderKey ns rid → key ≠ epochKey ns rid → k' !! key = k !! key.

Lemma touches_standing rid k k' rid' :
  touches rid k k' → rid' ≠ rid → redis_standing ns k' rid' = redis_standing ns k rid'.
Proof.
  intros Ht Hne. unfold redis_standing.
  rewrite (Ht (holderKey ns rid')), (Ht (epochKey ns rid')); [done|..].
  - apply not_eq_sym, holderKey_epochKey.
  - by intros ?%epochKey_inj.
  - by intros ?%holderKey_inj.
  - apply holderKey_epochKey.
Qed.

(** What a script may do to the keys of [rid]. *)
Definition behaves (rid : string) (k k' : keyspace) : Prop :=
  touches rid k k' ∧ @valid _ elector k' ∧ succeeds (redis_standing ns k rid) (redis_standing ns k' rid).

Lemma behaves_refl rid k : @valid _ elector k → behaves rid k k.
Proof. intros Hv. split_and!; [by intros ?|done|apply succeeds_refl]. Qed.

Lemma behaves_succeeds rid k k' :
  behaves rid k k' → @valid _ elector k' ∧ ∀ rid', succeeds (redis_standing ns k rid') (redis_standing ns k' rid').
Proof.
  intros (Ht & Hv & Hs). split; [done|]. intros rid'. destruct (decide (rid' = rid)) as [->|Hne]; [done|].
  rewrite (touches_standing rid k k' rid' Ht Hne). apply succeeds_refl.
Qed.

Lemma redis_EXPIRE_lookup k key t key' :
  redis_EXPIRE k key t !! key' =
  (λ '(v, t'), (v, if decide (key' = key) then t else t')) <$> k !! key'.
Proof.
  unfold redis_EXPIRE. case_decide as Hk.
  - subst. rewrite lookup_alter_eq. by destruct (k !! key) as [[]|].
  - rewrite lookup_alter_ne by done. by destruct (k !! key') as [[]|].
Qed.

(** Refreshing the time of both keys changes no standing. *)
Lemma expire_behaves rid k t t' :
  @valid _ elector k → let k' := redis_EXPIRE (redis_EXPIRE k (holderKey ns rid) t) (epochKey ns rid) t' in
  behaves rid k k' ∧ redis_standing ns k' rid = redis_standing ns k rid.
Proof.
  intros Hv k'. assert (Hk : ∀ key, k' !! key = (λ '(v, t0), (v, if decide (key = epochKey ns rid) then t'
      else if decide (key = holderKey ns rid) then t else t0)) <$> k !! key).
  { intros key. unfold k'. rewrite !redis_EXPIRE_lookup. destruct (k !! key) as [[]|]; [|done]. cbn. by repeat case_decide. }
  assert (Hst : redis_standing ns k' rid = redis_standing ns k rid).
  { unfold redis_standing. rewrite !Hk. by destruct (k !! holderKey ns rid) as [[[] ]|], (k !! epochKey ns rid) as [[[] ]|]. }
  split; [|done]. split_and!.
  - intros key H1 H2. rewrite Hk. destruct (k !! key) as [[]|]; cbn; [by rewrite !decide_False by done|done].
  - intros rid' v t0. rewrite Hk. destruct (k !! epochKey ns rid') as [[v' t1]|] eqn:E; [|done]. cbn. intros [= <- _].
    by apply (Hv rid' v' t1).
  - rewrite Hst. apply succeeds_refl.
Qed.

Lemma acquire_script_ok now rid h n sec k r k' :
  @valid _ elector k → (∀ e t, k !! epochKey ns rid = Some (Number e, t) → now < t ∧ e < 2 ^ 53 - 1) →
  reconcileAcquireScript now (holderKey ns rid) (epochKey ns rid) h n sec k = (r, k') →
  behaves rid k k' ∧ ∀ e, r = RTable 1 e → redis_standing ns k' rid = (Some h, e) ∧ 0 < e.
Proof.
  intros Hv Hint. unfold reconcileAcquireScript. set (hk := holderKey ns rid). set (ek := epochKey ns rid).
  assert (Hne : hk ≠ ek) by apply holderKey_epochKey.
  assert (Hek : k !! ek = None ∨ ∃ e t, k !! ek = Some (Number e, t) ∧ 0 < e < 2 ^ 53 - 1 ∧ now < t).
  { destruct (k !! ek) as [[v t]|] eqn:E; [|by left]. right. destruct (Hv rid v t E) as (e & -> & Hpos).
    destruct (Hint e t E). exists e, t. split_and!; [done|lia..]. }
  assert (Hfl : ∀ e, e < 2 ^ 53 → float64_of e = e) by (intros e He; unfold float64_of; destruct (Z.ltb_spec e (2 ^ 53)); [done|lia]).
  destruct (redis_GET now k hk) as [cur|] eqn:Hcur.
  - destruct (match cur with Text x => str_eqb x h | Number _ => false end) eqn:E.
    2: { intros [= <- <-]. split; [by apply behaves_refl|]. congruence. }
    destruct cur as [x|]; [|done]. apply str_eqb_spec in E as ->.
    assert (Hh : (redis_standing ns k rid).1 = Some h).
    { unfold redis_GET in Hcur. unfold redis_standing. fold hk. repeat case_match; by simplify_eq. }
    destruct (redis_GET now k ek) as [v|] eqn:Hg; [|intros [= <- <-]; split; [by apply behaves_refl|done]].
    destruct (expire_behaves rid k (now + n * Millisecond) (now + sec * Second) Hv) as [Hb Hst]. fold hk ek in Hb, Hst.
    destruct Hek as [Hnone|(e & t & He & Hr & Hlt)]; unfold redis_GET in Hg; [by rewrite Hnone in Hg|].
    rewrite He in Hg. destruct (Z.ltb_spec now t); [|lia]. injection Hg as <-. intros [= <- <-]. split; [done|].
    intros x [= <-]. rewrite Hfl by lia. rewrite Hst. destruct (redis_standing ns k rid) as [sh se] eqn:Es. cbn in Hh. subst sh.
    unfold redis_standing in Es. fold ek in Es. rewrite He in Es. split; [congruence|lia].
  - set (k1 := <[hk := _]> k).
    assert (Hinc : ∃ e, redis_INCR now k1 ek = Some e ∧ (redis_standing ns k rid).2 < e < 2 ^ 53 ∧ 0 < e).
    { unfold redis_INCR, redis_GET, k1, redis_standing. fold ek. rewrite lookup_insert_ne by done.
      destruct Hek as [->|(e & t & -> & Hr & Hlt)]; [exists 1; cbn; split_and!; [done|lia..]|]. destruct (Z.ltb_spec now t); [|lia].
      unfold MaxInt64. destruct (Z.ltb_spec e (2 ^ 63 - 1)); [|lia]. exists (e + 1). cbn. split_and!; [done|lia..]. }
    destruct Hinc as (e & -> & Hlt & Hpos). intros [= <- <-]. set (k2 := <[ek := _]> k1).
    assert (Hst : redis_standing ns k2 rid = (Some h, e)).
    { unfold redis_standing. fold hk ek. unfold k2, k1. by rewrite lookup_insert_eq, lookup_insert_ne, lookup_insert_eq by done. }
    split; [|intros x [= <-]; rewrite Hfl by lia; done]. split_and!.
    + intros key H1 H2. unfold k2, k1. by rewrite !lookup_insert_ne by done.
    + intros rid' v t. unfold k2. destruct (decide (rid' = rid)) as [->|Hr].
      * fold ek. rewrite lookup_insert_eq. intros [= <- _]. eauto.
      * rewrite lookup_insert_ne by (intros ?%epochKey_inj; congruence). unfold k1.
        rewrite lookup_insert_ne by apply holderKey_epochKey. apply Hv.
    + rewrite Hst. left. apply Hlt.
Qed.

Lemma renew_script_behaves now rid h n sec k :
  @valid _ elector k → behaves rid k (reconcileRenewScript now (holderKey ns rid) (epochKey ns rid) h n sec k).2.
Proof.
  intros Hv. unfold reconcileRenewScript. repeat case_match; try by apply behaves_refl. by apply expire_behaves.
Qed.

Lemma release_script_behaves now rid h k :
  @valid _ elector k → behaves rid k (releaseLockScript now (holderKey ns rid) h k).2.
Proof.
  intros Hv. unfold releaseLockScript. repeat case_match; try by apply behaves_refl. cbn. split_and!.
  - intros key Hk1 _. by rewrite lookup_delete_ne.
  - intros rid' v t. rewrite lookup_delete_ne by apply holderKey_epochKey. apply Hv.
  - unfold redis_standing. rewrite lookup_delete_eq, lookup_delete_ne by apply holderKey_epochKey. right. by auto.
Qed.

Lemma eval_behaves c script rid k :
  @valid _ elector k → behaves rid k (script k).2 → behaves rid k (eval c script k).2.
Proof.
  intros Hv Hs. unfold eval. destruct (fate c); [|by apply behaves_refl|done]. destruct (script k) as [[] k']; done.
Qed.

#[global] Instance redis_laws : @ElectorLaws keyspace elector.
Proof.
  split.
  - intros ttl c h rid k Hv Hint. cbn [AcquireLease redis_elector]. unfold redis_AcquireLease.
    change reconcileEpochKeyTTLSeconds with (Ok 2592000). cbn match.
    set (script := reconcileAcquireScript (server_now c) (holderKey ns rid) (epochKey ns rid) h (ms ttl) 2592000). destruct (script k) as [r0 k0] eqn:Hs.
    destruct (acquire_script_ok (server_now c) rid h (ms ttl) 2592000 k r0 k0 Hv Hint Hs) as [Hb Hok].
    pose proof (eval_behaves c script rid k Hv) as Hev. rewrite Hs in Hev. specialize (Hev Hb).
    destruct (eval c script k) as [r k'] eqn:He. cbn [snd] in Hev. apply behaves_succeeds in Hev as [Hv' Hsu].
    destruct r as [r|]; [|by split_and!]. destruct (parseAcquireResult r) as [[[] e]|] eqn:Hp; [|by split_and!..].
    split_and!; [done..|]. intros token [= <-].
    assert (r = r0 ∧ k' = k0) as [-> ->]
      by (unfold eval in He; rewrite Hs in He; destruct (fate c); [|done..]; destruct r0; by simplify_eq).
    destruct r0 as [a0 e0| | |]; try done. cbn in Hp. destruct (Z.eqb_spec a0 1) as [->|]; [|done]. cbn in Hp.
    destruct (e0 <? 0); [done|]. injection Hp as <-. destruct (Hok e0 eq_refl). done.
  - intros ttl c h rid k Hv. cbn [RenewLease redis_elector]. unfold redis_RenewLease.
    change reconcileEpochKeyTTLSeconds with (Ok 2592000). cbn match.
    set (script := reconcileRenewScript (server_now c) (holderKey ns rid) (epochKey ns rid) h (ms ttl) 2592000).
    pose proof (eval_behaves c script rid k Hv (renew_script_behaves _ _ _ _ _ _ Hv)) as Hev%behaves_succeeds.
    destruct (eval c script k) as [r k']. by repeat case_match; simplify_eq.
  - intros c h rid k Hv. cbn [ReleaseLease redis_elector]. unfold redis_ReleaseLease.
    set (script := releaseLockScript (server_now c) (holderKey ns rid) h).
    pose proof (eval_behaves c script rid k Hv (release_script_behaves _ _ _ _ Hv)) as Hev%behaves_succeeds.
    destruct (eval c script k) as [r k']. by repeat case_match; simplify_eq.
Qed.
End redis_laws.
