(* ===== verification/ReconcileFence.v ===== *)
(** * kernel/reconcile: leadership across replicas

    Several replicas of one reconciler, each going through the terms of loop.go's
    leaderManage against a shared lease store, and writing through the fenced writers
    minted in those terms, at any later time.  The store is any elector that keeps
    the interface's laws. *)

From S2P Require Import Prelude Reconcile ReconcileLease.

(** ** Fenced writes *)

Record FencedEffect : Type := Effect { EntityID : string; effect_epoch : Z; Mutation : string }.

Record FakeFencedRepository : Type := Repo { lastEpoch : gmap string Z; effects : list FencedEffect }.

Definition LastEpoch (r : FakeFencedRepository) (entity : string) : Z := default 0 (lastEpoch r !! entity).

Definition ApplyFenced (r : FakeFencedRepository) (entity : string) (epoch : Z) (mutation : string)
  : bool * FakeFencedRepository :=
  if epoch <? LastEpoch r entity then (false, r)
  else (true, Repo (<[entity := epoch]> (lastEpoch r)) (effects r ++ [Effect entity epoch mutation])).

(** [repo != nil] and the epoch the writer is bound to. *)
Record FencedWriter : Type := Writer { bound : bool; writer_epoch : Z }.

Definition newFencedWriter (epoch : Z) : FencedWriter := Writer true epoch.

(** Write; the repository here returns no error of its own. *)
Definition FencedWrite (w : FencedWriter) (entity mutation : string) (r : FakeFencedRepository)
  : outcome unit * FakeFencedRepository :=
  if negb (bound w) then (Err ErrFencedWriterUnbound, r)
  else
    let '(accepted, r) := ApplyFenced r entity (writer_epoch w) mutation in
    (if accepted then Ok tt else Err ErrFencedWriteStale, r).

(** ** The terms of a replica *)

(** leaderManage: contending; in runLeaseTerm with the lease renewed; after the
    lease-scoped context was cancelled, while the term's goroutines drain; before the
    release. *)
Inductive term : Type :=
| Contending
| Leading (token : LeaseToken)
| Draining (token : LeaseToken)
| Releasing (token : LeaseToken).

Record replica : Type := Replica { holderID : string; phase : term; currentLease : option LeaseToken }.

Definition currentEpoch (r : replica) : Z :=
  match currentLease r with Some t => Epoch t | None => 0 end.

Inductive act : Type :=
| Acquire (i : nat) (c : call)
| Renew (i : nat) (c : call)
| CancelTerm (i : nat)
| Mint (i : nat)
| Drained (i : nat)
| Release (i : nat) (c : call)
| Write (k : nat) (entity mutation : string).

Record system (St : Type) : Type := System {
  store : St;
  replicas : list replica;
  minted : list (string * FencedWriter);
  repo : FakeFencedRepository;
  (** The accepted writes, with the holder each one came from. *)
  log : list (string * FencedEffect)
}.
Arguments System {St} _ _ _ _ _.
Arguments store {St} _.
Arguments replicas {St} _.
Arguments minted {St} _.
Arguments repo {St} _.
Arguments log {St} _.

Section system.
Context {St : Type} `{!LeaderElector St} (ttl : LeaseTTL) (rid : string).

Definition set_replica (s : system St) (i : nat) (r : replica) (st : St) : system St :=
  System st (<[i := r]> (replicas s)) (minted s) (repo s) (log s).

(** [None]: the replica is not where the act can happen. *)
Definition perform (s : system St) (a : act) : option (system St) :=
  match a with
  | Acquire i c =>
      r ← replicas s !! i;
      match phase r with
      | Contending =>
          let '(res, st) := AcquireLease ttl c (holderID r) rid (store s) in
          match res with
          | Ok token => Some (set_replica s i (Replica (holderID r) (Leading token) (Some token)) st)
          | Err _ => Some (set_replica s i r st)
          end
      | _ => None
      end
  | Renew i c =>
      r ← replicas s !! i;
      match phase r with
      | Leading token =>
          let '(res, st) := RenewLease ttl c (holderID r) (ReconcilerID token) (store s) in
          match res with
          | Ok _ => Some (set_replica s i r st)
          | Err _ => Some (set_replica s i (Replica (holderID r) (Draining token) (currentLease r)) st)
          end
      | _ => None
      end
  | CancelTerm i =>
      r ← replicas s !! i;
      match phase r with
      | Leading token => Some (set_replica s i (Replica (holderID r) (Draining token) (currentLease r)) (store s))
      | _ => None
      end
  | Mint i =>
      r ← replicas s !! i;
      match phase r with
      | Leading _ | Draining _ =>
          Some (System (store s) (replicas s) (minted s ++ [(holderID r, newFencedWriter (currentEpoch r))]) (repo s) (log s))
      | _ => None
      end
  | Drained i =>
      r ← replicas s !! i;
      match phase r with
      | Draining token => Some (set_replica s i (Replica (holderID r) (Releasing token) None) (store s))
      | _ => None
      end
  | Release i c =>
      r ← replicas s !! i;
      match phase r with
      | Releasing token =>
          let '(_, st) := ReleaseLease c (holderID r) (ReconcilerID token) (store s) in
          Some (set_replica s i (Replica (holderID r) Contending (currentLease r)) st)
      | _ => None
      end
  | Write k entity mutation =>
      '(h, w) ← minted s !! k;
      let '(res, r) := FencedWrite w entity mutation (repo s) in
      Some (System (store s) (replicas s) (minted s) r
              (match res with Ok _ => log s ++ [(h, Effect entity (writer_epoch w) mutation)] | Err _ => log s end))
  end.

(** The replicas before any of them has contended. *)
Definition starting (st : St) (holders : list string) : system St :=
  System st ((λ h, Replica h Contending None) <$> holders) [] (Repo ∅ []) [].

(** Executions in which the store is intact whenever it is asked for a lease. *)
Inductive history : system St → list act → system St → Prop :=
| history_nil s : history s [] s
| history_act s a s' acts s'' :
    (∀ i c, a = Acquire i c → intact c rid (store s)) →
    perform s a = Some s' → history s' acts s'' → history s (a :: acts) s''.
End system.

(** ** No leader writes behind its successor *)

Section safety.
Context {St : Type} `{!LeaderElector St, !ElectorLaws St} (ttl : LeaseTTL) (rid : string).
Implicit Types s : system St.

(** [h] has, or has minted a writer with, epoch [e]. *)
Definition bearer (s : system St) (h : string) (e : Z) : Prop :=
  (∃ w, (h, w) ∈ minted s ∧ writer_epoch w = e) ∨
  (∃ r t, r ∈ replicas s ∧ currentLease r = Some t ∧ holderID r = h ∧ Epoch t = e).

Definition term_ok (r : replica) : Prop :=
  match phase r with
  | Leading t | Draining t => currentLease r = Some t
  | _ => currentLease r = None
  end.

(** The epochs borne are not above the store's, and tell the holders apart. *)
Record ranked (s : system St) : Prop := {
  ranked_valid : valid (store s);
  ranked_below h e : bearer s h e → 0 < e ≤ (standing (store s) rid).2;
  ranked_top h e : bearer s h e → e = (standing (store s) rid).2 →
    (standing (store s) rid).1 = None ∨ (standing (store s) rid).1 = Some h;
  ranked_unique h h' e : bearer s h e → bearer s h' e → h = h';
  ranked_terms : Forall term_ok (replicas s)
}.

(** The store moves on and no epoch is handed out. *)
Lemma ranked_moves s s' :
  valid (store s') → succeeds (standing (store s) rid) (standing (store s') rid) →
  (∀ h e, bearer s' h e → bearer s h e) → Forall term_ok (replicas s') → ranked s → ranked s'.
Proof.
  intros Hv Hs Hb Ht [H1 H2 H3 H4 H5]. split; [done| | | |done].
  - intros h e Hbe%Hb%H2. destruct Hs as [?|[? _]]; lia.
  - intros h e Hbe%Hb He. pose proof (H2 h e Hbe) as Hle. destruct Hs as [?|[Heq Hh]]; [lia|].
    destruct Hh as [->| ->]; [|by left]. apply (H3 h e); [done|lia].
  - intros h h' e Hh%Hb Hh'%Hb. by eapply H4.
Qed.

Lemma bearer_replica s i r r' st h e :
  replicas s !! i = Some r → bearer (set_replica s i r' st) h e →
  bearer s h e ∨ (∃ t, currentLease r' = Some t ∧ holderID r' = h ∧ Epoch t = e).
Proof.
  intros Hi [(w & Hw & He)|(x & t & Hx & Ht & Hh & He)]; [left; left; by exists w|].
  cbn in Hx. apply list_elem_of_lookup in Hx as [j Hj]. destruct (decide (i = j)) as [->|Hne].
  - rewrite list_lookup_insert_eq in Hj by (by eapply lookup_lt_Some). simplify_eq. right. eauto.
  - rewrite list_lookup_insert_ne in Hj by done. left; right. exists x, t. split_and!; [by eapply list_elem_of_lookup_2|done..].
Qed.

(** A replica keeps its lease, or gives it up. *)
Lemma ranked_replica s i r r' st :
  replicas s !! i = Some r → valid st → succeeds (standing (store s) rid) (standing st rid) →
  holderID r' = holderID r → (currentLease r' = currentLease r ∨ currentLease r' = None) → term_ok r' →
  ranked s → ranked (set_replica s i r' st).
Proof.
  intros Hi Hv Hs Hh Hc Ht Hr. apply (ranked_moves s); [done|done| | |done].
  - intros h e [?|(t & Hl & Hho & He)]%(bearer_replica s i r); [done| |done]. destruct Hc as [Hc|Hc]; [|congruence].
    right. exists r, t. split_and!; [by eapply list_elem_of_lookup_2|congruence..].
  - cbn. apply Forall_insert; [by apply ranked_terms|done].
Qed.

Lemma ranked_acquire s i r token st :
  replicas s !! i = Some r → valid st → succeeds (standing (store s) rid) (standing st rid) →
  standing st rid = (Some (holderID r), Epoch token) → 0 < Epoch token → ranked s →
  ranked (set_replica s i (Replica (holderID r) (Leading token) (Some token)) st).
Proof.
  intros Hi Hv Hs Hst Hpos [H1 H2 H3 H4 H5]. set (s' := set_replica _ _ _ _).
  assert (Hb : ∀ h e, bearer s' h e → bearer s h e ∨ (h = holderID r ∧ e = Epoch token)).
  { intros h e [?|(t & Hl & Hho & He)]%(bearer_replica s i r); [by left| |done]. cbn in *. simplify_eq. by right. }
  assert (Hold : ∀ h e, bearer s h e → e ≤ Epoch token ∧ (e = Epoch token → h = holderID r)).
  { intros h e Hbe. pose proof (H2 h e Hbe) as Hle. rewrite Hst in Hs. destruct Hs as [Hlt|[Heq Hh]]; cbn in *; [split; lia|].
    split; [lia|]. intros ->. destruct (H3 h (Epoch token) Hbe ltac:(lia)) as [Hn|Hn]; destruct Hh as [Hh|Hh]; congruence. }
  split; cbn [store s' set_replica replicas].
  - done.
  - intros h e [Hbe|[-> ->]]%Hb; rewrite Hst; cbn; [|lia]. pose proof (H2 h e Hbe). destruct (Hold h e Hbe). lia.
  - intros h e [Hbe|[-> ->]]%Hb; rewrite Hst; cbn; [|by right]. intros He. right. f_equal. symmetry. by apply (Hold h e).
  - intros h h' e [Hbe|[-> ->]]%Hb [Hbe'|[Hh' He']]%Hb; subst; [by eapply H4| | |done].
    + by apply (Hold h (Epoch token)).
    + symmetry. by apply (Hold h' (Epoch token)).
  - apply Forall_insert; done.
Qed.

Lemma ranked_mint s i r token :
  replicas s !! i = Some r → currentLease r = Some token → ranked s →
  ranked (System (store s) (replicas s) (minted s ++ [(holderID r, newFencedWriter (currentEpoch r))]) (repo s) (log s)).
Proof.
  intros Hi Hc Hr. apply (ranked_moves s); [by apply Hr|apply succeeds_refl| |by apply Hr|done].
  intros h e [(w & Hw & He)|?]; [|by right]. cbn in Hw.
  apply elem_of_app in Hw as [Hw|Hw%list_elem_of_singleton]; [left; eauto|]. simplify_eq. right. cbn.
  exists r, token. unfold currentEpoch. rewrite Hc. split_and!; [by eapply list_elem_of_lookup_2|done..].
Qed.

Ltac replica_moves :=
  eapply ranked_replica; try done;
  first [apply succeeds_refl | by left | by right | unfold term_ok; cbn; congruence | unfold term_ok; by case_match; simplify_eq].

Lemma perform_ranked s a s' :
  (∀ i c, a = Acquire i c → intact c rid (store s)) → perform ttl rid s a = Some s' → ranked s → ranked s'.
Proof.
  intros Hint Hp Hr. pose proof (ranked_valid s Hr) as Hv. pose proof (ranked_terms s Hr) as Hterm. rewrite Forall_lookup in Hterm.
  destruct a as [i c|i c|i|i|i|i c|k entity m]; cbn in Hp.
  all: try (destruct (replicas s !! i) as [r|] eqn:Hi; [|done]; cbn in Hp; pose proof (Hterm i r Hi) as Ht; unfold term_ok in Ht;
    destruct (phase r) eqn:Hph; try done).
  - pose proof (acquire_law ttl c (holderID r) rid (store s) Hv (Hint i c eq_refl)) as Hl.
    destruct (AcquireLease ttl c (holderID r) rid (store s)) as [res st]. destruct Hl as (Hv' & Hs & Hg).
    destruct res as [token|]; simplify_eq.
    + destruct (Hg token eq_refl) as (_ & _ & Hst & Hpos). by apply ranked_acquire.
    + replica_moves.
  - pose proof (renew_law ttl c (holderID r) (ReconcilerID token) (store s) Hv) as Hl.
    destruct (RenewLease ttl c (holderID r) (ReconcilerID token) (store s)) as [res st]. destruct Hl as [Hv' Hs].
    destruct res; simplify_eq; replica_moves.
  - simplify_eq. replica_moves.
  - simplify_eq. by eapply ranked_mint.
  - simplify_eq. by eapply ranked_mint.
  - simplify_eq. replica_moves.
  - pose proof (release_law c (holderID r) (ReconcilerID token) (store s) Hv) as Hl.
    destruct (ReleaseLease c (holderID r) (ReconcilerID token) (store s)) as [res st]. destruct Hl as [Hv' Hs]. simplify_eq.
    replica_moves.
  - destruct (minted s !! k) as [[h w]|]; [|done]. cbn in Hp. destruct (FencedWrite _ _ _ _) as [res r']. simplify_eq.
    apply (ranked_moves s); [by apply Hr|apply succeeds_refl|done|by apply Hr|done].
Qed.

(** The accepted writes came from minted writers, in the order the repository allows. *)
Record fenced (s : system St) : Prop := {
  fenced_minted h f : (h, f) ∈ log s → ∃ w, (h, w) ∈ minted s ∧ writer_epoch w = effect_epoch f;
  fenced_last h f : (h, f) ∈ log s → effect_epoch f ≤ LastEpoch (repo s) (EntityID f);
  fenced_order i j h f h' f' :
    (i < j)%nat → log s !! i = Some (h, f) → log s !! j = Some (h', f') → EntityID f = EntityID f' →
    effect_epoch f ≤ effect_epoch f';
  fenced_effects : snd <$> log s = effects (repo s)
}.

Lemma perform_minted s a s' : perform ttl rid s a = Some s' → ∀ x, x ∈ minted s → x ∈ minted s'.
Proof.
  intros Hp x Hx. destruct a as [i c|i c|i|i|i|i c|k entity m]; cbn in Hp.
  all: try (destruct (replicas s !! i) as [r|]; [|done]; cbn in Hp; repeat case_match; simplify_eq; cbn; set_solver).
  destruct (minted s !! k) as [[h w]|]; [|done]. cbn in Hp. destruct (FencedWrite _ _ _ _). by simplify_eq.
Qed.

Lemma write_fenced s k entity m s' :
  perform ttl rid s (Write k entity m) = Some s' → fenced s → fenced s'.
Proof.
  intros Hp [H1 H2 H3 H4]. cbn in Hp. destruct (minted s !! k) as [[h w]|] eqn:Hk; [|done]. cbn in Hp.
  unfold FencedWrite in Hp. destruct (bound w); cbn in Hp; [|by simplify_eq].
  unfold ApplyFenced in Hp. destruct (Z.ltb_spec (writer_epoch w) (LastEpoch (repo s) entity)) as [|Hge]; simplify_eq; [by split|].
  assert (Hle : ∀ x f, (x, f) ∈ log s → EntityID f = entity → effect_epoch f ≤ writer_epoch w)
    by (intros x f Hin <-; specialize (H2 x f Hin); lia).
  split; cbn [log minted repo effects].
  - intros x f [?|[= -> ->]%list_elem_of_singleton]%elem_of_app; [by apply H1|]. exists w. split; [by eapply list_elem_of_lookup_2|done].
  - intros x f [Hin|[= -> ->]%list_elem_of_singleton]%elem_of_app; unfold LastEpoch in *; cbn.
    + destruct (decide (EntityID f = entity)) as [<-|Hne]; [rewrite lookup_insert_eq; by eapply Hle|].
      rewrite lookup_insert_ne by done. by apply (H2 x f).
    + by rewrite lookup_insert_eq.
  - intros i j x f x' f' Hij Hi Hj He. apply list_lookup_snoc in Hi as [Hi|[-> [= -> ->]]].
    + apply list_lookup_snoc in Hj as [Hj|[_ [= -> ->]]]; [by eapply (H3 i j)|]. cbn in *. apply (Hle x); [by eapply list_elem_of_lookup_2|done].
    + apply lookup_lt_Some in Hj. rewrite length_app in Hj. cbn in Hj. lia.
  - rewrite fmap_app. cbn. by rewrite H4.
Qed.

Lemma perform_fenced s a s' : perform ttl rid s a = Some s' → fenced s → fenced s'.
Proof.
  intros Hp Hf. pose proof (perform_minted s a s' Hp) as Hm.
  destruct a as [i c|i c|i|i|i|i c|k entity m]; [..|by eapply write_fenced].
  all: assert (log s' = log s ∧ repo s' = repo s) as [Hl Hr]
    by (cbn in Hp; destruct (replicas s !! i); [|done]; cbn in Hp; repeat case_match; by simplify_eq).
  all: destruct Hf as [H1 H2 H3 H4]; split; rewrite ?Hl, ?Hr; [intros h f (w & Hw & He)%H1; eauto|done..].
Qed.

Lemma history_invariant s acts s' : history ttl rid s acts s' → ranked s → fenced s → ranked s' ∧ fenced s'.
Proof. induction 1; intros Hr Hf; [done|]. eauto using perform_ranked, perform_fenced. Qed.

Lemma starting_ok st holders : valid st → ranked (starting st holders) ∧ fenced (starting st holders).
Proof.
  intros Hv. assert (Hno : ∀ h e, ¬ bearer (starting st holders) h e).
  { intros h e [(w & Hw & _)|(r & t & Hr & Ht & _)]; [by apply not_elem_of_nil in Hw|].
    cbn in Hr. apply list_elem_of_fmap in Hr as (x & -> & _). done. }
  split; split; try done; cbn.
  - intros h e Hb. by destruct (Hno h e).
  - intros h e Hb. by destruct (Hno h e).
  - intros h h' e Hb. by destruct (Hno h e).
  - apply Forall_fmap, Forall_true. done.
  - intros h f Hin. by apply not_elem_of_nil in Hin.
  - intros h f Hin. by apply not_elem_of_nil in Hin.
Qed.

(** C8: however leases expire, change hands and are lost, and however late a writer is
    used, a deposed leader never writes behind its successor.  In every history over
    an elector that keeps the interface's laws, every writer carries the epoch of a
    lease, never 0; the writes the repository accepted for an entity have epochs that
    do not decrease; and two of them with the same epoch come from the same holder,
    so the writes of a leader to an entity are not interleaved with another's. *)
Theorem deposed_leader_is_fenced st holders acts s :
  valid st → history ttl rid (starting st holders) acts s →
  (∀ h w, (h, w) ∈ minted s → 0 < writer_epoch w) ∧
  snd <$> log s = effects (repo s) ∧
  ∀ i j h f h' f', (i < j)%nat → log s !! i = Some (h, f) → log s !! j = Some (h', f') → EntityID f = EntityID f' →
    effect_epoch f ≤ effect_epoch f' ∧ (effect_epoch f = effect_epoch f' → h = h').
Proof.
  intros Hv Hh. destruct (starting_ok st holders Hv) as [Hr0 Hf0].
  destruct (history_invariant _ _ _ Hh Hr0 Hf0) as [Hr Hf]. split_and!.
  - intros h w Hw. apply (ranked_below s Hr h). left. eauto.
  - by apply fenced_effects.
  - intros i j h f h' f' Hij Hi Hj He. split; [by eapply (fenced_order s Hf i j)|]. intros Heq.
    destruct (fenced_minted s Hf h f) as (w & Hw & Hwe); [by eapply list_elem_of_lookup_2|].
    destruct (fenced_minted s Hf h' f') as (w' & Hw' & Hwe'); [by eapply list_elem_of_lookup_2|].
    apply (ranked_unique s Hr h h' (effect_epoch f)); left; [by exists w|exists w'; split; [done|congruence]].
Qed.
End safety.

(** ** A handoff over Postgres *)

Module Handoff.
Definition ttl : LeaseTTL := TTL 15000.
Definition at_second (n : Z) : call := Call (n * Second) (n * Second) Answered.

(** A leads and writes; its lease runs out while it is busy; B takes over and writes;
    A, which has not noticed, writes again, and then finds its lease lost. *)
Definition acts : list act :=
  [Acquire 0 (at_second 0); Mint 0; Write 0 "x" "a1"; Acquire 1 (at_second 10); Acquire 1 (at_second 16);
   Mint 1; Write 1 "x" "b1"; Write 0 "x" "a2"; Write 1 "x" "b2"; Renew 0 (at_second 17); Drained 0; Release 0 (at_second 18)].
End Handoff.

Lemma deposed_leader_is_fenced_witness :
  ∃ s : system lease_table,
    history Handoff.ttl "r" (starting ∅ ["A"; "B"]) Handoff.acts s ∧
    log s = [("A", Effect "x" 1 "a1"); ("B", Effect "x" 2 "b1"); ("B", Effect "x" 2 "b2")] ∧
    ∀ h w, (h, w) ∈ minted s → 0 < writer_epoch w.
Proof.
  assert (∃ s : system lease_table, history Handoff.ttl "r" (starting ∅ ["A"; "B"]) Handoff.acts s ∧
    log s = [("A", Effect "x" 1 "a1"); ("B", Effect "x" 2 "b1"); ("B", Effect "x" 2 "b2")]) as (s & Hh & Hlog).
  { eexists. split.
    - unfold Handoff.acts. repeat (eapply history_act; [intros; exact I|vm_compute; reflexivity|]). apply history_nil.
    - reflexivity. }
  exists s. split; [exact Hh|]. split; [exact Hlog|].
  apply (deposed_leader_is_fenced Handoff.ttl "r" ∅ ["A"; "B"] Handoff.acts s); [apply (map_Forall_empty (λ _ r, 0 < epoch r))|exact Hh].
Defined.

(** ** What the laws leave open *)

(** A term given up at once is taken back at once: the store grants the lease to the
    replica that has just released it, at the same instant, with the next epoch. *)
Lemma relinquished_lease_is_taken_back ttl c rid h (t : lease_table) row :
  t !! rid = Some row → holder_id row = h → 0 < epoch row < MaxInt64 → fate c = Answered →
  ∃ token, (AcquireLease ttl c h rid (ReleaseLease c h rid t).2).1 = Ok token ∧ Epoch token = epoch row + 1.
Proof.
  intros Ht <- He Hf. cbn [AcquireLease ReleaseLease pg_elector]. unfold pg_AcquireLease, pg_ReleaseLease. rewrite Hf. cbn [snd].
  unfold pgReconcileReleaseSQL, pgReconcileAcquireSQL. rewrite Ht. assert (str_eqb (holder_id row) (holder_id row) = true) as Hr by (by apply bool_decide_eq_true).
  rewrite Hr, lookup_insert_eq. cbn [expires_at holder_id epoch]. rewrite Hr. unfold Second, Millisecond.
  destruct (Z.ltb_spec (server_now c - 1000 * 1000000) (server_now c)); [|lia].
  destruct (Z.ltb_spec (server_now c) (server_now c - 1000 * 1000000)); [lia|]. cbn [orb andb].
  destruct (Z.ltb_spec MaxInt64 (epoch row + 1)); [lia|]. eexists. split; [reflexivity|]. cbn. unfold epochToUint64.
  destruct (Z.ltb_spec (epoch row + 1) 0); lia.
Qed.

(** Once Redis has dropped the epoch key, another holder is granted an epoch that was
    granted before: without the store being intact, the laws do not hold. *)
Lemma evicted_epoch_is_granted_again :
  let c0 := Call 0 0 Answered in let c1 := Call (16 * Second) (16 * Second) Answered in
  let '(r0, k) := redis_AcquireLease "ns" (TTL 15000) c0 "A" "r" ∅ in
  let '(r1, _) := redis_AcquireLease "ns" (TTL 15000) c1 "B" "r" (delete (epochKey "ns" "r") k) in
  (Epoch <$> r0) = Ok 1 ∧ (Epoch <$> r1) = Ok 1.
Proof. vm_compute. done. Qed.

(** A lease is renewed at a third of its window, so that two renewals may be missed. *)
Lemma renewed_in_time d ttl rid h e now :
  int64_range d → NewLeaseTTL d = Ok ttl →
  let token := Token rid h e now (now + ms ttl * Millisecond) in
  0 < renewIntervalFor 0 token ∧ 3 * renewIntervalFor 0 token ≤ ms ttl * Millisecond.
Proof.
  unfold NewLeaseTTL, int64_range, MinInt64, MaxInt64. destruct (Z.ltb_spec d Millisecond) as [|Hd]; [done|].
  intros Hr [= <-]. unfold renewIntervalFor, Sub, MinInt64, MaxInt64. cbn [ms ExpiresAt AcquiredAt].
  unfold Millisecond in *. rewrite Z.quot_div_nonneg by lia.
  assert (1 ≤ d / 1000000) by (apply Z.div_le_lower_bound; lia).
  assert (d / 1000000 * 1000000 ≤ d) by (rewrite Z.mul_comm; apply Z.mul_div_le; lia).
  rewrite Z.min_r, Z.max_r by lia. rewrite Z.quot_div_nonneg by lia. cbn [Z.ltb].
  pose proof (Z.div_le_lower_bound (d / 1000000 * 1000000) 3 1 ltac:(lia) ltac:(lia)).
  pose proof (Z.mul_div_le (d / 1000000 * 1000000) 3 ltac:(lia)).
  assert (now + d / 1000000 * 1000000 - now = d / 1000000 * 1000000) as -> by lia.
  replace (0 <? 0) with false by done. destruct (Z.ltb_spec 0 (d / 1000000 * 1000000 / 3)); lia.
Qed.
